(* ===== verification/_CoqProject ===== *)
-Q . S2P
Prelude.v
Bytes.v
Lib.v
OnesComplement.v
Checksum.v
ReadBounds.v
BitFields.v
Header.v
Tcp.v
Udp.v
Ethernet.v
Ipv4.v
Packet.v
Link.v
Kernel.v
Memory.v
App.v
Offload.v
Tsd.v
Frames.v
Flow.v
Qos.v
DelayQueue.v
BasicApps.v
RawSocket.v
Config.v
Engine.v
BreatheOrder.v
Interface.v
Provenance.v
AppRules.v
Apps.v
Report.v
ReportText.v
Configure.v
Reconfigure.v
Breathe.v
Network.v
SyntheticNetwork.v
SyntheticGraph.v
Routes.v
Serve.v
Selftest.v
Scenario.v
SelftestApps.v
SelftestLaws.v
SelftestRuns.v
