(* ===== verification/Prelude.v ===== *)
(** * Verification of rush, the packet processor of the synthetic network

    rush (src/rush/src/) moves packets between two network devices through a
    network of small apps that limit the rate of flows, drop, delay and reorder
    packets.  The program reads a specification, configures the network that it
    describes, and runs it until SIGHUP asks for the next specification.

    ** The parts, from the bottom up

    - Prelude: outcomes of running code ([Ok], [Panic], [UB], [NoFuel]), the
      state monad [ST], loops, the rules [wp]/[wpx] for what a computation
      returns and how it may panic, machine integers, tactics.  Bytes,
      OnesComplement, BitFields: little-endian words and slices, sums modulo
      65535, bit fields in network byte order.
    - Lib (lib.rs): memory fill and copy, byte order, comma_value.
    - Checksum, ReadBounds (checksum.rs): the reference routine and the x86_64
      and aarch64 assembly, instruction by instruction on registers and carry.
    - Header, Ethernet, Ipv4, Tcp, Udp (header.rs, ethernet.rs, ipv4.rs,
      tcp.rs, udp.rs): packed structs over packet memory, getters, setters and
      checksums.  The interface is the class [Layout] with its laws.
    - Packet, Link (packet.rs, link.rs): packets are locations of a heap, the
      mutable statics a record [pstate]; the freelist ([Inv]) and the ring
      buffer ([link_rep]) refine a set of free packets and a bounded queue.
    - Kernel: system calls, answered by a parameter.  Memory (memory.rs): memory
      for DMA from huge pages.
    - App (engine.rs, seen by an app): links are shared cells, borrowed at run
      time; the clock and the random numbers are streams of the [World].
      [winv Q owned w] says that the packets in use are those of the queues [Q]
      and those [owned], each once: what leaves an app by any way is accounted
      for.
    - The apps: Offload and Tsd (offload.rs), Flow (flow.rs), Qos and
      DelayQueue (qos.rs), BasicApps (basic_apps.rs), RawSocket
      (rawsocket_app.rs).  Frames: packets whose headers fit into them, and
      the class [Preserved] of properties that all apps preserve.
    - Config (config.rs): configurations and the syntax of links.
    - Engine, BreatheOrder, Configure, Reconfigure, Breathe, Report, ReportText,
      Network (engine.rs): the tables of the engine, compute_breathe_order,
      configure with its reference-counted links, the migration from one network
      to another, breathing, main and reports, and what holds of whole runs.
      They are proved for any apps that meet the class [AppLaws] (Interface):
      whatever property of packets devices establish and apps preserve holds of
      every packet, and of what is written to devices.  Provenance: being made
      from a frame that was delivered is such a property.
    - AppRules, Apps: all apps of the program meet it.  Wired so that it [fits],
      their panics are [fatal] (no packets left, a delay queue with no packet
      behind a delay, a call of libc that failed); with no such condition
      [any] panic may occur.
    - SyntheticNetwork, SyntheticGraph, Routes, Serve (synthetic_network.rs):
      the translation of a specification, the graph it is to build, the ways
      from device to device along its links, the program.
    - Scenario: the theorems applied to engines that run; frames cross the
      network from device to device.
    - Selftest, SelftestApps, SelftestRuns: the tests in the source files, as
      computations on the model.  They pass: for all random bytes
      (checksum_random_passes), from any memory (link_test_passes), or in the
      runs of SelftestRuns.  SelftestLaws: the apps of the tests meet [AppLaws].

    Definitions have the names of the code.  A function that changes a static
    or a packet is a computation in [ST pstate], one that uses links, the clock
    or system calls in [ST World], one of the engine in [ST EngineState].

    ** What is shown

    - The program as a whole: synthetic_network_serves (every round ends with
      the network of the latest good specification running, unless the process
      stops with a [fatal] panic),
      synthetic_network_forwards (every frame that is written is made from one
      that was delivered), synthetic_network_configured and
      synthetic_network_runs (exactly the specified graph is built, and breathed
      through), routes_through_qos (the ways along the links that
      configure_synthetic_network makes and the engine then has).
    - The engine: network_safe (well-formedness, no packet lost, no undefined
      behaviour, for any sequence of calls), configure_migrates,
      main_duration_returns, pace_regulates, report_links_percent and
      format_fixed_rounds; breathe_order_complete, breathe_order_follows_links
      (in networks with layers, such as the synthetic network) and the limits
      breathe_order_starves and breathe_order_nondeterministic.
    - The apps: what leaves each app for what enters it, in which order and
      when: tsd_cuts, checksum_fills_in, tsd_then_checksum, split_routes, top_push_counts,
      rate_limit_conforms, latency_delays, jitter_push_spec, loss_push_spec,
      join_push_merges, rawsocket_pull_receives, rawsocket_push_sends, and
      the panics and undefined behaviour that some inputs lead to
      (latency_full_panics, split_default_label_panics,
      checksum_runt_reads_outside).
    - The data structures: dma_alloc_disjoint, allocate_fresh,
      free_returns, preallocate_bounds, link_refines_fifo, link_round_trip, ipv4_set_get, ethernet_ntop_pton,
      flow_id_layout; the checksums: checksum_agrees_with_reference,
      ipsum_verifies, ipsum_chain, and the checksum_compute theorems.

    ** Fuel

    Loops whose end is not structural take fuel; [NoFuel] is no behaviour of
    the code, and every theorem shows that it does not occur.  The freelist
    grows in at most 10 steps; loops over a link run at most 1023 times, as
    many as a link holds; a TCP payload of n bytes has at most n segments; a
    delay queue is drained in as many steps as it has entries; the breathe
    order takes at most one round for each app; select(2) is retried at most
    [retries] times.  The breaths of main are bounded by a parameter: that it
    is enough follows from the clock passing the deadline, or from the signal.

    ** Assumptions

    Integers wrap around, as in release builds.  The order in which hash tables
    are iterated is a parameter ([HashOrder]).  The kernel answers as its
    manual says ([KernelLaws]); where all apps are together, network devices
    deliver frames whose headers fit into them ([delivers framed], or the
    stronger [proper_frame] of Provenance): without that,
    checksum_runt_reads_outside applies.  Instants stay far from the end of
    their range.  Losses in a specification are not NaN (JSON has none).  The
    representation that configurations are compared by tells
    different ones apart (a hypothesis on [Debug]).  Names in links, labels and
    interface names are ASCII.

    ** Not modelled

    main.rs (it calls the program); new_packet of packet.rs, which is never
    chosen; JSON, files and the registration of signal handlers (the contents of
    the file and the arrival of SIGHUP are parameters); most of what tests
    print; the vendored crates and the JavaScript frontend.  The run of one
    test, latency_test, takes long and is left out. *)

From stdpp Require Export base tactics option list numbers strings gmap fin_maps sets.
From Stdlib Require Export ZArith Lia.

(** set_solver clears hypotheses that other branches have used up. *)
#[export] Set Warnings "-clear-no-such-hyp".

#[local] Open Scope Z_scope.

(** ** Outcomes of running code

    Rust code of this repository ends in one of these ways.  [Panic] is a
    Rust panic (failed [assert!], [unwrap] on [None], explicit [panic!]),
    [UB] is a step of [unsafe] code outside of what the language defines (a
    read outside of a slice, a null pointer turned into a [Box]); [NoFuel]
    never is a behaviour of the code: theorems show that the fuel given to a
    loop is enough. *)

Inductive outcome (A : Type) : Type :=
  | Ok (a : A)
  | Panic (msg : string)
  | UB (what : string)
  | NoFuel.
Arguments Ok {A} a.
Arguments Panic {A} msg.
Arguments UB {A} what.
Arguments NoFuel {A}.

#[export] Instance outcome_ret : MRet outcome := @Ok.
#[export] Instance outcome_bind : MBind outcome := λ A B f m,
  match m with
  | Ok a => f a
  | Panic e => Panic e
  | UB e => UB e
  | NoFuel => NoFuel
  end.

(** [o.expect(msg)]/[o.unwrap()]. *)
Definition unwrap {A} (msg : string) (o : option A) : outcome A :=
  match o with Some a => Ok a | None => Panic msg end.

Definition assert (msg : string) (b : bool) : outcome unit :=
  if b then Ok tt else Panic msg.

(** ** Stateful code: a state monad over [outcome] *)

Definition ST (S A : Type) : Type := S → outcome (A * S).

#[export] Instance st_ret {S} : MRet (ST S) := λ A a s, Ok (a, s).
#[export] Instance st_bind {S} : MBind (ST S) := λ A B f m s,
  match m s with
  | Ok (a, s') => f a s'
  | Panic e => Panic e
  | UB e => UB e
  | NoFuel => NoFuel
  end.

Definition get {S} : ST S S := λ s, Ok (s, s).
Definition put {S} (s : S) : ST S () := λ _, Ok (tt, s).
Definition modify {S} (f : S → S) : ST S () := λ s, Ok (tt, f s).
Definition lift {S A} (o : outcome A) : ST S A := λ s,
  match o with
  | Ok a => Ok (a, s)
  | Panic e => Panic e
  | UB e => UB e
  | NoFuel => NoFuel
  end.
Definition panic {S A} (msg : string) : ST S A := λ _, Panic msg.
Definition no_fuel {S A} : ST S A := λ _, NoFuel.
Definition undefined {S A} (what : string) : ST S A := λ _, UB what.

(** Weakest precondition of a stateful computation: it returns, and [Q] holds
    of the value and the final state; or it panics with a message [E] admits.
    It never is undefined and never runs out of fuel. *)
Definition wpx {S A} (E : string → Prop) (m : ST S A) (Q : A → S → Prop) (s : S) : Prop :=
  match m s with
  | Ok (a, s') => Q a s'
  | Panic e => E e
  | UB _ => False
  | NoFuel => False
  end.

(** What holds of the computation holds of a run of it. *)
Lemma wpx_ok {S A} E (m : ST S A) (Q : A → S → Prop) s a s' : wpx E m Q s → m s = Ok (a, s') → Q a s'.
Proof. unfold wpx. intros Hm Heq. by rewrite Heq in Hm. Qed.

(** No panic is admitted: total correctness. *)
Definition no_panic (e : string) : Prop := False.
Abbreviation wp := (wpx no_panic).

Section wp.
Context {S : Type} (E : string → Prop).

Lemma wpx_ret {A} (a : A) Q (s : S) : Q a s → wpx E (mret a) Q s.
Proof. done. Qed.

Lemma wpx_bind {A B} (m : ST S A) (f : A → ST S B) Q s :
  wpx E m (λ a, wpx E (f a) Q) s → wpx E (m ≫= f) Q s.
Proof. unfold wpx, mbind, st_bind. by destruct (m s) as [[a s']| | |]. Qed.

Lemma wpx_mono {A} (m : ST S A) (Q Q' : A → S → Prop) s :
  wpx E m Q s → (∀ a s', Q a s' → Q' a s') → wpx E m Q' s.
Proof. unfold wpx. destruct (m s) as [[a s']| | |]; eauto. Qed.

Lemma wpx_get Q (s : S) : Q s s → wpx E get Q s.
Proof. done. Qed.

Lemma wpx_put Q (s s' : S) : Q tt s' → wpx E (put s') Q s.
Proof. done. Qed.

Lemma wpx_modify Q (f : S → S) s : Q tt (f s) → wpx E (modify f) Q s.
Proof. done. Qed.

Lemma wpx_lift {A} (o : outcome A) (a : A) Q (s : S) :
  o = Ok a → Q a s → wpx E (lift o) Q s.
Proof. by intros ->. Qed.

Lemma wpx_weaken {A} (E' : string → Prop) (m : ST S A) Q s :
  wpx E' m Q s → (∀ e, E' e → E e) → wpx E m Q s.
Proof. unfold wpx. destruct (m s) as [[a s']| | |]; auto; done. Qed.

Lemma wp_conseq {A} (m : ST S A) (Q Q' : A → S → Prop) s :
  wpx no_panic m Q s → (∀ a s', Q a s' → Q' a s') → wpx E m Q' s.
Proof. unfold wpx. destruct (m s) as [[a s']| | |]; auto; done. Qed.

(** A computation that meets a specification without panics returns. *)
Lemma wp_returns {A} (m : ST S A) Q s :
  wpx no_panic m Q s → ∃ a s', m s = Ok (a, s') ∧ Q a s'.
Proof. unfold wpx. destruct (m s) as [[a s']| | |]; [eauto|done..]. Qed.
End wp.

(** ** Machine integers

    An unsigned [w]-bit integer is a [Z] in [0 .. 2^w); arithmetic of the
    release build (the Makefile and the Dockerfile build with --release) wraps
    around. *)

Definition u8 (z : Z) : Z := z mod 256.
Definition u16 (z : Z) : Z := z mod 65536.
Definition u32 (z : Z) : Z := z mod 4294967296.
Definition u64 (z : Z) : Z := z mod 18446744073709551616.

Definition is_u8 (z : Z) : Prop := 0 ≤ z < 256.
Definition is_u16 (z : Z) : Prop := 0 ≤ z < 65536.
Definition is_u32 (z : Z) : Prop := 0 ≤ z < 4294967296.
Definition is_u64 (z : Z) : Prop := 0 ≤ z < 18446744073709551616.

#[export] Instance is_u8_dec z : Decision (is_u8 z) := _.
#[export] Instance is_u16_dec z : Decision (is_u16 z) := _.
#[export] Instance is_u32_dec z : Decision (is_u32 z) := _.
#[export] Instance is_u64_dec z : Decision (is_u64 z) := _.

(** [!x] on a [u16]. *)
Definition not16 (x : Z) : Z := 65535 - u16 x.

Ltac unfold_ints :=
  unfold is_u8, is_u16, is_u32, is_u64, not16, u8, u16, u32, u64 in *.

(** Linear arithmetic over machine integers: [mod] and [div] by constants. *)
Ltac word := unfold_ints; Z.div_mod_to_equations; lia.

Lemma u8_range z : is_u8 (u8 z). Proof. word. Qed.
Lemma u16_range z : is_u16 (u16 z). Proof. word. Qed.
Lemma u32_range z : is_u32 (u32 z). Proof. word. Qed.
Lemma u64_range z : is_u64 (u64 z). Proof. word. Qed.
Lemma u8_id z : is_u8 z → u8 z = z. Proof. word. Qed.
Lemma u16_id z : is_u16 z → u16 z = z. Proof. word. Qed.
Lemma u32_id z : is_u32 z → u32 z = z. Proof. word. Qed.
Lemma u64_id z : is_u64 z → u64 z = z. Proof. word. Qed.
Lemma not16_range z : is_u16 (not16 z). Proof. word. Qed.
Lemma not16_involutive z : is_u16 z → not16 (not16 z) = z. Proof. word. Qed.

Create HintDb word_ranges.
#[export] Hint Resolve u8_range u16_range u32_range u64_range not16_range : word_ranges.

Create Rewrite HintDb ints.
#[export] Hint Rewrite u8_id u16_id u32_id u64_id not16_involutive
  using (first [assumption | word]) : ints.

(** A decidable proposition about concrete data, by evaluation. *)
Ltac by_compute := apply (bool_decide_eq_true_1 _); vm_compute; reflexivity.

(** for _ in 0..n { m } *)
Fixpoint repeat_st {S} (n : nat) (m : ST S ()) : ST S () :=
  match n with
  | O => mret tt
  | S n' => m;; repeat_st n' m
  end.

Lemma repeat_st_inv {S} (E : string → Prop) (m : ST S ()) (I : nat → S → Prop) n s :
  I O s →
  (∀ i s, (i < n)%nat → I i s → wpx E m (λ _ s', I (Datatypes.S i) s') s) →
  wpx E (repeat_st n m) (λ _ s', I n s') s.
Proof.
  intros H0 Hstep.
  assert (∀ k i s, (i + k = n)%nat → I i s → wpx E (repeat_st k m) (λ _ s', I n s') s) as H;
    [|by apply (H n O)].
  induction k as [|k IH]; intros i s' Hn Hi; simpl.
  - apply wpx_ret. by replace n with i by lia.
  - apply wpx_bind. eapply wpx_mono; [by apply (Hstep i); [lia|]|].
    intros ? s'' Hi'. apply (IH (Datatypes.S i)); [lia|done].
Qed.

(** One step of a stateful computation in a goal [wpx E m Q s]. *)
Ltac wp_step :=
  lazymatch goal with
  | |- wpx _ (mbind _ _) _ _ => apply wpx_bind
  | |- wpx _ (mret _) _ _ => apply wpx_ret
  | |- wpx _ get _ _ => apply wpx_get
  | |- wpx _ (put _) _ _ => apply wpx_put
  | |- wpx _ (modify _) _ _ => apply wpx_modify
  end; cbv beta.
Ltac wp_steps := repeat wp_step.

(** while cond { body }, threading a value [a] (a local variable, or the app). *)
Fixpoint while_st {S A} (fuel : nat) (cond : A → ST S bool) (body : A → ST S A) (a : A) : ST S A :=
  b ← cond a;
  if (b : bool) then
    match fuel with
    | O => no_fuel
    | Datatypes.S fuel => a' ← body a; while_st fuel cond body a'
    end
  else mret a.

(** Each round consumes the head of a list, of which [I] holds; the loop may
    stop before the end of the list. *)
Lemma while_st_list {S A X} (E : string → Prop) (cond : A → ST S bool) (body : A → ST S A)
    (I : list X → A → S → Prop) (Q : A → S → Prop) :
  (∀ a s, I [] a s → wpx E (cond a) (λ b s', b = false ∧ Q a s') s) →
  (∀ x xs a s, I (x :: xs) a s →
    wpx E (cond a) (λ b s', if (b : bool) then wpx E (body a) (I xs) s' else Q a s') s) →
  ∀ xs fuel a s, I xs a s → (length xs ≤ fuel)%nat → wpx E (while_st fuel cond body a) Q s.
Proof.
  intros Hnil Hcons. induction xs as [|x xs IH]; intros fuel a s HI Hf.
  - destruct fuel as [|fuel]; simpl; apply wpx_bind; (eapply wpx_mono; [by apply Hnil|]);
      intros b s' [-> HQ]; by apply wpx_ret.
  - destruct fuel as [|fuel]; simpl in Hf; [lia|]. simpl. apply wpx_bind.
    eapply wpx_mono; [by eapply Hcons|]. intros [] s' HQ; [|by apply wpx_ret].
    apply wpx_bind. eapply wpx_mono; [exact HQ|]. intros a' s'' HI'. apply IH; [done|lia].
Qed.

(** for x in xs { body } *)
Fixpoint for_st {S X} (xs : list X) (body : X → ST S ()) : ST S () :=
  match xs with
  | [] => mret tt
  | x :: xs => body x;; for_st xs body
  end.

Lemma for_st_inv {S X} (E : string → Prop) (body : X → ST S ()) (I : list X → list X → S → Prop) :
  (∀ done x xs s, I done (x :: xs) s → wpx E (body x) (λ _ s', I (done ++ [x]) xs s') s) →
  ∀ xs done s, I done xs s → wpx E (for_st xs body) (λ _ s', I (done ++ xs) [] s') s.
Proof.
  intros Hstep. induction xs as [|x xs IH]; intros ds s HI; simpl.
  - apply wpx_ret. by rewrite app_nil_r.
  - apply wpx_bind. eapply wpx_mono; [by apply Hstep|]. intros ? s' HI'.
    rewrite cons_middle, app_assoc. by apply IH.
Qed.

(** ** Permutations of concatenations, by cancellation *)

Section permutation.
Context {A : Type}.
Implicit Types a b l r : list A.

Lemma perm_take_here a r : a ++ r ≡ₚ a ++ r.
Proof. done. Qed.
Lemma perm_take_last a : a ≡ₚ a ++ [].
Proof. by rewrite app_nil_r. Qed.
Lemma perm_take_skip a b r r' : r ≡ₚ a ++ r' → b ++ r ≡ₚ a ++ (b ++ r').
Proof. intros ->. apply Permutation_app_swap_app. Qed.
Lemma perm_cancel a l r r' : r ≡ₚ a ++ r' → l ≡ₚ r' → a ++ l ≡ₚ r.
Proof. intros -> ->. done. Qed.
Lemma perm_cancel_last a r r' : r ≡ₚ a ++ r' → [] ≡ₚ r' → a ≡ₚ r.
Proof. intros -> <-. by rewrite app_nil_r. Qed.
Lemma cons_app (x : A) l : x :: l = [x] ++ l.
Proof. done. Qed.
End permutation.

Ltac perm_norm :=
  repeat match goal with
  | |- context [?x :: ?l] =>
      lazymatch l with [] => fail | _ => rewrite (cons_app x l) end
  end;
  rewrite ?app_nil_r; rewrite <-?app_assoc; rewrite ?app_nil_l.
Ltac perm_take :=
  first [apply perm_take_here | apply perm_take_last | apply perm_take_skip; perm_take].
Ltac solve_perm :=
  perm_norm;
  repeat first
    [ reflexivity
    | eapply perm_cancel; [perm_take|]
    | eapply perm_cancel_last; [perm_take|] ];
  rewrite ?app_nil_r; try reflexivity.
