(* ===== verification/Bytes.v ===== *)
(** * Bytes, little-endian words and slices

    The memory the code looks at through [&[u8]] slices and casts of raw
    pointers: lists of bytes, their reading as little-endian words (both
    targets of the code, x86_64 and aarch64, are little-endian), and reading
    or overwriting a part of a list in place. *)

From S2P Require Import Prelude.
#[local] Open Scope Z_scope.

Abbreviation bytes := (list Z).
Abbreviation are_bytes := (Forall is_u8).

(** ** Little-endian words *)

Fixpoint le_val (bs : bytes) : Z :=
  match bs with
  | [] => 0
  | b :: bs' => b + 256 * le_val bs'
  end.

Fixpoint le_bytes (n : nat) (z : Z) : bytes :=
  match n with
  | O => []
  | S n' => u8 z :: le_bytes n' (z / 256)
  end.

Lemma length_le_bytes n z : length (le_bytes n z) = n.
Proof. revert z. induction n; intros; simpl; auto. Qed.

Lemma le_bytes_are_bytes n z : are_bytes (le_bytes n z).
Proof. revert z. induction n; intros; simpl; constructor; auto using u8_range. Qed.

Lemma pow256_succ n : 256 ^ Z.of_nat (S n) = 256 * 256 ^ Z.of_nat n.
Proof. rewrite Nat2Z.inj_succ, Z.pow_succ_r by lia. done. Qed.

Lemma le_val_bound bs : are_bytes bs → 0 ≤ le_val bs < 256 ^ Z.of_nat (length bs).
Proof.
  induction 1 as [|b bs Hb _ IH]; [done|].
  cbn [length]. rewrite pow256_succ. unfold is_u8 in Hb. simpl. lia.
Qed.

Lemma le_val_le_bytes n z : le_val (le_bytes n z) = z mod 256 ^ Z.of_nat n.
Proof.
  revert z. induction n as [|n IH]; intros z; [symmetry; apply Z.mod_1_r|].
  cbn [le_bytes le_val]. rewrite IH, pow256_succ.
  rewrite Z.rem_mul_r by lia. unfold u8. lia.
Qed.

Lemma le_bytes_le_val bs : are_bytes bs → le_bytes (length bs) (le_val bs) = bs.
Proof.
  induction 1 as [|b bs Hb _ IH]; [done|]. simpl.
  f_equal.
  - unfold u8. rewrite Z.mul_comm, Z.mod_add by lia. by apply Z.mod_small.
  - rewrite Z.mul_comm, Z.div_add by lia. rewrite Z.div_small by done. by rewrite Z.add_0_l.
Qed.

(** ** Slices of a list *)

(** [&l[ofs..ofs+len]], for a slice that is in range. *)
Definition slice (ofs len : nat) {A} (l : list A) : list A := take len (drop ofs l).

(** Overwrite the elements of [l] from [ofs] on by [new]. *)
Definition splice (ofs : nat) {A} (new l : list A) : list A :=
  take ofs l ++ new ++ drop (ofs + length new) l.

Section slices.
Context {A : Type}.
Implicit Types l new : list A.

Lemma length_slice ofs len l :
  (ofs + len ≤ length l)%nat → length (slice ofs len l) = len.
Proof. unfold slice. rewrite length_take, length_drop. lia. Qed.

Lemma length_splice ofs new l :
  (ofs + length new ≤ length l)%nat → length (splice ofs new l) = length l.
Proof. unfold splice. rewrite !length_app, length_take, length_drop. lia. Qed.

Lemma lookup_slice ofs len l i :
  (i < len)%nat → slice ofs len l !! i = l !! (ofs + i)%nat.
Proof. intros. unfold slice. by rewrite lookup_take_lt, lookup_drop. Qed.

Lemma lookup_splice_in ofs new l i :
  (ofs + length new ≤ length l)%nat → (ofs ≤ i < ofs + length new)%nat →
  splice ofs new l !! i = new !! (i - ofs)%nat.
Proof.
  intros Hl Hi. unfold splice.
  rewrite lookup_app_r by (rewrite length_take; lia).
  rewrite lookup_app_l by (rewrite length_take; lia).
  f_equal. rewrite length_take. lia.
Qed.

Lemma lookup_splice_out ofs new l i :
  (ofs + length new ≤ length l)%nat → (i < ofs ∨ ofs + length new ≤ i)%nat →
  splice ofs new l !! i = l !! i.
Proof.
  intros Hl Hi. unfold splice. destruct (decide (i < ofs)%nat).
  - rewrite lookup_app_l by (rewrite length_take; lia). by rewrite lookup_take_lt.
  - rewrite !lookup_app_r by (rewrite ?length_take; lia).
    rewrite lookup_drop, length_take. f_equal. lia.
Qed.

Lemma slice_ext ofs len l l' :
  (∀ i, (ofs ≤ i < ofs + len)%nat → l !! i = l' !! i) → slice ofs len l = slice ofs len l'.
Proof.
  intros H. apply list_eq. intros i. destruct (decide (i < len)%nat).
  - rewrite !lookup_slice by done. apply H. lia.
  - unfold slice. rewrite !lookup_take_ge by lia. done.
Qed.

(** Reading what was just written. *)
Lemma slice_splice_eq ofs new l :
  (ofs + length new ≤ length l)%nat → slice ofs (length new) (splice ofs new l) = new.
Proof.
  intros Hl. apply list_eq. intros i. destruct (decide (i < length new)%nat).
  - rewrite lookup_slice, lookup_splice_in by lia. f_equal. lia.
  - rewrite (lookup_ge_None_2 new) by lia. apply lookup_ge_None_2.
    rewrite length_slice; rewrite ?length_splice; lia.
Qed.

(** Reading what was not written. *)
Lemma slice_splice_ne ofs len ofs' new l :
  (ofs' + length new ≤ length l)%nat →
  (ofs + len ≤ ofs' ∨ ofs' + length new ≤ ofs)%nat →
  slice ofs len (splice ofs' new l) = slice ofs len l.
Proof. intros Hl Hd. apply slice_ext. intros i Hi. apply lookup_splice_out; lia. Qed.

(** Writing back what was read changes nothing. *)
Lemma splice_slice_id ofs len l :
  (ofs + len ≤ length l)%nat → splice ofs (slice ofs len l) l = l.
Proof.
  intros Hl. unfold splice. rewrite length_slice by done. unfold slice.
  rewrite <-drop_drop, take_drop. apply take_drop.
Qed.

Lemma splice_splice ofs new new' l :
  length new = length new' → (ofs + length new ≤ length l)%nat →
  splice ofs new' (splice ofs new l) = splice ofs new' l.
Proof.
  intros Hn Hl. apply list_eq. intros i.
  destruct (decide (ofs ≤ i < ofs + length new)%nat).
  - rewrite !lookup_splice_in; rewrite ?length_splice; lia || done.
  - rewrite !lookup_splice_out; rewrite ?length_splice; try lia; done.
Qed.

Lemma Forall_slice (P : A → Prop) ofs len l : Forall P l → Forall P (slice ofs len l).
Proof. intros. unfold slice. auto using Forall_take, Forall_drop. Qed.

Lemma Forall_splice (P : A → Prop) ofs new l :
  Forall P new → Forall P l → Forall P (splice ofs new l).
Proof. intros. unfold splice. repeat apply Forall_app_2; auto using Forall_take, Forall_drop. Qed.

Lemma slice_all l : slice 0 (length l) l = l.
Proof. unfold slice. rewrite drop_0. by apply firstn_all. Qed.

Lemma slice_app ofs n m l :
  slice ofs (n + m) l = slice ofs n l ++ slice (ofs + n) m l.
Proof. unfold slice. rewrite <-drop_drop. symmetry. apply take_take_drop. Qed.
End slices.

Lemma slice_slice {A} a n b m (l : list A) : (a + n ≤ m)%nat → slice a n (slice b m l) = slice (b + a) n l.
Proof. intros Hl. unfold slice. rewrite skipn_firstn_comm, take_take, drop_drop. f_equal. lia. Qed.

(** Fields of one, two and four bytes. *)
Lemma slice_1 n (l : bytes) : (n < length l)%nat → slice n 1 l = [nth n l 0].
Proof.
  intros Hn. destruct (lookup_lt_is_Some_2 l n Hn) as [x Hx]. unfold slice.
  rewrite (drop_S _ _ _ Hx). simpl. by rewrite (nth_lookup_Some _ _ _ _ Hx).
Qed.

Lemma slice_2 n (l : bytes) : (n + 2 ≤ length l)%nat → slice n 2 l = [nth n l 0; nth (n + 1) l 0].
Proof. intros Hn. rewrite (slice_app n 1 1), !slice_1 by lia. done. Qed.

Lemma slice_4 n (l : bytes) : (n + 4 ≤ length l)%nat →
  slice n 4 l = [nth n l 0; nth (n + 1) l 0; nth (n + 2) l 0; nth (n + 3) l 0].
Proof.
  intros Hn. rewrite (slice_app n 2 2), !slice_2 by lia. simpl. by rewrite <-Nat.add_assoc.
Qed.

(** Distances between offsets are settled by [lia] when these lemmas rewrite. *)
Create HintDb slices.
#[export] Hint Resolve Forall_slice Forall_splice le_bytes_are_bytes : slices.
