(* ===== verification/Lib.v ===== *)
(** * lib.rs: memory fill and copy, alignment, byte order, number formatting

    [libc::getrandom] ([random_bytes], used by tests only) is not modelled. *)

From stdpp Require Export pretty.
From Stdlib Require Export Ascii.
From Stdlib Require String.
From S2P Require Import Prelude Bytes.
#[local] Open Scope Z_scope.

(** ** Memory *)

(** [fill(dst, len, val)]: the first [min(len, dst.len())] bytes become [val]. *)
Definition fill (dst : bytes) (len : nat) (val : Z) : bytes :=
  let n := Nat.min len (length dst) in
  replicate n val ++ drop n dst.

(** [copy(dst, src, len)]: the new contents of [dst]. *)
Definition copy (dst src : bytes) (len : nat) : bytes :=
  let n := Nat.min len (Nat.min (length src) (length dst)) in
  take n src ++ drop n dst.

Lemma length_copy dst src len : length (copy dst src len) = length dst.
Proof. unfold copy. rewrite length_app, length_take, length_drop. lia. Qed.

Lemma fill_are_bytes dst len val :
  is_u8 val → are_bytes dst → are_bytes (fill dst len val).
Proof.
  intros. unfold fill. apply Forall_app_2; [|by apply Forall_drop].
  by apply Forall_replicate.
Qed.

Lemma copy_are_bytes dst src len :
  are_bytes dst → are_bytes src → are_bytes (copy dst src len).
Proof. intros. unfold copy. apply Forall_app_2; auto using Forall_take, Forall_drop. Qed.

#[export] Hint Resolve fill_are_bytes copy_are_bytes : slices.

(** ** Alignment *)

(** [align(value, size)] on [usize]; [% 0] panics. *)
Definition align (value size : Z) : outcome Z :=
  if size =? 0 then Panic "attempt to calculate the remainder with a divisor of zero"
  else if value mod size =? 0 then Ok value
  else Ok (u64 (value + size - value mod size)).

Lemma align_spec value size :
  0 ≤ value → 0 < size → value + size < 2 ^ 64 →
  ∃ v, align value size = Ok v ∧ v mod size = 0 ∧ value ≤ v < value + size.
Proof.
  intros Hv Hs Hb. change (2 ^ 64) with 18446744073709551616 in Hb.
  assert (0 ≤ value mod size < size) as Hm by (apply Z.mod_pos_bound; lia).
  unfold align. destruct (Z.eqb_spec size 0) as [|_]; [lia|].
  destruct (Z.eqb_spec (value mod size) 0) as [H0|H0].
  - exists value. split; [done|]. lia.
  - exists (value + size - value mod size). split; [f_equal; apply u64_id; unfold is_u64; lia|].
    split; [|lia].
    replace (value + size - value mod size) with ((value / size + 1) * size).
    { apply Z.mod_mul. lia. }
    pose proof (Z.div_mod value size). lia.
Qed.

(** ** Byte order *)

(** [swap_bytes] of an [n]-byte word. *)
Definition swap_bytes (n : nat) (z : Z) : Z := le_val (rev (le_bytes n z)).

Definition htonl (l : Z) : Z := swap_bytes 4 l.
Definition ntohl (l : Z) : Z := swap_bytes 4 l.
Definition htons (s : Z) : Z := swap_bytes 2 s.
Definition ntohs (s : Z) : Z := swap_bytes 2 s.

Lemma swap_bytes_involutive n z : swap_bytes n (swap_bytes n z) = z mod 256 ^ Z.of_nat n.
Proof.
  unfold swap_bytes.
  replace (le_bytes n (le_val (rev (le_bytes n z)))) with (rev (le_bytes n z)).
  { by rewrite rev_involutive, le_val_le_bytes. }
  rewrite <-(le_bytes_le_val (rev (le_bytes n z))) at 1.
  { by rewrite length_rev, length_le_bytes. }
  apply Forall_rev, le_bytes_are_bytes.
Qed.

Lemma swap_bytes_range n z : 0 ≤ swap_bytes n z < 256 ^ Z.of_nat n.
Proof.
  unfold swap_bytes.
  rewrite <-(length_le_bytes n z) at 3. rewrite <-length_rev.
  apply le_val_bound, Forall_rev, le_bytes_are_bytes.
Qed.

Lemma htons_range s : is_u16 (htons s).
Proof. apply (swap_bytes_range 2). Qed.
Lemma ntohs_range s : is_u16 (ntohs s).
Proof. apply (swap_bytes_range 2). Qed.
Lemma htonl_range s : is_u32 (htonl s).
Proof. apply (swap_bytes_range 4). Qed.
Lemma ntohl_range s : is_u32 (ntohl s).
Proof. apply (swap_bytes_range 4). Qed.
Lemma ntohs_htons s : is_u16 s → ntohs (htons s) = s.
Proof. intros. unfold ntohs, htons. rewrite swap_bytes_involutive. by apply Z.mod_small. Qed.
Lemma htons_ntohs s : is_u16 s → htons (ntohs s) = s.
Proof. apply ntohs_htons. Qed.
Lemma ntohl_htonl l : is_u32 l → ntohl (htonl l) = l.
Proof. intros. unfold ntohl, htonl. rewrite swap_bytes_involutive. by apply Z.mod_small. Qed.
Lemma htonl_ntohl l : is_u32 l → htonl (ntohl l) = l.
Proof. apply ntohl_htonl. Qed.

Lemma htons_arith s : is_u16 s → htons s = s / 256 + 256 * (s mod 256).
Proof. intros. unfold htons, swap_bytes. cbn. word. Qed.

#[export] Hint Resolve htons_range ntohs_range htonl_range ntohl_range : word_ranges.
#[export] Hint Rewrite ntohs_htons htons_ntohs ntohl_htonl htonl_ntohl
  using (first [assumption | by eauto with word_ranges | word]) : ints.

(** ** Number formatting *)

Abbreviation chars := (list ascii).
Definition is_digit (c : ascii) : bool := let n := nat_of_ascii c in ((48 <=? n) && (n <=? 57))%nat.

(** CVLEFTNUM.captures: the first group is of one to three digits, the second of
    threes up to the end; the longest first group is preferred. *)
Definition left_num (s : chars) : option (chars * chars) :=
  if forallb is_digit s then
    match List.find (λ l, (l <=? length s) && ((length s - l) mod 3 =? 0))%nat [3; 2; 1]%nat with
    | Some l => Some (take l s, drop l s)
    | None => None
    end
  else None.

(** CVTHOUSANDS.replace_all: a comma after every three digits. *)
Fixpoint thousands (s : chars) : chars :=
  match s with
  | a :: b :: c :: s => a :: b :: c :: ","%char :: thousands s
  | _ => s
  end.

Definition comma_value (n : Z) : string :=
  let s := String.list_ascii_of_string (pretty (Z.to_N n)) in
  String.string_of_list_ascii
    match left_num s with
    | Some (first, num) => first ++ rev (thousands (rev num))
    | None => s
    end.

Example comma_value_billion : comma_value 1234567890 = "1,234,567,890".
Proof. vm_compute. reflexivity. Qed.
Example comma_value_thousand : comma_value 1000 = "1,000" ∧ comma_value 999 = "999".
Proof. by vm_compute. Qed.

Lemma digit_is_digit x : is_digit (pretty_N_char x) = true.
Proof. unfold pretty_N_char. by repeat case_match. Qed.

Lemma pretty_go_digits x : ∀ s, forallb is_digit (String.list_ascii_of_string s) = true →
  forallb is_digit (String.list_ascii_of_string (pretty_N_go x s)) = true.
Proof.
  induction (N.lt_wf_0 x) as [x _ IH]. intros s Hs. destruct (decide (x = 0)%N) as [->|Hx]; [by rewrite pretty_N_go_0|].
  rewrite pretty_N_go_step by lia. apply IH; [apply N.div_lt; lia|]. simpl. by rewrite digit_is_digit.
Qed.

Lemma pretty_go_length x : ∀ s, (String.length s ≤ String.length (pretty_N_go x s))%nat.
Proof.
  induction (N.lt_wf_0 x) as [x _ IH]. intros s. destruct (decide (x = 0)%N) as [->|Hx]; [by rewrite pretty_N_go_0|].
  rewrite pretty_N_go_step by lia. etrans; [|apply IH, N.div_lt; lia]. simpl. lia.
Qed.

Lemma length_chars s : length (String.list_ascii_of_string s) = String.length s.
Proof. induction s as [|c s IH]; simpl; congruence. Qed.

(** Decimals are digits, and there is one. *)
Lemma pretty_digits (x : N) :
  let s := String.list_ascii_of_string (pretty x) in forallb is_digit s = true ∧ (1 ≤ length s)%nat.
Proof.
  unfold pretty, pretty_N. case_decide as Hx; [by split; [|simpl; lia]|]. cbv zeta.
  split; [by apply pretty_go_digits|]. rewrite length_chars, pretty_N_go_step by lia.
  etrans; [|apply pretty_go_length]. simpl. lia.
Qed.

Definition threes (gs : list chars) : Prop := Forall (λ g, length g = 3%nat) gs.

Lemma threes_of (k : nat) : ∀ s : chars, length s = (3 * k)%nat →
  ∃ gs, threes gs ∧ s = concat gs ∧ thousands s = concat ((λ g, g ++ [","%char]) <$> gs).
Proof.
  induction k as [|k IH]; intros s Hs.
  - destruct s; [|done]. exists []. by repeat constructor.
  - destruct s as [|a [|b [|c s]]]; simpl in Hs; try lia.
    destruct (IH s ltac:(lia)) as (gs & Hg & -> & Ht). exists ([a; b; c] :: gs). split_and!; [by constructor|done|].
    simpl. by rewrite Ht.
Qed.

Lemma rev_concat (gs : list chars) : rev (concat gs) = concat (rev (@rev _ <$> gs)).
Proof.
  induction gs as [|g gs IH]; [done|]. simpl. by rewrite rev_app_distr, IH, concat_app, concat_cons, app_nil_r.
Qed.

Lemma left_num_spec (s : chars) :
  forallb is_digit s = true → (1 ≤ length s)%nat →
  ∃ l k, (1 ≤ l ≤ 3)%nat ∧ left_num s = Some (take l s, drop l s) ∧ (l ≤ length s)%nat ∧
    length (drop l s) = (3 * k)%nat.
Proof.
  intros Hd Hl. unfold left_num. rewrite Hd.
  destruct (List.find _ _) as [l|] eqn:Hf.
  - apply List.find_some in Hf as [Hin [Hle%Nat.leb_le Hm%Nat.eqb_eq]%andb_true_iff].
    exists l, ((length s - l) / 3)%nat. rewrite length_drop.
    pose proof (Nat.div_mod_eq (length s - l) 3) as Hdm.
    split_and!; [destruct Hin as [<-|[<-|[<-|[]]]]; lia|destruct Hin as [<-|[<-|[<-|[]]]]; lia|done|done|lia].
  - exfalso. pose proof (List.find_none _ _ Hf) as Hn.
    assert (∀ l, In l [3; 2; 1]%nat → (l ≤ length s)%nat → ((length s - l) mod 3 ≠ 0)%nat) as Hall.
    { intros l Hin Hle. specialize (Hn l Hin). apply andb_false_iff in Hn as [Hx|Hx].
      - apply Nat.leb_gt in Hx. lia.
      - by apply Nat.eqb_neq in Hx. }
    pose proof (Nat.mod_upper_bound (length s) 3 ltac:(lia)) as Hb. pose proof (Nat.div_mod_eq (length s) 3) as Hdm.
    set (q := (length s / 3)%nat) in *. set (m := (length s mod 3)%nat) in *.
    destruct (decide (m = 0)%nat) as [Hm|Hm].
    + apply (Hall 3%nat); [by left|lia|]. replace (length s - 3)%nat with ((q - 1) * 3)%nat by lia. by apply Nat.Div0.mod_mul.
    + apply (Hall m); [|lia|].
      * destruct m as [|[|[|]]]; simpl; tauto || lia.
      * replace (length s - m)%nat with (q * 3)%nat by lia. by apply Nat.Div0.mod_mul.
Qed.

(** comma_value writes a number in decimal with a comma before every three
    digits, counted from the right: without the commas it is the number, and the
    first group has one to three digits. *)
Theorem comma_value_groups n :
  ∃ first groups,
    pretty (Z.to_N n) = String.string_of_list_ascii (first ++ concat groups) ∧
    comma_value n = String.string_of_list_ascii (first ++ concat (cons ","%char <$> groups)) ∧
    (1 ≤ length first ≤ 3)%nat ∧ threes groups.
Proof.
  unfold comma_value. cbv zeta. set (s := String.list_ascii_of_string (pretty (Z.to_N n))).
  destruct (pretty_digits (Z.to_N n)) as [Hd Hl]. fold s in Hd, Hl.
  destruct (left_num_spec s Hd Hl) as (l & k & Hlr & -> & Hle & Hk).
  destruct (threes_of k (rev (drop l s))) as (gs & Hg & Hs & Ht); [by rewrite length_rev|].
  exists (take l s), (rev (@rev _ <$> gs)).
  assert (drop l s = concat (rev (@rev _ <$> gs))) as Hdrop.
  { by rewrite <-rev_concat, <-Hs, rev_involutive. }
  split_and!.
  - rewrite <-Hdrop, take_drop. symmetry. apply String.string_of_list_ascii_of_string.
  - rewrite Ht, rev_concat. do 3 f_equal. rewrite <-list_fmap_compose. unfold fmap at 2. simpl.
    rewrite (map_rev (cons ","%char)), <-list_fmap_compose. f_equal. apply list_fmap_ext. intros i g _. simpl. apply rev_unit.
  - rewrite length_take. lia.
  - rewrite length_take. lia.
  - apply Forall_rev, Forall_fmap. eapply Forall_impl; [exact Hg|]. intros g Hlen. simpl. by rewrite length_rev.
Qed.
