(* ===== verification/OnesComplement.v ===== *)
(** * Ones' complement sums

    The algebra the checksum routines rely on: sums modulo 65535 in which zero
    is told apart from 65535 (a sum of bytes is 0 only if every byte is 0).
    [x ≃ y] says that two accumulators stand for the same ones' complement
    sum; folding an accumulator of 64 or 32 bits preserves it, and the 16-bit
    representative [ones] is unique. *)

From S2P Require Import Prelude Bytes.
#[local] Open Scope Z_scope.

(** Same ones' complement sum. *)
Definition ones_eq (x y : Z) : Prop :=
  0 ≤ x ∧ 0 ≤ y ∧ x mod 65535 = y mod 65535 ∧ (x = 0 ↔ y = 0).

Declare Scope ones_scope.
Infix "≃" := ones_eq (at level 70, no associativity) : ones_scope.
#[local] Open Scope ones_scope.

Ltac ones := unfold ones_eq in *; Z.div_mod_to_equations; lia.

Lemma ones_refl x : 0 ≤ x → x ≃ x.
Proof. unfold ones_eq. lia. Qed.

#[export] Instance ones_eq_per : RelationClasses.PER ones_eq.
Proof. split; repeat intro; unfold ones_eq in *; intuition congruence. Qed.

#[export] Instance ones_add_proper : Proper (ones_eq ==> ones_eq ==> ones_eq) Z.add.
Proof.
  intros x x' (?&?&Hm&?) y y' (?&?&Hm'&?). unfold ones_eq. split_and!; [lia..| |lia].
  rewrite Z.add_mod, Hm, Hm', <-Z.add_mod by lia. done.
Qed.

(** The representative of a sum in 16 bits. *)
Definition ones (s : Z) : Z := if s =? 0 then 0 else (s - 1) mod 65535 + 1.

Lemma ones_range s : 0 ≤ ones s ≤ 65535.
Proof. unfold ones. destruct (Z.eqb_spec s 0); [lia|]. Z.div_mod_to_equations. lia. Qed.

Lemma ones_spec s : 0 ≤ s → ones s ≃ s.
Proof.
  intros. unfold ones. destruct (Z.eqb_spec s 0); [subst; by apply ones_refl|].
  unfold ones_eq. pose proof (Z.mod_pos_bound (s - 1) 65535). split_and!; [lia..| |lia].
  rewrite Z.add_mod_idemp_l by lia. f_equal. lia.
Qed.

(** The only number of 16 bits with that sum. *)
Lemma ones_unique x s : x ≃ s → x ≤ 65535 → x = ones s.
Proof.
  unfold ones_eq, ones. intros (?&?&?&?) ?.
  destruct (Z.eqb_spec s 0); Z.div_mod_to_equations; lia.
Qed.

Lemma ones_proper x y : x ≃ y → ones x = ones y.
Proof.
  intros H. apply ones_unique; [|apply ones_range].
  etrans; [apply ones_spec, H|done].
Qed.

(** Adding the part above bit 16, 32 or 64 back to the part below it. *)
Lemma ones_fold k m s :
  m = 65535 * k + 1 → 0 < k → 0 ≤ s → s mod m + s / m ≃ s.
Proof.
  intros -> Hk Hs. unfold ones_eq.
  set (m := 65535 * k + 1).
  pose proof (Z.div_mod s m) as Hd. pose proof (Z.mod_pos_bound s m) as Hb.
  assert (0 ≤ s / m) by (apply Z.div_pos; lia).
  split_and!; [lia..| |].
  - symmetry. rewrite Hd at 1 by lia. unfold m at 1.
    replace ((65535 * k + 1) * (s / m) + s mod m)
      with (s mod m + s / m + (k * (s / m)) * 65535) by lia.
    apply Z.mod_add. lia.
  - assert (0 < m) by lia. assert (s = m * (s / m) + s mod m) by lia. nia.
Qed.

(** A carry chain: [cf] is the pending carry of [acc].  The bound says that
    adding the carry does not carry again. *)
Definition carry_state (m acc : Z) (cf : bool) (s : Z) : Prop :=
  0 ≤ acc ∧ acc + Z.b2z cf ≤ m - 1 ∧ acc + Z.b2z cf ≃ s.

(** ** The sum of the 16-bit words of a byte string, an odd last byte counting
    as a word *)

Fixpoint word_sum (bs : bytes) : Z :=
  match bs with
  | [] => 0
  | [b] => b
  | a :: b :: bs' => (a + 256 * b) + word_sum bs'
  end.

(** Induction two bytes at a time. *)
Lemma bytes_pair_ind (P : bytes → Prop) :
  P [] → (∀ b, P [b]) → (∀ a b l, P l → P (a :: b :: l)) → ∀ l, P l.
Proof.
  intros H0 H1 H2 l. assert (P l ∧ ∀ a, P (a :: l)) as [? _]; [|done].
  induction l as [|b l [IH IH']]; [auto|]. split; [by apply IH'|]. auto.
Qed.

Lemma word_sum_app l1 l2 :
  Nat.Even (length l1) → word_sum (l1 ++ l2) = word_sum l1 + word_sum l2.
Proof.
  revert l1. apply (bytes_pair_ind (λ l1, Nat.Even (length l1) → _)); simpl.
  - done.
  - intros b [n Hn]. lia.
  - intros a b l IH [n Hn]. rewrite IH; [lia|]. exists (n - 1)%nat. lia.
Qed.

Lemma word_sum_nonneg l : are_bytes l → 0 ≤ word_sum l.
Proof.
  revert l. apply (bytes_pair_ind (λ l, are_bytes l → 0 ≤ word_sum l)); simpl.
  - done.
  - intros b Hb. inversion Hb. unfold is_u8 in *. lia.
  - intros a b l IH Hl. inversion Hl as [|? ? ? Hl']. inversion Hl'.
    unfold is_u8 in *. specialize (IH ltac:(done)). lia.
Qed.

Lemma word_sum_bound l : are_bytes l → word_sum l ≤ 65535 * Z.of_nat (length l).
Proof.
  revert l. apply (bytes_pair_ind (λ l, are_bytes l → _)); simpl.
  - done.
  - intros b Hb. inversion Hb. unfold is_u8 in *. lia.
  - intros a b l IH Hl. inversion Hl as [|? ? ? Hl']. inversion Hl'.
    unfold is_u8 in *. specialize (IH ltac:(done)). lia.
Qed.

(** A wide little-endian word is worth the sum of its 16-bit words. *)
Lemma le_val_word_sum l : are_bytes l → le_val l ≃ word_sum l.
Proof.
  revert l. apply (bytes_pair_ind (λ l, are_bytes l → _)).
  - intros. by apply ones_refl.
  - intros b Hb. inversion Hb. simpl. rewrite Z.add_0_r. apply ones_refl. unfold is_u8 in *. lia.
  - intros a b l IH Hl. inversion Hl as [|? ? ? Hl']. inversion Hl'. subst. cbn [le_val word_sum].
    specialize (IH ltac:(done)). unfold ones_eq, is_u8 in *.
    destruct IH as (?&?&Hm&?). split_and!; [lia..| |lia].
    replace (a + 256 * (b + 256 * le_val l))
      with (a + 256 * b + le_val l + le_val l * 65535) by lia.
    rewrite Z.mod_add by lia.
    rewrite Z.add_mod, Hm, <-Z.add_mod by lia. done.
Qed.

(** Swapping the bytes of a 16-bit word is multiplying by 256. *)
Lemma word_sum_le_bytes_2 z : is_u16 z → word_sum (le_bytes 2 z) = z.
Proof. intros. cbn. word. Qed.
