(* ===== verification/Checksum.v ===== *)
(** * checksum.rs: the IP checksum

    The reference routine [checksum_rust], and the two assembly routines the
    build selects by target architecture, modelled instruction by instruction
    on the registers, the carry flag and the memory behind the slice. *)

From S2P Require Import Prelude Bytes Lib OnesComplement.
#[local] Open Scope Z_scope.
#[local] Open Scope ones_scope.

(** A read of [n] bytes through a raw pointer into the slice [data]; [ptr] is
    relative to [data.as_ptr()].  Outside of the slice it is undefined. *)
Definition load (n : nat) (data : bytes) (ptr : Z) : outcome Z :=
  if (0 <=? ptr) && (ptr + Z.of_nat n <=? Z.of_nat (length data))
  then Ok (le_val (slice (Z.to_nat ptr) n data))
  else UB "read outside of the slice".

(** [data[i]], checked. *)
Definition index (data : bytes) (i : Z) : outcome Z :=
  if i <? 0 then Panic "index out of bounds"
  else unwrap "index out of bounds" (data !! Z.to_nat i).

(** ** Reference implementation in Rust *)

(** while i > 1: add the next 16-bit word. *)
Fixpoint sum_words (fuel : nat) (data : bytes) (length i csum : Z) : outcome (Z * Z) :=
  if 1 <? i then
    match fuel with
    | O => NoFuel
    | S fuel =>
        word ← load 2 data (length - i);
        sum_words fuel data length (i - 2) (u64 (csum + word))
    end
  else Ok (csum, i).

(** loop: add the carry back until there is none. *)
Fixpoint fold_carry (fuel : nat) (csum : Z) : outcome Z :=
  let carry := Z.shiftr csum 16 in
  if carry =? 0 then Ok csum
  else match fuel with
       | O => NoFuel
       | S fuel => fold_carry fuel (u64 (Z.land csum 0xffff + carry))
       end.

Definition not64 (x : Z) : Z := 0xffffffffffffffff - x.

(** 5 rounds fold any 64-bit sum. *)
Definition checksum_rust (data : bytes) (length : Z) : outcome Z :=
  '(csum, i) ← sum_words (Z.to_nat length) data length length 0;
  csum ← (if i =? 1 then
            byte ← index data (length - 1);
            Ok (u64 (csum + byte))
          else Ok csum);
  csum ← fold_carry 5 csum;
  Ok (ntohs (Z.land (u16 (not64 csum)) 0xffff)).

(** ** Registers and flags *)

Definition M16 : Z := 0x10000.
Definition M32 : Z := 0x100000000.
Definition M64 : Z := 0x10000000000000000.

(** Add with carry in a register of modulus [m]: the sum and the carry out. *)
Definition adc (m a b : Z) (cf : bool) : Z * bool :=
  let s := a + b + Z.b2z cf in (s mod m, m <=? s).

(** A 64-bit register read as a signed number. *)
Definition signed64 (x : Z) : Z := if x <? 0x8000000000000000 then x else x - M64.

(** xchg acc.l, acc.h: swap the low two bytes of the register. *)
Definition xchg_lh (acc : Z) : Z :=
  acc - acc mod M16 + swap_bytes 2 (acc mod M16).

(** Write the low 16 bits of a register. *)
Definition set_x (acc v : Z) : Z := acc - acc mod M16 + v.

(** ** checksum for target_arch = "x86_64" *)
Module X86_64.

(** Label 1: 32 bytes at a time. *)
Fixpoint loop32 (fuel : nat) (mem : bytes) (acc ptr size : Z) : outcome (Z * Z * Z) :=
  if signed64 size <? 32 then Ok (acc, ptr, size)
  else match fuel with
  | O => NoFuel
  | S fuel =>
      q0 ← load 8 mem ptr;
      let '(acc, cf) := adc M64 acc q0 false in
      q1 ← load 8 mem (ptr + 8);
      let '(acc, cf) := adc M64 acc q1 cf in
      q2 ← load 8 mem (ptr + 16);
      let '(acc, cf) := adc M64 acc q2 cf in
      q3 ← load 8 mem (ptr + 24);
      let '(acc, cf) := adc M64 acc q3 cf in
      let '(acc, _) := adc M64 acc 0 cf in
      loop32 fuel mem acc (ptr + 32) (size - 32)
  end.

(** Label 2: 16 bytes. *)
Definition block16 (mem : bytes) (acc ptr size : Z) : outcome (Z * Z * Z) :=
  if signed64 size <? 16 then Ok (acc, ptr, size)
  else
    q0 ← load 8 mem ptr;
    let '(acc, cf) := adc M64 acc q0 false in
    q1 ← load 8 mem (ptr + 8);
    let '(acc, cf) := adc M64 acc q1 cf in
    let '(acc, _) := adc M64 acc 0 cf in
    Ok (acc, ptr + 16, size - 16).

(** Labels 3, 4 and 5: one load of [n] bytes (8, 4 and 2). *)
Definition block (n : nat) (mem : bytes) (acc ptr size : Z) : outcome (Z * Z * Z) :=
  if signed64 size <? Z.of_nat n then Ok (acc, ptr, size)
  else
    tmp ← load n mem ptr;
    let '(acc, cf) := adc M64 acc tmp false in
    let '(acc, _) := adc M64 acc 0 cf in
    Ok (acc, ptr + Z.of_nat n, size - Z.of_nat n).

(** Label 6: the last byte; size and ptr are not updated. *)
Definition block1 (mem : bytes) (acc ptr size : Z) : outcome Z :=
  if signed64 size <? 1 then Ok acc
  else
    tmp ← load 1 mem ptr;
    let '(acc, cf) := adc M64 acc tmp false in
    let '(acc, _) := adc M64 acc 0 cf in
    Ok acc.

(** Label 7: fold 64 bits into 16, complement, swap. *)
Definition fold (acc : Z) : Z :=
  let tmp := Z.shiftr acc 32 in
  let acc := acc mod M32 in
  let '(acc, cf) := adc M32 acc (tmp mod M32) false in
  let '(acc, _) := adc M32 acc 0 cf in
  let tmp := Z.shiftr acc 16 in
  let acc := Z.land acc 0xffff in
  let '(x, cf) := adc M16 (acc mod M16) (tmp mod M16) false in
  let acc := set_x acc x in
  let '(x, _) := adc M16 (acc mod M16) 0 cf in
  let acc := set_x acc x in
  let acc := M32 - 1 - acc mod M32 in
  let acc := Z.land acc 0xffff in
  xchg_lh acc.

Definition checksum (data : bytes) (length initial : Z) : outcome Z :=
  let acc := xchg_lh initial in
  '(acc, ptr, size) ← loop32 (Z.to_nat (length / 32)) data acc 0 length;
  '(acc, ptr, size) ← block16 data acc ptr size;
  '(acc, ptr, size) ← block 8 data acc ptr size;
  '(acc, ptr, size) ← block 4 data acc ptr size;
  '(acc, ptr, size) ← block 2 data acc ptr size;
  acc ← block1 data acc ptr size;
  Ok (u16 (fold acc)).

End X86_64.

(** ** checksum for target_arch = "aarch64" *)
Module Aarch64.

(** rev16 of a 32-bit register: swap the bytes of each half. *)
Definition rev16 (w : Z) : Z :=
  swap_bytes 2 (w mod M16) + M16 * swap_bytes 2 ((w mod M32) / M16).

(** Label 1.  The branch back (b.gt) is taken when the counter before subs
    is greater than 32, as signed numbers. *)
Fixpoint loop32 (fuel : nat) (mem : bytes) (acc ptr mod32 : Z) : outcome (Z * Z * Z) :=
  match fuel with
  | O => NoFuel
  | S fuel =>
      tmp1 ← load 8 mem ptr;
      tmp2 ← load 8 mem (ptr + 8);
      let '(acc, cf) := adc M64 acc tmp1 false in
      let '(acc, cf) := adc M64 acc tmp2 cf in
      tmp1 ← load 8 mem (ptr + 16);
      tmp2 ← load 8 mem (ptr + 24);
      let '(acc, cf) := adc M64 acc tmp1 cf in
      let '(acc, cf) := adc M64 acc tmp2 cf in
      let '(acc, _) := adc M64 acc 0 cf in
      if 32 <? signed64 mod32
      then loop32 fuel mem acc (ptr + 32) ((mod32 - 32) mod M64)
      else Ok (acc, ptr + 32, (mod32 - 32) mod M64)
  end.

(** Label 2: tbz size, 4; adds drops the carry. *)
Definition block16 (mem : bytes) (size acc ptr : Z) (cf : bool) : outcome (Z * Z * bool) :=
  if negb (Z.testbit size 4) then Ok (acc, ptr, cf)
  else
    tmp1 ← load 8 mem ptr;
    tmp2 ← load 8 mem (ptr + 8);
    let '(acc, cf) := adc M64 acc tmp1 false in
    let '(acc, cf) := adc M64 acc tmp2 cf in
    Ok (acc, ptr + 16, cf).

(** Labels 3 to 6: tbz size, [bit]; one load of [2^bit] bytes added with
    the carry; the carry stays pending. *)
Definition block (bit : Z) (mem : bytes) (size acc ptr : Z) (cf : bool) : outcome (Z * Z * bool) :=
  if negb (Z.testbit size bit) then Ok (acc, ptr, cf)
  else
    tmp ← load (Z.to_nat (2 ^ bit)) mem ptr;
    let '(acc, cf) := adc M64 acc tmp cf in
    Ok (acc, ptr + 2 ^ bit, cf).

(** Label 7. *)
Definition fold (acc : Z) (cf : bool) : Z :=
  let tmp1 := Z.shiftr acc 32 in
  let '(acc, cf) := adc M32 (acc mod M32) (tmp1 mod M32) cf in
  let '(acc, _) := adc M32 acc 0 cf in
  let tmp2 := acc mod M16 in
  let acc := (tmp2 + Z.shiftr acc 16) mod M32 in
  let acc := (acc + Z.shiftr acc 16) mod M32 in
  let acc := M32 - 1 - acc in
  rev16 acc.

Definition checksum (data : bytes) (length initial : Z) : outcome Z :=
  let acc := initial in
  let mod32 := Z.land length (M64 - 1 - 31) in
  let cf := false in                       (* ands clears the carry *)
  let acc := rev16 acc in
  '(acc, ptr, cf) ← (if mod32 =? 0 then Ok (acc, 0, cf)
                     else '(acc, ptr, mod32) ← loop32 (Z.to_nat (length / 32)) data acc 0 mod32;
                          Ok (acc, ptr, false));   (* tst clears the carry *)
  '(acc, ptr, cf) ← block16 data length acc ptr cf;
  '(acc, ptr, cf) ← block 3 data length acc ptr cf;
  '(acc, ptr, cf) ← block 2 data length acc ptr cf;
  '(acc, ptr, cf) ← block 1 data length acc ptr cf;
  '(acc, ptr, cf) ← block 0 data length acc ptr cf;
  Ok (u16 (fold acc cf)).

End Aarch64.

(** The target architecture of the build. *)
Inductive target_arch := x86_64 | aarch64.
Class Target := target : target_arch.

Definition checksum `{Target} (data : bytes) (length initial : Z) : outcome Z :=
  match target with
  | x86_64 => X86_64.checksum data length initial
  | aarch64 => Aarch64.checksum data length initial
  end.

Definition ipsum `{Target} (data : bytes) (length initial : Z) : outcome Z :=
  checksum data length initial.

(** ** Specification: the ones' complement sum of the 16-bit words, on top of
    the initial value, complemented; in host byte order *)

Definition ipsum_spec (data : bytes) (length initial : Z) : Z :=
  ntohs (65535 - ones (htons initial + word_sum (take (Z.to_nat length) data))).

(** ** Carry chains *)

Lemma adc_carry_state m k acc cf s x x' :
  m = 65535 * k + 1 → 0 < k → carry_state m acc cf s → x < m → x ≃ x' →
  ∃ acc' cf', adc m acc x cf = (acc', cf') ∧ carry_state m acc' cf' (s + x').
Proof.
  intros Hm Hk (Ha & Hb & He) Hx Hxx. pose proof Hxx as (Hx0 & _).
  set (t := acc + x + Z.b2z cf). exists (t mod m), (m <=? t).
  assert (Z.b2z (m <=? t) = t / m) as Hc.
  { destruct (Z.leb_spec m t); simpl; unfold t in *.
    - apply (Z.div_unique_pos _ _ _ (t - m)); unfold t; lia.
    - symmetry. apply Z.div_small. destruct cf; simpl in *; lia. }
  assert (t mod m + t / m ≃ t) as Hf.
  { eapply ones_fold; [done|done|]. unfold t. destruct cf; simpl in *; lia. }
  split; [done|]. unfold carry_state. rewrite Hc.
  pose proof (Z.mod_pos_bound t m). split_and!; [lia| |].
  - pose proof (Z.div_mod t m). rewrite <-Hc in *.
    destruct (Z.leb_spec m t); simpl in *; unfold t in *; destruct cf; simpl in *; lia.
  - etrans; [exact Hf|]. replace t with (acc + Z.b2z cf + x) by (unfold t; lia).
    by apply ones_add_proper.
Qed.

(** adc acc, 0 takes the pending carry in and never carries again. *)
Lemma adc_settle m acc cf s :
  carry_state m acc cf s →
  ∃ acc' cf', adc m acc 0 cf = (acc', cf') ∧ carry_state m acc' false s.
Proof.
  intros (Ha & Hb & He). eexists _, _. split; [done|].
  unfold carry_state. rewrite Z.add_0_r, (Z.mod_small (acc + _)) by (destruct cf; simpl in *; lia).
  rewrite Z.add_0_r. destruct cf; simpl in *; auto with lia.
Qed.

Lemma carry_state_drop m acc s :
  0 ≤ acc < m → acc ≃ s → carry_state m acc false s.
Proof. intros ? ?. unfold carry_state. simpl. rewrite Z.add_0_r. auto with lia. Qed.

Lemma load_ok n data p :
  0 ≤ p → p + Z.of_nat n ≤ Z.of_nat (length data) →
  load n data p = Ok (le_val (slice (Z.to_nat p) n data)).
Proof.
  intros. unfold load.
  by rewrite (proj2 (Z.leb_le 0 p)), (proj2 (Z.leb_le _ _)) by lia.
Qed.

(** The accumulator stands for the words before offset [p], on top of [i0]. *)
Definition summed (data : bytes) (i0 acc : Z) (cf : bool) (p : Z) : Prop :=
  0 ≤ p ∧ carry_state M64 acc cf (i0 + word_sum (take (Z.to_nat p) data)).

Section summed.
Context (data : bytes) (i0 : Z) (Hdata : are_bytes data).

Lemma word_sum_extend p n :
  0 ≤ p → p mod 2 = 0 → p ≤ Z.of_nat (length data) →
  word_sum (take (Z.to_nat (p + Z.of_nat n)) data)
  = word_sum (take (Z.to_nat p) data) + word_sum (slice (Z.to_nat p) n data).
Proof.
  intros Hp Hq Hl. unfold slice. rewrite <-word_sum_app.
  - rewrite take_take_drop. do 2 f_equal. lia.
  - exists (Z.to_nat (p / 2)). rewrite length_take. Z.div_mod_to_equations. lia.
Qed.

(** Loading the next [n] bytes and adding them with the carry. *)
Lemma load_adc n acc cf p :
  summed data i0 acc cf p → p mod 2 = 0 → (n ≤ 8)%nat →
  p + Z.of_nat n ≤ Z.of_nat (length data) →
  ∃ v acc' cf', load n data p = Ok v ∧ adc M64 acc v cf = (acc', cf') ∧
                summed data i0 acc' cf' (p + Z.of_nat n).
Proof.
  intros [Hp Hs] He Hn Hl. eexists. rewrite load_ok by lia.
  assert (are_bytes (slice (Z.to_nat p) n data)) as Hb by auto with slices.
  destruct (adc_carry_state M64 281479271743489 acc cf _
              (le_val (slice (Z.to_nat p) n data))
              (word_sum (slice (Z.to_nat p) n data)) ltac:(done) ltac:(done) Hs)
    as (acc' & cf' & Ha & Hs').
  - pose proof (le_val_bound _ Hb) as [_ Hbd]. rewrite length_slice in Hbd by lia.
    assert (256 ^ Z.of_nat n ≤ 256 ^ 8) by (apply Z.pow_le_mono_r; lia).
    unfold M64. lia.
  - by apply le_val_word_sum.
  - exists acc', cf'. split_and!; [done|done|]. split; [lia|].
    rewrite word_sum_extend by (done || lia). by rewrite Z.add_assoc.
Qed.

Lemma summed_settle acc cf p :
  summed data i0 acc cf p →
  ∃ acc' cf', adc M64 acc 0 cf = (acc', cf') ∧ summed data i0 acc' false p.
Proof.
  intros [Hp Hs]. apply adc_settle in Hs as (acc' & cf' & ? & ?).
  exists acc', cf'. unfold summed. auto.
Qed.
End summed.

(** One load-and-add of a block. *)
Ltac even := Z.div_mod_to_equations; lia.
Ltac load_adc :=
  lazymatch goal with
  | H : summed ?d ?i ?a ?c ?p |- context [mbind _ (load ?n ?d ?p')] =>
      let v := fresh "v" in let a' := fresh "acc" in let c' := fresh "cf" in
      let Hl := fresh in let Ha := fresh in let Hs := fresh "Hs" in
      replace p' with p by lia;
      destruct (load_adc d i ltac:(assumption) n a c p H) as (v & a' & c' & Hl & Ha & Hs);
      [ even | lia | lia | rewrite Hl; cbn [mbind outcome_bind]; rewrite Ha; clear Hl Ha H ]
  end.
(** Two loads, then two adds (the ldp of aarch64). *)
Ltac load2_adc2 :=
  lazymatch goal with
  | H : summed ?d ?i ?a ?c ?p |- context [mbind _ (load 8 ?d ?p')] =>
      let v := fresh "v" in let a' := fresh "acc" in let c' := fresh "cf" in
      let Hl := fresh in let Ha := fresh in let Hs := fresh "Hs" in
      let w := fresh "v" in let a2 := fresh "acc" in let c2 := fresh "cf" in
      let Hl2 := fresh in let Ha2 := fresh in let Hs2 := fresh "Hs" in
      replace p' with p by lia;
      destruct (load_adc d i ltac:(assumption) 8 a c p H) as (v & a' & c' & Hl & Ha & Hs);
      [ even | lia | lia | ];
      destruct (load_adc d i ltac:(assumption) 8 a' c' _ Hs) as (w & a2 & c2 & Hl2 & Ha2 & Hs2);
      [ even | lia | lia | ];
      rewrite Hl; cbn [mbind outcome_bind];
      lazymatch goal with
      | |- context [mbind _ (load 8 d ?p2)] => replace p2 with (p + Z.of_nat 8) by lia
      end;
      rewrite Hl2; cbn [mbind outcome_bind]; rewrite Ha, Ha2;
      clear Hl Ha Hl2 Ha2 H Hs
  end.
Ltac settle :=
  lazymatch goal with
  | H : summed ?d ?i ?a ?c ?p |- context [adc M64 ?a 0 ?c] =>
      let a' := fresh "acc" in let c' := fresh "cf" in
      let Ha := fresh in let Hs := fresh "Hs" in
      destruct (summed_settle d i a c p H) as (a' & c' & Ha & Hs);
      rewrite Ha; clear Ha H
  end.

(** ** The reference routine *)

Lemma sum_words_spec data length i csum (fuel : nat) :
  are_bytes data → 0 ≤ i ≤ length → (length - i) mod 2 = 0 →
  length ≤ Z.of_nat (List.length data) → i ≤ 2 * Z.of_nat fuel →
  0 ≤ csum → csum + 65535 * i < M64 →
  sum_words fuel data length i csum
  = Ok (csum + (word_sum (take (Z.to_nat (length - i mod 2)) data)
                - word_sum (take (Z.to_nat (length - i)) data)), i mod 2).
Proof.
  intros Hb. revert i csum. induction fuel as [|fuel IH]; intros i csum Hi He Hl Hf Hc Hm;
    cbn [sum_words]; destruct (Z.ltb_spec 1 i) as [H1|H1].
  - lia.
  - assert (i = 0) as -> by lia. rewrite Zmod_0_l. do 2 f_equal. lia.
  - rewrite load_ok by lia. cbn [mbind outcome_bind].
    pose proof (word_sum_extend data (length - i) 2 ltac:(lia) He ltac:(lia)) as Hx.
    set (w := slice (Z.to_nat (length - i)) 2 data) in *.
    assert (are_bytes w) as Hw by (unfold w; auto with slices).
    pose proof (le_val_bound w Hw) as Hbd.
    assert (List.length w = 2%nat) as Hlw by (unfold w; apply length_slice; lia).
    rewrite Hlw in Hbd. change (256 ^ Z.of_nat 2) with 65536 in Hbd.
    assert (word_sum w = le_val w) as Hwl.
    { destruct w as [|a [|b [|]]]; try discriminate. simpl. lia. }
    rewrite (u64_id (csum + _)) by (unfold is_u64, M64 in *; lia).
    rewrite IH by (unfold M64 in *; first [lia | even]).
    replace ((i - 2) mod 2) with (i mod 2) by even.
    replace (length - (i - 2)) with (length - i + Z.of_nat 2) by lia.
    rewrite Hx, Hwl. do 2 f_equal. lia.
  - assert (i = 0 ∨ i = 1) as [-> | ->] by lia.
    + rewrite Zmod_0_l. do 2 f_equal. lia.
    + change (1 mod 2) with 1. do 2 f_equal. lia.
Qed.

Lemma land_ffff x : Z.land x 0xffff = x mod 65536.
Proof. apply (Z.land_ones x 16). lia. Qed.

Lemma shiftr_16 x : Z.shiftr x 16 = x / 65536.
Proof. by rewrite Z.shiftr_div_pow2. Qed.

(** A round of the loop takes a sum of at most [B] to one of at most [B']. *)
Lemma fold_carry_step fuel csum s B B' :
  0 ≤ csum ≤ B → csum ≃ s → B < M64 →
  (∀ c, 0 ≤ c ≤ B → c mod 65536 + c / 65536 ≤ B') →
  (∀ c, 0 ≤ c ≤ B' → c ≃ s → fold_carry fuel c = Ok (ones s)) →
  fold_carry (S fuel) csum = Ok (ones s).
Proof.
  intros Hc He HB HB' IH. cbn [fold_carry]. rewrite shiftr_16, land_ffff.
  destruct (Z.eqb_spec (csum / 65536) 0) as [H0|H0].
  - f_equal. apply ones_unique; [done|]. even.
  - rewrite u64_id by (unfold is_u64, M64 in *; even).
    apply IH; [split; [even|auto]|].
    etrans; [eapply (ones_fold 1); lia|done].
Qed.

Lemma fold_carry_ones csum s :
  0 ≤ csum < M64 → csum ≃ s → fold_carry 5 csum = Ok (ones s).
Proof.
  intros Hc He.
  apply (fold_carry_step _ _ s (M64 - 1) 0x100000000fffe); [lia|done|done|unfold M64; intros; even|].
  intros c1 H1 E1. apply (fold_carry_step _ _ s 0x100000000fffe 0x10000fffe); [done|done|done|intros; even|].
  intros c2 H2 E2. apply (fold_carry_step _ _ s 0x10000fffe 0x1fffe); [done|done|done|intros; even|].
  intros c3 H3 E3. apply (fold_carry_step _ _ s 0x1fffe 0x10000); [done|done|done|intros; even|].
  intros c4 H4 E4. apply (fold_carry_step _ _ s 0x10000 0xffff); [done|done|done|intros; even|].
  intros c5 H5 E5. cbn [fold_carry]. rewrite shiftr_16, Z.div_small by lia.
  f_equal. apply ones_unique; [done|lia].
Qed.

Lemma not64_low c : 0 ≤ c ≤ 65535 → Z.land (u16 (not64 c)) 0xffff = 65535 - c.
Proof. intros. rewrite land_ffff. unfold not64. word. Qed.

Lemma take_word_sum_bound data n :
  are_bytes data → word_sum (take n data) ≤ 65535 * Z.of_nat n.
Proof.
  intros Hb. etrans; [apply word_sum_bound; by apply Forall_take|].
  rewrite length_take. lia.
Qed.

(** The reference routine computes the specification, for a slice below
    2^48 bytes (a longer one does not fit in the address space). *)
Lemma checksum_rust_spec data length :
  are_bytes data → 0 ≤ length ≤ Z.of_nat (List.length data) → length < 2 ^ 48 →
  checksum_rust data length = Ok (ipsum_spec data length 0).
Proof.
  intros Hb Hl H48. change (2 ^ 48) with 0x1000000000000 in H48. unfold checksum_rust.
  rewrite sum_words_spec; [|done|lia|by rewrite Z.sub_diag|lia|lia|lia|unfold M64; lia].
  cbn [mbind outcome_bind]. rewrite Z.sub_diag. cbn [take word_sum]. rewrite !Z.add_0_l, Z.sub_0_r.
  set (s := word_sum (take (Z.to_nat length) data)).
  assert (0 ≤ s) by (apply word_sum_nonneg; by apply Forall_take).
  assert (s ≤ 65535 * length) by (unfold s; pose proof (take_word_sum_bound data (Z.to_nat length) Hb); lia).
  assert (∀ c, c = s → 
    (c0 ← fold_carry 5 c; Ok (ntohs (Z.land (u16 (not64 c0)) 65535)))
    = Ok (ipsum_spec data length 0)) as Hfin.
  { intros c ->. rewrite (fold_carry_ones s s) by (first [by apply ones_refl | unfold M64; lia]).
    cbn [mbind outcome_bind]. rewrite not64_low by apply ones_range. done. }
  destruct (Z.eqb_spec (length mod 2) 1) as [H1|H1].
  - assert (1 ≤ length) by even.
    pose proof (word_sum_extend data (length - 1) 1 ltac:(lia) ltac:(even) ltac:(lia)) as Hx.
    replace (length - 1 + Z.of_nat 1) with length in Hx by lia. fold s in Hx.
    unfold index. destruct (Z.ltb_spec (length - 1) 0); [lia|].
    destruct (lookup_lt_is_Some_2 data (Z.to_nat (length - 1))) as [b Hlk]; [lia|].
    rewrite Hlk. cbn [unwrap mbind outcome_bind].
    assert (slice (Z.to_nat (length - 1)) 1 data = [b]) as Hsl.
    { unfold slice. by rewrite (drop_S _ b). }
    rewrite Hsl in Hx. cbn [word_sum] in Hx.
    apply Hfin. rewrite H1, u64_id by (unfold is_u64; lia). lia.
  - cbn [mbind outcome_bind]. apply Hfin. unfold s. do 3 f_equal. even.
Qed.

(** ** Folding the accumulator *)

Lemma shiftr_32 x : Z.shiftr x 32 = x / M32.
Proof. by rewrite Z.shiftr_div_pow2. Qed.

(** Adding the halves of a 64-bit accumulator, with a pending carry, in a
    32-bit register. *)
Lemma fold_64_32 acc cf s :
  carry_state M64 acc cf s →
  ∃ acc1 cf1 acc2 cf2,
    adc M32 (acc mod M32) ((Z.shiftr acc 32) mod M32) cf = (acc1, cf1) ∧
    adc M32 acc1 0 cf1 = (acc2, cf2) ∧ carry_state M32 acc2 false s.
Proof.
  intros (Ha & Hb & He). rewrite shiftr_32.
  set (t := acc mod M32 + acc / M32 + Z.b2z cf).
  assert (acc < M64) by (destruct cf; simpl in *; lia).
  assert (acc / M32 < M32) by (unfold M32, M64 in *; even).
  assert (0 ≤ acc / M32) by (unfold M32; even).
  rewrite (Z.mod_small (acc / M32)) by done.
  assert (0 ≤ t ≤ 2 * M32 - 2) as Ht by (unfold t, M32, M64 in *; destruct cf; simpl in *; even).
  assert (t ≃ s) as Hts.
  { etrans; [|exact He]. unfold t. apply ones_add_proper.
    - eapply (ones_fold 65537); [done|done|lia].
    - apply ones_refl. destruct cf; simpl; lia. }
  assert (carry_state M32 (t mod M32) (M32 <=? t) s) as Hs.
  { assert (t mod M32 + t / M32 ≃ t) as Hf by (eapply (ones_fold 65537); [done|done|lia]).
    assert (Z.b2z (M32 <=? t) = t / M32) as Hc
      by (unfold M32 in *; destruct (Z.leb_spec 4294967296 t); simpl; even).
    unfold carry_state. rewrite Hc.
    split_and!; [unfold M32; even|unfold M32 in *; even|by etrans]. }
  destruct (adc_settle _ _ _ _ Hs) as (acc2 & cf2 & Ha2 & Hs2).
  exists (t mod M32), (M32 <=? t), acc2, cf2. by split_and!.
Qed.

(** The 32-bit accumulator folded into 16 bits. *)
Lemma fold_32_16 acc s :
  carry_state M32 acc false s →
  let lo := acc mod M16 in let hi := acc / M16 in
  let t := lo + hi in
  (t mod M16 + t / M16) = ones s ∧ 0 ≤ t ≤ 2 * M16 - 2.
Proof.
  intros (Ha & Hb & He). simpl in *. rewrite Z.add_0_r in *.
  assert (0 ≤ acc mod M16 + acc / M16 ≤ 2 * M16 - 2) as Ht by (unfold M16, M32 in *; even).
  split; [|done]. apply ones_unique.
  - etrans; [eapply (ones_fold 1); [done|done|lia]|].
    etrans; [eapply (ones_fold 1); [done|done|lia]|done].
  - unfold M16, M32 in *. even.
Qed.

Module X86_64_facts.
Import X86_64.

Lemma x86_fold_spec acc s :
  carry_state M64 acc false s → u16 (fold acc) = ntohs (65535 - ones s).
Proof.
  intros H. pose proof H as (Ha & Hb & _). simpl in Hb. unfold fold.
  destruct (fold_64_32 _ _ _ H) as (acc1 & cf1 & acc2 & cf2 & E1 & E2 & H2).
  rewrite E1, E2. clear E1 E2.
  pose proof (fold_32_16 _ _ H2) as [Ho Ht]. destruct H2 as (Ha2 & Hb2 & _). simpl in Hb2.
  rewrite shiftr_16, !land_ffff. change 65536 with M16.
  set (lo := acc2 mod M16) in *. set (hi := acc2 / M16) in *.
  assert (0 ≤ lo < M16) by (unfold lo, M16; even).
  assert (0 ≤ hi < M16) by (unfold hi, M16, M32 in *; even).
  pose proof (ones_range s) as Hr.
  unfold adc, set_x. simpl Z.b2z. rewrite !Z.add_0_r.
  rewrite !(Z.mod_small lo), !(Z.mod_small hi), Z.sub_diag, Z.add_0_l by lia.
  set (t := lo + hi) in *. rewrite !Z.mod_mod by done.
  assert (Z.b2z (M16 <=? t) = t / M16) as Hc.
  { unfold M16 in *. destruct (Z.leb_spec 65536 t); simpl; even. }
  rewrite Hc, Z.sub_diag, Z.add_0_l, Ho, land_ffff.
  change M16 with 65536. change M32 with 4294967296.
  rewrite (Z.mod_small (ones s) 65536), (Z.mod_small (ones s) 4294967296) by lia.
  replace ((4294967296 - 1 - ones s) mod 65536) with (65535 - ones s) by even.
  unfold xchg_lh. change M16 with 65536.
  rewrite Z.mod_small, Z.sub_diag, Z.add_0_l by lia.
  apply u16_id, (swap_bytes_range 2).
Qed.

Section blocks.
Context (data : bytes) (i0 : Z) (length : Z).
Context (Hdata : are_bytes data) (Hlen : length ≤ Z.of_nat (List.length data))
        (Hsize : length < 0x8000000000000000).

(** Between two blocks no carry is pending. *)
Definition state (acc ptr size : Z) : Prop :=
  summed data i0 acc false ptr ∧ ptr + size = length ∧ ptr mod 2 = 0 ∧ 0 ≤ size.

Lemma signed64_size size : 0 ≤ size ≤ length → signed64 size = size.
Proof. intros. unfold signed64. by rewrite (proj2 (Z.ltb_lt _ _)) by lia. Qed.

Ltac start :=
  intros (Hs & Hp & He & Hz); pose proof Hs as [Hp0 _];
  rewrite signed64_size by lia.

Lemma x86_loop32_spec (fuel : nat) acc ptr size :
  state acc ptr size → size / 32 ≤ Z.of_nat fuel →
  ∃ acc' ptr' size', loop32 fuel data acc ptr size = Ok (acc', ptr', size') ∧
    state acc' ptr' size' ∧ size' < 32.
Proof.
  revert acc ptr size. induction fuel as [|fuel IH]; intros acc ptr size;
    cbn [loop32]; start; intros Hf; destruct (Z.ltb_spec size 32).
  1, 3: exists acc, ptr, size; unfold state; split_and!; (done || lia).
  - even.
  - do 4 load_adc. settle. apply IH; [|even].
    replace (ptr + 32) with (ptr + Z.of_nat 8 + Z.of_nat 8 + Z.of_nat 8 + Z.of_nat 8) by lia.
    unfold state; split_and!; (done || even).
Qed.

Lemma x86_block16_spec acc ptr size :
  state acc ptr size → size < 32 →
  ∃ acc' ptr' size', block16 data acc ptr size = Ok (acc', ptr', size') ∧
    state acc' ptr' size' ∧ size' < 16.
Proof.
  unfold block16. start. intros H32. destruct (Z.ltb_spec size 16).
  - exists acc, ptr, size. unfold state; split_and!; (done || lia).
  - do 2 load_adc. settle. eexists _, _, _. split; [done|].
    replace (ptr + 16) with (ptr + Z.of_nat 8 + Z.of_nat 8) by lia.
    unfold state; split_and!; (done || even).
Qed.

Lemma x86_block_spec n acc ptr size :
  Z.of_nat n mod 2 = 0 → (0 < n ≤ 8)%nat →
  state acc ptr size → size < 2 * Z.of_nat n →
  ∃ acc' ptr' size', block n data acc ptr size = Ok (acc', ptr', size') ∧
    state acc' ptr' size' ∧ size' < Z.of_nat n.
Proof.
  intros Hn Hn8. unfold block. start. intros H32. destruct (Z.ltb_spec size (Z.of_nat n)).
  - exists acc, ptr, size. unfold state; split_and!; (done || lia).
  - load_adc. settle. eexists _, _, _. split; [done|].
    unfold state; split_and!; (done || even).
Qed.

Lemma x86_block1_spec acc ptr size :
  state acc ptr size → size < 2 →
  ∃ acc', block1 data acc ptr size = Ok acc' ∧ summed data i0 acc' false length.
Proof.
  unfold block1. start. intros H2. destruct (Z.ltb_spec size 1).
  - exists acc. split; [done|]. by replace length with ptr by lia.
  - load_adc. settle. eexists. split; [done|].
    by replace length with (ptr + Z.of_nat 1) by lia.
Qed.
End blocks.

(** The initial value in network byte order. *)
Lemma xchg_initial i : is_u16 i → xchg_lh i = htons i.
Proof.
  intros. unfold xchg_lh. change M16 with 65536.
  rewrite Z.mod_small, Z.sub_diag by done. done.
Qed.

Lemma x86_checksum_spec data length initial :
  are_bytes data → 0 ≤ length ≤ Z.of_nat (List.length data) →
  length < 2 ^ 63 → is_u16 initial →
  checksum data length initial = Ok (ipsum_spec data length initial).
Proof.
  intros Hd Hl H63 Hi. change (2 ^ 63) with 0x8000000000000000 in H63.
  unfold checksum. rewrite xchg_initial by done.
  pose proof (htons_range initial) as Hr. unfold is_u16 in Hr.
  assert (state data (htons initial) length (htons initial) 0 length) as Hs.
  { unfold state, summed. split_and!; [lia| |lia|done|lia]. apply carry_state_drop.
    - unfold M64. lia.
    - change (take (Z.to_nat 0) data) with (@nil Z). simpl.
      rewrite Z.add_0_r. apply ones_refl. lia. }
  edestruct (x86_loop32_spec data (htons initial) length) as (a1&p1&s1&->&H1&L1); [done|lia|lia|exact Hs| |].
  { rewrite Z2Nat.id by even. done. }
  cbn [mbind outcome_bind].
  edestruct (x86_block16_spec data (htons initial) length) as (a2&p2&s2&->&H2&L2); [done|lia|lia|exact H1|done|]. cbn [mbind outcome_bind].
  edestruct (x86_block_spec data (htons initial) length) with (n := 8%nat) as (a3&p3&s3&->&H3&L3);
    [done|lia|lia|done|lia|exact H2|lia|]. cbn [mbind outcome_bind].
  edestruct (x86_block_spec data (htons initial) length) with (n := 4%nat) as (a4&p4&s4&->&H4&L4);
    [done|lia|lia|done|lia|exact H3|lia|]. cbn [mbind outcome_bind].
  edestruct (x86_block_spec data (htons initial) length) with (n := 2%nat) as (a5&p5&s5&->&H5&L5);
    [done|lia|lia|done|lia|exact H4|lia|]. cbn [mbind outcome_bind].
  edestruct (x86_block1_spec data (htons initial) length) as (a6&->&H6); [done|lia|lia|exact H5|lia|]. cbn [mbind outcome_bind].
  destruct H6 as [_ H6]. by rewrite (x86_fold_spec _ _ H6).
Qed.
End X86_64_facts.

Module Aarch64_facts.
Import Aarch64.

Lemma arm_fold_spec acc cf s :
  carry_state M64 acc cf s → u16 (fold acc cf) = ntohs (65535 - ones s).
Proof.
  intros H. unfold fold.
  destruct (fold_64_32 _ _ _ H) as (acc1 & cf1 & acc2 & cf2 & -> & -> & H2).
  pose proof (fold_32_16 _ _ H2) as [Ho Ht]. destruct H2 as (Ha2 & Hb2 & _). simpl in Hb2.
  rewrite !shiftr_16. change 65536 with M16.
  set (t := acc2 mod M16 + acc2 / M16) in *.
  pose proof (ones_range s) as Hr. unfold M16, M32 in *.
  rewrite (Z.mod_small t) by lia.
  rewrite (Z.mod_small (t + _)) by even.
  set (a := 4294967296 - 1 - (t + t / 65536)).
  assert (a mod 65536 = 65535 - ones s) as Hlow by (unfold a; rewrite <-Ho; even).
  unfold rev16, M16, M32. rewrite Hlow. unfold u16.
  rewrite (Z.mul_comm 65536), Z.mod_add by done. apply u16_id, (swap_bytes_range 2).
Qed.

(** The 32-byte blocks: the low five bits of the length cleared. *)
Lemma land_mod32 length :
  0 ≤ length < 2 ^ 63 → Z.land length (M64 - 1 - 31) = length - length mod 32.
Proof.
  intros Hl. change (M64 - 1 - 31) with (Z.shiftl (Z.ones 59) 5).
  assert (length - length mod 32 = Z.shiftl (Z.shiftr length 5) 5) as ->.
  { rewrite Z.shiftl_mul_pow2, Z.shiftr_div_pow2 by lia. change (2 ^ 5) with 32. even. }
  apply Z.bits_inj'. intros i Hi. rewrite Z.land_spec, !Z.shiftl_spec by done.
  destruct (Z.ltb_spec i 5).
  { rewrite !(Z.testbit_neg_r _ (i - 5)) by lia. apply andb_false_r. }
  rewrite Z.shiftr_spec, Z.testbit_ones_nonneg by lia.
  replace (i - 5 + 5) with i by lia. destruct (Z.ltb_spec (i - 5) 59); [apply andb_true_r|].
  rewrite <-(Z.mod_small length (2 ^ 63)) by done.
  by rewrite Z.mod_pow2_bits_high by lia.
Qed.

Lemma testbit_div size b : 0 ≤ b → Z.testbit size b = ((size / 2 ^ b) mod 2 =? 1).
Proof.
  intros. destruct (Z.testbit size b) eqn:E.
  - apply Z.testbit_true in E; [|done]. by rewrite E.
  - apply Z.testbit_false in E; [|done]. by rewrite E.
Qed.

Section blocks.
Context (data : bytes) (i0 : Z) (length : Z).
Context (Hdata : are_bytes data) (Hlen : 0 ≤ length ≤ Z.of_nat (List.length data))
        (Hsize : length < 0x8000000000000000).

Lemma arm_loop32_spec (fuel : nat) acc ptr mod32 :
  summed data i0 acc false ptr → ptr mod 2 = 0 → 0 < mod32 →
  mod32 mod 32 = 0 → ptr + mod32 = length - length mod 32 →
  mod32 / 32 ≤ Z.of_nat fuel →
  ∃ acc' z, loop32 fuel data acc ptr mod32 = Ok (acc', length - length mod 32, z) ∧
    summed data i0 acc' false (length - length mod 32).
Proof.
  revert acc ptr mod32. induction fuel as [|fuel IH]; intros acc ptr mod32 Hs Hp H0 Hm He Hf.
  { exfalso. even. }
  pose proof Hs as [Hp0 _]. cbn [loop32].
  assert (32 ≤ mod32 ∧ mod32 ≤ length ∧ ptr + 32 ≤ length) as (? & ? & ?) by even.
  do 2 load2_adc2. settle.
  unfold signed64. rewrite (proj2 (Z.ltb_lt mod32 _)) by lia.
  rewrite (Z.mod_small (mod32 - 32)) by (unfold M64; lia).
  replace (ptr + Z.of_nat 8 + Z.of_nat 8 + Z.of_nat 8 + Z.of_nat 8) with (ptr + 32) in * by lia.
  destruct (Z.ltb_spec 32 mod32).
  - apply IH; (assumption || even).
  - assert (mod32 = 32) as -> by lia. eexists _, _. split; [by rewrite He|].
    by rewrite <-He.
Qed.

Lemma arm_block16_spec acc ptr :
  ptr = length - length mod 32 → summed data i0 acc false ptr →
  ∃ acc' cf', block16 data length acc ptr false = Ok (acc', length - length mod 16, cf') ∧
    summed data i0 acc' cf' (length - length mod 16).
Proof.
  intros Hp Hs. pose proof Hs as [Hp0 _]. unfold block16.
  rewrite testbit_div by done. change (2 ^ 4) with 16.
  destruct (Z.eqb_spec ((length / 16) mod 2) 1); simpl negb; cbv iota.
  - assert (ptr mod 2 = 0 ∧ ptr + 16 ≤ length) as [? ?] by even.
    load2_adc2. eexists _, _.
    assert (ptr + Z.of_nat 8 + Z.of_nat 8 = length - length mod 16) as He by even.
    split; [|by rewrite <-He]. do 3 f_equal. lia.
  - assert (ptr = length - length mod 16) as He by even. rewrite <-He. eauto.
Qed.

(** Each lower bit of the length: the carry stays pending. *)
Lemma arm_block_spec b acc ptr cf :
  0 ≤ b ≤ 3 → ptr = length - length mod 2 ^ (b + 1) → summed data i0 acc cf ptr →
  ∃ acc' cf', block b data length acc ptr cf = Ok (acc', length - length mod 2 ^ b, cf') ∧
    summed data i0 acc' cf' (length - length mod 2 ^ b).
Proof.
  intros Hb Hp Hs. pose proof Hs as [Hp0 _]. unfold block.
  rewrite testbit_div by lia.
  assert (b = 0 ∨ b = 1 ∨ b = 2 ∨ b = 3) as Hcases by lia.
  set (n := Z.to_nat (2 ^ b)).
  assert (length mod 2 ^ (b + 1) = length mod 2 ^ b + 2 ^ b * ((length / 2 ^ b) mod 2) ∧
          ptr mod 2 = 0 ∧ (n ≤ 8)%nat ∧ Z.of_nat n = 2 ^ b ∧ 0 ≤ length mod 2 ^ b) as (Hm & Hp2 & Hn8 & Hn & Hr).
  { rewrite Hp. unfold n. destruct Hcases as [-> | [-> | [-> | ->]]]; cbn; even. }
  destruct (Z.eqb_spec ((length / 2 ^ b) mod 2) 1) as [E|E]; simpl negb; cbv iota.
  - rewrite E in Hm.
    assert (ptr + 2 ^ b ≤ length) by lia.
    load_adc. eexists _, _.
    assert (ptr + Z.of_nat n = length - length mod 2 ^ b) as He by lia.
    split; [|by rewrite <-He]. do 3 f_equal. lia.
  - assert ((length / 2 ^ b) mod 2 = 0) as E' by even.
    assert (ptr = length - length mod 2 ^ b) as He by (rewrite E' in Hm; lia).
    rewrite <-He. eauto.
Qed.
End blocks.

Lemma rev16_initial i : is_u16 i → rev16 i = htons i.
Proof.
  intros. unfold rev16, M16, M32. unfold is_u16 in *.
  rewrite (Z.mod_small i 65536), (Z.mod_small i 4294967296) by lia.
  rewrite (Z.div_small i) by lia. change (swap_bytes 2 0) with 0. by rewrite Z.add_0_r.
Qed.

Lemma arm_checksum_spec data length initial :
  are_bytes data → 0 ≤ length ≤ Z.of_nat (List.length data) →
  length < 2 ^ 63 → is_u16 initial →
  checksum data length initial = Ok (ipsum_spec data length initial).
Proof.
  intros Hd Hl H63 Hi. unfold checksum.
  rewrite land_mod32, rev16_initial by (done || lia).
  change (2 ^ 63) with 0x8000000000000000 in H63.
  pose proof (htons_range initial) as Hr. unfold is_u16 in Hr.
  assert (summed data (htons initial) (htons initial) false 0) as Hs.
  { split; [lia|]. apply carry_state_drop; [unfold M64; lia|].
    change (take (Z.to_nat 0) data) with (@nil Z). simpl.
    rewrite Z.add_0_r. apply ones_refl. lia. }
  assert (∃ acc, (if length - length mod 32 =? 0 then Ok (htons initial, 0, false)
     else '(acc, ptr, mod32) ← loop32 (Z.to_nat (length / 32)) data (htons initial) 0 (length - length mod 32);
          Ok (acc, ptr, false)) = Ok (acc, length - length mod 32, false) ∧
     summed data (htons initial) acc false (length - length mod 32)) as (a0 & -> & H0).
  { destruct (Z.eqb_spec (length - length mod 32) 0) as [->|]; [eauto|].
    destruct (arm_loop32_spec data (htons initial) length Hd Hl H63 (Z.to_nat (length / 32))
      (htons initial) 0 (length - length mod 32)) as (a&z&->&Ha); [done|done|even|even|lia|even|].
    eauto. }
  cbn [mbind outcome_bind].
  destruct (arm_block16_spec data (htons initial) length Hd Hl a0 _ eq_refl H0) as (a1&c1&->&H1).
  cbn [mbind outcome_bind].
  destruct (arm_block_spec data (htons initial) length Hd Hl 3 a1 (length - length mod 16) c1 ltac:(lia) eq_refl H1) as (a2&c2&->&H2).
  cbn [mbind outcome_bind].
  destruct (arm_block_spec data (htons initial) length Hd Hl 2 a2 (length - length mod 2 ^ 3) c2 ltac:(lia) eq_refl H2) as (a3&c3&->&H3).
  cbn [mbind outcome_bind].
  destruct (arm_block_spec data (htons initial) length Hd Hl 1 a3 (length - length mod 2 ^ 2) c3 ltac:(lia) eq_refl H3) as (a4&c4&->&H4).
  cbn [mbind outcome_bind].
  destruct (arm_block_spec data (htons initial) length Hd Hl 0 a4 (length - length mod 2 ^ 1) c4 ltac:(lia) eq_refl H4) as (a5&c5&->&H5).
  cbn [mbind outcome_bind].
  change (2 ^ 0) with 1 in H5. rewrite Z.mod_1_r, Z.sub_0_r in H5.
  destruct H5 as [_ H5]. by rewrite (arm_fold_spec _ _ _ H5).
Qed.
End Aarch64_facts.

(** ** What the two routines compute, and what callers may rely on *)

Lemma ipsum_spec_ok `{Target} data length initial :
  are_bytes data → 0 ≤ length ≤ Z.of_nat (List.length data) →
  length < 2 ^ 63 → is_u16 initial →
  ipsum data length initial = Ok (ipsum_spec data length initial).
Proof.
  intros. unfold ipsum, checksum. destruct target.
  - by apply X86_64_facts.x86_checksum_spec.
  - by apply Aarch64_facts.arm_checksum_spec.
Qed.

Lemma htons_complement x : is_u16 x → htons (65535 - x) = 65535 - htons x.
Proof. intros. rewrite !htons_arith by word. word. Qed.

Lemma ones_u16 s : is_u16 (ones s).
Proof. pose proof (ones_range s). unfold is_u16. lia. Qed.

Lemma ipsum_spec_range data length initial : is_u16 (ipsum_spec data length initial).
Proof. apply ntohs_range. Qed.

(** The complement of a checksum, in network order, is the sum itself. *)
Lemma htons_not_ipsum_spec data length initial :
  htons (not16 (ipsum_spec data length initial))
  = ones (htons initial + word_sum (take (Z.to_nat length) data)).
Proof.
  unfold not16, ipsum_spec. set (s := ones _).
  assert (is_u16 s) as Hs by apply ones_u16.
  rewrite u16_id by apply ntohs_range. rewrite htons_complement by apply ntohs_range.
  rewrite htons_ntohs by (unfold is_u16 in *; lia). lia.
Qed.

(** When the sum over a block of data, starting from some value, is all ones. *)
Lemma ones_add_ffff v s :
  0 ≤ v ≤ 65535 → 0 ≤ s →
  ones (v + s) = 65535 ↔ v = 65535 - ones s ∨ (ones s = 65535 ∧ v = 65535).
Proof.
  intros Hv Hs. pose proof (ones_range s).
  assert (ones (v + s) = ones (v + ones s)) as ->.
  { apply ones_proper, ones_add_proper; [apply ones_refl; lia|]. symmetry. by apply ones_spec. }
  generalize dependent (ones s). intros o Ho. unfold ones.
  destruct (Z.eqb_spec (v + o) 0); Z.div_mod_to_equations; lia.
Qed.

Lemma ntohs_eq_0 x : is_u16 x → ntohs x = 0 ↔ x = 0.
Proof.
  intros. split; [|by intros ->]. intros E.
  rewrite <-(htons_ntohs x), E by done. done.
Qed.

(** C9. Both assembly routines agree with the reference routine on every
    slice and every length inside it, and all three return (no read outside
    of the slice, no panic, the loops end). *)
Theorem checksum_agrees_with_reference data length :
  are_bytes data → 0 ≤ length ≤ Z.of_nat (List.length data) → length < 2 ^ 48 →
  ∃ c, checksum_rust data length = Ok c ∧
       X86_64.checksum data length 0 = Ok c ∧
       Aarch64.checksum data length 0 = Ok c.
Proof.
  intros Hd Hl H48. exists (ipsum_spec data length 0).
  assert (length < 2 ^ 63) by (change (2 ^ 63) with 0x8000000000000000; lia).
  split_and!; [by apply checksum_rust_spec|..].
  - by apply X86_64_facts.x86_checksum_spec.
  - by apply Aarch64_facts.arm_checksum_spec.
Qed.

(** The bytes of a test of the source, and an odd length with a carry. *)
Definition sample : bytes := [42; 41; 40; 39; 38; 37; 36; 35; 34; 33; 32; 31; 30; 29; 28; 255; 1].

Lemma checksum_agrees_with_reference_witness :
  ∃ c, checksum_rust sample 17 = Ok c ∧ X86_64.checksum sample 17 0 = Ok c ∧
       Aarch64.checksum sample 17 0 = Ok c.
Proof.
  apply (checksum_agrees_with_reference sample 17); by_compute.
Defined.

(** C20. The doc comment of ipsum: [ipsum(data, len, value) == 0] tells that
    [value] is the checksum of the data.  Exactly: it is 0 for the checksum
    itself, and, as 0x0000 and 0xffff are the same number in ones' complement,
    also for 0xffff when the checksum is 0. *)
Theorem ipsum_verifies `{Target} data length c value :
  are_bytes data → 0 ≤ length ≤ Z.of_nat (List.length data) → length < 2 ^ 63 →
  is_u16 value → ipsum data length 0 = Ok c →
  ipsum data length value = Ok 0 ↔ value = c ∨ (c = 0 ∧ value = 65535).
Proof.
  intros Hd Hl H63 Hv Hc. rewrite ipsum_spec_ok in Hc |- * by done.
  injection Hc as <-. unfold ipsum_spec. change (htons 0) with 0. rewrite Z.add_0_l.
  set (s := word_sum _). assert (0 ≤ s) as Hs by (apply word_sum_nonneg; by apply Forall_take).
  pose proof (htons_range value) as Hr. pose proof (ones_range s) as Ho. unfold is_u16 in Hr.
  assert (∀ x, is_u16 x → Ok (ntohs x) = Ok 0 ↔ x = 0) as Hz.
  { intros x Hx. rewrite <-(ntohs_eq_0 x) by done. split; [by intros [= ->]|by intros ->]. }
  rewrite Hz by (pose proof (ones_range (htons value + s)); unfold is_u16; lia).
  assert (65535 - ones (htons value + s) = 0 ↔ ones (htons value + s) = 65535) as -> by lia.
  rewrite ones_add_ffff by lia.
  rewrite ntohs_eq_0 by (unfold is_u16; lia).
  assert (htons value = 65535 - ones s ↔ value = ntohs (65535 - ones s)) as ->.
  { split; [intros <-; by rewrite ntohs_htons|intros ->; apply htons_ntohs; unfold is_u16; lia]. }
  assert (htons value = 65535 ↔ value = 65535) as ->; [|lia].
  split; [|by intros ->]. intros E. rewrite <-(ntohs_htons value), E by done. done.
Qed.

Lemma ipsum_verifies_witness :
  @ipsum x86_64 sample 17 58634 = Ok 0 ↔ 58634 = 58634 ∨ (58634 = 0 ∧ 58634 = 65535).
Proof.
  apply (@ipsum_verifies x86_64 sample 17 58634 58634);
    [by_compute | by_compute | by_compute | by_compute | vm_compute; reflexivity].
Defined.

(** Summing two blocks in a row. *)
Lemma ipsum_chain_eq `{Target} data1 length1 data2 length2 initial sum1 :
  are_bytes data1 → are_bytes data2 →
  0 ≤ length1 ≤ Z.of_nat (List.length data1) → length1 < 2 ^ 62 → length1 mod 2 = 0 →
  0 ≤ length2 ≤ Z.of_nat (List.length data2) → length2 < 2 ^ 62 → is_u16 initial →
  ipsum data1 length1 initial = Ok sum1 →
  ipsum data2 length2 (not16 sum1)
  = ipsum (take (Z.to_nat length1) data1 ++ take (Z.to_nat length2) data2)
          (length1 + length2) initial.
Proof.
  intros Hd1 Hd2 Hl1 H62 Hev Hl2 H62' Hi H1.
  change (2 ^ 62) with 0x4000000000000000 in *.
  rewrite ipsum_spec_ok in H1 by (done || lia). injection H1 as <-.
  rewrite (ipsum_spec_ok data2) by (done || lia || apply not16_range).
  rewrite ipsum_spec_ok;
    [|by apply Forall_app_2; apply Forall_take|rewrite length_app, !length_take; lia
     |change (2 ^ 63) with 0x8000000000000000; lia|done].
  f_equal. unfold ipsum_spec at 1 3. do 2 f_equal.
  rewrite htons_not_ipsum_spec.
  rewrite (take_ge (_ ++ _)) by (rewrite length_app, !length_take; lia).
  rewrite word_sum_app, Z.add_assoc.
  2: { exists (Z.to_nat (length1 / 2)). rewrite length_take. even. }
  pose proof (htons_range initial) as Hr. unfold is_u16 in Hr.
  apply ones_proper, ones_add_proper.
  - apply ones_spec. apply Z.add_nonneg_nonneg; [lia|]. by apply word_sum_nonneg, Forall_take.
  - apply ones_refl. by apply word_sum_nonneg, Forall_take.
Qed.

(** Chaining, as the doc comment of ipsum describes it (the complement of
    the checksum of a block is the initial value for the next block), gives
    the checksum of the concatenation, for a first block of even length. *)
Theorem ipsum_chain `{Target} data1 length1 data2 length2 initial sum1 :
  are_bytes data1 → are_bytes data2 →
  0 ≤ length1 ≤ Z.of_nat (List.length data1) → length1 < 2 ^ 62 → length1 mod 2 = 0 →
  0 ≤ length2 ≤ Z.of_nat (List.length data2) → length2 < 2 ^ 62 → is_u16 initial →
  ipsum data1 length1 initial = Ok sum1 →
  ipsum data2 length2 (not16 sum1)
  = ipsum (take (Z.to_nat length1) data1 ++ take (Z.to_nat length2) data2)
          (length1 + length2) initial.
Proof. apply ipsum_chain_eq. Qed.

Lemma ipsum_chain_witness :
  @ipsum aarch64 [1; 2; 3] 3 (not16 58883)
  = @ipsum aarch64 (take (Z.to_nat 16) sample ++ take (Z.to_nat 3) [1; 2; 3]) (16 + 3) 7.
Proof.
  apply (@ipsum_chain aarch64 sample 16 [1; 2; 3] 3 7 58883);
    [by_compute..|vm_compute; reflexivity].
Defined.

(** Without the parity condition chaining is wrong: the second block of the
    chain is summed as if it started at an even offset. *)
Example ipsum_chain_odd :
  ∃ sum1, @ipsum x86_64 [1] 1 0 = Ok sum1 ∧
          @ipsum x86_64 [2] 1 (not16 sum1) ≠ @ipsum x86_64 ([1] ++ [2]) 2 0.
Proof. eexists. split; [vm_compute; reflexivity|]. vm_compute. discriminate. Qed.

(** ** Checksum fields: for the headers that carry one *)

(** A 16-bit field at an even offset adds its value to the sum. *)
Lemma word_sum_field A c B :
  Nat.Even (length A) → is_u16 c →
  word_sum (A ++ le_bytes 2 c ++ B) = word_sum (A ++ le_bytes 2 0 ++ B) + c.
Proof.
  intros HA Hc. rewrite !(word_sum_app A), !(word_sum_app (le_bytes 2 _)) by (done || by exists 1%nat).
  rewrite !word_sum_le_bytes_2 by (done || word). lia.
Qed.

(** Storing the checksum of a sum in a field that counted as zero makes the
    sum all ones. *)
Lemma checksum_field_value s :
  0 ≤ s → let c := htons (ntohs (65535 - ones s)) in
  is_u16 c ∧ ones (s + c) = 65535.
Proof.
  intros Hs c. pose proof (ones_range s).
  assert (c = 65535 - ones s) as -> by (unfold c; rewrite htons_ntohs; [done|unfold is_u16; lia]).
  split; [unfold is_u16; lia|]. rewrite Z.add_comm. apply ones_add_ffff; [lia|done|]. by left.
Qed.

Lemma ones_all_ones_zero s : ones s = 65535 → ntohs (65535 - ones s) = 0.
Proof. by intros ->. Qed.

(** The checksum over a whole slice. *)
Lemma ipsum_whole `{Target} data initial :
  are_bytes data → Z.of_nat (length data) < 2 ^ 63 → is_u16 initial →
  ipsum data (Z.of_nat (length data)) initial
  = Ok (ntohs (65535 - ones (htons initial + word_sum data))).
Proof.
  intros. rewrite ipsum_spec_ok by (done || lia). unfold ipsum_spec.
  by rewrite Nat2Z.id, firstn_all.
Qed.

(** The checksum of a header of even size followed by a payload, computed by
    chaining and stored in the header, verifies by chaining. *)
Lemma chained_checksum_verifies `{Target} hdr0 hdr c payload length init :
  are_bytes hdr0 → are_bytes hdr → are_bytes payload →
  List.length hdr0 = List.length hdr → Z.of_nat (List.length hdr) < 2 ^ 63 →
  0 ≤ length ≤ Z.of_nat (List.length payload) → length < 2 ^ 63 → is_u16 init →
  c = htons (ntohs (65535 - ones (ones (htons init + word_sum hdr0)
                                  + word_sum (take (Z.to_nat length) payload)))) →
  word_sum hdr = word_sum hdr0 + c →
  (hsum ← ipsum hdr (Z.of_nat (List.length hdr)) init; ipsum payload length (not16 hsum)) = Ok 0.
Proof.
  intros Hb0 Hb Hp Hl H63 Hlen H63' Hi Hc Hw.
  rewrite ipsum_whole by done. cbn [mbind outcome_bind].
  rewrite ipsum_spec_ok by (done || apply not16_range). f_equal. unfold ipsum_spec.
  assert (ntohs (65535 - ones (htons init + word_sum hdr))
          = ipsum_spec hdr (Z.of_nat (List.length hdr)) init) as ->.
  { unfold ipsum_spec. by rewrite Nat2Z.id, firstn_all. }
  rewrite htons_not_ipsum_spec, Nat2Z.id, firstn_all.
  set (p := word_sum (take _ payload)) in *.
  pose proof (word_sum_nonneg _ Hb0). pose proof (word_sum_nonneg _ Hb).
  assert (0 ≤ p) by (by apply word_sum_nonneg, Forall_take).
  pose proof (htons_range init) as Hr. unfold is_u16 in Hr.
  pose proof (ones_range (htons init + word_sum hdr0)).
  destruct (checksum_field_value (ones (htons init + word_sum hdr0) + p) ltac:(lia)) as [Hcr Ho].
  rewrite <-Hc in Hcr, Ho. apply ones_all_ones_zero. rewrite <-Ho.
  apply ones_proper. unfold is_u16 in Hcr.
  etrans; [apply ones_add_proper; [apply ones_spec; lia|apply ones_refl; lia]|].
  rewrite Hw. symmetry.
  replace (htons init + (word_sum hdr0 + c) + p) with (htons init + word_sum hdr0 + p + c) by lia.
  apply ones_add_proper; [|apply ones_refl; lia].
  apply ones_add_proper; [apply ones_spec; lia|apply ones_refl; lia].
Qed.

(** A chained sum over a pseudo header, a header and a payload that verifies is
    the checksum over their concatenation. *)
Lemma chained_checksum_whole `{Target} ph hdr payload length ps :
  are_bytes ph → are_bytes hdr → are_bytes payload →
  Nat.Even (List.length ph) → Nat.Even (List.length hdr) →
  Z.of_nat (List.length ph) < 2 ^ 60 → Z.of_nat (List.length hdr) < 2 ^ 60 →
  0 ≤ length ≤ Z.of_nat (List.length payload) → length < 2 ^ 60 →
  ipsum ph (Z.of_nat (List.length ph)) 0 = Ok ps →
  (hsum ← ipsum hdr (Z.of_nat (List.length hdr)) (not16 ps); ipsum payload length (not16 hsum)) = Ok 0 →
  let whole := ph ++ hdr ++ take (Z.to_nat length) payload in
  ipsum whole (Z.of_nat (List.length whole)) 0 = Ok 0.
Proof.
  intros Hp Hh Hb [k Hk] [k' Hk'] Hlp Hlh Hl H60 Hps Hc whole.
  change (2 ^ 60) with 0x1000000000000000 in *.
  rewrite ipsum_whole in Hc by (done || (change (2 ^ 63) with 0x8000000000000000; lia) || apply not16_range).
  cbn [mbind outcome_bind] in Hc.
  rewrite (ipsum_chain_eq hdr (Z.of_nat (List.length hdr)) payload length (not16 ps)) in Hc;
    try done; try lia; try (change (2 ^ 62) with 0x4000000000000000; lia);
    try apply not16_range; [|even|].
  2: { apply ipsum_whole; [done|change (2 ^ 63) with 0x8000000000000000; lia|apply not16_range]. }
  rewrite Nat2Z.id, firstn_all in Hc.
  assert (are_bytes (take (Z.to_nat length) payload)) as Hbt by (by apply Forall_take).
  assert (List.length (take (Z.to_nat length) payload) = Z.to_nat length) as Ht
    by (rewrite length_take; lia).
  set (t := take (Z.to_nat length) payload) in *.
  rewrite (ipsum_chain_eq ph (Z.of_nat (List.length ph)) (hdr ++ t)
    (Z.of_nat (List.length hdr) + length) 0) in Hc; try done; try lia;
    try (change (2 ^ 62) with 0x4000000000000000; lia); try (by apply Forall_app_2);
    [|even|rewrite length_app; lia].
  rewrite Nat2Z.id, firstn_all in Hc.
  rewrite take_ge in Hc by (rewrite length_app; lia).
  unfold whole. rewrite <-Hc. f_equal. rewrite !length_app. lia.
Qed.
