(* ===== verification/ReadBounds.v ===== *)
(** * checksum.rs: what the assembly routines read

    The routines take a pointer and a length; nothing checks that the length is
    that of the slice.  They read every byte up to the length: a length that
    exceeds the slice is a read outside of it. *)

From S2P Require Import Prelude Bytes Lib OnesComplement Checksum.
#[local] Open Scope Z_scope.

(** Either a read outside of the slice, or a value of which [P] holds. *)
Definition ub_or {A} (o : outcome A) (P : A → Prop) : Prop :=
  match o with
  | Ok a => P a
  | UB _ => True
  | Panic _ | NoFuel => False
  end.

Lemma ub_or_bind {A B} (o : outcome A) (f : A → outcome B) P :
  ub_or o (λ a, ub_or (f a) P) → ub_or (o ≫= f) P.
Proof. by destruct o. Qed.

Lemma ub_or_mono {A} (o : outcome A) (P Q : A → Prop) : ub_or o P → (∀ a, P a → Q a) → ub_or o Q.
Proof. destruct o; simpl; auto. Qed.

Lemma ub_or_load n data ptr (P : Z → Prop) :
  (∀ v, 0 ≤ ptr → ptr + Z.of_nat n ≤ Z.of_nat (length data) → P v) → ub_or (load n data ptr) P.
Proof.
  intros H. unfold load. destruct (Z.leb_spec 0 ptr); [|done].
  destruct (Z.leb_spec (ptr + Z.of_nat n) (Z.of_nat (length data))); [|done]. simpl. by apply H.
Qed.

Ltac read :=
  repeat first
    [ apply ub_or_bind; apply ub_or_load; intros ? ? ?
    | match goal with |- context [adc ?m ?a ?b ?c] => destruct (adc m a b c) end ].

Section x86_64.
Import X86_64.
Context (data : bytes) (length : Z) (Hlength : 0 ≤ length < 0x8000000000000000).

(** Progress: everything before [ptr] was inside of the slice. *)
Definition progress (ptr size : Z) : Prop := 0 ≤ ptr ≤ Z.of_nat (List.length data) ∧ 0 ≤ size ∧ ptr + size = length.

Lemma signed64_progress ptr size : progress ptr size → signed64 size = size.
Proof. intros (?&?&?). unfold signed64. by rewrite (proj2 (Z.ltb_lt _ _)) by lia. Qed.

Lemma x86_loop32_reads fuel : ∀ acc ptr size,
  progress ptr size → size / 32 ≤ Z.of_nat fuel →
  ub_or (loop32 fuel data acc ptr size) (λ '(_, ptr', size'), progress ptr' size' ∧ size' < 32).
Proof.
  induction fuel as [|fuel IH]; intros acc ptr size Hp Hf; simpl; rewrite (signed64_progress _ _ Hp);
    destruct (Z.ltb_spec size 32); [done| |done|].
  - Z.div_mod_to_equations. lia.
  - read. apply IH; [destruct Hp as (?&?&?); unfold progress; lia|Z.div_mod_to_equations; lia].
Qed.

Lemma x86_block16_reads acc ptr size :
  progress ptr size → size < 32 →
  ub_or (block16 data acc ptr size) (λ '(_, ptr', size'), progress ptr' size' ∧ size' < 16).
Proof.
  intros Hp Hs. unfold block16. rewrite (signed64_progress _ _ Hp).
  destruct (Z.ltb_spec size 16); [done|]. read. destruct Hp as (?&?&?). simpl. unfold progress. lia.
Qed.

Lemma x86_block_reads k acc ptr size :
  progress ptr size → size < 2 * Z.of_nat k →
  ub_or (block k data acc ptr size) (λ '(_, ptr', size'), progress ptr' size' ∧ size' < Z.of_nat k).
Proof.
  intros Hp Hs. unfold block. rewrite (signed64_progress _ _ Hp).
  destruct (Z.ltb_spec size (Z.of_nat k)); [done|]. read. destruct Hp as (?&?&?). simpl. unfold progress. lia.
Qed.

Lemma x86_block1_reads acc ptr size :
  progress ptr size → size < 2 → ub_or (block1 data acc ptr size) (λ _, length ≤ Z.of_nat (List.length data)).
Proof.
  intros Hp Hs. unfold block1. rewrite (signed64_progress _ _ Hp). destruct Hp as (?&?&?).
  destruct (Z.ltb_spec size 1); [simpl; lia|]. read. simpl. lia.
Qed.

Lemma x86_reads initial : ub_or (checksum data length initial) (λ _, length ≤ Z.of_nat (List.length data)).
Proof.
  unfold checksum. assert (progress 0 length) as Hp by (unfold progress; lia).
  apply ub_or_bind. eapply ub_or_mono; [apply x86_loop32_reads; [done|Z.div_mod_to_equations; lia]|].
  intros [[a1 p1] s1] [H1 L1]. apply ub_or_bind. eapply ub_or_mono; [by apply x86_block16_reads|].
  intros [[a2 p2] s2] [H2 L2]. apply ub_or_bind. eapply ub_or_mono; [apply (x86_block_reads 8); [done|lia]|].
  intros [[a3 p3] s3] [H3 L3]. apply ub_or_bind. eapply ub_or_mono; [apply (x86_block_reads 4); [done|lia]|].
  intros [[a4 p4] s4] [H4 L4]. apply ub_or_bind. eapply ub_or_mono; [apply (x86_block_reads 2); [done|lia]|].
  intros [[a5 p5] s5] [H5 L5]. apply ub_or_bind. eapply ub_or_mono; [apply x86_block1_reads; [done|lia]|].
  done.
Qed.
End x86_64.

Section aarch64.
Import Aarch64.
Context (data : bytes) (length : Z) (Hlength : 0 ≤ length < 0x8000000000000000).

Lemma arm_loop32_reads fuel : ∀ acc ptr mod32,
  0 ≤ ptr → 0 < mod32 → mod32 mod 32 = 0 → mod32 < 0x8000000000000000 → mod32 / 32 ≤ Z.of_nat fuel →
  ub_or (loop32 fuel data acc ptr mod32)
    (λ '(_, ptr', _), ptr' = ptr + mod32 ∧ ptr' ≤ Z.of_nat (List.length data)).
Proof.
  induction fuel as [|fuel IH]; intros acc ptr mod32 Hp H0 Hm Hb Hf.
  { exfalso. Z.div_mod_to_equations. lia. }
  cbn [loop32]. read. unfold signed64. rewrite (proj2 (Z.ltb_lt mod32 _)) by lia.
  rewrite (Z.mod_small (mod32 - 32)) by (unfold M64; Z.div_mod_to_equations; lia).
  destruct (Z.ltb_spec 32 mod32).
  - eapply ub_or_mono; [apply IH; Z.div_mod_to_equations; lia|].
    intros [[a' p'] m'] [-> ?]. split; lia.
  - simpl. Z.div_mod_to_equations. lia.
Qed.

(** What is left to read after the blocks down to [2^b] bytes. *)
Definition reached (b ptr : Z) : Prop :=
  ptr = length - length mod 2 ^ b ∧ ptr ≤ Z.of_nat (List.length data).

Lemma reached_step b ptr :
  0 ≤ b → reached (b + 1) ptr →
  if Z.testbit length b then ptr + 2 ^ b = length - length mod 2 ^ b else reached b ptr.
Proof.
  intros Hb [Hp Hl]. rewrite Aarch64_facts.testbit_div by done.
  rewrite Z.pow_add_r, Z.pow_1_r in Hp by lia.
  pose proof (Z.pow_pos_nonneg 2 b ltac:(lia) Hb). set (k := 2 ^ b) in *.
  rewrite Z.rem_mul_r in Hp by lia.
  destruct (Z.eqb_spec ((length / k) mod 2) 1) as [E|E].
  - rewrite E in Hp. lia.
  - assert ((length / k) mod 2 = 0) as E0 by (pose proof (Z.mod_pos_bound (length / k) 2); lia).
    rewrite E0 in Hp. split; [unfold k in *|]; lia.
Qed.

Lemma arm_block16_reads acc ptr cf :
  reached 5 ptr → ub_or (block16 data length acc ptr cf) (λ '(_, ptr', _), reached 4 ptr').
Proof.
  intros Hr. apply (reached_step 4) in Hr; [|done]. unfold block16.
  destruct (Z.testbit length 4); simpl; [|done]. read. simpl. unfold reached.
  change (2 ^ 4) with 16 in *. lia.
Qed.

Lemma arm_block_reads b acc ptr cf :
  0 ≤ b → reached (b + 1) ptr → ub_or (block b data length acc ptr cf) (λ '(_, ptr', _), reached b ptr').
Proof.
  intros Hb Hr. apply reached_step in Hr; [|done]. unfold block.
  destruct (Z.testbit length b); simpl; [|done]. read. simpl. unfold reached.
  rewrite Z2Nat.id in * by (apply Z.pow_nonneg; lia). lia.
Qed.

Lemma arm_reads initial : ub_or (checksum data length initial) (λ _, length ≤ Z.of_nat (List.length data)).
Proof.
  unfold checksum. rewrite Aarch64_facts.land_mod32 by (change (2 ^ 63) with 0x8000000000000000; lia).
  apply ub_or_bind. apply (ub_or_mono _ (λ '(_, ptr, _), reached 5 ptr)).
  { destruct (Z.eqb_spec (length - length mod 32) 0) as [E|E]; simpl.
    - unfold reached. change (2 ^ 5) with 32. lia.
    - apply ub_or_bind. eapply ub_or_mono; [apply arm_loop32_reads; Z.div_mod_to_equations; lia|].
      intros [[a p] m] [-> ?]. simpl. unfold reached. change (2 ^ 5) with 32. lia. }
  intros [[a0 p0] c0] H0. apply ub_or_bind. eapply ub_or_mono; [by apply arm_block16_reads|].
  intros [[a1 p1] c1] H1. apply ub_or_bind. eapply ub_or_mono; [by apply (arm_block_reads 3)|].
  intros [[a2 p2] c2] H2. apply ub_or_bind. eapply ub_or_mono; [by apply (arm_block_reads 2)|].
  intros [[a3 p3] c3] H3. apply ub_or_bind. eapply ub_or_mono; [by apply (arm_block_reads 1)|].
  intros [[a4 p4] c4] H4. apply ub_or_bind. eapply ub_or_mono; [by apply (arm_block_reads 0)|].
  intros [[a5 p5] c5] [H5 L5]. change (2 ^ 0) with 1 in H5. rewrite Z.mod_1_r in H5. simpl. lia.
Qed.
End aarch64.

Lemma ipsum_reads `{Target} data length initial :
  0 ≤ length < 2 ^ 63 → Z.of_nat (List.length data) < length →
  ∃ w, ipsum data length initial = UB w.
Proof.
  intros Hl Hlt. change (2 ^ 63) with 0x8000000000000000 in Hl.
  assert (ub_or (ipsum data length initial) (λ _, length ≤ Z.of_nat (List.length data))) as Hr.
  { unfold ipsum, Checksum.checksum. destruct target; [by apply x86_reads|by apply arm_reads]. }
  destruct (ipsum data length initial); simpl in Hr; [lia|done|eauto|done].
Qed.
