(* ===== verification/BitFields.v ===== *)
(** * Bit fields of 16-bit words in network byte order

    The headers update a field in place by masking and or-ing words whose
    bytes are swapped: [w &= htons(mask); w |= htons((v & ones) << k)].  Swapping
    commutes with the bitwise operations, so a field update is the same update
    in host order. *)

From S2P Require Import Prelude Bytes Lib.
#[local] Open Scope Z_scope.

Lemma htons_div_mod x : is_u16 x → htons x mod 2 ^ 8 = x / 2 ^ 8 ∧ htons x / 2 ^ 8 = x mod 2 ^ 8.
Proof.
  intros. rewrite htons_arith by done. change (2 ^ 8) with 256. word.
Qed.

Lemma testbit_htons x i :
  is_u16 x → 0 ≤ i < 16 →
  Z.testbit (htons x) i = Z.testbit x (if i <? 8 then i + 8 else i - 8).
Proof.
  intros Hx Hi. destruct (htons_div_mod x Hx) as [Hm Hd].
  destruct (Z.ltb_spec i 8).
  - rewrite <-(Z.mod_pow2_bits_low (htons x) 8) by lia.
    rewrite Hm, Z.div_pow2_bits by lia. done.
  - replace i with ((i - 8) + 8) at 1 by lia.
    rewrite <-Z.div_pow2_bits by lia. rewrite Hd. apply Z.mod_pow2_bits_low. lia.
Qed.

Lemma testbit_u16_high x i : is_u16 x → 16 ≤ i → Z.testbit x i = false.
Proof.
  intros Hx Hi. rewrite <-(Z.mod_small x (2 ^ 16)) by done.
  by apply Z.mod_pow2_bits_high.
Qed.

Lemma bits16_inj x y :
  is_u16 x → is_u16 y → (∀ i, 0 ≤ i < 16 → Z.testbit x i = Z.testbit y i) → x = y.
Proof.
  intros Hx Hy H. apply Z.bits_inj'. intros i Hi.
  destruct (Z.ltb_spec i 16); [apply H; lia|]. by rewrite !testbit_u16_high by done.
Qed.

Lemma land_u16 x y : is_u16 x → is_u16 y → is_u16 (Z.land x y).
Proof.
  intros [Hx ?] [Hy ?]. split; [by apply Z.land_nonneg; left|].
  destruct (Z.eq_dec (Z.land x y) 0) as [->|Hne]; [done|].
  change 65536 with (2 ^ 16). apply Z.log2_lt_pow2.
  { pose proof (proj2 (Z.land_nonneg x y) (or_introl Hx)). lia. }
  eapply Z.le_lt_trans; [by apply Z.log2_land|].
  apply Z.min_lt_iff. left. destruct (Z.eq_dec x 0) as [->|]; [done|].
  apply Z.log2_lt_pow2; lia.
Qed.

Lemma lor_u16 x y : is_u16 x → is_u16 y → is_u16 (Z.lor x y).
Proof.
  intros [Hx ?] [Hy ?]. split; [by apply Z.lor_nonneg|].
  destruct (Z.eq_dec (Z.lor x y) 0) as [->|Hne]; [done|].
  change 65536 with (2 ^ 16). apply Z.log2_lt_pow2.
  { pose proof (proj2 (Z.lor_nonneg x y) (conj Hx Hy)). lia. }
  rewrite Z.log2_lor by done. apply Z.max_lub_lt.
  - destruct (Z.eq_dec x 0) as [->|]; [done|]. apply Z.log2_lt_pow2; lia.
  - destruct (Z.eq_dec y 0) as [->|]; [done|]. apply Z.log2_lt_pow2; lia.
Qed.

#[export] Hint Resolve land_u16 lor_u16 : word_ranges.

Lemma htons_land x y :
  is_u16 x → is_u16 y → htons (Z.land x y) = Z.land (htons x) (htons y).
Proof.
  intros. apply bits16_inj; [by eauto with word_ranges..|]. intros i Hi.
  rewrite Z.land_spec, !testbit_htons by eauto with word_ranges. apply Z.land_spec.
Qed.

Lemma htons_lor x y :
  is_u16 x → is_u16 y → htons (Z.lor x y) = Z.lor (htons x) (htons y).
Proof.
  intros. apply bits16_inj; [by eauto with word_ranges..|]. intros i Hi.
  rewrite Z.lor_spec, !testbit_htons by eauto with word_ranges. apply Z.lor_spec.
Qed.

(** The field of [n] bits at [k]. *)
Definition field (k n w : Z) : Z := Z.land (Z.shiftr w k) (Z.ones n).

(** Clear the bits outside of [mask] and put [v] at [k], in host order. *)
Definition set_field (mask k n v w : Z) : Z :=
  Z.lor (Z.land w mask) (Z.shiftl (Z.land v (Z.ones n)) k).

Lemma field_set_field mask k n v w :
  0 ≤ k → 0 ≤ n → Z.land mask (Z.shiftl (Z.ones n) k) = 0 →
  field k n (set_field mask k n v w) = Z.land v (Z.ones n).
Proof.
  intros Hk Hn Hm. unfold field, set_field. apply Z.bits_inj'. intros i Hi.
  rewrite !Z.land_spec, Z.shiftr_spec, Z.lor_spec, !Z.land_spec, Z.shiftl_spec by lia.
  replace (i + k - k) with i by lia. rewrite Z.land_spec.
  destruct (Z.testbit (Z.ones n) i) eqn:E; [|by rewrite !andb_false_r].
  assert (Z.testbit mask (i + k) = false) as ->.
  { pose proof (f_equal (λ z, Z.testbit z (i + k)) Hm) as H. cbv beta in H.
    rewrite Z.land_spec, Z.shiftl_spec, Z.bits_0 in H by lia.
    replace (i + k - k) with i in H by lia. by rewrite E, andb_true_r in H. }
  by rewrite andb_false_r, orb_false_l, !andb_true_r.
Qed.

Lemma field_set_field_ne mask k n k' n' v w :
  0 ≤ k → 0 ≤ k' → 0 ≤ n → 0 ≤ n' → (k + n ≤ k' ∨ k' + n' ≤ k) →
  Z.land mask (Z.shiftl (Z.ones n') k') = Z.shiftl (Z.ones n') k' →
  field k' n' (set_field mask k n v w) = field k' n' w.
Proof.
  intros Hk Hk' Hn Hn' Hd Hm. unfold field, set_field. apply Z.bits_inj'. intros i Hi.
  rewrite !Z.land_spec, !Z.shiftr_spec, Z.lor_spec, !Z.land_spec, Z.shiftl_spec by lia.
  destruct (Z.testbit (Z.ones n') i) eqn:E; [|by rewrite !andb_false_r].
  rewrite !andb_true_r.
  assert (Z.testbit mask (i + k') = true) as ->.
  { pose proof (f_equal (λ z, Z.testbit z (i + k')) Hm) as H. cbv beta in H.
    rewrite Z.land_spec, Z.shiftl_spec in H by lia.
    replace (i + k' - k') with i in H by lia. by rewrite E, andb_true_r in H. }
  rewrite andb_true_r, Z.land_spec.
  rewrite Z.testbit_ones_nonneg in E by lia. apply Z.ltb_lt in E.
  assert (Z.testbit (Z.ones n) (i + k' - k) = false) as ->; [|by rewrite andb_false_r, orb_false_r].
  destruct (Z.ltb_spec (i + k' - k) 0); [by apply Z.testbit_neg_r|].
  rewrite Z.testbit_ones_nonneg by lia. apply Z.ltb_ge. lia.
Qed.

(** The update the code does on a swapped word. *)
Lemma set_field_swapped mask k n v w :
  is_u16 w → is_u16 mask → 0 ≤ k → 0 ≤ n → k + n ≤ 16 →
  ntohs (Z.lor (Z.land w (htons mask)) (htons (u16 (Z.shiftl (Z.land v (Z.ones n)) k))))
  = set_field mask k n v (ntohs w) ∧
  is_u16 (Z.lor (Z.land w (htons mask)) (htons (u16 (Z.shiftl (Z.land v (Z.ones n)) k)))).
Proof.
  intros Hw Hmask Hk Hn Hkn.
  assert (is_u16 (Z.shiftl (Z.land v (Z.ones n)) k)) as Hf.
  { rewrite Z.shiftl_mul_pow2, Z.land_ones by lia.
    pose proof (Z.mod_pos_bound v (2 ^ n) ltac:(lia)). pose proof (Z.pow_pos_nonneg 2 k).
    assert (2 ^ n * 2 ^ k ≤ 2 ^ 16) by (rewrite <-Z.pow_add_r by lia; apply Z.pow_le_mono_r; lia).
    change (2 ^ 16) with 65536 in *. unfold is_u16. nia. }
  rewrite (u16_id (Z.shiftl _ _)) by done. split.
  - change ntohs with htons. unfold set_field.
    rewrite htons_lor, htons_land by eauto with word_ranges.
    change (htons (htons mask)) with (ntohs (htons mask)).
    change (htons (htons (Z.shiftl (Z.land v (Z.ones n)) k)))
      with (ntohs (htons (Z.shiftl (Z.land v (Z.ones n)) k))).
    by rewrite !ntohs_htons by done.
  - eauto 6 with word_ranges.
Qed.
