(* ===== verification/Header.v ===== *)
(** * header.rs: protocol headers in memory

    A [Header<T>] is a pointer to a packed struct [T]: inside of a byte slice
    ([from_mem]) or into memory of its own ([new]).  The layout of a struct
    ([#[repr(C, packed)]], little-endian) is an instance of [Layout]; what the
    other files rely on are the laws of [LayoutLaws]. *)

From S2P Require Import Prelude Bytes Lib.
#[local] Open Scope Z_scope.

(** How a packed struct lies in memory. *)
Class Layout (T : Type) : Type := {
  size_of : nat;
  decode : bytes → T;
  encode : T → bytes;
  fields_ok : T → Prop;
}.
Arguments size_of T {_}.

(** Reading back what was written, and the converse. *)
Class LayoutLaws (T : Type) `{!Layout T} : Prop := {
  length_encode t : fields_ok t → length (encode t) = size_of T;
  encode_are_bytes t : fields_ok t → are_bytes (encode t);
  decode_encode t : fields_ok t → decode (encode t) = t;
  encode_decode bs : are_bytes bs → length bs = size_of T → encode (decode bs : T) = bs;
  decode_ok bs : are_bytes bs → length bs = size_of T → fields_ok (decode bs : T);
}.

(** A header is the offset of the struct in the memory it points into. *)
Record Header (T : Type) : Type := mkHeader { ptr : nat }.
Arguments mkHeader {T} ptr.
Arguments ptr {T} h : rename.

(** [new::<T>()]: memory of its own holding the default struct. *)
Definition new {T} `{!Layout T} (dflt : T) : Header T * bytes := (mkHeader 0, encode dflt).

(** [from_mem::<T>(&mut mem[ofs..])]. *)
Definition from_mem {T} `{!Layout T} (mem : bytes) (ofs : nat) : outcome (Header T) :=
  assert "range start index out of range" (bool_decide (ofs ≤ length mem)%nat);;
  assert "assertion failed: ptr.len() >= mem::size_of::<T>()"
    (bool_decide (size_of T ≤ length mem - ofs)%nat);;
  Ok (mkHeader ofs).

Section header.
Context {T : Type} `{!Layout T}.

Definition header_slice (h : Header T) (mem : bytes) : bytes :=
  slice (ptr h) (size_of T) mem.

Definition header_ref (h : Header T) (mem : bytes) : T := decode (header_slice h mem).

(** Memory after a change through [header_mut]. *)
Definition header_mut (h : Header T) (f : T → T) (mem : bytes) : bytes :=
  splice (ptr h) (encode (f (header_ref h mem))) mem.

(** [Header<T>.copy(&mut dst)]. *)
Definition header_copy (h : Header T) (mem dst : bytes) : bytes :=
  copy dst (header_slice h mem) (size_of T).
End header.

(** ** The laws of headers in memory *)
Section laws.
Context {T : Type} `{!Layout T, !LayoutLaws T}.
Implicit Types (h : Header T) (mem : bytes).

(** The struct lies inside of the memory. *)
Definition in_range h mem : Prop := (ptr h + size_of T ≤ length mem)%nat.

Lemma from_mem_ok mem ofs :
  (ofs + size_of T ≤ length mem)%nat → from_mem mem ofs = Ok (mkHeader ofs : Header T).
Proof.
  intros. unfold from_mem, assert.
  rewrite bool_decide_true by lia. simpl. by rewrite bool_decide_true by lia.
Qed.

Lemma header_slice_are_bytes h mem : are_bytes mem → are_bytes (header_slice h mem).
Proof. apply Forall_slice. Qed.

Lemma length_header_slice h mem :
  in_range h mem → length (header_slice h mem) = size_of T.
Proof. apply length_slice. Qed.

Lemma header_ref_ok h mem :
  are_bytes mem → in_range h mem → fields_ok (header_ref h mem).
Proof. intros. apply decode_ok; auto using header_slice_are_bytes, length_header_slice. Qed.

Lemma encode_header_ref h mem :
  are_bytes mem → in_range h mem → encode (header_ref h mem) = header_slice h mem.
Proof. intros. apply encode_decode; auto using header_slice_are_bytes, length_header_slice. Qed.

Lemma length_header_mut h f mem :
  in_range h mem → fields_ok (f (header_ref h mem)) →
  length (header_mut h f mem) = length mem.
Proof. intros Hr Hf. apply length_splice. by rewrite length_encode. Qed.

Lemma header_mut_are_bytes h f mem :
  are_bytes mem → fields_ok (f (header_ref h mem)) → are_bytes (header_mut h f mem).
Proof. intros. apply Forall_splice; auto using encode_are_bytes. Qed.

Lemma header_slice_mut h f mem :
  in_range h mem → fields_ok (f (header_ref h mem)) →
  header_slice h (header_mut h f mem) = encode (f (header_ref h mem)).
Proof.
  intros Hr Hf. unfold header_slice, header_mut. rewrite <-(length_encode _ Hf).
  apply slice_splice_eq. by rewrite length_encode.
Qed.

(** What was set is read back. *)
Lemma header_ref_mut h f mem :
  in_range h mem → fields_ok (f (header_ref h mem)) →
  header_ref h (header_mut h f mem) = f (header_ref h mem).
Proof.
  intros. unfold header_ref at 1. rewrite header_slice_mut by done. by apply decode_encode.
Qed.

(** Memory outside of the header is left alone. *)
Lemma slice_header_mut_ne h f mem ofs len :
  in_range h mem → fields_ok (f (header_ref h mem)) →
  (ofs + len ≤ ptr h ∨ ptr h + size_of T ≤ ofs)%nat →
  slice ofs len (header_mut h f mem) = slice ofs len mem.
Proof. intros Hr Hf Hd. apply slice_splice_ne; rewrite length_encode by done; done || lia. Qed.

Lemma header_mut_id h mem :
  are_bytes mem → in_range h mem → header_mut h id mem = mem.
Proof.
  intros. unfold header_mut, id. rewrite encode_header_ref by done. by apply splice_slice_id.
Qed.

Lemma header_mut_compose h f g mem :
  in_range h mem → fields_ok (f (header_ref h mem)) →
  fields_ok (g (f (header_ref h mem))) →
  header_mut h g (header_mut h f mem) = header_mut h (g ∘ f) mem.
Proof.
  intros Hr Hf Hg. unfold header_mut at 1. rewrite header_ref_mut by done.
  unfold header_mut, compose. apply splice_splice; by rewrite !length_encode.
Qed.
End laws.

(** Two headers at disjoint places of the same memory do not disturb each
    other. *)
Lemma header_ref_mut_ne {T U} `{!Layout T, !LayoutLaws T, !Layout U}
    (h : Header T) (h' : Header U) f mem :
  in_range h mem → fields_ok (f (header_ref h mem)) →
  (ptr h' + size_of U ≤ ptr h ∨ ptr h + size_of T ≤ ptr h')%nat →
  header_ref h' (header_mut h f mem) = header_ref h' mem.
Proof. intros. unfold header_ref, header_slice at 1. by rewrite slice_header_mut_ne. Qed.

#[export] Hint Resolve header_slice_are_bytes header_mut_are_bytes header_ref_ok : slices.

(** ** Proving the laws of a layout given field by field *)

Lemma le_bytes_le_val_eq n bs :
  are_bytes bs → length bs = n → le_bytes n (le_val bs) = bs.
Proof. intros ? <-. by apply le_bytes_le_val. Qed.

Lemma le_val_range_eq n bs :
  are_bytes bs → length bs = n → 0 ≤ le_val bs < 256 ^ Z.of_nat n.
Proof. intros ? <-. by apply le_val_bound. Qed.

Lemma le_val_u8 bs : are_bytes bs → length bs = 1%nat → is_u8 (le_val bs).
Proof. apply (le_val_range_eq 1). Qed.
Lemma le_val_u16 bs : are_bytes bs → length bs = 2%nat → is_u16 (le_val bs).
Proof. apply (le_val_range_eq 2). Qed.
Lemma le_val_u32 bs : are_bytes bs → length bs = 4%nat → is_u32 (le_val bs).
Proof. apply (le_val_range_eq 4). Qed.

(** The laws of a layout whose fields are little-endian words (and fixed byte
    strings) one after the other. *)
Ltac solve_encode_are_bytes :=
  intros t _; simpl; repeat (apply Forall_cons_2; [apply u8_range|]); apply Forall_nil_2.

Ltac solve_decode_encode :=
  let Hok := fresh in
  intros [] Hok; simpl in Hok; destruct_and? Hok;
  cbn -[le_bytes le_val]; unfold slice; cbn -[le_val]; f_equal; simpl; word.

Ltac solve_encode_decode :=
  let bs := fresh "bs" in let Hb := fresh "Hb" in let Hl := fresh "Hl" in
  intros bs Hb Hl;
  repeat (destruct bs as [|? bs]; [discriminate Hl|]);
  destruct bs; [|discriminate Hl];
  repeat (rewrite Forall_cons in Hb; destruct Hb as [? Hb]);
  cbn -[le_bytes le_val]; unfold slice; cbn -[le_bytes le_val];
  rewrite ?le_bytes_le_val_eq by
    first [ reflexivity
          | repeat (apply Forall_cons_2; [assumption|]); apply Forall_nil_2 ];
  done.

Ltac solve_decode_ok :=
  let bs := fresh "bs" in let Hb := fresh "Hb" in let Hl := fresh "Hl" in
  intros bs Hb Hl; cbn -[le_val slice]; split_and!;
  (apply le_val_u8 || apply le_val_u16 || apply le_val_u32);
  first [by apply Forall_slice | apply length_slice; rewrite Hl; simpl; lia].
