(* ===== verification/Tcp.v ===== *)
(** * tcp.rs: the TCP header *)

From S2P Require Import Prelude Bytes Lib OnesComplement Checksum BitFields Header.
#[local] Open Scope Z_scope.

(** The struct: fields as they lie in memory (network byte order). *)
Record TCP : Type := mkTCP {
  f_src_port : Z;
  f_dst_port : Z;
  f_seq : Z;
  f_ack : Z;
  f_off_flags : Z;
  f_window_size : Z;
  f_checksum : Z;
  f_urgent_pointer : Z
}.

#[export] Instance TCP_layout : Layout TCP := {|
  size_of := 20;
  decode bs := {|
    f_src_port := le_val (slice 0 2 bs);
    f_dst_port := le_val (slice 2 2 bs);
    f_seq := le_val (slice 4 4 bs);
    f_ack := le_val (slice 8 4 bs);
    f_off_flags := le_val (slice 12 2 bs);
    f_window_size := le_val (slice 14 2 bs);
    f_checksum := le_val (slice 16 2 bs);
    f_urgent_pointer := le_val (slice 18 2 bs) |};
  encode h :=
    le_bytes 2 (f_src_port h) ++ le_bytes 2 (f_dst_port h) ++
    le_bytes 4 (f_seq h) ++ le_bytes 4 (f_ack h) ++
    le_bytes 2 (f_off_flags h) ++ le_bytes 2 (f_window_size h) ++
    le_bytes 2 (f_checksum h) ++ le_bytes 2 (f_urgent_pointer h);
  fields_ok h :=
    is_u16 (f_src_port h) ∧ is_u16 (f_dst_port h) ∧ is_u32 (f_seq h) ∧ is_u32 (f_ack h) ∧
    is_u16 (f_off_flags h) ∧ is_u16 (f_window_size h) ∧ is_u16 (f_checksum h) ∧
    is_u16 (f_urgent_pointer h)
|}.

(** #[derive(Default)] *)
Definition TCP_default : TCP := mkTCP 0 0 0 0 0 0 0 0.

Definition src_port (h : TCP) : Z := ntohs (f_src_port h).
Definition set_src_port (port : Z) (h : TCP) : TCP :=
  mkTCP (htons port) (f_dst_port h) (f_seq h) (f_ack h) (f_off_flags h)
        (f_window_size h) (f_checksum h) (f_urgent_pointer h).

Definition dst_port (h : TCP) : Z := ntohs (f_dst_port h).
Definition set_dst_port (port : Z) (h : TCP) : TCP :=
  mkTCP (f_src_port h) (htons port) (f_seq h) (f_ack h) (f_off_flags h)
        (f_window_size h) (f_checksum h) (f_urgent_pointer h).

Definition seq (h : TCP) : Z := ntohl (f_seq h).
Definition set_seq (seq : Z) (h : TCP) : TCP :=
  mkTCP (f_src_port h) (f_dst_port h) (htonl seq) (f_ack h) (f_off_flags h)
        (f_window_size h) (f_checksum h) (f_urgent_pointer h).

Definition data_offset (h : TCP) : Z := Z.land (Z.shiftr (ntohs (f_off_flags h)) 12) 0xf.
Definition set_data_offset (offset : Z) (h : TCP) : TCP :=
  let off_flags := Z.land (f_off_flags h) (htons 0x0fff) in
  let off_flags := Z.lor off_flags (htons (u16 (Z.shiftl (Z.land offset 0xf) 12))) in
  mkTCP (f_src_port h) (f_dst_port h) (f_seq h) (f_ack h) off_flags
        (f_window_size h) (f_checksum h) (f_urgent_pointer h).

(** Size of the header in bytes; never less than 20. *)
Definition size (h : TCP) : Z := Z.max 5 (data_offset h) * 4.

Definition checksum (h : TCP) : Z := f_checksum h.
Definition set_checksum (checksum : Z) (h : TCP) : TCP :=
  mkTCP (f_src_port h) (f_dst_port h) (f_seq h) (f_ack h) (f_off_flags h)
        (f_window_size h) checksum (f_urgent_pointer h).

(** The whole checksum: header, then [length] bytes of payload, on top of
    [init]. *)
Definition checksum_compute `{Target} (payload : bytes) (length init : Z) (h : TCP) : outcome TCP :=
  let h := set_checksum 0 h in
  hsum ← ipsum (encode h) (Z.of_nat (size_of TCP)) init;
  sum ← ipsum payload length (not16 hsum);
  Ok (set_checksum (htons sum) h).

(** ** Laws *)

#[export] Instance TCP_laws : LayoutLaws TCP.
Proof.
  split; [done|solve_encode_are_bytes|solve_decode_encode|solve_encode_decode|solve_decode_ok].
Qed.

(** ** Data offset *)

Lemma set_data_offset_field v h :
  fields_ok h →
  ntohs (f_off_flags (set_data_offset v h)) = set_field 0x0fff 12 4 v (ntohs (f_off_flags h)) ∧
  is_u16 (f_off_flags (set_data_offset v h)).
Proof. intros (?&?&?&?&?&_). by apply (set_field_swapped 0x0fff 12 4). Qed.

Lemma data_offset_range h : 0 ≤ data_offset h < 16.
Proof.
  unfold data_offset. change 0xf with (Z.ones 4). rewrite Z.land_ones by done.
  apply Z.mod_pos_bound. done.
Qed.

(** The header size the code trusts: 20 to 60 bytes, whatever the packet says. *)
Lemma size_range h : 20 ≤ size h ≤ 60.
Proof. pose proof (data_offset_range h). unfold size. lia. Qed.

(** Getters read back what setters wrote; [size] is the data offset in
    bytes, but never less than the 20 bytes of the struct, nor more than 60. *)
Theorem tcp_set_get (h : TCP) v16 v32 v :
  fields_ok h → is_u16 v16 → is_u32 v32 →
  (src_port (set_src_port v16 h) = v16 ∧ dst_port (set_dst_port v16 h) = v16 ∧
   seq (set_seq v32 h) = v32 ∧ checksum (set_checksum v16 h) = v16) ∧
  data_offset (set_data_offset v h) = v mod 16 ∧
  size (set_data_offset v h) = Z.max 20 (4 * (v mod 16)) ∧
  20 ≤ size h ≤ 60 ∧
  fields_ok (set_src_port v16 h) ∧ fields_ok (set_dst_port v16 h) ∧
  fields_ok (set_seq v32 h) ∧ fields_ok (set_checksum v16 h) ∧
  fields_ok (set_data_offset v h).
Proof.
  intros Hok H16 H32. pose proof Hok as (?&?&?&?&?&?&?&?).
  destruct (set_data_offset_field v h Hok) as [Ed ?].
  assert (data_offset (set_data_offset v h) = v mod 16) as Hd.
  { change (data_offset ?x) with (field 12 4 (ntohs (f_off_flags x))).
    by rewrite Ed, field_set_field, Z.land_ones by done. }
  unfold src_port, dst_port, seq. simpl. rewrite !ntohs_htons, !ntohl_htonl by done.
  pose proof (size_range h).
  split_and!; try done; try apply htons_range; try apply htonl_range; try lia.
  unfold size. rewrite Hd. lia.
Qed.

Lemma tcp_set_get_witness :
  let h := mkTCP 0x0bde 0xbb01 0 0 0x1080 0x9f05 0 0 in size (set_data_offset 0 h) = 20.
Proof. intros h. apply (tcp_set_get h 80 42 0); by_compute. Defined.

(** ** Checksum *)

Lemma tcp_word_sum c h :
  is_u16 c → word_sum (encode (set_checksum c h)) = word_sum (encode (set_checksum 0 h)) + c.
Proof.
  intros. apply (word_sum_field
    (le_bytes 2 (f_src_port h) ++ le_bytes 2 (f_dst_port h) ++ le_bytes 4 (f_seq h) ++
     le_bytes 4 (f_ack h) ++ le_bytes 2 (f_off_flags h) ++ le_bytes 2 (f_window_size h)) c
    (le_bytes 2 (f_urgent_pointer h))); [by exists 8%nat|done].
Qed.

(** The checksum of header and payload. *)
Lemma tcp_checksum_compute_spec `{Target} payload length init (h : TCP) :
  fields_ok h → are_bytes payload →
  0 ≤ length ≤ Z.of_nat (List.length payload) → length < 2 ^ 63 → is_u16 init →
  ∃ c, checksum_compute payload length init h = Ok (set_checksum c h) ∧ is_u16 c ∧
       (hsum ← ipsum (encode (set_checksum c h)) 20 init;
        ipsum payload length (not16 hsum)) = Ok 0.
Proof.
  intros Hok Hp Hl H63 Hi. pose proof Hok as (?&?&?&?&?&?&?&?).
  assert (∀ c, is_u16 c → fields_ok (set_checksum c h)) as Hset by (intros; by split_and!).
  unfold checksum_compute. change (Z.of_nat (size_of TCP)) with 20.
  rewrite (ipsum_spec_ok (encode _));
    [|by apply encode_are_bytes, Hset|split; [done|simpl; lia]|done|done].
  cbn [mbind outcome_bind].
  rewrite ipsum_spec_ok by (done || apply not16_range). cbn [mbind outcome_bind].
  eexists. split; [done|]. split; [apply htons_range|].
  set (c := htons _). assert (is_u16 c) by apply htons_range.
  change (ipsum (encode ?x) _ init) with (ipsum (encode x) (Z.of_nat (List.length (encode x))) init).
  apply (chained_checksum_verifies (encode (set_checksum 0 h)) (encode (set_checksum c h)) c);
    try done; try (by apply encode_are_bytes, Hset).
  - unfold c, ipsum_spec at 1. by rewrite htons_not_ipsum_spec.
  - by apply tcp_word_sum.
Qed.

(** C31. [checksum_compute] sets only the checksum field, and the chained sum of
    [init], the header and the payload then verifies: it is 0. *)
Theorem tcp_checksum_compute_ok `{Target} payload length init (h : TCP) :
  fields_ok h → are_bytes payload →
  0 ≤ length ≤ Z.of_nat (List.length payload) → length < 2 ^ 63 → is_u16 init →
  ∃ c, checksum_compute payload length init h = Ok (set_checksum c h) ∧ is_u16 c ∧
       (hsum ← ipsum (encode (set_checksum c h)) 20 init;
        ipsum payload length (not16 hsum)) = Ok 0.
Proof. apply tcp_checksum_compute_spec. Qed.

Lemma tcp_checksum_compute_ok_witness :
  let h := mkTCP 0x0bde 0xbb01 0xbc57dbe7 0x3218cd91 0x1080 0x9f05 0xffff 0 in
  let payload := [1; 1; 8; 10; 6; 12; 92] in
  ∃ c, @checksum_compute aarch64 payload 7 0x1234 h = Ok (set_checksum c h) ∧ is_u16 c ∧
       (hsum ← @ipsum aarch64 (encode (set_checksum c h)) 20 0x1234;
        @ipsum aarch64 payload 7 (not16 hsum)) = Ok 0.
Proof. intros h payload. apply (@tcp_checksum_compute_ok aarch64 payload 7 0x1234 h); by_compute. Defined.
