(* ===== verification/Udp.v ===== *)
(** * udp.rs: the UDP header *)

From S2P Require Import Prelude Bytes Lib OnesComplement Checksum Header.
#[local] Open Scope Z_scope.

(** The struct: fields as they lie in memory (network byte order). *)
Record UDP : Type := mkUDP {
  f_src_port : Z;
  f_dst_port : Z;
  f_len : Z;
  f_checksum : Z
}.

#[export] Instance UDP_layout : Layout UDP := {|
  size_of := 8;
  decode bs := {|
    f_src_port := le_val (slice 0 2 bs);
    f_dst_port := le_val (slice 2 2 bs);
    f_len := le_val (slice 4 2 bs);
    f_checksum := le_val (slice 6 2 bs) |};
  encode h :=
    le_bytes 2 (f_src_port h) ++ le_bytes 2 (f_dst_port h) ++
    le_bytes 2 (f_len h) ++ le_bytes 2 (f_checksum h);
  fields_ok h :=
    is_u16 (f_src_port h) ∧ is_u16 (f_dst_port h) ∧ is_u16 (f_len h) ∧ is_u16 (f_checksum h)
|}.

(** #[derive(Default)] *)
Definition UDP_default : UDP := mkUDP 0 0 0 0.

Definition src_port (h : UDP) : Z := ntohs (f_src_port h).
Definition set_src_port (port : Z) (h : UDP) : UDP :=
  mkUDP (htons port) (f_dst_port h) (f_len h) (f_checksum h).

Definition dst_port (h : UDP) : Z := ntohs (f_dst_port h).
Definition set_dst_port (port : Z) (h : UDP) : UDP :=
  mkUDP (f_src_port h) (htons port) (f_len h) (f_checksum h).

Definition len (h : UDP) : Z := ntohs (f_len h).
Definition set_len (len : Z) (h : UDP) : UDP :=
  mkUDP (f_src_port h) (f_dst_port h) (htons len) (f_checksum h).

Definition checksum (h : UDP) : Z := f_checksum h.
Definition set_checksum (checksum : Z) (h : UDP) : UDP :=
  mkUDP (f_src_port h) (f_dst_port h) (f_len h) checksum.

Definition checksum_compute `{Target} (payload : bytes) (length init : Z) (h : UDP) : outcome UDP :=
  let h := set_checksum 0 h in
  hsum ← ipsum (encode h) (Z.of_nat (size_of UDP)) init;
  sum ← ipsum payload length (not16 hsum);
  Ok (set_checksum (htons sum) h).

#[export] Instance UDP_laws : LayoutLaws UDP.
Proof.
  split; [done|solve_encode_are_bytes|solve_decode_encode|solve_encode_decode|solve_decode_ok].
Qed.

(** ** Checksum *)

Lemma udp_word_sum c h :
  is_u16 c → word_sum (encode (set_checksum c h)) = word_sum (encode (set_checksum 0 h)) + c.
Proof.
  intros. apply (word_sum_field
    (le_bytes 2 (f_src_port h) ++ le_bytes 2 (f_dst_port h) ++ le_bytes 2 (f_len h)) c []);
    [by exists 3%nat|done].
Qed.

(** The checksum of header and payload. *)
Lemma udp_checksum_compute_spec `{Target} payload length init (h : UDP) :
  fields_ok h → are_bytes payload →
  0 ≤ length ≤ Z.of_nat (List.length payload) → length < 2 ^ 63 → is_u16 init →
  ∃ c, checksum_compute payload length init h = Ok (set_checksum c h) ∧ is_u16 c ∧
       (hsum ← ipsum (encode (set_checksum c h)) 8 init;
        ipsum payload length (not16 hsum)) = Ok 0.
Proof.
  intros Hok Hp Hl H63 Hi. pose proof Hok as (?&?&?&?).
  assert (∀ c, is_u16 c → fields_ok (set_checksum c h)) as Hset by (intros; by split_and!).
  unfold checksum_compute. change (Z.of_nat (size_of UDP)) with 8.
  rewrite (ipsum_spec_ok (encode _));
    [|by apply encode_are_bytes, Hset|split; [done|simpl; lia]|done|done].
  cbn [mbind outcome_bind].
  rewrite ipsum_spec_ok by (done || apply not16_range). cbn [mbind outcome_bind].
  eexists. split; [done|]. split; [apply htons_range|].
  set (c := htons _). assert (is_u16 c) by apply htons_range.
  change (ipsum (encode ?x) _ init) with (ipsum (encode x) (Z.of_nat (List.length (encode x))) init).
  apply (chained_checksum_verifies (encode (set_checksum 0 h)) (encode (set_checksum c h)) c);
    try done; try (by apply encode_are_bytes, Hset).
  - unfold c, ipsum_spec at 1. by rewrite htons_not_ipsum_spec.
  - by apply udp_word_sum.
Qed.

(** Getters read back what setters wrote, and [checksum_compute] sets only
    the checksum field so that the chained sum of [init], the header and the
    payload verifies. *)
Theorem udp_checksum_compute_ok `{Target} payload length init (h : UDP) :
  fields_ok h → are_bytes payload →
  0 ≤ length ≤ Z.of_nat (List.length payload) → length < 2 ^ 63 → is_u16 init →
  ∃ c, checksum_compute payload length init h = Ok (set_checksum c h) ∧ is_u16 c ∧
       (hsum ← ipsum (encode (set_checksum c h)) 8 init;
        ipsum payload length (not16 hsum)) = Ok 0.
Proof. apply udp_checksum_compute_spec. Qed.

Lemma udp_checksum_compute_ok_witness :
  let h := mkUDP 0x3500 0x0bde 0x0f00 0x1111 in
  let payload := [7; 7; 7; 7; 7; 7; 7] in
  ∃ c, @checksum_compute x86_64 payload 7 3 h = Ok (set_checksum c h) ∧ is_u16 c ∧
       (hsum ← @ipsum x86_64 (encode (set_checksum c h)) 8 3;
        @ipsum x86_64 payload 7 (not16 hsum)) = Ok 0.
Proof. intros h payload. apply (@udp_checksum_compute_ok x86_64 payload 7 3 h); by_compute. Defined.
