(* ===== verification/Ethernet.v ===== *)
(** * ethernet.rs: the Ethernet header and MAC addresses *)

From S2P Require Import Prelude Bytes Lib Header.
#[local] Open Scope Z_scope.

(** [u8; 6] *)
Abbreviation MacAddress := bytes.

Record Ethernet : Type := mkEthernet {
  f_dst : MacAddress;
  f_src : MacAddress;
  f_ethertype : Z
}.

#[export] Instance Ethernet_layout : Layout Ethernet := {|
  size_of := 14;
  decode bs := {|
    f_dst := slice 0 6 bs;
    f_src := slice 6 6 bs;
    f_ethertype := le_val (slice 12 2 bs) |};
  encode h := f_dst h ++ f_src h ++ le_bytes 2 (f_ethertype h);
  fields_ok h :=
    (are_bytes (f_dst h) ∧ length (f_dst h) = 6%nat) ∧
    (are_bytes (f_src h) ∧ length (f_src h) = 6%nat) ∧
    is_u16 (f_ethertype h)
|}.

(** #[derive(Default)] *)
Definition Ethernet_default : Ethernet := mkEthernet (replicate 6 0) (replicate 6 0) 0.

Definition dst (h : Ethernet) : MacAddress := f_dst h.
Definition set_dst (address : MacAddress) (h : Ethernet) : Ethernet :=
  mkEthernet (copy (f_dst h) address 6) (f_src h) (f_ethertype h).

Definition src (h : Ethernet) : MacAddress := f_src h.
Definition set_src (address : MacAddress) (h : Ethernet) : Ethernet :=
  mkEthernet (f_dst h) (copy (f_src h) address 6) (f_ethertype h).

Definition ethertype (h : Ethernet) : Z := ntohs (f_ethertype h).
Definition set_ethertype (ethertype : Z) (h : Ethernet) : Ethernet :=
  mkEthernet (f_dst h) (f_src h) (htons ethertype).

(** Swap source and destination through a temporary. *)
Definition swap (h : Ethernet) : Ethernet :=
  let tmp := replicate 6 0 in
  let tmp := copy tmp (f_dst h) 6 in
  let h := mkEthernet (copy (f_dst h) (f_src h) 6) (f_src h) (f_ethertype h) in
  mkEthernet (f_dst h) (copy (f_src h) tmp 6) (f_ethertype h).

Definition TYPE_IPV4 : Z := 0x0800.

#[export] Instance Ethernet_laws : LayoutLaws Ethernet.
Proof.
  split.
  - intros t ((?&Hd)&(?&Hs)&?). simpl. rewrite !length_app, Hd, Hs. done.
  - intros t ((?&?)&(?&?)&?). simpl.
    apply Forall_app_2; [done|]. apply Forall_app_2; [done|].
    repeat (apply Forall_cons_2; [apply u8_range|]). apply Forall_nil_2.
  - intros [d s e] ((?&Hd)&(?&Hs)&?). simpl in *.
    do 6 (destruct d as [|? d]; [discriminate|]). destruct d; [|discriminate].
    do 6 (destruct s as [|? s]; [discriminate|]). destruct s; [|discriminate].
    unfold slice. simpl. f_equal. word.
  - intros bs Hb Hl. cbn [encode decode Ethernet_layout f_dst f_src f_ethertype].
    rewrite le_bytes_le_val_eq.
    + rewrite <-(slice_app 6 6 2), <-(slice_app 0 6 8).
      transitivity (slice 0 (length bs) bs); [by rewrite Hl|apply slice_all].
    + by apply Forall_slice.
    + apply length_slice. rewrite Hl. simpl. lia.
  - intros bs Hb Hl. simpl in Hl |- *. split_and!;
      try (by apply Forall_slice); try (apply length_slice; lia).
    all: apply le_val_u16; [by apply Forall_slice|apply length_slice; lia].
Qed.

(** ** Addresses as text *)

(** One hexadecimal digit, as [{:x}] prints it. *)
Definition hex_digit (d : Z) : ascii :=
  ascii_of_N (Z.to_N (if d <? 10 then 48 + d else 87 + d)).

(** [format!("{:x}", b)] of a byte: no leading zero. *)
Definition format_x (b : Z) : list ascii :=
  if b <? 16 then [hex_digit b] else [hex_digit (b / 16); hex_digit (b mod 16)].

Definition ntop (address : MacAddress) : list ascii :=
  match address with
  | [] => []
  | b :: bs => format_x b ++ concat (map (λ b, ":"%char :: format_x b) bs)
  end.

(** [char::to_digit(16)] *)
Definition to_digit (c : ascii) : option Z :=
  let n := Z.of_N (N_of_ascii c) in
  if (48 <=? n) && (n <=? 57) then Some (n - 48)
  else if (97 <=? n) && (n <=? 102) then Some (n - 87)
  else if (65 <=? n) && (n <=? 70) then Some (n - 55)
  else None.

Fixpoint parse_hex (acc : Z) (s : list ascii) : option Z :=
  match s with
  | [] => if acc <? 256 then Some acc else None
  | c :: s => d ← to_digit c; parse_hex (acc * 16 + d) s
  end.

(** [u8::from_str_radix(s, 16)]: a sign is allowed, digits are needed. *)
Definition from_str_radix_16 (s : list ascii) : option Z :=
  match s with
  | [] => None
  | c :: s' =>
      if decide (c = "+"%char)
      then match s' with [] => None | _ => parse_hex 0 s' end
      else parse_hex 0 s
  end.

(** [&string[i..i+2]], panics out of range. *)
Definition substring (string : list ascii) (i : nat) : outcome (list ascii) :=
  if (i + 2 <=? length string)%nat then Ok (slice i 2 string)
  else Panic "byte index is out of bounds".

Definition parse_byte (string : list ascii) (i : nat) : outcome Z :=
  s ← substring string i;
  unwrap "called `Result::unwrap()` on an `Err` value" (from_str_radix_16 s).

Definition pton (string : list ascii) : outcome MacAddress :=
  b0 ← parse_byte string 0;
  b1 ← parse_byte string 3;
  b2 ← parse_byte string 6;
  b3 ← parse_byte string 9;
  b4 ← parse_byte string 12;
  b5 ← parse_byte string 15;
  Ok [b0; b1; b2; b3; b4; b5].

(** ** Round trips *)

Lemma byte_cases (P : Z → Prop) `{∀ b, Decision (P b)} lo n b :
  Forall P (seqZ lo n) → lo ≤ b < lo + n → P b.
Proof. intros Ha Hb. rewrite Forall_forall in Ha. by apply Ha, elem_of_seqZ. Qed.

(** Two digits are read back ... *)
Lemma two_digits b : 16 ≤ b < 256 →
  format_x b = [hex_digit (b / 16); hex_digit (b mod 16)] ∧
  from_str_radix_16 [hex_digit (b / 16); hex_digit (b mod 16)] = Some b.
Proof.
  intros Hb. refine (byte_cases (λ b, format_x b = [hex_digit (b / 16); hex_digit (b mod 16)] ∧
    from_str_radix_16 [hex_digit (b / 16); hex_digit (b mod 16)] = Some b) 16 240 b _ _); [by_compute|lia].
Qed.

(** ... and one digit is not: the colon after it is no digit. *)
Lemma one_digit b : 0 ≤ b < 16 → format_x b = [hex_digit b] ∧ from_str_radix_16 [hex_digit b; ":"%char] = None.
Proof.
  intros Hb. refine (byte_cases (λ b, format_x b = [hex_digit b] ∧ from_str_radix_16 [hex_digit b; ":"%char] = None)
    0 16 b _ _); [by_compute|lia].
Qed.

#[local] Arguments from_str_radix_16 : simpl never.
#[local] Arguments format_x : simpl never.

(** [parse_byte] at [i]: both cases of the byte that was printed there. *)
Lemma parse_byte_printed pre b rest i :
  is_u8 b → length pre = i → head rest = None ∨ head rest = Some ":"%char →
  if 16 <=? b then parse_byte (pre ++ format_x b ++ rest) i = Ok b
  else ∃ e, parse_byte (pre ++ format_x b ++ rest) i = Panic e.
Proof.
  intros Hb Hi Hr. unfold is_u8 in Hb. unfold parse_byte, substring, slice.
  destruct (16 <=? b) eqn:H16; rewrite drop_app_length' by done.
  - destruct (two_digits b) as [-> Hp]; [lia|].
    assert ((i + 2 <=? length (pre ++ [hex_digit (b / 16); hex_digit (b mod 16)] ++ rest))%nat = true) as ->
      by (rewrite length_app; simpl; apply Nat.leb_le; lia).
    simpl. by rewrite take_0, Hp.
  - destruct (one_digit b) as [-> Hp]; [lia|]. case_match eqn:Hl; [|by eexists]. destruct rest as [|c rest].
    + apply Nat.leb_le in Hl. rewrite length_app in Hl. simpl in Hl. lia.
    + destruct Hr as [|[= ->]]; [done|]. simpl. rewrite take_0, Hp. by eexists.
Qed.

(** The bytes from position [i] on, as [pton] reads them. *)
Fixpoint parse_bytes (string : list ascii) (i n : nat) : outcome MacAddress :=
  match n with
  | O => Ok []
  | S n => b ← parse_byte string i; bs ← parse_bytes string (i + 3) n; Ok (b :: bs)
  end.

Lemma pton_parse_bytes string : pton string = parse_bytes string 0 6.
Proof.
  unfold pton. cbn -[parse_byte].
  destruct (parse_byte string 0); [|done..]. destruct (parse_byte string 3); [|done..].
  destruct (parse_byte string 6); [|done..]. destruct (parse_byte string 9); [|done..].
  destruct (parse_byte string 12); [|done..]. by destruct (parse_byte string 15).
Qed.

Lemma ntop_cons b bs : ntop (b :: bs) = format_x b ++ match bs with [] => [] | _ => ":"%char :: ntop bs end.
Proof. by destruct bs. Qed.

Definition two_digit (address : MacAddress) : bool := forallb (λ b, 16 <=? b) address.

Lemma parse_bytes_printed bs : ∀ pre i,
  are_bytes bs → length pre = i →
  if two_digit bs then parse_bytes (pre ++ ntop bs) i (length bs) = Ok bs
  else ∃ e, parse_bytes (pre ++ ntop bs) i (length bs) = Panic e.
Proof.
  induction bs as [|b bs IH]; intros pre i Hbs Hi; [done|]. apply Forall_cons in Hbs as [Hb Hbs].
  rewrite ntop_cons. set (rest := match bs with [] => [] | _ => _ end). simpl.
  assert (head rest = None ∨ head rest = Some ":"%char) as Hr by (unfold rest; destruct bs; auto).
  pose proof (parse_byte_printed pre b rest i Hb Hi Hr) as Hp. destruct (16 <=? b) eqn:H16; simpl.
  2: { destruct Hp as [e ->]. by eexists. }
  rewrite Hp. simpl. destruct bs as [|b' bs]; [done|]. unfold rest.
  destruct (two_digits b) as [-> _]; [unfold is_u8 in Hb; lia|].
  specialize (IH (pre ++ [hex_digit (b / 16); hex_digit (b mod 16); ":"%char]) (i + 3)%nat Hbs).
  rewrite <-app_assoc in IH. cbn [app] in IH |- *. rewrite length_app in IH. cbn [length] in IH |- *.
  specialize (IH ltac:(lia)).
  destruct (two_digit (b' :: bs)); [by rewrite IH|]. destruct IH as [e ->]. by eexists.
Qed.

(** C40. [pton] is the inverse of [ntop] on the addresses all of whose bytes
    have two hexadecimal digits, and on no other: [ntop] prints a byte below
    16 with one digit, [pton] expects two at fixed positions, and panics. *)
Theorem ethernet_ntop_pton address :
  are_bytes address → length address = 6%nat →
  if two_digit address then pton (ntop address) = Ok address else ∃ e, pton (ntop address) = Panic e.
Proof. intros Hb Hl. rewrite pton_parse_bytes, <-Hl. by apply (parse_bytes_printed address []). Qed.

Lemma ethernet_ntop_pton_witness :
  pton (ntop [0x42; 0x10; 0xff; 0x9a; 0xa9; 0x42]) = Ok [0x42; 0x10; 0xff; 0x9a; 0xa9; 0x42] ∧
  ∃ e, pton (ntop [1; 2; 3; 4; 5; 6]) = Panic e.
Proof.
  split; [apply (ethernet_ntop_pton [0x42; 0x10; 0xff; 0x9a; 0xa9; 0x42]) | apply (ethernet_ntop_pton [1; 2; 3; 4; 5; 6])];
    by by_compute.
Defined.

(** The address of the tests: it can be read, but not what is printed of it. *)
Example mac_of_tests :
  pton (String.list_ascii_of_string "01:02:03:04:05:06") = Ok [1; 2; 3; 4; 5; 6] ∧
  ntop [1; 2; 3; 4; 5; 6] = String.list_ascii_of_string "1:2:3:4:5:6".
Proof. by split; vm_compute. Qed.
