(* ===== verification/Ipv4.v ===== *)
(** * ipv4.rs: the IPv4 header and the pseudo header of TCP and UDP *)

From S2P Require Import Prelude Bytes Lib OnesComplement Checksum BitFields Header.
#[local] Open Scope Z_scope.

(** Addresses are kept in network byte order. *)
Abbreviation Address := Z.

Record IPv4 : Type := mkIPv4 {
  f_ihl_v_tos : Z;      (* ihl:4, version:4, tos(dscp:6 + ecn:2) *)
  f_total_length : Z;
  f_id : Z;
  f_frag_off : Z;       (* flags:3, fragment_offset:13 *)
  f_ttl : Z;
  f_protocol : Z;
  f_checksum : Z;
  f_src : Address;
  f_dst : Address
}.

#[export] Instance IPv4_layout : Layout IPv4 := {|
  size_of := 20;
  decode bs := {|
    f_ihl_v_tos := le_val (slice 0 2 bs);
    f_total_length := le_val (slice 2 2 bs);
    f_id := le_val (slice 4 2 bs);
    f_frag_off := le_val (slice 6 2 bs);
    f_ttl := le_val (slice 8 1 bs);
    f_protocol := le_val (slice 9 1 bs);
    f_checksum := le_val (slice 10 2 bs);
    f_src := le_val (slice 12 4 bs);
    f_dst := le_val (slice 16 4 bs) |};
  encode h :=
    le_bytes 2 (f_ihl_v_tos h) ++ le_bytes 2 (f_total_length h) ++
    le_bytes 2 (f_id h) ++ le_bytes 2 (f_frag_off h) ++
    le_bytes 1 (f_ttl h) ++ le_bytes 1 (f_protocol h) ++
    le_bytes 2 (f_checksum h) ++ le_bytes 4 (f_src h) ++ le_bytes 4 (f_dst h);
  fields_ok h :=
    is_u16 (f_ihl_v_tos h) ∧ is_u16 (f_total_length h) ∧ is_u16 (f_id h) ∧
    is_u16 (f_frag_off h) ∧ is_u8 (f_ttl h) ∧ is_u8 (f_protocol h) ∧
    is_u16 (f_checksum h) ∧ is_u32 (f_src h) ∧ is_u32 (f_dst h)
|}.

Record PseudoHeader : Type := mkPseudoHeader {
  ph_src : Z;
  ph_dst : Z;
  ph_ulp_zero : Z;
  ph_ulp_protocol : Z;
  ph_ulp_len : Z
}.

#[export] Instance PseudoHeader_layout : Layout PseudoHeader := {|
  size_of := 12;
  decode bs := {|
    ph_src := le_val (slice 0 4 bs);
    ph_dst := le_val (slice 4 4 bs);
    ph_ulp_zero := le_val (slice 8 1 bs);
    ph_ulp_protocol := le_val (slice 9 1 bs);
    ph_ulp_len := le_val (slice 10 2 bs) |};
  encode h :=
    le_bytes 4 (ph_src h) ++ le_bytes 4 (ph_dst h) ++ le_bytes 1 (ph_ulp_zero h) ++
    le_bytes 1 (ph_ulp_protocol h) ++ le_bytes 2 (ph_ulp_len h);
  fields_ok h :=
    is_u32 (ph_src h) ∧ is_u32 (ph_dst h) ∧ is_u8 (ph_ulp_zero h) ∧
    is_u8 (ph_ulp_protocol h) ∧ is_u16 (ph_ulp_len h)
|}.

(** #[derive(Default)] *)
Definition IPv4_default : IPv4 := mkIPv4 0 0 0 0 0 0 0 0 0.

Definition set_ihl_v_tos (v : Z) (h : IPv4) : IPv4 :=
  mkIPv4 v (f_total_length h) (f_id h) (f_frag_off h) (f_ttl h)
         (f_protocol h) (f_checksum h) (f_src h) (f_dst h).

Definition version (h : IPv4) : Z := Z.land (Z.shiftr (ntohs (f_ihl_v_tos h)) 12) 0xf.
Definition set_version (version : Z) (h : IPv4) : IPv4 :=
  let v := Z.land (f_ihl_v_tos h) (htons 0x0fff) in
  let v := Z.lor v (htons (u16 (Z.shiftl (Z.land version 0xf) 12))) in
  set_ihl_v_tos v h.

Definition ihl (h : IPv4) : Z := Z.land (Z.shiftr (ntohs (f_ihl_v_tos h)) 8) 0xf.
Definition set_ihl (ihl : Z) (h : IPv4) : IPv4 :=
  let v := Z.land (f_ihl_v_tos h) (htons 0xf0ff) in
  let v := Z.lor v (htons (u16 (Z.shiftl (Z.land ihl 0xf) 8))) in
  set_ihl_v_tos v h.

Definition total_length (h : IPv4) : Z := ntohs (f_total_length h).
Definition set_total_length (total_length : Z) (h : IPv4) : IPv4 :=
  mkIPv4 (f_ihl_v_tos h) (htons total_length) (f_id h) (f_frag_off h) (f_ttl h)
         (f_protocol h) (f_checksum h) (f_src h) (f_dst h).

Definition id (h : IPv4) : Z := ntohs (f_id h).
Definition set_id (id : Z) (h : IPv4) : IPv4 :=
  mkIPv4 (f_ihl_v_tos h) (f_total_length h) (htons id) (f_frag_off h) (f_ttl h)
         (f_protocol h) (f_checksum h) (f_src h) (f_dst h).

Definition flags (h : IPv4) : Z := Z.land (Z.shiftr (ntohs (f_frag_off h)) 13) 0x7.
Definition set_flags (flags : Z) (h : IPv4) : IPv4 :=
  let v := Z.land (f_frag_off h) (htons 0x1fff) in
  let v := Z.lor v (htons (u16 (Z.shiftl (Z.land flags 0x7) 13))) in
  mkIPv4 (f_ihl_v_tos h) (f_total_length h) (f_id h) v (f_ttl h)
         (f_protocol h) (f_checksum h) (f_src h) (f_dst h).

Definition ttl (h : IPv4) : Z := f_ttl h.
Definition set_ttl (ttl : Z) (h : IPv4) : IPv4 :=
  mkIPv4 (f_ihl_v_tos h) (f_total_length h) (f_id h) (f_frag_off h) ttl
         (f_protocol h) (f_checksum h) (f_src h) (f_dst h).

Definition protocol (h : IPv4) : Z := f_protocol h.
Definition set_protocol (protocol : Z) (h : IPv4) : IPv4 :=
  mkIPv4 (f_ihl_v_tos h) (f_total_length h) (f_id h) (f_frag_off h) (f_ttl h)
         protocol (f_checksum h) (f_src h) (f_dst h).

Definition checksum (h : IPv4) : Z := f_checksum h.
Definition set_checksum (checksum : Z) (h : IPv4) : IPv4 :=
  mkIPv4 (f_ihl_v_tos h) (f_total_length h) (f_id h) (f_frag_off h) (f_ttl h)
         (f_protocol h) checksum (f_src h) (f_dst h).

Definition src (h : IPv4) : Address := f_src h.
Definition set_src (address : Address) (h : IPv4) : IPv4 :=
  mkIPv4 (f_ihl_v_tos h) (f_total_length h) (f_id h) (f_frag_off h) (f_ttl h)
         (f_protocol h) (f_checksum h) address (f_dst h).

Definition dst (h : IPv4) : Address := f_dst h.
Definition set_dst (address : Address) (h : IPv4) : IPv4 :=
  mkIPv4 (f_ihl_v_tos h) (f_total_length h) (f_id h) (f_frag_off h) (f_ttl h)
         (f_protocol h) (f_checksum h) (f_src h) address.

Definition swap (h : IPv4) : IPv4 :=
  let src := f_src h in
  let h := set_src (f_dst h) h in
  set_dst src h.

Definition checksum_compute `{Target} (h : IPv4) : outcome IPv4 :=
  let h := set_checksum 0 h in
  sum ← ipsum (encode h) (Z.of_nat (size_of IPv4)) 0;
  Ok (set_checksum (htons sum) h).

Definition checksum_ok `{Target} (h : IPv4) : outcome bool :=
  sum ← ipsum (encode h) (Z.of_nat (size_of IPv4)) 0;
  Ok (0 =? sum).

Definition pseudo_checksum `{Target} (protocol len : Z) (h : IPv4) : outcome Z :=
  let ph := {| ph_src := src h; ph_dst := dst h; ph_ulp_zero := 0;
               ph_ulp_protocol := protocol; ph_ulp_len := htons len |} in
  ipsum (encode ph) (Z.of_nat (size_of PseudoHeader)) 0.

(** [IPv4::new()] *)
Definition new : IPv4 :=
  let h := IPv4_default in
  let h := set_version 4 h in
  let h := set_ihl (Z.of_nat (size_of IPv4) / 4) h in
  set_total_length (Z.of_nat (size_of IPv4)) h.

Definition PROTOCOL_TCP : Z := 6.
Definition PROTOCOL_UDP : Z := 17.

#[export] Instance IPv4_laws : LayoutLaws IPv4.
Proof.
  split; [done|solve_encode_are_bytes|solve_decode_encode|solve_encode_decode|solve_decode_ok].
Qed.

#[export] Instance PseudoHeader_laws : LayoutLaws PseudoHeader.
Proof.
  split; [done|solve_encode_are_bytes|solve_decode_encode|solve_encode_decode|solve_decode_ok].
Qed.

(** ** Accessors *)

Lemma version_field h : version h = field 12 4 (ntohs (f_ihl_v_tos h)).
Proof. done. Qed.
Lemma ihl_field h : ihl h = field 8 4 (ntohs (f_ihl_v_tos h)).
Proof. done. Qed.
Lemma flags_field h : flags h = field 13 3 (ntohs (f_frag_off h)).
Proof. done. Qed.

Lemma set_version_field v h :
  fields_ok h →
  ntohs (f_ihl_v_tos (set_version v h)) = set_field 0x0fff 12 4 v (ntohs (f_ihl_v_tos h)) ∧
  is_u16 (f_ihl_v_tos (set_version v h)).
Proof. intros (?&_). by apply (set_field_swapped 0x0fff 12 4). Qed.

Lemma set_ihl_field v h :
  fields_ok h →
  ntohs (f_ihl_v_tos (set_ihl v h)) = set_field 0xf0ff 8 4 v (ntohs (f_ihl_v_tos h)) ∧
  is_u16 (f_ihl_v_tos (set_ihl v h)).
Proof. intros (?&_). by apply (set_field_swapped 0xf0ff 8 4). Qed.

Lemma set_flags_field v h :
  fields_ok h →
  ntohs (f_frag_off (set_flags v h)) = set_field 0x1fff 13 3 v (ntohs (f_frag_off h)) ∧
  is_u16 (f_frag_off (set_flags v h)).
Proof. intros (?&?&?&?&_). by apply (set_field_swapped 0x1fff 13 3). Qed.

(** The bits that have no accessors: the type of service and the fragment offset. *)
Definition tos_bits (h : IPv4) : Z := ntohs (f_ihl_v_tos h) mod 2 ^ 8.
Definition offset_bits (h : IPv4) : Z := ntohs (f_frag_off h) mod 2 ^ 13.

Lemma field_low n w : 0 ≤ n → w mod 2 ^ n = field 0 n w.
Proof. intros. unfold field. by rewrite Z.shiftr_0_r, Z.land_ones. Qed.

(** C32. Every setter of the IPv4 header is read back by its getter (version,
    IHL and flags modulo their width), and the three bit fields leave the bits
    of their neighbours alone (version, IHL and type of service; flags and
    fragment offset); all setters keep the struct well formed. *)
Theorem ipv4_set_get (h : IPv4) v16 v8 v32 v :
  fields_ok h → is_u16 v16 → is_u8 v8 → is_u32 v32 →
  (version (set_version v h) = v mod 16 ∧ ihl (set_version v h) = ihl h ∧
   tos_bits (set_version v h) = tos_bits h ∧ fields_ok (set_version v h)) ∧
  (ihl (set_ihl v h) = v mod 16 ∧ version (set_ihl v h) = version h ∧
   tos_bits (set_ihl v h) = tos_bits h ∧ fields_ok (set_ihl v h)) ∧
  (flags (set_flags v h) = v mod 8 ∧ offset_bits (set_flags v h) = offset_bits h ∧ fields_ok (set_flags v h)) ∧
  (total_length (set_total_length v16 h) = v16 ∧ fields_ok (set_total_length v16 h)) ∧
  (id (set_id v16 h) = v16 ∧ fields_ok (set_id v16 h)) ∧
  (ttl (set_ttl v8 h) = v8 ∧ fields_ok (set_ttl v8 h)) ∧
  (protocol (set_protocol v8 h) = v8 ∧ fields_ok (set_protocol v8 h)) ∧
  (checksum (set_checksum v16 h) = v16 ∧ fields_ok (set_checksum v16 h)) ∧
  (src (set_src v32 h) = v32 ∧ dst (set_dst v32 h) = v32 ∧
   src (swap h) = dst h ∧ dst (swap h) = src h ∧ fields_ok (swap h)).
Proof.
  intros Hok H16 H8 H32. pose proof Hok as (?&?&?&?&?&?&?&?&?).
  destruct (set_version_field v h Hok) as [Ev ?].
  destruct (set_ihl_field v h Hok) as [Ei ?].
  destruct (set_flags_field v h Hok) as [Ef ?].
  unfold tos_bits, offset_bits. rewrite !field_low by done.
  rewrite !version_field, !ihl_field, !flags_field, Ev, Ei, Ef.
  rewrite !field_set_field by done. rewrite !field_set_field_ne by (done || lia).
  rewrite !Z.land_ones by done.
  unfold total_length, id; simpl. rewrite !ntohs_htons by done.
  split_and!; (done || apply htons_range).
Qed.

Lemma ipv4_set_get_witness :
  let h := mkIPv4 0x0045 0 0x1234 0x40 64 6 0 0x0100007f 0x0200007f in
  version (set_version 6 h) = 6 mod 16.
Proof. intros h. apply (ipv4_set_get h 1500 17 5 6); by_compute. Defined.

(** ** Checksum *)

Lemma ipv4_word_sum c h :
  is_u16 c → word_sum (encode (set_checksum c h)) = word_sum (encode (set_checksum 0 h)) + c.
Proof.
  intros. apply (word_sum_field
    (le_bytes 2 (f_ihl_v_tos h) ++ le_bytes 2 (f_total_length h) ++ le_bytes 2 (f_id h) ++
     le_bytes 2 (f_frag_off h) ++ le_bytes 1 (f_ttl h) ++ le_bytes 1 (f_protocol h)) c
    (le_bytes 4 (f_src h) ++ le_bytes 4 (f_dst h))); [by exists 5%nat|done].
Qed.

Lemma ipv4_ipsum `{Target} (h : IPv4) :
  fields_ok h →
  ipsum (encode h) (Z.of_nat (size_of IPv4)) 0
  = Ok (ntohs (65535 - ones (word_sum (encode h)))).
Proof.
  intros Hok. rewrite <-(length_encode (T:=IPv4) h) by done.
  rewrite ipsum_whole by (done || by apply encode_are_bytes). done.
Qed.

(** The checksum of the header. *)
Lemma ipv4_checksum_compute_spec `{Target} (h : IPv4) :
  fields_ok h →
  ∃ c, checksum_compute h = Ok (set_checksum c h) ∧ is_u16 c ∧
       checksum_ok (set_checksum c h) = Ok true.
Proof.
  intros Hok. pose proof Hok as (?&?&?&?&?&?&?&?&?).
  assert (∀ c, is_u16 c → fields_ok (set_checksum c h)) as Hset by (intros; by split_and!).
  unfold checksum_compute, checksum_ok. rewrite ipv4_ipsum by by apply Hset.
  cbn [mbind outcome_bind]. eexists. split; [done|].
  set (s := word_sum (encode (set_checksum 0 h))).
  assert (0 ≤ s) as Hs by (apply word_sum_nonneg, encode_are_bytes; by apply Hset).
  destruct (checksum_field_value s Hs) as [Hc Ho]. split; [done|].
  rewrite ipv4_ipsum by by apply Hset. rewrite ipv4_word_sum by done. fold s.
  rewrite Ho. done.
Qed.

(** C30. After [checksum_compute] the header verifies ([checksum_ok]); nothing
    but the checksum field has changed, whatever it held before. *)
Theorem ipv4_checksum_compute_ok `{Target} (h : IPv4) :
  fields_ok h →
  ∃ c, checksum_compute h = Ok (set_checksum c h) ∧ is_u16 c ∧
       checksum_ok (set_checksum c h) = Ok true.
Proof. apply ipv4_checksum_compute_spec. Qed.

Lemma ipv4_checksum_compute_ok_witness :
  let h := mkIPv4 0x0045 0x3400 0x1a59 0x40 64 6 0xabcd 0xa914a8c0 0xb4f0156b in
  ∃ c, @checksum_compute x86_64 h = Ok (set_checksum c h) ∧ is_u16 c ∧
       @checksum_ok x86_64 (set_checksum c h) = Ok true.
Proof. intros h. apply (@ipv4_checksum_compute_ok x86_64 h). by_compute. Defined.

(** ** Addresses as text *)

Definition decimal_digit (d : Z) : ascii := ascii_of_N (Z.to_N (48 + d)).

Definition octet_digits (b : Z) : list Z :=
  if b <? 10 then [b] else if b <? 100 then [b / 10; b mod 10] else [b / 100; b / 10 mod 10; b mod 10].

(** An octet, as [Display] of Ipv4Addr prints it. *)
Definition format_octet (b : Z) : list ascii := decimal_digit <$> octet_digits b.

(** [Ipv4Addr::from(u32)]: the octets, the most significant one first. *)
Definition octets (a : Z) : bytes := [a / 2 ^ 24 mod 256; a / 2 ^ 16 mod 256; a / 2 ^ 8 mod 256; a mod 256].

Definition ntop (address : Address) : list ascii :=
  match format_octet <$> octets (ntohl address) with
  | [a; b; c; d] => a ++ "."%char :: b ++ "."%char :: c ++ "."%char :: d
  | _ => []
  end.

Definition digit (c : ascii) : option Z :=
  let n := Z.of_N (N_of_ascii c) in
  if (48 <=? n) && (n <=? 57) then Some (n - 48) else None.

(** The digits at the front, and what follows. *)
Fixpoint digits (s : list ascii) : list Z * list ascii :=
  match s with
  | c :: s' => match digit c with Some d => let '(ds, rest) := digits s' in (d :: ds, rest) | None => ([], s) end
  | [] => ([], [])
  end.

(** One octet: one to three digits, without a leading zero, below 256. *)
Definition octet_value (ds : list Z) : option Z :=
  let n := foldl (λ n d, n * 10 + d) 0 ds in
  match ds with
  | [_] => Some n
  | [d; _] | [d; _; _] => if (d =? 0) || (256 <=? n) then None else Some n
  | _ => None
  end.

Definition read_octet (s : list ascii) : option (Z * list ascii) :=
  let '(ds, rest) := digits s in
  n ← octet_value ds; Some (n, rest).

Definition read_dot (s : list ascii) : option (list ascii) :=
  match s with
  | c :: s => if decide (c = "."%char) then Some s else None
  | [] => None
  end.

(** [Ipv4Addr::from_str]: four octets with dots between them, and nothing else. *)
Definition from_str (s : list ascii) : option Z :=
  '(a, s) ← read_octet s; s ← read_dot s;
  '(b, s) ← read_octet s; s ← read_dot s;
  '(c, s) ← read_octet s; s ← read_dot s;
  '(d, s) ← read_octet s;
  match s with [] => Some (a * 2 ^ 24 + b * 2 ^ 16 + c * 2 ^ 8 + d) | _ => None end.

Definition pton (string : list ascii) : outcome Address :=
  a ← unwrap "called `Result::unwrap()` on an `Err` value" (from_str string);
  Ok (htonl a).

Lemma digits_app ds rest :
  Forall (λ d, 0 ≤ d < 10) ds → digits rest = ([], rest) → digits ((decimal_digit <$> ds) ++ rest) = (ds, rest).
Proof.
  intros Hds Hr. induction Hds as [|d ds Hd _ IH]; [done|].
  rewrite fmap_cons, <-app_comm_cons. cbn [digits]. rewrite IH.
  assert (digit (decimal_digit d) = Some d) as ->; [|done]. 
  assert (Forall (λ d, digit (decimal_digit d) = Some d) (seqZ 0 10)) as Ha by by_compute.
  rewrite Forall_forall in Ha. apply Ha, elem_of_seqZ. lia.
Qed.

(** The octet is read back, whatever follows it but a digit. *)
Lemma read_format_octet b rest :
  is_u8 b → digits rest = ([], rest) → read_octet (format_octet b ++ rest) = Some (b, rest).
Proof.
  intros Hb Hr.
  assert (Forall (λ b, Forall (λ d, 0 ≤ d < 10) (octet_digits b) ∧ octet_value (octet_digits b) = Some b) (seqZ 0 256))
    as Ha by by_compute.
  rewrite Forall_forall in Ha. destruct (Ha b) as [Hd Hv]; [by apply elem_of_seqZ|].
  unfold read_octet, format_octet. rewrite digits_app by done. simpl. by rewrite Hv.
Qed.

(** An address is read back as it was written. *)
Theorem ipv4_ntop_pton address : is_u32 address → pton (ntop address) = Ok address.
Proof.
  intros Ha. unfold pton, ntop, octets. simpl. pose proof (ntohl_range address) as Hn.
  assert (∀ n, is_u8 (n mod 256)) as H8 by (intros n; apply u8_range).
  unfold from_str. rewrite read_format_octet by done. simpl.
  rewrite read_format_octet by done. simpl.
  rewrite read_format_octet by done. simpl.
  rewrite <-(app_nil_r (format_octet (ntohl address mod 256))), read_format_octet by done. simpl.
  replace (_ + _ + _ + ntohl address mod 256) with (ntohl address); [by rewrite htonl_ntohl|].
  revert Hn. generalize (ntohl address). intros n Hn. word.
Qed.

(** The addresses of the tests. *)
Example ipv4_pton_local : pton (String.list_ascii_of_string "127.4.5.6") = Ok 0x0605047f.
Proof. by vm_compute. Qed.
Example ipv4_pton_octal : pton (String.list_ascii_of_string "127.04.5.6") = Panic "called `Result::unwrap()` on an `Err` value".
Proof. by vm_compute. Qed.
