(* ===== verification/Packet.v ===== *)
(** * packet.rs: packets and the global freelist

    Packets live in a heap; a [Box<Packet>] is a location of that heap.  The
    mutable statics of packet.rs (freelist, allocation counters) and the global
    statistics of engine.rs that [free] updates are the record [pstate].

    The freelist promises to be a stack of packets nobody else refers to
    ([Inv]): [Inv owned s] says that the packets of the heap are exactly those
    on the freelist and those in [owned], each once. *)

From S2P Require Import Prelude Bytes Lib.
#[local] Open Scope Z_scope.

Definition PAYLOAD_SIZE : nat := Z.to_nat 65535.
#[global] Opaque PAYLOAD_SIZE.

Record Packet : Type := mkPacket {
  p_length : Z;
  p_data : bytes
}.

(** Address of a packet. *)
Abbreviation loc := positive.

Definition MAX_PACKETS : Z := 1000000.

(** [list: [*mut Packet; MAX_PACKETS]], an absent index being a null pointer. *)
Record Freelist : Type := mkFreelist {
  fl_list : gmap Z loc;
  nfree : Z
}.

(** engine.rs: counters for global engine statistics. *)
Record EngineStats : Type := mkEngineStats {
  breaths : Z;
  frees : Z;
  freebits : Z;
  freebytes : Z
}.

Record pstate : Type := mkPState {
  heap : gmap loc Packet;
  next_loc : loc;               (* the process allocator: next fresh address *)
  FL : Freelist;
  PACKETS_ALLOCATED : Z;
  PACKET_ALLOCATION_STEP : Z;
  STATS : EngineStats
}.

Definition init_stats : EngineStats := mkEngineStats 0 0 0 0.
Definition init_pstate : pstate :=
  mkPState ∅ 1 (mkFreelist ∅ 0) 0 1000 init_stats.

Definition set_heap (h : gmap loc Packet) (s : pstate) : pstate :=
  mkPState h (next_loc s) (FL s) (PACKETS_ALLOCATED s) (PACKET_ALLOCATION_STEP s) (STATS s).
Definition set_FL (fl : Freelist) (s : pstate) : pstate :=
  mkPState (heap s) (next_loc s) fl (PACKETS_ALLOCATED s) (PACKET_ALLOCATION_STEP s) (STATS s).
Definition set_STATS (st : EngineStats) (s : pstate) : pstate :=
  mkPState (heap s) (next_loc s) (FL s) (PACKETS_ALLOCATED s) (PACKET_ALLOCATION_STEP s) st.

(** Read and write the packet behind a box. *)
Definition deref (p : loc) : ST pstate Packet := λ s,
  match heap s !! p with
  | Some pk => Ok (pk, s)
  | None => UB "dangling packet pointer"
  end.
Definition write (p : loc) (pk : Packet) : ST pstate () :=
  _ ← deref p; modify (λ s, set_heap (<[p := pk]> (heap s)) s).

(** engine.rs: add_frees, add_freebytes, add_freebits. *)
Definition add_frees : ST pstate () := modify (λ s,
  let st := STATS s in
  set_STATS (mkEngineStats (breaths st) (u64 (frees st + 1)) (freebits st) (freebytes st)) s).
Definition add_freebytes (bytes : Z) : ST pstate () := modify (λ s,
  let st := STATS s in
  set_STATS (mkEngineStats (breaths st) (frees st) (freebits st) (u64 (freebytes st + bytes))) s).
Definition add_freebits (bits : Z) : ST pstate () := modify (λ s,
  let st := STATS s in
  set_STATS (mkEngineStats (breaths st) (frees st) (u64 (freebits st + bits)) (freebytes st)) s).

(** Bits on the wire, with the overhead of 10GbE. *)
Definition bitlength (p : Packet) : Z := (12 + 8 + Z.max (p_length p) 60 + 4) * 8.

(** [[0; PAYLOAD_SIZE]] *)
Definition zeros : bytes := replicate PAYLOAD_SIZE 0.

(** Box::new of an all-zero packet. *)
Definition new_packet_noroot : ST pstate loc := λ s,
  let p := next_loc s in
  Ok (p, mkPState (<[p := mkPacket 0 zeros]> (heap s)) (Pos.succ p)
                  (FL s) (PACKETS_ALLOCATED s) (PACKET_ALLOCATION_STEP s) (STATS s)).

(** [FL.list[i]], checked against the size of the array. *)
Definition fl_index (i : Z) : ST pstate () := λ s,
  if (0 <=? i) && (i <? MAX_PACKETS) then Ok (tt, s) else Panic "index out of bounds".

Definition free_internal (p : loc) : ST pstate () :=
  s ← get;
  if nfree (FL s) =? MAX_PACKETS then panic "Packet freelist overflow"
  else
    pk ← deref p;
    write p (mkPacket 0 (p_data pk));;
    fl_index (nfree (FL s));;
    modify (λ s, set_FL (mkFreelist (<[nfree (FL s) := p]> (fl_list (FL s))) (nfree (FL s))) s);;
    modify (λ s, set_FL (mkFreelist (fl_list (FL s)) (nfree (FL s) + 1)) s).

(** [match 1 { 0 => new_packet, _ => new_packet_noroot }]: always the latter. *)
Definition preallocate_step : ST pstate () :=
  s ← get;
  lift (assert "Packet allocation overflow"
          (PACKETS_ALLOCATED s + PACKET_ALLOCATION_STEP s <=? MAX_PACKETS));;
  repeat_st (Z.to_nat (PACKET_ALLOCATION_STEP s)) (p ← new_packet_noroot; free_internal p);;
  modify (λ s, mkPState (heap s) (next_loc s) (FL s)
    (PACKETS_ALLOCATED s + PACKET_ALLOCATION_STEP s) (PACKET_ALLOCATION_STEP s) (STATS s));;
  modify (λ s, mkPState (heap s) (next_loc s) (FL s)
    (PACKETS_ALLOCATED s) (PACKET_ALLOCATION_STEP s * 2) (STATS s)).

(** while PACKETS_ALLOCATED < n *)
Fixpoint preallocate_loop (fuel : nat) (n : Z) : ST pstate () :=
  s ← get;
  if PACKETS_ALLOCATED s <? n then
    match fuel with
    | O => no_fuel
    | S fuel => preallocate_step;; preallocate_loop fuel n
    end
  else mret tt.

(** Ten steps reach MAX_PACKETS or panic. *)
Definition preallocate (n : Z) : ST pstate () := preallocate_loop 10 n.

Definition allocate : ST pstate loc :=
  s ← get;
  (if nfree (FL s) =? 0 then preallocate_step else mret tt);;
  modify (λ s, set_FL (mkFreelist (fl_list (FL s)) (u64 (nfree (FL s) - 1))) s);;
  s ← get;
  fl_index (nfree (FL s));;
  match fl_list (FL s) !! nfree (FL s) with
  | Some p => mret p
  | None => undefined "Box::from_raw of a null pointer"
  end.

Definition free (p : loc) : ST pstate () :=
  add_frees;;
  pk ← deref p;
  add_freebytes (p_length pk);;
  add_freebits (bitlength pk);;
  free_internal p.

Definition clone (p : loc) : ST pstate loc :=
  c ← allocate;
  pk ← deref p;
  cpk ← deref c;
  write c (mkPacket (p_length cpk) (copy (p_data cpk) (p_data pk) (Z.to_nat (p_length pk))));;
  cpk ← deref c;
  write c (mkPacket (p_length pk) (p_data cpk));;
  mret c.

(** ** The specification of the freelist: a stack of packets of length 0 *)

Definition wf_packet (pk : Packet) : Prop :=
  is_u16 (p_length pk) ∧ length (p_data pk) = PAYLOAD_SIZE ∧ are_bytes (p_data pk).

(** The array and the fill counter hold the stack [l] (its top is last). *)
Definition fl_rep (fl : Freelist) (l : list loc) : Prop :=
  nfree fl = Z.of_nat (length l) ∧
  ∀ i p, l !! i = Some p → fl_list fl !! Z.of_nat i = Some p.

Definition empty_packet (s : pstate) (p : loc) : Prop :=
  ∃ pk, heap s !! p = Some pk ∧ p_length pk = 0.

(** Every packet of the heap is on the freelist or one of [owned], once. *)
Record heap_inv (owned : list loc) (s : pstate) : Prop := {
  hi_stack : ∃ l, fl_rep (FL s) l ∧ l ++ owned ≡ₚ elements (dom (heap s)) ∧
                  Forall (empty_packet s) l;
  hi_packets : map_Forall (λ _, wf_packet) (heap s);
  hi_fresh : ∀ p, p ∈ dom (heap s) → (p < next_loc s)%positive;
  hi_max : Z.of_nat (size (heap s)) ≤ MAX_PACKETS;
}.

(** The allocation counters: after [k] steps, 1000 * (2^k - 1) packets exist. *)
Definition steps_done (k : Z) (s : pstate) : Prop :=
  0 ≤ k ∧ PACKETS_ALLOCATED s = 1000 * (2 ^ k - 1) ∧ PACKET_ALLOCATION_STEP s = 1000 * 2 ^ k.

Record Inv (owned : list loc) (s : pstate) : Prop := {
  inv_heap : heap_inv owned s;
  inv_count : Z.of_nat (size (heap s)) = PACKETS_ALLOCATED s;
  inv_steps : ∃ k, steps_done k s;
}.

#[export] Instance heap_inv_proper : Proper ((≡ₚ) ==> eq ==> iff) heap_inv.
Proof.
  assert (∀ o o' s, o ≡ₚ o' → heap_inv o s → heap_inv o' s) as H.
  { intros o o' s Ho [(l & ? & Hp & ?) ???]. split; [|done..].
    exists l. split_and!; [done| |done]. by rewrite <-Ho. }
  intros o o' Ho s ? <-. split; apply H; [done|by symmetry].
Qed.

#[export] Instance Inv_proper : Proper ((≡ₚ) ==> eq ==> iff) Inv.
Proof.
  intros o o' Ho s ? <-. split; intros [Hh ??]; split; try done; [by rewrite <-Ho|by rewrite Ho].
Qed.

Section heap_inv.
Context (owned : list loc) (s : pstate) (Hinv : heap_inv owned s).

Lemma heap_inv_nodup : NoDup owned.
Proof.
  destruct Hinv as [(l & _ & Hp & _) _ _ _].
  pose proof (NoDup_elements (dom (heap s))) as Hn. rewrite <-Hp in Hn.
  by apply NoDup_app in Hn as (_ & _ & ?).
Qed.

Lemma heap_inv_owned p : p ∈ owned → is_Some (heap s !! p).
Proof.
  destruct Hinv as [(l & _ & Hp & _) _ _ _]. intros Hin.
  apply elem_of_dom, elem_of_elements. rewrite <-Hp. set_solver.
Qed.

Lemma heap_inv_lookup p pk : heap s !! p = Some pk → wf_packet pk.
Proof. destruct Hinv as [_ Hf _ _]. apply Hf. Qed.
End heap_inv.

Lemma size_heap_elements (s : pstate) : size (heap s) = length (elements (dom (heap s))).
Proof. rewrite <-size_dom. done. Qed.

(** Updating a packet in place keeps the addresses. *)
Lemma dom_update (h : gmap loc Packet) p pk pk' :
  h !! p = Some pk → dom (<[p:=pk']> h) = dom h.
Proof.
  intros Hp. rewrite dom_insert_L. apply subseteq_union_1_L, singleton_subseteq_l, elem_of_dom. by eexists.
Qed.

Lemma size_update (h : gmap loc Packet) p pk pk' :
  h !! p = Some pk → size (<[p:=pk']> h) = size h.
Proof. intros Hp. by rewrite <-!size_dom, (dom_update _ _ _ _ Hp). Qed.

(** Writing a packet that is in use. *)
Lemma heap_inv_write owned s p pk pk' :
  heap_inv owned s → p ∈ owned → heap s !! p = Some pk → wf_packet pk' →
  heap_inv owned (set_heap (<[p:=pk']> (heap s)) s).
Proof.
  intros [(l & Hr & Hp & Hl) Hpk Hf Hm] Hin Hlk Hwf.
  split; simpl; rewrite ?(dom_update _ _ _ _ Hlk), ?(size_update _ _ _ _ Hlk); [|by apply map_Forall_insert_2|done..].
  exists l. split_and!; [done|done|].
  apply Forall_forall. intros q Hq. rewrite Forall_forall in Hl. destruct (Hl q Hq) as (qk & ? & ?).
  exists qk. split; [|done]. simpl. rewrite lookup_insert_ne; [done|]. intros ->.
  pose proof (NoDup_elements (dom (heap s))) as Hn. rewrite <-Hp in Hn.
  apply NoDup_app in Hn as (_ & Hd & _). by apply (Hd q).
Qed.

Lemma deref_ok E (p : loc) pk Q s :
  heap s !! p = Some pk → Q pk s → wpx E (deref p) Q s.
Proof. intros H HQ. unfold wpx, deref. by rewrite H. Qed.

Lemma write_ok E (p : loc) pk pk' Q s :
  heap s !! p = Some pk → Q tt (set_heap (<[p:=pk']> (heap s)) s) → wpx E (write p pk') Q s.
Proof.
  intros H HQ. unfold write. apply wpx_bind. eapply deref_ok; [done|]. by apply wpx_modify.
Qed.

(** The state after [free_internal p]. *)
Definition push_free (p : loc) (pk : Packet) (s : pstate) : pstate :=
  let fl := FL s in
  set_FL (mkFreelist (<[nfree fl := p]> (fl_list fl)) (nfree fl + 1))
    (set_heap (<[p := mkPacket 0 (p_data pk)]> (heap s)) s).

(** There is room on the freelist for a packet in use. *)
Lemma heap_inv_room owned s p :
  heap_inv (p :: owned) s → 0 ≤ nfree (FL s) < MAX_PACKETS.
Proof.
  intros [(l & [Hn _] & Hp & _) _ _ Hm]. apply Permutation_length in Hp.
  rewrite length_app in Hp. simpl in Hp. rewrite size_heap_elements, <-Hp in Hm. lia.
Qed.

Lemma free_internal_eq owned s p pk :
  heap_inv (p :: owned) s → heap s !! p = Some pk →
  free_internal p s = Ok (tt, push_free p pk s).
Proof.
  intros Hinv Hp. pose proof (heap_inv_room _ _ _ Hinv) as Hr.
  unfold free_internal, write, deref, fl_index, mbind, st_bind, get, modify, set_heap, set_FL.
  destruct (Z.eqb_spec (nfree (FL s)) MAX_PACKETS); [lia|].
  rewrite Hp. simpl. rewrite Hp. simpl.
  rewrite (proj2 (Z.leb_le _ _)), (proj2 (Z.ltb_lt _ _)) by lia. done.
Qed.

Lemma heap_inv_free owned s p pk :
  heap_inv (p :: owned) s → heap s !! p = Some pk → heap_inv owned (push_free p pk s).
Proof.
  intros Hinv Hlk. pose proof (heap_inv_lookup _ _ Hinv _ _ Hlk) as (Hu & Hlen & Hb).
  destruct Hinv as [(l & [Hn Hr] & Hp & Hl) Hpk Hf Hm].
  split; simpl; rewrite ?(dom_update _ _ _ _ Hlk), ?(size_update _ _ _ _ Hlk);
    [|by apply map_Forall_insert_2|done..].
  exists (l ++ [p]). split_and!.
  - split; simpl; [rewrite length_app, Hn; simpl; lia|].
    intros i q Hi. apply lookup_app_Some in Hi as [Hi|[Hge Hi]].
    + rewrite lookup_insert_ne by (apply lookup_lt_Some in Hi; lia). by apply Hr.
    + apply list_lookup_singleton_Some in Hi as [Hi ->].
      rewrite Hn. replace i with (length l) by lia. apply lookup_insert_eq.
  - rewrite <-Hp, <-app_assoc. done.
  - apply Forall_app_2.
    + apply Forall_forall. intros q Hq. rewrite Forall_forall in Hl. destruct (Hl q Hq) as (qk & ? & ?).
      exists qk. split; [|done]. simpl. rewrite lookup_insert_ne; [done|]. intros ->.
      pose proof (NoDup_elements (dom (heap s))) as Hnd. rewrite <-Hp in Hnd.
      apply NoDup_app in Hnd as (_ & Hd & _). apply (Hd q); set_solver.
    + apply Forall_cons. split; [|done]. eexists. split; [apply lookup_insert_eq|done].
Qed.

Lemma free_internal_spec E owned s p pk Q :
  heap_inv (p :: owned) s → heap s !! p = Some pk →
  (heap_inv owned (push_free p pk s) → Q tt (push_free p pk s)) →
  wpx E (free_internal p) Q s.
Proof.
  intros Hinv Hp HQ. unfold wpx. rewrite (free_internal_eq _ _ _ _ Hinv Hp).
  apply HQ. by eapply heap_inv_free.
Qed.

(** ** Allocation *)

(** The state after [new_packet_noroot]. *)
Definition with_new (s : pstate) : pstate :=
  mkPState (<[next_loc s := mkPacket 0 zeros]> (heap s)) (Pos.succ (next_loc s))
           (FL s) (PACKETS_ALLOCATED s) (PACKET_ALLOCATION_STEP s) (STATS s).

Lemma fresh_not_in_heap owned s : heap_inv owned s → heap s !! next_loc s = None.
Proof.
  intros [_ _ Hf _]. apply not_elem_of_dom. intros Hin. apply Hf in Hin. lia.
Qed.

Lemma zeros_wf : wf_packet (mkPacket 0 zeros).
Proof.
  split_and!; simpl; [word|apply length_replicate|].
  apply Forall_replicate. word.
Qed.

Lemma heap_inv_new owned s :
  heap_inv owned s → Z.of_nat (size (heap s)) < MAX_PACKETS →
  heap_inv (next_loc s :: owned) (with_new s).
Proof.
  intros Hinv Hsz. pose proof (fresh_not_in_heap _ _ Hinv) as Hn.
  destruct Hinv as [(l & Hr & Hp & Hl) Hpk Hf Hm]. split; simpl.
  - exists l. split_and!; [done| |].
    + assert (next_loc s ∉ dom (heap s)) as Hd by (by apply not_elem_of_dom).
      rewrite dom_insert_L, elements_union_singleton by done.
      rewrite <-Hp. symmetry. apply Permutation_middle.
    + apply Forall_forall. intros q Hq. rewrite Forall_forall in Hl.
      destruct (Hl q Hq) as (pk & Hlk & ?). exists pk. split; [|done]. simpl.
      rewrite lookup_insert_ne; [done|]. congruence.
  - apply map_Forall_insert_2; [apply zeros_wf|done].
  - intros p. rewrite dom_insert_L, elem_of_union, elem_of_singleton. intros [->|Hin]; [lia|].
    apply Hf in Hin. lia.
  - rewrite map_size_insert_None by done. lia.
Qed.

(** What fresh packets do to the rest of the state: nothing. *)
Record grows (n : Z) (s s' : pstate) : Prop := {
  gr_heap : heap s ⊆ heap s';
  gr_size : Z.of_nat (size (heap s')) = Z.of_nat (size (heap s)) + n;
  gr_nfree : nfree (FL s') = nfree (FL s) + n;
  gr_stats : STATS s' = STATS s;
}.

Definition same_counters (s s' : pstate) : Prop :=
  PACKETS_ALLOCATED s' = PACKETS_ALLOCATED s ∧ PACKET_ALLOCATION_STEP s' = PACKET_ALLOCATION_STEP s.

Lemma new_then_free_spec owned s :
  heap_inv owned s → Z.of_nat (size (heap s)) < MAX_PACKETS →
  wp (p ← new_packet_noroot; free_internal p)
     (λ _ s', heap_inv owned s' ∧ grows 1 s s' ∧ same_counters s s') s.
Proof.
  intros Hinv Hsz. pose proof (fresh_not_in_heap _ _ Hinv) as Hn.
  apply wpx_bind. change (wp (free_internal (next_loc s))
    (λ _ s', heap_inv owned s' ∧ grows 1 s s' ∧ same_counters s s') (with_new s)).
  eapply free_internal_spec; [by apply heap_inv_new|apply lookup_insert_eq|].
  intros Hinv'. split_and!; [done| |done]. split; simpl; [| |done|done].
  - rewrite insert_insert_eq. by apply insert_subseteq.
  - rewrite insert_insert_eq, map_size_insert_None by done. lia.
Qed.

Lemma grows_trans n m s1 s2 s3 : grows n s1 s2 → grows m s2 s3 → grows (n + m) s1 s3.
Proof.
  intros [] []. split; [by etrans|lia|lia|congruence].
Qed.

Lemma grows_refl s : grows 0 s s.
Proof. split; [done|lia|lia|done]. Qed.

Lemma same_counters_trans s1 s2 s3 :
  same_counters s1 s2 → same_counters s2 s3 → same_counters s1 s3.
Proof. intros [] []. split; congruence. Qed.

(** The loop of [preallocate_step]. *)
Lemma fill_freelist_spec owned s n :
  heap_inv owned s → Z.of_nat (size (heap s)) + Z.of_nat n ≤ MAX_PACKETS →
  wp (repeat_st n (p ← new_packet_noroot; free_internal p))
     (λ _ s', heap_inv owned s' ∧ grows (Z.of_nat n) s s' ∧ same_counters s s') s.
Proof.
  intros Hinv Hsz.
  apply (repeat_st_inv no_panic _ (λ i s', heap_inv owned s' ∧ grows (Z.of_nat i) s s' ∧ same_counters s s')).
  - split_and!; [done|apply grows_refl|done].
  - intros i s' Hi (Hinv' & Hg & Hc).
    eapply wpx_mono; [apply (new_then_free_spec owned); [done|destruct Hg; lia]|].
    intros ? s'' (? & ? & ?). split_and!; [done| |by eapply same_counters_trans].
    replace (Z.of_nat (S i)) with (Z.of_nat i + 1) by lia. by eapply grows_trans.
Qed.

(** The counters bound the number of steps: nine steps give 511000 packets,
    a tenth one does not fit. *)
Lemma steps_le_9 owned s k :
  Inv owned s → steps_done k s → k ≤ 9.
Proof.
  intros [Hh Hs _] (Hk & Ha & _). pose proof (hi_max _ _ Hh) as Hm.
  assert (2 ^ k < 2 ^ 10) as H by (rewrite Hs, Ha in Hm; unfold MAX_PACKETS in Hm; lia).
  apply Z.pow_lt_mono_r_iff in H; lia.
Qed.

(** The number of packets once the freelist cannot grow any more. *)
Definition max_allocatable : Z := 511000.

Lemma steps_room owned s k :
  Inv owned s → steps_done k s →
  (PACKETS_ALLOCATED s + PACKET_ALLOCATION_STEP s <=? MAX_PACKETS) = true ∧ k < 9 ∨
  (PACKETS_ALLOCATED s + PACKET_ALLOCATION_STEP s <=? MAX_PACKETS) = false ∧ k = 9
    ∧ PACKETS_ALLOCATED s = max_allocatable.
Proof.
  intros Hinv Hst. pose proof (steps_le_9 _ _ _ Hinv Hst). destruct Hst as (Hk & Ha & Hp).
  unfold MAX_PACKETS, max_allocatable.
  assert (k = 9 ∨ k < 9) as [->|Hlt] by lia; [right|left].
  - change (2 ^ 9) with 512 in *. split_and!; [apply Z.leb_gt|..]; lia.
  - split; [|done]. apply Z.leb_le.
    assert (2 ^ k ≤ 2 ^ 8) by (apply Z.pow_le_mono_r; lia). lia.
Qed.

Lemma preallocate_step_spec owned s k :
  Inv owned s → steps_done k s →
  wpx (λ e, e = "Packet allocation overflow" ∧ k = 9) preallocate_step
     (λ _ s', Inv owned s' ∧ grows (1000 * 2 ^ k) s s' ∧ steps_done (k + 1) s') s.
Proof.
  intros Hinv Hst. pose proof (steps_room _ _ _ Hinv Hst) as Hroom.
  pose proof Hinv as [Hh Hs _]. pose proof Hst as (Hk & Ha & Hp).
  unfold preallocate_step. wp_steps. unfold assert.
  destruct Hroom as [[Hle Hk9]|(-> & -> & _)]; [|by split]. rewrite Hle.
  apply Z.leb_le in Hle. eapply wpx_lift; [done|]. wp_steps.
  eapply wp_conseq.
  - apply (fill_freelist_spec owned); [done|]. lia.
  - intros _ s' (Hh' & Hg & [Hc1 Hc2]). wp_steps. simpl.
    rewrite Z2Nat.id in Hg by lia. rewrite Hp in Hg.
    assert (2 ^ (k + 1) = 2 * 2 ^ k) as Hpow by (rewrite Z.pow_add_r by lia; lia).
    assert (steps_done (k + 1) (mkPState (heap s') (next_loc s') (FL s')
      (PACKETS_ALLOCATED s' + PACKET_ALLOCATION_STEP s') (PACKET_ALLOCATION_STEP s' * 2) (STATS s'))).
    { split_and!; simpl; lia. }
    split_and!; [|by destruct Hg|done].
    split; [by destruct Hh'|simpl; destruct Hg; lia|by eexists].
Qed.

(** Taking the top of the stack. *)
Lemma fl_rep_pop fl l p :
  fl_rep fl (l ++ [p]) →
  fl_list fl !! (nfree fl - 1) = Some p ∧ fl_rep (mkFreelist (fl_list fl) (nfree fl - 1)) l.
Proof.
  intros [Hn Hr]. rewrite length_app in Hn. simpl in Hn. split.
  - replace (nfree fl - 1) with (Z.of_nat (length l)) by lia. apply Hr.
    by rewrite lookup_app_r, Nat.sub_diag.
  - split; simpl; [lia|]. intros i q Hi. apply Hr. apply lookup_app_l_Some. done.
Qed.

(** What the program sees of an allocation: the packets in use stay as they are. *)
Definition keeps (owned : list loc) (s s' : pstate) : Prop :=
  ∀ p, p ∈ owned → heap s' !! p = heap s !! p.

Lemma subseteq_keeps owned s s' : heap_inv owned s → heap s ⊆ heap s' → keeps owned s s'.
Proof.
  intros Hinv Hsub p Hp. apply (heap_inv_owned _ _ Hinv) in Hp as [pk Hpk].
  rewrite Hpk. by eapply lookup_weaken.
Qed.

(** The state after [FL.nfree -= 1]. *)
Definition pop_state (s : pstate) : pstate :=
  set_FL (mkFreelist (fl_list (FL s)) (nfree (FL s) - 1)) s.

Lemma heap_inv_pop owned s :
  heap_inv owned s → 0 < nfree (FL s) →
  ∃ p, fl_list (FL s) !! (nfree (FL s) - 1) = Some p ∧ heap_inv (p :: owned) (pop_state s) ∧
       empty_packet s p.
Proof.
  intros [(l & Hr & Hp & Hl) Hpk Hf Hm] Hpos.
  destruct l as [|p l _] using rev_ind; [by destruct Hr as [Hn _]; simpl in Hn; lia|].
  destruct (fl_rep_pop _ _ _ Hr) as [Hlk Hr']. apply Forall_app in Hl as [Hl Hlp].
  exists p. split_and!; [done| |by inversion Hlp].
  split; [|done..]. exists l. split_and!; [done| |done].
  simpl. by rewrite <-Hp, <-app_assoc.
Qed.

(** The freelist is only empty when every packet is in use. *)
Lemma all_in_use owned s :
  heap_inv owned s → nfree (FL s) = 0 → Z.of_nat (length owned) = Z.of_nat (size (heap s)).
Proof.
  intros [(l & [Hn _] & Hp & _) _ _ _] H0. rewrite size_heap_elements, <-Hp, length_app. lia.
Qed.

(** What a caller of [allocate] gets. *)
Record allocated (owned : list loc) (s : pstate) (p : loc) (s' : pstate) : Prop := {
  al_inv : Inv (p :: owned) s';
  al_keeps : keeps owned s s';
  al_empty : empty_packet s' p;
  al_stats : STATS s' = STATS s;
}.

Lemma allocate_pop_spec owned s :
  Inv owned s → 0 < nfree (FL s) →
  wp (modify (λ s, set_FL (mkFreelist (fl_list (FL s)) (u64 (nfree (FL s) - 1))) s);;
      s ← get;
      fl_index (nfree (FL s));;
      match fl_list (FL s) !! nfree (FL s) with
      | Some p => mret p
      | None => undefined "Box::from_raw of a null pointer"
      end) (allocated owned s) s.
Proof.
  intros [Hinv Hc Hs] Hpos.
  destruct (heap_inv_pop _ _ Hinv Hpos) as (p & Hlk & Hinv' & Hemp).
  pose proof (heap_inv_room _ _ _ Hinv') as Hroom. simpl in Hroom. unfold MAX_PACKETS in Hroom.
  wp_steps. simpl. rewrite u64_id by word. unfold fl_index.
  rewrite (proj2 (Z.leb_le _ _)), (proj2 (Z.ltb_lt _ _)) by (unfold MAX_PACKETS; lia).
  rewrite Hlk. change (allocated owned s p (pop_state s)).
  split; [|done..]. split; done.
Qed.

Lemma allocate_wp owned s :
  Inv owned s →
  wpx (λ e, e = "Packet allocation overflow" ∧ Z.of_nat (length owned) = max_allocatable)
      allocate (allocated owned s) s.
Proof.
  intros Hinv. pose proof Hinv as [Hh Hc [k Hk]]. unfold allocate. apply wpx_bind, wpx_get.
  destruct (Z.eqb_spec (nfree (FL s)) 0) as [H0|H0].
  - apply wpx_bind. eapply wpx_mono; [eapply wpx_weaken; [by apply preallocate_step_spec|]|].
    + intros e [-> ->]. split; [done|]. rewrite (all_in_use _ _ Hh H0), Hc.
      destruct (steps_room _ _ _ Hinv Hk) as [[_ ?]|(_ & _ & ->)]; [lia|done].
    + intros _ s' (Hinv' & [Hsub _ Hn Hst] & _).
      destruct Hk as (Hk & _). pose proof (Z.pow_pos_nonneg 2 k ltac:(lia) Hk).
      eapply wp_conseq; [apply allocate_pop_spec; [done|lia]|].
      intros p s'' [? Hkeep ? ?]. split; [done| |done|congruence].
      intros q Hq. rewrite (Hkeep q Hq). by apply (subseteq_keeps _ _ _ Hh).
  - apply wpx_bind, wpx_ret. eapply wp_conseq; [apply allocate_pop_spec; [done|]|done].
    destruct Hh as [(l & [Hn _] & _) _ _ _]. lia.
Qed.

(** ** Returning packets *)

(** The statistics after freeing packet [pk]. *)
Definition count_free (pk : Packet) (st : EngineStats) : EngineStats :=
  mkEngineStats (breaths st) (u64 (frees st + 1)) (u64 (freebits st + bitlength pk))
                (u64 (freebytes st + p_length pk)).

Lemma Inv_push_free owned s p pk st :
  Inv (p :: owned) s → heap s !! p = Some pk → Inv owned (push_free p pk (set_STATS st s)).
Proof.
  intros [Hh Hc Hs] Hp. split; simpl; [|by erewrite size_update|done].
  eapply heap_inv_free; [|done]. by destruct Hh.
Qed.

Lemma keeps_insert owned s p pk :
  heap_inv (p :: owned) s → keeps owned s (set_heap (<[p:=pk]> (heap s)) s).
Proof.
  intros Hh q Hq. apply heap_inv_nodup, NoDup_cons in Hh as [Hn _]. simpl.
  by rewrite lookup_insert_ne by set_solver.
Qed.

Lemma free_wp owned s p pk :
  Inv (p :: owned) s → heap s !! p = Some pk →
  wp (free p) (λ _ s', Inv owned s' ∧ keeps owned s s' ∧ STATS s' = count_free pk (STATS s)) s.
Proof.
  intros Hinv Hp. unfold free, add_frees, add_freebytes, add_freebits. wp_steps.
  eapply deref_ok; [done|]. wp_steps. simpl. unfold wpx.
  erewrite (free_internal_eq owned); [|by destruct Hinv as [[]]|done].
  split_and!; [| |done].
  - exact (Inv_push_free _ _ _ _ (count_free pk (STATS s)) Hinv Hp).
  - intros q Hq. destruct Hinv as [Hh _ _]. by apply (keeps_insert _ _ _ (mkPacket 0 (p_data pk)) Hh).
Qed.

(** Writing to a packet in use. *)
Lemma Inv_write owned s p pk pk' :
  Inv owned s → p ∈ owned → heap s !! p = Some pk → wf_packet pk' →
  Inv owned (set_heap (<[p:=pk']> (heap s)) s).
Proof.
  intros [Hh Hc Hs] Hin Hp Hwf. split; simpl; [by eapply heap_inv_write|by erewrite size_update|done].
Qed.

Lemma Inv_owned owned s p : Inv owned s → p ∈ owned → ∃ pk, heap s !! p = Some pk ∧ wf_packet pk.
Proof.
  intros [Hh _ _] Hin. destruct (heap_inv_owned _ _ Hh _ Hin) as [pk Hpk].
  exists pk. split; [done|]. by eapply heap_inv_lookup.
Qed.

Lemma Inv_head p owned s : Inv (p :: owned) s → ∃ pk, heap s !! p = Some pk ∧ wf_packet pk.
Proof. intros Hinv. eapply Inv_owned; [done|left]. Qed.

(** The bytes that a packet carries. *)
Definition frame (pk : Packet) : bytes := take (Z.to_nat (p_length pk)) (p_data pk).

(** The packet [pk'] carries the same frame as [pk]. *)
Definition same_frame (pk pk' : Packet) : Prop :=
  p_length pk' = p_length pk ∧
  take (Z.to_nat (p_length pk)) (p_data pk') = take (Z.to_nat (p_length pk)) (p_data pk).

Lemma payload_size_z : Z.of_nat PAYLOAD_SIZE = 65535.
Proof. Transparent PAYLOAD_SIZE. unfold PAYLOAD_SIZE. rewrite Z2Nat.id; lia. Qed.
#[global] Opaque PAYLOAD_SIZE.

Lemma wf_length pk : wf_packet pk → (Z.to_nat (p_length pk) ≤ length (p_data pk))%nat.
Proof. intros (Hu & -> & _). pose proof payload_size_z. word. Qed.

Lemma copy_frame dst src n :
  (n ≤ length src)%nat → (n ≤ length dst)%nat → take n (copy dst src n) = take n src.
Proof.
  intros. unfold copy. rewrite !Nat.min_l by lia.
  rewrite take_app_le by (rewrite length_take; lia). rewrite take_take. f_equal. lia.
Qed.

(** What the caller of [clone] gets: a new packet with the same frame. *)
Record cloned (owned : list loc) (s : pstate) (pk : Packet) (c : loc) (s' : pstate) : Prop := {
  cl_inv : Inv (c :: owned) s';
  cl_keeps : keeps owned s s';
  cl_frame : ∃ cpk, heap s' !! c = Some cpk ∧ same_frame pk cpk;
  cl_stats : STATS s' = STATS s;
}.

Lemma clone_wp owned s p pk :
  Inv owned s → p ∈ owned → heap s !! p = Some pk →
  wpx (λ e, e = "Packet allocation overflow" ∧ Z.of_nat (length owned) = max_allocatable)
      (clone p) (cloned owned s pk) s.
Proof.
  intros Hinv Hin Hp. unfold clone. apply wpx_bind.
  eapply wpx_mono; [by apply allocate_wp|]. intros c s' [Hinv' Hk (cpk & Hc & Hz) Hst].
  assert (c ∉ owned) as Hnc
    by (destruct Hinv' as [Hh' _ _]; by apply heap_inv_nodup, NoDup_cons in Hh' as [? _]).
  assert (heap s' !! p = Some pk) as Hp' by (rewrite (Hk p Hin); done).
  destruct (Inv_owned _ _ _ Hinv Hin) as (pk0 & Hpk0 & Hwf).
  assert (pk0 = pk) as -> by congruence. clear Hpk0.
  pose proof (heap_inv_lookup _ _ (inv_heap _ _ Hinv') _ _ Hc) as (Hcu & Hcl & Hcb).
  pose proof (wf_length _ Hwf) as Hwl. pose proof Hwf as (Hu & Hl & Hb).
  set (data := copy (p_data cpk) (p_data pk) (Z.to_nat (p_length pk))).
  apply wpx_bind. eapply deref_ok; [done|]. apply wpx_bind. eapply deref_ok; [done|].
  apply wpx_bind. eapply write_ok; [done|]. fold data. apply wpx_bind.
  eapply deref_ok; [simpl; apply lookup_insert_eq|].
  apply wpx_bind. eapply write_ok; [simpl; apply lookup_insert_eq|]. apply wpx_ret.
  unfold set_heap. simpl. rewrite insert_insert_eq.
  assert (wf_packet (mkPacket (p_length pk) data)) as Hwf'.
  { split_and!; simpl; [done|unfold data; by rewrite length_copy|by apply copy_are_bytes]. }
  split; simpl.
  - eapply (Inv_write (c :: owned) s' c); [done|left|done|done].
  - intros q Hq. simpl. rewrite lookup_insert_ne by set_solver. by apply Hk.
  - eexists. split; [apply lookup_insert_eq|]. split; simpl; [done|].
    unfold data. apply copy_frame; [done|]. by rewrite Hcl, <-Hl.
  - done.
Qed.

(** ** Preallocation *)

(** [k] steps are enough for [n] packets. *)
Lemma preallocate_loop_spec fuel : ∀ owned s k n,
  Inv owned s → steps_done k s → n ≤ max_allocatable → 9 - k ≤ Z.of_nat fuel →
  wp (preallocate_loop fuel n)
     (λ _ s', Inv owned s' ∧ keeps owned s s' ∧ n ≤ PACKETS_ALLOCATED s' ∧ STATS s' = STATS s) s.
Proof.
  induction fuel as [|fuel IH]; intros owned s k n Hinv Hk Hn Hf; simpl; apply wpx_bind, wpx_get.
  all: destruct (Z.ltb_spec (PACKETS_ALLOCATED s) n) as [Hlt|Hge]; [|by apply wpx_ret].
  all: pose proof (steps_room _ _ _ Hinv Hk) as Hroom.
  all: destruct Hroom as [[_ ?]|(_ & _ & ?)]; [|lia].
  - lia.
  - apply wpx_bind. eapply wpx_weaken; [|intros e He; apply He].
    eapply wpx_mono; [eapply wpx_weaken; [by apply preallocate_step_spec|]|].
    + intros e [_ ->]. lia.
    + intros _ s' (Hinv' & [Hsub _ _ Hst] & Hk').
      eapply wpx_mono; [eapply IH; [done|done|done|lia]|].
      intros _ s'' (? & Hkeep & ? & ?). split_and!; [done| |done|congruence].
      intros q Hq. rewrite (Hkeep q Hq). by apply (subseteq_keeps _ _ _ (inv_heap _ _ Hinv)).
Qed.

(** More packets than fit: nine steps, then the assertion fails. *)
Lemma preallocate_loop_overflow fuel : ∀ owned s k n,
  Inv owned s → steps_done k s → max_allocatable < n → 9 - k < Z.of_nat fuel →
  preallocate_loop fuel n s = Panic "Packet allocation overflow".
Proof.
  induction fuel as [|fuel IH]; intros owned s k n Hinv Hk Hn Hf.
  { pose proof (steps_le_9 _ _ _ Hinv Hk). lia. }
  simpl. unfold mbind, st_bind at 1. simpl.
  pose proof (steps_room _ _ _ Hinv Hk) as Hroom.
  pose proof (preallocate_step_spec _ _ _ Hinv Hk) as Hstep.
  pose proof (steps_le_9 _ _ _ Hinv Hk) as Hk9.
  assert ((PACKETS_ALLOCATED s <? n) = true) as ->.
  { apply Z.ltb_lt. destruct Hk as (Hk & -> & _). unfold max_allocatable in Hn.
    assert (2 ^ k ≤ 2 ^ 9) by (apply Z.pow_le_mono_r; lia). lia. }
  destruct Hroom as [[_ Hlt]|(Hfull & -> & _)].
  - unfold wpx in Hstep. unfold st_bind at 1.
    destruct (preallocate_step s) as [[[] s']|e| |]; [|destruct Hstep; lia|done|done].
    destruct Hstep as (Hinv' & _ & Hk'). eapply IH; [done|done|done|lia].
  - unfold st_bind at 1, preallocate_step, mbind, st_bind at 1. simpl.
    unfold st_bind at 1. simpl. rewrite Hfull. done.
Qed.

Lemma init_Inv : Inv [] init_pstate.
Proof.
  split; simpl; [split; simpl| |].
  - exists []. split_and!; [split; [done|]|by rewrite dom_empty_L, elements_empty|done].
    intros i p Hi. by rewrite lookup_nil in Hi.
  - done.
  - intros p. rewrite dom_empty_L. set_solver.
  - by rewrite map_size_empty.
  - by rewrite map_size_empty.
  - exists 0. by split_and!.
Qed.

(** ** What the module promises *)

(** C11. [allocate] takes a packet of length 0 off the freelist that nobody
    else refers to (growing the freelist if it is empty) and leaves the packets
    in use as they are; it panics only when the freelist cannot grow any more,
    with all 511000 packets in use.  It never turns a null pointer into a box. *)
Theorem allocate_fresh owned s :
  Inv owned s →
  wpx (λ e, e = "Packet allocation overflow" ∧ Z.of_nat (length owned) = max_allocatable)
      allocate (allocated owned s) s.
Proof. apply allocate_wp. Qed.

Lemma allocate_fresh_witness :
  Inv [] init_pstate ∧
  wpx (λ e, e = "Packet allocation overflow" ∧ Z.of_nat (length (@nil loc)) = max_allocatable)
      allocate (allocated [] init_pstate) init_pstate.
Proof. split; [apply init_Inv|]. apply (allocate_fresh []). apply init_Inv. Defined.

(** [free] returns a packet in use to the freelist: it is not in use any
    more, the other packets are as before, and the statistics count one more
    packet, its bytes and its bits on the wire.  It does not panic. *)
Theorem free_returns owned s p :
  Inv (p :: owned) s →
  ∃ pk, heap s !! p = Some pk ∧
        wp (free p) (λ _ s', Inv owned s' ∧ keeps owned s s' ∧ STATS s' = count_free pk (STATS s)) s.
Proof.
  intros Hinv. destruct (Inv_head _ _ _ Hinv) as (pk & Hpk & _).
  exists pk. split; [done|]. by apply free_wp.
Qed.

(** Below the limit [allocate] returns. *)
Lemma allocate_ok owned s :
  Inv owned s → Z.of_nat (length owned) < max_allocatable → wp allocate (allocated owned s) s.
Proof.
  intros Hinv Hlt. eapply wpx_weaken; [by apply allocate_wp|]. intros e [_ He]. lia.
Qed.

(** The first packet of the program. *)
Lemma allocate_init : ∃ p s, allocate init_pstate = Ok (p, s) ∧ Inv [p] s.
Proof.
  destruct (wp_returns _ _ _ (allocate_ok _ _ init_Inv ltac:(done))) as (p & s & H & []). eauto.
Qed.

Lemma free_returns_witness :
  ∃ p s, allocate init_pstate = Ok (p, s) ∧ Inv [p] s ∧
  ∃ pk, heap s !! p = Some pk ∧
        wp (free p) (λ _ s', Inv [] s' ∧ keeps [] s s' ∧ STATS s' = count_free pk (STATS s)) s.
Proof.
  destruct allocate_init as (p & s & Ha & Hi). exists p, s. split_and!; [done|done|].
  apply (free_returns [] s p). exact Hi.
Defined.

(** [clone] returns another packet, with the same length and the same
    data up to that length; the packet it was given, and all others in use,
    stay as they are.  It panics only when all 511000 packets are in use. *)
Theorem clone_copies owned s p pk :
  Inv owned s → p ∈ owned → heap s !! p = Some pk →
  wpx (λ e, e = "Packet allocation overflow" ∧ Z.of_nat (length owned) = max_allocatable)
      (clone p) (cloned owned s pk) s.
Proof. apply clone_wp. Qed.

Lemma clone_copies_witness :
  ∃ p s pk, allocate init_pstate = Ok (p, s) ∧ Inv [p] s ∧ heap s !! p = Some pk ∧
  wpx (λ e, e = "Packet allocation overflow" ∧ Z.of_nat (length [p]) = max_allocatable)
      (clone p) (cloned [p] s pk) s.
Proof.
  destruct allocate_init as (p & s & Ha & Hi). destruct (Inv_head _ _ _ Hi) as (pk & Hp & _).
  exists p, s, pk. split_and!; [done..|]. apply (clone_copies [p] s p pk); [exact Hi|left|exact Hp].
Defined.

(** C33. [preallocate(n)] ends: it makes sure that at least [n] packets exist
    if [n <= 511000], and panics on anything bigger.  (The constant
    MAX_PACKETS = 1000000 is never reached: the freelist grows in steps of
    1000, 2000, 4000, ..., and the tenth step would exceed it.) *)
Theorem preallocate_bounds owned s n :
  Inv owned s →
  (n ≤ max_allocatable →
   wp (preallocate n)
      (λ _ s', Inv owned s' ∧ keeps owned s s' ∧ n ≤ PACKETS_ALLOCATED s' ∧ STATS s' = STATS s) s) ∧
  (max_allocatable < n → preallocate n s = Panic "Packet allocation overflow").
Proof.
  intros Hinv. destruct (inv_steps _ _ Hinv) as [k Hk]. pose proof Hk as [Hk0 _].
  unfold preallocate. split; intros Hn.
  - eapply preallocate_loop_spec; [done..|lia].
  - eapply preallocate_loop_overflow; [done..|lia].
Qed.

Lemma preallocate_bounds_witness :
  preallocate 511001 init_pstate = Panic "Packet allocation overflow".
Proof. apply (preallocate_bounds [] init_pstate 511001); [apply init_Inv|unfold max_allocatable; lia]. Defined.

(** ** The interface for clients: packets in use and what they hold

    [Mem ps s]: the packets in use are exactly those of [ps], each once, and
    each holds what [ps] says. *)

Definition Mem (ps : list (loc * Packet)) (s : pstate) : Prop :=
  Inv ps.*1 s ∧ Forall (λ '(p, pk), heap s !! p = Some pk) ps.

#[export] Instance Mem_proper : Proper ((≡ₚ) ==> eq ==> iff) Mem.
Proof.
  intros ps ps' Hp s ? <-. unfold Mem. by rewrite Hp.
Qed.

Lemma Mem_perm ps ps' s : Mem ps s → ps ≡ₚ ps' → Mem ps' s.
Proof. by intros ? <-. Qed.

Lemma Mem_init : Mem [] init_pstate.
Proof. split; [apply init_Inv|constructor]. Qed.

(** The statistics do not matter. *)
Lemma Mem_stats ps s s' :
  heap s' = heap s → FL s' = FL s → next_loc s' = next_loc s →
  PACKETS_ALLOCATED s' = PACKETS_ALLOCATED s → PACKET_ALLOCATION_STEP s' = PACKET_ALLOCATION_STEP s →
  Mem ps s → Mem ps s'.
Proof.
  destruct s, s'. simpl. intros -> -> -> -> -> [[[] Hc Hs] Hf].
  split; [split; [by split|exact Hc|exact Hs]|exact Hf].
Qed.

Lemma Mem_Inv ps s : Mem ps s → Inv ps.*1 s.
Proof. by intros []. Qed.

Lemma Mem_lookup ps s p pk : Mem ps s → (p, pk) ∈ ps → heap s !! p = Some pk ∧ wf_packet pk.
Proof.
  intros [Hi Hf] Hin. rewrite Forall_forall in Hf. pose proof (Hf _ Hin) as Hp. simpl in Hp.
  split; [done|]. by eapply heap_inv_lookup; [apply Hi|].
Qed.

Lemma Mem_head p pk ps s : Mem ((p, pk) :: ps) s → heap s !! p = Some pk ∧ wf_packet pk.
Proof. intros H. eapply Mem_lookup; [done|left]. Qed.

(** The packets of a program that only keeps some of them in place. *)
Lemma keeps_Forall owned (ps : list (loc * Packet)) s s' :
  keeps owned s s' → ps.*1 ⊆ owned →
  Forall (λ '(p, pk), heap s !! p = Some pk) ps →
  Forall (λ '(p, pk), heap s' !! p = Some pk) ps.
Proof.
  intros Hk Hsub Hf. rewrite Forall_forall in Hf. apply Forall_forall. intros [p pk] Hin.
  rewrite Hk; [by apply (Hf _ Hin)|]. apply Hsub. apply list_elem_of_fmap. by exists (p, pk).
Qed.

Lemma free_mem p pk ps s :
  Mem ((p, pk) :: ps) s →
  wp (free p) (λ _ s', Mem ps s' ∧ STATS s' = count_free pk (STATS s)) s.
Proof.
  intros [Hi Hf]. inversion Hf as [|? ? Hp Hf']; subst. eapply wpx_mono; [by apply free_wp|].
  intros _ s' (? & Hk & ?). split_and!; [split; [done|]|done]. by eapply keeps_Forall.
Qed.

(** What a panic of [allocate] says. *)
Definition exhausted (ps : list (loc * Packet)) (e : string) : Prop :=
  e = "Packet allocation overflow" ∧ Z.of_nat (length ps) = max_allocatable.

Lemma allocate_mem ps s :
  Mem ps s →
  wpx (exhausted ps) allocate
    (λ p s', ∃ pk, p_length pk = 0 ∧ wf_packet pk ∧ Mem ((p, pk) :: ps) s' ∧ STATS s' = STATS s) s.
Proof.
  intros [Hi Hf]. eapply wpx_mono; [eapply wpx_weaken; [by apply allocate_wp|]|].
  - unfold exhausted. by rewrite length_fmap.
  - intros p s' [Hi' Hk (pk & Hp & Hz) Hs]. exists pk. split_and!; [done| |split; [done|]|done].
    + by eapply heap_inv_lookup; [apply Hi'|].
    + constructor; [done|]. by eapply keeps_Forall.
Qed.

Lemma deref_mem E p pk ps s (Q : Packet → pstate → Prop) :
  Mem ((p, pk) :: ps) s → Q pk s → wpx E (deref p) Q s.
Proof. intros H HQ. apply Mem_head in H as [Hp _]. by eapply deref_ok. Qed.

Lemma write_mem p pk pk' ps s :
  Mem ((p, pk) :: ps) s → wf_packet pk' →
  wp (write p pk') (λ _ s', Mem ((p, pk') :: ps) s' ∧ STATS s' = STATS s) s.
Proof.
  intros [Hi Hf] Hwf. inversion Hf as [|? ? Hp Hf']; subst.
  eapply write_ok; [done|]. split; [|done]. split.
  - eapply Inv_write; [done|left|done|done].
  - constructor; [apply lookup_insert_eq|]. eapply keeps_Forall; [|done|done].
    by apply keeps_insert, inv_heap.
Qed.

Lemma clone_mem p pk ps s :
  Mem ps s → (p, pk) ∈ ps →
  wpx (exhausted ps) (clone p)
    (λ c s', ∃ cpk, same_frame pk cpk ∧ wf_packet cpk ∧ Mem ((c, cpk) :: ps) s' ∧ STATS s' = STATS s) s.
Proof.
  intros Hm Hin. pose proof Hm as [Hi Hf].
  eapply wpx_mono; [eapply wpx_weaken; [eapply clone_wp; [done| |by eapply Mem_lookup]|]|].
  - apply list_elem_of_fmap. by exists (p, pk).
  - unfold exhausted. by rewrite length_fmap.
  - intros c s' [Hi' Hk (cpk & Hc & Hfr) Hs]. exists cpk. split_and!; [done| |split; [done|]|done].
    + by eapply heap_inv_lookup; [apply Hi'|].
    + constructor; [done|]. by eapply keeps_Forall.
Qed.
