(* ===== verification/Link.v ===== *)
(** * link.rs: links, ring buffers of packets between apps

    A link is a circular buffer of 1024 slots with two cursors, so that it
    holds up to 1023 packets.  Its specification ([link_rep]) is a bounded FIFO
    queue that drops (and frees) what does not fit. *)

From S2P Require Import Prelude Bytes Lib Packet.
#[local] Open Scope Z_scope.

Definition LINK_RING_SIZE : Z := 1024.
Definition LINK_MAX_PACKETS : Z := LINK_RING_SIZE - 1.

(** [packets: [*mut Packet; LINK_RING_SIZE]], an absent index being null. *)
Record Link : Type := mkLink {
  packets : gmap Z loc;
  read : Z; write : Z;
  txpackets : Z; txbytes : Z; txdrop : Z;
  rxpackets : Z; rxbytes : Z
}.

Definition SIZE : Z := LINK_RING_SIZE.

Definition new : Link := mkLink ∅ 0 0 0 0 0 0 0.

Definition empty (r : Link) : bool := read r =? write r.

(** Signed 32-bit arithmetic. *)
Definition i32 (z : Z) : Z := (z + 2147483648) mod 4294967296 - 2147483648.

(** The position after [i] in the cursor. *)
Definition next (i : Z) : Z := Z.land (i32 (i + 1)) (SIZE - 1).

Definition full (r : Link) : bool := next (write r) =? read r.

(** [r.packets[i as usize]], checked against the size of the array. *)
Definition ring_index (i : Z) : ST pstate () :=
  if (0 <=? i) && (i <? LINK_RING_SIZE) then mret tt else panic "index out of bounds".

Definition receive (r : Link) : ST pstate (loc * Link) :=
  if empty r then panic "Link underflow."
  else
    ring_index (read r);;
    match packets r !! read r with
    | None => undefined "Box::from_raw of a null pointer"
    | Some p =>
        pk ← deref p;
        mret (p, mkLink (packets r) (next (read r)) (write r)
                   (txpackets r) (txbytes r) (txdrop r)
                   (u64 (rxpackets r + 1)) (u64 (rxbytes r + p_length pk)))
    end.

Definition transmit (r : Link) (p : loc) : ST pstate Link :=
  if full r then
    free p;;
    mret (mkLink (packets r) (read r) (write r)
            (txpackets r) (txbytes r) (u64 (txdrop r + 1)) (rxpackets r) (rxbytes r))
  else
    pk ← deref p;
    ring_index (write r);;
    mret (mkLink (<[write r := p]> (packets r)) (read r) (next (write r))
            (u64 (txpackets r + 1)) (u64 (txbytes r + p_length pk)) (txdrop r)
            (rxpackets r) (rxbytes r)).

(** Drop for Link: while !empty(self) { packet::free(receive(self)); } *)
Fixpoint drop_loop (fuel : nat) (r : Link) : ST pstate Link :=
  if empty r then mret r
  else
    match fuel with
    | O => no_fuel
    | S fuel => '(p, r) ← receive r; free p;; drop_loop fuel r
    end.

(** As many rounds as the link can hold packets. *)
Definition drop (r : Link) : ST pstate Link := drop_loop (Z.to_nat LINK_MAX_PACKETS) r.

(** ** The specification: a queue *)

Record link_rep (r : Link) (q : list loc) : Prop := {
  lr_read : 0 ≤ read r < SIZE;
  lr_length : Z.of_nat (length q) ≤ LINK_MAX_PACKETS;
  lr_write : write r = (read r + Z.of_nat (length q)) mod SIZE;
  lr_slots : ∀ i p, q !! i = Some p → packets r !! ((read r + Z.of_nat i) mod SIZE) = Some p;
  (* a queue of packets sent and not yet received *)
  lr_count : u64 (rxpackets r + Z.of_nat (length q)) = u64 (txpackets r);
}.

Lemma new_rep : link_rep new [].
Proof. split; simpl; try done; try (unfold SIZE, LINK_RING_SIZE; lia). Qed.

Ltac cursor := unfold LINK_MAX_PACKETS, SIZE, LINK_RING_SIZE in *; Z.div_mod_to_equations; lia.

Lemma next_mod i : 0 ≤ i < SIZE → next i = (i + 1) mod SIZE.
Proof.
  intros Hi. unfold next.
  assert (i32 (i + 1) = i + 1) as -> by (unfold i32, SIZE, LINK_RING_SIZE in *; Z.div_mod_to_equations; lia).
  change (SIZE - 1) with (Z.ones 10). rewrite Z.land_ones by lia. done.
Qed.

Section link_rep.
Context (r : Link) (q : list loc) (Hr : link_rep r q).

Lemma rep_empty : empty r = bool_decide (q = []).
Proof.
  destruct Hr as [H1 H2 H3 _ _]. unfold empty. destruct q as [|p q'].
  - simpl in H3. apply Z.eqb_eq. rewrite H3. cursor.
  - rewrite bool_decide_eq_false_2 by done. simpl length in *. apply Z.eqb_neq. rewrite H3. cursor.
Qed.

Lemma rep_write : 0 ≤ write r < SIZE.
Proof. destruct Hr as [_ _ -> _ _]. cursor. Qed.

Lemma rep_full : full r = bool_decide (Z.of_nat (length q) = LINK_MAX_PACKETS).
Proof.
  pose proof rep_write as Hw. destruct Hr as [H1 H2 H3 _ _]. unfold full. rewrite next_mod by done.
  case_bool_decide as Hd; [apply Z.eqb_eq|apply Z.eqb_neq]; rewrite H3; cursor.
Qed.

Lemma rep_index E i (Q : () → pstate → Prop) s : 0 ≤ i < SIZE → Q tt s → wpx E (ring_index i) Q s.
Proof.
  intros Hi HQ. unfold ring_index. unfold SIZE in Hi.
  rewrite (proj2 (Z.leb_le _ _)), (proj2 (Z.ltb_lt _ _)) by lia. done.
Qed.
End link_rep.

(** The link after a packet of length [n] was enqueued or dequeued. *)
Definition enqueued (r : Link) (p : loc) (n : Z) : Link :=
  mkLink (<[write r := p]> (packets r)) (read r) (next (write r))
    (u64 (txpackets r + 1)) (u64 (txbytes r + n)) (txdrop r) (rxpackets r) (rxbytes r).
Definition dequeued (r : Link) (n : Z) : Link :=
  mkLink (packets r) (next (read r)) (write r) (txpackets r) (txbytes r) (txdrop r)
    (u64 (rxpackets r + 1)) (u64 (rxbytes r + n)).
Definition dropped (r : Link) : Link :=
  mkLink (packets r) (read r) (write r) (txpackets r) (txbytes r) (u64 (txdrop r + 1))
    (rxpackets r) (rxbytes r).

Lemma enqueued_rep r q p n :
  link_rep r q → Z.of_nat (length q) ≠ LINK_MAX_PACKETS → link_rep (enqueued r p n) (q ++ [p]).
Proof.
  intros Hr Hn. pose proof (rep_write _ _ Hr) as Hw. destruct Hr as [H1 H2 H3 H4 H5].
  split; simpl; rewrite ?length_app; simpl length; [done|lia| | |].
  - rewrite next_mod by done. rewrite H3. cursor.
  - intros i p' Hi. apply lookup_app_Some in Hi as [Hi|[Hge Hi]].
    + rewrite lookup_insert_ne; [by apply H4|]. apply lookup_lt_Some in Hi. rewrite H3. cursor.
    + apply list_lookup_singleton_Some in Hi as [Hi ->].
      replace i with (length q) by lia. rewrite <-H3. apply lookup_insert_eq.
  - clear -H5. revert H5. generalize (txpackets r) (rxpackets r) (length q). intros. word.
Qed.

Lemma dequeued_rep r q p n : link_rep r (p :: q) → link_rep (dequeued r n) q.
Proof.
  intros [H1 H2 H3 H4 H5]. simpl length in *. split; simpl; rewrite ?next_mod by done.
  - cursor.
  - lia.
  - rewrite H3. cursor.
  - intros i p' Hi. pose proof (lookup_lt_Some _ _ _ Hi).
    rewrite <-(H4 (S i) p') by done. f_equal. cursor.
  - clear -H5. revert H5. generalize (txpackets r) (rxpackets r) (length q). intros. word.
Qed.

Lemma dropped_rep r q : link_rep r q → link_rep (dropped r) q.
Proof. intros []. by split. Qed.

Lemma head_slot r p q : link_rep r (p :: q) → packets r !! read r = Some p.
Proof.
  intros Hr. rewrite <-(lr_slots _ _ Hr 0 p) by done. f_equal.
  destruct Hr as [H1 _ _ _ _]. cursor.
Qed.

(** ** Operations on a link in use

    The packets on a link are in use: they are among the [owned] of the
    freelist's invariant. *)

Lemma receive_wp E r p q pk s :
  link_rep r (p :: q) → heap s !! p = Some pk →
  wpx E (receive r) (λ '(p', r') s', p' = p ∧ r' = dequeued r (p_length pk) ∧ s' = s) s.
Proof.
  intros Hr Hp. unfold receive. rewrite (rep_empty _ _ Hr). rewrite bool_decide_eq_false_2 by done.
  apply wpx_bind, rep_index; [by apply lr_read in Hr|].
  rewrite (head_slot _ _ _ Hr). apply wpx_bind. eapply deref_ok; [done|]. by apply wpx_ret.
Qed.

Lemma transmit_wp r q p pk owned s :
  link_rep r q → Inv (p :: owned) s → heap s !! p = Some pk →
  wp (transmit r p)
     (λ r' s',
       if bool_decide (Z.of_nat (length q) = LINK_MAX_PACKETS)
       then r' = dropped r ∧ Inv owned s' ∧ keeps owned s s' ∧ STATS s' = count_free pk (STATS s)
       else r' = enqueued r p (p_length pk) ∧ s' = s) s.
Proof.
  intros Hr Hinv Hp. unfold transmit. rewrite (rep_full _ _ Hr). case_bool_decide as Hd.
  - apply wpx_bind. eapply wpx_mono; [by apply free_wp|]. intros _ s' (? & ? & ?).
    by apply wpx_ret.
  - apply wpx_bind. eapply deref_ok; [done|]. apply wpx_bind, rep_index; [by apply rep_write in Hr|].
    by apply wpx_ret.
Qed.

(** Both cases of [transmit] at once: the queue and the packets in use. *)
Definition queue_tx (q : list loc) (p : loc) : list loc :=
  if bool_decide (Z.of_nat (length q) = LINK_MAX_PACKETS) then q else q ++ [p].

Lemma transmit_queue r q p owned s :
  link_rep r q → Inv (p :: q ++ owned) s →
  wp (transmit r p)
     (λ r' s', link_rep r' (queue_tx q p) ∧ Inv (queue_tx q p ++ owned) s' ∧
               keeps (queue_tx q p ++ owned) s s') s.
Proof.
  intros Hr Hinv. destruct (Inv_head _ _ _ Hinv) as (pk & Hp & _).
  eapply wpx_mono; [by eapply transmit_wp|]. intros r' s'. unfold queue_tx.
  case_bool_decide as Hd.
  - intros (-> & Hi & Hk & _). split_and!; [by apply dropped_rep|done|done].
  - intros (-> & ->). split_and!; [by apply enqueued_rep| |done].
    rewrite <-app_assoc. simpl. by rewrite <-Permutation_middle.
Qed.

Lemma receive_queue r p q owned s :
  link_rep r (p :: q) → Inv (p :: q ++ owned) s →
  wp (receive r) (λ '(p', r') s', p' = p ∧ link_rep r' q ∧ s' = s) s.
Proof.
  intros Hr Hinv. destruct (Inv_head _ _ _ Hinv) as (pk & Hp & _).
  eapply wpx_mono; [by eapply receive_wp|]. intros [p' r'] s' (-> & -> & ->).
  split_and!; [done|by eapply dequeued_rep|done].
Qed.

(** ** Dropping a link *)

(** The statistics after freeing packets [pks], in order. *)
Definition count_frees (pks : list Packet) (st : EngineStats) : EngineStats :=
  foldl (λ st pk, count_free pk st) st pks.

(** Packets [ps] hold [pks]. *)
Definition holds (s : pstate) (ps : list loc) (pks : list Packet) : Prop :=
  Forall2 (λ p pk, heap s !! p = Some pk) ps pks.

Lemma holds_keeps s s' ps pks owned :
  holds s ps pks → keeps owned s s' → ps ⊆ owned → holds s' ps pks.
Proof.
  intros Hh Hk Hsub. induction Hh as [|p pk ps pks Hp Hh IH]; [constructor|].
  constructor; [rewrite Hk; [done|set_solver]|apply IH; set_solver].
Qed.

Lemma keeps_trans owned s1 s2 s3 : keeps owned s1 s2 → keeps owned s2 s3 → keeps owned s1 s3.
Proof. intros H1 H2 p Hp. by rewrite H2, H1. Qed.

Lemma keeps_mono o o' s s' : o ⊆ o' → keeps o' s s' → keeps o s s'.
Proof. intros Hsub Hk p Hp. apply Hk. set_solver. Qed.

Lemma drop_loop_wp fuel : ∀ r q pks owned s,
  link_rep r q → Inv (q ++ owned) s → holds s q pks → (length q ≤ fuel)%nat →
  wp (drop_loop fuel r)
     (λ r' s', link_rep r' [] ∧ Inv owned s' ∧ keeps owned s s' ∧
               STATS s' = count_frees pks (STATS s)) s.
Proof.
  induction fuel as [|fuel IH]; intros r q pks owned s Hr Hinv Hh Hf; simpl;
    rewrite (rep_empty _ _ Hr); case_bool_decide as Hq.
  1, 3: subst q; inversion Hh; subst; by apply wpx_ret.
  { destruct q; [done|]. simpl in Hf. lia. }
  destruct q as [|p q]; [done|]. inversion Hh as [|? pk ? pks' Hp Hh']; subst.
  apply wpx_bind. eapply wpx_mono; [by eapply receive_queue|].
  intros [p' r'] s' (-> & Hr' & ->). apply wpx_bind.
  eapply wpx_mono; [by apply (free_wp (q ++ owned))|]. intros _ s' (Hinv' & Hk & Hst).
  eapply wpx_mono; [apply (IH r' q pks' owned); [done|done| |simpl in Hf; lia]|].
  - eapply holds_keeps; [done|done|set_solver].
  - intros r'' s'' (? & ? & Hk' & ->). rewrite Hst. split_and!; [done|done| |done].
    eapply keeps_trans; [|done]. eapply keeps_mono; [|done]. set_solver.
Qed.

(** ** Sequences of operations: refinement of a bounded FIFO queue *)

Inductive link_op : Type :=
  | Transmit (p : loc)
  | Receive.

(** The specification: what is received, the queue left, what is dropped; or
    nothing, when a packet is received from an empty queue. *)
Fixpoint fifo (ops : list link_op) (q : list loc) : option (list loc * list loc * list loc) :=
  match ops with
  | [] => Some ([], q, [])
  | Transmit p :: ops =>
      if decide (Z.of_nat (length q) < LINK_MAX_PACKETS)
      then fifo ops (q ++ [p])
      else '(rx, q', dr) ← fifo ops q; Some (rx, q', p :: dr)
  | Receive :: ops =>
      match q with
      | [] => None
      | p :: q => '(rx, q', dr) ← fifo ops q; Some (p :: rx, q', dr)
      end
  end.

(** The code: the packets received and the link. *)
Fixpoint run_ops (ops : list link_op) (r : Link) : ST pstate (list loc * Link) :=
  match ops with
  | [] => mret ([], r)
  | Transmit p :: ops => r ← transmit r p; run_ops ops r
  | Receive :: ops =>
      '(p, r) ← receive r;
      '(rx, r) ← run_ops ops r;
      mret (p :: rx, r)
  end.

(** The packets a client hands over. *)
Definition sent (ops : list link_op) : list loc :=
  omap (λ op, match op with Transmit p => Some p | Receive => None end) ops.

(** The queue neither invents nor loses packets. *)
Lemma fifo_perm ops : ∀ q rx q' dr,
  fifo ops q = Some (rx, q', dr) → sent ops ++ q ≡ₚ rx ++ q' ++ dr.
Proof.
  induction ops as [|[p|] ops IH]; intros q rx q' dr H; simpl in *.
  - simplify_eq. simpl. by rewrite app_nil_r.
  - case_decide.
    + apply IH in H. rewrite <-H, app_assoc. by rewrite <-(Permutation_app_comm [p]).
    + destruct (fifo ops q) as [[[rx0 q0] dr0]|] eqn:E; simplify_eq/=.
      apply IH in E. rewrite E, !app_assoc. apply Permutation_middle.
  - destruct q as [|p q]; [done|].
    destruct (fifo ops q) as [[[rx0 q0] dr0]|] eqn:E; simplify_eq/=.
    apply IH in E. rewrite <-E. by rewrite <-Permutation_middle.
Qed.

Lemma fifo_subseteq ops q rx q' dr :
  fifo ops q = Some (rx, q', dr) → rx ++ q' ⊆ sent ops ++ q.
Proof. intros H p. rewrite (fifo_perm _ _ _ _ _ H). set_solver. Qed.

(** [run_ops] does what the queue does. *)
Definition refines (owned : list loc) (s : pstate)
  (spec : option (list loc * list loc * list loc)) (m : ST pstate (list loc * Link)) : Prop :=
  match spec with
  | Some (rx, q', dr) =>
      wp m (λ '(rx', r') s', rx' = rx ∧ link_rep r' q' ∧ Inv (rx ++ q' ++ owned) s' ∧
                             keeps (rx ++ q' ++ owned) s s') s
  | None => m s = Panic "Link underflow."
  end.

Lemma run_ops_refines ops : ∀ r q owned s,
  link_rep r q → Inv (sent ops ++ q ++ owned) s →
  refines owned s (fifo ops q) (run_ops ops r).
Proof.
  induction ops as [|[p|] ops IH]; intros r q owned s Hr Hinv; simpl in *.
  - by apply wpx_ret.
  - pose proof (lr_length _ _ Hr) as Hlen.
    assert (Inv (p :: q ++ sent ops ++ owned) s) as Hinv'.
    { by rewrite (Permutation_app_swap_app q). }
    destruct (wp_returns _ _ _ (transmit_queue _ _ _ _ _ Hr Hinv')) as (r' & s' & Ht & Hr' & Hi & Hk).
    rewrite (Permutation_app_swap_app _ (sent ops)) in Hi.
    assert (refines owned s (fifo ops (queue_tx q p)) (r ← transmit r p; run_ops ops r)) as H.
    { specialize (IH r' _ owned s' Hr' Hi). unfold refines in *.
      destruct (fifo ops (queue_tx q p)) as [[[rx q'] dr]|] eqn:E.
      + apply fifo_subseteq in E. apply wpx_bind. unfold wpx at 1. rewrite Ht.
        eapply wpx_mono; [exact IH|]. intros [rx' r''] s'' (? & ? & ? & Hk').
        split_and!; [done..|]. eapply keeps_trans; [|done]. eapply keeps_mono; [|done]. set_solver.
      + unfold mbind, st_bind. by by rewrite Ht. }
    clear -Hlen H. unfold queue_tx in H.
    destruct (decide (Z.of_nat (length q) < LINK_MAX_PACKETS)).
    { by rewrite bool_decide_eq_false_2 in H by lia. }
    rewrite bool_decide_eq_true_2 in H by lia. by destruct (fifo ops q) as [[[rx q'] dr]|].
  - destruct q as [|p q].
    { unfold mbind, st_bind, receive. by rewrite (rep_empty _ _ Hr). }
    assert (Inv ((p :: q) ++ sent ops ++ owned) s) as Hinv' by (by rewrite Permutation_app_swap_app).
    destruct (wp_returns _ _ _ (receive_queue _ _ _ _ _ Hr Hinv'))
      as ([p' r'] & s' & Ht & -> & Hr' & ->).
    specialize (IH r' q (p :: owned) s Hr').
    assert (Inv (sent ops ++ q ++ p :: owned) s) as Hi by (by rewrite <-(Permutation_middle q)).
    specialize (IH Hi). unfold refines in *. destruct (fifo ops q) as [[[rx q'] dr]|] eqn:E; simpl.
    + apply wpx_bind. unfold wpx at 1. rewrite Ht. apply wpx_bind.
      eapply wpx_mono; [exact IH|]. intros [rx' r''] s'' (-> & ? & Hi' & Hk').
      apply wpx_ret. split_and!; [done|done| |].
      * by rewrite (app_assoc rx), (Permutation_middle (rx ++ q')), <-app_assoc.
      * eapply keeps_mono; [|done]. set_solver.
    + unfold mbind, st_bind. rewrite Ht. unfold wpx in IH. by rewrite IH.
Qed.

(** C10. Any sequence of [transmit] and [receive] on a link does what it does on
    a FIFO queue of capacity 1023: packets come out in the order they went in,
    a packet that does not fit is dropped and goes back to the freelist (no
    packet is leaked or duplicated: the packets in use afterwards are those
    received, those on the link and the caller's own, each once, and they hold
    what they held), and receiving from an empty link panics. *)
Theorem link_refines_fifo ops r q owned s :
  link_rep r q → Inv (sent ops ++ q ++ owned) s →
  refines owned s (fifo ops q) (run_ops ops r) ∧
  ∀ rx q' dr, fifo ops q = Some (rx, q', dr) → sent ops ++ q ≡ₚ rx ++ q' ++ dr.
Proof. intros. split; [by apply run_ops_refines|by apply fifo_perm]. Qed.

Lemma link_refines_fifo_witness :
  ∃ p s, allocate init_pstate = Ok (p, s) ∧
    wp (run_ops [Transmit p; Receive] new)
       (λ '(rx, r') s', rx = [p] ∧ link_rep r' [] ∧ Inv [p] s' ∧ keeps [p] s s') s ∧
    run_ops [Transmit p; Receive; Receive] new s = Panic "Link underflow.".
Proof.
  destruct allocate_init as (p & s & Ha & Hi). exists p, s. split_and!; [done| |].
  - apply (link_refines_fifo [Transmit p; Receive] new [] [] s); [apply new_rep|exact Hi].
  - apply (link_refines_fifo [Transmit p; Receive; Receive] new [] [] s); [apply new_rep|exact Hi].
Defined.

(** [transmit] on a link that is not full appends the packet and counts it
    and its bytes; on a full link it counts a drop and frees the packet.  Both
    counters and cursors are those of the code, wrap-around included. *)
Theorem link_transmit_counts r q p pk owned s :
  link_rep r q → Inv (p :: q ++ owned) s → heap s !! p = Some pk →
  wp (transmit r p)
     (λ r' s',
       if full r
       then link_rep r' q ∧ txdrop r' = u64 (txdrop r + 1) ∧ txpackets r' = txpackets r ∧
            txbytes r' = txbytes r ∧ Inv (q ++ owned) s' ∧ keeps (q ++ owned) s s' ∧
            STATS s' = count_free pk (STATS s)
       else link_rep r' (q ++ [p]) ∧ txdrop r' = txdrop r ∧ txpackets r' = u64 (txpackets r + 1) ∧
            txbytes r' = u64 (txbytes r + p_length pk) ∧ s' = s) s.
Proof.
  intros Hr Hinv Hp. rewrite (rep_full _ _ Hr).
  eapply wpx_mono; [by eapply transmit_wp|]. intros r' s'. case_bool_decide.
  - intros (-> & ? & ? & ?). split_and!; try done. by apply dropped_rep.
  - intros (-> & ->). split_and!; try done. by apply enqueued_rep.
Qed.

Lemma link_transmit_counts_witness :
  ∃ p s pk, allocate init_pstate = Ok (p, s) ∧ heap s !! p = Some pk ∧
    wp (transmit new p)
      (λ r' s', link_rep r' [p] ∧ txdrop r' = 0 ∧ txpackets r' = 1 ∧
                txbytes r' = u64 (0 + p_length pk) ∧ s' = s) s.
Proof.
  destruct allocate_init as (p & s & Ha & Hi). destruct (Inv_head _ _ _ Hi) as (pk & Hp & _).
  exists p, s, pk. split_and!; [done..|].
  exact (link_transmit_counts new [] p pk [] s new_rep Hi Hp).
Defined.

(** Dropping a link frees all packets on it, each once, in order. *)
Theorem link_drop_frees r q pks owned s :
  link_rep r q → Inv (q ++ owned) s → holds s q pks →
  wp (drop r)
     (λ r' s', empty r' = true ∧ Inv owned s' ∧ keeps owned s s' ∧
               STATS s' = count_frees pks (STATS s)) s.
Proof.
  intros Hr Hinv Hh. eapply wpx_mono.
  - eapply drop_loop_wp; [done..|]. apply lr_length in Hr. unfold LINK_MAX_PACKETS, LINK_RING_SIZE in *. lia.
  - intros r' s' (Hr' & ? & ? & ?). split_and!; [|done..]. by rewrite (rep_empty _ _ Hr').
Qed.

Lemma link_drop_frees_witness :
  ∃ p s pk r, allocate init_pstate = Ok (p, s) ∧ link_rep r [p] ∧
    wp (drop r) (λ r' s', empty r' = true ∧ Inv [] s' ∧ keeps [] s s' ∧
                          STATS s' = count_frees [pk] (STATS s)) s.
Proof.
  destruct allocate_init as (p & s & Ha & Hi). destruct (Inv_head _ _ _ Hi) as (pk & Hp & _).
  assert (link_rep (enqueued new p 0) [p]) as Hr by (apply (enqueued_rep new []); [apply new_rep|done]).
  exists p, s, pk, (enqueued new p 0). split_and!; [done..|].
  apply (link_drop_frees _ [p] [pk] [] s); [exact Hr|exact Hi|]. by repeat constructor.
Defined.
