(* ===== verification/Kernel.v ===== *)
(** * The Linux kernel, as the apps see it

    A call of libc is a [Syscall]; what the kernel answers is a parameter, a
    function of all calls the process has made so far ([Kernel]).  What the
    apps rely on of the manual pages is stated in [KernelLaws]. *)

From S2P Require Import Prelude Bytes.
#[local] Open Scope Z_scope.

Inductive Syscall : Type :=
  | If_nametoindex (ifname : string)
  | Socket
  | Bind (sock index : Z)
  | Select_read (fd : Z)
  | Select_write (fd : Z)
  | Read (fd : Z) (count : Z)
  | Write (fd : Z) (buf : bytes)
  | Open (path : string)
  | Ftruncate (fd : Z) (length : Z)
  | Mmap (fd : Z) (length : Z)
  | Munmap (map : positive)
  | Close (fd : Z)
  | Getpid
  | Mkdir (path : string)
  | Mount (target fstype : string) (remount : bool)
  | Mlock (addr length : Z)
  | Mmap_fixed (addr length fd : Z)
  | Munmap_at (addr length : Z)
  | Unlink (path : string)
  | Pread (fd count offset : Z)
  | Getrandom (count : Z).

(** The value of the call, errno afterwards, and the bytes behind a pointer:
    what read(2) stored, or what is in the memory of mmap(2). *)
Record SysRet : Type := mkSysRet { ret : Z; errno : Z; data : bytes }.

(** [answer h] answers the first call of the history [h], the last one first.
    [retries] bounds how often in a row a call is interrupted. *)
Class Kernel : Type := {
  answer : list Syscall → SysRet;
  retries : nat;
}.

(** std::ffi::CString::new fails on strings with a NUL. *)
Definition has_nul (s : string) : bool :=
  existsb (λ c, Ascii.eqb c Ascii.zero) (String.list_ascii_of_string s).

Definition EINTR : Z := 4.
Definition EAGAIN : Z := 11.

(** while ret == -1 && (err == libc::EAGAIN || err == libc::EINTR) *)
Definition interrupted (r : SysRet) : bool :=
  (ret r =? -1) && ((errno r =? EAGAIN) || (errno r =? EINTR)).

(** What the manual pages say: a call is not interrupted for ever; read(2)
    stores as many bytes as it returns, at most [count].  [frame] holds of the
    frames that network devices deliver. *)
Class KernelLaws `{Kernel} (frame : bytes → Prop) : Prop := {
  select_ends : ∀ h c, ∃ k, (k ≤ retries)%nat ∧ interrupted (answer (replicate (S k) c ++ h)) = false;
  read_stores : ∀ h fd n, 0 < ret (answer (Read fd n :: h)) →
    let r := answer (Read fd n :: h) in
    ret r ≤ n ∧ Z.of_nat (length (data r)) = ret r ∧ are_bytes (data r);
  read_frame : ∀ h fd n, 0 < ret (answer (Read fd n :: h)) → frame (data (answer (Read fd n :: h)));
}.

Lemma kernel_laws_mono `{Kernel} (good good' : bytes → Prop) :
  (∀ bs, good bs → good' bs) → KernelLaws good → KernelLaws good'.
Proof. intros Hg [Hs Hr Hf]. split; [exact Hs|exact Hr|]. intros. by apply Hg, Hf. Qed.

(** getrandom(2) fills a buffer with as many bytes as it returns. *)
Class RandomLaws `{Kernel} : Prop := {
  getrandom_fills : ∀ h n,
    let r := answer (Getrandom n :: h) in
    0 ≤ ret r → Z.of_nat (length (data r)) = ret r ∧ are_bytes (data r)
}.

(** What was written, to whatever file, since the process started; the last
    first. *)
Fixpoint written (h : list Syscall) : list bytes :=
  match h with
  | [] => []
  | Write _ buf :: h => buf :: written h
  | _ :: h => written h
  end.

(** ** A kernel to try: two frames arrive, and everything is sent *)

Definition sample_frame : bytes := replicate 60 8.

Definition arrived (h : list Syscall) : Z :=
  Z.of_nat (length (List.filter (λ c, match c with Read _ _ => true | _ => false end) h)).

Definition sample_kernel : Kernel := {|
  answer h :=
    match h with
    | Select_read _ :: h' => mkSysRet (if arrived h' <? 2 then 1 else 0) 0 []
    | Select_write _ :: _ => mkSysRet 1 0 []
    | Read _ n :: _ => if 60 <=? n then mkSysRet 60 0 sample_frame else mkSysRet 0 0 []
    | Write _ buf :: _ => mkSysRet (Z.of_nat (length buf)) 0 []
    | Mmap _ n :: _ => if 0 <=? n then mkSysRet 1 0 (replicate (Z.to_nat n) 0) else mkSysRet (-1) 12 []
    | If_nametoindex _ :: _ => mkSysRet 1 0 []
    | Socket :: _ => mkSysRet 3 0 []
    | Open _ :: _ => mkSysRet 4 0 []
    | Getrandom n :: _ => if 0 <=? n then mkSysRet n 0 (replicate (Z.to_nat n) 4) else mkSysRet (-1) 22 []
    | _ => mkSysRet 0 0 []
    end;
  retries := 0
|}.

Lemma sample_kernel_laws (good : bytes → Prop) : good sample_frame → KernelLaws (H := sample_kernel) good.
Proof.
  intros Hg. split.
  - intros h c. exists O. split; [done|]. simpl. destruct c; try done; cbn.
    + by destruct (arrived h <? 2).
    + by destruct (60 <=? count).
    + unfold interrupted. simpl. by destruct (Z.eqb_spec (Z.of_nat (length buf)) (-1)); [lia|].
    + by destruct (0 <=? length).
    + unfold interrupted. destruct (Z.leb_spec 0 count); [|done]. simpl. by destruct (Z.eqb_spec count (-1)); [lia|].
  - intros h fd n. simpl. destruct (Z.leb_spec 60 n); simpl; [|lia]. intros _. split_and!; [lia|done|].
    by_compute.
  - intros h fd n. simpl. destruct (Z.leb_spec 60 n); simpl; [done|lia].
Qed.

Lemma sample_random_laws : RandomLaws (H := sample_kernel).
Proof.
  split. intros h n. simpl. destruct (Z.leb_spec 0 n); simpl; [|lia].
  rewrite length_replicate. split; [lia|]. by apply Forall_replicate.
Qed.
