(* ===== verification/Memory.v ===== *)
(** * memory.rs: memory for DMA from huge pages

    Allocations are cut from huge pages ([Chunk]s), one after the other.  The
    pages come from the kernel, at an address that tells the physical one. *)

From Stdlib Require Import Ascii.
From S2P Require Import Prelude Bytes Lib Kernel.
#[local] Open Scope Z_scope.

Record Chunk : Type := mkChunk { pointer : Z; size : Z; used : Z }.

(** The statics CHUNKS and HUGE_PAGE_SIZE, and the calls of libc so far. *)
Record DMA : Type := mkDMA {
  CHUNKS : list Chunk;
  HUGE_PAGE_SIZE : option Z;
  calls : list Syscall
}.
Definition init_dma : DMA := mkDMA [] None [].

Definition set_chunks (cs : list Chunk) (m : DMA) : DMA := mkDMA cs (HUGE_PAGE_SIZE m) (calls m).

(** ** The size of huge pages *)

(** A literal at the start of a string. *)
Fixpoint after (l s : string) : option string :=
  match l, s with
  | EmptyString, _ => Some s
  | String c l, String c' s => if Ascii.eqb c c' then after l s else None
  | String _ _, EmptyString => None
  end.

(** The longest prefix of a class of characters, and the rest. *)
Fixpoint prefix_of (f : ascii → bool) (s : string) : string * string :=
  match s with
  | String c s' => if f c then let '(a, b) := prefix_of f s' in (String c a, b) else (EmptyString, s)
  | EmptyString => (EmptyString, EmptyString)
  end.

(** Hugepagesize: +([0-9]+) kB at the start of a string. *)
Definition match_size (s : string) : option string :=
  s ← after "Hugepagesize:" s;
  let '(spaces, s) := prefix_of (λ c, Ascii.eqb c " ") s in
  let '(digits, s) := prefix_of is_digit s in
  match spaces, digits with
  | EmptyString, _ | _, EmptyString => None
  | _, _ => _ ← after " kB" s; Some digits
  end.

(** re.captures(&meminfo): the leftmost match. *)
Fixpoint captures (s : string) : option string :=
  match match_size s with
  | Some d => Some d
  | None => match s with EmptyString => None | String _ s => captures s end
  end.

(** parse::<usize>(), of digits. *)
Fixpoint decimal (acc : Z) (s : string) : Z :=
  match s with
  | EmptyString => acc
  | String c s => decimal (10 * acc + (Z.of_nat (nat_of_ascii c) - 48)) s
  end.
Definition parse_usize (s : string) : outcome Z :=
  let n := decimal 0 s in
  if n <? 18446744073709551616 then Ok n else Panic "called `Result::unwrap()` on an `Err` value".

Section memory.
(** The contents of /proc/meminfo, if it can be read. *)
Context `{Kernel} (meminfo : option string).

Definition call (c : Syscall) : ST DMA SysRet := λ m,
  Ok (answer (c :: calls m), mkDMA (CHUNKS m) (HUGE_PAGE_SIZE m) (c :: calls m)).

Definition get_huge_page_size : outcome Z :=
  meminfo ← unwrap "called `Result::unwrap()` on an `Err` value" meminfo;
  match captures meminfo with
  | Some digits => n ← parse_usize digits; Ok (u64 (n * 1024))
  | None => Panic "Failed to get hugepage size"
  end.

Definition huge_page_size : ST DMA Z :=
  m ← get;
  match HUGE_PAGE_SIZE m with
  | Some size => mret size
  | None =>
      size ← lift get_huge_page_size;
      put (mkDMA (CHUNKS m) (Some size) (calls m));;
      mret size
  end.

(** ** Huge pages from Linux *)

Definition TAG : Z := 0x500000000000.

Definition virtual_to_physical (virt_addr : Z) : outcome Z :=
  assert "Invalid DMA address" (Z.land virt_addr TAG =? TAG);;
  Ok (Z.lxor virt_addr TAG).

(** ffi::CString::new(s).expect("cstr failed") *)
Definition cstr (s : string) : outcome string := assert "cstr failed" (negb (has_nul s));; Ok s.

Definition hugetlbfs : string := "/var/run/rush/hugetlbfs".

Definition ensure_hugetlbfs : ST DMA () :=
  call (Mkdir "/var/run/rush");;
  call (Mkdir hugetlbfs);;
  r ← call (Mount hugetlbfs "hugetlbfs" true);
  if ret r =? 0 then mret tt
  else
    r ← call (Mount hugetlbfs "hugetlbfs" false);
    lift (assert "failed to (re)mount /var/run/rush/hugetlbfs" (ret r =? 0)).

Definition resolve_physical (ptr : Z) : ST DMA Z :=
  let pagesize := 4096 in
  let virtpage := ptr / pagesize in
  fd ← call (Open "/proc/self/pagemap");
  lift (assert "Failed to open /proc/self/pagemap" (0 <=? ret fd));;
  r ← call (Pread (ret fd) 8 (virtpage * 8));
  lift (assert "assertion failed" (ret r =? 8));;
  call (Close (ret fd));;
  let data := le_val (data r) in
  lift (assert "page not present" (negb (Z.land data (Z.shiftl 1 63) =? 0)));;
  let physpage := Z.land data 0xFFFFFFFFFFFFF in
  mret (u64 (physpage * pagesize)).

(** Addresses are u64: MAP_FAILED is -1. *)
Definition allocate_huge_page (size : Z) : ST DMA Z :=
  ensure_hugetlbfs;;
  pid ← call Getpid;
  tmpfile ← lift (cstr ("/var/run/rush/hugetlbfs/alloc." +:+ pretty (ret pid)));
  fd ← call (Open tmpfile);
  lift (assert "create hugetlb" (0 <=? ret fd));;
  r ← call (Ftruncate (ret fd) size);
  lift (assert "ftruncate" (ret r =? 0));;
  r ← call (Mmap (ret fd) size);
  lift (assert "mmap hugetlb" (negb (ret r =? -1)));;
  let tmpptr := u64 (ret r) in
  r ← call (Mlock tmpptr size);
  lift (assert "mlock" (ret r =? 0));;
  phys ← resolve_physical tmpptr;
  let virt := Z.lor phys TAG in
  ptr ← call (Mmap_fixed virt size (ret fd));
  call (Unlink tmpfile);;
  call (Munmap_at tmpptr size);;
  call (Close (ret fd));;
  mret (u64 (ret ptr)).

(** catch_unwind: whatever panic is replaced by one. *)
Definition allocate_hugetlb_chunk : ST DMA Z := λ m,
  match (size ← huge_page_size; allocate_huge_page size) m with
  | Panic _ => Panic "Failed to allocate a huge page for DMA"
  | o => o
  end.

(** ** Allocation *)

Definition allocate_next_chunk : ST DMA () :=
  ptr ← allocate_hugetlb_chunk;
  size ← huge_page_size;
  modify (λ m, set_chunks (CHUNKS m ++ [mkChunk ptr size 0]) m).

(** CHUNKS.last_mut().unwrap() *)
Definition last_chunk : ST DMA Chunk :=
  m ← get; lift (unwrap "called `Option::unwrap()` on a `None` value" (last (CHUNKS m))).
Definition set_last (c : Chunk) : ST DMA () :=
  modify (λ m, set_chunks (<[(length (CHUNKS m) - 1)%nat := c]> (CHUNKS m)) m).

Definition dma_alloc (bytes alignment : Z) : ST DMA Z :=
  hps ← huge_page_size;
  lift (assert "assertion failed: bytes <= huge_page_size()" (bytes <=? hps));;
  m ← get;
  (if (length (CHUNKS m) =? 0)%nat then allocate_next_chunk else mret tt);;
  chunk ← last_chunk;
  aligned ← lift (align (used chunk) alignment);
  set_last (mkChunk (pointer chunk) (size chunk) aligned);;
  (if u64 (aligned + bytes) >? size chunk then allocate_next_chunk else mret tt);;
  chunk ← last_chunk;
  let offset := used chunk in
  set_last (mkChunk (pointer chunk) (size chunk) (u64 (used chunk + bytes)));;
  mret (u64 (pointer chunk + offset)).

(** Any number of allocations. *)
Fixpoint dma_allocs (reqs : list (Z * Z)) : ST DMA (list Z) :=
  match reqs with
  | [] => mret []
  | (bytes, alignment) :: reqs =>
      p ← dma_alloc bytes alignment;
      ps ← dma_allocs reqs;
      mret (p :: ps)
  end.
End memory.

(** ** What is promised *)

(** Any panic may happen: pages may be refused. *)
Definition any_panic (_ : string) : Prop := True.

Lemma wpx_require {S A} msg (b : bool) (k : () → ST S A) Φ (s : S) :
  (b = true → wpx any_panic (k tt) Φ s) → wpx any_panic (x ← lift (assert msg b); k x) Φ s.
Proof. intros Hk. destruct b; [by apply Hk|done]. Qed.

Section memory.
Context `{Kernel} (meminfo : option string) (hps : Z).
Context (Hhps : get_huge_page_size meminfo = Ok hps) (Hrange : 0 ≤ hps < 2 ^ 62).

(** The chunks are as before; the size of pages is known, or not yet. *)
Definition sized (m : DMA) : Prop := HUGE_PAGE_SIZE m = None ∨ HUGE_PAGE_SIZE m = Some hps.
Definition same_chunks (m m' : DMA) : Prop := CHUNKS m' = CHUNKS m ∧ sized m'.

Lemma huge_page_size_wp m Φ :
  sized m → (∀ m', same_chunks m m' → Φ hps m') → wpx any_panic (huge_page_size meminfo) Φ m.
Proof.
  intros Hm HΦ. unfold huge_page_size. apply wpx_bind, wpx_get. destruct Hm as [Hm|Hm]; rewrite Hm.
  - apply wpx_bind. eapply wpx_lift; [exact Hhps|]. apply wpx_bind, wpx_put, wpx_ret, HΦ. by split; [|right].
  - apply wpx_ret, HΦ. by split; [|right].
Qed.

Lemma kernel_call_wp c m Φ : (∀ r m', same_chunks m m' → Φ r m') → sized m → wpx any_panic (call c) Φ m.
Proof. intros HΦ Hs. unfold wpx, call. apply HΦ. by split. Qed.

#[local] Opaque call.

Ltac calls :=
  repeat first
    [ apply wpx_bind; apply kernel_call_wp; [|assumption]; let Hc := fresh "Hc" in let Hs := fresh "Hs" in
      intros ? ? [Hc Hs]; cbv beta
    | apply wpx_require; intros _ ].

Lemma ensure_wp m Φ : sized m → (∀ m', same_chunks m m' → Φ tt m') → wpx any_panic ensure_hugetlbfs Φ m.
Proof.
  intros Hm HΦ. unfold ensure_hugetlbfs. calls. destruct (_ =? 0).
  - apply wpx_ret, HΦ. split; [congruence|done].
  - calls. destruct (_ =? 0); [|done]. eapply wpx_lift; [done|]. apply HΦ. split; [congruence|done].
Qed.

Lemma resolve_wp p m Φ : sized m → (∀ x m', same_chunks m m' → Φ x m') → wpx any_panic (resolve_physical p) Φ m.
Proof. intros Hm HΦ. unfold resolve_physical. calls. apply wpx_ret, HΦ. split; [congruence|done]. Qed.

Lemma allocate_huge_page_wp n m Φ :
  sized m → (∀ p m', is_u64 p → same_chunks m m' → Φ p m') → wpx any_panic (allocate_huge_page n) Φ m.
Proof.
  intros Hm HΦ. unfold allocate_huge_page. apply wpx_bind, ensure_wp; [done|]. intros m1 [Hc1 Hs1]. calls.
  unfold cstr. apply wpx_bind. destruct (negb (has_nul _)); [|done]. eapply wpx_lift; [done|]. calls.
  apply wpx_bind, resolve_wp; [done|]. intros x mr [Hcr Hsr]. calls. apply wpx_ret, HΦ; [apply u64_range|].
  split; [congruence|done].
Qed.

(** *** Placements *)

(** An allocation: the page, the offset in it, and the length. *)
Definition placement : Type := nat * Z * Z.
Definition apart (a b : placement) : Prop :=
  let '(i, off, len) := a in let '(j, off', len') := b in i ≠ j ∨ off + len ≤ off' ∨ off' + len' ≤ off.

(** Allocations do not overlap, and are in the used part of their pages. *)
Record placed (pl : list placement) (m : DMA) : Prop := {
  pd_sized : sized m;
  pd_size : Forall (λ c, size c = hps ∧ 0 ≤ used c) (CHUNKS m);
  pd_apart : ForallOrdPairs apart pl;
  pd_used : ∀ i off len, (i, off, len) ∈ pl → ∃ c, CHUNKS m !! i = Some c ∧ 0 ≤ off ∧ 0 ≤ len ∧ off + len ≤ used c ∧ off + len ≤ hps;
}.

(** Between allocations, the page that serves the next one is within bounds. *)
Definition settled (m : DMA) : Prop := ∀ c, last (CHUNKS m) = Some c → used c ≤ hps.

Lemma init_placed : placed [] init_dma.
Proof. split; [by left|constructor|constructor|]. by intros i off len ?%not_elem_of_nil. Qed.

(** Pages are added at the end and stay where they are. *)
Definition extends (m m' : DMA) : Prop := (pointer <$> CHUNKS m) `prefix_of` (pointer <$> CHUNKS m').

#[export] Instance extends_preorder : PreOrder extends.
Proof. split; [intros m; unfold extends; reflexivity|]. intros m1 m2 m3 H1 H2. unfold extends in *. by etrans. Qed.

Lemma placed_same pl m m' : placed pl m → same_chunks m m' → placed pl m' ∧ extends m m'.
Proof.
  intros [Hs Hsz Ha Hu] [Hc Hs']. unfold extends. rewrite Hc. split; [|done]. split; rewrite ?Hc; try done.
Qed.

Lemma next_chunk_wp pl m :
  placed pl m →
  wpx any_panic (allocate_next_chunk meminfo) (λ _ m', placed pl m' ∧ extends m m' ∧ ∃ p, last (CHUNKS m') = Some (mkChunk p hps 0)) m.
Proof.
  intros [Hs Hsz Ha Hu]. unfold allocate_next_chunk. apply wpx_bind. unfold allocate_hugetlb_chunk.
  assert (wpx any_panic (n ← huge_page_size meminfo; allocate_huge_page n) (λ p m', same_chunks m m') m) as Halloc.
  { apply wpx_bind, huge_page_size_wp; [done|]. intros m1 [Hc1 Hs1]. apply allocate_huge_page_wp; [done|].
    intros p m2 _ [Hc2 Hs2]. split; [congruence|done]. }
  unfold wpx at 1. unfold wpx in Halloc.
  destruct ((n ← huge_page_size meminfo; allocate_huge_page n) m) as [[p m1]| | |]; try done.
  destruct Halloc as [Hc1 Hs1]. apply wpx_bind, huge_page_size_wp; [done|]. intros m2 [Hc2 Hs2].
  apply wpx_modify. unfold extends. cbn [CHUNKS set_chunks]. rewrite Hc2, Hc1. split_and!.
  - split; cbn [CHUNKS set_chunks]; [exact Hs2| |done|].
    + apply Forall_app. split; [done|]. constructor; [simpl; lia|constructor].
    + intros i off len Hin. destruct (Hu i off len Hin) as (c & Hc & Hr). exists c.
      split; [by apply lookup_app_l_Some|done].
  - rewrite fmap_app. by apply prefix_app_r.
  - exists p. apply last_snoc.
Qed.

Definition with_used (u : Z) (c : Chunk) : Chunk := mkChunk (pointer c) (size c) u.

(** The last page is used further. *)
Lemma set_last_wp pl m c u :
  placed pl m → last (CHUNKS m) = Some c → used c ≤ u →
  wpx any_panic (set_last (with_used u c)) (λ _ m', placed pl m' ∧ extends m m' ∧
    last (CHUNKS m') = Some (with_used u c) ∧ length (CHUNKS m') = length (CHUNKS m)) m.
Proof.
  intros [Hs Hsz Ha Hu] Hc Hle. unfold set_last. apply wpx_modify. unfold extends. cbn [CHUNKS set_chunks].
  rewrite last_lookup in Hc. replace (Nat.pred (length (CHUNKS m))) with (length (CHUNKS m) - 1)%nat in Hc by lia.
  pose proof (lookup_lt_Some _ _ _ Hc) as Hlt. pose proof (Forall_lookup_1 _ _ _ _ Hsz Hc) as [Hs1 Hs2].
  split_and!.
  - split; cbn [CHUNKS set_chunks]; [exact Hs| |done|].
    + apply Forall_insert; [done|]. simpl. lia.
    + intros i off len Hin. destruct (Hu i off len Hin) as (c' & Hc' & Hr).
      destruct (decide (i = length (CHUNKS m) - 1)%nat) as [->|Hne].
      * exists (with_used u c). rewrite list_lookup_insert_eq by done. split; [done|]. simplify_eq. simpl. lia.
      * exists c'. by rewrite list_lookup_insert_ne.
  - rewrite list_fmap_insert. simpl. rewrite list_insert_id; [done|]. by rewrite list_lookup_fmap, Hc.
  - rewrite last_lookup, length_insert.
    replace (Nat.pred (length (CHUNKS m))) with (length (CHUNKS m) - 1)%nat by lia. by apply list_lookup_insert_eq.
  - apply length_insert.
Qed.

Lemma last_chunk_wp m c (Φ : Chunk → DMA → Prop) : last (CHUNKS m) = Some c → Φ c m → wpx any_panic last_chunk Φ m.
Proof. intros Hc HΦ. unfold last_chunk. apply wpx_bind, wpx_get. eapply wpx_lift; [|exact HΦ]. by rewrite Hc. Qed.

(** The pages have one that serves the allocation. *)
Lemma first_chunk_wp pl m :
  placed pl m → settled m →
  wpx any_panic (if (length (CHUNKS m) =? 0)%nat then allocate_next_chunk meminfo else mret tt)
    (λ _ m', placed pl m' ∧ extends m m' ∧ ∃ c, last (CHUNKS m') = Some c ∧ 0 ≤ used c ≤ hps ∧ size c = hps) m.
Proof.
  intros Hp Hl. destruct (Nat.eqb_spec (length (CHUNKS m)) 0) as [H0|H0].
  - eapply wpx_mono; [by apply next_chunk_wp|]. intros [] m' (Hp' & Hx & p & Hc).
    split_and!; [done|done|]. exists (mkChunk p hps 0). split; [done|]. simpl. lia.
  - apply wpx_ret. destruct (last (CHUNKS m)) as [c|] eqn:Hc.
    + split_and!; [done|reflexivity|]. exists c. split; [done|]. pose proof (Hl c Hc).
      rewrite last_lookup in Hc. pose proof (Forall_lookup_1 _ _ _ _ (pd_size _ _ Hp) Hc) as [? ?]. lia.
    + apply last_None in Hc. by rewrite Hc in H0.
Qed.

(** An allocation: its placement, its page, and its alignment in the page. *)
Definition allocated (bytes alignment p : Z) (m : DMA) (a : placement) : Prop := ∃ i off ptr,
  a = (i, off, bytes) ∧ (pointer <$> CHUNKS m) !! i = Some ptr ∧ p = u64 (ptr + off) ∧ off mod alignment = 0.

Lemma allocated_extends bytes alignment p m m' a : allocated bytes alignment p m a → extends m m' → allocated bytes alignment p m' a.
Proof.
  intros (i & off & ptr & -> & Hi & Hp & Ha) Hx. exists i, off, ptr. split_and!; try done.
  by eapply prefix_lookup_Some.
Qed.

(** The memory is sliced out of the last page. *)
Lemma slice_wp pl m c bytes alignment :
  placed pl m → last (CHUNKS m) = Some c → 0 ≤ used c → 0 ≤ bytes → used c + bytes ≤ hps → used c mod alignment = 0 →
  wpx any_panic (set_last (with_used (u64 (used c + bytes)) c);; mret (u64 (pointer c + used c)))
    (λ p m', ∃ a, placed (a :: pl) m' ∧ settled m' ∧ extends m m' ∧ allocated bytes alignment p m' a) m.
Proof.
  intros Hp Hc H0 Hb Hle Hal. rewrite (u64_id (used c + bytes)) by (unfold is_u64; change (2 ^ 62) with 4611686018427387904 in Hrange; lia).
  apply wpx_bind. eapply wpx_mono; [apply (set_last_wp pl m c); [done|done|lia]|].
  intros [] m' ([Hs Hsz Ha Hu] & Hx & Hc' & Hlen). apply wpx_ret.
  set (i := (length (CHUNKS m) - 1)%nat). exists (i, used c, bytes).
  assert (CHUNKS m' !! i = Some (with_used (used c + bytes) c)) as Hi.
  { rewrite last_lookup, Hlen in Hc'. unfold i. by replace (length (CHUNKS m) - 1)%nat with (Nat.pred (length (CHUNKS m))) by lia. }
  split_and!; [| |done|].
  - split; [done|done| |].
    + constructor; [|done]. apply Forall_forall. intros [[j off] len] Hin. simpl.
      destruct (decide (i = j)) as [<-|]; [|by left]. right. right.
      destruct (pd_used _ _ Hp i off len Hin) as (c0 & Hc0 & _ & _ & Hle0 & _).
      rewrite last_lookup in Hc. unfold i in Hc0.
      replace (length (CHUNKS m) - 1)%nat with (Nat.pred (length (CHUNKS m))) in Hc0 by lia. by simplify_eq.
    + intros j off len [Heq|Hin]%elem_of_cons; [|by apply Hu]. injection Heq as -> -> ->.
      exists (with_used (used c + bytes) c). simpl. split; [done|lia].
  - intros c0 Hc0. rewrite Hc' in Hc0. injection Hc0 as <-. done.
  - exists i, (used c), (pointer c). split_and!; [done| |done|done]. by rewrite list_lookup_fmap, Hi.
Qed.

Lemma dma_alloc_wp pl m bytes alignment :
  placed pl m → settled m → 0 ≤ bytes → 0 < alignment < 2 ^ 62 →
  wpx any_panic (dma_alloc meminfo bytes alignment)
    (λ p m', ∃ a, placed (a :: pl) m' ∧ settled m' ∧ extends m m' ∧ allocated bytes alignment p m' a) m.
Proof.
  intros Hp Hl Hb Hal. unfold dma_alloc. change (2 ^ 62) with 4611686018427387904 in *.
  apply wpx_bind, huge_page_size_wp; [apply Hp|]. intros m1 Hm1. destruct (placed_same _ _ _ Hp Hm1) as [Hp1 Hx1].
  assert (settled m1) as Hl1 by (intros c; rewrite (proj1 Hm1); apply Hl).
  apply wpx_require. intros Hbh%Z.leb_le. apply wpx_bind, wpx_get, wpx_bind.
  eapply wpx_mono; [by apply first_chunk_wp|]. intros [] m2 (Hp2 & Hx2 & c & Hc & Hu & Hsz).
  apply wpx_bind. eapply last_chunk_wp; [exact Hc|].
  destruct (align_spec (used c) alignment) as (al & Hal1 & Hal2 & Hal3); [lia|lia|change (2 ^ 64) with 18446744073709551616; lia|].
  apply wpx_bind. eapply wpx_lift; [exact Hal1|].
  apply wpx_bind. eapply wpx_mono; [apply (set_last_wp pl m2 c al); [done|done|lia]|].
  intros [] m3 (Hp3 & Hx3 & Hc3 & _). rewrite u64_id by (unfold is_u64; lia).
  assert (extends m m3) as Hx by (etrans; [exact Hx1|by etrans]).
  apply wpx_bind. rewrite Hsz. destruct (Z.gtb_spec (al + bytes) hps) as [Hgt|Hfit].
  - eapply wpx_mono; [by apply next_chunk_wp|]. intros [] m4 (Hp4 & Hx4 & p & Hc4).
    apply wpx_bind. eapply last_chunk_wp; [exact Hc4|].
    eapply wpx_mono; [apply (slice_wp pl m4 (mkChunk p hps 0) bytes alignment); simpl; [done|done|lia|lia|lia|by apply Z.mod_0_l; lia]|].
    intros q m5 (a & ? & ? & Hx5 & ?). exists a. split_and!; [done|done| |done]. etrans; [exact Hx|]. by etrans.
  - apply wpx_ret. apply wpx_bind. eapply last_chunk_wp; [exact Hc3|].
    eapply wpx_mono; [apply (slice_wp pl m3 (with_used al c) bytes alignment); simpl; [done|done|lia|lia|lia|done]|].
    intros q m5 (a & ? & ? & Hx5 & ?). exists a. split_and!; [done|done| |done]. by etrans.
Qed.

(** *** Sequences of allocations *)

Lemma dma_allocs_wp reqs : ∀ pl m,
  placed pl m → settled m → Forall (λ r, 0 ≤ r.1 ∧ 0 < r.2 < 2 ^ 62) reqs →
  wpx any_panic (dma_allocs meminfo reqs) (λ ps m', ∃ as_, placed (reverse as_ ++ pl) m' ∧ settled m' ∧ extends m m' ∧
    Forall3 (λ r p a, allocated r.1 r.2 p m' a) reqs ps as_) m.
Proof.
  induction reqs as [|[bytes alignment] reqs IH]; intros pl m Hp Hl Hr.
  - apply wpx_ret. exists []. split_and!; [done|done|reflexivity|constructor].
  - apply Forall_cons in Hr as [[Hb Ha] Hr]. simpl in Hb, Ha. simpl. apply wpx_bind.
    eapply wpx_mono; [by apply dma_alloc_wp|]. intros p m1 (a & Hp1 & Hl1 & Hx1 & Ha1).
    apply wpx_bind. eapply wpx_mono; [by apply IH|]. intros ps m2 (as_ & Hp2 & Hl2 & Hx2 & Hf).
    apply wpx_ret. exists (a :: as_). rewrite reverse_cons, <-app_assoc. split_and!; [done|done|by etrans|].
    constructor; [|done]. by eapply allocated_extends.
Qed.
End memory.

Lemma apart_sym a b : apart a b → apart b a.
Proof. destruct a as [[i off] len], b as [[j off'] len']. simpl. naive_solver. Qed.

Lemma pairs_lookup {A} (R : A → A → Prop) (l : list A) i j x y :
  ForallOrdPairs R l → (i < j)%nat → l !! i = Some x → l !! j = Some y → R x y.
Proof.
  intros Hl. revert i j. induction Hl as [|z l Hz _ IH]; intros i j Hij Hi Hj; [done|].
  destruct j as [|j]; [lia|]. simpl in Hj. destruct i as [|i]; simpl in Hi.
  - injection Hi as <-. rewrite Forall_forall in Hz. apply Hz. by eapply list_elem_of_lookup_2.
  - eapply IH; [|done..]. lia.
Qed.

Lemma apart_reverse (l : list placement) i j x y :
  ForallOrdPairs apart (reverse l) → i ≠ j → l !! i = Some x → l !! j = Some y → apart x y.
Proof.
  intros Hl Hij Hi Hj. pose proof (lookup_lt_Some _ _ _ Hi). pose proof (lookup_lt_Some _ _ _ Hj).
  assert (∀ k z, l !! k = Some z → reverse l !! (length l - S k)%nat = Some z) as Hrev.
  { intros k z Hk. pose proof (lookup_lt_Some _ _ _ Hk). rewrite <-Hk.
    rewrite <-(reverse_involutive l) at 3. symmetry. rewrite reverse_lookup by (rewrite length_reverse; lia).
    by rewrite length_reverse. }
  destruct (decide (i < j)%nat).
  - apply apart_sym. eapply pairs_lookup; [exact Hl| |by apply Hrev|by apply Hrev]. lia.
  - eapply pairs_lookup; [exact Hl| |by apply Hrev|by apply Hrev]. lia.
Qed.

(** The kernel maps pages to different addresses. *)
Definition pages_apart (cs : list Chunk) : Prop :=
  (∀ c, c ∈ cs → 0 ≤ pointer c ∧ pointer c + size c < 2 ^ 64) ∧
  ∀ i j c c', i ≠ j → cs !! i = Some c → cs !! j = Some c' →
    pointer c + size c ≤ pointer c' ∨ pointer c' + size c' ≤ pointer c.

(** C39. dma_alloc gives out memory once.  Whatever is allocated in sequence, each
    piece of memory lies within one huge page, at an offset that is a multiple
    of the alignment, and no two pieces overlap, as long as the kernel maps
    different pages at different addresses; a panic (no page to be had, more
    than a page asked for) is the only other outcome. *)
Theorem dma_alloc_disjoint `{Kernel} meminfo hps reqs :
  get_huge_page_size meminfo = Ok hps → 0 ≤ hps < 2 ^ 62 →
  Forall (λ r, 0 ≤ r.1 ∧ 0 < r.2 < 2 ^ 62) reqs →
  wpx any_panic (dma_allocs meminfo reqs) (λ ps m', length ps = length reqs ∧
    (pages_apart (CHUNKS m') →
     (∀ k r p, reqs !! k = Some r → ps !! k = Some p → ∃ c, c ∈ CHUNKS m' ∧
        pointer c ≤ p ∧ p + r.1 ≤ pointer c + size c ∧ (p - pointer c) mod r.2 = 0) ∧
     (∀ j k r r' p p', j ≠ k → reqs !! j = Some r → reqs !! k = Some r' → ps !! j = Some p → ps !! k = Some p' →
        p + r.1 ≤ p' ∨ p' + r'.1 ≤ p))) init_dma.
Proof.
  intros Hh Hr Hreqs. eapply wpx_mono; [by apply (dma_allocs_wp meminfo hps Hh Hr reqs [] init_dma); [apply init_placed|..]|].
  intros ps m' (as_ & Hp & _ & _ & Hf). rewrite app_nil_r in Hp. split; [symmetry; by eapply Forall3_length_lm|].
  intros [Hpg Hap].
  assert (∀ k r p, reqs !! k = Some r → ps !! k = Some p → ∃ i off c, as_ !! k = Some (i, off, r.1) ∧
    CHUNKS m' !! i = Some c ∧ p = pointer c + off ∧ 0 ≤ off ∧ 0 ≤ r.1 ∧ off + r.1 ≤ size c ∧ off mod r.2 = 0) as Hk.
  { intros k r p Hkr Hkp. destruct (Forall3_lookup_l _ _ _ _ _ _ Hf Hkr) as (p0 & a & Hkp' & Hka & (i & off & ptr & -> & Hi & -> & Hm)).
    assert (p = u64 (ptr + off)) as -> by congruence. exists i, off.
    destruct (pd_used _ _ _ Hp i off r.1) as (c & Hc & Ho & Hlen & _ & Hle).
    { apply elem_of_reverse. by eapply list_elem_of_lookup_2. }
    rewrite list_lookup_fmap, Hc in Hi. injection Hi as <-.
    pose proof (Forall_lookup_1 _ _ _ _ (pd_size _ _ _ Hp) Hc) as [Hsz _].
    destruct (Hpg c) as [Hp0 Hp1]; [by eapply list_elem_of_lookup_2|].
    exists c. split_and!; try done; [|lia]. apply u64_id. unfold is_u64.
    change (2 ^ 64) with 18446744073709551616 in Hp1. lia. }
  split.
  - intros k r p Hkr Hkp. destruct (Hk k r p Hkr Hkp) as (i & off & c & _ & Hc & -> & ? & ? & ? & Hm).
    exists c. split_and!; [by eapply list_elem_of_lookup_2|lia|lia|]. by replace (pointer c + off - pointer c) with off by lia.
  - intros j k r r' p p' Hjk Hjr Hkr Hjp Hkp.
    destruct (Hk j r p Hjr Hjp) as (i & off & c & Ha & Hc & -> & ? & ? & ? & _).
    destruct (Hk k r' p' Hkr Hkp) as (i' & off' & c' & Ha' & Hc' & -> & ? & ? & ? & _).
    pose proof (apart_reverse as_ j k _ _ (pd_apart _ _ _ Hp) Hjk Ha Ha') as Hx. simpl in Hx.
    destruct (decide (i = i')) as [<-|Hne].
    + assert (c' = c) as -> by congruence. destruct Hx as [|Hx]; [done|lia].
    + destruct (Hap i i' c c' Hne Hc Hc'); lia.
Qed.

(** ** A kernel to try: pages of 2 MB, one after the other *)

Definition preads (h : list Syscall) : Z :=
  Z.of_nat (length (List.filter (λ c, match c with Pread _ _ _ => true | _ => false end) h)).

(** [fixed]: whether mapping at a given address works. *)
Definition huge_kernel (fixed : bool) : Kernel := {|
  answer h :=
    match h with
    | Pread _ _ _ :: h' => mkSysRet 8 0 (le_bytes 8 (2 ^ 63 + 512 * (1 + preads h')))
    | Mmap_fixed addr _ _ :: _ => if fixed then mkSysRet addr 0 [] else mkSysRet (-1) 12 []
    | Mmap _ _ :: _ => mkSysRet 0x7f0000000000 0 []
    | Open _ :: _ => mkSysRet 3 0 []
    | _ => mkSysRet 0 0 []
    end;
  retries := 0
|}.

Definition sample_meminfo : option string := Some "HugePages_Total:       4 Hugepagesize:       2048 kB".

Example page_size_read : get_huge_page_size sample_meminfo = Ok 2097152.
Proof. vm_compute. reflexivity. Qed.

Definition sample_reqs : list (Z * Z) := [(1000, 16); (2000000, 64); (500000, 4096)].

(** The third allocation is from a second page. *)
Example dma_two_pages :
  match dma_allocs (H := huge_kernel true) sample_meminfo sample_reqs init_dma with
  | Ok (ps, _) => ps = [0x500000200000; 0x500000200400; 0x500000400000]
  | _ => False
  end.
Proof. vm_compute. reflexivity. Qed.

(** The second mmap is not checked: when it fails, what is returned is
    MAP_FAILED as an address, and no memory. *)
Example dma_map_failed :
  match dma_alloc (H := huge_kernel false) sample_meminfo 64 16 init_dma with
  | Ok (p, _) => p = 18446744073709551615
  | _ => False
  end.
Proof. vm_compute. reflexivity. Qed.

Lemma dma_alloc_disjoint_witness :
  wpx any_panic (dma_allocs (H := huge_kernel true) sample_meminfo sample_reqs) (λ ps m', length ps = length sample_reqs ∧
    (pages_apart (CHUNKS m') →
     (∀ k r p, sample_reqs !! k = Some r → ps !! k = Some p → ∃ c, c ∈ CHUNKS m' ∧
        pointer c ≤ p ∧ p + r.1 ≤ pointer c + size c ∧ (p - pointer c) mod r.2 = 0) ∧
     (∀ j k r r' p p', j ≠ k → sample_reqs !! j = Some r → sample_reqs !! k = Some r' →
        ps !! j = Some p → ps !! k = Some p' → p + r.1 ≤ p' ∨ p' + r'.1 ≤ p))) init_dma.
Proof.
  apply (dma_alloc_disjoint (H := huge_kernel true) sample_meminfo 2097152 sample_reqs); [vm_compute; reflexivity|lia|].
  repeat constructor; simpl; lia.
Defined.

(** The physical address is found again. *)
Lemma virtual_to_physical_tagged phys :
  0 ≤ phys → Z.land phys TAG = 0 → virtual_to_physical (Z.lor phys TAG) = Ok phys.
Proof.
  intros Hp Ht. unfold virtual_to_physical.
  assert (Z.land (Z.lor phys TAG) TAG = TAG) as ->.
  { apply Z.bits_inj'. intros n Hn. rewrite Z.land_spec, Z.lor_spec. by destruct (Z.testbit phys n), (Z.testbit TAG n). }
  rewrite Z.eqb_refl. simpl. f_equal. apply Z.bits_inj'. intros n Hn. rewrite Z.lxor_spec, Z.lor_spec.
  assert (Z.testbit (Z.land phys TAG) n = false) as Hb by (by rewrite Ht, Z.bits_0).
  rewrite Z.land_spec in Hb. by destruct (Z.testbit phys n), (Z.testbit TAG n).
Qed.
