(* ===== verification/App.v ===== *)
(** * engine.rs: what apps see of the engine

    Shared links ([Rc<RefCell<Link>>]), borrowed at runtime by apps; the clock
    of a breath; the random numbers of the qos apps; and the trait [App].

    The invariant [winv Q owned w] says that the links of the world hold the
    queues [Q], and that every packet in use is on one of these links or in
    [owned], once.  Its lemmas are rules for the operations of apps. *)

From Stdlib Require Import Floats.SpecFloat.
From S2P Require Import Prelude Bytes Lib Packet Link Kernel.
#[local] Open Scope Z_scope.

(** Identity of a link: the pointer behind an [Rc]. *)
Abbreviation link_id := positive.

(** flow.rs: a counter of a flow profile; profiles are files mapped into memory. *)
Record FlowCtr : Type := mkFlowCtr {
  ctr_packets : Z;
  ctr_bits : Z;
  ctr_id : Z
}.

Record World : Type := mkWorld {
  mem : pstate;
  links : gmap link_id Link;
  borrowed : gset link_id;         (* links with a live RefMut *)
  MONOTONIC_NOW : option Z;        (* an Instant, in nanoseconds *)
  clock : nat → Z;                 (* results of the calls to Instant::now() *)
  ticks : nat;
  rng : nat → spec_float;          (* results of the calls to rng.gen::<f64>() *)
  draws : nat;
  profiles : gmap positive (list FlowCtr);  (* the mapped memory behind a *mut FlowTop *)
  syscalls : list Syscall          (* the calls of libc so far, the last one first *)
}.

Definition set_mem (s : pstate) (w : World) : World :=
  mkWorld s (links w) (borrowed w) (MONOTONIC_NOW w) (clock w) (ticks w) (rng w) (draws w) (profiles w) (syscalls w).
Definition set_links (m : gmap link_id Link) (w : World) : World :=
  mkWorld (mem w) m (borrowed w) (MONOTONIC_NOW w) (clock w) (ticks w) (rng w) (draws w) (profiles w) (syscalls w).
Definition set_borrowed (b : gset link_id) (w : World) : World :=
  mkWorld (mem w) (links w) b (MONOTONIC_NOW w) (clock w) (ticks w) (rng w) (draws w) (profiles w) (syscalls w).
Definition set_now (t : option Z) (w : World) : World :=
  mkWorld (mem w) (links w) (borrowed w) t (clock w) (ticks w) (rng w) (draws w) (profiles w) (syscalls w).

Definition set_profiles (m : gmap positive (list FlowCtr)) (w : World) : World :=
  mkWorld (mem w) (links w) (borrowed w) (MONOTONIC_NOW w) (clock w) (ticks w) (rng w) (draws w) m (syscalls w).

Definition set_syscalls (h : list Syscall) (w : World) : World :=
  mkWorld (mem w) (links w) (borrowed w) (MONOTONIC_NOW w) (clock w) (ticks w) (rng w) (draws w) (profiles w) h.

(** Packet operations in the world. *)
Definition on_mem {A} (m : ST pstate A) : ST World A := λ w,
  match m (mem w) with
  | Ok (a, s) => Ok (a, set_mem s w)
  | Panic e => Panic e
  | UB e => UB e
  | NoFuel => NoFuel
  end.

(** Access through a live [RefMut<Link>]. *)
Definition link_at (l : link_id) : ST World Link := λ w,
  match links w !! l with
  | Some r => Ok (r, w)
  | None => UB "dangling Rc"
  end.
Definition set_link (l : link_id) (r : Link) : ST World () :=
  modify (λ w, set_links (<[l := r]> (links w)) w).

Definition link_empty (l : link_id) : ST World bool := r ← link_at l; mret (empty r).
Definition link_full (l : link_id) : ST World bool := r ← link_at l; mret (full r).
Definition link_receive (l : link_id) : ST World loc :=
  r ← link_at l; '(p, r') ← on_mem (receive r); set_link l r';; mret p.
Definition link_transmit (l : link_id) (p : loc) : ST World () :=
  r ← link_at l; r' ← on_mem (transmit r p); set_link l r'.

(** RefCell: [borrow_mut] panics while another [RefMut] is alive; [release] is
    the end of the scope of the guard. *)
Definition borrow_mut (l : link_id) : ST World () := λ w,
  if decide (l ∈ borrowed w) then Panic "already borrowed: BorrowMutError"
  else Ok (tt, set_borrowed ({[l]} ∪ borrowed w) w).
Definition release (l : link_id) : ST World () :=
  modify (λ w, set_borrowed (borrowed w ∖ {[l]}) w).

(** Instant::now() *)
Definition Instant_now : ST World Z := λ w,
  Ok (clock w (ticks w),
      mkWorld (mem w) (links w) (borrowed w) (MONOTONIC_NOW w) (clock w) (S (ticks w)) (rng w) (draws w) (profiles w) (syscalls w)).

(** [Instant + Duration], in nanoseconds; seconds of an Instant are an i64. *)
Definition instant_add (t d : Z) : outcome Z :=
  if (t + d) / 1000000000 <? 9223372036854775808 then Ok (t + d)
  else Panic "overflow when adding duration to instant".

(** An Instant far from the end of its range. *)
Definition is_instant (t : Z) : Prop := 0 ≤ t < 4611686018427387904 * 1000000000.

(** engine::now() *)
Definition now : ST World Z :=
  w ← get;
  match MONOTONIC_NOW w with
  | Some instant => mret instant
  | None => Instant_now
  end.

(** rng.gen::<f64>() *)
Definition gen_f64 : ST World spec_float := λ w,
  Ok (rng w (draws w),
      mkWorld (mem w) (links w) (borrowed w) (MONOTONIC_NOW w) (clock w) (ticks w) (rng w) (S (draws w)) (profiles w) (syscalls w)).

(** A call of libc. *)
Definition syscall `{Kernel} (c : Syscall) : ST World SysRet := λ w,
  Ok (answer (c :: syscalls w), set_syscalls (c :: syscalls w) w).

(** Iteration over a HashMap or HashSet visits every entry once, in an order
    that the standard library does not specify. *)
Class HashOrder : Type := {
  order : ∀ {A : Type}, gmap string A → list (string * A);
  order_perm : ∀ {A : Type} (m : gmap string A), order m ≡ₚ map_to_list m;
  set_order : gset string → list string;
  set_order_perm : ∀ (m : gset string), set_order m ≡ₚ elements m;
}.

(** The orders in which a listing and its reverse visit the entries. *)
Definition listed : HashOrder := {|
  order A m := map_to_list m;
  order_perm A m := Permutation_refl _;
  set_order m := elements m;
  set_order_perm m := Permutation_refl _
|}.

Definition reversed : HashOrder.
Proof.
  refine {| order A m := rev (map_to_list m); set_order m := rev (elements m) |};
    intros; by rewrite <-Permutation_rev.
Defined.

(** [m.values()], [m.keys()] *)
Definition values `{HashOrder} {A} (m : gmap string A) : list A := (order m).*2.
Definition keys `{HashOrder} {A} (m : gmap string A) : list string := (order m).*1.

(** The links of an app, as the engine passes them to its callbacks. *)
Record Ports : Type := mkPorts {
  input : gmap string link_id;
  output : gmap string link_id
}.

(** trait App.  The callbacks take [&self] and change the app only through
    interior mutability: they return the app as it is afterwards. *)
Class App (T : Type) : Type := {
  has_pull : T → bool;
  pull : T → Ports → ST World T;
  has_push : T → bool;
  push : T → Ports → ST World T;
  has_stop : T → bool;
  stop : T → ST World ();
}.

(** The callbacks an app does not implement. *)
Definition no_pull {T} (app : T) (ports : Ports) : ST World T := panic "Pull called but not implemented".
Definition no_push {T} (app : T) (ports : Ports) : ST World T := panic "Push called but not implemented".
Definition no_stop {T} (app : T) : ST World () := panic "Stop called but not implemented".

(** Recommended number of packets to inhale in pull() *)
Definition PULL_NPACKETS : nat := Z.to_nat (LINK_MAX_PACKETS / 10).

(** app.input.get(name).unwrap() *)
Definition port (name : string) (m : gmap string link_id) : ST World link_id :=
  lift (unwrap "called `Option::unwrap()` on a `None` value" (m !! name)).

(** while !link::empty(input) { body(link::receive(input)) }: a link holds at
    most LINK_MAX_PACKETS packets, and nobody else adds some to a borrowed one. *)
Definition drain {A} (l : link_id) (body : A → loc → ST World A) (a : A) : ST World A :=
  while_st (Z.to_nat LINK_MAX_PACKETS)
    (λ _, b ← link_empty l; mret (negb b))
    (λ a, p ← link_receive l; body a p) a.

(** ** The invariant of the world *)

Abbreviation queue := (list (loc * Packet)).
Abbreviation queues := (gmap link_id queue).

Definition on_links (Q : queues) : queue := concat (map_to_list Q).*2.

Record winv (Q : queues) (owned : queue) (w : World) : Prop := {
  wi_links : ∀ l q, Q !! l = Some q → ∃ r, links w !! l = Some r ∧ link_rep r q.*1;
  wi_mem : Mem (on_links Q ++ owned) (mem w);
}.

#[export] Instance winv_proper : Proper (eq ==> (≡ₚ) ==> eq ==> iff) winv.
Proof.
  intros Q ? <- o o' Ho w ? <-. split; intros [Hl Hm]; split; try done; [by rewrite <-Ho|by rewrite Ho].
Qed.

Lemma winv_perm Q owned owned' w : winv Q owned w → owned ≡ₚ owned' → winv Q owned' w.
Proof. by intros ? <-. Qed.

(** Nothing but packets and links has changed. *)
Record same_env (w w' : World) : Prop := {
  se_borrowed : borrowed w' = borrowed w;
  se_now : MONOTONIC_NOW w' = MONOTONIC_NOW w;
  se_clock : clock w' = clock w;
  se_ticks : ticks w' = ticks w;
  se_rng : rng w' = rng w;
  se_draws : draws w' = draws w;
  se_profiles : profiles w' = profiles w;
  se_syscalls : syscalls w' = syscalls w;
}.

#[export] Instance same_env_preorder : PreOrder same_env.
Proof.
  split; [by intros w; split|]. intros w1 w2 w3 [] []. split; congruence.
Qed.

Lemma same_env_set_mem s w : same_env w (set_mem s w). Proof. by split. Qed.
Lemma same_env_set_links m w : same_env w (set_links m w). Proof. by split. Qed.
#[export] Hint Resolve same_env_set_mem same_env_set_links : core.

Lemma on_links_lookup Q l q : Q !! l = Some q → on_links Q ≡ₚ q ++ on_links (delete l Q).
Proof.
  intros Hl. unfold on_links. by rewrite <-(map_to_list_delete _ _ _ Hl).
Qed.

Lemma on_links_insert Q l q : on_links (<[l:=q]> Q) ≡ₚ q ++ on_links (delete l Q).
Proof.
  rewrite (on_links_lookup _ l q) by apply lookup_insert_eq. by rewrite delete_insert_eq.
Qed.

Lemma wpx_on_mem E {A} (m : ST pstate A) (Φ : A → World → Prop) w :
  wpx E m (λ a s, Φ a (set_mem s w)) (mem w) → wpx E (on_mem m) Φ w.
Proof. unfold wpx, on_mem. by destruct (m (mem w)) as [[a s]| | |]. Qed.

Lemma winv_set_mem Q owned owned' w s :
  winv Q owned w → Mem (on_links Q ++ owned') s → winv Q owned' (set_mem s w).
Proof. intros [] ?. by split. Qed.

Lemma winv_owned Q p pk owned w : winv Q ((p, pk) :: owned) w → heap (mem w) !! p = Some pk ∧ wf_packet pk.
Proof. intros [_ Hm]. eapply Mem_lookup; [done|set_solver]. Qed.

Lemma winv_cons_mem Q x owned w : winv Q (x :: owned) w → Mem (x :: on_links Q ++ owned) (mem w).
Proof. intros [_ Hm]. by rewrite Permutation_middle. Qed.

(** Replacing link [l]. *)
Lemma winv_set_link Q owned owned' w l r q s :
  winv Q owned w → link_rep r q.*1 → Mem (on_links (<[l:=q]> Q) ++ owned') s →
  winv (<[l:=q]> Q) owned' (set_links (<[l:=r]> (links w)) (set_mem s w)).
Proof.
  intros [Hl Hm] Hr Hm'. split; [|done]. intros l' q'. simpl.
  destruct (decide (l = l')) as [<-|Hne].
  - rewrite !lookup_insert_eq. intros ?. simplify_eq. eauto.
  - rewrite !lookup_insert_ne by done. apply Hl.
Qed.

(** ** Rules for the operations of apps *)

(** [queue_tx], for packets with their contents. *)
Definition link_tx (q : queue) (x : loc * Packet) : queue :=
  if bool_decide (Z.of_nat (length q) = LINK_MAX_PACKETS) then q else q ++ [x].

Lemma link_empty_wp E Q owned w l q (Φ : bool → World → Prop) :
  winv Q owned w → Q !! l = Some q → Φ (bool_decide (q = [])) w → wpx E (link_empty l) Φ w.
Proof.
  intros [Hl _] Hq HΦ. destruct (Hl _ _ Hq) as (r & Hr & Hrep).
  unfold link_empty, link_at. apply wpx_bind. unfold wpx. rewrite Hr. simpl.
  rewrite (rep_empty _ _ Hrep). by destruct q.
Qed.

Lemma link_full_wp E Q owned w l q (Φ : bool → World → Prop) :
  winv Q owned w → Q !! l = Some q →
  Φ (bool_decide (Z.of_nat (length q) = LINK_MAX_PACKETS)) w → wpx E (link_full l) Φ w.
Proof.
  intros [Hl _] Hq HΦ. destruct (Hl _ _ Hq) as (r & Hr & Hrep).
  unfold link_full, link_at. apply wpx_bind. unfold wpx. rewrite Hr. simpl.
  rewrite (rep_full _ _ Hrep), length_fmap. done.
Qed.

Lemma link_receive_wp E Q owned w l p pk q :
  winv Q owned w → Q !! l = Some ((p, pk) :: q) →
  wpx E (link_receive l)
    (λ p' w', p' = p ∧ winv (<[l:=q]> Q) ((p, pk) :: owned) w' ∧ same_env w w') w.
Proof.
  intros Hw Hq. pose proof Hw as [Hl Hm]. destruct (Hl _ _ Hq) as (r & Hr & Hrep).
  unfold link_receive, link_at. apply wpx_bind. unfold wpx. rewrite Hr. apply wpx_bind.
  apply wpx_on_mem. simpl in Hrep. rewrite (on_links_lookup _ _ _ Hq) in Hm.
  eapply wpx_mono; [eapply (receive_wp _ r p q.*1 pk); [done|]|].
  { eapply Mem_lookup; [done|left]. }
  intros [p' r'] s' (-> & -> & ->). unfold set_link. wp_steps. simpl.
  split_and!; [done| |by split].
  apply (winv_set_link Q owned); [done|by eapply dequeued_rep|].
  eapply Mem_perm; [exact Hm|]. rewrite on_links_insert. solve_perm.
Qed.

Lemma link_transmit_wp E Q owned w l p pk q :
  winv Q ((p, pk) :: owned) w → Q !! l = Some q →
  wpx E (link_transmit l p)
    (λ _ w', winv (<[l:=link_tx q (p, pk)]> Q) owned w' ∧ same_env w w') w.
Proof.
  intros Hw Hq. pose proof Hw as [Hl _]. destruct (Hl _ _ Hq) as (r & Hr & Hrep).
  pose proof (winv_cons_mem _ _ _ _ Hw) as Hm. rewrite (on_links_lookup _ _ _ Hq) in Hm.
  unfold link_transmit, link_at. apply wpx_bind. unfold wpx. rewrite Hr. apply wpx_bind.
  apply wpx_on_mem. eapply wp_conseq.
  { eapply (transmit_wp r q.*1 p pk); [done|by apply Mem_Inv in Hm|by eapply Mem_head]. }
  intros r' s'. rewrite length_fmap. unfold set_link, link_tx. case_bool_decide as Hd.
  - intros (-> & Hi & Hk & _). wp_steps. split; [|by split].
    apply (winv_set_link Q ((p, pk) :: owned) owned w); [done|by apply dropped_rep|].
    rewrite on_links_insert. split; [done|]. destruct Hm as [_ Hf].
    inversion Hf; subst. by eapply keeps_Forall.
  - intros (-> & ->). wp_steps. split; [|by split].
    apply (winv_set_link Q ((p, pk) :: owned) owned w); [done| |].
    + rewrite fmap_app. simpl. apply enqueued_rep; [done|by rewrite length_fmap].
    + eapply Mem_perm; [exact Hm|]. rewrite on_links_insert. solve_perm.
Qed.

(** The freelist is exhausted. *)
Definition overflow (e : string) : Prop := e = "Packet allocation overflow".

Lemma deref_rule E Q p pk owned w (Φ : Packet → World → Prop) :
  winv Q ((p, pk) :: owned) w → Φ pk w → wpx E (on_mem (deref p)) Φ w.
Proof.
  intros Hw HΦ. apply wpx_on_mem. eapply deref_mem; [by eapply winv_cons_mem|]. by destruct w.
Qed.

Lemma write_rule E Q p pk pk' owned w :
  winv Q ((p, pk) :: owned) w → wf_packet pk' →
  wpx E (on_mem (Packet.write p pk')) (λ _ w', winv Q ((p, pk') :: owned) w' ∧ same_env w w') w.
Proof.
  intros Hw Hwf. apply wpx_on_mem. eapply wp_conseq.
  { eapply write_mem; [by eapply winv_cons_mem|done]. }
  intros _ s' [Hm _]. split; [|done]. eapply winv_set_mem; [done|].
  eapply Mem_perm; [exact Hm|]. solve_perm.
Qed.

Lemma allocate_rule Q owned w :
  winv Q owned w →
  wpx overflow (on_mem allocate)
    (λ p w', ∃ pk, p_length pk = 0 ∧ wf_packet pk ∧ winv Q ((p, pk) :: owned) w' ∧ same_env w w') w.
Proof.
  intros Hw. apply wpx_on_mem.
  eapply wpx_mono; [eapply wpx_weaken; [eapply allocate_mem, wi_mem, Hw|by intros e []]|].
  intros p s' (pk & Hz & Hwf & Hm & _). exists pk. split_and!; [done|done| |done].
  eapply winv_set_mem; [done|]. eapply Mem_perm; [exact Hm|]. solve_perm.
Qed.

Lemma free_rule E Q p pk owned w :
  winv Q ((p, pk) :: owned) w →
  wpx E (on_mem (free p)) (λ _ w', winv Q owned w' ∧ same_env w w') w.
Proof.
  intros Hw. apply wpx_on_mem. eapply wp_conseq.
  { eapply free_mem. by eapply winv_cons_mem. }
  intros _ s' [Hm _]. split; [|done]. by eapply winv_set_mem.
Qed.

Lemma clone_rule Q p pk owned w :
  winv Q owned w → (p, pk) ∈ owned →
  wpx overflow (on_mem (clone p))
    (λ c w', ∃ cpk, same_frame pk cpk ∧ wf_packet cpk ∧ winv Q ((c, cpk) :: owned) w' ∧ same_env w w') w.
Proof.
  intros Hw Hin. apply wpx_on_mem.
  eapply wpx_mono; [eapply wpx_weaken; [eapply clone_mem; [eapply wi_mem, Hw|]|by intros e []]|].
  { by apply elem_of_app; right. }
  intros c s' (cpk & Hf & Hwf & Hm & _). exists cpk. split_and!; [done|done| |done].
  eapply winv_set_mem; [done|]. eapply Mem_perm; [exact Hm|]. solve_perm.
Qed.

(** ** Apps with an input and an output *)

(** let mut input = app.input.get("input").unwrap().borrow_mut();
    let mut output = app.output.get("output").unwrap().borrow_mut(); *)
Definition io_scope {A} (ports : Ports) (body : link_id → link_id → ST World A) : ST World A :=
  i ← port "input" (input ports);
  borrow_mut i;;
  o ← port "output" (output ports);
  borrow_mut o;;
  a ← body i o;
  release o;;
  release i;;
  mret a.

(** The world of such an app: link [i] holds [q], link [o] holds [q']. *)
Definition io (Q : queues) (i : link_id) (q : queue) (o : link_id) (q' : queue) : queues :=
  <[o := q']> (<[i := q]> Q).

Section io.
Context (Q : queues) (i o : link_id) (Hio : i ≠ o).

Lemma io_self q q' : Q !! i = Some q → Q !! o = Some q' → io Q i q o q' = Q.
Proof. intros Hi Ho. unfold io. by rewrite (insert_id Q i q Hi), (insert_id Q o q' Ho). Qed.

Lemma io_input q q' : io Q i q o q' !! i = Some q.
Proof. unfold io. by rewrite lookup_insert_ne, lookup_insert_eq. Qed.

Lemma io_output q q' : io Q i q o q' !! o = Some q'.
Proof. apply lookup_insert_eq. Qed.

Lemma io_receive E p pk q q' owned w :
  winv (io Q i ((p, pk) :: q) o q') owned w →
  wpx E (link_receive i)
    (λ p' w', p' = p ∧ winv (io Q i q o q') ((p, pk) :: owned) w' ∧ same_env w w') w.
Proof.
  intros Hw. eapply wpx_mono; [by eapply link_receive_wp, io_input|].
  intros p' w' (-> & Hw' & ?). split_and!; [done| |done].
  unfold io in Hw'. rewrite insert_insert_ne, insert_insert_eq in Hw' by done. exact Hw'.
Qed.

Lemma io_transmit E p pk q q' owned w :
  winv (io Q i q o q') ((p, pk) :: owned) w →
  wpx E (link_transmit o p)
    (λ _ w', winv (io Q i q o (link_tx q' (p, pk))) owned w' ∧ same_env w w') w.
Proof.
  intros Hw. eapply wpx_mono; [by eapply link_transmit_wp, io_output|].
  intros ? w' (Hw' & ?). split; [|done]. unfold io in *. by rewrite insert_insert_eq in Hw'.
Qed.
End io.

(** Several packets, one after the other. *)
Definition link_txs (q : queue) (xs : queue) : queue := foldl link_tx q xs.

Lemma link_txs_app q xs ys : link_txs q (xs ++ ys) = link_txs (link_txs q xs) ys.
Proof. apply foldl_app. Qed.

(** What fits is appended in order. *)
Lemma link_txs_take q xs :
  Z.of_nat (length q) ≤ LINK_MAX_PACKETS →
  link_txs q xs = q ++ take (Z.to_nat LINK_MAX_PACKETS - length q) xs.
Proof.
  revert q. induction xs as [|x xs IH]; intros q Hq; simpl; [by rewrite take_nil, app_nil_r|].
  unfold link_tx. case_bool_decide as Hd.
  - change (foldl link_tx q xs) with (link_txs q xs). rewrite IH by done. replace (Z.to_nat LINK_MAX_PACKETS - length q)%nat with O by lia. done.
  - change (foldl link_tx ?q xs) with (link_txs q xs).
    rewrite IH by (rewrite length_app; simpl; lia). rewrite length_app. simpl.
    replace (Z.to_nat LINK_MAX_PACKETS - length q)%nat
      with (S (Z.to_nat LINK_MAX_PACKETS - (length q + 1))) by lia.
    simpl. by rewrite <-app_assoc.
Qed.

Lemma winv_set_borrowed Q owned b w : winv Q owned w → winv Q owned (set_borrowed b w).
Proof. intros []. by split. Qed.

(** The borrows of [io_scope] succeed and are undone. *)
Lemma io_scope_wp E {A} ports (body : link_id → link_id → ST World A) (Φ : A → World → Prop) i o w :
  input ports !! "input" = Some i → output ports !! "output" = Some o → i ≠ o →
  i ∉ borrowed w → o ∉ borrowed w →
  (∀ w1, w1 = set_borrowed ({[o]} ∪ ({[i]} ∪ borrowed w)) w →
   wpx E (body i o) (λ a w2, borrowed w2 = borrowed w1 ∧ Φ a (set_borrowed (borrowed w) w2)) w1) →
  wpx E (io_scope ports body) Φ w.
Proof.
  intros Hi Ho Hne Hbi Hbo Hbody. unfold io_scope, port. apply wpx_bind.
  rewrite Hi, Ho. simpl. apply wpx_bind. unfold borrow_mut, wpx at 1.
  rewrite decide_False by done. apply wpx_bind. unfold wpx at 1. simpl. apply wpx_bind.
  unfold wpx at 1. simpl. rewrite decide_False by set_solver. apply wpx_bind.
  unfold set_borrowed at 1. simpl. eapply wpx_mono; [by apply Hbody|]. intros a w2 [Hb HΦ].
  unfold release. wp_steps. unfold set_borrowed in *. simpl in *. rewrite Hb.
  replace (({[o]} ∪ ({[i]} ∪ borrowed w)) ∖ {[o]} ∖ {[i]}) with (borrowed w) by set_solver.
  exact HΦ.
Qed.

(** The loop [drain] empties its link. *)
Lemma drain_wp E {A} l (body : A → loc → ST World A) (I : queue → A → World → Prop) q a w :
  (∀ q a w, I q a w → ∃ Q owned, winv Q owned w ∧ Q !! l = Some q) →
  (∀ p pk q a w, I ((p, pk) :: q) a w → wpx E (p' ← link_receive l; body a p') (I q) w) →
  I q a w → wpx E (drain l body a) (I []) w.
Proof.
  intros Hlink Hstep HI.
  eapply (while_st_list E _ _ (λ (xs : queue) a w, I xs a w)); [| |exact HI|].
  - intros a' w' HI'. destruct (Hlink _ _ _ HI') as (Q & ow & Hw & Hl).
    apply wpx_bind. eapply link_empty_wp; [done..|]. by apply wpx_ret.
  - intros [p pk] xs a' w' HI'. destruct (Hlink _ _ _ HI') as (Q & ow & Hw & Hl).
    apply wpx_bind. eapply link_empty_wp; [done..|]. apply wpx_ret. simpl. by eapply Hstep.
  - destruct (Hlink _ _ _ HI) as (Q & ow & Hw & Hl). destruct (wi_links _ _ _ Hw _ _ Hl) as (r & _ & Hr).
    pose proof (lr_length _ _ Hr). rewrite length_fmap in H. lia.
Qed.

(** ** Apps that treat their input packet by packet *)

(** What apps see of the rest of the world. *)
Record Env : Type := mkEnv {
  env_now : option Z; env_clock : nat → Z; env_ticks : nat;
  env_rng : nat → spec_float; env_draws : nat;
  env_profiles : gmap positive (list FlowCtr);
  env_syscalls : list Syscall
}.
Definition env (w : World) : Env :=
  mkEnv (MONOTONIC_NOW w) (clock w) (ticks w) (rng w) (draws w) (profiles w) (syscalls w).

Lemma same_env_env w w' : same_env w w' → env w' = env w.
Proof. intros []. unfold env. congruence. Qed.

Lemma same_env_intro w w' : env w' = env w → borrowed w' = borrowed w → same_env w w'.
Proof. unfold env. intros [=] ?. by split. Qed.

(** The environment, but for the calls made. *)

Definition with_calls (h : list Syscall) (e : Env) : Env :=
  mkEnv (env_now e) (env_clock e) (env_ticks e) (env_rng e) (env_draws e) (env_profiles e) h.

(** Only packets, links and the history of calls have changed. *)
Definition but_calls (w w' : World) : Prop :=
  env w' = with_calls (syscalls w') (env w) ∧ borrowed w' = borrowed w.

#[export] Instance but_calls_preorder : PreOrder but_calls.
Proof.
  split; [by intros w|]. intros w1 w2 w3 [E1 B1] [E2 B2]. split; [|congruence]. by rewrite E2, E1.
Qed.

Lemma same_env_but_calls w w' : same_env w w' → but_calls w w'.
Proof. intros He. split; [|apply He]. rewrite (same_env_env _ _ He). unfold with_calls, env. simpl. by rewrite (se_syscalls _ _ He). Qed.

Lemma but_calls_set h w : but_calls w (set_syscalls h w).
Proof. done. Qed.
#[export] Hint Resolve but_calls_set : core.

Lemma winv_set_syscalls Q owned h w : winv Q owned w → winv Q owned (set_syscalls h w).
Proof. by intros []. Qed.
#[export] Hint Resolve winv_set_syscalls : core.

(** [R a e x out a' e']: from state [a], packet [x] gives the packets [out]. *)
Abbreviation transfer A := (A → Env → loc * Packet → queue → A → Env → Prop).

Inductive forwards {A} (R : transfer A) : A → Env → queue → queue → A → Env → Prop :=
  | forwards_nil a e : forwards R a e [] [] a e
  | forwards_cons a1 e1 x out a2 e2 xs outs a3 e3 :
      R a1 e1 x out a2 e2 → forwards R a2 e2 xs outs a3 e3 →
      forwards R a1 e1 (x :: xs) (out ++ outs) a3 e3.

Lemma forwards_snoc {A} (R : transfer A) a1 e1 xs outs a2 e2 x out a3 e3 :
  forwards R a1 e1 xs outs a2 e2 → R a2 e2 x out a3 e3 →
  forwards R a1 e1 (xs ++ [x]) (outs ++ out) a3 e3.
Proof.
  induction 1 as [a e|a1 e1 y o a2 e2 ys os a4 e4 HR _ IH]; intros Hx; simpl.
  - rewrite <-(app_nil_r out). econstructor; [done|constructor].
  - rewrite <-app_assoc. econstructor; [done|]. by apply IH.
Qed.

(** Transfers without state. *)
Lemma forwards_stateless {A} (R : transfer A) (S : loc * Packet → queue → Prop) a e xs outs a' e' :
  (∀ a e x out a' e', R a e x out a' e' → a' = a ∧ e' = e ∧ S x out) →
  forwards R a e xs outs a' e' →
  a' = a ∧ e' = e ∧ ∃ outss, outs = concat outss ∧ Forall2 S xs outss.
Proof.
  intros HR. induction 1 as [a e|a1 e1 x out a2 e2 xs outs a3 e3 Hx _ (-> & -> & outss & -> & Hf)].
  - split_and!; [done..|]. exists []. by split; [|constructor].
  - apply HR in Hx as (-> & -> & Hs). split_and!; [done..|]. exists (out :: outss). by split; [|constructor].
Qed.

Section forward.
Context (E : string → Prop) (Q : queues) (i o : link_id) (Hio : i ≠ o).
Context {A : Type} (body : A → loc → ST World A) (R : transfer A).
Context (J : A → Env → Prop) (P : Packet → Prop).

(** What the body does to one packet it owns, with [J] an invariant of the app
    and its environment. *)
Definition body_spec : Prop := ∀ a q q' p pk owned w,
  winv (io Q i q o q') ((p, pk) :: owned) w → J a (env w) → P pk →
  wpx E (body a p) (λ a' w', ∃ out, R a (env w) (p, pk) out a' (env w') ∧ J a' (env w') ∧
    borrowed w' = borrowed w ∧ winv (io Q i q o (link_txs q' out)) owned w') w.

(** What the loop does to the input. *)
Definition forwarded (a : A) (w : World) (qi qo owned : queue) (a' : A) (w' : World) : Prop :=
  ∃ outs, forwards R a (env w) qi outs a' (env w') ∧ J a' (env w') ∧ borrowed w' = borrowed w ∧
          winv (io Q i [] o (link_txs qo outs)) owned w'.

Lemma drain_forwards a qi qo owned w :
  body_spec → winv (io Q i qi o qo) owned w → J a (env w) → Forall (λ x, P x.2) qi →
  wpx E (drain i body a) (forwarded a w qi qo owned) w.
Proof.
  intros Hbody Hw HJ HP.
  eapply wpx_mono; [eapply (drain_wp _ _ _ (λ rest a' w', ∃ ds outs, qi = ds ++ rest ∧
    forwards R a (env w) ds outs a' (env w') ∧ J a' (env w') ∧ borrowed w' = borrowed w ∧
    winv (io Q i rest o (link_txs qo outs)) owned w'))|].
  - intros rest a' w' (ds & outs & _ & _ & _ & _ & Hw'). eexists _, _. split; [exact Hw'|]. by apply io_input.
  - intros p pk rest a' w' (ds & outs & -> & Hf & HJ' & Hb & Hw').
    apply wpx_bind. eapply wpx_mono; [by apply io_receive|]. intros p' w1 (-> & Hw1 & He1).
    apply Forall_app in HP as [_ HP]. apply Forall_cons in HP as [HP _].
    pose proof (same_env_env _ _ He1) as Hev. rewrite <-Hev in HJ', Hf.
    eapply wpx_mono; [by eapply Hbody|]. intros a'' w2 (out & HR & HJ2 & Hb2 & Hw2).
    exists (ds ++ [(p, pk)]), (outs ++ out). split_and!.
    + by rewrite <-app_assoc.
    + by eapply forwards_snoc.
    + done.
    + by rewrite Hb2, (se_borrowed _ _ He1).
    + by rewrite link_txs_app.
  - exists [], []. split_and!; [done|constructor|done..].
  - intros a' w' (ds & outs & -> & Hf & HJ' & Hb & Hw'). rewrite app_nil_r. by exists outs.
Qed.
End forward.

(** Both ports borrowed, then the loop. *)
Lemma io_forwards E Q i o {A} (body : link_id → A → loc → ST World A) (R : transfer A) J P a ports qi qo owned w :
  input ports !! "input" = Some i → output ports !! "output" = Some o → i ≠ o →
  i ∉ borrowed w → o ∉ borrowed w →
  body_spec E Q i o (body o) R J P → winv (io Q i qi o qo) owned w → J a (env w) → Forall (λ x, P x.2) qi →
  wpx E (io_scope ports (λ i o, drain i (body o) a)) (forwarded Q i o R J a w qi qo owned) w.
Proof.
  intros Hi Ho Hio Hbi Hbo Hbody Hw HJ HP. eapply io_scope_wp; [done..|]. intros w1 ->.
  eapply wpx_mono; [eapply drain_forwards; [done|exact Hbody|by apply winv_set_borrowed|done|done]|].
  intros a' w2 (outs & Hf & HJ' & Hb & Hw2). split; [done|].
  exists outs. split_and!; [exact Hf|done|done|by apply winv_set_borrowed].
Qed.

(** ** Packets from frames, and a world to try apps in *)

(** A packet that holds the frame [bs]. *)
Definition frame_packet (bs : bytes) : Packet :=
  mkPacket (Z.of_nat (length bs)) (bs ++ replicate (PAYLOAD_SIZE - length bs) 0).

Lemma frame_packet_wf bs : are_bytes bs → Z.of_nat (length bs) ≤ 65535 → wf_packet (frame_packet bs).
Proof.
  intros Hb Hl. pose proof payload_size_z as Hp. split_and!; simpl.
  - unfold is_u16. lia.
  - rewrite length_app, length_replicate. lia.
  - apply Forall_app_2; [done|]. apply Forall_replicate. word.
Qed.

(** Two empty links, 1 and 2. *)
Definition world0 (t : option Z) (clk : nat → Z) (r : nat → spec_float) : World :=
  mkWorld init_pstate (<[1%positive := new]> (<[2%positive := new]> ∅)) ∅ t clk 0 r 0 ∅ [].

Lemma world0_inv t clk r : winv (io ∅ 1 [] 2 []) [] (world0 t clk r).
Proof.
  split; [|apply Mem_init]. intros l q. unfold io. simpl.
  destruct (decide (l = 1%positive)) as [->|H1]; [|destruct (decide (l = 2%positive)) as [->|H2]].
  - rewrite lookup_insert_ne, !lookup_insert_eq by done. intros [= <-]. eexists. split; [done|apply new_rep].
  - rewrite lookup_insert_eq, lookup_insert_ne, lookup_insert_eq by done.
    intros [= <-]. eexists. split; [done|apply new_rep].
  - rewrite !lookup_insert_ne, lookup_empty by done. done.
Qed.

(** Any packets can be on link 1. *)
Lemma world_with t clk r pks :
  Forall wf_packet pks → Z.of_nat (length pks) ≤ LINK_MAX_PACKETS →
  ∃ w q, winv (io ∅ 1 q 2 []) [] w ∧ q.*2 = pks ∧ same_env (world0 t clk r) w.
Proof.
  induction pks as [|pk pks IH] using rev_ind; intros Hwf Hlen.
  { exists (world0 t clk r), []. split_and!; [apply world0_inv|done|done]. }
  apply Forall_app in Hwf as [Hwf Hpk]. rewrite length_app in Hlen. simpl in Hlen.
  destruct IH as (w & q & Hw & Hq & He); [done|lia|].
  pose proof (f_equal length Hq) as Hql. rewrite length_fmap in Hql.
  assert (wp (p ← on_mem allocate; on_mem (Packet.write p pk);; link_transmit 1 p)
    (λ _ w', ∃ q', winv (io ∅ 1 q' 2 []) [] w' ∧ q'.*2 = pks ++ [pk] ∧ same_env w w') w) as H.
  { apply wpx_bind, wpx_on_mem. pose proof (wi_mem _ _ _ Hw) as Hm.
    eapply wpx_mono; [eapply wpx_weaken; [by apply allocate_mem|]|].
    { intros e [_ Hx]. unfold max_allocatable, LINK_MAX_PACKETS, LINK_RING_SIZE in *.
      unfold on_links, io in Hx.
      assert (length (on_links (io ∅ 1 q 2 []) ++ []) = length q) as Hl.
      { unfold io. rewrite app_nil_r. unfold on_links.
        rewrite insert_insert_ne, map_to_list_insert, map_to_list_insert by done. simpl.
        by rewrite map_to_list_empty, app_nil_r. }
      unfold on_links, io in Hl. rewrite Hl in Hx. lia. }
    intros p s' (pk0 & _ & _ & Hm' & _). apply wpx_bind, wpx_on_mem.
    eapply wpx_mono; [eapply write_mem; [exact Hm'|by inversion Hpk]|].
    intros _ s'' [Hm'' _]. simpl.
    assert (winv (io ∅ 1 q 2 []) [(p, pk)] (set_mem s'' (set_mem s' w))) as Hw'.
    { split; [apply (wi_links _ _ _ Hw)|]. eapply Mem_perm; [exact Hm''|]. solve_perm. }
    eapply wpx_mono; [eapply link_transmit_wp; [exact Hw'|by apply io_input]|].
    intros _ w' [Hw'' He']. exists (q ++ [(p, pk)]). split_and!.
    - unfold io in *. rewrite insert_insert_ne, insert_insert_eq in Hw'' by done.
      unfold link_tx in Hw''. by rewrite bool_decide_eq_false_2 in Hw'' by lia.
    - by rewrite fmap_app, Hq.
    - etrans; [|exact He']. by split. }
  destruct (wp_returns _ _ _ H) as (_ & w' & _ & q' & Hw' & Hq' & He').
  exists w', q'. split_and!; [done|done|]. by etrans.
Qed.

(** The world determines what is on a link. *)
Lemma link_rep_inj r q1 q2 : link_rep r q1 → link_rep r q2 → q1 = q2.
Proof.
  intros [R1 L1 W1 S1 _] [_ L2 W2 S2 _].
  assert (length q1 = length q2) as Hl by cursor.
  apply list_eq. intros n. destruct (q1 !! n) as [p|] eqn:E1.
  - destruct (lookup_lt_is_Some_2 q2 n) as [p' E2]; [apply lookup_lt_Some in E1; lia|].
    rewrite E2. apply S1 in E1. apply S2 in E2. congruence.
  - symmetry. apply lookup_ge_None_2. apply lookup_ge_None_1 in E1. lia.
Qed.

(** A link more. *)
Lemma winv_new_link Q owned w l :
  Q !! l = None → winv Q owned w → winv (<[l:=[]]> Q) owned (set_links (<[l:=Link.new]> (links w)) w).
Proof.
  intros Hl [Hlinks Hm]. split; simpl.
  - intros l' q'. destruct (decide (l = l')) as [<-|Hne].
    + rewrite !lookup_insert_eq. intros [= <-]. eexists. split; [done|apply new_rep].
    + rewrite !lookup_insert_ne by done. apply Hlinks.
  - rewrite on_links_insert, delete_id by done. exact Hm.
Qed.

Lemma winv_queue_wf Q owned w l q : winv Q owned w → Q !! l = Some q → Forall (λ x, wf_packet x.2) q.
Proof.
  intros Hw Hq. apply Forall_forall. intros [p pk] Hin.
  eapply Mem_lookup; [apply (wi_mem _ _ _ Hw)|]. apply elem_of_app. left.
  rewrite (on_links_lookup _ _ _ Hq). apply elem_of_app. by left.
Qed.

Lemma winv_inj Q1 Q2 o1 o2 w l q1 q2 :
  winv Q1 o1 w → winv Q2 o2 w → Q1 !! l = Some q1 → Q2 !! l = Some q2 → q1 = q2.
Proof.
  intros Hw1 Hw2 H1 H2.
  destruct (wi_links _ _ _ Hw1 _ _ H1) as (r & Hr & Hrep1).
  destruct (wi_links _ _ _ Hw2 _ _ H2) as (r' & Hr' & Hrep2). simplify_eq.
  pose proof (link_rep_inj _ _ _ Hrep1 Hrep2) as Hp.
  assert (∀ Q o q, winv Q o w → Q !! l = Some q → Forall (λ x, heap (mem w) !! x.1 = Some x.2) q) as Hh.
  { intros Q o q Hw Hq. apply Forall_forall. intros [p pk] Hin.
    eapply Mem_lookup; [apply (wi_mem _ _ _ Hw)|]. apply elem_of_app. left.
    rewrite (on_links_lookup _ _ _ Hq). apply elem_of_app. by left. }
  pose proof (Hh _ _ _ Hw1 H1) as F1. pose proof (Hh _ _ _ Hw2 H2) as F2. clear -Hp F1 F2.
  revert q2 Hp F2. induction q1 as [|[p pk] q1 IH]; intros [|[p' pk'] q2] Hp F2; simplify_eq/=; [done|].
  apply Forall_cons in F1 as [E1 F1]. apply Forall_cons in F2 as [E2 F2]. simpl in *.
  rewrite E1 in E2. simplify_eq. f_equal. by apply IH.
Qed.
