(* ===== verification/Offload.v ===== *)
(** * offload.rs: the apps that undo the offloads of Linux

    [Checksum] fills in TCP and UDP checksums that the kernel left to the
    network card; [TSD] cuts TCP segments that the kernel left to the network
    card to cut into segments of at most [mss] bytes. *)

From S2P Require Import Prelude Bytes Lib OnesComplement Checksum ReadBounds Header Packet App.
From S2P Require Link Tcp Udp Ethernet Ipv4.
#[local] Existing Instances Ethernet.Ethernet_layout Ethernet.Ethernet_laws
  Ipv4.IPv4_layout Ipv4.IPv4_laws Ipv4.PseudoHeader_layout Ipv4.PseudoHeader_laws
  Tcp.TCP_layout Tcp.TCP_laws Udp.UDP_layout Udp.UDP_laws.
#[local] Open Scope Z_scope.

Abbreviation Eth := Ethernet.Ethernet.
Abbreviation IP := Ipv4.IPv4.
Abbreviation TCP := Tcp.TCP.
Abbreviation UDP := Udp.UDP.

(** [&p.data[ofs..]] *)
Definition data_from (ofs : nat) (data : bytes) : outcome bytes :=
  assert "range start index out of range" (bool_decide (ofs ≤ length data)%nat);;
  Ok (drop ofs data).

Section checksum.
Context `{Target}.

(** The headers of a packet are pointers into its data: [tcp.checksum_compute]
    writes to [p.data]. *)
Definition maybe_fill_in_checksum (p : Packet) : outcome Packet :=
  eth ← from_mem (p_data p) 0;
  if Ethernet.ethertype (header_ref (T:=Eth) eth (p_data p)) =? Ethernet.TYPE_IPV4 then
    let ip_ofs := size_of Eth in
    ip ← from_mem (p_data p) ip_ofs;
    if Ipv4.ihl (header_ref (T:=IP) ip (p_data p)) >? 5 then Ok p
    else
      let proto_ofs := (size_of Eth + size_of IP)%nat in
      let proto_length := u16 (p_length p - Z.of_nat proto_ofs) in
      if Ipv4.protocol (header_ref (T:=IP) ip (p_data p)) =? Ipv4.PROTOCOL_TCP then
        tcp ← from_mem (p_data p) proto_ofs;
        pseudo_csum ← Ipv4.pseudo_checksum Ipv4.PROTOCOL_TCP proto_length (header_ref (T:=IP) ip (p_data p));
        if ntohs (Tcp.checksum (header_ref (T:=TCP) tcp (p_data p))) =? not16 pseudo_csum then
          let payload_ofs := (proto_ofs + size_of TCP)%nat in
          let payload_length := u16 (p_length p - Z.of_nat payload_ofs) in
          payload ← data_from payload_ofs (p_data p);
          h ← Tcp.checksum_compute payload payload_length (not16 pseudo_csum) (header_ref (T:=TCP) tcp (p_data p));
          Ok (mkPacket (p_length p) (header_mut (T:=TCP) tcp (λ _, h) (p_data p)))
        else Ok p
      else if Ipv4.protocol (header_ref (T:=IP) ip (p_data p)) =? Ipv4.PROTOCOL_UDP then
        udp ← from_mem (p_data p) proto_ofs;
        pseudo_csum ← Ipv4.pseudo_checksum Ipv4.PROTOCOL_UDP proto_length (header_ref (T:=IP) ip (p_data p));
        if ntohs (Udp.checksum (header_ref (T:=UDP) udp (p_data p))) =? not16 pseudo_csum then
          let payload_ofs := (proto_ofs + size_of UDP)%nat in
          let payload_length := u16 (p_length p - Z.of_nat payload_ofs) in
          payload ← data_from payload_ofs (p_data p);
          h ← Udp.checksum_compute payload payload_length (not16 pseudo_csum) (header_ref (T:=UDP) udp (p_data p));
          Ok (mkPacket (p_length p) (header_mut (T:=UDP) udp (λ _, h) (p_data p)))
        else Ok p
      else Ok p
  else Ok p.

(** struct Checksum, struct ChecksumApp (without fields) *)
Record ChecksumApp : Type := mkChecksumApp {}.

Definition checksum_push (app : ChecksumApp) (ports : Ports) : ST World ChecksumApp :=
  io_scope ports (λ input output,
    drain input (λ app p,
      pk ← on_mem (deref p);
      pk ← lift (maybe_fill_in_checksum pk);
      on_mem (write p pk);;
      link_transmit output p;;
      mret app) app).

#[export] Instance ChecksumApp_App : App ChecksumApp := {|
  has_pull _ := false;
  pull := no_pull;
  has_push _ := true;
  push := checksum_push;
  has_stop _ := false;
  stop := no_stop
|}.
End checksum.

(** ** What is in a packet *)

Definition eth_of (p : Packet) : Eth := header_ref (mkHeader 0) (p_data p).
Definition ip_of (p : Packet) : IP := header_ref (mkHeader 14) (p_data p).
(** The header behind an IPv4 header without options. *)
Definition l4_of (T : Type) `{!Layout T} (p : Packet) : T := header_ref (mkHeader 34) (p_data p).

(** What follows the IPv4 header. *)
Definition segment (p : Packet) : bytes := slice 34 (Z.to_nat (p_length p) - 34) (p_data p).

Definition pseudo_header (proto : Z) (p : Packet) : Ipv4.PseudoHeader :=
  Ipv4.mkPseudoHeader (Ipv4.src (ip_of p)) (Ipv4.dst (ip_of p)) 0 proto (htons (p_length p - 34)).

(** The receiver's test: the sum over pseudo header and segment. *)
Definition l4_verifies `{Target} (proto : Z) (p : Packet) : Prop :=
  let whole := encode (pseudo_header proto p) ++ segment p in
  ipsum whole (Z.of_nat (length whole)) 0 = Ok 0.

(** The packet with its transport header changed. *)
Definition with_l4 {T} `{!Layout T} (h : T) (p : Packet) : Packet :=
  mkPacket (p_length p) (header_mut (T:=T) (mkHeader 34) (λ _, h) (p_data p)).

(** An IPv4 packet without options, carrying protocol [proto]. *)
Definition carries (proto : Z) (p : Packet) : Prop :=
  Ethernet.ethertype (eth_of p) = Ethernet.TYPE_IPV4 ∧ Ipv4.ihl (ip_of p) ≤ 5 ∧
  Ipv4.protocol (ip_of p) = proto.

Section packets.
Context (p : Packet) (Hwf : wf_packet p).

Lemma data_length : Z.of_nat (length (p_data p)) = 65535.
Proof. destruct Hwf as (_ & -> & _). apply payload_size_z. Qed.

Lemma data_bytes : are_bytes (p_data p).
Proof. by destruct Hwf as (_ & _ & ?). Qed.

Lemma header_in_range {T} `{!Layout T} ofs :
  (ofs + size_of T ≤ 100)%nat → in_range (mkHeader ofs : Header T) (p_data p).
Proof. intros. unfold in_range. simpl. pose proof data_length. lia. Qed.

Lemma from_mem_data {T} `{!Layout T} ofs :
  (ofs + size_of T ≤ 100)%nat → from_mem (p_data p) ofs = Ok (mkHeader ofs : Header T).
Proof. intros. apply from_mem_ok. by apply header_in_range. Qed.

Lemma ip_of_ok : fields_ok (ip_of p).
Proof. apply header_ref_ok; [apply data_bytes|]. apply header_in_range. simpl. lia. Qed.

Lemma l4_of_ok {T} `{!Layout T, !LayoutLaws T} : (size_of T ≤ 20)%nat → fields_ok (l4_of T p).
Proof. intros. apply header_ref_ok; [apply data_bytes|]. apply header_in_range. lia. Qed.

Lemma with_l4_wf {T} `{!Layout T, !LayoutLaws T} (h : T) :
  (size_of T ≤ 20)%nat → fields_ok h → wf_packet (with_l4 h p).
Proof.
  intros Hs Hh. destruct Hwf as (Hu & Hl & Hb). split_and!; simpl; [done| |].
  - rewrite <-Hl. apply length_header_mut; [|done]. apply header_in_range. lia.
  - by apply header_mut_are_bytes.
Qed.

Lemma ip_of_with_l4 {T} `{!Layout T, !LayoutLaws T} (h : T) :
  (size_of T ≤ 20)%nat → fields_ok h → ip_of (with_l4 h p) = ip_of p.
Proof.
  intros Hs Hh. unfold ip_of, with_l4. cbn [p_data]. apply header_ref_mut_ne; [|done|simpl; lia].
  apply header_in_range. lia.
Qed.

Lemma eth_of_with_l4 {T} `{!Layout T, !LayoutLaws T} (h : T) :
  (size_of T ≤ 20)%nat → fields_ok h → eth_of (with_l4 h p) = eth_of p.
Proof.
  intros Hs Hh. unfold eth_of, with_l4. cbn [p_data]. apply header_ref_mut_ne; [|done|simpl; lia].
  apply header_in_range. lia.
Qed.

Lemma l4_of_with_l4 {T} `{!Layout T, !LayoutLaws T} (h : T) :
  (size_of T ≤ 20)%nat → fields_ok h → l4_of T (with_l4 h p) = h.
Proof.
  intros Hs Hh. unfold l4_of, with_l4. cbn [p_data]. apply (header_ref_mut (mkHeader 34 : Header T)); [|done].
  apply header_in_range. lia.
Qed.

Lemma pseudo_header_ok proto :
  is_u8 proto → fields_ok (pseudo_header proto p).
Proof.
  intros. pose proof ip_of_ok as (?&?&?&?&?&?&?&?&?). split_and!; try done. apply htons_range.
Qed.

(** The segment is the transport header and its payload. *)
Lemma segment_with_l4 {T} `{!Layout T, !LayoutLaws T} (h : T) :
  (size_of T ≤ 20)%nat → fields_ok h → 34 + Z.of_nat (size_of T) ≤ p_length p →
  segment (with_l4 h p)
  = encode h ++ take (Z.to_nat (p_length p - (34 + Z.of_nat (size_of T)))) (drop (34 + size_of T) (p_data p)).
Proof.
  intros Hs Hh Hl. unfold segment, with_l4. cbn [p_length p_data].
  pose proof (header_in_range (T:=T) 34 ltac:(lia)) as Hr.
  assert (Z.to_nat (p_length p) - 34
          = size_of T + (Z.to_nat (p_length p) - 34 - size_of T))%nat as -> by lia.
  rewrite slice_app. f_equal.
  - apply (header_slice_mut (mkHeader 34 : Header T)); done.
  - rewrite slice_header_mut_ne by (done || (simpl; lia)). unfold slice. f_equal. lia.
Qed.
End packets.

(** ** The interface of a transport protocol with a checksum *)

Class Transport `{Target} (T : Type) `{!Layout T} : Type := {
  proto : Z;
  get_sum : T → Z;
  set_sum : Z → T → T;
  compute : bytes → Z → Z → T → outcome T;
}.
Arguments proto {_} T {_ _}.

Class TransportLaws `{Target} (T : Type) `{!Layout T, !Transport T} : Prop := {
  transport_layout :: LayoutLaws T;
  transport_size : (size_of T ≤ 20)%nat ∧ Nat.Even (size_of T);
  transport_proto : is_u8 (proto T);
  set_sum_ok h c : fields_ok h → is_u16 c → fields_ok (set_sum c h);
  compute_spec payload length init h :
    fields_ok h → are_bytes payload →
    0 ≤ length ≤ Z.of_nat (List.length payload) → length < 2 ^ 63 → is_u16 init →
    ∃ c, compute payload length init h = Ok (set_sum c h) ∧ is_u16 c ∧
         (hsum ← ipsum (encode (set_sum c h)) (Z.of_nat (size_of T)) init;
          ipsum payload length (not16 hsum)) = Ok 0;
}.

#[export] Instance TCP_transport `{Target} : Transport TCP := {|
  proto := Ipv4.PROTOCOL_TCP; get_sum := Tcp.checksum; set_sum := Tcp.set_checksum;
  compute := Tcp.checksum_compute
|}.
#[export] Instance UDP_transport `{Target} : Transport UDP := {|
  proto := Ipv4.PROTOCOL_UDP; get_sum := Udp.checksum; set_sum := Udp.set_checksum;
  compute := Udp.checksum_compute
|}.

#[export] Instance TCP_transport_laws `{Target} : TransportLaws TCP.
Proof.
  split; [apply _|split; [simpl; lia|by exists 10%nat]|done| |apply Tcp.tcp_checksum_compute_spec].
  intros h c (?&?&?&?&?&?&?&?) Hc. by split_and!.
Qed.
#[export] Instance UDP_transport_laws `{Target} : TransportLaws UDP.
Proof.
  split; [apply _|split; [simpl; lia|by exists 4%nat]|done| |apply Udp.udp_checksum_compute_spec].
  intros h c (?&?&?&?) Hc. by split_and!.
Qed.

Section transport.
Context `{Target} (T : Type) `{!Layout T, !Transport T}.

(** The branch of [maybe_fill_in_checksum] for one protocol. *)
Definition fill (p : Packet) : outcome Packet :=
  let proto_length := u16 (p_length p - 34) in
  h ← from_mem (p_data p) 34;
  pseudo_csum ← Ipv4.pseudo_checksum (proto T) proto_length (ip_of p);
  if ntohs (get_sum (header_ref (T:=T) h (p_data p))) =? not16 pseudo_csum then
    let payload_ofs := (34 + size_of T)%nat in
    let payload_length := u16 (p_length p - Z.of_nat payload_ofs) in
    payload ← data_from payload_ofs (p_data p);
    h' ← compute payload payload_length (not16 pseudo_csum) (header_ref (T:=T) h (p_data p));
    Ok (mkPacket (p_length p) (header_mut (T:=T) h (λ _, h') (p_data p)))
  else Ok p.

(** The checksum field holds the seed that Linux leaves there. *)
Definition omitted (p : Packet) : Prop :=
  ∃ ps, Ipv4.pseudo_checksum (proto T) (u16 (p_length p - 34)) (ip_of p) = Ok ps ∧
        ntohs (get_sum (l4_of T p)) = not16 ps.

Context `{!TransportLaws T} (p : Packet) (Hwf : wf_packet p).

Lemma pseudo_checksum_ok len :
  is_u16 len → ∃ ps, Ipv4.pseudo_checksum (proto T) len (ip_of p) = Ok ps ∧ is_u16 ps.
Proof.
  intros Hl. pose proof (ip_of_ok p Hwf) as (?&?&?&?&?&?&?&?&?).
  unfold Ipv4.pseudo_checksum. rewrite ipsum_spec_ok.
  - eexists. split; [done|]. apply ipsum_spec_range.
  - apply encode_are_bytes. split_and!; try done; [apply transport_proto|apply htons_range].
  - simpl. lia.
  - done.
  - done.
Qed.

(** Not omitted: left alone. *)
Lemma fill_kept : ¬ omitted p → fill p = Ok p.
Proof.
  intros Hno. unfold fill. destruct transport_size as [Hs _].
  rewrite from_mem_data by (done || lia). cbn [mbind outcome_bind].
  destruct (pseudo_checksum_ok (u16 (p_length p - 34)) (u16_range _)) as (ps & Hps & _).
  rewrite Hps. cbn [mbind outcome_bind].
  destruct (Z.eqb_spec (ntohs (get_sum (l4_of T p))) (not16 ps)) as [He|Hne].
  - destruct Hno. by exists ps.
  - apply Z.eqb_neq in Hne. unfold l4_of in Hne. by rewrite Hne.
Qed.

(** Omitted: filled in, and the packet verifies. *)
Lemma fill_filled :
  omitted p → 34 + Z.of_nat (size_of T) ≤ p_length p →
  ∃ c, is_u16 c ∧ fill p = Ok (with_l4 (set_sum c (l4_of T p)) p) ∧
       l4_verifies (proto T) (with_l4 (set_sum c (l4_of T p)) p).
Proof.
  intros (ps & Hps & Heq) Hl. destruct transport_size as [Hs Hev]. pose proof Hwf as (Hu & _ & Hb).
  pose proof (data_length p Hwf) as Hlen. unfold is_u16 in Hu.
  pose proof (l4_of_ok p Hwf Hs) as Hok.
  unfold fill. rewrite from_mem_data by (done || lia). cbn [mbind outcome_bind]. rewrite Hps.
  cbn [mbind outcome_bind]. unfold l4_of in Heq. rewrite Heq, Z.eqb_refl.
  unfold data_from, assert. rewrite bool_decide_true by lia. cbn [mbind outcome_bind].
  rewrite (u16_id (p_length p - _)) by (unfold is_u16; lia).
  destruct (compute_spec (drop (34 + size_of T) (p_data p)) (p_length p - Z.of_nat (34 + size_of T))
    (not16 ps) (l4_of T p) Hok) as (c & Hc & Hcr & Hv).
  { by apply Forall_drop. } { rewrite length_drop. lia. } { lia. } { apply not16_range. }
  unfold l4_of in Hc. rewrite Hc. cbn [mbind outcome_bind]. exists c. split_and!; [done|done|].
  pose proof (set_sum_ok _ c Hok Hcr) as Hok'. unfold l4_verifies.
  rewrite segment_with_l4 by (apply _ || done || lia).
  rewrite Nat2Z.inj_add in Hv. change (Z.of_nat 34) with 34 in Hv.
  assert (pseudo_header (proto T) (with_l4 (set_sum c (l4_of T p)) p) = pseudo_header (proto T) p) as ->.
  { unfold pseudo_header. by rewrite ip_of_with_l4 by (apply _ || done). }
  pose proof (pseudo_header_ok p Hwf _ transport_proto) as Hph.
  rewrite u16_id in Hps by (unfold is_u16; lia).
  apply (chained_checksum_whole _ _ _ _ ps).
  - by apply encode_are_bytes.
  - by apply encode_are_bytes.
  - by apply Forall_drop.
  - by exists 6%nat.
  - by rewrite length_encode.
  - done.
  - rewrite length_encode by done. lia.
  - rewrite length_drop. lia.
  - lia.
  - exact Hps.
  - by rewrite length_encode.
Qed.
End transport.

Section checksum_facts.
Context `{Target} (p : Packet) (Hwf : wf_packet p).

(** The code, as a case distinction on the packet. *)
Lemma fill_cases :
  maybe_fill_in_checksum p =
    if decide (carries Ipv4.PROTOCOL_TCP p) then fill TCP p
    else if decide (carries Ipv4.PROTOCOL_UDP p) then fill UDP p
    else Ok p.
Proof.
  unfold maybe_fill_in_checksum, carries.
  rewrite (from_mem_data p Hwf (T:=Eth)) by (simpl; lia). cbn [mbind outcome_bind].
  change (header_ref (mkHeader 0) (p_data p)) with (eth_of p).
  destruct (Z.eqb_spec (Ethernet.ethertype (eth_of p)) Ethernet.TYPE_IPV4) as [He|He];
    [|by rewrite !decide_False by naive_solver].
  change (size_of Eth) with 14%nat.
  rewrite (from_mem_data p Hwf (T:=IP)) by (simpl; lia). cbn [mbind outcome_bind].
  change (header_ref (mkHeader 14) (p_data p)) with (ip_of p).
  destruct (Z.gtb_spec (Ipv4.ihl (ip_of p)) 5) as [Hi|Hi];
    [by rewrite !decide_False by (intros (?&?&?); lia)|].
  change (14 + size_of IP)%nat with 34%nat. change (Z.of_nat 34) with 34.
  destruct (Z.eqb_spec (Ipv4.protocol (ip_of p)) Ipv4.PROTOCOL_TCP) as [Ht|Ht].
  - rewrite decide_True by done. reflexivity.
  - rewrite decide_False by naive_solver.
    destruct (Z.eqb_spec (Ipv4.protocol (ip_of p)) Ipv4.PROTOCOL_UDP) as [Hu|Hu].
    + rewrite decide_True by done. reflexivity.
    + rewrite decide_False by naive_solver. done.
Qed.

Lemma carries_unique a b : carries a p → carries b p → a = b.
Proof. intros (_&_&<-) (_&_&<-). done. Qed.

Lemma fill_is_tcp : carries Ipv4.PROTOCOL_TCP p → maybe_fill_in_checksum p = fill TCP p.
Proof. intros. rewrite fill_cases. by rewrite decide_True. Qed.

Lemma fill_is_udp : carries Ipv4.PROTOCOL_UDP p → maybe_fill_in_checksum p = fill UDP p.
Proof.
  intros Hc. rewrite fill_cases, decide_False, decide_True; [done..|].
  intros Hc'. by pose proof (carries_unique _ _ Hc Hc').
Qed.

(** The transport header is there, if there is one. *)
Definition complete : Prop :=
  (carries Ipv4.PROTOCOL_TCP p → 54 ≤ p_length p) ∧
  (carries Ipv4.PROTOCOL_UDP p → 42 ≤ p_length p).

Lemma fill_total_for (T : Type) `{!Layout T, !Transport T, !TransportLaws T} :
  34 + Z.of_nat (size_of T) ≤ p_length p →
  ∃ p', fill T p = Ok p' ∧ wf_packet p' ∧ p_length p' = p_length p.
Proof.
  intros Hl. pose proof transport_size as [Hs _].
  destruct (pseudo_checksum_ok T p Hwf (u16 (p_length p - 34)) (u16_range _)) as (ps & Hps & _).
  destruct (decide (ntohs (get_sum (l4_of T p)) = not16 ps)) as [He|He].
  - destruct (fill_filled T p Hwf) as (c & Hc & Hf & _); [by exists ps|lia|].
    rewrite Hf. eexists. split_and!; [done| |done].
    apply with_l4_wf; [done|apply _|done|]. apply set_sum_ok; [|done].
    apply l4_of_ok; [done|apply _|done].
  - rewrite (fill_kept T p Hwf); [by eexists|].
    intros (ps' & Hps' & ?). rewrite Hps in Hps'. by simplify_eq.
Qed.

(** Such a packet is always processed. *)
Lemma fill_total :
  complete → ∃ p', maybe_fill_in_checksum p = Ok p' ∧ wf_packet p' ∧ p_length p' = p_length p.
Proof.
  intros [Ht Hu]. rewrite fill_cases. repeat case_decide.
  - apply (fill_total_for TCP). simpl. apply Ht. done.
  - apply (fill_total_for UDP). simpl. apply Hu. done.
  - by eexists.
Qed.
End checksum_facts.

(** A payload longer than the slice is read out of bounds. *)
Class TransportReads `{Target} (T : Type) `{!Layout T, !Transport T} : Prop :=
  compute_reads payload length init h :
    fields_ok h → is_u16 init → 0 ≤ length < 2 ^ 63 → Z.of_nat (List.length payload) < length →
    ∃ w, compute payload length init h = UB w.

#[export] Instance TCP_reads `{Target} : TransportReads TCP.
Proof.
  intros payload length init h Hok Hi Hl Hlt. simpl. unfold Tcp.checksum_compute.
  pose proof (set_sum_ok (T:=TCP) h 0 Hok ltac:(done)) as Hok0.
  rewrite ipsum_spec_ok; [|by apply encode_are_bytes|simpl; lia|done|done].
  cbn [mbind outcome_bind].
  destruct (ipsum_reads payload length (not16 (ipsum_spec (encode (Tcp.set_checksum 0 h))
    (Z.of_nat (size_of TCP)) init))) as [w Hw]; [done..|]. rewrite Hw. by eexists.
Qed.
#[export] Instance UDP_reads `{Target} : TransportReads UDP.
Proof.
  intros payload length init h Hok Hi Hl Hlt. simpl. unfold Udp.checksum_compute.
  pose proof (set_sum_ok (T:=UDP) h 0 Hok ltac:(done)) as Hok0.
  rewrite ipsum_spec_ok; [|by apply encode_are_bytes|simpl; lia|done|done].
  cbn [mbind outcome_bind].
  destruct (ipsum_reads payload length (not16 (ipsum_spec (encode (Udp.set_checksum 0 h))
    (Z.of_nat (size_of UDP)) init))) as [w Hw]; [done..|]. rewrite Hw. by eexists.
Qed.

(** A runt: the payload length wraps around below zero, and the checksum is
    computed over more bytes than the packet buffer has. *)
Lemma fill_runt `{Target} (T : Type) `{!Layout T, !Transport T, !TransportLaws T, !TransportReads T} p :
  wf_packet p → omitted T p → p_length p < 34 + Z.of_nat (size_of T) →
  ∃ w, fill T p = UB w.
Proof.
  intros Hwf (ps & Hps & Heq) Hl. pose proof transport_size as [Hs _].
  pose proof Hwf as (Hu & _ & Hb). pose proof (data_length p Hwf) as Hlen.
  pose proof (l4_of_ok p Hwf Hs) as Hok.
  unfold fill. rewrite from_mem_data by (done || lia). cbn [mbind outcome_bind]. rewrite Hps.
  cbn [mbind outcome_bind]. unfold l4_of in *. rewrite Heq, Z.eqb_refl.
  unfold data_from, assert. rewrite bool_decide_true by lia. cbn [mbind outcome_bind].
  set (k := size_of T) in *. destruct (compute_reads (drop (34 + k) (p_data p))
    (u16 (p_length p - Z.of_nat (34 + k))) (not16 ps) (header_ref {| ptr := 34 |} (p_data p)))
    as [w Hw]; [done|apply not16_range| | |].
  - pose proof (u16_range (p_length p - Z.of_nat (34 + k))) as Hr. unfold is_u16 in Hr. lia.
  - rewrite length_drop. clear -Hl Hlen Hu Hs. revert Hu. generalize (p_length p) k Hs Hl Hlen.
    clear. intros len k Hs Hl Hlen Hu. word.
  - rewrite Hw. by eexists.
Qed.

(** ** The Checksum app *)

(** [y] is packet [x] after [maybe_fill_in_checksum]. *)
Definition filled `{Target} (x y : loc * Packet) : Prop :=
  y.1 = x.1 ∧ maybe_fill_in_checksum x.2 = Ok y.2.

Section checksum_app.
Context `{Target} (i o : link_id) (Hio : i ≠ o).

Definition checksum_body (app : ChecksumApp) (p : loc) : ST World ChecksumApp :=
  pk ← on_mem (deref p);
  pk ← lift (maybe_fill_in_checksum pk);
  on_mem (write p pk);;
  link_transmit o p;;
  mret app.

Lemma checksum_body_wp Q q q' owned app p pk pk' w :
  winv (io Q i q o q') ((p, pk) :: owned) w →
  maybe_fill_in_checksum pk = Ok pk' → wf_packet pk' →
  wp (checksum_body app p)
    (λ _ w', winv (io Q i q o (link_tx q' (p, pk'))) owned w' ∧ same_env w w') w.
Proof.
  intros Hw Hf Hwf. unfold checksum_body. apply wpx_bind. eapply deref_rule; [exact Hw|].
  apply wpx_bind. eapply wpx_lift; [exact Hf|].
  apply wpx_bind. eapply wpx_mono; [by eapply write_rule|]. intros _ w1 [Hw1 He1].
  apply wpx_bind. eapply wpx_mono; [by eapply io_transmit|]. intros _ w2 [Hw2 He2].
  apply wpx_ret. split; [done|]. by etrans.
Qed.

Definition checksum_transfer : transfer ChecksumApp := λ a e x out a' e',
  a' = a ∧ e' = e ∧ ∃ y, filled x y ∧ out = [y].

Lemma checksum_body_spec E Q :
  body_spec E Q i o checksum_body checksum_transfer (λ _ _, True) complete.
Proof.
  intros app q q' p pk owned w Hw _ Hc. pose proof (winv_owned _ _ _ _ _ Hw) as [_ Hwf].
  destruct (fill_total pk Hwf Hc) as (pk' & Hfill & Hwf' & _).
  eapply wp_conseq; [by eapply checksum_body_wp|]. intros [] w' [Hw' He].
  exists [(p, pk')]. split_and!; [|done|by apply He|done].
  split_and!; [by destruct app|by apply same_env_env|by exists (p, pk')].
Qed.
End checksum_app.

(** The Checksum app forwards every packet of its input, in order and with
    at most its checksum changed ([filled]); the input is empty afterwards, no
    packet is lost but those that do not fit on the output, and nothing else in
    the world changes.  The borrows of both links succeed and are released. *)
Theorem checksum_push_forwards `{Target} app ports i o Q qi qo owned w :
  input ports !! "input" = Some i → output ports !! "output" = Some o → i ≠ o →
  i ∉ borrowed w → o ∉ borrowed w →
  winv (io Q i qi o qo) owned w → Forall (λ x, complete x.2) qi →
  wp (push app ports)
    (λ _ w', ∃ qf, Forall2 filled qi qf ∧
                   winv (io Q i [] o (link_txs qo qf)) owned w' ∧ same_env w w') w.
Proof.
  intros Hi Ho Hio Hbi Hbo Hw Hl. simpl.
  eapply wpx_mono; [by eapply (io_forwards _ Q i o checksum_body); [..|apply checksum_body_spec| | |]|].
  intros a' w' (outs & Hf & _ & Hb & Hw').
  apply (forwards_stateless _ (λ x out, ∃ y, filled x y ∧ out = [y])) in Hf as (_ & He & outss & -> & Hf);
    [|done].
  exists (concat outss). split_and!; [|done|by apply same_env_intro].
  clear -Hf. induction Hf as [|x out xs outss (y & Hy & ->) _ IH]; [constructor|]. by constructor.
Qed.

(** ** Filling in checksums *)

(** C19. A TCP or UDP packet (IPv4, no options, header complete) whose checksum
    Linux left out (the field holds the seed) gets a checksum: only that field
    changes, and the sum over pseudo header and segment then verifies. *)
Theorem checksum_fills_in `{Target} p :
  wf_packet p →
  (carries Ipv4.PROTOCOL_TCP p → omitted TCP p → 54 ≤ p_length p →
   ∃ c, let p' := with_l4 (Tcp.set_checksum c (l4_of TCP p)) p in
        is_u16 c ∧ maybe_fill_in_checksum p = Ok p' ∧ l4_verifies Ipv4.PROTOCOL_TCP p') ∧
  (carries Ipv4.PROTOCOL_UDP p → omitted UDP p → 42 ≤ p_length p →
   ∃ c, let p' := with_l4 (Udp.set_checksum c (l4_of UDP p)) p in
        is_u16 c ∧ maybe_fill_in_checksum p = Ok p' ∧ l4_verifies Ipv4.PROTOCOL_UDP p').
Proof.
  intros Hwf. split; intros Hc Ho Hl.
  - rewrite fill_is_tcp by done. by apply (fill_filled TCP p Hwf Ho).
  - rewrite fill_is_udp by done. by apply (fill_filled UDP p Hwf Ho).
Qed.

(** A TCP segment from 192.168.0.123 to 10.10.0.42, with the checksum field that
    Linux leaves for the network card. *)
Definition eth_header : bytes := [82; 84; 0; 2; 2; 2; 82; 84; 0; 1; 1; 1; 8; 0].
Definition ip_header : bytes :=
  [69; 0; 0; 44; 89; 26; 64; 0; 64; 6; 22; 91; 192; 168; 0; 123; 10; 10; 0; 42].
Definition tcp_header (csum_hi csum_lo : Z) : bytes :=
  [0; 200; 0; 80; 0; 0; 0; 1; 0; 0; 0; 2; 80; 16; 1; 0; csum_hi; csum_lo; 0; 0].
Definition sample_tcp : Packet :=
  frame_packet (eth_header ++ ip_header ++ tcp_header 203 117 ++ [1; 2; 3; 4]).

Lemma sample_tcp_wf : wf_packet sample_tcp.
Proof. apply frame_packet_wf; by_compute. Qed.

Lemma sample_tcp_carries : carries Ipv4.PROTOCOL_TCP sample_tcp.
Proof. split_and!; [reflexivity|by_compute|reflexivity]. Qed.

Lemma sample_tcp_omitted : @omitted x86_64 TCP _ TCP_transport sample_tcp.
Proof.
  exists 13450. split; [|reflexivity].
  change (ip_of sample_tcp) with (decode (T:=IP) ip_header). vm_compute. reflexivity.
Qed.

Lemma checksum_fills_in_witness :
  ∃ c, let p' := with_l4 (Tcp.set_checksum c (l4_of TCP sample_tcp)) sample_tcp in
       is_u16 c ∧ @maybe_fill_in_checksum x86_64 sample_tcp = Ok p' ∧
       @l4_verifies x86_64 Ipv4.PROTOCOL_TCP p'.
Proof.
  apply (@checksum_fills_in x86_64 sample_tcp sample_tcp_wf); [apply sample_tcp_carries|
    apply sample_tcp_omitted|by_compute].
Defined.

(** Every other packet is left alone: not IPv4, with IP options, of another
    protocol, or with a checksum of its own. *)
Theorem checksum_leaves_alone `{Target} p :
  wf_packet p →
  ¬ (carries Ipv4.PROTOCOL_TCP p ∧ omitted TCP p) →
  ¬ (carries Ipv4.PROTOCOL_UDP p ∧ omitted UDP p) →
  maybe_fill_in_checksum p = Ok p.
Proof.
  intros Hwf Ht Hu. rewrite fill_cases by done. repeat case_decide; [| |done].
  - apply fill_kept; [apply _|done|]. naive_solver.
  - apply fill_kept; [apply _|done|]. naive_solver.
Qed.

(** A packet that is not IPv4. *)
Definition sample_ipv6 : Packet :=
  frame_packet [82; 84; 0; 2; 2; 2; 82; 84; 0; 1; 1; 1; 134; 221].

Lemma checksum_leaves_alone_witness :
  @maybe_fill_in_checksum aarch64 sample_ipv6 = Ok sample_ipv6.
Proof.
  apply (@checksum_leaves_alone aarch64).
  - apply frame_packet_wf; by_compute.
  - intros [(Hc & _) _]. discriminate Hc.
  - intros [(Hc & _) _]. discriminate Hc.
Defined.

(** C36. A packet with an omitted checksum that ends before its TCP (or UDP)
    header does makes the code read outside of the packet buffer: the payload
    length, a u16, wraps around below zero. *)
Theorem checksum_runt_reads_outside `{Target} p :
  wf_packet p →
  (carries Ipv4.PROTOCOL_TCP p → omitted TCP p → p_length p < 54 →
   ∃ what, maybe_fill_in_checksum p = UB what) ∧
  (carries Ipv4.PROTOCOL_UDP p → omitted UDP p → p_length p < 42 →
   ∃ what, maybe_fill_in_checksum p = UB what).
Proof.
  intros Hwf. split; intros Hc Ho Hl.
  - rewrite fill_is_tcp by done. by apply (fill_runt TCP p Hwf Ho).
  - rewrite fill_is_udp by done. by apply (fill_runt UDP p Hwf Ho).
Qed.

(** 52 bytes: the frame ends with the checksum field. *)
Definition sample_runt : Packet :=
  frame_packet (eth_header ++ ip_header ++ take 18 (tcp_header 203 111)).

Lemma checksum_runt_reads_outside_witness :
  ∃ what, @maybe_fill_in_checksum x86_64 sample_runt = UB what.
Proof.
  assert (wf_packet sample_runt) as Hwf by (apply frame_packet_wf; by_compute).
  apply (proj1 (@checksum_runt_reads_outside x86_64 sample_runt Hwf)).
  - split_and!; [reflexivity|by_compute|reflexivity].
  - exists 13456. split; [|reflexivity].
    change (ip_of sample_runt) with (decode (T:=IP) ip_header). vm_compute. reflexivity.
  - by_compute.
Defined.

(** The links of the examples: from link 1 to link 2. *)
Definition sample_ports : Ports := mkPorts {["input" := 1%positive]} {["output" := 2%positive]}.

Lemma checksum_push_forwards_witness :
  ∃ w qi, qi.*2 = [sample_tcp; sample_ipv6] ∧ winv (io ∅ 1 qi 2 []) [] w ∧
    wp (@checksum_push x86_64 (mkChecksumApp) sample_ports)
      (λ _ w', ∃ qf, Forall2 (@filled x86_64) qi qf ∧
                     winv (io ∅ 1 [] 2 (link_txs [] qf)) [] w' ∧ same_env w w') w.
Proof.
  destruct (world_with (Some 0) Z.of_nat (λ _, SpecFloat.S754_zero false) [sample_tcp; sample_ipv6])
    as (w & qi & Hw & Hq & He).
  { apply Forall_cons_2; [apply sample_tcp_wf|]. apply Forall_cons_2; [|by apply Forall_nil_2].
    apply frame_packet_wf; by_compute. }
  { done. }
  exists w, qi. split_and!; [done|done|].
  apply (@checksum_push_forwards x86_64 mkChecksumApp sample_ports 1 2 ∅ qi [] []);
    [done|done|done|by rewrite (se_borrowed _ _ He)|by rewrite (se_borrowed _ _ He)|done|].
  destruct qi as [|[p1 pk1] [|[p2 pk2] [|]]]; simplify_eq/=.
  apply Forall_cons_2; [|apply Forall_cons_2; [|by apply Forall_nil_2]].
  - split; intros _; by_compute.
  - split; intros (Hc & _); discriminate Hc.
Defined.

(** A world in which the sample packet has just been received. *)
Lemma sample_received : ∃ w p, winv (io ∅ 1 [] 2 []) [(p, sample_tcp)] w ∧ borrowed w = ∅.
Proof.
  destruct (world_with (Some 0) Z.of_nat (λ _, SpecFloat.S754_zero false) [sample_tcp])
    as (w & q & Hw & Hq & He); [by apply Forall_singleton, sample_tcp_wf|done|].
  destruct q as [|[p pk] [|]]; simplify_eq/=.
  destruct (wp_returns _ _ _ (io_receive ∅ 1 2 ltac:(done) _ _ _ _ _ _ _ Hw)) as (p' & w' & _ & -> & Hw' & He').
  exists w', p. split; [done|]. by rewrite (se_borrowed _ _ He'), (se_borrowed _ _ He).
Qed.
