(* ===== verification/Tsd.v ===== *)
(** * offload.rs: TSD, the TCP segment deoptimization app

    Cuts TCP segments into segments of at most [mss] bytes of payload.  The
    header of the packet that is cut is updated in place and copied in front of
    every piece ([with_headers] describes a buffer with its IP and TCP headers
    replaced). *)

From S2P Require Import Prelude Bytes Lib OnesComplement Checksum Header Packet App Offload.
From S2P Require Link Tcp Udp Ethernet Ipv4.
#[local] Existing Instances Ethernet.Ethernet_layout Ethernet.Ethernet_laws
  Ipv4.IPv4_layout Ipv4.IPv4_laws Ipv4.PseudoHeader_layout Ipv4.PseudoHeader_laws
  Tcp.TCP_layout Tcp.TCP_laws.
#[local] Open Scope Z_scope.

Section tsd.
Context `{Target}.

(** Changes to a packet behind a box. *)
Definition update_data (p : loc) (f : bytes → outcome bytes) : ST pstate () :=
  pk ← deref p;
  data ← lift (f (p_data pk));
  write p (mkPacket (p_length pk) data).
Definition set_length (p : loc) (length : Z) : ST pstate () :=
  pk ← deref p;
  write p (mkPacket length (p_data pk)).

(** [lib::copy(&mut data[ofs..], &src[src_ofs..], len)] *)
Definition copy_at (ofs : nat) (src : bytes) (src_ofs len : nat) (data : bytes) : outcome bytes :=
  src ← data_from src_ofs src;
  dst ← data_from ofs data;
  Ok (take ofs data ++ copy dst src len).

(** Set length, checksum and TCP checksum seed for a segment of [s_length] bytes. *)
Definition update_headers (p : loc) (ip : Header IP) (tcp : Header TCP) (s_length : Z) : ST World () :=
  on_mem (update_data p (λ data,
    Ok (header_mut ip (Ipv4.set_total_length (u16 (s_length - 14))) data)));;
  on_mem (update_data p (λ data,
    ip' ← Ipv4.checksum_compute (header_ref ip data);
    Ok (header_mut ip (λ _, ip') data)));;
  pk ← on_mem (deref p);
  pseudo_csum ← lift (Ipv4.pseudo_checksum Ipv4.PROTOCOL_TCP (u16 (s_length - 34))
                        (header_ref ip (p_data pk)));
  on_mem (update_data p (λ data,
    Ok (header_mut tcp (Tcp.set_checksum (htons (not16 pseudo_csum))) data))).

(** Allocate, fill in and forward the next segment; the size of its payload. *)
Definition emit_segment (output : link_id) (p : loc) (ip : Header IP) (tcp : Header TCP)
    (mss payload_ofs data_ofs data_length : Z) : ST World Z :=
  s ← on_mem allocate;
  let slen := Z.min mss data_length in
  let s_length := u16 (payload_ofs + slen) in
  on_mem (set_length s s_length);;
  update_headers p ip tcp s_length;;
  pk ← on_mem (deref p);
  on_mem (update_data s (copy_at 0 (take (Z.to_nat payload_ofs) (p_data pk)) 0 (Z.to_nat payload_ofs)));;
  on_mem (update_data s (copy_at (Z.to_nat payload_ofs) (p_data pk) (Z.to_nat data_ofs) (Z.to_nat slen)));;
  link_transmit output s;;
  on_mem (update_data p (λ data,
    Ok (header_mut tcp (λ h, Tcp.set_seq (u32 (Tcp.seq h + slen)) h) data)));;
  mret slen.

(** while data_length > 0 *)
Fixpoint segment_loop (fuel : nat) (output : link_id) (p : loc) (ip : Header IP) (tcp : Header TCP)
    (mss payload_ofs data_ofs data_length : Z) : ST World () :=
  if data_length >? 0 then
    match fuel with
    | O => no_fuel
    | S fuel =>
        slen ← emit_segment output p ip tcp mss payload_ofs data_ofs data_length;
        segment_loop fuel output p ip tcp mss payload_ofs (data_ofs + slen) (data_length - slen)
    end
  else mret tt.

Definition forward_tcp_segments (output : link_id) (p : loc) (mss : Z) : ST World () :=
  pk ← on_mem (deref p);
  eth ← lift (from_mem (p_data pk) 0);
  if negb (Ethernet.ethertype (header_ref (T:=Eth) eth (p_data pk)) =? Ethernet.TYPE_IPV4) then
    link_transmit output p
  else
    ip ← lift (from_mem (p_data pk) (size_of Eth));
    if Ipv4.ihl (header_ref (T:=IP) ip (p_data pk)) >? 5 then
      link_transmit output p
    else if negb (Ipv4.protocol (header_ref (T:=IP) ip (p_data pk)) =? Ipv4.PROTOCOL_TCP) then
      link_transmit output p
    else
      let tcp_ofs := (size_of Eth + size_of IP)%nat in
      tcp ← lift (from_mem (p_data pk) tcp_ofs);
      let payload_ofs :=
        Z.min (Z.of_nat tcp_ofs + Tcp.size (header_ref (T:=TCP) tcp (p_data pk))) (p_length pk) in
      let payload_length := p_length pk - payload_ofs in
      if payload_length <=? mss then
        link_transmit output p
      else
        segment_loop (Z.to_nat payload_length) output p ip tcp mss payload_ofs payload_ofs payload_length;;
        on_mem (free p).

(** struct TSD, struct TSDApp *)
Record TSD : Type := mkTSD { mss : Z }.
Record TSDApp : Type := mkTSDApp { app_mss : Z }.

Definition TSD_new (conf : TSD) : outcome TSDApp :=
  assert "Invalid MSS" (mss conf >? 0);;
  Ok (mkTSDApp (mss conf)).

Definition tsd_push (app : TSDApp) (ports : Ports) : ST World TSDApp :=
  io_scope ports (λ input output,
    drain input (λ app p, forward_tcp_segments output p (app_mss app);; mret app) app).

#[export] Instance TSDApp_App : App TSDApp := {|
  has_pull _ := false;
  pull := no_pull;
  has_push _ := true;
  push := tsd_push;
  has_stop _ := false;
  stop := no_stop
|}.
End tsd.

(** ** Buffers with other headers *)

Definition with_headers (ip : IP) (tcp : TCP) (d : bytes) : bytes :=
  take 14 d ++ encode ip ++ encode tcp ++ drop 54 d.

Lemma splice_middle {A} (a old new b : list A) n :
  length a = n → length old = length new → splice n new (a ++ old ++ b) = a ++ new ++ b.
Proof.
  intros <- Hl. unfold splice. rewrite take_app_length. f_equal. f_equal.
  rewrite (app_assoc a). apply drop_app_length'. rewrite length_app. lia.
Qed.

Lemma slice_middle {A} (a m b : list A) n k :
  length a = n → length m = k → slice n k (a ++ m ++ b) = m.
Proof.
  intros <- <-. unfold slice. rewrite drop_app_length. apply take_app_length.
Qed.

Section with_headers.
Context (d : bytes) (Hd : (54 ≤ length d)%nat) (Hb : are_bytes d).
Implicit Types (ip : IP) (tcp : TCP).

Lemma encode_ip_length ip : length (encode ip) = 20%nat. Proof. done. Qed.
Lemma encode_tcp_length tcp : length (encode tcp) = 20%nat. Proof. done. Qed.

Lemma with_headers_length ip tcp : length (with_headers ip tcp d) = length d.
Proof.
  unfold with_headers. rewrite !length_app, encode_ip_length, encode_tcp_length, length_take, length_drop. lia.
Qed.

Lemma with_headers_bytes ip tcp : fields_ok ip → fields_ok tcp → are_bytes (with_headers ip tcp d).
Proof.
  intros. unfold with_headers. apply Forall_app_2; [by apply Forall_take|].
  apply Forall_app_2; [by apply (encode_are_bytes (T:=IP))|].
  apply Forall_app_2; [by apply (encode_are_bytes (T:=TCP))|by apply Forall_drop].
Qed.

Lemma take14_length : length (take 14 d) = 14%nat.
Proof. rewrite length_take. lia. Qed.

Lemma ip_ref ip tcp : fields_ok ip → header_ref (mkHeader 14) (with_headers ip tcp d) = ip.
Proof.
  intros. unfold header_ref, header_slice, with_headers. cbn [ptr].
  rewrite slice_middle by (apply take14_length || done). by apply decode_encode.
Qed.

Lemma tcp_ref ip tcp : fields_ok tcp → header_ref (mkHeader 34) (with_headers ip tcp d) = tcp.
Proof.
  intros. unfold header_ref, header_slice, with_headers. cbn [ptr].
  rewrite (app_assoc (take 14 d)), slice_middle;
    [by apply decode_encode|by rewrite length_app, take14_length, encode_ip_length|done].
Qed.

Lemma ip_mut (f : IP → IP) ip tcp :
  fields_ok ip → header_mut (mkHeader 14) f (with_headers ip tcp d) = with_headers (f ip) tcp d.
Proof.
  intros. unfold header_mut. rewrite ip_ref by done. unfold with_headers at 1. cbn [ptr].
  by rewrite splice_middle by (apply take14_length || done).
Qed.

Lemma tcp_mut (f : TCP → TCP) ip tcp :
  fields_ok tcp → header_mut (mkHeader 34) f (with_headers ip tcp d) = with_headers ip (f tcp) d.
Proof.
  intros. unfold header_mut. rewrite tcp_ref by done. unfold with_headers at 1. cbn [ptr].
  rewrite (app_assoc (take 14 d)), splice_middle; [|by rewrite length_app, take14_length, encode_ip_length|done].
  by rewrite <-app_assoc.
Qed.

(** The headers a buffer has. *)
Lemma with_headers_id :
  with_headers (header_ref (mkHeader 14) d) (header_ref (mkHeader 34) d) d = d.
Proof.
  unfold with_headers. rewrite !encode_header_ref by (done || (unfold in_range; simpl; lia)).
  unfold header_slice. cbn [ptr].
  rewrite (app_assoc (slice 14 _ d)). change (size_of IP) with 20%nat. change (size_of TCP) with 20%nat.
  rewrite <-(slice_app 14 20 20). unfold slice.
  rewrite <-(drop_drop d 40 14 : drop 40 (drop 14 d) = drop 54 d), take_drop. apply take_drop.
Qed.

Lemma with_headers_drop ip tcp n : (54 ≤ n)%nat → drop n (with_headers ip tcp d) = drop n d.
Proof.
  intros Hn. unfold with_headers. rewrite !app_assoc. rewrite drop_app_ge;
    rewrite !length_app, take14_length, encode_ip_length, encode_tcp_length; [|simpl; lia].
  rewrite drop_drop. f_equal. simpl. lia.
Qed.
End with_headers.

(** ** What a segment is *)

(** Segment [s] carries the payload of [pk] from [off] on; [ofs] is the size of
    all headers. *)
Record is_segment `{Target} (pk : Packet) (ofs off : Z) (s : Packet) : Prop := {
  sg_length : ofs < p_length s;
  sg_eth : take 14 (p_data s) = take 14 (p_data pk);
  sg_ip : ∃ c, ip_of s = Ipv4.set_checksum c (Ipv4.set_total_length (p_length s - 14) (ip_of pk));
  sg_ip_ok : Ipv4.checksum_ok (ip_of s) = Ok true;
  sg_tcp : ∃ c, l4_of TCP s =
    Tcp.set_checksum c (Tcp.set_seq (u32 (Tcp.seq (l4_of TCP pk) + off)) (l4_of TCP pk));
  sg_omitted : omitted TCP s;
  sg_options : slice 54 (Z.to_nat ofs - 54) (p_data s) = slice 54 (Z.to_nat ofs - 54) (p_data pk);
  sg_payload : slice (Z.to_nat ofs) (Z.to_nat (p_length s - ofs)) (p_data s)
             = slice (Z.to_nat (ofs + off)) (Z.to_nat (p_length s - ofs)) (p_data pk);
}.

(** The segments, one after the other: all carry [mss] bytes but the last. *)
Fixpoint segments `{Target} (pk : Packet) (mss ofs off : Z) (ss : list Packet) : Prop :=
  match ss with
  | [] => ofs + off = p_length pk
  | s :: ss =>
      p_length s = ofs + Z.min mss (p_length pk - (ofs + off)) ∧
      is_segment pk ofs off s ∧
      segments pk mss ofs (p_length s - ofs + off) ss
  end.

(** The headers of the packet being cut, after some segments. *)
Definition same_ip (ip ip0 : IP) : Prop :=
  Ipv4.set_checksum 0 (Ipv4.set_total_length 0 ip) = Ipv4.set_checksum 0 (Ipv4.set_total_length 0 ip0).
Definition same_tcp (off : Z) (tcp tcp0 : TCP) : Prop :=
  Tcp.set_checksum 0 tcp = Tcp.set_checksum 0 (Tcp.set_seq (u32 (Tcp.seq tcp0 + off)) tcp0).

Lemma same_ip_set c v ip ip0 :
  same_ip ip ip0 →
  Ipv4.set_checksum c (Ipv4.set_total_length v ip) = Ipv4.set_checksum c (Ipv4.set_total_length v ip0).
Proof. intros Hs. exact (f_equal (λ x, Ipv4.set_checksum c (Ipv4.set_total_length v x)) Hs). Qed.

Lemma same_ip_changed c v ip ip0 :
  same_ip ip ip0 → same_ip (Ipv4.set_checksum c (Ipv4.set_total_length v ip)) ip0.
Proof. intros Hs. exact Hs. Qed.

Lemma same_tcp_set c off tcp tcp0 :
  same_tcp off tcp tcp0 →
  Tcp.set_checksum c tcp = Tcp.set_checksum c (Tcp.set_seq (u32 (Tcp.seq tcp0 + off)) tcp0).
Proof. intros Hs. exact (f_equal (Tcp.set_checksum c) Hs). Qed.

Lemma seq_set_seq v h : is_u32 v → Tcp.seq (Tcp.set_seq v h) = v.
Proof. intros. unfold Tcp.seq. simpl. by apply ntohl_htonl. Qed.

Lemma set_seq_seq (h : TCP) : fields_ok h → Tcp.set_seq (Tcp.seq h) h = h.
Proof.
  intros (?&?&?&?&?&?&?&?). destruct h. unfold Tcp.set_seq, Tcp.seq. simpl in *.
  by rewrite htonl_ntohl.
Qed.

Lemma same_tcp_seq off tcp tcp0 :
  same_tcp off tcp tcp0 → Tcp.seq tcp = u32 (Tcp.seq tcp0 + off).
Proof.
  intros Hs. change (Tcp.seq (Tcp.set_checksum 0 tcp) = u32 (Tcp.seq tcp0 + off)). rewrite Hs.
  apply seq_set_seq, u32_range.
Qed.

Lemma same_tcp_next c off n tcp tcp0 :
  same_tcp off tcp tcp0 →
  same_tcp (n + off) (Tcp.set_seq (u32 (Tcp.seq (Tcp.set_checksum c tcp) + n)) (Tcp.set_checksum c tcp)) tcp0.
Proof.
  intros Hs. unfold same_tcp. change (Tcp.seq (Tcp.set_checksum c tcp)) with (Tcp.seq tcp).
  rewrite (same_tcp_seq _ _ _ Hs).
  assert (u32 (u32 (Tcp.seq tcp0 + off) + n) = u32 (Tcp.seq tcp0 + (n + off))) as ->.
  { generalize (Tcp.seq tcp0). intros. word. }
  exact (f_equal (λ x, Tcp.set_checksum 0 (Tcp.set_seq (u32 (Tcp.seq tcp0 + (n + off))) x)) Hs).
Qed.

Lemma ip_ok_changed c v ip : fields_ok ip → is_u16 c →
  fields_ok (Ipv4.set_checksum c (Ipv4.set_total_length v ip)).
Proof. intros (?&?&?&?&?&?&?&?&?) ?. split_and!; try done. apply htons_range. Qed.

Lemma ip_ok_total v (ip : IP) : fields_ok ip → fields_ok (Ipv4.set_total_length v ip).
Proof. intros (?&?&?&?&?&?&?&?&?). split_and!; try done. apply htons_range. Qed.

Lemma tcp_ok_checksum c (h : TCP) : fields_ok h → is_u16 c → fields_ok (Tcp.set_checksum c h).
Proof. intros (?&?&?&?&?&?&?&?) ?. by split_and!. Qed.

Lemma tcp_ok_seq v (h : TCP) : fields_ok h → fields_ok (Tcp.set_seq v h).
Proof. intros (?&?&?&?&?&?&?&?). split_and!; try done. apply htonl_range. Qed.

(** ** The data of a segment *)

Lemma with_headers_prefix ip tcp (d Y : bytes) n :
  (54 ≤ n ≤ length d)%nat →
  take n (with_headers ip tcp d) ++ Y = with_headers ip tcp (take n d ++ Y).
Proof.
  intros Hn. unfold with_headers.
  rewrite (take_app_le (take n d)), take_take, Nat.min_l by (rewrite ?length_take; lia).
  rewrite (drop_app_le (take n d)) by (rewrite length_take; lia).
  rewrite !app_assoc. f_equal.
  set (a := (take 14 d ++ encode ip) ++ encode tcp).
  assert (length a = 54%nat) as Ha.
  { unfold a. rewrite !length_app, encode_ip_length, encode_tcp_length, length_take. lia. }
  rewrite take_app_ge by lia. rewrite Ha, skipn_firstn_comm. done.
Qed.

Lemma data_from_ok n (data : bytes) : (n ≤ length data)%nat → data_from n data = Ok (drop n data).
Proof. intros. unfold data_from, assert. by rewrite bool_decide_true. Qed.

Lemma copy_at_ok n (src : bytes) m k (data : bytes) :
  (m + k ≤ length src)%nat → (n + k ≤ length data)%nat →
  copy_at n src m k data = Ok (take n data ++ take k (drop m src) ++ drop (n + k) data).
Proof.
  intros Hm Hn. unfold copy_at. rewrite !data_from_ok by lia. cbn [mbind outcome_bind].
  unfold copy. rewrite !length_drop, !Nat.min_l by lia. by rewrite drop_drop.
Qed.

(** Both copies: the headers, then the piece of the payload. *)
Lemma segment_data ip tcp (d sd : bytes) n m k :
  (54 ≤ n)%nat → (n ≤ m)%nat → (m + k ≤ length d)%nat → (n + k ≤ length sd)%nat →
  ∃ sd1, copy_at 0 (take n (with_headers ip tcp d)) 0 n sd = Ok sd1 ∧ length sd1 = length sd ∧
    copy_at n (with_headers ip tcp d) m k sd1
    = Ok (with_headers ip tcp (take n d ++ take k (drop m d) ++ drop (n + k) sd)).
Proof.
  intros Hn Hm Hk Hs. pose proof (with_headers_length d ltac:(lia) ip tcp) as Hl.
  rewrite copy_at_ok by (rewrite ?length_take; lia). eexists. split; [done|].
  rewrite drop_0, take_take, Nat.min_id. simpl.
  assert (length (take n (with_headers ip tcp d)) = n) as Ht by (rewrite length_take; lia).
  split; [rewrite length_app, Ht, length_drop; lia|].
  rewrite copy_at_ok; [|lia|rewrite length_app, Ht, length_drop; lia]. f_equal.
  rewrite take_app_le, take_take, Nat.min_id by lia.
  rewrite (drop_app_ge (take n (with_headers ip tcp d))) by lia. rewrite Ht.
  rewrite drop_drop, with_headers_drop by lia.
  rewrite <-with_headers_prefix by lia. do 3 f_equal. lia.
Qed.

Lemma encoded_segment `{Target} pk ip tcp sd off slen ps ofs :
  let s := mkPacket (ofs + slen) (with_headers ip tcp
    (take (Z.to_nat ofs) (p_data pk) ++ take (Z.to_nat slen) (drop (Z.to_nat (ofs + off)) (p_data pk)) ++ sd)) in
  wf_packet pk → 54 ≤ ofs → 0 ≤ off → 0 < slen → ofs + off + slen ≤ p_length pk →
  fields_ok ip → fields_ok tcp →
  (∃ c, ip = Ipv4.set_checksum c (Ipv4.set_total_length (ofs + slen - 14) (ip_of pk))) →
  Ipv4.checksum_ok ip = Ok true →
  (∃ c, tcp = Tcp.set_checksum c (Tcp.set_seq (u32 (Tcp.seq (l4_of TCP pk) + off)) (l4_of TCP pk))) →
  Ipv4.pseudo_checksum Ipv4.PROTOCOL_TCP (ofs + slen - 34) ip = Ok ps →
  Tcp.checksum tcp = htons (not16 ps) → is_u16 ps →
  is_segment pk ofs off s.
Proof.
  intros s Hwf Hofs Hoff Hslen Hlen Hip Htcp Hip' Hck Htcp' Hps Hsum Hpr.
  pose proof (data_length pk Hwf) as Hdl. pose proof Hwf as (Hu & _ & Hb). unfold is_u16 in Hu.
  set (D := take (Z.to_nat ofs) (p_data pk) ++
            take (Z.to_nat slen) (drop (Z.to_nat (ofs + off)) (p_data pk)) ++ sd) in s.
  assert (length (take (Z.to_nat ofs) (p_data pk)) = Z.to_nat ofs) as Ht by (rewrite length_take; lia).
  assert (54 ≤ length D)%nat as HD by (unfold D; rewrite length_app, Ht; lia).
  assert (ip_of s = ip) as Eip by (by apply ip_ref).
  assert (l4_of TCP s = tcp) as Etcp by (by apply tcp_ref).
  assert (p_length s = ofs + slen) as Els by done.
  split.
  - lia.
  - change (p_data s) with (with_headers ip tcp D). unfold with_headers.
    rewrite take_app_le, take_take, Nat.min_id by (rewrite length_take; lia).
    unfold D. rewrite take_app_le, take_take by lia. f_equal. lia.
  - rewrite Eip, Els. done.
  - by rewrite Eip.
  - by rewrite Etcp.
  - exists ps. rewrite Eip, Etcp, Els. split.
    + rewrite u16_id by (unfold is_u16; lia). exact Hps.
    + simpl. rewrite Hsum. apply ntohs_htons. apply not16_range.
  - change (p_data s) with (with_headers ip tcp D). unfold slice.
    rewrite with_headers_drop by lia. unfold D.
    rewrite drop_app_le, take_app_le by (rewrite ?length_drop; lia).
    rewrite skipn_firstn_comm, take_take. f_equal. lia.
  - change (p_data s) with (with_headers ip tcp D). rewrite Els.
    replace (ofs + slen - ofs) with slen by lia. unfold slice.
    rewrite with_headers_drop by lia. unfold D.
    rewrite drop_app_ge, Ht, Nat.sub_diag, drop_0 by lia.
    rewrite take_app_le, take_take, Nat.min_id by (rewrite length_take, length_drop; lia). done.
Qed.

(** ** The loop *)

Lemma update_rule E Q p pk owned w f data :
  winv Q ((p, pk) :: owned) w → f (p_data pk) = Ok data → wf_packet (mkPacket (p_length pk) data) →
  wpx E (on_mem (update_data p f))
    (λ _ w', winv Q ((p, mkPacket (p_length pk) data) :: owned) w' ∧ same_env w w') w.
Proof.
  intros Hw Hf Hwf. apply wpx_on_mem. unfold update_data. pose proof (winv_cons_mem _ _ _ _ Hw) as Hm.
  apply wpx_bind. eapply deref_mem; [exact Hm|]. apply wpx_bind. eapply wpx_lift; [exact Hf|].
  eapply wp_conseq; [by eapply write_mem|]. intros _ s' [Hm' _]. split; [|done].
  eapply winv_set_mem; [done|]. eapply Mem_perm; [exact Hm'|]. solve_perm.
Qed.

Lemma set_length_rule E Q p pk owned w n :
  winv Q ((p, pk) :: owned) w → is_u16 n → 
  wpx E (on_mem (set_length p n))
    (λ _ w', winv Q ((p, mkPacket n (p_data pk)) :: owned) w' ∧ same_env w w') w.
Proof.
  intros Hw Hn. apply wpx_on_mem. unfold set_length. pose proof (winv_cons_mem _ _ _ _ Hw) as Hm.
  pose proof (winv_owned _ _ _ _ _ Hw) as [_ (_ & Hl & Hb)].
  apply wpx_bind. eapply deref_mem; [exact Hm|].
  eapply wp_conseq; [eapply write_mem; [exact Hm|by split_and!]|]. intros _ s' [Hm' _]. split; [|done].
  eapply winv_set_mem; [done|]. eapply Mem_perm; [exact Hm'|]. solve_perm.
Qed.

Lemma winv_swap Q x y owned w : winv Q (x :: y :: owned) w → winv Q (y :: x :: owned) w.
Proof. intros. eapply winv_perm; [done|]. apply perm_swap. Qed.

Section loop.
Context `{Target} (Q : queues) (i o : link_id) (q : queue) (pk : Packet) (mss ofs : Z).
Context (Hwf : wf_packet pk) (Hmss : 0 < mss) (Hofs : 54 ≤ ofs).

(** The packet being cut, its headers replaced. *)
Definition cut (ip : IP) (tcp : TCP) : Packet :=
  mkPacket (p_length pk) (with_headers ip tcp (p_data pk)).

Lemma cut_wf ip tcp : fields_ok ip → fields_ok tcp → wf_packet (cut ip tcp).
Proof.
  intros. pose proof (data_length pk Hwf). destruct Hwf as (Hu & Hl & Hb). split_and!; simpl; [done| |].
  - rewrite with_headers_length by lia. done.
  - by apply with_headers_bytes.
Qed.

Lemma update_headers_wp E Qs p ip tcp owned w n :
  winv Qs ((p, cut ip tcp) :: owned) w → fields_ok ip → fields_ok tcp → 34 ≤ n < 65536 →
  wpx E (update_headers p (mkHeader 14) (mkHeader 34) n)
    (λ _ w', ∃ c ps,
      let ip' := Ipv4.set_checksum c (Ipv4.set_total_length (n - 14) ip) in
      let tcp' := Tcp.set_checksum (htons (not16 ps)) tcp in
      winv Qs ((p, cut ip' tcp') :: owned) w' ∧ same_env w w' ∧
      fields_ok ip' ∧ fields_ok tcp' ∧ Ipv4.checksum_ok ip' = Ok true ∧
      Ipv4.pseudo_checksum Ipv4.PROTOCOL_TCP (n - 34) ip' = Ok ps ∧ is_u16 ps) w.
Proof.
  intros Hw Hip Htcp Hn. pose proof (data_length pk Hwf) as Hdl. unfold update_headers.
  rewrite (u16_id (n - 14)), (u16_id (n - 34)) by (unfold is_u16; lia).
  set (ip1 := Ipv4.set_total_length (n - 14) ip).
  assert (fields_ok ip1) as Hip1 by by apply ip_ok_total.
  apply wpx_bind. eapply wpx_mono; [eapply update_rule; [exact Hw| |]|].
  { cbn [p_data cut]. rewrite ip_mut by (done || lia). reflexivity. }
  { by apply (cut_wf ip1 tcp). }
  intros _ w1 [Hw1 He1].
  destruct (Ipv4.ipv4_checksum_compute_spec ip1 Hip1) as (c & Hc & Hcr & Hck).
  set (ip2 := Ipv4.set_checksum c ip1) in *.
  assert (fields_ok ip2) as Hip2 by by apply ip_ok_changed.
  apply wpx_bind. eapply wpx_mono; [eapply update_rule; [exact Hw1| |]|].
  { cbn [p_data]. rewrite ip_ref by (done || lia). fold ip1. rewrite Hc. cbn [mbind outcome_bind].
    rewrite ip_mut by (done || lia). reflexivity. }
  { by apply (cut_wf ip2 tcp). }
  intros _ w2 [Hw2 He2]. apply wpx_bind. eapply deref_rule; [exact Hw2|]. cbn [p_data].
  rewrite ip_ref by (done || lia).
  destruct (pseudo_checksum_ok TCP (cut ip2 tcp) (cut_wf _ _ Hip2 Htcp) (n - 34)
    ltac:(unfold is_u16; lia)) as (ps & Hps & Hpr).
  assert (ip_of (cut ip2 tcp) = ip2) as Eip2 by (apply ip_ref; [lia|done]).
  rewrite Eip2 in Hps. apply wpx_bind. eapply wpx_lift; [exact Hps|].
  assert (fields_ok (Tcp.set_checksum (htons (not16 ps)) tcp)) as Htcp2
    by (apply tcp_ok_checksum; [done|apply htons_range]).
  eapply wpx_mono; [eapply update_rule; [exact Hw2| |]|].
  { cbn [p_data]. rewrite tcp_mut by (done || lia). reflexivity. }
  { by apply (cut_wf ip2). }
  intros _ w3 [Hw3 He3]. exists c, ps. split_and!; try done. etrans; [exact He1|]. by etrans.
Qed.

(** The state of the loop: packet [p] with [off] bytes of payload sent. *)
Definition cutting (p : loc) (off : Z) (q' owned : queue) (w : World) : Prop :=
  ∃ ip tcp, winv (io Q i q o q') ((p, cut ip tcp) :: owned) w ∧ fields_ok ip ∧ fields_ok tcp ∧
            same_ip ip (ip_of pk) ∧ same_tcp off tcp (l4_of TCP pk).

(** The copies and the transmission. *)
Lemma emit_copies_wp E p s sk ip tcp q' owned w off slen :
  winv (io Q i q o q') ((p, cut ip tcp) :: (s, mkPacket (ofs + slen) (p_data sk)) :: owned) w →
  wf_packet sk → fields_ok ip → fields_ok tcp → same_tcp (slen + off) (Tcp.set_seq (u32 (Tcp.seq tcp + slen)) tcp) (l4_of TCP pk) →
  same_ip ip (ip_of pk) → 0 < slen → 0 ≤ off → ofs + off + slen ≤ p_length pk →
  wpx E (pk ← on_mem (deref p);
    on_mem (update_data s (copy_at 0 (take (Z.to_nat ofs) (p_data pk)) 0 (Z.to_nat ofs)));;
    on_mem (update_data s (copy_at (Z.to_nat ofs) (p_data pk) (Z.to_nat (ofs + off)) (Z.to_nat slen)));;
    link_transmit o s;;
    on_mem (update_data p (λ data,
      Ok (header_mut (mkHeader 34) (λ h, Tcp.set_seq (u32 (Tcp.seq h + slen)) h) data)));;
    mret slen)
    (λ n w', n = slen ∧ ∃ sd,
       cutting p (slen + off) (link_tx q' (s, mkPacket (ofs + slen) (with_headers ip tcp
         (take (Z.to_nat ofs) (p_data pk) ++ take (Z.to_nat slen) (drop (Z.to_nat (ofs + off)) (p_data pk)) ++ sd))))
         owned w' ∧ same_env w w') w.
Proof.
  intros Hw Hsk Hip Htcp Hst Hsi Hslen Hoff Hle.
  pose proof (data_length pk Hwf) as Hdl. pose proof (data_length sk Hsk) as Hsl.
  pose proof Hwf as (Hu & HL & Hb). pose proof Hsk as (_ & HsL & Hsb). unfold is_u16 in Hu.
  apply wpx_bind. eapply deref_rule; [exact Hw|]. cbn [p_data cut].
  destruct (segment_data ip tcp (p_data pk) (p_data sk) (Z.to_nat ofs) (Z.to_nat (ofs + off)) (Z.to_nat slen))
    as (sd1 & Hcp1 & Hl1 & Hcp2); [lia..|].
  set (D := take (Z.to_nat ofs) (p_data pk) ++ take (Z.to_nat slen) (drop (Z.to_nat (ofs + off)) (p_data pk)) ++ _) in Hcp2.
  assert (length D = length (p_data sk)) as HDl.
  { unfold D. rewrite !length_app, !length_take, !length_drop. lia. }
  assert (are_bytes D) as HDb.
  { unfold D. repeat apply Forall_app_2; auto using Forall_take, Forall_drop. }
  apply winv_swap in Hw. apply wpx_bind. eapply wpx_mono; [eapply update_rule; [exact Hw|exact Hcp1|]|].
  { split_and!; simpl; [unfold is_u16; lia|by rewrite Hl1|].
    rewrite copy_at_ok in Hcp1 by (rewrite ?length_take, ?with_headers_length; lia).
    injection Hcp1 as <-. apply Forall_app_2; [|by apply Forall_drop].
    by apply Forall_take, Forall_drop, Forall_take, with_headers_bytes. }
  intros _ w1 [Hw1 He1]. apply wpx_bind.
  eapply wpx_mono; [eapply update_rule; [exact Hw1|exact Hcp2|]|].
  { split_and!; simpl; [unfold is_u16; lia|rewrite with_headers_length by lia; by rewrite HDl|].
    by apply with_headers_bytes. }
  intros _ w2 [Hw2 He2]. cbn [p_length] in Hw2. apply wpx_bind.
  eapply wpx_mono; [by eapply io_transmit|]. intros _ w3 [Hw3 He3]. apply wpx_bind.
  eapply wpx_mono; [eapply update_rule; [exact Hw3| |]|].
  { cbn [p_data cut]. rewrite tcp_mut by (done || lia). reflexivity. }
  { apply cut_wf; [done|]. by apply tcp_ok_seq. }
  intros _ w4 [Hw4 He4]. apply wpx_ret. split; [done|].
  exists (drop (Z.to_nat ofs + Z.to_nat slen) (p_data sk)). split.
  - exists ip, (Tcp.set_seq (u32 (Tcp.seq tcp + slen)) tcp). split_and!; try done. by apply tcp_ok_seq.
  - etrans; [exact He1|]. etrans; [exact He2|]. by etrans.
Qed.

Lemma emit_segment_wp p off q' owned w :
  cutting p off q' owned w → 0 ≤ off → ofs + off < p_length pk →
  let slen := Z.min mss (p_length pk - (ofs + off)) in
  wpx overflow
    (emit_segment o p (mkHeader 14) (mkHeader 34) mss ofs (ofs + off) (p_length pk - (ofs + off)))
    (λ n w', n = slen ∧ ∃ s sk, p_length sk = ofs + slen ∧ is_segment pk ofs off sk ∧
       cutting p (slen + off) (link_tx q' (s, sk)) owned w' ∧ same_env w w') w.
Proof.
  intros (ip & tcp & Hw & Hip & Htcp & Hsi & Hst) Hoff Hlt slen.
  pose proof Hwf as (Hu & _). unfold is_u16 in Hu.
  assert (0 < slen ∧ slen ≤ p_length pk - (ofs + off)) as [Hs0 Hs1] by lia.
  unfold emit_segment. fold slen. rewrite (u16_id (ofs + slen)) by (unfold is_u16; lia).
  apply wpx_bind. eapply wpx_mono; [by eapply allocate_rule|].
  intros s w1 (sk & _ & Hsk & Hw1 & He1).
  apply wpx_bind. eapply wpx_mono; [eapply set_length_rule; [done|unfold is_u16; lia]|].
  intros _ w2 [Hw2 He2]. apply winv_swap in Hw2. apply wpx_bind.
  eapply wpx_mono; [apply update_headers_wp; [exact Hw2|done|done|lia]|].
  intros _ w3 (c & ps & Hw3 & He3 & Hip' & Htcp' & Hck & Hps & Hpr).
  eapply wpx_mono; [eapply emit_copies_wp; [exact Hw3|done|done|done| | |lia|lia|lia]|].
  - apply same_tcp_next. exact Hst.
  - by apply same_ip_changed.
  - intros n w4 (-> & sd & Hcut & He4). split; [done|]. eexists s, _. split_and!; [| |exact Hcut|].
    + done.
    + eapply encoded_segment; try done; try lia.
      * eexists. by apply same_ip_set.
      * eexists. by apply same_tcp_set.
    + etrans; [exact He1|]. etrans; [exact He2|]. by etrans.
Qed.

Lemma segment_loop_wp fuel : ∀ off p q' owned w,
  cutting p off q' owned w → 0 ≤ off → ofs + off ≤ p_length pk →
  p_length pk - (ofs + off) ≤ Z.of_nat fuel →
  wpx overflow
    (segment_loop fuel o p (mkHeader 14) (mkHeader 34) mss ofs (ofs + off) (p_length pk - (ofs + off)))
    (λ _ w', ∃ ss pk', segments pk mss ofs off ss.*2 ∧
       winv (io Q i q o (link_txs q' ss)) ((p, pk') :: owned) w' ∧ same_env w w') w.
Proof.
  induction fuel as [|fuel IH]; intros off p q' owned w Hc Hoff Hle Hf; cbn [segment_loop];
    destruct (Z.gtb_spec (p_length pk - (ofs + off)) 0) as [Hgt|Hgt]; [lia| | |].
  1, 3: destruct Hc as (ip & tcp & Hw & _); apply wpx_ret; exists [], (cut ip tcp);
    split_and!; [simpl; lia|done|done].
  apply wpx_bind. eapply wpx_mono; [apply emit_segment_wp; [done|done|lia]|].
  intros n w1 (-> & s & sk & Hsl & Hseg & Hc1 & He1).
  set (slen := Z.min mss _) in *.
  replace (ofs + off + slen) with (ofs + (slen + off)) by lia.
  replace (p_length pk - (ofs + off) - slen) with (p_length pk - (ofs + (slen + off))) by lia.
  eapply wpx_mono; [apply IH; [exact Hc1|lia|lia|lia]|].
  intros _ w2 (ss & pk' & Hss & Hw2 & He2). exists ((s, sk) :: ss), pk'. split_and!; [|done|by etrans].
  simpl. split_and!; [done|done|]. by replace (p_length sk - ofs) with slen by lia.
Qed.
End loop.

(** ** forward_tcp_segments *)

(** The size of all headers, and whether there is something to cut. *)
Definition headers_size (pk : Packet) : Z := 34 + Tcp.size (l4_of TCP pk).
Definition oversized (mss : Z) (pk : Packet) : Prop :=
  carries Ipv4.PROTOCOL_TCP pk ∧ mss < p_length pk - headers_size pk.

(** What leaves the app for packet [x]. *)
Definition tsd_out `{Target} (mss : Z) (x : loc * Packet) (out : queue) : Prop :=
  if decide (oversized mss x.2)
  then segments x.2 mss (headers_size x.2) 0 out.*2
  else out = [x].

Lemma oversized_no_carries mss pk : ¬ carries Ipv4.PROTOCOL_TCP pk → ¬ oversized mss pk.
Proof. intros Hn [Hc _]. done. Qed.

Lemma tsd_forward_wp `{Target} Q i o q q' mss p pk owned w :
  i ≠ o → 0 < mss → winv (io Q i q o q') ((p, pk) :: owned) w → 
  wpx overflow (forward_tcp_segments o p mss)
    (λ _ w', ∃ out, tsd_out mss (p, pk) out ∧
       winv (io Q i q o (link_txs q' out)) owned w' ∧ same_env w w') w.
Proof.
  intros Hio Hmss Hw. pose proof (winv_owned _ _ _ _ _ Hw) as [_ Hwf].
  pose proof (data_length pk Hwf) as Hdl.
  assert (∀ E, ¬ oversized mss pk → wpx E (link_transmit o p)
    (λ _ w', ∃ out, tsd_out mss (p, pk) out ∧ winv (io Q i q o (link_txs q' out)) owned w' ∧ same_env w w') w)
    as Hasis.
  { intros E Hn. eapply wpx_mono; [by eapply io_transmit|]. intros _ w' [Hw' He].
    exists [(p, pk)]. unfold tsd_out. simpl. by rewrite decide_False. }
  unfold forward_tcp_segments. apply wpx_bind. eapply deref_rule; [exact Hw|].
  apply wpx_bind. eapply wpx_lift; [apply from_mem_data; [done|simpl; lia]|].
  change (header_ref (mkHeader 0) (p_data pk)) with (eth_of pk).
  destruct (Z.eqb_spec (Ethernet.ethertype (eth_of pk)) Ethernet.TYPE_IPV4) as [He|He];
    [|by apply Hasis, oversized_no_carries; intros (?&_)].
  cbn [negb]. apply wpx_bind.
  eapply wpx_lift; [apply from_mem_data; [done|simpl; lia]|].
  change (header_ref (mkHeader (size_of Eth)) (p_data pk)) with (ip_of pk).
  destruct (Z.gtb_spec (Ipv4.ihl (ip_of pk)) 5) as [Hi|Hi];
    [by apply Hasis, oversized_no_carries; intros (?&?&_); lia|].
  destruct (Z.eqb_spec (Ipv4.protocol (ip_of pk)) Ipv4.PROTOCOL_TCP) as [Ht|Ht];
    [|by apply Hasis, oversized_no_carries; intros (_&_&?)].
  cbn [negb]. apply wpx_bind.
  eapply wpx_lift; [apply (from_mem_data pk Hwf (T:=TCP)); simpl; lia|].
  change (header_ref (mkHeader (size_of Eth + size_of IP)) (p_data pk)) with (l4_of TCP pk).
  change (Z.of_nat (size_of Eth + size_of IP)) with 34. fold (headers_size pk).
  pose proof (Tcp.size_range (l4_of TCP pk)) as Hsz. unfold headers_size in *.
  set (ofs := 34 + Tcp.size (l4_of TCP pk)) in *.
  destruct (Z.leb_spec (p_length pk - Z.min ofs (p_length pk)) mss) as [Hfit|Hbig].
  { apply Hasis. intros [_ Hov]. unfold headers_size in Hov. fold ofs in Hov. lia. }
  rewrite Z.min_l in * by lia.
  assert (oversized mss pk) as Hov by (split; [done|unfold headers_size; fold ofs; lia]).
  apply wpx_bind. eapply wpx_mono.
  { replace ofs with (ofs + 0) at 3 4 by lia.
    apply (segment_loop_wp Q i o q pk mss ofs Hwf Hmss ltac:(lia) _ 0 p q' owned w); [|lia|lia|lia].
    exists (ip_of pk), (l4_of TCP pk). split_and!.
    - unfold cut, ip_of, l4_of. rewrite with_headers_id by (lia || by destruct Hwf as (_&_&?)).
      by destruct pk.
    - by apply ip_of_ok.
    - apply l4_of_ok; [done|apply _|simpl; lia].
    - done.
    - unfold same_tcp. rewrite Z.add_0_r. f_equal.
      rewrite (u32_id (Tcp.seq _)) by apply ntohl_range. rewrite set_seq_seq; [done|].
      apply l4_of_ok; [done|apply _|simpl; lia]. }
  intros _ w1 (ss & pk' & Hss & Hw1 & He1).
  eapply wpx_mono; [by eapply free_rule|]. intros _ w2 [Hw2 He2].
  exists ss. unfold tsd_out. simpl. rewrite decide_True by done. unfold headers_size. fold ofs.
  split_and!; [done|done|by etrans].
Qed.

(** ** Segments make up the packet *)

Definition payload (ofs : Z) (p : Packet) : bytes :=
  slice (Z.to_nat ofs) (Z.to_nat (p_length p - ofs)) (p_data p).

Lemma segments_payload `{Target} pk mss ofs ss : ∀ off,
  wf_packet pk → 0 < mss → 0 ≤ ofs → 0 ≤ off → ofs + off ≤ p_length pk → segments pk mss ofs off ss →
  concat (payload ofs <$> ss) = slice (Z.to_nat (ofs + off)) (Z.to_nat (p_length pk - (ofs + off))) (p_data pk).
Proof.
  induction ss as [|s ss IH]; intros off Hwf Hm Hofs Hoff Hle Hss; simpl in Hss.
  { rewrite Hss, Z.sub_diag. done. }
  destruct Hss as (Hl & Hs & Hss). pose proof (sg_length _ _ _ _ Hs) as Hpos.
  rewrite fmap_cons. cbn [concat]. rewrite (IH (p_length s - ofs + off)); [|done|done|done|lia|lia|done].
  unfold payload. rewrite (sg_payload _ _ _ _ Hs).
  replace (Z.to_nat (p_length pk - (ofs + off)))
    with (Z.to_nat (p_length s - ofs) + Z.to_nat (p_length pk - (ofs + (p_length s - ofs + off))))%nat by lia.
  rewrite slice_app. do 2 f_equal. lia.
Qed.

(** Each is a proper TCP packet, with a checksum left to fill in. *)
Record proper_segment `{Target} (mss ofs : Z) (pk s : Packet) : Prop := {
  ps_size : ofs < p_length s ≤ ofs + mss;
  ps_carries : carries Ipv4.PROTOCOL_TCP s;
  ps_total : Ipv4.total_length (ip_of s) = p_length s - 14;
  ps_ip_ok : Ipv4.checksum_ok (ip_of s) = Ok true;
  ps_ports : Tcp.src_port (l4_of TCP s) = Tcp.src_port (l4_of TCP pk) ∧
             Tcp.dst_port (l4_of TCP s) = Tcp.dst_port (l4_of TCP pk);
  ps_omitted : omitted TCP s;
}.

Lemma segment_carries `{Target} pk ofs off s :
  is_segment pk ofs off s → carries Ipv4.PROTOCOL_TCP pk → carries Ipv4.PROTOCOL_TCP s.
Proof.
  intros [_ Heth (c & Hip) _ _ _ _ _] (He & Hi & Hp). split_and!.
  - rewrite <-He. unfold eth_of, header_ref, header_slice, slice. cbn [ptr]. rewrite !drop_0.
    change (size_of Eth) with 14%nat. by rewrite Heth.
  - by rewrite Hip.
  - by rewrite Hip.
Qed.

Lemma segments_proper `{Target} pk mss ofs ss : ∀ off,
  carries Ipv4.PROTOCOL_TCP pk → is_u16 (p_length pk) → 14 ≤ ofs → segments pk mss ofs off ss →
  0 ≤ off → 0 < mss → Forall (proper_segment mss ofs pk) ss.
Proof.
  induction ss as [|s ss IH]; intros off Hc Hu Hofs Hss Hoff Hm; [constructor|].
  simpl in Hss. destruct Hss as (Hl & Hs & Hss). pose proof (sg_length _ _ _ _ Hs) as Hpos.
  constructor; [|eapply IH; [done..|lia|done]].
  pose proof Hs as [_ _ (c & Hip) Hok (c' & Htcp) Hom _ _]. unfold is_u16 in Hu. split.
  - lia.
  - by eapply segment_carries.
  - rewrite Hip. unfold Ipv4.total_length. simpl. apply ntohs_htons. unfold is_u16. lia.
  - done.
  - by rewrite Htcp.
  - done.
Qed.

(** The sequence numbers. *)
Lemma segments_seq `{Target} pk mss ofs ss : ∀ off k s,
  0 < mss → segments pk mss ofs off ss → ss !! k = Some s →
  Tcp.seq (l4_of TCP s) = u32 (Tcp.seq (l4_of TCP pk) + off + Z.of_nat k * mss).
Proof.
  induction ss as [|s0 ss IH]; intros off k s Hm Hss Hk; [done|].
  simpl in Hss. destruct Hss as (Hl & Hs & Hss). destruct k as [|k]; simpl in Hk.
  - injection Hk as ->. destruct (sg_tcp _ _ _ _ Hs) as (c & ->).
    rewrite Z.mul_0_l, Z.add_0_r.
    change (Tcp.seq (Tcp.set_checksum c ?h)) with (Tcp.seq h). apply seq_set_seq, u32_range.
  - rewrite (IH _ _ _ Hm Hss Hk). f_equal.
    destruct ss as [|s1 ss']; [done|]. simpl in Hss. destruct Hss as (Hl1 & Hs1 & _).
    pose proof (sg_length _ _ _ _ Hs1). lia.
Qed.

(** C12. An oversized TCP packet is cut into segments: put together, their
    payloads are the payload of the packet; each is an IPv4 TCP packet with at
    most [mss] bytes of payload, between the same ports, with its own total
    length and a valid IP checksum; its sequence number is that of the packet
    plus the payload sent before (modulo 2^32); and its TCP checksum is left to
    be filled in.  The loop ends, and the packet itself is freed.  The only way
    to fail is an exhausted freelist. *)
Theorem tsd_cuts `{Target} Q i o q q' mss p pk owned w :
  i ≠ o → 0 < mss → winv (io Q i q o q') ((p, pk) :: owned) w → oversized mss pk →
  wpx overflow (forward_tcp_segments o p mss)
    (λ _ w', ∃ out, let ofs := headers_size pk in
       concat (payload ofs <$> out.*2) = payload ofs pk ∧
       Forall (proper_segment mss ofs pk) out.*2 ∧
       (∀ k s, out.*2 !! k = Some s →
          Tcp.seq (l4_of TCP s) = u32 (Tcp.seq (l4_of TCP pk) + Z.of_nat k * mss)) ∧
       winv (io Q i q o (link_txs q' out)) owned w' ∧ same_env w w') w.
Proof.
  intros Hio Hm Hw Hov. pose proof (winv_owned _ _ _ _ _ Hw) as [_ Hwf].
  eapply wpx_mono; [by apply tsd_forward_wp|]. intros _ w' (out & Hout & Hw' & He).
  unfold tsd_out in Hout. simpl in Hout. rewrite decide_True in Hout by done.
  pose proof Hwf as (Hu & _). pose proof (Tcp.size_range (l4_of TCP pk)) as Hs.
  destruct Hov as [Hc Hl]. set (ofs := headers_size pk) in *.
  assert (34 + 20 ≤ ofs) as Hofs by (unfold ofs, headers_size; lia).
  exists out. split_and!; [| | |done|done].
  - rewrite (segments_payload pk mss ofs _ 0) by (done || lia). unfold payload. do 2 f_equal; lia.
  - by eapply (segments_proper pk mss ofs _ 0); (done || lia).
  - intros k s Hk. rewrite (segments_seq pk mss ofs _ 0 k s) by done. f_equal. lia.
Qed.

Lemma sample_tcp_oversized : oversized 3 sample_tcp.
Proof. split; [apply sample_tcp_carries|by_compute]. Qed.

Lemma tsd_cuts_witness :
  ∃ w p, winv (io ∅ 1 [] 2 []) [(p, sample_tcp)] w ∧
  wpx overflow (@forward_tcp_segments x86_64 2 p 3)
    (λ _ w', ∃ out, let ofs := headers_size sample_tcp in
       concat (payload ofs <$> out.*2) = payload ofs sample_tcp ∧
       Forall (@proper_segment x86_64 3 ofs sample_tcp) out.*2 ∧
       (∀ k s, out.*2 !! k = Some s →
          Tcp.seq (l4_of TCP s) = u32 (Tcp.seq (l4_of TCP sample_tcp) + Z.of_nat k * 3)) ∧
       winv (io ∅ 1 [] 2 (link_txs [] out)) [] w' ∧ same_env w w') w.
Proof.
  destruct sample_received as (w & p & Hw & _). exists w, p. split; [exact Hw|].
  apply (@tsd_cuts x86_64 ∅ 1 2 [] [] 3 p sample_tcp [] w); [done|done|exact Hw|apply sample_tcp_oversized].
Defined.

(** ** TSD, then Checksum *)

(** All segments but the last carry [mss] bytes: their number. *)
Lemma segments_count `{Target} pk mss ofs ss : ∀ off n,
  0 < mss → segments pk mss ofs off ss → p_length pk - (ofs + off) ≤ mss * Z.of_nat n → (length ss ≤ n)%nat.
Proof.
  induction ss as [|s ss IH]; intros off n Hm Hss Hn; simpl; [lia|].
  simpl in Hss. destruct Hss as (Hl & Hs & Hss). pose proof (sg_length _ _ _ _ Hs) as Hpos.
  destruct n as [|n]; [lia|]. apply le_n_S.
  destruct ss as [|s1 ss]; [simpl; lia|]. eapply IH; [done|exact Hss|]. 
  simpl in Hss. destruct Hss as (Hl1 & Hs1 & _). pose proof (sg_length _ _ _ _ Hs1). lia.
Qed.

(** Such a segment with its checksum filled in. *)
Lemma segment_filled `{Target} mss ofs pk s s' :
  wf_packet s → 54 ≤ ofs → proper_segment mss ofs pk s → maybe_fill_in_checksum s = Ok s' →
  p_length s' = p_length s ∧ carries Ipv4.PROTOCOL_TCP s' ∧ ip_of s' = ip_of s ∧
  l4_verifies Ipv4.PROTOCOL_TCP s' ∧ payload ofs s' = payload ofs s ∧
  Tcp.seq (l4_of TCP s') = Tcp.seq (l4_of TCP s).
Proof.
  intros Hwf Hofs [Hsz Hc _ _ _ Ho]. rewrite fill_is_tcp by done.
  destruct (fill_filled TCP s Hwf Ho) as (c & Hcr & Hf & Hv); [simpl; lia|].
  set (h := set_sum c (l4_of TCP s)) in *. rewrite Hf. intros Heq. injection Heq as Heq.
  assert (fields_ok h) as Hok.
  { apply tcp_ok_checksum; [|done]. apply l4_of_ok; [done|apply _|simpl; lia]. }
  assert (Tcp.seq h = Tcp.seq (l4_of TCP s)) as Hseq by done. clearbody h. subst s'.
  assert (size_of TCP ≤ 20)%nat as Hs by (simpl; lia).
  pose proof (ip_of_with_l4 s Hwf _ Hs Hok) as Hip.
  split_and!; [done| |exact Hip|exact Hv| |].
  - unfold carries in *. by rewrite (eth_of_with_l4 s Hwf _ Hs Hok), Hip.
  - unfold payload, with_l4. cbn [p_data p_length].
    apply slice_header_mut_ne; [apply (header_in_range s Hwf); simpl; lia|done|right; simpl; lia].
  - by rewrite (l4_of_with_l4 s Hwf _ Hs Hok).
Qed.

(** Packet [s] is the [k]-th piece of [pk], with valid checksums. *)
Definition valid_segment `{Target} (mss : Z) (pk : Packet) (k : nat) (s : Packet) : Prop :=
  headers_size pk < p_length s ≤ headers_size pk + mss ∧ carries Ipv4.PROTOCOL_TCP s ∧
  Ipv4.checksum_ok (ip_of s) = Ok true ∧ l4_verifies Ipv4.PROTOCOL_TCP s ∧
  Tcp.seq (l4_of TCP s) = u32 (Tcp.seq (l4_of TCP pk) + Z.of_nat k * mss).

Lemma segments_filled `{Target} mss pk (ss qf : queue) :
  wf_packet pk → Forall (λ x, wf_packet x.2) ss → 0 < mss → oversized mss pk →
  segments pk mss (headers_size pk) 0 ss.*2 → Forall2 filled ss qf →
  concat (payload (headers_size pk) <$> qf.*2) = payload (headers_size pk) pk ∧
  (∀ k s, qf.*2 !! k = Some s → valid_segment mss pk k s).
Proof.
  intros Hwf Hall Hm [Hc Hl] Hss Hf. pose proof (Tcp.size_range (l4_of TCP pk)) as Hs.
  set (ofs := headers_size pk) in *. assert (54 ≤ ofs) as Hofs by (unfold ofs, headers_size; lia).
  assert (Forall (proper_segment mss ofs pk) ss.*2) as Hp.
  { eapply (segments_proper pk mss ofs _ 0); [done|by destruct Hwf|lia|done|lia|done]. }
  split.
  - transitivity (concat (payload ofs <$> ss.*2)).
    + f_equal. clear Hss. induction Hf as [|x y ss qf [_ Hx] Hf IH]; [done|].
      rewrite !fmap_cons in *. apply Forall_cons in Hall as [Hwx Hall]. apply Forall_cons in Hp as [Hpx Hp].
      destruct (segment_filled _ _ _ _ _ Hwx Hofs Hpx Hx) as (_ & _ & _ & _ & -> & _). f_equal. by apply IH.
    + rewrite (segments_payload pk mss ofs _ 0) by (done || lia). unfold payload. do 2 f_equal; lia.
  - intros k s' Hk. rewrite list_lookup_fmap in Hk. apply fmap_Some in Hk as (y & Hy & ->).
    destruct (Forall2_lookup_r _ _ _ _ _ Hf Hy) as (x & Hx & _ & Hfill).
    pose proof (Forall_lookup_1 _ _ _ _ Hall Hx) as Hwx.
    assert (ss.*2 !! k = Some x.2) as Hk by (rewrite list_lookup_fmap; by rewrite Hx).
    pose proof (Forall_lookup_1 _ _ _ _ Hp Hk) as Hpx.
    unfold valid_segment. fold ofs. destruct (segment_filled _ _ _ _ _ Hwx Hofs Hpx Hfill) as (-> & Hc' & -> & Hv & _ & ->).
    split_and!; [apply Hpx|apply Hpx|done|apply Hpx|done|].
    rewrite (segments_seq pk mss ofs _ 0 k x.2 Hm Hss Hk). f_equal. lia.
Qed.

(** C21. TSD, then Checksum: when [forward_tcp_segments] cuts a packet onto a
    link and the Checksum app then forwards that link, what arrives behind the
    app are the pieces of the packet, and the receiver accepts each of them: they
    carry at most [mss] bytes of payload each, their payloads make up that of the
    packet, in order and at the right sequence numbers, their IP checksums are
    valid and so are their TCP checksums, over pseudo header and segment (the
    seeds that TSD computes for each piece are those that the Checksum app
    expects).  The packet is cut into at most as many pieces as the link holds. *)
Theorem tsd_then_checksum `{Target} Q b c qc mss p pk ports owned w :
  input ports !! "input" = Some b → output ports !! "output" = Some c → b ≠ c →
  (b ∉ borrowed w) → (c ∉ borrowed w) →
  0 < mss → p_length pk - headers_size pk ≤ mss * Link.LINK_MAX_PACKETS →
  winv (io Q b [] c qc) ((p, pk) :: owned) w → oversized mss pk →
  wpx overflow (forward_tcp_segments b p mss;; push mkChecksumApp ports)
    (λ _ w', ∃ out, winv (io Q b [] c (link_txs qc out)) owned w' ∧ same_env w w' ∧
       concat (payload (headers_size pk) <$> out.*2) = payload (headers_size pk) pk ∧
       (∀ k s, out.*2 !! k = Some s → valid_segment mss pk k s)) w.
Proof.
  intros Hi Ho Hne Hb Hc Hm Hcap Hw Hov. pose proof (winv_owned _ _ _ _ _ Hw) as [_ Hwf].
  assert (∀ q, io Q b q c qc = io Q c qc b q) as Hio by (intros; apply insert_insert_ne; congruence).
  rewrite Hio in Hw. apply wpx_bind.
  eapply wpx_mono; [apply (tsd_forward_wp Q c b qc [] mss p pk owned w); done|].
  intros _ w1 (ss & Hss & Hw1 & He1). unfold tsd_out in Hss. simpl in Hss. rewrite decide_True in Hss by done.
  pose proof Hov as [Hcar Hl]. pose proof (Tcp.size_range (l4_of TCP pk)) as Hs.
  assert (54 ≤ headers_size pk) as Hofs by (unfold headers_size; lia).
  assert (link_txs [] ss = ss) as Hlink.
  { rewrite link_txs_take by done. simpl. apply take_ge. rewrite <-(length_fmap snd).
    eapply segments_count; [exact Hm|exact Hss|]. unfold Link.LINK_MAX_PACKETS, Link.LINK_RING_SIZE in *. lia. }
  rewrite Hlink, <-Hio in Hw1.
  assert (Forall (λ x, wf_packet x.2) ss) as Hall.
  { eapply winv_queue_wf; [exact Hw1|by apply io_input]. }
  eapply wpx_mono; [eapply wpx_weaken; [eapply (checksum_push_forwards mkChecksumApp ports b c Q ss qc owned w1)|]|];
    [done|done|done|by rewrite (se_borrowed _ _ He1)|by rewrite (se_borrowed _ _ He1)|exact Hw1| |by intros e []|].
  - assert (Forall (proper_segment mss (headers_size pk) pk) ss.*2) as Hp.
    { eapply (segments_proper pk mss _ _ 0); [done|by destruct Hwf|lia|done|lia|done]. }
    rewrite Forall_fmap in Hp. eapply Forall_impl; [exact Hp|]. intros x [Hsz Hc' _ _ _ _].
    split; intros; [lia|]. by pose proof (carries_unique _ _ _ Hc' ltac:(eassumption)).
  - intros _ w2 (qf & Hf & Hw2 & He2). exists qf. split_and!; [done|by etrans|..];
      by apply (segments_filled mss pk ss qf).
Qed.

(** The four bytes of the sample, cut into three and one. *)
Lemma tsd_then_checksum_witness :
  ∃ w p, winv (io ∅ 1 [] 2 []) [(p, sample_tcp)] w ∧
    wpx overflow (@forward_tcp_segments x86_64 1 p 3;; @push _ (@ChecksumApp_App x86_64) mkChecksumApp sample_ports)
      (λ _ w', ∃ out, winv (io ∅ 1 [] 2 (link_txs [] out)) [] w' ∧ same_env w w' ∧
         concat (payload (headers_size sample_tcp) <$> out.*2) = payload (headers_size sample_tcp) sample_tcp ∧
         (∀ k s, out.*2 !! k = Some s → @valid_segment x86_64 3 sample_tcp k s)) w.
Proof.
  destruct sample_received as (w & p & Hw & Hb). exists w, p. split; [exact Hw|].
  apply (@tsd_then_checksum x86_64 ∅ 1 2 [] 3 p sample_tcp sample_ports [] w);
    [done|done|done|by rewrite Hb|by rewrite Hb|done|by vm_compute|exact Hw|apply sample_tcp_oversized].
Defined.

Definition tsd_body `{Target} (o : link_id) (app : TSDApp) (p : loc) : ST World TSDApp :=
  forward_tcp_segments o p (app_mss app);; mret app.

Definition tsd_transfer `{Target} : transfer TSDApp := λ a e x out a' e',
  a' = a ∧ e' = e ∧ tsd_out (app_mss a) x out.

Lemma tsd_body_spec `{Target} Q i o :
  i ≠ o → body_spec overflow Q i o (tsd_body o) tsd_transfer (λ a _, 0 < app_mss a) (λ _, True).
Proof.
  intros Hio a q q' p pk owned w Hw Hm _. apply wpx_bind.
  eapply wpx_mono; [by apply tsd_forward_wp|]. intros _ w' (out & Hout & Hw' & He).
  apply wpx_ret. exists out. split_and!; [by split_and!; [|apply same_env_env|]|done|by apply He|done].
Qed.

(** The TSD app forwards the packets of its input in order, oversized TCP
    packets as their segments and all others as they are; the input is empty
    afterwards, and no packet is leaked. *)
Theorem tsd_push_forwards `{Target} app ports i o Q qi qo owned w :
  input ports !! "input" = Some i → output ports !! "output" = Some o → i ≠ o →
  i ∉ borrowed w → o ∉ borrowed w → 0 < app_mss app →
  winv (io Q i qi o qo) owned w →
  wpx overflow (push app ports)
    (λ _ w', ∃ outs, Forall2 (tsd_out (app_mss app)) qi outs ∧
       winv (io Q i [] o (link_txs qo (concat outs))) owned w' ∧ same_env w w') w.
Proof.
  intros Hi Ho Hio Hbi Hbo Hm Hw. simpl.
  eapply wpx_mono; [eapply (io_forwards _ Q i o tsd_body _ (λ a _, 0 < app_mss a) (λ _, True));
    [done..|by apply tsd_body_spec|done|done|by apply Forall_true]|].
  intros a' w' (outs & Hf & _ & Hb & Hw').
  assert (a' = app ∧ env w' = env w ∧ ∃ outss, outs = concat outss ∧ Forall2 (tsd_out (app_mss app)) qi outss)
    as (_ & He & outss & -> & Hf').
  { clear -Hf. induction Hf as [a e|a e x out a2 e2 xs outs a3 e3 (-> & -> & Ho) _ (-> & -> & os & -> & Hos)].
    - split_and!; [done..|]. exists []. by split; [|constructor].
    - split_and!; [done..|]. exists (out :: os). by split; [|constructor]. }
  exists outss. split_and!; [done..|]. by apply same_env_intro.
Qed.

Lemma tsd_push_forwards_witness :
  ∃ w qi, qi.*2 = [sample_tcp; sample_ipv6] ∧ winv (io ∅ 1 qi 2 []) [] w ∧
    wpx overflow (@tsd_push x86_64 (mkTSDApp 3) sample_ports)
      (λ _ w', ∃ outs, Forall2 (@tsd_out x86_64 3) qi outs ∧
         winv (io ∅ 1 [] 2 (link_txs [] (concat outs))) [] w' ∧ same_env w w') w.
Proof.
  destruct (world_with (Some 0) Z.of_nat (λ _, SpecFloat.S754_zero false) [sample_tcp; sample_ipv6])
    as (w & qi & Hw & Hq & He).
  { apply Forall_cons_2; [apply sample_tcp_wf|]. apply Forall_cons_2; [|by apply Forall_nil_2].
    apply frame_packet_wf; by_compute. }
  { done. }
  exists w, qi. split_and!; [done|done|].
  apply (@tsd_push_forwards x86_64 (mkTSDApp 3) sample_ports 1 2 ∅ qi [] []);
    [done|done|done|by rewrite (se_borrowed _ _ He)|by rewrite (se_borrowed _ _ He)|done|done].
Defined.
