(* ===== verification/Frames.v ===== *)
(** * Frames that are safe to process

    The apps of offload.rs look at the headers of packets without a test that
    they are there.  A packet is [framed] when the headers that its own fields
    announce fit into it: so are the frames of network devices, and the apps
    keep packets so. *)

From S2P Require Import Prelude Bytes Lib Checksum Header Packet App Offload Tsd.
From S2P Require Tcp Udp Ethernet Ipv4.
#[local] Existing Instances Ethernet.Ethernet_layout Ethernet.Ethernet_laws
  Ipv4.IPv4_layout Ipv4.IPv4_laws Tcp.TCP_layout Tcp.TCP_laws Udp.UDP_layout Udp.UDP_laws.
#[local] Open Scope Z_scope.

Definition framed (p : Packet) : Prop :=
  14 ≤ p_length p ∧ (Ethernet.ethertype (eth_of p) = Ethernet.TYPE_IPV4 → 34 ≤ p_length p) ∧ complete p.

Lemma framed_complete p : framed p → complete p.
Proof. by intros (_ & _ & ?). Qed.

Lemma framed_long p : 54 ≤ p_length p → framed p.
Proof. intros Hl. split_and!; [lia|lia|]. split; intros _; lia. Qed.

(** It depends on the frame only, not on what is behind it in the buffer. *)
Lemma eth_of_take p p' : take 14 (p_data p') = take 14 (p_data p) → eth_of p' = eth_of p.
Proof. intros Ht. unfold eth_of, header_ref, header_slice, slice. cbn [ptr]. rewrite !drop_0. by f_equal. Qed.

Lemma ip_of_take p p' : take 34 (p_data p') = take 34 (p_data p) → ip_of p' = ip_of p.
Proof.
  intros Ht. unfold ip_of, header_ref, header_slice, slice. cbn [ptr]. f_equal.
  change (size_of IP) with 20%nat. rewrite !take_drop_commute. f_equal. exact Ht.
Qed.

Lemma take_frame p p' n : same_frame p p' → Z.of_nat n ≤ p_length p → take n (p_data p') = take n (p_data p).
Proof.
  intros [_ Hd] Hn. apply (f_equal (take n)) in Hd. rewrite !take_take in Hd.
  by replace (n `min` Z.to_nat (p_length p))%nat with n in Hd by lia.
Qed.

Lemma framed_headers p p' :
  p_length p' = p_length p → eth_of p' = eth_of p →
  (Ethernet.ethertype (eth_of p) = Ethernet.TYPE_IPV4 → ip_of p' = ip_of p) → framed p → framed p'.
Proof.
  intros Hl He Hi (H14 & H34 & Ht & Hu). unfold framed, complete, carries. rewrite Hl, He.
  split_and!; [done|done|intros (Het & Hp); apply Ht|intros (Het & Hp); apply Hu]; split; try done; by rewrite <-Hi.
Qed.

Lemma framed_frame p p' : same_frame p p' → framed p → framed p'.
Proof.
  intros Hf Hp. pose proof Hp as (H14 & H34 & _). apply (framed_headers p); [apply Hf| | |done].
  - apply eth_of_take. by apply take_frame.
  - intros He. apply ip_of_take. apply take_frame; [done|by apply H34].
Qed.

(** *** Filling in checksums *)

Section fill.
Context `{Target} (p : Packet) (Hwf : wf_packet p).

Lemma fill_headers (T : Type) `{!Layout T, !LayoutLaws T, !Transport T, !TransportLaws T} p' :
  34 + Z.of_nat (size_of T) ≤ p_length p → fill T p = Ok p' →
  p_length p' = p_length p ∧ eth_of p' = eth_of p ∧ ip_of p' = ip_of p.
Proof.
  intros Hl. pose proof transport_size as [Hs _].
  destruct (pseudo_checksum_ok T p Hwf (u16 (p_length p - 34)) (u16_range _)) as (ps & Hps & _).
  destruct (decide (ntohs (get_sum (l4_of T p)) = not16 ps)) as [He|He].
  - destruct (fill_filled T p Hwf) as (c & Hc & -> & _); [by exists ps|lia|]. intros [= <-].
    assert (fields_ok (set_sum c (l4_of T p))) as Hok.
    { apply set_sum_ok; [|done]. apply l4_of_ok; [done|apply _|done]. }
    split_and!; [done|apply eth_of_with_l4; [done|apply _|done|done]|apply ip_of_with_l4; [done|apply _|done|done]].
  - rewrite (fill_kept T p Hwf); [by intros [= <-]|].
    intros (ps' & Hps' & ?). rewrite Hps in Hps'. by simplify_eq.
Qed.

Lemma fill_framed p' : framed p → maybe_fill_in_checksum p = Ok p' → framed p'.
Proof.
  intros Hp. pose proof Hp as (_ & _ & Ht & Hu). rewrite fill_cases by done. repeat case_decide.
  - intros Hf. apply (fill_headers TCP) in Hf as (Hl & He & Hi); [|simpl; by apply Ht]. by eapply framed_headers.
  - intros Hf. apply (fill_headers UDP) in Hf as (Hl & He & Hi); [|simpl; by apply Hu]. by eapply framed_headers.
  - by intros [= <-].
Qed.
End fill.

(** *** Cutting segments *)

Lemma tsd_framed `{Target} mss x out :
  0 < mss → wf_packet x.2 → framed x.2 → tsd_out mss x out → Forall (λ y, framed y.2) out.
Proof.
  intros Hm Hwf Hp. unfold tsd_out. case_decide as Ho; [|intros ->; by constructor].
  intros Hs. pose proof (Tcp.size_range (l4_of TCP x.2)) as Hsz. pose proof Hwf as (Hl & _).
  destruct Ho as [Hc _]. apply segments_proper in Hs; [|done|done|unfold headers_size; lia|lia|done].
  rewrite Forall_fmap in Hs. eapply Forall_impl; [exact Hs|]. intros y Hy. apply framed_long.
  apply ps_size in Hy. unfold headers_size in Hy. lia.
Qed.

(** *** Frames of devices *)

Definition zeros_ok (p : Packet) : Prop := 14 ≤ p_length p ∧ take 14 (p_data p) = replicate 14 0.

Lemma zeros_framed p : zeros_ok p → framed p.
Proof.
  intros [Hl Ht]. assert (Ethernet.ethertype (eth_of p) = 0) as He.
  { unfold eth_of, header_ref, header_slice, slice. cbn [ptr]. rewrite drop_0.
    change (size_of Eth) with 14%nat. rewrite Ht. vm_compute. reflexivity. }
  split_and!; [done|by rewrite He|]. unfold complete, carries. rewrite He. by split; intros (? & _).
Qed.

(** *** Properties of packets that the apps keep

    All that an app does to the contents of a packet is to fill in its checksum
    and to cut it into segments. *)

Class Preserved `{Target} (P : Packet → Prop) : Prop := {
  preserved_framed p : P p → framed p;
  preserved_frame p p' : same_frame p p' → P p → P p';
  preserved_fill p p' : wf_packet p → P p → maybe_fill_in_checksum p = Ok p' → P p';
  preserved_cut mss x out : 0 < mss → wf_packet x.2 → P x.2 → tsd_out mss x out → Forall (λ y, P y.2) out;
}.

#[export] Instance framed_preserved `{Target} : Preserved framed.
Proof.
  split; [done|apply framed_frame|intros; by eapply fill_framed|intros; by eapply tsd_framed].
Qed.

(** Frames of devices that make packets with [P]. *)
Definition delivers (P : Packet → Prop) (bs : bytes) : Prop := P (frame_packet bs).

Lemma delivers_frame `{Target} P `{!Preserved P} pk : wf_packet pk → delivers P (frame pk) → P pk.
Proof.
  intros Hwf. pose proof (wf_length _ Hwf) as Hl. destruct Hwf as (Hu & _).
  apply (preserved_frame (P := P)).
  assert (length (frame pk) = Z.to_nat (p_length pk)) as Hlen by (unfold frame; rewrite length_take; lia).
  unfold is_u16 in Hu. split; simpl; rewrite Hlen; [lia|]. rewrite Nat2Z.id, take_app_length' by done. done.
Qed.

(** Packets of [n] bytes, all zero: what Source makes. *)
Definition blank (n : Z) (p : Packet) : Prop :=
  p_length p = n ∧ take (Z.to_nat n) (p_data p) = replicate (Z.to_nat n) 0.

Lemma blank_framed n p : 14 ≤ n → blank n p → framed p.
Proof.
  intros Hn [Hl Hz]. apply zeros_framed. split; [lia|]. apply (f_equal (take 14)) in Hz.
  rewrite take_take, take_replicate in Hz. by replace (14 `min` Z.to_nat n)%nat with 14%nat in Hz by lia.
Qed.
