(* ===== verification/Flow.v ===== *)
(** * flow.rs: the apps that look at flows

    [Split] sends packets to the output of the first flow they match; [Top]
    counts packets and bits per flow in a memory-mapped profile. *)

From S2P Require Import Prelude Bytes Lib Header Packet Kernel App.
From S2P Require Link Tcp Udp Ethernet Ipv4.
From S2P Require Import Offload.
#[local] Existing Instances Ethernet.Ethernet_layout Ethernet.Ethernet_laws
  Ipv4.IPv4_layout Ipv4.IPv4_laws Tcp.TCP_layout Tcp.TCP_laws Udp.UDP_layout Udp.UDP_laws.
#[local] Open Scope Z_scope.

Inductive Dir : Type := Src | Dst.

Record Flow : Type := mkFlow {
  label : string;
  dir : Dir;
  ip : Z;
  protocol : Z;
  port_min : Z;
  port_max : Z
}.

(** match dir { Src => src, Dst => dst } *)
Definition by_dir {A} (d : Dir) (src dst : A) : A := match d with Src => src | Dst => dst end.

Definition flow_match (p : Packet) (flow : Flow) : outcome bool :=
  eth ← from_mem (p_data p) 0;
  if negb (Ethernet.ethertype (header_ref (T:=Eth) eth (p_data p)) =? Ethernet.TYPE_IPV4) then Ok false
  else
    iph ← from_mem (p_data p) (size_of Eth);
    let iph := header_ref (T:=IP) iph (p_data p) in
    if Ipv4.ihl iph >? 5 then Ok false
    else
      let addr := by_dir (dir flow) (Ipv4.src iph) (Ipv4.dst iph) in
      if (ip flow >? 0) && negb (addr =? ip flow) then Ok false
      else if (protocol flow >? 0) && negb (Ipv4.protocol iph =? protocol flow) then Ok false
      else
        let proto_ofs := (size_of Eth + size_of IP)%nat in
        if protocol flow =? Ipv4.PROTOCOL_TCP then
          tcp ← from_mem (p_data p) proto_ofs;
          let tcp := header_ref (T:=TCP) tcp (p_data p) in
          let port := by_dir (dir flow) (Tcp.src_port tcp) (Tcp.dst_port tcp) in
          if (port <? port_min flow) || (port >? port_max flow) then Ok false else Ok true
        else if protocol flow =? Ipv4.PROTOCOL_UDP then
          udp ← from_mem (p_data p) proto_ofs;
          let udp := header_ref (T:=UDP) udp (p_data p) in
          let port := by_dir (dir flow) (Udp.src_port udp) (Udp.dst_port udp) in
          if (port <? port_min flow) || (port >? port_max flow) then Ok false else Ok true
        else Ok true.

(** struct Split, struct SplitApp *)
Record Split : Type := mkSplit { conf_flows : list Flow }.
Record SplitApp : Type := mkSplitApp { flows : list Flow }.
Definition Split_new (conf : Split) : SplitApp := mkSplitApp (conf_flows conf).

(** for flow in flows: the first match takes the place of [output]; the guard
    it replaces is dropped. *)
Fixpoint select_output (p : loc) (fs : list Flow) (ports : Ports) (output : link_id) : ST World link_id :=
  match fs with
  | [] => mret output
  | flow :: fs =>
      pk ← on_mem (deref p);
      b ← lift (flow_match pk flow);
      if (b : bool) then
        l ← port (label flow) (App.output ports);
        borrow_mut l;;
        release output;;
        mret l
      else select_output p fs ports output
  end.

Definition split_push (app : SplitApp) (ports : Ports) : ST World SplitApp :=
  input ← port "input" (App.input ports);
  borrow_mut input;;
  default ← port "default" (App.output ports);
  app ← drain input (λ app p,
    borrow_mut default;;
    output ← select_output p (flows app) ports default;
    link_transmit output p;;
    release output;;
    mret app) app;
  release input;;
  mret app.

#[export] Instance SplitApp_App : App SplitApp := {|
  has_pull _ := false;
  pull := no_pull;
  has_push _ := true;
  push := split_push;
  has_stop _ := false;
  stop := no_stop
|}.

(** ** Flow profiles *)

Definition FLOWTOP_NSLOTS : Z := 2048.
Definition FLOWTOP_SLOTMASK : Z := FLOWTOP_NSLOTS - 1.

(** Murmur3 fmix64 *)
Definition murmurhash64_mix64 (k : Z) : Z :=
  let k := Z.lxor k (Z.shiftr k 33) in
  let k := u64 (k * 0xff51afd7ed558ccd) in
  let k := Z.lxor k (Z.shiftr k 33) in
  let k := u64 (k * 0xc4ceb9fe1a85ec53) in
  let k := Z.lxor k (Z.shiftr k 33) in
  k.

Definition flow_slot (flow : Z) : Z := Z.land (murmurhash64_mix64 flow) FLOWTOP_SLOTMASK.

Definition flow_id (ip protocol port : Z) : Z :=
  Z.lor (Z.lor (u64 (Z.shiftl port 48)) (u64 (Z.shiftl protocol 32))) (u64 (Z.shiftl ip 0)).

Definition flowtop_inc (map : positive) (ip protocol port bits : Z) : ST World () :=
  let id := flow_id ip protocol port in
  w ← get;
  match profiles w !! map with
  | None => undefined "dangling pointer to a FlowTop"
  | Some slots =>
      match slots !! Z.to_nat (flow_slot id) with
      | None => panic "index out of bounds"
      | Some slot =>
          let slot' := mkFlowCtr (u64 (ctr_packets slot + 1)) (u64 (ctr_bits slot + bits)) id in
          put (set_profiles (<[map := <[Z.to_nat (flow_slot id) := slot']> slots]> (profiles w)) w)
      end
  end.

(** The flow tuple of a packet: address, protocol and port. *)
Definition flow_tuple (p : Packet) (dir : Dir) : outcome (Z * Z * Z) :=
  eth ← from_mem (p_data p) 0;
  if Ethernet.ethertype (header_ref (T:=Eth) eth (p_data p)) =? Ethernet.TYPE_IPV4 then
    iph ← from_mem (p_data p) (size_of Eth);
    let iph := header_ref (T:=IP) iph (p_data p) in
    let addr := by_dir dir (Ipv4.src iph) (Ipv4.dst iph) in
    let protocol := Ipv4.protocol iph in
    if Ipv4.ihl iph =? 5 then
      let proto_ofs := (size_of Eth + size_of IP)%nat in
      if Ipv4.protocol iph =? Ipv4.PROTOCOL_TCP then
        tcp ← from_mem (p_data p) proto_ofs;
        let tcp := header_ref (T:=TCP) tcp (p_data p) in
        Ok (addr, protocol, by_dir dir (Tcp.src_port tcp) (Tcp.dst_port tcp))
      else if Ipv4.protocol iph =? Ipv4.PROTOCOL_UDP then
        udp ← from_mem (p_data p) proto_ofs;
        let udp := header_ref (T:=UDP) udp (p_data p) in
        Ok (addr, protocol, by_dir dir (Udp.src_port udp) (Udp.dst_port udp))
      else Ok (addr, protocol, 0)
    else Ok (addr, protocol, 0)
  else Ok (0, 0, 0).

Definition flow_count (p : loc) (dir : Dir) (map : positive) : ST World () :=
  pk ← on_mem (deref p);
  '(addr, protocol, port) ← lift (flow_tuple pk dir);
  flowtop_inc map addr protocol port (bitlength pk).

(** struct TopApp *)
Record TopApp : Type := mkTopApp { map : positive; top_dir : Dir }.

Definition top_push (app : TopApp) (ports : Ports) : ST World TopApp :=
  io_scope ports (λ input output,
    drain input (λ app p,
      flow_count p (top_dir app) (map app);;
      link_transmit output p;;
      mret app) app).

Definition cstr (s : string) : outcome string := assert "cstr failed" (negb (has_nul s));; Ok s.

(** std::mem::size_of::<FlowCtr>() *)
Definition flowctr_size : nat := 24.

(** The packed array of counters in memory, little-endian. *)
Fixpoint flowctrs (n : nat) (mem : bytes) : list FlowCtr :=
  match n with
  | O => []
  | S n => mkFlowCtr (le_val (take 8 mem)) (le_val (take 8 (drop 8 mem))) (le_val (take 8 (drop 16 mem)))
             :: flowctrs n (drop flowctr_size mem)
  end.

(** mmap(2) maps the file at an address where nothing else is mapped. *)
Definition open_flowtop_map `{Kernel} (path : string) : ST World positive :=
  name ← lift (cstr path);
  fd ← syscall (Open name);
  lift (assert "open" (ret fd >=? 0));;
  let size := Z.of_nat flowctr_size * FLOWTOP_NSLOTS in
  t ← syscall (Ftruncate (ret fd) size);
  lift (assert "ftruncate" (ret t =? 0));;
  m ← syscall (Mmap (ret fd) size);
  lift (assert "mmap" (negb (ret m =? -1)));;
  syscall (Close (ret fd));;
  w ← get;
  let ptr := fresh (dom (profiles w)) in
  put (set_profiles (<[ptr := flowctrs (Z.to_nat FLOWTOP_NSLOTS) (data m)]> (profiles w)) w);;
  mret ptr.

Record Top : Type := mkTop { path : string; conf_dir : Dir }.
Definition Top_new `{Kernel} (conf : Top) : ST World TopApp :=
  m ← open_flowtop_map (path conf);
  mret (mkTopApp m (conf_dir conf)).

(** munmap(2): the memory is gone. *)
Definition close_flowtop_map `{Kernel} (ptr : positive) : ST World () :=
  syscall (Munmap ptr);;
  modify (λ w, set_profiles (delete ptr (profiles w)) w).

#[export] Instance TopApp_App `{Kernel} : App TopApp := {|
  has_pull _ := false;
  pull := no_pull;
  has_push _ := true;
  push := top_push;
  has_stop _ := true;
  stop app := close_flowtop_map (map app)
|}.

(** ** What a flow matches *)

(** Zero stands for any address, any protocol; only TCP and UDP have ports. *)
Record matches (f : Flow) (p : Packet) : Prop := {
  mt_ipv4 : Ethernet.ethertype (eth_of p) = Ethernet.TYPE_IPV4 ∧ Ipv4.ihl (ip_of p) ≤ 5;
  mt_addr : 0 < ip f → by_dir (dir f) (Ipv4.src (ip_of p)) (Ipv4.dst (ip_of p)) = ip f;
  mt_protocol : 0 < protocol f → Ipv4.protocol (ip_of p) = protocol f;
  mt_tcp : protocol f = Ipv4.PROTOCOL_TCP →
    port_min f ≤ by_dir (dir f) (Tcp.src_port (l4_of TCP p)) (Tcp.dst_port (l4_of TCP p)) ≤ port_max f;
  mt_udp : protocol f = Ipv4.PROTOCOL_UDP →
    port_min f ≤ by_dir (dir f) (Udp.src_port (l4_of UDP p)) (Udp.dst_port (l4_of UDP p)) ≤ port_max f;
}.

Section flow_match.
Context (p : Packet) (Hwf : wf_packet p) (f : Flow).

(** A result, and that it is right: [reflect] for computations. *)
Definition decides (o : outcome bool) (P : Prop) : Prop := ∃ b, o = Ok b ∧ (b = true ↔ P).

Lemma decides_false P : ¬ P → decides (Ok false) P.
Proof. intros. exists false. by split. Qed.

Lemma range_test port :
  (port <? port_min f) || (port >? port_max f) = negb (bool_decide (port_min f ≤ port ≤ port_max f)).
Proof.
  destruct (Z.ltb_spec port (port_min f)), (Z.gtb_spec port (port_max f)); case_bool_decide; simpl; lia.
Qed.

Lemma flow_match_ports :
  Ethernet.ethertype (eth_of p) = Ethernet.TYPE_IPV4 → Ipv4.ihl (ip_of p) ≤ 5 →
  (0 < ip f → by_dir (dir f) (Ipv4.src (ip_of p)) (Ipv4.dst (ip_of p)) = ip f) →
  (0 < protocol f → Ipv4.protocol (ip_of p) = protocol f) →
  decides
    (if protocol f =? Ipv4.PROTOCOL_TCP then
       tcp ← from_mem (p_data p) (size_of Eth + size_of IP);
       let tcp := header_ref (T:=TCP) tcp (p_data p) in
       let port := by_dir (dir f) (Tcp.src_port tcp) (Tcp.dst_port tcp) in
       if (port <? port_min f) || (port >? port_max f) then Ok false else Ok true
     else if protocol f =? Ipv4.PROTOCOL_UDP then
       udp ← from_mem (p_data p) (size_of Eth + size_of IP);
       let udp := header_ref (T:=UDP) udp (p_data p) in
       let port := by_dir (dir f) (Udp.src_port udp) (Udp.dst_port udp) in
       if (port <? port_min f) || (port >? port_max f) then Ok false else Ok true
     else Ok true) (matches f p).
Proof.
  intros He Hi Ha Hp.
  destruct (Z.eqb_spec (protocol f) Ipv4.PROTOCOL_TCP) as [Ht|Ht];
    [|destruct (Z.eqb_spec (protocol f) Ipv4.PROTOCOL_UDP) as [Hu|Hu]].
  - rewrite (from_mem_data p Hwf (T:=TCP)) by (simpl; lia). cbn [mbind outcome_bind].
    change (header_ref (mkHeader (size_of Eth + size_of IP)) (p_data p)) with (l4_of TCP p).
    rewrite range_test. exists (bool_decide (port_min f ≤ by_dir (dir f) (Tcp.src_port (l4_of TCP p)) (Tcp.dst_port (l4_of TCP p)) ≤ port_max f)).
    split; [by case_bool_decide|]. rewrite bool_decide_eq_true. split; [|intros [_ _ _ Hx _]; by apply Hx].
    intros Hr. split; try done. by rewrite Ht.
  - rewrite (from_mem_data p Hwf (T:=UDP)) by (simpl; lia). cbn [mbind outcome_bind].
    change (header_ref (mkHeader (size_of Eth + size_of IP)) (p_data p)) with (l4_of UDP p).
    rewrite range_test. exists (bool_decide (port_min f ≤ by_dir (dir f) (Udp.src_port (l4_of UDP p)) (Udp.dst_port (l4_of UDP p)) ≤ port_max f)).
    split; [by case_bool_decide|]. rewrite bool_decide_eq_true. split; [|intros [_ _ _ _ Hx]; by apply Hx].
    intros Hr. by split.
  - exists true. split; [done|]. split; [|done]. intros _. by split.
Qed.

Lemma flow_match_decides : decides (flow_match p f) (matches f p).
Proof.
  unfold flow_match. rewrite (from_mem_data p Hwf (T:=Eth)) by (simpl; lia). cbn [mbind outcome_bind].
  change (header_ref (mkHeader 0) (p_data p)) with (eth_of p).
  destruct (Z.eqb_spec (Ethernet.ethertype (eth_of p)) Ethernet.TYPE_IPV4) as [He|He];
    [|by apply decides_false; intros [[? _] _ _ _ _]]. cbn [negb].
  rewrite (from_mem_data p Hwf (T:=IP)) by (simpl; lia). cbn [mbind outcome_bind].
  change (header_ref (mkHeader (size_of Eth)) (p_data p)) with (ip_of p).
  destruct (Z.gtb_spec (Ipv4.ihl (ip_of p)) 5) as [Hi|Hi];
    [apply decides_false; intros [[_ ?] _ _ _ _]; lia|].
  destruct (Z.gtb_spec (ip f) 0) as [Ha0|Ha0]; cbn [andb];
    [destruct (Z.eqb_spec (by_dir (dir f) (Ipv4.src (ip_of p)) (Ipv4.dst (ip_of p))) (ip f)) as [Ha|Ha];
     cbn [negb]; [|by apply decides_false; intros [_ Hx _ _ _]; apply Ha, Hx]|].
  all: (destruct (Z.gtb_spec (protocol f) 0) as [Hp0|Hp0]; cbn [andb];
    [destruct (Z.eqb_spec (Ipv4.protocol (ip_of p)) (protocol f)) as [Hp|Hp];
     cbn [negb]; [|by apply decides_false; intros [_ _ Hx _ _]; apply Hp, Hx]|]).
  all: apply flow_match_ports; try done; lia.
Qed.
End flow_match.

(** ** Split: where packets go *)

(** The first flow that matches decides; no match: the default output. *)
Inductive routes (ports : Ports) (default : link_id) (p : Packet) : list Flow → link_id → Prop :=
  | routes_default : routes ports default p [] default
  | routes_here f fs l :
      matches f p → App.output ports !! label f = Some l → routes ports default p (f :: fs) l
  | routes_next f fs l :
      ¬ matches f p → routes ports default p fs l → routes ports default p (f :: fs) l.

(** Sending a packet on a link. *)
Definition send (Q : queues) (lx : link_id * (loc * Packet)) : queues :=
  match Q !! lx.1 with
  | Some q => <[lx.1 := link_tx q lx.2]> Q
  | None => Q
  end.
Definition sends (Q : queues) (lxs : list (link_id * (loc * Packet))) : queues := foldl send Q lxs.

Lemma send_insert_ne Q i q lx : lx.1 ≠ i → send (<[i:=q]> Q) lx = <[i:=q]> (send Q lx).
Proof.
  intros Hne. unfold send. rewrite lookup_insert_ne by done. destruct (Q !! lx.1); [|done].
  by rewrite insert_insert_ne.
Qed.

Lemma sends_insert_ne i q lxs : ∀ Q,
  Forall (λ lx, lx.1 ≠ i) lxs → sends (<[i:=q]> Q) lxs = <[i:=q]> (sends Q lxs).
Proof.
  induction lxs as [|lx lxs IH]; intros Q Hf; [done|]. apply Forall_cons in Hf as [Hne Hf].
  simpl. rewrite send_insert_ne by done. by apply IH.
Qed.

Lemma sends_snoc Q lxs lx : sends Q (lxs ++ [lx]) = send (sends Q lxs) lx.
Proof. unfold sends. by rewrite foldl_app. Qed.

Lemma send_is_Some Q lx l : is_Some (Q !! l) → is_Some (send Q lx !! l).
Proof.
  intros H. unfold send. destruct (Q !! lx.1) eqn:E; [|done].
  destruct (decide (lx.1 = l)) as [<-|]; [rewrite lookup_insert_eq|rewrite lookup_insert_ne]; eauto.
Qed.

Lemma sends_is_Some lxs : ∀ Q l, is_Some (Q !! l) → is_Some (sends Q lxs !! l).
Proof. induction lxs; intros Q l H; simpl; [done|]. by apply IHlxs, send_is_Some. Qed.

(** The links of a Split app: an input, and outputs of their own.  [E] admits the
    panics for a label without an output, or that names the default output. *)
Record split_ports (E : string → Prop) (app : SplitApp) (ports : Ports) (i d : link_id) (Q : queues) (w : World) : Prop := {
  sp_input : App.input ports !! "input" = Some i ∧ (i ∉ borrowed w) ∧ is_Some (Q !! i);
  sp_default : App.output ports !! "default" = Some d ∧ d ≠ i ∧ (d ∉ borrowed w) ∧ is_Some (Q !! d);
  sp_labels : ∀ f, f ∈ flows app →
    (∃ l, App.output ports !! label f = Some l ∧ l ≠ i ∧ (l ∉ borrowed w) ∧ is_Some (Q !! l) ∧
       (l = d → E "already borrowed: BorrowMutError")) ∨
    (App.output ports !! label f = None ∧ E "called `Option::unwrap()` on a `None` value");
}.

Lemma select_output_wp E ports d owned Q p pk fs : ∀ w,
  winv Q ((p, pk) :: owned) w → d ∈ borrowed w →
  (∀ f, f ∈ fs →
     (∃ l, App.output ports !! label f = Some l ∧ (l ∈ borrowed w → E "already borrowed: BorrowMutError")) ∨
     (App.output ports !! label f = None ∧ E "called `Option::unwrap()` on a `None` value")) →
  wpx E (select_output p fs ports d)
    (λ l w', routes ports d pk fs l ∧ w' = set_borrowed ({[l]} ∪ (borrowed w ∖ {[d]})) w) w.
Proof.
  induction fs as [|f fs IH]; intros w Hw Hd Hf; cbn [select_output].
  - apply wpx_ret. split; [constructor|].
    assert ({[d]} ∪ (borrowed w ∖ {[d]}) = borrowed w) as ->; [|by destruct w].
    apply set_eq. intros x. destruct (decide (x = d)); set_solver.
  - pose proof (winv_owned _ _ _ _ _ Hw) as [_ Hwf].
    destruct (flow_match_decides pk Hwf f) as (b & Hb & Hm).
    apply wpx_bind. eapply deref_rule; [exact Hw|]. apply wpx_bind. eapply wpx_lift; [exact Hb|].
    destruct b.
    + destruct (Hf f) as [(l & Hl & Hnb)|[Hl HE]]; [left| |unfold port; rewrite Hl; exact HE].
      unfold port. rewrite Hl. cbn [unwrap].
      apply wpx_bind. eapply wpx_lift; [done|]. apply wpx_bind. unfold borrow_mut, wpx at 1.
      destruct (decide (l ∈ borrowed w)) as [Hlb|Hlb]; [by apply Hnb|]. apply wpx_bind, wpx_modify, wpx_ret.
      split; [constructor; [by apply Hm|done]|]. unfold set_borrowed. simpl. f_equal. set_solver.
    + eapply wpx_mono; [apply IH; [done|done|]|].
      * intros g Hg. apply Hf. by right.
      * intros l w' [Hr ->]. split; [|done]. constructor; [|done]. intros Hmt. apply Hm in Hmt. done.
Qed.

Section split.
Context (E : string → Prop) (app : SplitApp) (ports : Ports) (i d : link_id) (Q : queues) (w0 : World).
Context (Hports : split_ports E app ports i d Q w0).

Lemma routes_link p fs l :
  (∀ f, f ∈ fs → f ∈ flows app) → routes ports d p fs l →
  l ≠ i ∧ (l ∉ borrowed w0) ∧ is_Some (Q !! l).
Proof.
  intros Hsub Hr. induction Hr as [|f fs l Hm Hl|f fs l Hm Hr IH].
  - by destruct Hports as [_ (_&?&?&?) _].
  - destruct (sp_labels _ _ _ _ _ _ _ Hports f) as [(l' & Hl' & ? & ? & ? & _)|[Hl' _]]; [apply Hsub; left| |];
      rewrite Hl in Hl'; by simplify_eq.
  - apply IH. intros g Hg. apply Hsub. by right.
Qed.

(** The loop has borrowed the input, and [ds] have been sent. *)
Definition splitting (ds : list (link_id * (loc * Packet))) (rest owned : queue) (w : World) : Prop :=
  Forall (λ lx, routes ports d lx.2.2 (flows app) lx.1) ds ∧
  winv (sends (<[i:=rest]> Q) ds) owned w ∧ same_env (set_borrowed ({[i]} ∪ borrowed w0) w0) w.

Lemma splitting_input ds rest owned w :
  splitting ds rest owned w →
  sends (<[i:=rest]> Q) ds !! i = Some rest ∧
  ∀ q, <[i:=q]> (sends (<[i:=rest]> Q) ds) = sends (<[i:=q]> Q) ds.
Proof.
  intros (Hr & _). assert (Forall (λ lx, lx.1 ≠ i) ds) as Hne.
  { eapply Forall_impl; [exact Hr|]. intros lx Hlx. by apply routes_link in Hlx as (?&_). }
  split; [by rewrite sends_insert_ne, lookup_insert_eq by done|]. intros q.
  by rewrite !sends_insert_ne, insert_insert_eq by done.
Qed.

Lemma split_body_wp p pk rest owned ds w :
  splitting ds ((p, pk) :: rest) owned w →
  wpx E (p ← link_receive i;
         borrow_mut d;;
         output ← select_output p (flows app) ports d;
         link_transmit output p;;
         release output;;
         mret app)
    (λ a w', a = app ∧ ∃ l, splitting (ds ++ [(l, (p, pk))]) rest owned w') w.
Proof.
  intros Hs. pose proof (splitting_input _ _ _ _ Hs) as [Hi Hins]. destruct Hs as (Hr & Hw & He).
  destruct Hports as [(_ & Hib & _) (_ & Hdi & Hdb & _) Hlabels].
  apply wpx_bind. eapply wpx_mono; [by eapply link_receive_wp|]. intros p' w1 (-> & Hw1 & He1).
  rewrite Hins in Hw1. assert (same_env (set_borrowed ({[i]} ∪ borrowed w0) w0) w1) as He01 by by etrans.
  pose proof (se_borrowed _ _ He01) as Hb1. simpl in Hb1.
  apply wpx_bind. unfold borrow_mut, wpx at 1. rewrite decide_False by (rewrite Hb1; set_solver).
  apply wpx_bind. eapply wpx_mono; [eapply select_output_wp|].
  - by apply winv_set_borrowed.
  - simpl. set_solver.
  - intros f Hf. destruct (Hlabels f Hf) as [(l & Hl & Hli & Hlb & _ & HE)|Hn]; [left|by right].
    exists l. split; [done|]. simpl. rewrite Hb1. intros Hin. apply HE. set_solver.
  - intros l w2 [Hroute ->]. pose proof (routes_link _ _ _ (λ f Hf, Hf) Hroute) as (Hli & Hlb & [ql Hql]).
    destruct (sends_is_Some ds (<[i:=rest]> Q) l) as [ql' Hql'].
    { rewrite lookup_insert_ne by done. eauto. }
    apply wpx_bind. eapply wpx_mono; [eapply link_transmit_wp; [by apply winv_set_borrowed, winv_set_borrowed|done]|].
    intros _ w3 [Hw3 He3]. unfold release. apply wpx_bind, wpx_modify, wpx_ret. split; [done|].
    exists l. split_and!.
    + apply Forall_app_2; [done|]. by constructor.
    + apply winv_set_borrowed. rewrite sends_snoc. unfold send. simpl. by rewrite Hql'.
    + pose proof (se_borrowed _ _ He3) as Hb3. simpl in Hb3. apply same_env_intro.
      * unfold set_borrowed, env. simpl. pose proof (same_env_env _ _ He3) as Hx.
        unfold env in Hx. simpl in Hx. rewrite Hx. by apply same_env_env in He01.
      * simpl. rewrite Hb3, Hb1. set_solver.
Qed.
End split.

Lemma split_push_wp E app ports i d Q w qi owned :
  split_ports E app ports i d Q w → winv (<[i:=qi]> Q) owned w →
  wpx E (split_push app ports)
    (λ app' w', app' = app ∧ ∃ ls, Forall2 (λ x l, routes ports d x.2 (flows app) l) qi ls ∧
       winv (sends (<[i:=[]]> Q) (zip ls qi)) owned w' ∧ same_env w w') w.
Proof.
  intros Hports Hw. pose proof Hports as [(Hi & Hib & _) (Hd & Hdi & Hdb & _) _].
  unfold split_push, port. apply wpx_bind. rewrite Hi, Hd. cbn [unwrap]. eapply wpx_lift; [done|].
  apply wpx_bind. unfold borrow_mut at 1, wpx at 1. rewrite decide_False by done.
  apply wpx_bind. eapply wpx_lift; [done|]. apply wpx_bind.
  eapply wpx_mono; [eapply (drain_wp _ _ _ (λ rest a w', a = app ∧ ∃ ls ds, qi = ds ++ rest ∧
    length ls = length ds ∧ splitting app ports i d Q w (zip ls ds) rest owned w'))|].
  - intros rest a w' (_ & ls & ds & _ & _ & Hs).
    destruct (splitting_input _ _ _ _ _ _ _ Hports _ _ _ _ Hs) as [Hl _].
    destruct Hs as (_ & Hw' & _). eauto.
  - intros p pk rest a w' (-> & ls & ds & -> & Hlen & Hs).
    eapply wpx_mono; [by eapply split_body_wp|]. intros a w'' [-> (l & Hs')]. split; [done|].
    exists (ls ++ [l]), (ds ++ [(p, pk)]). split; [by rewrite <-app_assoc|].
    split; [rewrite !length_app; simpl; lia|]. by rewrite zip_with_app by done.
  - split; [done|]. exists [], []. split; [done|]. split; [done|]. split_and!; [constructor| |done].
    by apply winv_set_borrowed.
  - intros a w' (-> & ls & ds & -> & Hlen & Hr & Hw' & He). unfold release.
    apply wpx_bind, wpx_modify, wpx_ret. split; [done|]. exists ls. rewrite app_nil_r. split_and!.
    + clear -Hr Hlen. revert ls Hlen Hr. induction ds as [|x ds IH]; intros [|l ls] Hlen Hr; try done.
      simpl in *. apply Forall_cons in Hr as [??]. constructor; [done|]. apply IH; [lia|done].
    + by apply winv_set_borrowed.
    + apply same_env_intro.
      * unfold set_borrowed, env. simpl. by apply (same_env_env _ _ He).
      * simpl. rewrite (se_borrowed _ _ He). simpl. set_solver.
Qed.

(** ** Profiles *)

Lemma flow_slot_range flow : is_u64 flow → 0 ≤ flow_slot flow < FLOWTOP_NSLOTS.
Proof.
  intros _. unfold flow_slot, FLOWTOP_SLOTMASK, FLOWTOP_NSLOTS. change (2048 - 1) with (Z.ones 11).
  rewrite Z.land_ones by lia. apply Z.mod_pos_bound. lia.
Qed.

(** x ^ (x >> 33) is its own inverse on 64 bits. *)
Definition xorshift33 (x : Z) : Z := Z.lxor x (Z.shiftr x 33).

Lemma xorshift33_involutive x : is_u64 x → xorshift33 (xorshift33 x) = x.
Proof.
  intros Hx. unfold xorshift33. rewrite Z.shiftr_lxor, Z.shiftr_shiftr by lia.
  assert (Z.shiftr x (33 + 33) = 0) as ->.
  { rewrite Z.shiftr_div_pow2 by lia. apply Z.div_small. unfold is_u64 in Hx.
    change (2 ^ (33 + 33)) with 73786976294838206464. lia. }
  rewrite Z.lxor_0_r, Z.lxor_assoc, Z.lxor_nilpotent, Z.lxor_0_r. done.
Qed.

Lemma xorshift33_range x : is_u64 x → is_u64 (xorshift33 x).
Proof.
  intros Hx. unfold xorshift33, is_u64 in *.
  assert (0 ≤ Z.lxor x (Z.shiftr x 33)) as H0.
  { apply Z.lxor_nonneg. rewrite Z.shiftr_nonneg. lia. }
  split; [done|]. destruct (decide (Z.lxor x (Z.shiftr x 33) = 0)) as [->|Hne]; [lia|].
  apply (Z.log2_lt_pow2 _ 64); [lia|].
  eapply Z.le_lt_trans; [apply Z.log2_lxor; [lia|rewrite Z.shiftr_nonneg; lia]|].
  apply Z.max_lub_lt.
  - destruct (decide (x = 0)) as [->|]; [done|]. apply Z.log2_lt_pow2; lia.
  - destruct (decide (x = 0)) as [->|]; [done|]. rewrite Z.log2_shiftr by lia.
    assert (Z.log2 x < 64) by (apply Z.log2_lt_pow2; lia). lia.
Qed.

(** Multiplication by an odd constant is undone by its inverse modulo 2^64. *)
Lemma mul_inverse c c' x :
  (c * c') mod 18446744073709551616 = 1 → is_u64 x → u64 (u64 (x * c) * c') = x.
Proof.
  intros Hc Hx. unfold u64. rewrite Z.mul_mod_idemp_l by lia.
  rewrite <-Z.mul_assoc, <-Z.mul_mod_idemp_r, Hc, Z.mul_1_r by lia. by apply Z.mod_small.
Qed.

(** The inverse of the mixing function. *)
Definition unmix (h : Z) : Z :=
  xorshift33 (u64 (xorshift33 (u64 (xorshift33 h * 0x9cb4b2f8129337db)) * 0x4f74430c22a54005)).

Lemma unmix_mix k : is_u64 k → unmix (murmurhash64_mix64 k) = k.
Proof.
  intros Hk. pose proof u64_range.
  change (murmurhash64_mix64 k) with
    (xorshift33 (u64 (xorshift33 (u64 (xorshift33 k * 0xff51afd7ed558ccd)) * 0xc4ceb9fe1a85ec53))).
  unfold unmix. rewrite xorshift33_involutive by done.
  rewrite (mul_inverse 0xc4ceb9fe1a85ec53) by (done || by apply xorshift33_range).
  rewrite xorshift33_involutive by done.
  rewrite (mul_inverse 0xff51afd7ed558ccd) by (done || by apply xorshift33_range).
  by apply xorshift33_involutive.
Qed.

(** ** Flow IDs *)

Lemma lor_disjoint a b k : 0 ≤ k → 0 ≤ b < 2 ^ k → Z.lor (a * 2 ^ k) b = a * 2 ^ k + b.
Proof.
  intros Hk Hb. symmetry. apply Z.add_nocarry_lor.
  apply Z.bits_inj'. intros n Hn. rewrite Z.land_spec, Z.bits_0.
  destruct (Z.ltb_spec n k).
  - rewrite Z.mul_pow2_bits_low by lia. done.
  - rewrite <-(Z.mod_small b (2 ^ k)) by done. rewrite Z.mod_pow2_bits_high by lia. apply andb_false_r.
Qed.

Lemma flow_id_sum ip proto port :
  is_u32 ip → is_u8 proto → is_u16 port →
  flow_id ip proto port = port * 2 ^ 48 + proto * 2 ^ 32 + ip.
Proof.
  intros Hi Hp Ho. unfold flow_id. rewrite !Z.shiftl_mul_pow2, Z.mul_1_r by lia.
  unfold is_u32, is_u8, is_u16 in *.
  rewrite !u64_id by (unfold is_u64; lia).
  rewrite lor_disjoint by lia.
  replace (port * 2 ^ 48 + proto * 2 ^ 32) with ((port * 2 ^ 16 + proto) * 2 ^ 32) by lia.
  rewrite lor_disjoint by lia. lia.
Qed.

(** ** Top *)

(** The profile after counting a packet of [bits] bits with flow [id]. *)
Definition counted (slots : list FlowCtr) (id bits : Z) : list FlowCtr :=
  alter (λ slot, mkFlowCtr (u64 (ctr_packets slot + 1)) (u64 (ctr_bits slot + bits)) id)
        (Z.to_nat (flow_slot id)) slots.

Lemma length_counted slots id bits : length (counted slots id bits) = length slots.
Proof. apply length_alter. Qed.

Lemma alter_insert {A} (f : A → A) (l : list A) n x : l !! n = Some x → alter f n l = <[n:=f x]> l.
Proof.
  revert n. induction l as [|y l IH]; intros [|n] Hn; simplify_eq/=; [done|].
  f_equal. by apply IH.
Qed.

Lemma flowtop_inc_wp E map ip proto port bits slots w :
  profiles w !! map = Some slots → Z.of_nat (length slots) = FLOWTOP_NSLOTS →
  is_u32 ip → is_u8 proto → is_u16 port →
  wpx E (flowtop_inc map ip proto port bits)
    (λ _ w', w' = set_profiles (<[map := counted slots (flow_id ip proto port) bits]> (profiles w)) w) w.
Proof.
  intros Hm Hl Hi Hp Ho. unfold flowtop_inc. apply wpx_bind, wpx_get. rewrite Hm.
  assert (is_u64 (flow_id ip proto port)) as Hid.
  { rewrite flow_id_sum by done. unfold is_u32, is_u8, is_u16, is_u64 in *.
    change (2 ^ 48) with 281474976710656. change (2 ^ 32) with 4294967296. lia. }
  pose proof (flow_slot_range _ Hid) as Hs.
  destruct (lookup_lt_is_Some_2 slots (Z.to_nat (flow_slot (flow_id ip proto port)))) as [slot Hslot]; [lia|].
  rewrite Hslot. apply wpx_put. unfold counted. by rewrite (alter_insert _ _ _ _ Hslot).
Qed.

(** The flow tuple is well formed, whatever the packet. *)
Lemma flow_tuple_ok p d :
  wf_packet p →
  ∃ addr proto port, flow_tuple p d = Ok (addr, proto, port) ∧ is_u32 addr ∧ is_u8 proto ∧ is_u16 port.
Proof.
  intros Hwf. unfold flow_tuple.
  rewrite (from_mem_data p Hwf (T:=Eth)) by (simpl; lia). cbn [mbind outcome_bind].
  rewrite (from_mem_data p Hwf (T:=IP)) by (simpl; lia).
  rewrite (from_mem_data p Hwf (T:=TCP)) by (simpl; lia).
  rewrite (from_mem_data p Hwf (T:=UDP)) by (simpl; lia). cbn [mbind outcome_bind].
  change (header_ref (mkHeader (size_of Eth)) (p_data p)) with (ip_of p).
  pose proof (ip_of_ok p Hwf) as (_ & _ & _ & _ & _ & Hp & _ & Hs & Hd).
  assert (is_u32 (by_dir d (Ipv4.src (ip_of p)) (Ipv4.dst (ip_of p)))) as Ha by (by destruct d).
  assert (is_u16 0) by done.
  destruct (_ =? _); [|by exists 0, 0, 0].
  destruct (_ =? _); [|by eexists _, _, _].
  destruct (_ =? _); [eexists _, _, _; split_and!; [done..|destruct d; apply ntohs_range]|].
  destruct (_ =? _); [eexists _, _, _; split_and!; [done..|destruct d; apply ntohs_range]|].
  by eexists _, _, _.
Qed.

(** *** What is counted, read off the bytes of a packet *)

Definition byte_at (p : Packet) (n : nat) : Z := nth n (p_data p) 0.

(** Ethertype 0x0800; no options: an IHL of five words; TCP or UDP. *)
Definition is_ipv4 (p : Packet) : Prop := byte_at p 12 = 8 ∧ byte_at p 13 = 0.
Definition has_ports (p : Packet) : Prop :=
  byte_at p 14 mod 16 = 5 ∧ (byte_at p 23 = 6 ∨ byte_at p 23 = 17).

(** The address of the source at byte 26, or of the destination at byte 30, as
    it is in memory; the port at byte 34 or 36, in network byte order. *)
Definition address_at (p : Packet) (n : nat) : Z :=
  byte_at p n + 2 ^ 8 * byte_at p (n + 1) + 2 ^ 16 * byte_at p (n + 2) + 2 ^ 24 * byte_at p (n + 3).
Definition port_at (p : Packet) (n : nat) : Z := 2 ^ 8 * byte_at p n + byte_at p (n + 1).

(** Address, protocol and port of the flow of a packet. *)
Inductive in_flow (p : Packet) : Dir → Z → Z → Z → Prop :=
  | flow_not_ipv4 d : ¬ is_ipv4 p → in_flow p d 0 0 0
  | flow_src : is_ipv4 p → has_ports p → in_flow p Src (address_at p 26) (byte_at p 23) (port_at p 34)
  | flow_dst : is_ipv4 p → has_ports p → in_flow p Dst (address_at p 30) (byte_at p 23) (port_at p 36)
  | flow_src_portless : is_ipv4 p → ¬ has_ports p → in_flow p Src (address_at p 26) (byte_at p 23) 0
  | flow_dst_portless : is_ipv4 p → ¬ has_ports p → in_flow p Dst (address_at p 30) (byte_at p 23) 0.

(** The finalizer of MurmurHash3 for 64 bits. *)
Definition fmix64 (k : Z) : Z :=
  let mix x := Z.lxor x (x / 2 ^ 33) in
  mix ((mix ((mix k * 18397679294719823053) mod 2 ^ 64) * 14181476777654086739) mod 2 ^ 64).

(** Counting one packet: one slot changes, the one the hash of the flow selects. *)
Inductive counts (d : Dir) (slots : list FlowCtr) (p : Packet) : list FlowCtr → Prop :=
  | counts_in addr proto port c :
      in_flow p d addr proto port →
      let id := 2 ^ 48 * port + 2 ^ 32 * proto + addr in
      let n := Z.to_nat (fmix64 id mod 2048) in
      slots !! n = Some c →
      let wire_bits := 8 * (Z.max 60 (p_length p) + 24) in
      counts d slots p
        (<[n := mkFlowCtr ((ctr_packets c + 1) mod 2 ^ 64) ((ctr_bits c + wire_bits) mod 2 ^ 64) id]> slots).

Inductive counts_all (d : Dir) : list FlowCtr → list Packet → list FlowCtr → Prop :=
  | counts_none slots : counts_all d slots [] slots
  | counts_next slots p slots1 ps slots2 :
      counts d slots p slots1 → counts_all d slots1 ps slots2 → counts_all d slots (p :: ps) slots2.

Section bytes_of_headers.
Context (p : Packet) (Hwf : wf_packet p).

Lemma byte_at_range n : is_u8 (byte_at p n).
Proof.
  unfold byte_at. destruct (nth_in_or_default n (p_data p) 0) as [Hin| ->]; [|done].
  pose proof (data_bytes p Hwf) as Hb. rewrite List.Forall_forall in Hb. exact (Hb _ Hin).
Qed.

Lemma ntohs_pair a b : is_u8 a → is_u8 b → ntohs (le_val [a; b]) = 2 ^ 8 * a + b.
Proof.
  intros Ha Hb. unfold ntohs, swap_bytes.
  pose proof (le_bytes_le_val [a; b] ltac:(by repeat apply Forall_cons_2; try apply Forall_nil_2)) as Hl. simpl length in Hl. rewrite Hl.
  simpl. lia.
Qed.

Lemma field_2 ofs len n : (n + 2 ≤ len)%nat → (ofs + len ≤ 100)%nat →
  ntohs (le_val (slice n 2 (slice ofs len (p_data p)))) = port_at p (ofs + n).
Proof.
  intros Hn Hl. pose proof (data_length p Hwf). rewrite slice_slice by lia. rewrite slice_2 by lia.
  by rewrite ntohs_pair by apply byte_at_range.
Qed.

Lemma field_1 ofs len n : (n + 1 ≤ len)%nat → (ofs + len ≤ 100)%nat →
  le_val (slice n 1 (slice ofs len (p_data p))) = byte_at p (ofs + n).
Proof.
  intros Hn Hl. pose proof (data_length p Hwf). rewrite slice_slice by lia. rewrite slice_1 by lia.
  unfold byte_at. simpl. lia.
Qed.

Lemma field_4 ofs len n : (n + 4 ≤ len)%nat → (ofs + len ≤ 100)%nat →
  le_val (slice n 4 (slice ofs len (p_data p))) = address_at p (ofs + n).
Proof.
  intros Hn Hl. pose proof (data_length p Hwf). rewrite slice_slice by lia. rewrite slice_4 by lia.
  unfold address_at, byte_at. simpl. lia.
Qed.

Lemma ethertype_bytes : Ethernet.ethertype (eth_of p) = port_at p 12.
Proof. apply (field_2 0 14 12); lia. Qed.

Lemma ihl_byte : Ipv4.ihl (ip_of p) = byte_at p 14 mod 16.
Proof.
  unfold Ipv4.ihl. change (Ipv4.f_ihl_v_tos (ip_of p)) with (le_val (slice 0 2 (slice 14 20 (p_data p)))).
  rewrite field_2 by lia. unfold port_at. simpl plus.
  pose proof (byte_at_range 14). pose proof (byte_at_range 15). unfold is_u8 in *.
  change 0xf with (Z.ones 4). rewrite Z.land_ones, Z.shiftr_div_pow2 by lia. f_equal.
  change (2 ^ 8) with 256. Z.div_mod_to_equations. lia.
Qed.

Lemma protocol_byte : Ipv4.protocol (ip_of p) = byte_at p 23.
Proof. apply (field_1 14 20 9); lia. Qed.

Lemma address_bytes d :
  by_dir d (Ipv4.src (ip_of p)) (Ipv4.dst (ip_of p)) = address_at p (match d with Src => 26 | Dst => 30 end).
Proof. destruct d; [apply (field_4 14 20 12)|apply (field_4 14 20 16)]; lia. Qed.

Lemma tcp_port_bytes d :
  by_dir d (Tcp.src_port (l4_of TCP p)) (Tcp.dst_port (l4_of TCP p))
  = port_at p (match d with Src => 34 | Dst => 36 end).
Proof. destruct d; [apply (field_2 34 20 0)|apply (field_2 34 20 2)]; lia. Qed.

Lemma udp_port_bytes d :
  by_dir d (Udp.src_port (l4_of UDP p)) (Udp.dst_port (l4_of UDP p))
  = port_at p (match d with Src => 34 | Dst => 36 end).
Proof. destruct d; [apply (field_2 34 8 0)|apply (field_2 34 8 2)]; lia. Qed.

Lemma is_ipv4_spec : is_ipv4 p ↔ Ethernet.ethertype (eth_of p) = Ethernet.TYPE_IPV4.
Proof.
  rewrite ethertype_bytes. unfold is_ipv4, port_at. simpl plus.
  pose proof (byte_at_range 12). pose proof (byte_at_range 13). unfold is_u8 in *.
  change Ethernet.TYPE_IPV4 with 2048. change (2 ^ 8) with 256. lia.
Qed.

Lemma flow_tuple_in_flow d addr proto port :
  flow_tuple p d = Ok (addr, proto, port) → in_flow p d addr proto port.
Proof.
  unfold flow_tuple.
  rewrite (from_mem_data p Hwf (T:=Eth)) by (simpl; lia). cbn [mbind outcome_bind].
  rewrite (from_mem_data p Hwf (T:=IP)) by (simpl; lia).
  rewrite (from_mem_data p Hwf (T:=TCP)) by (simpl; lia).
  rewrite (from_mem_data p Hwf (T:=UDP)) by (simpl; lia). cbn [mbind outcome_bind].
  change (header_ref (mkHeader 0) (p_data p)) with (eth_of p).
  change (header_ref (mkHeader (size_of Eth)) (p_data p)) with (ip_of p).
  change (header_ref (mkHeader (size_of Eth + size_of IP)) (p_data p)) with (l4_of TCP p) at 1 2.
  change (header_ref (mkHeader (size_of Eth + size_of IP)) (p_data p)) with (l4_of UDP p).
  rewrite tcp_port_bytes, udp_port_bytes, address_bytes, ihl_byte, protocol_byte.
  destruct (Z.eqb_spec (Ethernet.ethertype (eth_of p)) Ethernet.TYPE_IPV4) as [He|He];
    [apply is_ipv4_spec in He|rewrite <-is_ipv4_spec in He; intros [= <- <- <-]; by constructor].
  change Ipv4.PROTOCOL_TCP with 6. change Ipv4.PROTOCOL_UDP with 17.
  destruct (Z.eqb_spec (byte_at p 14 mod 16) 5) as [Hi|Hi];
    [destruct (Z.eqb_spec (byte_at p 23) 6) as [Ht|Ht]; [|destruct (Z.eqb_spec (byte_at p 23) 17) as [Hu|Hu]]|].
  all: intros [= <- <- <-].
  1, 2: assert (has_ports p) by (split; auto); destruct d; by constructor.
  all: assert (¬ has_ports p) by (intros [? [?|?]]; contradiction); destruct d; by constructor.
Qed.
End bytes_of_headers.

Lemma flow_slot_fmix id : flow_slot id = fmix64 id mod 2048.
Proof.
  unfold flow_slot, murmurhash64_mix64, FLOWTOP_SLOTMASK, FLOWTOP_NSLOTS.
  change (2048 - 1) with (Z.ones 11). rewrite Z.land_ones, !Z.shiftr_div_pow2 by lia. reflexivity.
Qed.

(** The ID and the size under which a packet is counted. *)
Definition flow_of (d : Dir) (p : Packet) : Z :=
  match flow_tuple p d with
  | Ok (addr, proto, port) => flow_id addr proto port
  | _ => 0
  end.

Definition count_packet (d : Dir) (slots : list FlowCtr) (x : loc * Packet) : list FlowCtr :=
  counted slots (flow_of d x.2) (bitlength x.2).

Lemma count_packet_counts d slots x :
  wf_packet x.2 → Z.of_nat (length slots) = FLOWTOP_NSLOTS → counts d slots x.2 (count_packet d slots x).
Proof.
  intros Hwf Hl. destruct (flow_tuple_ok x.2 d Hwf) as (addr & proto & port & Ht & Ha & Hp & Ho).
  pose proof (flow_tuple_in_flow x.2 Hwf d addr proto port Ht) as Hf.
  unfold count_packet, flow_of, counted. rewrite Ht. rewrite flow_id_sum, flow_slot_fmix by done.
  set (id := port * 2 ^ 48 + proto * 2 ^ 32 + addr).
  assert (0 ≤ fmix64 id mod 2048 < 2048) as Hr by (apply Z.mod_pos_bound; lia).
  unfold FLOWTOP_NSLOTS in Hl.
  destruct (lookup_lt_is_Some_2 slots (Z.to_nat (fmix64 id mod 2048))) as [c Hc]; [lia|].
  rewrite (alter_insert _ _ _ _ Hc).
  assert (id = 2 ^ 48 * port + 2 ^ 32 * proto + addr) as Hid by (unfold id; lia).
  pose proof (counts_in d slots x.2 addr proto port c Hf) as H. cbv zeta in H. rewrite <-Hid in H.
  specialize (H Hc). unfold bitlength, u64.
  replace ((12 + 8 + Z.max (p_length x.2) 60 + 4) * 8) with (8 * (Z.max 60 (p_length x.2) + 24)) by lia.
  exact H.
Qed.

Lemma count_packets_counts d qi : ∀ slots,
  Forall (λ x, wf_packet x.2) qi → Z.of_nat (length slots) = FLOWTOP_NSLOTS →
  counts_all d slots qi.*2 (foldl (count_packet d) slots qi).
Proof.
  induction qi as [|x qi IH]; intros slots Hwf Hl; [constructor|].
  apply Forall_cons in Hwf as [Hx Hwf]. rewrite fmap_cons. simpl foldl.
  eapply counts_next; [by apply count_packet_counts|]. apply IH; [done|].
  unfold count_packet. by rewrite length_counted.
Qed.

(** The environment with the profile behind [map] changed. *)
Definition with_profile (map : positive) (slots : list FlowCtr) (e : Env) : Env :=
  mkEnv (env_now e) (env_clock e) (env_ticks e) (env_rng e) (env_draws e)
        (<[map := slots]> (env_profiles e)) (env_syscalls e).

Definition profile_ok (app : TopApp) (e : Env) : Prop :=
  ∃ slots, env_profiles e !! map app = Some slots ∧ Z.of_nat (length slots) = FLOWTOP_NSLOTS.

Definition top_body (o : link_id) (app : TopApp) (p : loc) : ST World TopApp :=
  flow_count p (top_dir app) (map app);; link_transmit o p;; mret app.

Definition top_transfer : transfer TopApp := λ app e x out app' e',
  app' = app ∧ out = [x] ∧
  ∃ slots, env_profiles e !! map app = Some slots ∧
           e' = with_profile (map app) (count_packet (top_dir app) slots x) e.

Lemma top_body_spec E Q i o :
  body_spec E Q i o (top_body o) top_transfer profile_ok (λ _, True).
Proof.
  intros app q q' p pk owned w Hw (slots & Hm & Hl) _.
  pose proof (winv_owned _ _ _ _ _ Hw) as [_ Hwf].
  destruct (flow_tuple_ok pk (top_dir app) Hwf) as (addr & proto & port & Ht & Ha & Hp & Ho).
  unfold top_body, flow_count. apply wpx_bind, wpx_bind. eapply deref_rule; [exact Hw|].
  apply wpx_bind. eapply wpx_lift; [exact Ht|]. cbv beta iota.
  eapply wpx_mono; [eapply flowtop_inc_wp; [exact Hm|done..]|]. intros _ w1 ->.
  apply wpx_bind. eapply wpx_mono; [eapply io_transmit; split; [apply (wi_links _ _ _ Hw)|apply (wi_mem _ _ _ Hw)]|].
  intros _ w2 [Hw2 He2]. apply wpx_ret. exists [(p, pk)].
  rewrite (same_env_env _ _ He2). split_and!.
  - split_and!; [done|done|]. exists slots. split; [done|].
    unfold count_packet, flow_of. simpl. rewrite Ht. done.
  - exists (counted slots (flow_id addr proto port) (bitlength pk)). split.
    + simpl. apply lookup_insert_eq.
    + by rewrite length_counted.
  - by apply (se_borrowed _ _ He2).
  - done.
Qed.

Lemma top_forwards_profile a e xs outs a' e' slots :
  forwards top_transfer a e xs outs a' e' → env_profiles e !! map a = Some slots →
  a' = a ∧ outs = xs ∧ 
  e' = with_profile (map a) (foldl (count_packet (top_dir a)) slots xs) e.
Proof.
  intros Hf. revert slots.
  induction Hf as [a e|a e x out a2 e2 xs outs a3 e3 (-> & -> & s & Hs & ->) _ IH]; intros slots Hm.
  - split_and!; [done|done|]. unfold with_profile. simpl. rewrite insert_id by done. by destruct e.
  - rewrite Hm in Hs. injection Hs as <-.
    destruct (IH (count_packet (top_dir a) slots x)) as (-> & -> & ->); [apply lookup_insert_eq|].
    split_and!; [done|done|]. unfold with_profile. simpl. by rewrite insert_insert_eq.
Qed.

(** ** Properties *)

(** ** The memory of a profile *)

Lemma length_flowctrs n mem : length (flowctrs n mem) = n.
Proof. revert mem. induction n as [|n IH]; intros mem; simpl; [done|by rewrite IH]. Qed.

Definition open_panics (e : string) : Prop :=
  e = "cstr failed" ∨ e = "open" ∨ e = "ftruncate" ∨ e = "mmap".

Lemma wpx_assert {S} (E : string → Prop) msg b (Φ : () → S → Prop) s :
  E msg → (b = true → Φ tt s) → wpx E (lift (assert msg b)) Φ s.
Proof. intros HE HΦ. destruct b; [by apply HΦ|done]. Qed.

(** A new profile is mapped apart from all others; nothing else changes. *)
Lemma open_flowtop_map_wp `{Kernel} path w :
  wpx open_panics (open_flowtop_map path) (λ ptr w', profiles w !! ptr = None ∧ ∃ slots h,
    Z.of_nat (length slots) = FLOWTOP_NSLOTS ∧ written h = written (syscalls w) ∧
    w' = set_profiles (<[ptr := slots]> (profiles w)) (set_syscalls h w)) w.
Proof.
  unfold open_flowtop_map, cstr. apply wpx_bind.
  destruct (negb (has_nul path)); [|unfold wpx; simpl; unfold open_panics; tauto].
  eapply wpx_lift; [done|]. apply wpx_bind. unfold syscall, wpx at 1. apply wpx_bind.
  apply wpx_assert; [unfold open_panics; tauto|intros _]. apply wpx_bind. unfold syscall, wpx at 1. apply wpx_bind.
  apply wpx_assert; [unfold open_panics; tauto|intros _]. apply wpx_bind. unfold syscall, wpx at 1. apply wpx_bind.
  apply wpx_assert; [unfold open_panics; tauto|intros _]. apply wpx_bind. unfold syscall, wpx at 1.
  apply wpx_bind, wpx_get, wpx_bind, wpx_put, wpx_ret. split.
  - apply not_elem_of_dom, (is_fresh (dom (profiles w))).
  - eexists _, _. split; [|split; [|reflexivity]]; [by rewrite length_flowctrs, Z2Nat.id|done].
Qed.

(** [flow_match] returns whether the flow matches: IPv4 without options,
    the address and the protocol unless they are zero ("any"), and for TCP and
    UDP flows a port in the range.  It returns for every packet, even a runt. *)
Theorem flow_match_spec p f :
  wf_packet p → ∃ b, flow_match p f = Ok b ∧ (b = true ↔ matches f p).
Proof. intros Hwf. by apply flow_match_decides. Qed.

Definition http : Flow := mkFlow "http" Dst 0 6 80 80.

Lemma flow_match_spec_witness :
  ∃ b, flow_match sample_tcp http = Ok b ∧ (b = true ↔ matches http sample_tcp).
Proof. apply (flow_match_spec sample_tcp http sample_tcp_wf). Defined.

(** C22. Split sends every packet of its input, in order, to the output of the
    first flow it matches, or to the default output; the input is empty
    afterwards, no packet is leaked, and all borrows are released.  (A
    matching label without an output, or that names the default output, is a
    panic: [split_ports].) *)
Theorem split_routes E app ports i d Q w qi owned :
  split_ports E app ports i d Q w → winv (<[i:=qi]> Q) owned w →
  wpx E (push app ports)
    (λ _ w', ∃ ls, Forall2 (λ x l, routes ports d x.2 (flows app) l) qi ls ∧
       winv (sends (<[i:=[]]> Q) (zip ls qi)) owned w' ∧ same_env w w') w.
Proof. intros. eapply wpx_mono; [by apply split_push_wp|]. by intros ? ? [_ ?]. Qed.

(** Two packets on the input of a Split app with three outputs. *)
Definition https : Flow := mkFlow "https" Dst 0 6 443 443.
Definition split_sample : Ports := mkPorts {["input" := 1%positive]}
  {["default" := 2%positive; "http" := 3%positive; "https" := 4%positive]}.
Definition split_links (q : queue) : queues := <[4%positive := []]> (<[3%positive := []]> (io ∅ 1 q 2 [])).

Lemma split_world : ∃ w qi, qi.*2 = [sample_tcp; sample_ipv6] ∧ winv (split_links qi) [] w ∧ borrowed w = ∅.
Proof.
  destruct (world_with (Some 0) Z.of_nat (λ _, SpecFloat.S754_zero false) [sample_tcp; sample_ipv6])
    as (w & qi & Hw & Hq & He).
  { apply Forall_cons_2; [apply sample_tcp_wf|]. apply Forall_cons_2; [|by apply Forall_nil_2].
    apply frame_packet_wf; by_compute. }
  { done. }
  eexists _, qi. split; [done|]. split.
  - apply winv_new_link; [done|]. apply winv_new_link; [done|exact Hw].
  - simpl. by rewrite (se_borrowed _ _ He).
Qed.

Lemma split_links_input q q' : <[1%positive:=q]> (split_links q') = split_links q.
Proof.
  apply map_eq. intros l. unfold split_links, io. destruct (decide (l = 1%positive)) as [->|Hl]; [done|].
  rewrite lookup_insert_ne by done. rewrite !lookup_insert. repeat case_decide; congruence.
Qed.

(** HTTP goes out on "http", IPv6 on the default output. *)
Lemma split_routes_witness :
  ∃ w qi, qi.*2 = [sample_tcp; sample_ipv6] ∧ winv (split_links qi) [] w ∧
    wp (push (mkSplitApp [https; http]) split_sample)
      (λ _ w', ∃ ls, Forall2 (λ x l, routes split_sample 2 x.2 [https; http] l) qi ls ∧
         winv (sends (split_links []) (zip ls qi)) [] w' ∧ same_env w w') w.
Proof.
  destruct split_world as (w & qi & Hq & Hw & Hb). exists w, qi. split_and!; [done|done|].
  rewrite <-(split_links_input [] []). apply (split_routes no_panic (mkSplitApp [https; http]) split_sample 1 2 (split_links []) w qi []).
  - split.
    + rewrite Hb. split_and!; [done|done|by eexists].
    + rewrite Hb. split_and!; [done|done|done|by eexists].
    + intros f Hf. left. rewrite Hb. simpl in Hf.
      apply elem_of_cons in Hf as [->|Hf]; [|apply list_elem_of_singleton in Hf as ->].
      * exists 4%positive. by split_and!; [|done|done|eexists|].
      * exists 3%positive. by split_and!; [|done|done|eexists|].
  - by rewrite split_links_input.
Defined.

(** *** A flow labelled "default" *)

Section default_label.
Let E (e : string) : Prop := e = "already borrowed: BorrowMutError".
Context (app : SplitApp) (ports : Ports) (i d : link_id) (Q : queues) (w0 : World).
Context (Hports : split_ports E app ports i d Q w0).
Context (fs1 : list Flow) (f : Flow) (fs2 : list Flow).
Context (Hflows : flows app = fs1 ++ f :: fs2) (Hlabel : label f = "default").

(** Packet [p] is for that flow: it matches none before it. *)
Definition first_match (fs : list Flow) (f : Flow) (p : Packet) : Prop :=
  Forall (λ g, ¬ matches g p) fs ∧ matches f p.

Lemma select_default_panics p pk Q' owned w gs1 :
  winv Q' ((p, pk) :: owned) w → d ∈ borrowed w → App.output ports !! "default" = Some d →
  first_match gs1 f pk → wpx E (select_output p (gs1 ++ f :: fs2) ports d) (λ _ _, False) w.
Proof using Hlabel.
  intros Hw Hb Hd [Hno Hm]. pose proof (winv_owned _ _ _ _ _ Hw) as [_ Hwf].
  induction gs1 as [|g gs1 IH]; cbn [select_output List.app].
  - destruct (flow_match_decides pk Hwf f) as (b & Hfm & Hbm). assert (b = true) as -> by by apply Hbm.
    apply wpx_bind. eapply deref_rule; [exact Hw|]. apply wpx_bind. eapply wpx_lift; [exact Hfm|].
    unfold port. rewrite Hlabel, Hd. apply wpx_bind. eapply wpx_lift; [done|].
    apply wpx_bind. unfold borrow_mut, wpx at 1. by rewrite decide_True.
  - apply Forall_cons in Hno as [Hg Hno].
    destruct (flow_match_decides pk Hwf g) as (b & Hfm & Hbm).
    assert (b = false) as -> by (destruct b; [by exfalso; apply Hg, Hbm|done]).
    apply wpx_bind. eapply deref_rule; [exact Hw|]. apply wpx_bind. eapply wpx_lift; [exact Hfm|]. by apply IH.
Qed.

Lemma default_body_panics p pk rest owned ds w :
  splitting app ports i d Q w0 ds ((p, pk) :: rest) owned w → first_match fs1 f pk →
  wpx E (p ← link_receive i;
         borrow_mut d;;
         output ← select_output p (flows app) ports d;
         link_transmit output p;;
         release output;;
         mret app) (λ _ _, False) w.
Proof using Hflows Hlabel Hports.
  intros Hs Hm. pose proof (splitting_input _ _ _ _ _ _ _ Hports _ _ _ _ Hs) as [Hi Hins].
  destruct Hs as (Hr & Hw & He). destruct Hports as [_ (Hd & Hdi & Hdb & _) _].
  apply wpx_bind. eapply wpx_mono; [by eapply link_receive_wp|]. intros p' w1 (-> & Hw1 & He1).
  assert (same_env (set_borrowed ({[i]} ∪ borrowed w0) w0) w1) as He01 by by etrans.
  pose proof (se_borrowed _ _ He01) as Hb1. simpl in Hb1.
  apply wpx_bind. unfold borrow_mut, wpx at 1. rewrite decide_False by (rewrite Hb1; set_solver).
  apply wpx_bind. rewrite Hflows.
  eapply wpx_mono; [eapply select_default_panics; [by apply winv_set_borrowed|simpl; set_solver|done|done]|done].
Qed.

Lemma default_push_panics w1 w2 x owned :
  first_match fs1 f x.2 → winv (<[i:=w1 ++ x :: w2]> Q) owned w0 →
  wpx E (split_push app ports) (λ _ _, False) w0.
Proof using Hflows Hlabel Hports.
  intros Hm Hw. pose proof Hports as [(Hi & Hib & _) (Hd & Hdi & Hdb & _) _].
  unfold split_push, port. apply wpx_bind. rewrite Hi, Hd. cbn [unwrap]. eapply wpx_lift; [done|].
  apply wpx_bind. unfold borrow_mut at 1, wpx at 1. rewrite decide_False by done.
  apply wpx_bind. eapply wpx_lift; [done|]. apply wpx_bind.
  eapply wpx_mono; [eapply (drain_wp _ _ _ (λ rest a w', a = app ∧ ∃ ds w1, rest = w1 ++ x :: w2 ∧
    splitting app ports i d Q w0 ds rest owned w'))|].
  - intros rest a w' (_ & ds & _ & _ & Hs).
    destruct (splitting_input _ _ _ _ _ _ _ Hports _ _ _ _ Hs) as [Hl _].
    destruct Hs as (_ & Hw' & _). eauto.
  - intros p pk rest a w' (-> & ds & w1' & Hrest & Hs). destruct w1' as [|y w1']; simpl in Hrest.
    + injection Hrest as <- ->. eapply wpx_mono; [by eapply default_body_panics|done].
    + injection Hrest as _ ->. eapply wpx_mono; [by eapply split_body_wp|]. intros a w'' [-> (l & Hs')].
      split; [done|]. by exists (ds ++ [(l, (p, pk))]), w1'.
  - split; [done|]. exists [], w1. split; [done|]. split_and!; [constructor| |done]. by apply winv_set_borrowed.
  - intros a w' (_ & ds & w1' & Hrest & _). by destruct w1'.
Qed.
End default_label.

(** C35. A flow labelled "default" breaks Split, wherever it is in the list of
    flows: as soon as one of the packets on the input is for it (it matches that
    flow and none before it), [push] borrows the default output a second time
    and panics; no packet can make it return. *)
Theorem split_default_label_panics app ports i d Q w fs1 f fs2 xs x ys owned :
  split_ports (λ e, e = "already borrowed: BorrowMutError") app ports i d Q w →
  flows app = fs1 ++ f :: fs2 → label f = "default" → first_match fs1 f x.2 →
  winv (<[i := xs ++ x :: ys]> Q) owned w →
  split_push app ports w = Panic "already borrowed: BorrowMutError".
Proof.
  intros Hp Hf Hl Hm Hw.
  pose proof (default_push_panics app ports i d Q w Hp fs1 f fs2 Hf Hl xs ys x owned Hm Hw) as H.
  unfold wpx in H. destruct (split_push app ports w) as [[a w']|e| |]; [done|by rewrite H|done|done].
Qed.

(** HTTPS goes out on "https"; everything else is for the flow "default". *)
Definition default_flow : Flow := mkFlow "default" Dst 0 0 0 0.

Lemma sample_not_https : ¬ matches https sample_tcp.
Proof. intros [_ _ _ Ht _]. specialize (Ht eq_refl). vm_compute in Ht. destruct Ht as [Ht _]. by apply Ht. Qed.

Lemma split_default_label_panics_witness :
  ∃ w, split_push (mkSplitApp [https; default_flow]) split_sample w = Panic "already borrowed: BorrowMutError".
Proof.
  destruct split_world as (w & qi & Hq & Hw & Hb). exists w.
  destruct qi as [|[p pk] qi]; [done|]. injection Hq as -> Hq.
  apply (split_default_label_panics (mkSplitApp [https; default_flow]) split_sample 1 2 (split_links []) w
    [https] default_flow [] [] (p, sample_tcp) qi []); [|done|done| |by rewrite split_links_input].
  - split.
    + rewrite Hb. split_and!; [done|done|by eexists].
    + rewrite Hb. split_and!; [done|done|done|by eexists].
    + intros f Hf. left. rewrite Hb. simpl in Hf.
      apply elem_of_cons in Hf as [->|Hf]; [|apply list_elem_of_singleton in Hf as ->].
      * exists 4%positive. by split_and!; [|done|done|eexists|].
      * exists 2%positive. by split_and!; [|done|done|eexists|].
  - destruct sample_tcp_carries as (He & Hi & _). split; [apply Forall_singleton, sample_not_https|].
    split; [by split|intros H; discriminate H|intros H; discriminate H|intros H; discriminate H|intros H; discriminate H].
Defined.

(** Flow IDs keep the fields of the flow tuple apart, as documented (bits
    63..48 port, 39..32 protocol, 31..0 address), and the hash that picks a
    slot is a bijection on 64-bit words with slots inside of the profile:
    different flows share a slot only if their hashes agree in 11 bits. *)
Theorem flow_id_layout ip proto port :
  is_u32 ip → is_u8 proto → is_u16 port →
  let id := flow_id ip proto port in
  is_u64 id ∧ id / 2 ^ 48 = port ∧ (id / 2 ^ 32) mod 2 ^ 8 = proto ∧ id mod 2 ^ 32 = ip ∧
  unmix (murmurhash64_mix64 id) = id ∧ 0 ≤ flow_slot id < FLOWTOP_NSLOTS.
Proof.
  intros Hi Hp Ho id. assert (id = port * 2 ^ 48 + proto * 2 ^ 32 + ip) as E by by apply flow_id_sum.
  unfold is_u32, is_u8, is_u16 in *.
  change (2 ^ 48) with 281474976710656 in *. change (2 ^ 32) with 4294967296 in *. change (2 ^ 8) with 256.
  assert (is_u64 id) as Hid by (unfold is_u64; lia).
  split_and!; [done|Z.div_mod_to_equations; lia|Z.div_mod_to_equations; lia|Z.div_mod_to_equations; lia
    |by apply unmix_mix|by apply flow_slot_range..].
Qed.

Lemma flow_id_layout_witness :
  let id := flow_id 0x7b00a8c0 6 200 in id / 2 ^ 48 = 200 ∧ id mod 2 ^ 32 = 0x7b00a8c0.
Proof.
  intros id. destruct (flow_id_layout 0x7b00a8c0 6 200) as (_ & H1 & _ & H2 & _); [by_compute..|]. by split.
Defined.

(** C23. Top forwards all packets of its input, in order and unchanged, and
    counts each one ([counts_all]): the flow of a packet is read off its bytes
    ([in_flow]: the source or destination address, the protocol and, for TCP and
    UDP without IP options, the port; zeros for anything but IPv4); the ID is
    [2^48 * port + 2^32 * protocol + address], as documented, and its 64-bit
    MurmurHash finalizer modulo 2048 the slot.  The slot's packets go up by one,
    its bits by the size of the packet on the wire, and its ID becomes the
    flow's.  No other slot, no other profile and nothing else changes. *)
Theorem top_push_counts `{Kernel} E app ports i o Q qi qo owned slots w :
  App.input ports !! "input" = Some i → App.output ports !! "output" = Some o → i ≠ o →
  (i ∉ borrowed w) → (o ∉ borrowed w) →
  profiles w !! map app = Some slots → Z.of_nat (length slots) = FLOWTOP_NSLOTS →
  winv (io Q i qi o qo) owned w →
  wpx E (push app ports)
    (λ app' w', app' = app ∧ winv (io Q i [] o (link_txs qo qi)) owned w' ∧
       (∃ slots', counts_all (top_dir app) slots qi.*2 slots' ∧
          env w' = with_profile (map app) slots' (env w)) ∧
       borrowed w' = borrowed w) w.
Proof.
  intros Hi Ho Hio Hbi Hbo Hm Hl Hw. simpl.
  assert (Forall (λ x, wf_packet x.2) qi) as Hwf by (eapply winv_queue_wf; [exact Hw|by apply io_input]).
  eapply wpx_mono; [eapply (io_forwards _ Q i o top_body _ profile_ok (λ _, True));
    [done..|apply top_body_spec|done|by exists slots|by apply Forall_true]|].
  intros app' w' (outs & Hf & _ & Hb & Hw').
  destruct (top_forwards_profile _ _ _ _ _ _ slots Hf Hm) as (-> & -> & He). split_and!; [done|done| |done].
  eexists. split; [by apply count_packets_counts|exact He].
Qed.

(** The sample is TCP from 192.168.0.123, port 200, to 10.10.0.42, port 80. *)
Lemma sample_tcp_flow : in_flow sample_tcp Dst 0x2a000a0a 6 80.
Proof. apply (flow_dst sample_tcp); [by_compute|split; [by_compute|left; by_compute]]. Qed.

(** A profile of 2048 empty slots. *)
Definition new_profile : list FlowCtr := replicate (Z.to_nat FLOWTOP_NSLOTS) (mkFlowCtr 0 0 0).

Lemma top_push_counts_witness :
  ∃ w qi, qi.*2 = [sample_tcp; sample_ipv6] ∧ winv (io ∅ 1 qi 2 []) [] w ∧
    wp (push (App := TopApp_App (H := sample_kernel)) (mkTopApp 7 Src) sample_ports)
      (λ app' w', app' = mkTopApp 7 Src ∧ winv (io ∅ 1 [] 2 (link_txs [] qi)) [] w' ∧
         (∃ slots', counts_all Src new_profile qi.*2 slots' ∧ env w' = with_profile 7 slots' (env w)) ∧
         borrowed w' = borrowed w) w.
Proof.
  destruct (world_with (Some 0) Z.of_nat (λ _, SpecFloat.S754_zero false) [sample_tcp; sample_ipv6])
    as (w & qi & Hw & Hq & He).
  { apply Forall_cons_2; [apply sample_tcp_wf|]. apply Forall_cons_2; [|by apply Forall_nil_2].
    apply frame_packet_wf; by_compute. }
  { done. }
  exists (set_profiles {[7%positive := new_profile]} w), qi. split_and!; [done|by destruct Hw|].
  pose proof (se_borrowed _ _ He) as Hb. simpl in Hb.
  apply (top_push_counts (H := sample_kernel) no_panic (mkTopApp 7 Src) sample_ports 1 2 ∅ qi [] [] new_profile);
    [done|done|done|simpl; by rewrite Hb|simpl; by rewrite Hb|apply lookup_singleton_eq|
     unfold new_profile; by rewrite length_replicate|by destruct Hw].
Defined.
