(* ===== verification/Qos.v ===== *)
(** * qos.rs: the apps Loss and RateLimiter

    [Loss] drops packets at random; [RateLimiter] is a token bucket.  Floating
    point numbers are the IEEE 754 binary64 numbers of [SpecFloat]. *)

From Stdlib Require Import Floats.SpecFloat Sorting.Sorted.
From S2P Require Import Prelude Bytes Lib Packet App.
#[local] Open Scope Z_scope.

(** ** f64 *)

Abbreviation f64 := spec_float.
Definition f64_le (x y : f64) : bool := SFleb x y.
Definition f64_lt (x y : f64) : bool := SFltb x y.
Definition f64_mul (x y : f64) : f64 := SFmul 53 1024 x y.
(** [z as f64], rounded to the nearest. *)
Definition f64_of_Z (z : Z) : f64 := binary_normalize 53 1024 z 0 false.
Definition f64_zero : f64 := S754_zero false.
Definition f64_one : f64 := f64_of_Z 1.

(** ** Loss *)

Record Loss : Type := mkLoss { ratio : f64 }.
Record LossApp : Type := mkLossApp { app_ratio : f64 }.

Definition Loss_new (conf : Loss) : outcome LossApp :=
  assert "Ratio must be within 0.0 and 1.0" (f64_le f64_zero (ratio conf) && f64_le (ratio conf) f64_one);;
  Ok (mkLossApp (ratio conf)).

Definition loss_body (output : link_id) (app : LossApp) (p : loc) : ST World LossApp :=
  r ← gen_f64;
  (if f64_le (app_ratio app) r then link_transmit output p else on_mem (free p));;
  mret app.

Definition loss_push (app : LossApp) (ports : Ports) : ST World LossApp :=
  io_scope ports (λ input output, drain input (loss_body output) app).

#[export] Instance LossApp_App : App LossApp := {|
  has_pull _ := false;
  pull := no_pull;
  has_push _ := true;
  push := loss_push;
  has_stop _ := false;
  stop := no_stop
|}.

(** ** RateLimiter *)

Record RateLimiter : Type := mkRateLimiter { conf_rate : Z }.

Record BitrateBucket : Type := mkBucket {
  capacity : Z;
  tokens : Z;
  last_time : option Z
}.

Record RateLimiterApp : Type := mkRateLimiterApp {
  rate : Z;
  scale : Z;
  tick : Z;
  bucket : BitrateBucket
}.

Definition RateLimiter_new (conf : RateLimiter) : RateLimiterApp :=
  let scale := 1000000 in
  let tick := 100 in
  let capacity := u64 (conf_rate conf * scale) in
  let initial_tokens := u64 (conf_rate conf * scale) / (1000000 / tick) in
  mkRateLimiterApp (conf_rate conf) scale tick (mkBucket capacity initial_tokens None).

(** [(now - last_time).as_micros() as u64]: Instants are in nanoseconds, and
    their difference is never negative. *)
Definition us_between (last now : Z) : Z := u64 (Z.max 0 (now - last) / 1000).

Definition set_bucket (b : BitrateBucket) (app : RateLimiterApp) : RateLimiterApp :=
  mkRateLimiterApp (rate app) (scale app) (tick app) b.

(** Replenish bucket tokens (once every tick at most). *)
Definition replenish (app : RateLimiterApp) : ST World RateLimiterApp :=
  let b := bucket app in
  t ← now;
  match last_time b with
  | Some last =>
      let us_elapsed := us_between last t in
      if us_elapsed >=? tick app then
        t' ← now;
        mret (set_bucket (mkBucket (capacity b)
          (Z.min (u64 (tokens b + u64 (rate app * us_elapsed))) (capacity b)) (Some t')) app)
      else mret app
  | None =>
      t' ← now;
      mret (set_bucket (mkBucket (capacity b) (tokens b) (Some t')) app)
  end.

Definition rate_body (output : link_id) (app : RateLimiterApp) (p : loc) : ST World RateLimiterApp :=
  pk ← on_mem (deref p);
  let b := bucket app in
  let cost := u64 (bitlength pk * scale app) in
  if cost <=? tokens b then
    link_transmit output p;;
    mret (set_bucket (mkBucket (capacity b) (tokens b - cost) (last_time b)) app)
  else
    on_mem (free p);;
    mret app.

Definition rate_push (app : RateLimiterApp) (ports : Ports) : ST World RateLimiterApp :=
  io_scope ports (λ input output,
    app ← replenish app;
    drain input (rate_body output) app).

#[export] Instance RateLimiterApp_App : App RateLimiterApp := {|
  has_pull _ := false;
  pull := no_pull;
  has_push _ := true;
  push := rate_push;
  has_stop _ := false;
  stop := no_stop
|}.

(** ** Loss: one draw per packet decides *)

(** The environment after a draw. *)
Definition drawn (e : Env) : Env :=
  mkEnv (env_now e) (env_clock e) (env_ticks e) (env_rng e) (S (env_draws e)) (env_profiles e) (env_syscalls e).

Definition loss_transfer : transfer LossApp := λ app e x out app' e',
  app' = app ∧ e' = drawn e ∧
  out = if f64_le (app_ratio app) (env_rng e (env_draws e)) then [x] else [].

Lemma loss_body_spec E Q i o : body_spec E Q i o (loss_body o) loss_transfer (λ _ _, True) (λ _, True).
Proof.
  intros app q q' p pk owned w Hw _ _. unfold loss_body. apply wpx_bind.
  set (w1 := mkWorld (mem w) (links w) (borrowed w) (MONOTONIC_NOW w) (clock w) (ticks w) (rng w) (S (draws w)) (profiles w) (syscalls w)).
  change (wpx E ((if f64_le (app_ratio app) (rng w (draws w)) then link_transmit o p else on_mem (free p));; mret app)
    (λ app' w', ∃ out, loss_transfer app (env w) (p, pk) out app' (env w') ∧ True ∧
       borrowed w' = borrowed w ∧ winv (io Q i q o (link_txs q' out)) owned w') w1).
  assert (winv (io Q i q o q') ((p, pk) :: owned) w1) as Hw1 by (by destruct Hw).
  unfold loss_transfer. change (env_rng (env w) (env_draws (env w))) with (rng w (draws w)).
  apply wpx_bind. destruct (f64_le (app_ratio app) (rng w (draws w))).
  - eapply wpx_mono; [by eapply io_transmit|]. intros _ w2 [Hw2 He2]. apply wpx_ret.
    exists [(p, pk)]. rewrite (same_env_env _ _ He2). split_and!; [done|done|done|done|by apply (se_borrowed _ _ He2)|done].
  - eapply wpx_mono; [by eapply free_rule|]. intros _ w2 [Hw2 He2]. apply wpx_ret.
    exists []. rewrite (same_env_env _ _ He2). split_and!; [done|done|done|done|by apply (se_borrowed _ _ He2)|done].
Qed.

(** The packets that survive, given the draws from [n] on. *)
Fixpoint survivors (ratio : f64) (rng : nat → f64) (n : nat) (xs : queue) : queue :=
  match xs with
  | [] => []
  | x :: xs => (if f64_le ratio (rng n) then [x] else []) ++ survivors ratio rng (S n) xs
  end.

Lemma loss_forwards a e xs outs a' e' :
  forwards loss_transfer a e xs outs a' e' →
  a' = a ∧ outs = survivors (app_ratio a) (env_rng e) (env_draws e) xs ∧
  e' = mkEnv (env_now e) (env_clock e) (env_ticks e) (env_rng e) (env_draws e + length xs) (env_profiles e) (env_syscalls e).
Proof.
  induction 1 as [a e|a e x out a2 e2 xs outs a3 e3 (-> & -> & ->) _ (-> & -> & ->)]; simpl.
  - split_and!; [done|done|]. rewrite Nat.add_0_r. by destruct e.
  - split_and!; [done|done|]. by rewrite <-Nat.add_succ_comm.
Qed.

(** C16. Loss draws one random number per packet of its input and forwards the
    packet exactly when the draw is at least the ratio, in order; all others go
    back to the freelist.  With draws in [0, 1) a ratio of 0 loses nothing and
    a ratio of 1 everything. *)
Theorem loss_push_spec E app ports i o Q qi qo owned w :
  input ports !! "input" = Some i → output ports !! "output" = Some o → i ≠ o →
  (i ∉ borrowed w) → (o ∉ borrowed w) → winv (io Q i qi o qo) owned w →
  (∀ n, f64_le f64_zero (rng w n) = true ∧ f64_le f64_one (rng w n) = false) →
  wpx E (push app ports)
    (λ app' w', let out := survivors (app_ratio app) (rng w) (draws w) qi in
       app' = app ∧ winv (io Q i [] o (link_txs qo out)) owned w' ∧
       draws w' = (draws w + length qi)%nat ∧ borrowed w' = borrowed w ∧
       (app_ratio app = f64_zero → out = qi) ∧ (app_ratio app = f64_one → out = [])) w.
Proof.
  intros Hi Ho Hio Hbi Hbo Hw Hr. simpl.
  eapply wpx_mono; [eapply (io_forwards _ Q i o loss_body _ (λ _ _, True) (λ _, True));
    [done..|apply loss_body_spec|done|done|by apply Forall_true]|].
  intros app' w' (outs & Hf & _ & Hb & Hw').
  destruct (loss_forwards _ _ _ _ _ _ Hf) as (-> & -> & He).
  split_and!; [done|done|by injection He|done| |].
  - intros ->. clear -Hr. generalize (draws w). induction qi as [|x xs IH]; intros n; [done|].
    simpl. destruct (Hr n) as [-> _]. simpl. f_equal. apply IH.
  - intros ->. clear -Hr. generalize (draws w). induction qi as [|x xs IH]; intros n; [done|].
    simpl. destruct (Hr n) as [_ ->]. simpl. apply IH.
Qed.

(** ** RateLimiter: the token bucket *)

Definition cost (x : loc * Packet) : Z := u64 (bitlength x.2 * 1000000).

Lemma bitlength_bound p : wf_packet p → 672 ≤ bitlength p ≤ 524472.
Proof. intros (Hu & _). unfold bitlength, is_u16 in *. lia. Qed.

Lemma cost_eq p pk : wf_packet pk → cost (p, pk) = bitlength pk * 1000000.
Proof.
  intros Hwf. pose proof (bitlength_bound _ Hwf). unfold cost. apply u64_id. unfold is_u64. simpl. lia.
Qed.

(** The specification: what is let through, and the tokens left. *)
Fixpoint conforming (tokens : Z) (xs : queue) : queue * Z :=
  match xs with
  | [] => ([], tokens)
  | x :: xs =>
      if decide (cost x ≤ tokens)
      then let '(out, tokens') := conforming (tokens - cost x) xs in (x :: out, tokens')
      else conforming tokens xs
  end.

Definition with_tokens (n : Z) (app : RateLimiterApp) : RateLimiterApp :=
  set_bucket (mkBucket (capacity (bucket app)) n (last_time (bucket app))) app.

Definition rate_transfer : transfer RateLimiterApp := λ app e x out app' e',
  e' = e ∧
  if decide (cost x ≤ tokens (bucket app))
  then out = [x] ∧ app' = with_tokens (tokens (bucket app) - cost x) app
  else out = [] ∧ app' = app.

Lemma rate_body_spec E Q i o :
  body_spec E Q i o (rate_body o) rate_transfer (λ app _, scale app = 1000000) (λ _, True).
Proof.
  intros app q q' p pk owned w Hw Hs _. unfold rate_body. apply wpx_bind.
  eapply deref_rule; [exact Hw|]. rewrite Hs. fold (cost (p, pk)).
  change (u64 (bitlength pk * 1000000)) with (cost (p, pk)). unfold rate_transfer.
  destruct (Z.leb_spec (cost (p, pk)) (tokens (bucket app))).
  - apply wpx_bind. eapply wpx_mono; [by eapply io_transmit|]. intros _ w2 [Hw2 He2]. apply wpx_ret.
    exists [(p, pk)]. rewrite (same_env_env _ _ He2), decide_True by done.
    split_and!; [done|done|done|done|by apply (se_borrowed _ _ He2)|done].
  - apply wpx_bind. eapply wpx_mono; [by eapply free_rule|]. intros _ w2 [Hw2 He2]. apply wpx_ret.
    exists []. rewrite (same_env_env _ _ He2), decide_False by lia.
    split_and!; [done|done|done|done|by apply (se_borrowed _ _ He2)|done].
Qed.

Lemma rate_forwards a e xs outs a' e' :
  forwards rate_transfer a e xs outs a' e' →
  e' = e ∧ outs = (conforming (tokens (bucket a)) xs).1 ∧
  a' = with_tokens (conforming (tokens (bucket a)) xs).2 a.
Proof.
  induction 1 as [a e|a e x out a2 e2 xs outs a3 e3 (-> & Hx) _ (-> & -> & ->)]; simpl.
  - split_and!; [done|done|]. by destruct a as [? ? ? []].
  - destruct (decide (cost x ≤ tokens (bucket a))); destruct Hx as [-> ->]; [|done].
    simpl. destruct (conforming _ xs) as [o t]. done.
Qed.

(** The bucket after the replenishment at time [t]. *)
Definition refill (app : RateLimiterApp) (t : Z) : RateLimiterApp :=
  let b := bucket app in
  match last_time b with
  | None => set_bucket (mkBucket (capacity b) (tokens b) (Some t)) app
  | Some last =>
      if decide (tick app ≤ us_between last t)
      then set_bucket (mkBucket (capacity b)
             (Z.min (u64 (tokens b + u64 (rate app * us_between last t))) (capacity b)) (Some t)) app
      else app
  end.

Lemma replenish_eq app w t : MONOTONIC_NOW w = Some t → replenish app w = Ok (refill app t, w).
Proof.
  intros Ht. assert (now w = Ok (t, w)) as Hn by (unfold now, mbind, st_bind, get; by rewrite Ht).
  unfold replenish, refill, mbind, st_bind. rewrite Hn. destruct (last_time (bucket app)) as [last|].
  - rewrite Z.geb_leb. destruct (Z.leb_spec (tick app) (us_between last t)).
    + rewrite Hn, decide_True by done. done.
    + by rewrite decide_False by lia.
  - by rewrite Hn.
Qed.

Lemma refill_scale app t : scale (refill app t) = scale app.
Proof. unfold refill. destruct (last_time _); [case_decide|]; done. Qed.

Lemma rate_push_wp E app ports i o Q qi qo owned w t :
  input ports !! "input" = Some i → output ports !! "output" = Some o → i ≠ o →
  (i ∉ borrowed w) → (o ∉ borrowed w) → winv (io Q i qi o qo) owned w →
  MONOTONIC_NOW w = Some t → scale app = 1000000 →
  wpx E (rate_push app ports)
    (λ app' w', let '(out, tok) := conforming (tokens (bucket (refill app t))) qi in
       app' = with_tokens tok (refill app t) ∧
       winv (io Q i [] o (link_txs qo out)) owned w' ∧ same_env w w') w.
Proof.
  intros Hi Ho Hio Hbi Hbo Hw Ht Hs. unfold rate_push. eapply io_scope_wp; [done..|]. intros w1 ->.
  apply wpx_bind. unfold wpx at 1. rewrite (replenish_eq _ _ t) by done.
  eapply wpx_mono; [eapply (drain_forwards _ Q i o Hio (rate_body o) _ _ (λ _, True)); 
    [apply rate_body_spec|by apply winv_set_borrowed|cbv beta; by rewrite refill_scale|by apply Forall_true]|].
  intros app' w2 (outs & Hf & _ & Hb & Hw2). split; [done|].
  apply rate_forwards in Hf as (He & -> & ->).
  destruct (conforming (tokens (bucket (refill app t))) qi) as [out tok].
  split_and!; [done|by apply winv_set_borrowed|]. apply same_env_intro; [exact He|done].
Qed.

(** ** The rate limit over time *)

Definition bits (q : queue) : Z := foldr (λ x n, bitlength x.2 + n) 0 q.

Lemma bits_take n q : Forall (λ x, wf_packet x.2) q → bits (take n q) ≤ bits q.
Proof.
  revert n. induction q as [|x q IH]; intros n Hf; [by destruct n|].
  apply Forall_cons in Hf as [Hx Hf]. pose proof (bitlength_bound _ Hx).
  destruct n as [|n]; simpl; [|specialize (IH n Hf); lia].
  specialize (IH 0%nat Hf). rewrite take_0 in IH. simpl in IH. lia.
Qed.

Lemma conforming_spec xs : ∀ tokens,
  Forall (λ x, wf_packet x.2) xs → 0 ≤ tokens →
  let '(out, left_over) := conforming tokens xs in
  0 ≤ left_over ∧ left_over + 1000000 * bits out = tokens ∧ Forall (λ x, wf_packet x.2) out.
Proof.
  induction xs as [|[p pk] xs IH]; intros tokens Hf Ht; simpl; [split_and!; [done|lia|constructor]|].
  apply Forall_cons in Hf as [Hx Hf]. simpl in Hx. destruct (decide _) as [Hd|Hd].
  - specialize (IH (tokens - cost (p, pk)) Hf ltac:(lia)).
    destruct (conforming _ xs) as [out k]. destruct IH as (? & ? & ?). simpl.
    rewrite (cost_eq _ _ Hx) in *. split_and!; [done|lia|by constructor].
  - by apply IH.
Qed.

(** An execution of the app: pushes at the given times, each with the bits that
    it put on the (empty) output link. *)
Inductive rate_trace (ports : Ports) (i o : link_id) : RateLimiterApp → list (Z * Z) → RateLimiterApp → Prop :=
  | rate_trace_nil app : rate_trace ports i o app [] app
  | rate_trace_push app w t Q qi owned app1 w1 qo steps app2 :
      (i ∉ borrowed w) → (o ∉ borrowed w) → MONOTONIC_NOW w = Some t →
      winv (io Q i qi o []) owned w →
      push app ports w = Ok (app1, w1) →
      winv (io Q i [] o qo) owned w1 →
      rate_trace ports i o app1 steps app2 →
      rate_trace ports i o app ((t, bits qo) :: steps) app2.

(** The time of the last push. *)
Fixpoint end_time (t : Z) (steps : list (Z * Z)) : Z :=
  match steps with
  | [] => t
  | (t', _) :: steps => end_time t' steps
  end.

Section conformance.
Context (conf : RateLimiter) (Hrate : 0 ≤ conf_rate conf ≤ 10000000000).
Let r := conf_rate conf.

(** Tokens and bits sent so far, accounted for at the last replenishment; [t] is
    the time of the last push, [t0] of the first. *)
Record accounted (t0 t total : Z) (app : RateLimiterApp) : Prop := {
  ac_static : rate app = r ∧ scale app = 1000000 ∧ tick app = 100 ∧ capacity (bucket app) = r * 1000000;
  ac_tokens : 0 ≤ tokens (bucket app) ≤ r * 1000000;
  ac_last : ∃ last, last_time (bucket app) = Some last ∧ last ≤ t < last + 100000 ∧
    1000 * (1000000 * total + tokens (bucket app)) ≤ r * 100000 + r * (last - t0);
}.

(** Between two breaths: at most 1000 seconds. *)
Definition later (t t' : Z) : Prop := t ≤ t' ≤ t + 1000000000000.

Lemma accounted_refill t0 t t' total app :
  accounted t0 t total app → later t t' → accounted t0 t' total (refill app t').
Proof.
  intros [(Hr & Hs & Ht & Hc) Htok (last & Hlast & Hl & Hacc)] [Hle Hgap].
  unfold refill. rewrite Hlast, Ht. unfold us_between. rewrite Z.max_r by lia.
  assert (0 ≤ (t' - last) / 1000 ≤ 1000000100) as Hus by (Z.div_mod_to_equations; lia).
  rewrite u64_id by (unfold is_u64; lia).
  destruct (decide _) as [Hd|Hd].
  - rewrite Hr, Hc. fold r in Hrate.
    assert (0 ≤ r * ((t' - last) / 1000) ≤ 10000000000 * 1000000100) as Hprod.
    { split; [apply Z.mul_nonneg_nonneg; lia|]. apply Z.mul_le_mono_nonneg; lia. }
    rewrite (u64_id (r * _)) by (unfold is_u64; lia).
    rewrite u64_id by (unfold is_u64; lia).
    split; simpl; [by rewrite ?Hr|lia|]. exists t'. split_and!; [done|lia|lia|].
    assert (1000 * (r * ((t' - last) / 1000)) ≤ r * (t' - last)).
    { replace (1000 * (r * ((t' - last) / 1000))) with (r * (1000 * ((t' - last) / 1000))) by lia.
      apply Z.mul_le_mono_nonneg_l; [lia|]. Z.div_mod_to_equations; lia. }
    lia.
  - split; [by split_and!|done|]. exists last. split_and!; [done|lia| |done].
    Z.div_mod_to_equations. lia.
Qed.

Lemma accounted_first t :
  accounted t t 0 (refill (RateLimiter_new conf) t).
Proof.
  unfold RateLimiter_new, refill. simpl. fold r. fold r in Hrate.
  rewrite u64_id by (unfold is_u64; lia).
  split; simpl; [done| |].
  - change (1000000 / (1000000 / 100)) with 100. change (1000000 / 100) with 10000.
    Z.div_mod_to_equations; lia.
  - exists t. split_and!; [done|lia|lia|]. change (1000000 / 100) with 10000.
    Z.div_mod_to_equations; lia.
Qed.

Lemma accounted_spend t0 t total app qi qo out k :
  accounted t0 t total app → Forall (λ x, wf_packet x.2) qi →
  conforming (tokens (bucket app)) qi = (out, k) → bits qo ≤ bits out →
  accounted t0 t (total + bits qo) (with_tokens k app).
Proof.
  intros [Hst Htok (last & Hlast & Hl & Hacc)] Hwf Hc Hb.
  pose proof (conforming_spec qi _ Hwf (proj1 Htok)) as Hspec. rewrite Hc in Hspec.
  destruct Hspec as (Hk & Heq & Hout).
  assert (0 ≤ bits out) as H0.
  { pose proof (bits_take 0 out Hout) as H. rewrite take_0 in H. exact H. }
  split; simpl; [exact Hst|lia|]. exists last. split_and!; [done|lia|lia|lia].
Qed.

Section trace.
Context (ports : Ports) (i o : link_id).
Context (Hi : input ports !! "input" = Some i) (Ho : output ports !! "output" = Some o) (Hio : i ≠ o).

(** One push, from a state that is accounted for once refilled. *)
Lemma accounted_push t0 t total app w Q qi owned app1 w1 qo :
  accounted t0 t total (refill app t) → scale app = 1000000 →
  (i ∉ borrowed w) → (o ∉ borrowed w) → MONOTONIC_NOW w = Some t →
  winv (io Q i qi o []) owned w → push app ports w = Ok (app1, w1) →
  winv (io Q i [] o qo) owned w1 → accounted t0 t (total + bits qo) app1.
Proof.
  intros Hacc Hs Hbi Hbo Ht Hw Hpush Hw1.
  pose proof (rate_push_wp no_panic app ports i o Q qi [] owned w t Hi Ho Hio Hbi Hbo Hw Ht Hs) as Hwp.
  unfold wpx in Hwp. simpl in Hpush. rewrite Hpush in Hwp.
  destruct (conforming (tokens (bucket (refill app t))) qi) as [out k] eqn:Hc.
  destruct Hwp as (-> & Hw2 & _).
  pose proof (winv_inj _ _ _ _ _ o _ _ Hw1 Hw2 (io_output _ _ _ _ _) (io_output _ _ _ _ _)) as ->.
  assert (Forall (λ x, wf_packet x.2) qi) as Hwf by (eapply winv_queue_wf; [exact Hw|by apply io_input]).
  eapply accounted_spend; [done|exact Hwf|done|].
  rewrite link_txs_take by done. simpl. apply bits_take.
  pose proof (conforming_spec qi _ Hwf (proj1 (ac_tokens _ _ _ _ Hacc))) as Hspec.
  rewrite Hc in Hspec. by destruct Hspec as (_ & _ & ?).
Qed.

Lemma trace_accounted app steps app' : rate_trace ports i o app steps app' →
  ∀ t0 t total, accounted t0 t total app → Sorted later (t :: steps.*1) →
  accounted t0 (end_time t steps) (total + foldr Z.add 0 steps.*2) app'.
Proof.
  induction 1 as [app|app w t' Q qi owned app1 w1 qo steps app2 Hbi Hbo Ht Hw Hpush Hw1 Htr IH];
    intros t0 t total Hacc Hsort; simpl.
  { by rewrite Z.add_0_r. }
  apply Sorted_inv in Hsort as [Hsort Hhd]. apply HdRel_inv in Hhd.
  rewrite Z.add_assoc. apply IH; [|done].
  eapply accounted_push; [by eapply accounted_refill| |done..].
  by apply (ac_static _ _ _ _ Hacc).
Qed.
End trace.
End conformance.

(** C13. The rate limit: however packets arrive, all the bits that the app puts
    on its output (with 10GbE overhead) from the first push at [t0] to the last
    one at [tn] (in nanoseconds) are at most [rate] times the elapsed time plus
    the initial 100 microseconds:
    bits <= rate * ((tn - t0) + 100us) / 1s.  For rates up to 10 Gbps, and at
    most 1000 seconds between two pushes, no arithmetic overflows. *)
Theorem rate_limit_conforms conf ports i o t0 b0 steps app :
  0 ≤ conf_rate conf ≤ 10000000000 →
  input ports !! "input" = Some i → output ports !! "output" = Some o → i ≠ o →
  rate_trace ports i o (RateLimiter_new conf) ((t0, b0) :: steps) app →
  Sorted later (t0 :: steps.*1) →
  let tn := end_time t0 steps in
  1000000000 * (b0 + foldr Z.add 0 steps.*2) ≤ conf_rate conf * (tn - t0 + 100000).
Proof.
  intros Hr Hi Ho Hio Htr Hsort tn.
  inversion Htr as [|? w t Q qi owned app1 w1 qo ? ? Hbi Hbo Ht Hw Hpush Hw1 Htr']; subst.
  assert (accounted conf t0 t0 (bits qo) app1) as Hacc.
  { apply (accounted_push conf ports i o Hi Ho Hio t0 t0 0 (RateLimiter_new conf) w Q qi owned app1 w1 qo);
      try done. by apply accounted_first. }
  pose proof (trace_accounted conf Hr ports i o Hi Ho Hio _ _ _ Htr' t0 t0 _ Hacc Hsort) as [_ Htok (last & _ & Hl & Hfin)].
  fold tn in Hl, Hfin.
  assert (conf_rate conf * (last - t0) ≤ conf_rate conf * (tn - t0)) by (apply Z.mul_le_mono_nonneg_l; lia).
  lia.
Qed.

Definition io_ports : Ports := mkPorts {["input" := 1%positive]} {["output" := 2%positive]}.

(** A frame of 60 bytes. *)
Definition sample_60 : Packet := frame_packet (replicate 60 8).

Lemma sample_60_wf : wf_packet sample_60.
Proof. apply frame_packet_wf; by_compute. Qed.

(** Two packets on the input, at time [t]. *)
Lemma sample_world t r :
  ∃ w q, winv (io ∅ 1 q 2 []) [] w ∧ q.*2 = [sample_60; sample_60] ∧
         borrowed w = ∅ ∧ MONOTONIC_NOW w = Some t ∧ rng w = r.
Proof.
  destruct (world_with (Some t) Z.of_nat r [sample_60; sample_60]) as (w & q & Hw & Hq & []).
  { repeat (apply Forall_cons_2; [apply sample_60_wf|]). apply Forall_nil_2. }
  { done. }
  by exists w, q.
Qed.

Lemma loss_push_spec_witness :
  ∃ w qi, winv (io ∅ 1 qi 2 []) [] w ∧ qi.*2 = [sample_60; sample_60] ∧
    wp (push (mkLossApp f64_zero) io_ports)
      (λ app' w', let out := survivors f64_zero (rng w) (draws w) qi in
         app' = mkLossApp f64_zero ∧ winv (io ∅ 1 [] 2 (link_txs [] out)) [] w' ∧
         draws w' = (draws w + length qi)%nat ∧ borrowed w' = borrowed w ∧
         (f64_zero = f64_zero → out = qi) ∧ (f64_zero = f64_one → out = [])) w.
Proof.
  destruct (sample_world 0 (λ _, SFdiv 53 1024 f64_one (f64_of_Z 2))) as (w & q & Hw & Hq & Hb & _ & Hr).
  exists w, q. split_and!; [done|done|].
  apply (loss_push_spec no_panic (mkLossApp f64_zero) io_ports 1 2 ∅ q [] [] w);
    [done|done|done|by rewrite Hb|by rewrite Hb|done|].
  intros n. rewrite Hr. split; vm_compute; reflexivity.
Defined.

Lemma rate_limit_conforms_witness :
  ∃ b app, rate_trace io_ports 1 2 (RateLimiter_new (mkRateLimiter 10000000)) [(0, b)] app ∧
    1000000000 * (b + 0) ≤ 10000000 * (0 - 0 + 100000).
Proof.
  set (conf := mkRateLimiter 10000000).
  destruct (sample_world 0 (λ _, f64_zero)) as (w & q & Hw & _ & Hb & Ht & _).
  pose proof (rate_push_wp no_panic (RateLimiter_new conf) io_ports 1 2 ∅ q [] [] w 0 eq_refl eq_refl
    ltac:(done) ltac:(by rewrite Hb) ltac:(by rewrite Hb) Hw Ht eq_refl) as H.
  destruct (wp_returns _ _ _ H) as (app & w' & Hpush & Hq).
  destruct (conforming _ q) as [out k]. destruct Hq as (_ & Hw' & _).
  exists (bits (link_txs [] out)), app.
  assert (rate_trace io_ports 1 2 (RateLimiter_new conf) [(0, bits (link_txs [] out))] app) as Htr.
  { eapply (rate_trace_push io_ports 1 2 (RateLimiter_new conf) w 0 ∅ q []);
      [by rewrite Hb|by rewrite Hb|done|done|exact Hpush|exact Hw'|constructor]. }
  split; [exact Htr|].
  exact (rate_limit_conforms conf io_ports 1 2 0 _ [] app ltac:(simpl; lia) eq_refl eq_refl ltac:(done)
    Htr ltac:(repeat constructor)).
Defined.

(** One push of the rate limiter, in full: the tokens are those of the
    bucket after the replenishment for the time elapsed, and each packet in
    turn is forwarded if its cost (its bits on the wire times the scale) is
    within the tokens left, which it uses up, and dropped otherwise. *)
Theorem rate_push_spec E app ports i o Q qi qo owned w t :
  input ports !! "input" = Some i → output ports !! "output" = Some o → i ≠ o →
  (i ∉ borrowed w) → (o ∉ borrowed w) → winv (io Q i qi o qo) owned w →
  MONOTONIC_NOW w = Some t → scale app = 1000000 →
  wpx E (push app ports)
    (λ app' w', let '(out, tok) := conforming (tokens (bucket (refill app t))) qi in
       app' = with_tokens tok (refill app t) ∧
       winv (io Q i [] o (link_txs qo out)) owned w' ∧ same_env w w') w.
Proof. apply rate_push_wp. Qed.

Lemma rate_push_spec_witness :
  ∃ w q, q.*2 = [sample_60; sample_60] ∧
    wp (push (RateLimiter_new (mkRateLimiter 10000000)) io_ports)
      (λ app' w', let app := refill (RateLimiter_new (mkRateLimiter 10000000)) 0 in
         let '(out, tok) := conforming (tokens (bucket app)) q in
         app' = with_tokens tok app ∧ winv (io ∅ 1 [] 2 (link_txs [] out)) [] w' ∧ same_env w w') w.
Proof.
  destruct (sample_world 0 (λ _, f64_zero)) as (w & q & Hw & Hq & Hb & Ht & _).
  exists w, q. split; [exact Hq|].
  apply (rate_push_spec no_panic _ io_ports 1 2 ∅ q [] [] w 0);
    [done|done|done|by rewrite Hb|by rewrite Hb|done|done|done].
Defined.
