(* ===== verification/DelayQueue.v ===== *)
(** * qos.rs: the delay queue and the apps Latency and Jitter

    Both apps put packets in a queue in which an entry [Delay ttx] holds back
    the packets behind it until the time [ttx]. *)

From Stdlib Require Import Floats.SpecFloat Sorting.Sorted.
From stdpp Require Import sorting.
From S2P Require Import Prelude Bytes Lib Packet App Qos.
From S2P Require Link.
#[local] Open Scope Z_scope.

Inductive DelayedPacket : Type :=
  | Delay (ttx : Z)
  | Pkt (p : loc).

(** [VecDeque]: its front is the head of the list. *)
Record DelayQueue : Type := mkDelayQueue {
  packets : list DelayedPacket;
  capacity : Z
}.

Definition new (capacity : Z) : DelayQueue := mkDelayQueue [] capacity.
Definition full (q : DelayQueue) : bool := Z.of_nat (length (packets q)) >=? capacity q.
Definition empty (q : DelayQueue) : bool := match packets q with [] => true | _ => false end.

Definition peek (q : DelayQueue) : outcome DelayedPacket :=
  match packets q with
  | entry :: _ => Ok entry
  | [] => Panic "Queue underflow."
  end.

Definition push_back (entry : DelayedPacket) (q : DelayQueue) : outcome DelayQueue :=
  if full q then Panic "Queue overflow."
  else Ok (mkDelayQueue (packets q ++ [entry]) (capacity q)).
Definition enqueue_delay (ttx : Z) : DelayQueue → outcome DelayQueue := push_back (Delay ttx).
Definition enqueue_packet (p : loc) : DelayQueue → outcome DelayQueue := push_back (Pkt p).

Definition pop_front (q : DelayQueue) : DelayQueue := mkDelayQueue (tail (packets q)) (capacity q).

Definition need_tx (q : DelayQueue) : ST World (bool * DelayQueue) :=
  entry ← lift (peek q);
  match entry with
  | Pkt _ => mret (true, q)
  | Delay ttx =>
      t ← now;
      if t >=? ttx then mret (true, pop_front q) else mret (false, q)
  end.

Definition dequeue_packet (q : DelayQueue) : outcome (loc * DelayQueue) :=
  match packets q with
  | Pkt p :: _ => Ok (p, pop_front q)
  | Delay _ :: _ => Panic "Expected packet."
  | [] => Panic "Queue underflow."
  end.

(** impl Drop for DelayQueue: while !self.empty() *)
Fixpoint drop_loop (fuel : nat) (q : DelayQueue) : ST World DelayQueue :=
  if empty q then mret q
  else
    match fuel with
    | O => no_fuel
    | S fuel =>
        entry ← lift (peek q);
        match entry with
        | Pkt _ =>
            '(p, q) ← lift (dequeue_packet q);
            on_mem (free p);;
            drop_loop fuel q
        | Delay _ => drop_loop fuel (pop_front q)
        end
    end.
Definition drop (q : DelayQueue) : ST World DelayQueue := drop_loop (length (packets q)) q.

(** pull of both apps: while !queue.empty() && queue.need_tx() *)
Fixpoint forward_due (fuel : nat) (output : link_id) (q : DelayQueue) : ST World DelayQueue :=
  if empty q then mret q
  else
    '(b, q) ← need_tx q;
    if (b : bool) then
      match fuel with
      | O => no_fuel
      | S fuel =>
          '(p, q) ← lift (dequeue_packet q);
          link_transmit output p;;
          forward_due fuel output q
      end
    else mret q.

Definition pull_queue (ports : Ports) (q : DelayQueue) : ST World DelayQueue :=
  output ← port "output" (output ports);
  borrow_mut output;;
  q ← forward_due (length (packets q)) output q;
  release output;;
  mret q.

(** ** Latency *)

Record Latency : Type := mkLatency { conf_ms : Z; conf_capacity : Z }.
Record LatencyApp : Type := mkLatencyApp { ms : Z; lat_queue : DelayQueue }.

Definition Latency_new (conf : Latency) : LatencyApp :=
  mkLatencyApp (conf_ms conf) (new (conf_capacity conf)).

(** while !link::empty(&input) && !queue.full() *)
Definition enqueue_batch (input : link_id) (q : DelayQueue) : ST World DelayQueue :=
  while_st (Z.to_nat Link.LINK_MAX_PACKETS)
    (λ q, b ← link_empty input; mret (negb b && negb (full q)))
    (λ q, p ← link_receive input; lift (enqueue_packet p q)) q.

Definition latency_push (app : LatencyApp) (ports : Ports) : ST World LatencyApp :=
  input ← port "input" (input ports);
  borrow_mut input;;
  let queue := lat_queue app in
  b ← link_empty input;
  queue ← (if negb b && negb (full queue) then
             t ← now;
             ttx ← lift (instant_add t (ms app * 1000000));
             lift (enqueue_delay ttx queue)
           else mret queue);
  queue ← enqueue_batch input queue;
  release input;;
  mret (mkLatencyApp (ms app) queue).

Definition latency_pull (app : LatencyApp) (ports : Ports) : ST World LatencyApp :=
  queue ← pull_queue ports (lat_queue app);
  mret (mkLatencyApp (ms app) queue).

#[export] Instance LatencyApp_App : App LatencyApp := {|
  has_pull _ := true;
  pull := latency_pull;
  has_push _ := true;
  push := latency_push;
  has_stop _ := false;
  stop := no_stop
|}.

(** ** Jitter *)

Record Jitter : Type := mkJitter {
  jit_ms : Z; conf_strength : f64; conf_reorder : bool; jit_capacity : Z
}.
Record JitterApp : Type := mkJitterApp {
  us : f64; strength : f64; reorder : bool; jit_queue : DelayQueue
}.

Definition Jitter_new (conf : Jitter) : JitterApp :=
  mkJitterApp (f64_mul (f64_of_Z (jit_ms conf)) (f64_of_Z 1000)) (conf_strength conf)
    (conf_reorder conf) (new (jit_capacity conf)).

(** [x as u64]: truncated, saturating; NaN gives 0. *)
Definition f64_as_u64 (x : f64) : Z :=
  match x with
  | S754_zero _ | S754_nan => 0
  | S754_infinity s => if s then 0 else 18446744073709551615
  | S754_finite s m e =>
      if s then 0 else Z.min 18446744073709551615 (Z.shiftl (Zpos m) e)
  end.

Definition set_jit_queue (q : DelayQueue) (app : JitterApp) : JitterApp :=
  mkJitterApp (us app) (strength app) (reorder app) q.

(** One round of the loop: draw, and delay, forward or enqueue a packet. *)
Definition jitter_round (input output : link_id) (app : JitterApp) : ST World JitterApp :=
  r ← gen_f64;
  let add_jitter := f64_lt r (strength app) in
  app ← (if add_jitter then
           r ← gen_f64;
           let jitter := f64_as_u64 (f64_mul (us app) r) in
           t ← now;
           ttx ← lift (instant_add t (jitter * 1000));
           q ← lift (enqueue_delay ttx (jit_queue app));
           mret (set_jit_queue q app)
         else mret app);
  if negb add_jitter && reorder app then
    p ← link_receive input;
    link_transmit output p;;
    mret app
  else if negb (full (jit_queue app)) then
    p ← link_receive input;
    q ← lift (enqueue_packet p (jit_queue app));
    mret (set_jit_queue q app)
  else mret app.

(** Every round but the one that fills the queue takes a packet. *)
Definition jitter_push (app : JitterApp) (ports : Ports) : ST World JitterApp :=
  io_scope ports (λ input output,
    while_st (Z.to_nat Link.LINK_MAX_PACKETS)
      (λ app, b ← link_empty input; mret (negb b && negb (full (jit_queue app))))
      (jitter_round input output) app).

Definition jitter_pull (app : JitterApp) (ports : Ports) : ST World JitterApp :=
  queue ← pull_queue ports (jit_queue app);
  mret (set_jit_queue queue app).

#[export] Instance JitterApp_App : App JitterApp := {|
  has_pull _ := true;
  pull := jitter_pull;
  has_push _ := true;
  push := jitter_push;
  has_stop _ := false;
  stop := no_stop
|}.

(** ** The packets in a queue *)

Abbreviation entries := (list DelayedPacket).

Fixpoint pkts (es : entries) : list loc :=
  match es with
  | [] => []
  | Pkt p :: es => p :: pkts es
  | Delay _ :: es => pkts es
  end.

Lemma pkts_app es es' : pkts (es ++ es') = pkts es ++ pkts es'.
Proof. induction es as [|[] es IH]; simpl; [done|done|by rewrite IH]. Qed.

Lemma pkts_pkt ps : pkts (Pkt <$> ps) = ps.
Proof. induction ps as [|p ps IH]; [done|]. rewrite fmap_cons. simpl. by rewrite IH. Qed.

(** The specification of pull at time [t]: the packets released, and what is
    left; a delay that is due is taken off together with the packet behind it. *)
Fixpoint released (t : Z) (es : entries) : outcome (list loc * entries) :=
  match es with
  | [] => Ok ([], [])
  | Pkt p :: es => '(ps, rest) ← released t es; Ok (p :: ps, rest)
  | Delay ttx :: es =>
      if decide (ttx ≤ t) then
        match es with
        | [] => Panic "Queue underflow."
        | Delay _ :: _ => Panic "Expected packet."
        | Pkt p :: es => '(ps, rest) ← released t es; Ok (p :: ps, rest)
        end
      else Ok ([], Delay ttx :: es)
  end.

(** Every delay has a packet behind it. *)
Fixpoint wf_entries (es : entries) : Prop :=
  match es with
  | [] => True
  | Pkt _ :: es => wf_entries es
  | Delay _ :: Pkt _ :: es => wf_entries es
  | Delay _ :: _ => False
  end.

Lemma now_rule E t w (Φ : Z → World → Prop) :
  MONOTONIC_NOW w = Some t → Φ t w → wpx E now Φ w.
Proof. intros Ht HΦ. unfold now. apply wpx_bind, wpx_get. rewrite Ht. by apply wpx_ret. Qed.

Section pull.
Context (Q : queues) (o : link_id) (cap t : Z).

(** A packet at the front, in the world where link [o] holds [q]. *)
Lemma transmit_held E p es held q owned w (k : ST World DelayQueue) (Φ : DelayQueue → World → Prop) :
  pkts (Pkt p :: es) = held.*1 → winv (<[o:=q]> Q) (held ++ owned) w →
  (∀ x held' w', held = x :: held' → x.1 = p → pkts es = held'.*1 →
     winv (<[o:=link_tx q x]> Q) (held' ++ owned) w' → same_env w w' → wpx E k Φ w') →
  wpx E (link_transmit o p;; k) Φ w.
Proof.
  intros Hh Hw Hk. destruct held as [|[p' pk] held']; [done|]. simpl in Hh. injection Hh as -> Hh.
  apply wpx_bind. eapply wpx_mono; [eapply link_transmit_wp; [exact Hw|apply lookup_insert_eq]|].
  intros _ w' [Hw' He]. rewrite insert_insert_eq in Hw'. by eapply Hk.
Qed.

Lemma forward_due_wp fuel : ∀ es held q owned w,
  (length es ≤ fuel)%nat → pkts es = held.*1 → winv (<[o:=q]> Q) (held ++ owned) w →
  MONOTONIC_NOW w = Some t →
  wpx (λ e, released t es = Panic e) (forward_due fuel o (mkDelayQueue es cap))
    (λ q' w', ∃ rel held' es', released t es = Ok (rel.*1, es') ∧ q' = mkDelayQueue es' cap ∧
       held = rel ++ held' ∧ pkts es' = held'.*1 ∧
       winv (<[o:=link_txs q rel]> Q) (held' ++ owned) w' ∧ same_env w w') w.
Proof.
  induction fuel as [|fuel IH]; intros es held q owned w Hf Hh Hw Ht.
  { destruct es; [|simpl in Hf; lia]. destruct held; [|done]. apply wpx_ret. by exists [], [], []. }
  (* a packet and the entries behind it *)
  assert (∀ p es1, (length es1 ≤ fuel)%nat → pkts (Pkt p :: es1) = held.*1 →
    wpx (λ e, ('(ps, rest) ← released t es1; Ok (p :: ps, rest)) = Panic e)
      (link_transmit o p;; forward_due fuel o (mkDelayQueue es1 cap))
      (λ q' w', ∃ rel held' es', ('(ps, rest) ← released t es1; Ok (p :: ps, rest)) = Ok (rel.*1, es') ∧
         q' = mkDelayQueue es' cap ∧ held = rel ++ held' ∧ pkts es' = held'.*1 ∧
         winv (<[o:=link_txs q rel]> Q) (held' ++ owned) w' ∧ same_env w w') w) as Hpkt.
  { intros p es1 Hl Hp. eapply transmit_held; [exact Hp|exact Hw|].
    intros x held1 w1 -> <- Hh1 Hw1 He1.
    eapply wpx_mono; [eapply wpx_weaken; [eapply IH; [exact Hl|exact Hh1|exact Hw1|by rewrite (se_now _ _ He1)]|]|].
    - intros e ->. done.
    - intros q' w2 (rel & held' & es' & -> & -> & -> & Hh2 & Hw2 & He2).
      exists (x :: rel), held', es'. split_and!; try done. by etrans. }
  destruct es as [|[ttx|p] es]; simpl in Hf.
  - destruct held; [|done]. apply wpx_ret. by exists [], [], [].
  - simpl. apply wpx_bind. unfold need_tx. apply wpx_bind. eapply wpx_lift; [done|].
    apply wpx_bind. eapply now_rule; [exact Ht|]. rewrite Z.geb_leb.
    destruct (Z.leb_spec ttx t) as [Hd|Hd].
    + rewrite decide_True by done. apply wpx_ret. cbv beta iota. destruct es as [|[ttx'|p] es].
      * apply wpx_bind. done.
      * apply wpx_bind. done.
      * simpl. apply wpx_bind. eapply wpx_lift; [done|]. cbv beta iota.
        apply (Hpkt p es); [simpl in Hf; lia|done].
    + rewrite decide_False by lia. apply wpx_ret. apply wpx_ret.
      exists [], held, (Delay ttx :: es). by split_and!.
  - simpl. apply wpx_bind. unfold need_tx. apply wpx_bind. eapply wpx_lift; [done|].
    apply wpx_ret. cbv beta iota. apply wpx_bind. eapply wpx_lift; [done|]. cbv beta iota.
    apply (Hpkt p es); [lia|done].
Qed.
End pull.

(** The borrow of the output succeeds and is undone. *)
Lemma pull_queue_wp ports o Q q cap es held owned w t :
  output ports !! "output" = Some o → (o ∉ borrowed w) → Q !! o = Some q →
  winv Q (held ++ owned) w → pkts es = held.*1 → MONOTONIC_NOW w = Some t →
  wpx (λ e, released t es = Panic e) (pull_queue ports (mkDelayQueue es cap))
    (λ q' w', ∃ rel held' es', released t es = Ok (rel.*1, es') ∧ q' = mkDelayQueue es' cap ∧
       held = rel ++ held' ∧ pkts es' = held'.*1 ∧
       winv (<[o:=link_txs q rel]> Q) (held' ++ owned) w' ∧ same_env w w') w.
Proof.
  intros Ho Hb Hq Hw Hh Ht. unfold pull_queue, port. rewrite Ho. apply wpx_bind. eapply wpx_lift; [done|].
  apply wpx_bind. unfold borrow_mut, wpx at 1. rewrite decide_False by done. apply wpx_bind.
  eapply wpx_mono; [eapply (forward_due_wp Q o cap t _ es held q owned); [done|done| |done]|].
  { rewrite insert_id by done. by apply winv_set_borrowed. }
  intros q' w1 (rel & held' & es' & Hr & -> & -> & Hh' & Hw1 & He). unfold App.release. wp_steps.
  exists rel, held', es'. split_and!; try done; [by apply winv_set_borrowed|].
  apply same_env_intro; [exact (same_env_env _ _ He)|]. simpl. rewrite (se_borrowed _ _ He). simpl. set_solver.
Qed.

(** ** What pull releases *)

(** The panics of a queue that lost the packet behind a delay. *)
Definition queue_torn (e : string) : Prop := e = "Queue underflow." ∨ e = "Expected packet.".

Lemma released_panics t es e : released t es = Panic e → queue_torn e.
Proof.
  remember (length es) as n eqn:Hn. revert es Hn.
  induction n as [n IH] using (well_founded_induction lt_wf). intros [|[ttx|p] es] -> Hr; simpl in Hr; [done| |].
  - case_decide; [|done]. destruct es as [|[ttx'|p] es]; [injection Hr as <-; by left|injection Hr as <-; by right|].
    destruct (released t es) as [[]| | |] eqn:Hes; try done. injection Hr as <-. eapply (IH (length es)); [simpl; lia|done|done].
  - destruct (released t es) as [[]| | |] eqn:Hes; try done. injection Hr as <-. eapply (IH (length es)); [simpl; lia|done|done].
Qed.

Lemma released_wf t es : wf_entries es → ∃ out rest, released t es = Ok (out, rest) ∧ wf_entries rest.
Proof.
  remember (length es) as n eqn:Hn. revert es Hn.
  induction n as [n IH] using (well_founded_induction lt_wf). intros [|[ttx|p] es] -> Hw; simpl; [by eexists _, _| |].
  - case_decide; [|by eexists _, _]. destruct es as [|[ttx'|p] es]; [done|done|].
    destruct (IH (length es)) with (es := es) as (out & rest & -> & Hr); [simpl; lia|done|done|].
    by eexists _, _.
  - destruct (IH (length es)) with (es := es) as (out & rest & -> & Hr); [simpl; lia|done|done|].
    by eexists _, _.
Qed.

(** Entry [e] does not hold back packets at time [t]. *)
Definition due (t : Z) (e : DelayedPacket) : Prop :=
  match e with Delay ttx => ttx ≤ t | Pkt _ => True end.

Lemma wf_entries_app es es' : wf_entries es → wf_entries es' → wf_entries (es ++ es').
Proof.
  remember (length es) as n eqn:Hn. revert es Hn.
  induction n as [n IH] using (well_founded_induction lt_wf). intros [|[ttx|p] es] -> Hw Hw'; simpl; [done| |].
  - destruct es as [|[ttx'|p] es]; [done|done|]. simpl. apply (IH (length es)); [simpl; lia|done..].
  - apply (IH (length es)); [simpl; lia|done..].
Qed.

(** ** What push enqueues *)

Lemma full_spec es cap : full (mkDelayQueue es cap) = true ↔ cap ≤ Z.of_nat (length es).
Proof. unfold full. simpl. rewrite Z.geb_leb. apply Z.leb_le. Qed.

Lemma push_back_ok e es cap : Z.of_nat (length es) < cap →
  push_back e (mkDelayQueue es cap) = Ok (mkDelayQueue (es ++ [e]) cap).
Proof.
  intros Hl. unfold push_back. destruct (full _) eqn:E; [|done]. apply full_spec in E. lia.
Qed.

Lemma winv_link_bound Q owned w l q : winv Q owned w → Q !! l = Some q → Z.of_nat (length q) ≤ Link.LINK_MAX_PACKETS.
Proof.
  intros Hw Hq. destruct (wi_links _ _ _ Hw _ _ Hq) as (r & _ & Hr).
  pose proof (Link.lr_length _ _ Hr) as Hl. by rewrite length_fmap in Hl.
Qed.

(** What fits in the queue. *)
Definition room (cap : Z) (es : entries) : nat := (Z.to_nat cap - length es)%nat.

Lemma enqueue_batch_wp E Q i qi es cap held owned w :
  winv (<[i:=qi]> Q) (held ++ owned) w → pkts es = held.*1 →
  wpx E (enqueue_batch i (mkDelayQueue es cap))
    (λ q' w', q' = mkDelayQueue (es ++ (Pkt <$> (take (room cap es) qi).*1)) cap ∧
       winv (<[i:=skipn (room cap es) qi]> Q) ((held ++ take (room cap es) qi) ++ owned) w' ∧
       same_env w w') w.
Proof.
  intros Hw Hh. set (n := room cap es).
  set (I := λ (xs : queue) (q' : DelayQueue) w', ∃ ds, qi = ds ++ xs ∧ (length ds ≤ n)%nat ∧
    q' = mkDelayQueue (es ++ (Pkt <$> ds.*1)) cap ∧
    winv (<[i:=xs]> Q) ((held ++ ds) ++ owned) w' ∧ same_env w w').
  assert (∀ ds : queue, (length ds ≤ n)%nat →
    full (mkDelayQueue (es ++ (Pkt <$> ds.*1)) cap) = true ↔ length ds = n) as Hfull.
  { intros ds Hl. rewrite full_spec, length_app, !length_fmap. unfold n, room in *. lia. }
  assert (∀ xs q' w', I xs q' w' → wpx E (b ← link_empty i; mret (negb b && negb (full q')))
    (λ b s', s' = w' ∧ b = negb (bool_decide (xs = [])) && negb (full q')) w') as Hcond.
  { intros xs q' w' (ds & _ & _ & _ & Hw' & _). apply wpx_bind.
    eapply link_empty_wp; [exact Hw'|apply lookup_insert_eq|]. by apply wpx_ret. }
  assert (∀ (ds xs : queue) w', qi = ds ++ xs → (length ds ≤ n)%nat → xs = [] ∨ length ds = n →
    winv (<[i:=xs]> Q) ((held ++ ds) ++ owned) w' → take n qi = ds ∧ skipn n qi = xs) as Hend.
  { intros ds xs w' -> Hl [->|<-] _.
    - rewrite app_nil_r. split; [by apply take_ge|by apply drop_ge].
    - split; [by rewrite take_app_length|by rewrite drop_app_length]. }
  eapply (while_st_list E _ _ I); [| | |].
  - intros q' w' HI. eapply wpx_mono; [by eapply Hcond|]. intros b s' [-> ->].
    split; [done|]. destruct HI as (ds & Heq & Hl & -> & Hw' & He).
    destruct (Hend ds [] w') as [-> ->]; try done. by left.
  - intros [p pk] xs q' w' HI. eapply wpx_mono; [by eapply Hcond|]. intros b s' [-> ->].
    destruct HI as (ds & Heq & Hl & -> & Hw' & He). simpl.
    destruct (full _) eqn:Hf; simpl.
    + apply Hfull in Hf; [|done..]. destruct (Hend ds ((p, pk) :: xs) w') as [-> ->]; try done. by right.
    + assert (length ds ≠ n) as Hne.
      { intros Hn. apply Hfull in Hn; [|done]. by rewrite Hf in Hn. }
      apply wpx_bind. eapply wpx_mono; [eapply link_receive_wp; [exact Hw'|apply lookup_insert_eq]|].
      intros p' w1 (-> & Hw1 & He1). rewrite insert_insert_eq in Hw1. eapply wpx_lift.
      { apply push_back_ok. rewrite length_app, !length_fmap. unfold n, room in *. lia. }
      exists (ds ++ [(p, pk)]). rewrite length_app. simpl. split_and!; try lia.
      * by rewrite <-app_assoc.
      * f_equal. by rewrite !fmap_app, app_assoc.
      * eapply winv_perm; [exact Hw1|]. solve_perm.
      * by etrans.
  - exists []. simpl. rewrite !app_nil_r. split_and!; done || lia.
  - pose proof (winv_link_bound _ _ _ i qi Hw (lookup_insert_eq _ _ _)). lia.
Qed.

(** The entries a push of Latency adds, for a batch [qi] on the input at time [t]. *)
Definition latency_batch (ms cap t : Z) (es : entries) (qi : queue) : entries * queue :=
  if decide (qi = [] ∨ room cap es = 0%nat) then (es, [])
  else (es ++ Delay (t + ms * 1000000) :: (Pkt <$> (take (room cap es - 1) qi).*1),
        take (room cap es - 1) qi).

Lemma instant_add_ok t d : is_instant t → 0 ≤ d < 18446744073709551616 * 1000000 →
  instant_add t d = Ok (t + d).
Proof.
  intros [Ht Ht'] Hd. unfold instant_add.
  destruct (Z.ltb_spec ((t + d) / 1000000000) 9223372036854775808) as [Hl|Hl]; [done|]. Z.div_mod_to_equations. lia.
Qed.

Lemma latency_push_wp E m cap es ports i Q qi held owned w t :
  input ports !! "input" = Some i → (i ∉ borrowed w) → winv (<[i:=qi]> Q) (held ++ owned) w →
  MONOTONIC_NOW w = Some t → is_instant t → is_u64 m → pkts es = held.*1 →
  wpx E (latency_push (mkLatencyApp m (mkDelayQueue es cap)) ports)
    (λ app' w', let '(es', batch) := latency_batch m cap t es qi in
       app' = mkLatencyApp m (mkDelayQueue es' cap) ∧ pkts es' = (held ++ batch).*1 ∧
       winv (<[i:=skipn (length batch) qi]> Q) ((held ++ batch) ++ owned) w' ∧ same_env w w') w.
Proof.
  intros Hi Hb Hw Ht Hit Hm Hh. unfold latency_push, port. rewrite Hi. apply wpx_bind. eapply wpx_lift; [done|].
  apply wpx_bind. unfold borrow_mut, wpx at 1. rewrite decide_False by done. apply wpx_bind. cbv zeta.
  eapply link_empty_wp; [by apply winv_set_borrowed|apply lookup_insert_eq|].
  cbn [lat_queue ms]. unfold latency_batch. apply wpx_bind.
  set (w1 := set_borrowed ({[i]} ∪ borrowed w) w).
  (* the batch after the entries [es1] *)
  assert (∀ es1, pkts es1 = held.*1 →
    wpx E (queue ← enqueue_batch i (mkDelayQueue es1 cap); App.release i;; mret (mkLatencyApp m queue))
    (λ app' w', let batch := take (room cap es1) qi in
       app' = mkLatencyApp m (mkDelayQueue (es1 ++ (Pkt <$> batch.*1)) cap) ∧
       winv (<[i:=skipn (room cap es1) qi]> Q) ((held ++ batch) ++ owned) w' ∧ same_env w w') w1) as Hbatch.
  { intros es1 Hp. apply wpx_bind. eapply wpx_mono; [eapply enqueue_batch_wp; [by apply winv_set_borrowed|done]|].
    intros q' w2 (-> & Hw2 & He2). unfold App.release. wp_steps. split_and!; [done|by apply winv_set_borrowed|].
    apply same_env_intro; [exact (same_env_env _ _ He2)|]. simpl. rewrite (se_borrowed _ _ He2). simpl. set_solver. }
  destruct (decide (qi = [])) as [->|Hne]; [|destruct (full (mkDelayQueue es cap)) eqn:Hf].
  - rewrite decide_True by tauto. simpl. apply wpx_ret. eapply wpx_mono; [by apply Hbatch|].
    intros app' w' (-> & Hw' & He). rewrite take_nil, drop_nil, !app_nil_r in *. by split_and!.
  - apply full_spec in Hf. assert (room cap es = 0%nat) as Hr by (unfold room; lia).
    rewrite decide_True by tauto. rewrite andb_false_r. apply wpx_ret. eapply wpx_mono; [by apply Hbatch|].
    rewrite Hr. intros app' w' (-> & Hw' & He). rewrite take_0, !app_nil_r in *. by split_and!.
  - assert (Z.of_nat (length es) < cap) as Hl.
    { destruct (decide (cap ≤ Z.of_nat (length es))) as [Hx|]; [|lia]. apply full_spec in Hx. congruence. }
    rewrite decide_False by (unfold room; intros [|]; [done|lia]). rewrite bool_decide_eq_false_2 by done. simpl.
    apply wpx_bind. eapply now_rule; [exact Ht|]. apply wpx_bind. eapply wpx_lift.
    { apply instant_add_ok; [done|]. unfold is_u64 in Hm. lia. }
    eapply wpx_lift; [by apply push_back_ok|].
    eapply wpx_mono; [apply Hbatch; rewrite pkts_app; simpl; by rewrite app_nil_r|].
    assert (room cap (es ++ [Delay (t + m * 1000000)]) = (room cap es - 1)%nat) as ->.
    { unfold room. rewrite length_app. simpl. lia. }
    intros app' w' (-> & Hw' & He). rewrite <-app_assoc. split_and!; [done| | |done].
    + rewrite pkts_app, fmap_app. simpl. by rewrite pkts_pkt, Hh.
    + rewrite length_take. destruct (decide (length qi ≤ room cap es - 1)%nat).
      * rewrite Nat.min_r by lia. rewrite !drop_ge in * by lia. done.
      * by rewrite Nat.min_l by lia.
Qed.

(** ** Latency: correctness *)

Lemma latency_pull_wp m cap es ports o Q q held owned w t :
  output ports !! "output" = Some o → (o ∉ borrowed w) → Q !! o = Some q →
  winv Q (held ++ owned) w → pkts es = held.*1 → MONOTONIC_NOW w = Some t →
  wpx (λ e, released t es = Panic e) (latency_pull (mkLatencyApp m (mkDelayQueue es cap)) ports)
    (λ app' w', ∃ rel held' es', released t es = Ok (rel.*1, es') ∧
       app' = mkLatencyApp m (mkDelayQueue es' cap) ∧ held = rel ++ held' ∧ pkts es' = held'.*1 ∧
       winv (<[o:=link_txs q rel]> Q) (held' ++ owned) w' ∧ same_env w w') w.
Proof.
  intros Ho Hb Hq Hw Hh Ht. unfold latency_pull. apply wpx_bind.
  eapply wpx_mono; [by eapply pull_queue_wp|].
  intros q' w' (rel & held' & es' & Hr & -> & Hrest). apply wpx_ret. exists rel, held', es'. split_and!; [done|done|apply Hrest..].
Qed.

(** Time passes between a push and the next pull. *)
Definition push_then_pull {T} `{App T} (t' : Z) (app : T) (ports : Ports) : ST World T :=
  app ← push app ports;
  modify (set_now (Some t'));;
  pull app ports.

Lemma latency_push_then_pull m cap es ports i o Q qi qo held owned w t t' :
  input ports !! "input" = Some i → output ports !! "output" = Some o → i ≠ o →
  (i ∉ borrowed w) → (o ∉ borrowed w) → winv (io Q i qi o qo) (held ++ owned) w →
  MONOTONIC_NOW w = Some t → is_instant t → is_u64 m → pkts es = held.*1 →
  let '(es1, batch) := latency_batch m cap t es qi in
  wpx (λ e, released t' es1 = Panic e) (push_then_pull t' (mkLatencyApp m (mkDelayQueue es cap)) ports)
    (λ app' w', ∃ rel held' es', released t' es1 = Ok (rel.*1, es') ∧
       app' = mkLatencyApp m (mkDelayQueue es' cap) ∧ held ++ batch = rel ++ held' ∧ pkts es' = held'.*1 ∧
       winv (io Q i (skipn (length batch) qi) o (link_txs qo rel)) (held' ++ owned) w' ∧
       borrowed w' = borrowed w) w.
Proof.
  intros Hi Ho Hio Hbi Hbo Hw Ht Hit Hm Hh.
  assert (io Q i qi o qo = <[i:=qi]> (<[o:=qo]> Q)) as Hq by (apply insert_insert_ne; congruence).
  rewrite Hq in Hw.
  pose proof (λ E, latency_push_wp E m cap es ports i _ qi held owned w t Hi Hbi Hw Ht Hit Hm Hh) as Hpush.
  destruct (latency_batch m cap t es qi) as [es1 batch]. unfold push_then_pull. apply wpx_bind.
  eapply wpx_mono; [apply Hpush|]. intros app1 w1 (-> & Hh1 & Hw1 & He1).
  apply wpx_bind, wpx_modify. simpl.
  eapply wpx_mono; [eapply (latency_pull_wp m cap es1 ports o _ qo (held ++ batch) owned _ t')|]; try done.
  - simpl. by rewrite (se_borrowed _ _ He1).
  - rewrite lookup_insert_ne by done. apply lookup_insert_eq.
  - destruct Hw1. by split.
  - intros app' w' (rel & held' & es' & Hr & -> & Heq & Hh' & Hw' & He'). exists rel, held', es'.
    split_and!; try done.
    + unfold io. rewrite insert_insert_ne in Hw' by done. rewrite insert_insert_eq in Hw'.
      unfold io. by rewrite insert_insert_ne.
    + rewrite (se_borrowed _ _ He'). simpl. apply (se_borrowed _ _ He1).
Qed.

(** ** Latency over time *)

(** What is observed of the app: at time [t] a push took the packets [ps] from
    the input, or a pull sent them. *)
Inductive latency_event : Type :=
  | Taken (t : Z) (ps : queue)
  | Sent (t : Z) (ps : queue).

Definition event_time (e : latency_event) : Z := match e with Taken t _ | Sent t _ => t end.
Definition until (t : Z) (evs : list latency_event) : Prop := Forall (λ e, event_time e ≤ t) evs.

(** The packets taken, each with the time from which it may be sent. *)
Fixpoint arrivals (ms : Z) (evs : list latency_event) : list (Z * (loc * Packet)) :=
  match evs with
  | [] => []
  | Taken t ps :: evs => ((λ x, (t + ms * 1000000, x)) <$> ps) ++ arrivals ms evs
  | Sent _ _ :: evs => arrivals ms evs
  end.
Fixpoint sents (evs : list latency_event) : queue :=
  match evs with
  | [] => []
  | Taken _ _ :: evs => sents evs
  | Sent _ ps :: evs => ps ++ sents evs
  end.

Definition free_slots (app : LatencyApp) : nat :=
  room (capacity (lat_queue app)) (packets (lat_queue app)).

(** Runs of the app from its creation: [latency_trace conf ports i o evs app held]
    when the pushes and pulls observed as [evs], in worlds in which anything else
    may have happened in between, left the app in state [app], holding the
    packets [held].  No push finds packets and exactly one free slot. *)
Inductive latency_trace (conf : Latency) (ports : Ports) (i o : link_id) :
    list latency_event → LatencyApp → queue → Prop :=
  | latency_start : latency_trace conf ports i o [] (Latency_new conf) []
  | latency_pushed evs app held t w Q qi ps qo owned app' w' :
      latency_trace conf ports i o evs app held → until t evs →
      (i ∉ borrowed w) → MONOTONIC_NOW w = Some t → is_instant t →
      winv (io Q i (ps ++ qi) o qo) (held ++ owned) w →
      ps ++ qi = [] ∨ free_slots app ≠ 1%nat →
      push app ports w = Ok (app', w') →
      winv (io Q i qi o qo) ((held ++ ps) ++ owned) w' →
      latency_trace conf ports i o (evs ++ [Taken t ps]) app' (held ++ ps)
  | latency_pulled evs app out held t w Q qi qo owned app' w' :
      latency_trace conf ports i o evs app (out ++ held) → until t evs →
      (o ∉ borrowed w) → MONOTONIC_NOW w = Some t →
      winv (io Q i qi o qo) ((out ++ held) ++ owned) w →
      pull app ports w = Ok (app', w') →
      winv (io Q i qi o (link_txs qo out)) (held ++ owned) w' →
      pkts (packets (lat_queue app')) = held.*1 →
      latency_trace conf ports i o (evs ++ [Sent t out]) app' held.

Lemma arrivals_app ms evs evs' : arrivals ms (evs ++ evs') = arrivals ms evs ++ arrivals ms evs'.
Proof. induction evs as [|[] evs IH]; simpl; [done| |done]. by rewrite IH, app_assoc. Qed.

Lemma sents_app evs evs' : sents (evs ++ evs') = sents evs ++ sents evs'.
Proof. induction evs as [|[] evs IH]; simpl; [done|done|]. by rewrite IH, app_assoc. Qed.

(** The queue of Latency is a sequence of batches, each behind its delay. *)
Abbreviation batches := (list (Z * queue)).

Fixpoint batch_entries (bs : batches) : entries :=
  match bs with
  | [] => []
  | (d, ps) :: bs => Delay d :: (Pkt <$> ps.*1) ++ batch_entries bs
  end.
Definition batch_packets (bs : batches) : queue := mjoin bs.*2.
Fixpoint batch_arrivals (bs : batches) : list (Z * (loc * Packet)) :=
  match bs with
  | [] => []
  | (d, ps) :: bs => ((λ x, (d, x)) <$> ps) ++ batch_arrivals bs
  end.

Lemma batch_entries_app bs bs' : batch_entries (bs ++ bs') = batch_entries bs ++ batch_entries bs'.
Proof. induction bs as [|[d ps] bs IH]; simpl; [done|]. by rewrite IH, <-app_assoc. Qed.

Lemma batch_arrivals_packets bs : (batch_arrivals bs).*2 = batch_packets bs.
Proof.
  unfold batch_packets. induction bs as [|[d ps] bs IH]; simpl; [done|].
  rewrite fmap_app, IH, <-list_fmap_compose. f_equal. apply list_fmap_id.
Qed.

Lemma pkts_batches bs : pkts (batch_entries bs) = (batch_packets bs).*1.
Proof.
  unfold batch_packets. induction bs as [|[d ps] bs IH]; simpl; [done|].
  by rewrite pkts_app, pkts_pkt, IH, fmap_app.
Qed.

Lemma released_pkts t ps es :
  released t ((Pkt <$> ps) ++ es) = ('(out, rest) ← released t es; Ok (ps ++ out, rest)).
Proof.
  induction ps as [|p ps IH].
  { simpl. by destruct (released t es) as [[]| | |]. }
  rewrite fmap_cons. simpl. rewrite IH. by destruct (released t es) as [[]| | |].
Qed.

(** The batches that are due leave, in whole. *)
Lemma released_batches t bs :
  Forall (λ b, b.2 ≠ []) bs → StronglySorted Z.le bs.*1 →
  ∃ bs1 bs2, bs = bs1 ++ bs2 ∧ Forall (λ b, b.1 ≤ t) bs1 ∧ Forall (λ b, t < b.1) bs2 ∧
    released t (batch_entries bs) = Ok ((batch_packets bs1).*1, batch_entries bs2).
Proof.
  induction bs as [|[d ps] bs IH]; intros Hne Hs; [by exists [], []|].
  apply Forall_cons in Hne as [Hp Hne]. rewrite fmap_cons in Hs.
  apply StronglySorted_inv in Hs as [Hs Hd]. simpl in Hp.
  destruct (decide (d ≤ t)) as [Hdt|Hdt].
  - destruct (IH Hne Hs) as (bs1 & bs2 & -> & H1 & H2 & Hr). exists ((d, ps) :: bs1), bs2.
    split_and!; [done|by constructor|done|]. simpl. rewrite decide_True by done.
    destruct ps as [|x ps]; [done|]. simpl. rewrite released_pkts, Hr. simpl.
    unfold batch_packets. simpl. by rewrite fmap_app.
  - exists [], ((d, ps) :: bs). split_and!; [done|done| |simpl; by rewrite decide_False].
    constructor; [simpl; lia|]. rewrite Forall_fmap in Hd. eapply Forall_impl; [exact Hd|]. simpl. lia.
Qed.

(** The invariant of a run: what was sent was due, the rest is in the queue. *)
Record latency_inv (conf : Latency) (evs : list latency_event) (app : LatencyApp) (held : queue)
    (gone : list (Z * (loc * Packet))) (bs : batches) : Prop := {
  li_app : app = mkLatencyApp (conf_ms conf) (mkDelayQueue (batch_entries bs) (conf_capacity conf));
  li_held : held = batch_packets bs;
  li_batches : Forall (λ b, b.2 ≠ []) bs;
  li_sorted : StronglySorted Z.le bs.*1;
  li_delay : ∀ t, until t evs → Forall (λ b, b.1 ≤ t + conf_ms conf * 1000000) bs;
  li_arrivals : arrivals (conf_ms conf) evs = gone ++ batch_arrivals bs;
  li_sent : gone.*2 = sents evs;
  li_gone : ∀ t, until t evs → Forall (λ a, a.1 ≤ t) gone;
}.

Lemma winv_same_held Q Q' h h' o o' w :
  winv Q (h ++ o) w → winv Q' (h' ++ o') w → h.*1 = h'.*1 → h = h'.
Proof.
  intros Hw Hw' Heq.
  assert (∀ Q h o, winv Q (h ++ o) w → Forall (λ x, heap (mem w) !! x.1 = Some x.2) h) as Hall.
  { intros Q0 h0 o0 [_ Hm]. apply Forall_forall. intros [p pk] Hin.
    eapply Mem_lookup; [exact Hm|]. apply elem_of_app. right. apply elem_of_app. by left. }
  apply Hall in Hw. apply Hall in Hw'. clear Hall Q Q' o o'.
  revert h' Heq Hw'. induction h as [|[p pk] h IH]; intros [|[p' pk'] h'] [=]; [done|]. subst p'.
  intros Hw'. inversion Hw; inversion Hw'; simpl in *; subst. f_equal; [f_equal; congruence|]. by apply IH.
Qed.

Lemma batch_arrivals_app bs bs' : batch_arrivals (bs ++ bs') = batch_arrivals bs ++ batch_arrivals bs'.
Proof. induction bs as [|[d ps] bs IH]; simpl; [done|]. by rewrite IH, <-app_assoc. Qed.

Lemma batch_packets_app bs bs' : batch_packets (bs ++ bs') = batch_packets bs ++ batch_packets bs'.
Proof. unfold batch_packets. by rewrite fmap_app, join_app. Qed.

(** All the arrivals of batches with a property have it. *)
Lemma batch_arrivals_Forall (P : Z → Prop) bs :
  Forall (λ b, P b.1) bs → Forall (λ a, P a.1) (batch_arrivals bs).
Proof.
  induction 1 as [|[d ps] bs Hd _ IH]; simpl; [done|]. apply Forall_app_2; [|done].
  apply Forall_fmap, Forall_true. done.
Qed.

Lemma filter_true {A} (P : A → Prop) `{∀ x, Decision (P x)} l : Forall P l → filter P l = l.
Proof. induction 1 as [|x l Hx _ IH]; [done|]. by rewrite filter_cons_True, IH. Qed.

Lemma filter_false {A} (P : A → Prop) `{∀ x, Decision (P x)} l : Forall (λ x, ¬ P x) l → filter P l = [].
Proof. induction 1 as [|x l Hx _ IH]; [done|]. by rewrite filter_cons_False. Qed.

Section latency_inv.
Context (conf : Latency) (evs : list latency_event) (held : queue) (gone : list (Z * (loc * Packet))).
Context (t : Z) (Ht : until t evs).
Let ms := conf_ms conf.
Let app_of (bs : batches) : LatencyApp := mkLatencyApp ms (mkDelayQueue (batch_entries bs) (conf_capacity conf)).

Lemma until_snoc t' e : until t' (evs ++ [e]) → until t' evs ∧ event_time e ≤ t'.
Proof. unfold until. rewrite Forall_app, Forall_singleton. done. Qed.

Lemma latency_inv_idle app bs :
  latency_inv conf evs app held gone bs → latency_inv conf (evs ++ [Taken t []]) app (held ++ []) gone bs.
Proof.
  intros []. rewrite app_nil_r. split; try done.
  - intros t' [Hu _]%until_snoc. auto.
  - by rewrite arrivals_app, app_nil_r.
  - by rewrite sents_app, app_nil_r.
  - intros t' [Hu _]%until_snoc. auto.
Qed.

Lemma latency_inv_taken app bs ps :
  latency_inv conf evs app held gone bs → ps ≠ [] →
  let bs' := bs ++ [(t + ms * 1000000, ps)] in
  latency_inv conf (evs ++ [Taken t ps]) (app_of bs') (held ++ ps) gone bs'.
Proof.
  intros [] Hps bs'. pose proof (li_delay0 t Ht) as Hd. unfold bs'. split; try done.
  - rewrite batch_packets_app, li_held0. unfold batch_packets at 3. simpl. by rewrite app_nil_r.
  - apply Forall_app_2; [done|]. by constructor.
  - rewrite fmap_app. apply StronglySorted_app_2; [|done|by repeat constructor].
    intros d d' Hin ->%list_elem_of_singleton. apply list_elem_of_fmap in Hin as (b & -> & Hin).
    rewrite Forall_forall in Hd. by apply Hd.
  - intros t' [Hu Hle]%until_snoc. simpl in Hle. apply Forall_app_2; [auto|]. constructor; [|done]. simpl. lia.
  - rewrite arrivals_app, batch_arrivals_app, li_arrivals0. simpl. by rewrite <-app_assoc.
  - by rewrite sents_app, app_nil_r.
  - intros t' [Hu _]%until_snoc. auto.
Qed.

Lemma latency_inv_sent app bs1 bs2 :
  latency_inv conf evs app held gone (bs1 ++ bs2) → Forall (λ b, b.1 ≤ t) bs1 →
  latency_inv conf (evs ++ [Sent t (batch_packets bs1)]) (app_of bs2) (batch_packets bs2)
    (gone ++ batch_arrivals bs1) bs2.
Proof.
  intros [] Hb. apply Forall_app in li_batches0 as [_ Hb2]. rewrite fmap_app in li_sorted0.
  split; try done.
  - by eapply StronglySorted_app_1_r.
  - intros t' [Hu _]%until_snoc. specialize (li_delay0 t' Hu). by apply Forall_app in li_delay0 as [_ ?].
  - rewrite arrivals_app, li_arrivals0, batch_arrivals_app, <-!app_assoc. simpl. by rewrite app_nil_r.
  - rewrite sents_app, fmap_app, li_sent0, batch_arrivals_packets. simpl. by rewrite app_nil_r.
  - intros t' [Hu Hle]%until_snoc. simpl in Hle. apply Forall_app_2; [auto|].
    apply (batch_arrivals_Forall (λ d, d ≤ t')). eapply Forall_impl; [exact Hb|]. simpl. lia.
Qed.

(** What is due at time [t]: what was sent, and the batches due. *)
Lemma latency_inv_due app bs1 bs2 :
  latency_inv conf evs app held gone (bs1 ++ bs2) → Forall (λ b, b.1 ≤ t) bs1 → Forall (λ b, t < b.1) bs2 →
  sents evs ++ batch_packets bs1 = (filter (λ a, a.1 ≤ t) (arrivals ms evs)).*2.
Proof.
  intros [] H1 H2. unfold ms. rewrite li_arrivals0, batch_arrivals_app, !filter_app.
  rewrite (filter_true _ gone) by auto.
  rewrite (filter_true _ (batch_arrivals bs1)) by (by apply (batch_arrivals_Forall (λ d, d ≤ t))).
  rewrite (filter_false _ (batch_arrivals bs2)).
  - by rewrite app_nil_r, fmap_app, li_sent0, batch_arrivals_packets.
  - apply (batch_arrivals_Forall (λ d, ¬ d ≤ t)). eapply Forall_impl; [exact H2|]. simpl. lia.
Qed.
End latency_inv.

Lemma take_skip {A} n (l : list A) : take n l ++ skipn (length (take n l)) l = l.
Proof.
  rewrite length_take. destruct (decide (n ≤ length l)%nat).
  - rewrite Nat.min_l by done. apply take_drop.
  - rewrite Nat.min_r by lia. rewrite take_ge, drop_ge by lia. apply app_nil_r.
Qed.

Section latency_run.
Context (conf : Latency) (Hms : is_u64 (conf_ms conf)) (ports : Ports) (i o : link_id).
Context (Hi : input ports !! "input" = Some i) (Ho : output ports !! "output" = Some o) (Hio : i ≠ o).
Let ms := conf_ms conf.

(** One push: it returns, and takes what fits. *)
Lemma latency_push_step evs app held gone bs t w Q qi qo owned :
  latency_inv conf evs app held gone bs → until t evs →
  (i ∉ borrowed w) → MONOTONIC_NOW w = Some t → is_instant t →
  winv (io Q i qi o qo) (held ++ owned) w → qi = [] ∨ free_slots app ≠ 1%nat →
  ∃ app' w' bs', push app ports w = Ok (app', w') ∧
    let ps := take (free_slots app - 1) qi in
    winv (io Q i (skipn (length ps) qi) o qo) ((held ++ ps) ++ owned) w' ∧
    latency_inv conf (evs ++ [Taken t ps]) app' (held ++ ps) gone bs'.
Proof.
  intros HI Hu Hb Ht Hit Hw Hroom. pose proof HI as [Happ Hheld _ _ _ _ _ _].
  assert (pkts (batch_entries bs) = held.*1) as Hp by (rewrite Hheld; apply pkts_batches).
  assert (io Q i qi o qo = <[i:=qi]> (<[o:=qo]> Q)) as Hq by (apply insert_insert_ne; congruence).
  rewrite Hq in Hw.
  pose proof (latency_push_wp no_panic ms (conf_capacity conf) _ ports i _ qi held owned w t Hi Hb Hw Ht Hit Hms Hp) as Hwp.
  assert (free_slots app = room (conf_capacity conf) (batch_entries bs)) as Hfree by (by rewrite Happ).
  rewrite Hfree in *. unfold latency_batch in Hwp. rewrite Happ.
  assert (∀ n, io Q i (skipn n qi) o qo = <[i:=skipn n qi]> (<[o:=qo]> Q)) as Hq' by (intros; apply insert_insert_ne; congruence).
  case_decide as Hd; destruct (wp_returns _ _ _ Hwp) as (app' & w' & Hpush & -> & _ & Hw' & _); eexists _, w'.
  - assert (take (room (conf_capacity conf) (batch_entries bs) - 1) qi = []) as ->.
    { destruct Hd as [->| ->]; [apply take_nil|done]. }
    exists bs. cbv zeta. rewrite Hq'. split_and!; [exact Hpush|done|].
    pose proof (latency_inv_idle conf evs held gone t app bs HI) as H'. by rewrite Happ in H'.
  - set (ps := take _ qi) in *. exists (bs ++ [(t + ms * 1000000, ps)]).
    cbv zeta. fold ps. rewrite Hq'. split_and!; [exact Hpush|done|].
    assert (ps ≠ []) as Hne.
    { intros H0. apply (f_equal length) in H0. unfold ps in H0. rewrite length_take in H0. simpl in H0.
      destruct Hroom as [|Hroom]; [tauto|]. destruct qi; simpl in H0; [tauto|].
      apply Decidable.not_or in Hd. lia. }
    pose proof (latency_inv_taken conf evs held gone t Hu app bs ps HI Hne) as H'.
    cbv beta zeta in H'. rewrite batch_entries_app in H'. simpl in H'. by rewrite app_nil_r in H'.
Qed.

(** One pull: it returns, and sends what is due. *)
Lemma latency_pull_step evs app held gone bs t w Q qi qo owned :
  latency_inv conf evs app held gone bs → until t evs →
  (o ∉ borrowed w) → MONOTONIC_NOW w = Some t → winv (io Q i qi o qo) (held ++ owned) w →
  ∃ app' w' out held' gone' bs', pull app ports w = Ok (app', w') ∧ held = out ++ held' ∧
    pkts (packets (lat_queue app')) = held'.*1 ∧
    winv (io Q i qi o (link_txs qo out)) (held' ++ owned) w' ∧
    latency_inv conf (evs ++ [Sent t out]) app' held' gone' bs' ∧
    sents evs ++ out = (filter (λ a, a.1 ≤ t) (arrivals ms evs)).*2.
Proof.
  intros HI Hu Hb Ht Hw. pose proof HI as [Happ Hheld Hne Hsort _ _ _ _].
  assert (pkts (batch_entries bs) = held.*1) as Hp by (rewrite Hheld; apply pkts_batches).
  destruct (released_batches t bs Hne Hsort) as (bs1 & bs2 & -> & H1 & H2 & Hrel).
  pose proof (latency_pull_wp ms (conf_capacity conf) _ ports o _ qo held owned w t Ho Hb
    (io_output _ _ _ _ _) Hw Hp Ht) as Hwp.
  rewrite Hrel in Hwp. unfold wpx in Hwp. rewrite Happ. change (pull (T := LatencyApp)) with latency_pull.
  fold ms. destruct (latency_pull _ ports w) as [[app' w']|e| |]; [|done..].
  destruct Hwp as (rel & held' & es' & [= Hr <-] & -> & Heq & Hp' & Hw' & _).
  rewrite pkts_batches in Hp'. rewrite Hheld, batch_packets_app in Heq.
  apply app_inj_1 in Heq as [Hb1 Hb2]; [|by rewrite <-(length_fmap fst rel), <-Hr, length_fmap].
  eexists _, w', (batch_packets bs1), (batch_packets bs2), (gone ++ batch_arrivals bs1), bs2.
  split_and!; [done|by rewrite Hheld, batch_packets_app|apply pkts_batches| | |].
  - rewrite Hb1, Hb2. unfold io in *. by rewrite insert_insert_eq in Hw'.
  - by eapply latency_inv_sent.
  - by eapply latency_inv_due.
Qed.

Lemma latency_trace_inv evs app held :
  latency_trace conf ports i o evs app held → ∃ gone bs, latency_inv conf evs app held gone bs.
Proof.
  induction 1 as [|evs app held t w Q qi ps qo owned app' w' _ (gone & bs & IH) Hu Hb Ht Hit Hw Hr Hpush Hw'
    |evs app out held t w Q qi qo owned app' w' _ (gone & bs & IH) Hu Hb Ht Hw Hpull Hw' Hp].
  - exists [], []. split; try done. apply SSorted_nil.
  - destruct (latency_push_step _ _ _ _ _ t w Q (ps ++ qi) qo owned IH) as (app1 & w1 & bs1 & Hpush1 & Hw1 & HI); try done.
    rewrite Hpush in Hpush1. injection Hpush1 as <- <-. exists gone, bs1.
    pose proof (winv_inj _ _ _ _ _ i _ _ Hw' Hw1 (io_input _ _ _ Hio _ _) (io_input _ _ _ Hio _ _)) as Heq.
    pose proof (take_skip (free_slots app - 1) (ps ++ qi)) as Hps. rewrite <-Heq in Hps.
    apply app_inv_tail in Hps. by rewrite Hps in HI.
  - destruct (latency_pull_step _ _ _ _ _ t w Q qi qo owned IH)
      as (app1 & w1 & out1 & held1 & gone1 & bs1 & Hpull1 & Heq & Hp1 & Hw1 & HI & _); try done.
    rewrite Hpull in Hpull1. injection Hpull1 as <- <-. exists gone1, bs1.
    assert (held1 = held) as -> by (eapply winv_same_held; [exact Hw1|exact Hw'|congruence]).
    apply app_inv_tail in Heq as ->. exact HI.
Qed.
(** What was sent when a pull of a run ends. *)
Lemma latency_trace_due evs1 t out evs2 app held :
  latency_trace conf ports i o (evs1 ++ Sent t out :: evs2) app held →
  sents evs1 ++ out = (filter (λ a, a.1 ≤ t) (arrivals ms evs1)).*2.
Proof.
  intros Htr. remember (evs1 ++ Sent t out :: evs2) as evs eqn:Hevs. revert evs2 Hevs.
  induction Htr as [|evs app held t' w Q qi ps qo owned app' w' Htr IH Hu Hb Ht Hit Hw Hr Hpush Hw'
    |evs app out' held t' w Q qi qo owned app' w' Htr IH Hu Hb Ht Hw Hpull Hw' Hp]; intros evs2 Hevs.
  - by destruct evs1.
  - destruct evs2 as [|e evs2 _] using rev_ind; [by apply app_inj_tail in Hevs as [_ ?]|].
    rewrite app_comm_cons, app_assoc in Hevs. apply app_inj_tail in Hevs as [-> _]. by eapply IH.
  - destruct evs2 as [|e evs2 _] using rev_ind.
    + apply app_inj_tail in Hevs as [-> [= -> ->]].
      destruct (latency_trace_inv _ _ _ Htr) as (gone & bs & HI).
      destruct (latency_pull_step _ _ _ _ _ t w Q qi qo owned HI)
        as (app1 & w1 & out1 & held1 & _ & _ & Hpull1 & Heq & Hp1 & Hw1 & _ & Hdue); try done.
      rewrite Hpull in Hpull1. injection Hpull1 as <- <-.
      assert (held1 = held) as -> by (eapply winv_same_held; [exact Hw1|exact Hw'|congruence]).
      by apply app_inv_tail in Heq as ->.
    + rewrite app_comm_cons, app_assoc in Hevs. apply app_inj_tail in Hevs as [-> _]. by eapply IH.
Qed.
End latency_run.

(** C14. Latency delays by [ms], over every run of pushes and pulls from the
    creation of the app, whatever happens to the world in between
    ([latency_trace]).  A packet that a push takes at time [t] may leave from
    [t + ms] on ([arrivals]).  (1) The packets taken are those sent, then those
    still held in the queue: none is lost or duplicated, and the order is kept.
    (2) What was sent when a pull at time [t] ends is all that was due at [t],
    and nothing else: no packet leaves before its time, and none is held back
    after it.  (3) From every state of such a run the next pull returns, and so
    does the next push, which takes as many packets as fit besides their delay;
    the exception is a push that finds packets and exactly one free slot (see
    [latency_full_panics]). *)
Theorem latency_delays conf ports i o evs app held :
  is_u64 (conf_ms conf) →
  input ports !! "input" = Some i → output ports !! "output" = Some o → i ≠ o →
  latency_trace conf ports i o evs app held →
  ((arrivals (conf_ms conf) evs).*2 = sents evs ++ held ∧ pkts (packets (lat_queue app)) = held.*1) ∧
  (∀ evs1 t out evs2, evs = evs1 ++ Sent t out :: evs2 →
     sents evs1 ++ out = (filter (λ a, a.1 ≤ t) (arrivals (conf_ms conf) evs1)).*2) ∧
  (∀ t w Q qi qo owned,
     until t evs → (i ∉ borrowed w) → (o ∉ borrowed w) → MONOTONIC_NOW w = Some t → is_instant t →
     winv (io Q i qi o qo) (held ++ owned) w →
     (∃ app' w' out held', pull app ports w = Ok (app', w') ∧ held = out ++ held' ∧
        latency_trace conf ports i o (evs ++ [Sent t out]) app' held') ∧
     (qi = [] ∨ free_slots app ≠ 1%nat →
      let ps := take (free_slots app - 1) qi in
      ∃ app' w', push app ports w = Ok (app', w') ∧
        latency_trace conf ports i o (evs ++ [Taken t ps]) app' (held ++ ps))).
Proof.
  intros Hms Hi Ho Hio Htr. split; [|split].
  - destruct (latency_trace_inv conf Hms ports i o Hi Ho Hio _ _ _ Htr) as (gone & bs & []).
    rewrite li_arrivals0, fmap_app, batch_arrivals_packets, li_sent0, li_app0, li_held0.
    split; [done|apply pkts_batches].
  - intros evs1 t out evs2 ->. eapply latency_trace_due; [exact Hms|done..|exact Htr].
  - intros t w Q qi qo owned Hu Hbi Hbo Ht Hit Hw.
    destruct (latency_trace_inv conf Hms ports i o Hi Ho Hio _ _ _ Htr) as (gone & bs & HI). split.
    + destruct (latency_pull_step conf ports i o Ho _ _ _ _ _ t w Q qi qo owned HI)
        as (app' & w' & out & held' & _ & _ & Hpull & -> & Hp & Hw' & _); try done.
      exists app', w', out, held'. split_and!; [done|done|]. by eapply latency_pulled.
    + intros Hroom. destruct (latency_push_step conf Hms ports i o Hi Hio _ _ _ _ _ t w Q qi qo owned HI)
        as (app' & w' & _ & Hpush & Hw' & _); try done.
      exists app', w'. split; [done|]. eapply (latency_pushed conf ports i o evs app held t w Q); try done.
      * by rewrite take_skip.
      * by rewrite take_skip.
Qed.

Lemma released_trailing t es d : wf_entries es → Forall (due t) es → d ≤ t →
  released t (es ++ [Delay d]) = Panic "Queue underflow.".
Proof.
  intros Hw Hd Ht. remember (length es) as n eqn:Hn. revert es Hn Hw Hd.
  induction n as [n IH] using (well_founded_induction lt_wf). intros [|[ttx|p] es] -> Hw Hd; simpl.
  - by rewrite decide_True.
  - apply Forall_cons in Hd as [Hx Hd]. simpl in Hx. rewrite decide_True by done.
    destruct es as [|[ttx'|p] es]; [done|done|]. apply Forall_cons in Hd as [_ Hd]. simpl.
    by rewrite (IH (length es)) by (simpl; done || lia).
  - apply Forall_cons in Hd as [_ Hd]. by rewrite (IH (length es)) by (simpl; done || lia).
Qed.

(** C34. The delay takes a slot of the queue and is not checked to be followed by
    a packet: when packets arrive while the queue has exactly one free slot,
    [push] leaves a delay at its end, and a later [pull], when all delays are
    due, panics. *)
Theorem latency_full_panics m cap es ports i o Q qi qo held owned w t t' :
  input ports !! "input" = Some i → output ports !! "output" = Some o → i ≠ o →
  (i ∉ borrowed w) → (o ∉ borrowed w) → winv (io Q i qi o qo) (held ++ owned) w →
  MONOTONIC_NOW w = Some t → is_instant t → is_u64 m → pkts es = held.*1 →
  wf_entries es → room cap es = 1%nat → qi ≠ [] →
  Forall (due t') es → t + m * 1000000 ≤ t' →
  push_then_pull t' (mkLatencyApp m (mkDelayQueue es cap)) ports w = Panic "Queue underflow.".
Proof.
  intros Hi Ho Hio Hbi Hbo Hw Ht Hit Hm Hh Hwf Hroom Hne Hdue Hlate.
  pose proof (latency_push_then_pull m cap es ports i o Q qi qo held owned w t t'
    Hi Ho Hio Hbi Hbo Hw Ht Hit Hm Hh) as Hrun.
  unfold latency_batch in Hrun. rewrite Hroom in Hrun.
  rewrite decide_False in Hrun by (intros [|]; done). simpl in Hrun.
  rewrite (released_trailing t' es _ Hwf Hdue Hlate) in Hrun. unfold wpx in Hrun.
  destruct (push_then_pull _ _ _ _) as [[app' w']|e| |]; [|congruence|done|done].
  by destruct Hrun as (? & ? & ? & ? & _).
Qed.

(** The world at time [t], with no link borrowed. *)
Definition at_time (t : Z) (w : World) : World := set_borrowed ∅ (set_now (Some t) w).

Lemma winv_at_time Q owned w t : winv Q owned w → winv Q owned (at_time t w).
Proof. intros []. by split. Qed.

(** Two packets taken at 0 are still held at 99 ms, and leave at 100 ms. *)
Lemma latency_delays_witness :
  ∃ q out1 out2 app held, q.*2 = [sample_60; sample_60] ∧
    latency_trace (mkLatency 100 3000) io_ports 1 2
      [Taken 0 q; Sent 99000000 out1; Sent 100000000 out2] app held ∧
    out1 = [] ∧ out2 = q ∧ held = [].
Proof.
  destruct (sample_world 0 (λ _, f64_zero)) as (w & q & Hw & Hq & Hb & Ht & _).
  set (c := mkLatency 100 3000).
  assert (latency_inv c [] (Latency_new c) [] [] []) as H0 by (split; done || apply SSorted_nil).
  pose proof (winv_at_time _ _ _ 0 Hw) as W0.
  destruct (latency_push_step c ltac:(done) io_ports 1 2 eq_refl ltac:(done) [] _ _ _ _ 0 (at_time 0 w) ∅ q [] []
    H0 ltac:(by apply Forall_nil_2) ltac:(done) eq_refl ltac:(done) W0 ltac:(by right)) as (a1 & w1 & bs1 & P1 & W1 & I1).
  assert (take (free_slots (Latency_new c) - 1) q = q) as Hall.
  { apply take_ge. rewrite <-(length_fmap snd q), Hq. by apply Nat.leb_le. }
  cbv zeta in W1, I1. rewrite Hall, drop_all in W1. rewrite Hall in I1.
  assert (latency_trace c io_ports 1 2 [Taken 0 q] a1 q) as T1.
  { rewrite <-(app_nil_r q) in W0.
    apply (latency_pushed c io_ports 1 2 [] (Latency_new c) [] 0 (at_time 0 w) ∅ [] q [] [] a1 w1);
      [apply latency_start|by apply Forall_nil_2|done|done|done|exact W0|by right|exact P1|exact W1]. }
  apply (winv_at_time _ _ _ 99000000) in W1.
  destruct (latency_pull_step c io_ports 1 2 eq_refl _ _ _ _ _ 99000000 (at_time 99000000 w1) ∅ [] [] [] I1
    ltac:(by repeat constructor) ltac:(done) eq_refl W1) as (a2 & w2 & out1 & h1 & g2 & bs2 & P2 & E2 & K2 & W2 & I2 & _).
  simpl app in E2. rewrite E2 in W1.
  assert (latency_trace c io_ports 1 2 [Taken 0 q] a1 (out1 ++ h1)) as T1' by (rewrite <-E2; exact T1).
  pose proof (latency_pulled c io_ports 1 2 _ _ _ _ 99000000 (at_time 99000000 w1) ∅ [] [] [] _ _ T1'
    ltac:(by repeat constructor) ltac:(done) eq_refl W1 P2 W2 K2) as T2.
  apply (winv_at_time _ _ _ 100000000) in W2.
  destruct (latency_pull_step c io_ports 1 2 eq_refl _ _ _ _ _ 100000000 (at_time 100000000 w2) ∅ [] _ [] I2
    ltac:(by repeat constructor) ltac:(done) eq_refl W2) as (a3 & w3 & out2 & h2 & g3 & bs3 & P3 & E3 & K3 & W3 & _).
  rewrite E3 in T2, W2.
  pose proof (latency_pulled c io_ports 1 2 _ _ _ _ 100000000 (at_time 100000000 w2) ∅ [] _ [] _ _ T2
    ltac:(by repeat constructor) ltac:(done) eq_refl W2 P3 W3 K3) as T3.
  exists q, out1, out2, a3, h2. split; [done|]. split; [exact T3|].
  destruct (latency_delays c io_ports 1 2 _ _ _ ltac:(done) eq_refl eq_refl ltac:(done) T3) as ([Hfifo _] & Hdue & _).
  pose proof (Hdue [Taken 0 q] _ _ [Sent 100000000 out2] eq_refl) as D1. simpl in D1.
  rewrite filter_false in D1 by (rewrite app_nil_r; apply Forall_fmap, Forall_true; intros; simpl; lia). simpl in D1.
  pose proof (Hdue [Taken 0 q; Sent 99000000 out1] _ _ [] eq_refl) as D2.
  change (arrivals _ _) with (batch_arrivals [(100000000, q)]) in D2.
  rewrite filter_true, batch_arrivals_packets in D2
    by (apply (batch_arrivals_Forall (λ d, d ≤ 100000000)); by repeat constructor).
  unfold batch_packets in D2. simpl in D2. rewrite !app_nil_r in D2. rewrite D1 in D2, E2. simpl in D2.
  split_and!; [done|done|].
  rewrite E3, D2 in E2. apply (f_equal length) in E2. simpl in E2. rewrite length_app in E2.
  by destruct h2; simpl in E2; [|lia].
Defined.

Lemma latency_full_panics_witness :
  ∃ w, push_then_pull 100000000 (Latency_new (mkLatency 100 1)) io_ports w = Panic "Queue underflow.".
Proof.
  destruct (sample_world 0 (λ _, f64_zero)) as (w & q & Hw & Hq & Hb & Ht & _). exists w.
  apply (latency_full_panics 100 1 [] io_ports 1 2 ∅ q [] [] [] w 0 100000000);
    [done|done|done|by rewrite Hb|by rewrite Hb|exact Hw|done|done|done|done|done|done|by destruct q|constructor|done].
Defined.

(** ** Drop *)

Lemma drop_wp E Q fuel : ∀ es cap held owned w,
  (length es ≤ fuel)%nat → winv Q (held ++ owned) w → pkts es = held.*1 →
  wpx E (drop_loop fuel (mkDelayQueue es cap))
    (λ q' w', q' = mkDelayQueue [] cap ∧ winv Q owned w' ∧ same_env w w') w.
Proof.
  induction fuel as [|fuel IH]; intros [|[ttx|p] es] cap held owned w Hl Hw Hh; simpl in Hl; try lia.
  - destruct held; [|done]. by apply wpx_ret.
  - destruct held; [|done]. by apply wpx_ret.
  - simpl. apply wpx_bind. eapply wpx_lift; [done|]. apply (IH es cap held); [lia|done|done].
  - destruct held as [|[p' pk] held]; [done|]. injection Hh as -> Hh. simpl.
    apply wpx_bind. eapply wpx_lift; [done|]. apply wpx_bind. eapply wpx_lift; [done|]. cbv beta iota.
    apply wpx_bind. eapply wpx_mono; [by eapply free_rule|]. intros _ w1 [Hw1 He1].
    eapply wpx_mono; [apply (IH es cap held owned); [lia|done|done]|].
    intros q' w2 (-> & Hw2 & He2). split_and!; [done|done|by etrans].
Qed.

(** Dropping a delay queue frees every packet in it, whatever delays are
    between them, and it terminates. *)
Theorem delay_queue_drop_frees E Q es cap held owned w :
  winv Q (held ++ owned) w → pkts es = held.*1 →
  wpx E (drop (mkDelayQueue es cap))
    (λ q' w', q' = mkDelayQueue [] cap ∧ winv Q owned w' ∧ same_env w w') w.
Proof. intros Hw Hh. by eapply drop_wp. Qed.

Lemma delay_queue_drop_frees_witness :
  ∃ p Q w, winv Q [(p, sample_60)] w ∧
    wp (drop (mkDelayQueue [Delay 5; Pkt p; Delay 7] 3))
      (λ q' w', q' = mkDelayQueue [] 3 ∧ winv Q [] w' ∧ same_env w w') w.
Proof.
  destruct (sample_world 0 (λ _, f64_zero)) as (w & q & Hw & Hq & _).
  destruct q as [|[p pk] q]; [done|]. injection Hq as -> Hq.
  destruct (wp_returns _ _ _ (link_receive_wp no_panic _ _ _ _ _ _ _ Hw (io_input ∅ 1 2 ltac:(done) _ _)))
    as (p' & w1 & _ & -> & Hw1 & _).
  eexists p, _, w1. split; [exact Hw1|].
  apply (delay_queue_drop_frees no_panic _ [Delay 5; Pkt p; Delay 7] 3 [(p, sample_60)] []); [exact Hw1|done].
Defined.

(** ** Jitter *)

Section jitter.
Context (c : JitterApp) (t : Z) (r : nat → f64).
Let cap := capacity (jit_queue c).

(** The delay of the [n]-th draw. *)
Definition jitter_ttx (n : nat) : Z := t + f64_as_u64 (f64_mul (us c) (r n)) * 1000.

Record jittered : Type := mkJittered {
  jd_sent : queue;       (* forwarded at once *)
  jd_taken : queue;      (* enqueued *)
  jd_entries : entries;  (* the queue at the end *)
  jd_rest : queue;       (* left on the input *)
  jd_draws : nat
}.

(** A push on the packets [xs], with [n] draws so far and [es] in the queue. *)
Fixpoint jitter_spec (n : nat) (es : entries) (xs : queue) : jittered :=
  match xs with
  | [] => mkJittered [] [] es [] n
  | x :: xs' =>
      if decide (cap ≤ Z.of_nat (length es)) then mkJittered [] [] es xs n
      else if f64_lt (r n) (strength c) then
        let es := es ++ [Delay (jitter_ttx (S n))] in
        if decide (cap ≤ Z.of_nat (length es)) then mkJittered [] [] es xs (S (S n))
        else
          let j := jitter_spec (S (S n)) (es ++ [Pkt x.1]) xs' in
          mkJittered (jd_sent j) (x :: jd_taken j) (jd_entries j) (jd_rest j) (jd_draws j)
      else if reorder c then
        let j := jitter_spec (S n) es xs' in
        mkJittered (x :: jd_sent j) (jd_taken j) (jd_entries j) (jd_rest j) (jd_draws j)
      else
        let j := jitter_spec (S n) (es ++ [Pkt x.1]) xs' in
        mkJittered (jd_sent j) (x :: jd_taken j) (jd_entries j) (jd_rest j) (jd_draws j)
  end.
End jitter.

Lemma f64_as_u64_range x : is_u64 (f64_as_u64 x).
Proof.
  unfold is_u64. destruct x as [| [] | |[] m e]; simpl; try lia.
  pose proof (proj2 (Z.shiftl_nonneg (Zpos m) e) ltac:(lia)). lia.
Qed.

(** Jittered packets before those of [j]. *)
Definition prepend (sent taken : queue) (j : jittered) : jittered :=
  mkJittered (sent ++ jd_sent j) (taken ++ jd_taken j) (jd_entries j) (jd_rest j) (jd_draws j).

Lemma prepend_app s1 k1 s2 k2 j : prepend s1 k1 (prepend s2 k2 j) = prepend (s1 ++ s2) (k1 ++ k2) j.
Proof. unfold prepend. simpl. by rewrite !app_assoc. Qed.

Definition with_draws (n : nat) (e : Env) : Env :=
  mkEnv (env_now e) (env_clock e) (env_ticks e) (env_rng e) n (env_profiles e) (env_syscalls e).

Section jitter_push.
Context (E : string → Prop) (c : JitterApp) (Q : queues) (i o : link_id) (Hio : i ≠ o).
Context (qo held owned : queue) (w0 : World) (t : Z) (Ht : MONOTONIC_NOW w0 = Some t) (Hit : is_instant t).
Let cap := capacity (jit_queue c).
Let spec := jitter_spec c t (rng w0).
Let app_with (es : entries) : JitterApp := set_jit_queue (mkDelayQueue es cap) c.

(** The state of the loop: [sent] and [taken] so far, [xs] on the input. *)
Record jit_inv (n : nat) (es : entries) (sent taken xs : queue) (w : World) : Prop := {
  ji_winv : winv (io Q i xs o (link_txs qo sent)) ((held ++ taken) ++ owned) w;
  ji_env : env w = with_draws n (env w0);
  ji_borrowed : borrowed w = borrowed w0;
  ji_pkts : pkts es = (held ++ taken).*1;
}.

Lemma gen_rule n es s k xs w (Φ : f64 → World → Prop) :
  jit_inv n es s k xs w →
  (∀ w', jit_inv (S n) es s k xs w' → Φ (rng w0 n) w') → wpx E gen_f64 Φ w.
Proof.
  intros [Hw He Hb Hp] HΦ. unfold gen_f64, wpx.
  assert (rng w = rng w0 ∧ draws w = n) as [-> ->] by (unfold env, with_draws in He; by injection He).
  apply HΦ. unfold env, with_draws in He. injection He as H1 H2 H3 H4 H5 H6 H7.
  split; [by destruct Hw|unfold env, with_draws; simpl; congruence|done|done].
Qed.

Lemma jit_now n es s k xs w : jit_inv n es s k xs w → MONOTONIC_NOW w = Some t.
Proof. intros [_ He _ _]. unfold env, with_draws in He. injection He. congruence. Qed.

Lemma jit_receive n es s k p pk xs w :
  jit_inv n es s k ((p, pk) :: xs) w →
  wpx E (link_receive i) (λ p' w', p' = p ∧ env w' = env w ∧ borrowed w' = borrowed w ∧
    winv (io Q i xs o (link_txs qo s)) ((p, pk) :: (held ++ k) ++ owned) w') w.
Proof.
  intros [Hw _ _ _]. eapply wpx_mono; [by apply io_receive|]. intros p' w' (-> & Hw' & He).
  split_and!; [done|exact (same_env_env _ _ He)|by apply se_borrowed|done].
Qed.

Definition round_post (n : nat) (es : entries) (s k : queue) (x : loc * Packet) (xs : queue)
    (app' : JitterApp) (w' : World) : Prop :=
  ∃ n' es' s' k' xs', app' = app_with es' ∧ jit_inv n' es' (s ++ s') (k ++ k') xs' w' ∧
    spec n es (x :: xs) = prepend s' k' (spec n' es' xs') ∧
    (xs' = xs ∨ xs' = x :: xs ∧ cap ≤ Z.of_nat (length es')).

(** A packet goes into the queue. *)
Lemma jit_enqueue n es s k p pk xs w :
  jit_inv n es s k ((p, pk) :: xs) w → Z.of_nat (length es) < cap →
  wpx E (p ← link_receive i; q ← lift (enqueue_packet p (jit_queue (app_with es)));
         mret (set_jit_queue q (app_with es)))
    (λ app' w', app' = app_with (es ++ [Pkt p]) ∧ jit_inv n (es ++ [Pkt p]) s (k ++ [(p, pk)]) xs w') w.
Proof.
  intros HI Hl. apply wpx_bind. eapply wpx_mono; [by eapply jit_receive|].
  intros p' w1 (-> & He & Hb & Hw1). apply wpx_bind. eapply wpx_lift; [by apply push_back_ok|].
  apply wpx_ret. split; [done|]. destruct HI as [_ He0 Hb0 Hp0]. split; [|congruence..|].
  - eapply winv_perm; [exact Hw1|]. solve_perm.
  - rewrite pkts_app, Hp0, !fmap_app. simpl. by rewrite app_assoc.
Qed.

(** A packet overtakes the queue. *)
Lemma jit_forward n es s k p pk xs w :
  jit_inv n es s k ((p, pk) :: xs) w →
  wpx E (p ← link_receive i; link_transmit o p;; mret (app_with es))
    (λ app' w', app' = app_with es ∧ jit_inv n es (s ++ [(p, pk)]) k xs w') w.
Proof.
  intros HI. apply wpx_bind. eapply wpx_mono; [by eapply jit_receive|].
  intros p' w1 (-> & He & Hb & Hw1). apply wpx_bind.
  eapply wpx_mono; [by apply io_transmit|]. intros _ w2 [Hw2 He2]. apply wpx_ret. split; [done|].
  destruct HI as [_ He0 Hb0 Hp0]. split; [|rewrite (same_env_env _ _ He2); congruence|
    rewrite (se_borrowed _ _ He2); congruence|done].
  by rewrite link_txs_app.
Qed.

Lemma jit_full es : full (mkDelayQueue es cap) = bool_decide (cap ≤ Z.of_nat (length es)).
Proof.
  case_bool_decide as H; [by apply full_spec|]. destruct (full _) eqn:Hf; [|done]. by apply full_spec in Hf.
Qed.

Lemma jitter_round_wp n es s k x xs w :
  jit_inv n es s k (x :: xs) w → Z.of_nat (length es) < cap →
  wpx E (jitter_round i o (app_with es)) (round_post n es s k x xs) w.
Proof.
  destruct x as [p pk]. intros HI Hl. unfold jitter_round, round_post, spec. simpl.
  apply wpx_bind. eapply gen_rule; [exact HI|]. intros w1 HI1. fold cap.
  rewrite decide_False by lia. destruct (f64_lt (rng w0 n) (strength c)) eqn:Hj; cbn [negb andb].
  - (* a delay *)
    apply wpx_bind, wpx_bind. eapply gen_rule; [exact HI1|]. intros w2 HI2.
    apply wpx_bind. eapply now_rule; [by eapply jit_now|]. apply wpx_bind. eapply wpx_lift.
    { apply instant_add_ok; [done|]. pose proof (f64_as_u64_range (f64_mul (us c) (rng w0 (S n)))) as Hr.
      unfold is_u64 in Hr. lia. }
    apply wpx_bind. eapply wpx_lift; [by apply push_back_ok|]. apply wpx_ret. cbn [jit_queue set_jit_queue].
    fold (jitter_ttx c t (rng w0) (S n)). set (es1 := es ++ [Delay _]).
    change (set_jit_queue (mkDelayQueue es1 cap) (app_with es)) with (app_with es1).
    assert (jit_inv (S (S n)) es1 s k ((p, pk) :: xs) w2) as HI3.
    { destruct HI2. split; try done. unfold es1. rewrite pkts_app. simpl. by rewrite app_nil_r. }
    rewrite jit_full. case_bool_decide as Hf; simpl.
    + apply wpx_ret. exists (S (S n)), es1, [], [], ((p, pk) :: xs). rewrite !app_nil_r.
      rewrite decide_True by done. split_and!; [done|done| |by right]. simpl. fold cap. by rewrite decide_True by done.
    + eapply wpx_mono; [apply (jit_enqueue (S (S n)) es1 s k p pk xs w2); [exact HI3|lia]|].
      intros app' w' [-> HI']. exists (S (S n)), (es1 ++ [Pkt p]), [], [(p, pk)], xs.
      rewrite app_nil_r. rewrite decide_False by done. split_and!; [done|done|done|by left].
  - apply wpx_bind, wpx_ret. simpl. destruct (reorder c) eqn:Hre.
    + eapply wpx_mono; [by apply jit_forward|]. intros app' w' [-> HI'].
      exists (S n), es, [(p, pk)], [], xs. rewrite app_nil_r. split_and!; [done|done|done|by left].
    + rewrite jit_full, bool_decide_eq_false_2 by lia. simpl.
      eapply wpx_mono; [by apply jit_enqueue|]. intros app' w' [-> HI'].
      exists (S n), (es ++ [Pkt p]), [], [(p, pk)], xs. rewrite app_nil_r. split_and!; [done|done|done|by left].
Qed.

Lemma spec_end n es xs : xs = [] ∨ cap ≤ Z.of_nat (length es) → spec n es xs = mkJittered [] [] es xs n.
Proof. intros [->|Hl]; [done|]. destruct xs; [done|]. unfold spec. simpl. fold cap. by rewrite decide_True. Qed.

Definition loop_post (n : nat) (es : entries) (qi : queue) (app' : JitterApp) (w' : World) : Prop :=
  let j := spec n es qi in
  app' = app_with (jd_entries j) ∧ jit_inv (jd_draws j) (jd_entries j) (jd_sent j) (jd_taken j) (jd_rest j) w'.

Lemma jitter_loop_wp n es qi w :
  jit_inv n es [] [] qi w →
  wpx E (while_st (Z.to_nat Link.LINK_MAX_PACKETS)
      (λ app, b ← link_empty i; mret (negb b && negb (full (jit_queue app))))
      (jitter_round i o) (app_with es)) (loop_post n es qi) w.
Proof.
  intros HI.
  set (I := λ (rest : queue) (app' : JitterApp) w', ∃ n' es' s k xs, app' = app_with es' ∧
    jit_inv n' es' s k xs w' ∧ spec n es qi = prepend s k (spec n' es' xs) ∧
    (rest = xs ∨ cap ≤ Z.of_nat (length es'))).
  assert (∀ n' es' s k xs w', jit_inv n' es' s k xs w' → xs = [] ∨ cap ≤ Z.of_nat (length es') →
    spec n es qi = prepend s k (spec n' es' xs) → loop_post n es qi (app_with es') w') as Hend.
  { intros n' es' s k xs w' HI' Hd Heq. unfold loop_post. rewrite Heq, spec_end by done. simpl.
    rewrite !app_nil_r. done. }
  assert (∀ n' es' s k xs w', jit_inv n' es' s k xs w' →
    wpx E (b ← link_empty i; mret (negb b && negb (full (jit_queue (app_with es')))))
      (λ b s', s' = w' ∧ b = bool_decide (xs ≠ [] ∧ Z.of_nat (length es') < cap)) w') as Hcond.
  { intros n' es' s k xs w' HI'. apply wpx_bind. eapply link_empty_wp; [apply HI'|by apply io_input|].
    apply wpx_ret. split; [done|]. cbn [app_with jit_queue set_jit_queue]. rewrite jit_full.
    destruct xs; repeat case_bool_decide; simpl; done || (exfalso; naive_solver lia). }
  eapply (while_st_list E _ _ I).
  - intros app' w' (n' & es' & s & k & xs & -> & HI' & Heq & Hd).
    eapply wpx_mono; [by eapply Hcond|]. intros b s' [-> ->].
    assert (xs = [] ∨ cap ≤ Z.of_nat (length es')) as Hd' by naive_solver.
    split; [apply bool_decide_eq_false_2; naive_solver lia|by eapply Hend].
  - intros x rest app' w' (n' & es' & s & k & xs & -> & HI' & Heq & Hd).
    eapply wpx_mono; [by eapply Hcond|]. intros b s' [-> ->]. case_bool_decide as Hb.
    + destruct Hb as [Hne Hl]. destruct Hd as [<-|]; [|lia].
      eapply wpx_mono; [by apply jitter_round_wp|].
      intros app2 w2 (n2 & es2 & s2 & k2 & xs2 & -> & HI2 & Heq2 & Hd2).
      exists n2, es2, (s ++ s2), (k ++ k2), xs2. split_and!; [done|done| |naive_solver].
      by rewrite Heq, Heq2, prepend_app.
    + eapply Hend; [done| |done]. destruct (decide (xs = [])); [by left|right]. 
      destruct (decide (cap ≤ Z.of_nat (length es'))); [done|]. exfalso. apply Hb. split; [done|lia].
  - exists n, es, [], [], qi. split_and!; [done|done| |by left]. by destruct (spec n es qi).
  - pose proof (winv_link_bound _ _ _ i qi (ji_winv _ _ _ _ _ _ HI) (io_input _ _ _ Hio _ _)). lia.
Qed.
End jitter_push.

(** No packet is lost, the capacity is kept, and a delay without a packet behind
    it is left only at the end of a full queue. *)
Lemma jitter_spec_props c t r : ∀ xs n es,
  let j := jitter_spec c t r n es xs in let cap := capacity (jit_queue c) in
  xs ≡ₚ jd_sent j ++ jd_taken j ++ jd_rest j ∧
  (reorder c = false → jd_sent j = [] ∧ xs = jd_taken j ++ jd_rest j) ∧
  (Z.of_nat (length es) ≤ cap → Z.of_nat (length (jd_entries j)) ≤ cap) ∧
  (wf_entries es → wf_entries (jd_entries j) ∨ cap ≤ Z.of_nat (length (jd_entries j))).
Proof.
  induction xs as [|[p pk] xs IH]; intros n es; simpl; [by split_and!; [|tauto..]|].
  case_decide as Hc; simpl; [split_and!; [done..|tauto]|].
  destruct (f64_lt (r n) (strength c)).
  - case_decide as Hc'; simpl.
    + split_and!; [done..| |tauto]. rewrite length_app in *. simpl in *. lia.
    + destruct (IH (S (S n)) ((es ++ [Delay (jitter_ttx c t r (S n))]) ++ [Pkt p])) as (Hp & Hr & Hl & Hw).
      rewrite !length_app in *. simpl in *. split_and!.
      * rewrite Hp at 1. solve_perm.
      * intros Hre. destruct (Hr Hre) as [-> Hx]. split; [done|]. by rewrite Hx at 1.
      * intros _. apply Hl. lia.
      * intros Hwf. apply Hw. rewrite <-app_assoc. by apply wf_entries_app.
  - destruct (reorder c) eqn:Hre.
    + destruct (IH (S n) es) as (Hp & _ & Hl & Hw). simpl. split_and!; [|done|done|done].
      rewrite Hp at 1. solve_perm.
    + destruct (IH (S n) (es ++ [Pkt p])) as (Hp & Hr & Hl & Hw). rewrite !length_app in *. simpl in *. split_and!.
      * rewrite Hp at 1. solve_perm.
      * intros _. destruct (Hr eq_refl) as [-> Hx]. split; [done|]. by rewrite Hx at 1.
      * intros _. apply Hl. lia.
      * intros Hwf. apply Hw. by apply wf_entries_app.
Qed.

Lemma jitter_push_wp E c es ports i o Q qi qo held owned w t :
  input ports !! "input" = Some i → output ports !! "output" = Some o → i ≠ o →
  (i ∉ borrowed w) → (o ∉ borrowed w) → winv (io Q i qi o qo) (held ++ owned) w →
  MONOTONIC_NOW w = Some t → is_instant t → pkts es = held.*1 → packets (jit_queue c) = es →
  let cap := capacity (jit_queue c) in
  wpx E (push c ports)
    (λ c' w', let j := jitter_spec c t (rng w) (draws w) es qi in
       c' = set_jit_queue (mkDelayQueue (jd_entries j) cap) c ∧
       winv (io Q i (jd_rest j) o (link_txs qo (jd_sent j))) ((held ++ jd_taken j) ++ owned) w' ∧
       pkts (jd_entries j) = (held ++ jd_taken j).*1 ∧ env w' = with_draws (jd_draws j) (env w) ∧ borrowed w' = borrowed w ∧
       qi ≡ₚ jd_sent j ++ jd_taken j ++ jd_rest j ∧
       (reorder c = false → jd_sent j = [] ∧ qi = jd_taken j ++ jd_rest j) ∧
       (Z.of_nat (length es) ≤ cap → Z.of_nat (length (jd_entries j)) ≤ cap) ∧
       (wf_entries es → wf_entries (jd_entries j) ∨ cap ≤ Z.of_nat (length (jd_entries j)))) w.
Proof.
  intros Hi Ho Hio Hbi Hbo Hw Ht Hit Hh Hes cap. simpl. unfold jitter_push.
  eapply io_scope_wp; [done..|]. intros w1 Hw1.
  assert (c = set_jit_queue (mkDelayQueue es cap) c) as Hc by (unfold cap; rewrite <-Hes; by destruct c as [? ? ? []]).
  rewrite Hc at 1. eapply wpx_mono.
  { eapply (jitter_loop_wp E c Q i o Hio qo held owned w1 t); [by subst|done|].
    subst w1. split; [rewrite app_nil_r; by apply winv_set_borrowed|by unfold env, with_draws|done|by rewrite app_nil_r]. }
  intros c' w2 [-> [Hw2 He Hb Hp]]. subst w1. simpl in *. split; [done|].
  pose proof (jitter_spec_props c t (rng w) qi (draws w) es) as Hprops. cbv zeta in *.
  split_and!; try done; try apply Hprops; by apply winv_set_borrowed.
Qed.

(** C15. Jitter, one push at time [t]: the app takes packets while its queue has
    room; each costs a draw, and a second one when the first is below the
    strength, for a delay in front of it; with [reorder] the packets without
    delay overtake the queue ([jitter_spec] says which).  No packet is lost or
    duplicated, packets keep their order without [reorder], the queue
    never exceeds its capacity, and only a full queue can end in a delay. *)
Theorem jitter_push_spec E c es ports i o Q qi qo held owned w t :
  input ports !! "input" = Some i → output ports !! "output" = Some o → i ≠ o →
  (i ∉ borrowed w) → (o ∉ borrowed w) → winv (io Q i qi o qo) (held ++ owned) w →
  MONOTONIC_NOW w = Some t → is_instant t → pkts es = held.*1 → packets (jit_queue c) = es →
  let cap := capacity (jit_queue c) in
  wpx E (push c ports)
    (λ c' w', let j := jitter_spec c t (rng w) (draws w) es qi in
       c' = set_jit_queue (mkDelayQueue (jd_entries j) cap) c ∧
       winv (io Q i (jd_rest j) o (link_txs qo (jd_sent j))) ((held ++ jd_taken j) ++ owned) w' ∧
       pkts (jd_entries j) = (held ++ jd_taken j).*1 ∧ env w' = with_draws (jd_draws j) (env w) ∧ borrowed w' = borrowed w ∧
       qi ≡ₚ jd_sent j ++ jd_taken j ++ jd_rest j ∧
       (reorder c = false → jd_sent j = [] ∧ qi = jd_taken j ++ jd_rest j) ∧
       (Z.of_nat (length es) ≤ cap → Z.of_nat (length (jd_entries j)) ≤ cap) ∧
       (wf_entries es → wf_entries (jd_entries j) ∨ cap ≤ Z.of_nat (length (jd_entries j)))) w.
Proof. apply jitter_push_wp. Qed.

Lemma jitter_push_spec_witness :
  ∃ w q, q.*2 = [sample_60; sample_60] ∧
    let c := Jitter_new (mkJitter 10 f64_one true 50) in
    wp (push c io_ports)
      (λ c' w', let j := jitter_spec c 0 (rng w) (draws w) [] q in
         c' = set_jit_queue (mkDelayQueue (jd_entries j) 50) c ∧
         winv (io ∅ 1 (jd_rest j) 2 (link_txs [] (jd_sent j))) (([] ++ jd_taken j) ++ []) w' ∧
         pkts (jd_entries j) = ([] ++ jd_taken j).*1 ∧ env w' = with_draws (jd_draws j) (env w) ∧ borrowed w' = borrowed w ∧
         q ≡ₚ jd_sent j ++ jd_taken j ++ jd_rest j ∧
         (true = false → jd_sent j = [] ∧ q = jd_taken j ++ jd_rest j) ∧
         (0 ≤ 50 → Z.of_nat (length (jd_entries j)) ≤ 50) ∧
         (True → wf_entries (jd_entries j) ∨ 50 ≤ Z.of_nat (length (jd_entries j)))) w.
Proof.
  destruct (sample_world 0 (λ _, f64_zero)) as (w & q & Hw & Hq & Hb & Ht & _). exists w, q. split; [exact Hq|].
  apply (jitter_push_spec no_panic (Jitter_new (mkJitter 10 f64_one true 50)) [] io_ports 1 2 ∅ q [] [] [] w 0);
    [done|done|done|by rewrite Hb|by rewrite Hb|exact Hw|done|done|done|done].
Defined.
