(* ===== verification/BasicApps.v ===== *)
(** * basic_apps.rs: the apps Source, Sink, Join and Tee

    These apps work on all of their links, in the unspecified order of a
    HashMap ([HashOrder]). *)

From S2P Require Import Prelude Bytes Lib Packet App Qos.
From S2P Require Link.
#[local] Open Scope Z_scope.

Section apps.
Context `{HashOrder}.

(** { let mut link = link.borrow_mut(); m } *)
Definition borrowing (l : link_id) (m : ST World ()) : ST World () :=
  borrow_mut l;; m;; release l.

(** while !link::empty(&input) { body(link::receive(&mut input)) } *)
Definition drain_each (l : link_id) (body : loc → ST World ()) : ST World () :=
  drain l (λ _, body) tt.

Record Source : Type := mkSource { conf_size : Z }.
Record SourceApp : Type := mkSourceApp { size : Z }.
Definition Source_new (conf : Source) : SourceApp := mkSourceApp (conf_size conf).

Definition source_packet (app : SourceApp) (output : link_id) : ST World () :=
  p ← on_mem allocate;
  pk ← on_mem (deref p);
  on_mem (write p (mkPacket (size app) (fill (p_data pk) (Z.to_nat (size app)) 0)));;
  link_transmit output p.

Definition source_pull (app : SourceApp) (ports : Ports) : ST World SourceApp :=
  for_st (values (output ports)) (λ output,
    borrowing output (repeat_st PULL_NPACKETS (source_packet app output)));;
  mret app.

Inductive SinkApp : Type := mkSinkApp.
Definition Sink_new : SinkApp := mkSinkApp.

Definition sink_push (app : SinkApp) (ports : Ports) : ST World SinkApp :=
  for_st (values (input ports)) (λ input,
    borrowing input (drain_each input (λ p, on_mem (free p))));;
  mret app.

Inductive JoinApp : Type := mkJoinApp.
Definition Join_new : JoinApp := mkJoinApp.

Definition join_push (app : JoinApp) (ports : Ports) : ST World JoinApp :=
  (match output ports !! "output" with
   | Some output =>
       borrowing output
         (for_st (values (input ports)) (λ input,
            borrowing input (drain_each input (link_transmit output))))
   | None => mret tt
   end);;
  mret app.

Inductive TeeApp : Type := mkTeeApp.
Definition Tee_new : TeeApp := mkTeeApp.

Definition tee_packet (ports : Ports) (p : loc) : ST World () :=
  for_st (values (output ports)) (λ output,
    borrowing output (c ← on_mem (clone p); link_transmit output c));;
  on_mem (free p).

Definition tee_push (app : TeeApp) (ports : Ports) : ST World TeeApp :=
  for_st (values (input ports)) (λ input,
    borrowing input (drain_each input (tee_packet ports)));;
  mret app.

#[export] Instance SourceApp_App : App SourceApp := {|
  has_pull _ := true; pull := source_pull;
  has_push _ := false; push := no_push;
  has_stop _ := false; stop := no_stop
|}.
#[export] Instance SinkApp_App : App SinkApp := {|
  has_pull _ := false; pull := no_pull;
  has_push _ := true; push := sink_push;
  has_stop _ := false; stop := no_stop
|}.
#[export] Instance JoinApp_App : App JoinApp := {|
  has_pull _ := false; pull := no_pull;
  has_push _ := true; push := join_push;
  has_stop _ := false; stop := no_stop
|}.
#[export] Instance TeeApp_App : App TeeApp := {|
  has_pull _ := false; pull := no_pull;
  has_push _ := true; push := tee_push;
  has_stop _ := false; stop := no_stop
|}.

(** ** Rules *)

Lemma borrowing_wp E l (m : ST World ()) (Φ : () → World → Prop) w :
  l ∉ borrowed w →
  wpx E m (λ _ w2, borrowed w2 = {[l]} ∪ borrowed w ∧ Φ tt (set_borrowed (borrowed w) w2))
    (set_borrowed ({[l]} ∪ borrowed w) w) →
  wpx E (borrowing l m) Φ w.
Proof.
  intros Hl Hm. unfold borrowing. apply wpx_bind. unfold borrow_mut, wpx at 1. rewrite decide_False by done.
  apply wpx_bind. eapply wpx_mono; [exact Hm|]. intros [] w2 [Hb HΦ]. unfold release. wp_step.
  unfold set_borrowed in *. simpl in *. rewrite Hb.
  replace (({[l]} ∪ borrowed w) ∖ {[l]}) with (borrowed w) by set_solver. exact HΦ.
Qed.

(** ** The links in a list, emptied *)

Definition emptied (ls : list link_id) (Q : queues) : queues := foldl (λ Q l, <[l := []]> Q) Q ls.
Definition queue_of (Q : queues) (l : link_id) : queue := default [] (Q !! l).

Lemma emptied_snoc ls l Q : emptied (ls ++ [l]) Q = <[l:=[]]> (emptied ls Q).
Proof. unfold emptied. by rewrite foldl_app. Qed.

Lemma lookup_emptied ls l Q : emptied ls Q !! l = if decide (l ∈ ls) then Some [] else Q !! l.
Proof.
  induction ls as [|l' ls IH] using rev_ind; [done|]. rewrite emptied_snoc.
  destruct (decide (l = l')) as [->|Hne].
  - rewrite lookup_insert_eq, decide_True by set_solver. done.
  - rewrite lookup_insert_ne, IH by done. repeat case_decide; set_solver.
Qed.

(** ** Sink *)

Lemma sink_drain E l Q q owned w :
  winv (<[l:=q]> Q) owned w →
  wpx E (drain_each l (λ p, on_mem (free p))) (λ _ w', winv (<[l:=[]]> Q) owned w' ∧ same_env w w') w.
Proof.
  intros Hw. unfold drain_each.
  apply (drain_wp E l (λ _ p, on_mem (free p)) (λ q _ w', winv (<[l:=q]> Q) owned w' ∧ same_env w w') q).
  - intros q' [] w' [Hw' _]. exists (<[l:=q']> Q), owned. split; [done|apply lookup_insert_eq].
  - intros p pk q' [] w' [Hw' He]. apply wpx_bind.
    eapply wpx_mono; [eapply link_receive_wp; [exact Hw'|apply lookup_insert_eq]|].
    intros p' w1 (-> & Hw1 & He1). rewrite insert_insert_eq in Hw1.
    eapply wpx_mono; [by eapply free_rule|]. intros _ w2 [Hw2 He2]. split; [done|]. etrans; [done|by etrans].
  - by split.
Qed.

(** Borrowing a link for a computation that leaves the environment alone. *)
Lemma borrowing_env E l (m : ST World ()) (Φ : World → Prop) w :
  l ∉ borrowed w →
  wpx E m (λ _ w2, same_env (set_borrowed ({[l]} ∪ borrowed w) w) w2 ∧ Φ (set_borrowed (borrowed w) w2))
    (set_borrowed ({[l]} ∪ borrowed w) w) →
  wpx E (borrowing l m) (λ _ w', same_env w w' ∧ Φ w') w.
Proof.
  intros Hl Hm. apply borrowing_wp; [done|]. eapply wpx_mono; [exact Hm|]. intros [] w2 [[] HΦ].
  split; [done|]. split; [by split|done].
Qed.

(** What the app can reach: its links exist and nobody has borrowed them. *)
Record reachable (ls : list link_id) (Q : queues) (w : World) : Prop := {
  re_links : ∀ l, l ∈ ls → is_Some (Q !! l);
  re_free : ∀ l, l ∈ ls → l ∉ borrowed w;
}.

Lemma sink_push_wp E app ports Q owned w :
  let ins := values (input ports) in
  winv Q owned w → reachable ins Q w →
  wpx E (sink_push app ports) (λ app' w', app' = app ∧ winv (emptied ins Q) owned w' ∧ same_env w w') w.
Proof.
  intros ins Hw [Hl Hb]. unfold sink_push. fold ins. clearbody ins. apply wpx_bind. eapply wpx_mono.
  - eapply (for_st_inv E _ (λ ds rest w', ds ++ rest = ins ∧ winv (emptied ds Q) owned w' ∧ same_env w w')) with (xs := ins) (done := []).
    2: { split_and!; [reflexivity|exact Hw|done]. }
    intros ds l rest w1 (Heq & Hw1 & He1). rewrite <-app_assoc.
    assert (l ∈ ins) as Hin by (rewrite <-Heq; set_solver). destruct (Hl l Hin) as [q Hq].
    assert (∃ q', emptied ds Q !! l = Some q') as [q' Hq'].
    { rewrite lookup_emptied. case_decide; eauto. }
    eapply wpx_mono; [apply (borrowing_env E l _ (winv (emptied (ds ++ [l]) Q) owned))|].
    + rewrite (se_borrowed _ _ He1). by apply Hb.
    + eapply wpx_mono; [apply (sink_drain E l (emptied ds Q) q' owned);
        rewrite insert_id by done; by apply winv_set_borrowed|].
      intros _ w2 [Hw2 He2]. split; [done|]. rewrite emptied_snoc. by apply winv_set_borrowed.
    + intros _ w2 [He2 Hw2]. split_and!; [done|done|by etrans].
  - intros _ w' (_ & Hw' & He). by apply wpx_ret.
Qed.

(** ** Join *)

Definition pass : transfer () := λ a e x out a' e', out = [x] ∧ e' = e.

Lemma forwards_pass a e xs outs a' e' : forwards pass a e xs outs a' e' → outs = xs ∧ e' = e.
Proof. induction 1 as [|a1 e1 x out a2 e2 xs outs a3 e3 [-> ->] _ [-> ->]]; by simpl. Qed.

Lemma join_drain E l o Q q qo owned w :
  l ≠ o → winv (io Q l q o qo) owned w →
  wpx E (drain_each l (link_transmit o))
    (λ _ w', winv (io Q l [] o (link_txs qo q)) owned w' ∧ same_env w w') w.
Proof.
  intros Hne Hw. unfold drain_each.
  eapply wpx_mono; [apply (drain_forwards E Q l o Hne (λ _ : (), link_transmit o) pass (λ _ _, True) (λ _, True) tt q qo owned)|].
  - intros [] q1 q2 p pk owned' w' Hw' _ _. eapply wpx_mono; [by apply io_transmit|].
    intros [] w2 [Hw2 He2]. exists [(p, pk)]. split; [split; [done|by apply same_env_env]|]. split_and!; [done|by apply se_borrowed|done].
  - done.
  - done.
  - by apply Forall_true.
  - intros [] w' (outs & Hf & _ & Hb & Hw'). apply forwards_pass in Hf as [-> He]. split; [done|].
    by apply same_env_intro.
Qed.

Lemma join_push_wp E (app : JoinApp) ports Q owned w :
  let ins := values (input ports) in
  winv Q owned w → reachable ins Q w → NoDup ins →
  (∀ o, output ports !! "output" = Some o → is_Some (Q !! o) ∧ (o ∉ borrowed w) ∧ (o ∉ ins)) →
  wpx E (push app ports)
    (λ app' w', app' = app ∧ same_env w w' ∧
       match output ports !! "output" with
       | Some o => winv (<[o := link_txs (queue_of Q o) (concat (queue_of Q <$> ins))]> (emptied ins Q)) owned w'
       | None => w' = w
       end) w.
Proof.
  intros ins Hw [Hl Hb] Hnd Hout. simpl. unfold join_push. destruct (output ports !! "output") as [o|].
  2: { apply wpx_bind, wpx_ret, wpx_ret. by repeat split. }
  destruct (Hout o eq_refl) as ([qo Hqo] & Hbo & Hno).
  assert (queue_of Q o = qo) as -> by (unfold queue_of; by rewrite Hqo).
  fold ins. clearbody ins. apply wpx_bind.
  set (after := λ ds, <[o := link_txs qo (concat (queue_of Q <$> ds))]> (emptied ds Q)).
  eapply wpx_mono; [apply (borrowing_env E o _ (winv (after ins) owned)); [done|]|].
  - set (w0 := set_borrowed ({[o]} ∪ borrowed w) w). eapply wpx_mono.
    + eapply (for_st_inv E _ (λ ds rest w', ds ++ rest = ins ∧ winv (after ds) owned w' ∧ same_env w0 w')) with (xs := ins) (done := []).
      2: { split_and!; [reflexivity| |done]. unfold after. simpl. rewrite insert_id by done. by apply winv_set_borrowed. }
      intros ds l rest w1 (Heq & Hw1 & He1). rewrite <-app_assoc.
      assert (l ∈ ins) as Hin by (rewrite <-Heq; set_solver). destruct (Hl l Hin) as [q Hq].
      assert (l ≠ o) as Hne by (intros ->; done).
      assert (l ∉ ds) as Hnds.
      { rewrite <-Heq in Hnd. apply NoDup_app in Hnd as (_ & Hd & _). intros Hx. apply (Hd l Hx). left. }
      assert (emptied ds Q !! l = Some q) as Hql by (rewrite lookup_emptied, decide_False by done; done).
      eapply wpx_mono; [apply (borrowing_env E l _ (winv (after (ds ++ [l])) owned))|].
      * rewrite (se_borrowed _ _ He1). simpl. specialize (Hb l Hin). set_solver.
      * eapply wpx_mono; [apply (join_drain E l o (emptied ds Q) q (link_txs qo (concat (queue_of Q <$> ds))) owned _ Hne)|].
        { unfold io. rewrite (insert_id _ l q) by done. by apply winv_set_borrowed. }
        intros _ w2 [Hw2 He2]. split; [done|]. unfold after, io in *.
        rewrite emptied_snoc, fmap_app, concat_app, link_txs_app. simpl. rewrite app_nil_r.
        assert (queue_of Q l = q) as -> by (unfold queue_of; by rewrite Hq). by apply winv_set_borrowed.
      * intros _ w2 [He2 Hw2]. split_and!; [done|done|by etrans].
    + intros _ w2 (_ & Hw2 & He2). split; [done|]. by apply winv_set_borrowed.
  - intros _ w' [He Hw']. apply wpx_ret. by split_and!.
Qed.
(** C26. Join moves all packets of its inputs to its output, those of one input
    after those of another, in their order, and leaves the inputs empty: no
    packet is lost (but for what does not fit on the output link), duplicated
    or changed.  Without an output it does nothing. *)
Theorem join_push_merges E (app : JoinApp) ports Q owned w :
  let ins := values (input ports) in
  winv Q owned w → reachable ins Q w → NoDup ins →
  (∀ o, output ports !! "output" = Some o → is_Some (Q !! o) ∧ (o ∉ borrowed w) ∧ (o ∉ ins)) →
  wpx E (push app ports)
    (λ app' w', app' = app ∧ same_env w w' ∧
       match output ports !! "output" with
       | Some o => winv (<[o := link_txs (queue_of Q o) (concat (queue_of Q <$> ins))]> (emptied ins Q)) owned w'
       | None => w' = w
       end) w.
Proof. apply join_push_wp. Qed.

(** ** Links that are appended to *)

(** The links [outs] each got some packets that satisfy [S]. *)
Record appended (S : queue → Prop) (outs : list link_id) (Q Q' : queues) : Prop := {
  ap_dom : dom Q' = dom Q;
  ap_outs : ∀ o, o ∈ outs → ∃ xs, S xs ∧ Q' !! o = Some (link_txs (queue_of Q o) xs);
  ap_rest : ∀ l, l ∉ outs → Q' !! l = Q !! l;
}.

Lemma appended_compose S1 S2 S outs Q Q1 Q2 :
  appended S1 outs Q Q1 → appended S2 outs Q1 Q2 → (∀ xs ys, S1 xs → S2 ys → S (xs ++ ys)) →
  appended S outs Q Q2.
Proof.
  intros [D1 O1 R1] [D2 O2 R2] HS. split; [congruence| |].
  - intros o Ho. destruct (O1 o Ho) as (xs & Hx & Hq1). destruct (O2 o Ho) as (ys & Hy & Hq2).
    exists (xs ++ ys). split; [by apply HS|]. rewrite Hq2. unfold queue_of at 1. rewrite Hq1. simpl.
    by rewrite link_txs_app.
  - intros l Hl. by rewrite R2, R1.
Qed.

Lemma appended_insert S outs Q Q' l q : l ∉ outs → appended S outs Q Q' → appended S outs (<[l:=q]> Q) (<[l:=q]> Q').
Proof.
  intros Hl [HD HO HR]. split.
  - by rewrite !dom_insert_L, HD.
  - intros o Ho. assert (l ≠ o) by (by intros ->). destruct (HO o Ho) as (xs & Hx & Hq). exists xs.
    unfold queue_of. by rewrite !lookup_insert_ne by done.
  - intros l' Hl'. destruct (decide (l = l')) as [<-|]; [by rewrite !lookup_insert_eq|].
    rewrite !lookup_insert_ne by done. by apply HR.
Qed.

Lemma appended_nil S outs Q : S [] → (∀ o, o ∈ outs → is_Some (Q !! o)) → appended S outs Q Q.
Proof.
  intros HS Ho. split; [done| |done]. intros o Hin. exists []. split; [done|].
  destruct (Ho o Hin) as [q Hq]. unfold queue_of. by rewrite Hq.
Qed.

(** One link after the other. *)
Lemma each_output_wp E outs (m : link_id → ST World ()) (S : queue → Prop) Q owned w :
  NoDup outs → reachable outs Q w → winv Q owned w →
  (∀ o q Q1 w1, Q1 !! o = Some q → winv Q1 owned w1 →
     wpx E (m o) (λ _ w2, ∃ xs, S xs ∧ winv (<[o := link_txs q xs]> Q1) owned w2 ∧ same_env w1 w2) w1) →
  wpx E (for_st outs (λ o, borrowing o (m o)))
    (λ _ w', ∃ Q', appended S outs Q Q' ∧ winv Q' owned w' ∧ same_env w w') w.
Proof.
  intros Hnd [Hl Hb] Hw Hm. eapply wpx_mono.
  - eapply (for_st_inv E _ (λ ds rest w', ds ++ rest = outs ∧ ∃ Q', appended S ds Q Q' ∧ winv Q' owned w' ∧ same_env w w'))
      with (xs := outs) (done := []).
    2: { split; [done|]. exists Q. split_and!; [|done|done]. split; [done|by intros o ?%not_elem_of_nil|done]. }
    intros ds o rest w1 (Heq & Q1 & [HD HO HR] & Hw1 & He1). rewrite <-app_assoc.
    assert (o ∈ outs) as Hin by (rewrite <-Heq; set_solver). destruct (Hl o Hin) as [q Hq].
    assert (o ∉ ds) as Hno.
    { rewrite <-Heq in Hnd. apply NoDup_app in Hnd as (_ & Hd & _). intros Hx. apply (Hd o Hx). left. }
    eapply wpx_mono; [apply (borrowing_env E o _ (λ w', ∃ Q', appended S (ds ++ [o]) Q Q' ∧ winv Q' owned w'))|].
    + rewrite (se_borrowed _ _ He1). by apply Hb.
    + eapply wpx_mono; [apply (Hm o q Q1); [by rewrite HR|by apply winv_set_borrowed]|].
      intros _ w2 (xs & Hx & Hw2 & He2). split; [done|]. exists (<[o:=link_txs q xs]> Q1).
      split; [|by apply winv_set_borrowed]. split.
      * rewrite dom_insert_L, HD. assert (o ∈ dom Q) by (by eapply elem_of_dom_2). set_solver.
      * intros o'. rewrite elem_of_app, list_elem_of_singleton. intros [Ho'| ->].
        -- assert (o ≠ o') by (by intros ->). rewrite lookup_insert_ne by done. by apply HO.
        -- exists xs. rewrite lookup_insert_eq. split; [done|]. unfold queue_of. by rewrite Hq.
      * intros l Hnl. rewrite lookup_insert_ne by set_solver. apply HR. set_solver.
    + intros _ w2 [He2 HQ2]. split; [done|]. destruct HQ2 as (Q2 & Ha2 & Hw2). exists Q2. split_and!; [done|done|by etrans].
  - by intros _ w' (_ & HQ).
Qed.

(** ** Source *)

(** A packet of [size] zeros. *)
Definition blank (size : Z) (x : loc * Packet) : Prop :=
  p_length x.2 = size ∧ take (Z.to_nat size) (p_data x.2) = replicate (Z.to_nat size) 0 ∧ wf_packet x.2.

Lemma source_packet_wp app o q Q owned w :
  is_u16 (size app) → Q !! o = Some q → winv Q owned w →
  wpx overflow (source_packet app o)
    (λ _ w', ∃ x, blank (size app) x ∧ winv (<[o := link_tx q x]> Q) owned w' ∧ same_env w w') w.
Proof.
  intros Hs Hq Hw. unfold source_packet. apply wpx_bind. eapply wpx_mono; [by apply allocate_rule|].
  intros p w1 (pk & _ & Hwf & Hw1 & He1). apply wpx_bind. eapply deref_rule; [exact Hw1|]. apply wpx_bind.
  pose proof Hwf as (_ & Hl & Hb). pose proof payload_size_z as Hps. unfold is_u16 in Hs.
  assert (fill (p_data pk) (Z.to_nat (size app)) 0 =
    replicate (Z.to_nat (size app)) 0 ++ drop (Z.to_nat (size app)) (p_data pk)) as Hf.
  { unfold fill. by rewrite Nat.min_l by lia. }
  set (pk' := mkPacket _ _). assert (blank (size app) (p, pk')) as Hbl.
  { split_and!; simpl; [done|by rewrite Hf, take_app_length'; [|by rewrite length_replicate]|].
    split_and!; simpl; [done|rewrite Hf, length_app, length_replicate, length_drop; lia|].
    rewrite Hf. apply Forall_app_2; [apply Forall_replicate; word|by apply Forall_drop]. }
  eapply wpx_mono; [eapply write_rule; [exact Hw1|apply Hbl]|]. intros _ w2 [Hw2 He2].
  eapply wpx_mono; [by eapply link_transmit_wp|]. intros _ w3 [Hw3 He3].
  exists (p, pk'). split_and!; [done|done|]. etrans; [done|by etrans].
Qed.

Lemma source_pull_wp app ports Q owned w :
  let outs := values (output ports) in
  is_u16 (size app) → NoDup outs → reachable outs Q w → winv Q owned w →
  wpx overflow (source_pull app ports) (λ app' w', app' = app ∧ same_env w w' ∧ ∃ Q', winv Q' owned w' ∧
    appended (λ xs, length xs = PULL_NPACKETS ∧ Forall (blank (size app)) xs) outs Q Q') w.
Proof.
  intros outs Hs Hnd Hr Hw. unfold source_pull. fold outs. apply wpx_bind. eapply wpx_mono.
  - apply (each_output_wp _ _ _ (λ xs, length xs = PULL_NPACKETS ∧ Forall (blank (size app)) xs) Q owned); [done|done|done|]. intros o q Q1 w1 Hq Hw1.
    eapply wpx_mono; [apply (repeat_st_inv _ _ (λ k w', ∃ xs, length xs = k ∧ Forall (blank (size app)) xs ∧
      winv (<[o := link_txs q xs]> Q1) owned w' ∧ same_env w1 w'))|].
    + exists []. simpl. rewrite insert_id by done. by split_and!.
    + intros k w2 Hk (xs & Hl & Hf & Hw2 & He2).
      eapply wpx_mono; [by eapply (source_packet_wp app o); [|apply lookup_insert_eq|]|].
      intros _ w3 (x & Hx & Hw3 & He3). rewrite insert_insert_eq in Hw3. exists (xs ++ [x]).
      rewrite length_app, link_txs_app. simpl. split_and!; [lia|by apply Forall_app_2; [|constructor]|done|by etrans].
    + intros _ w2 (xs & Hl & Hf & Hw2 & He2). by exists xs.
  - intros _ w' (Q' & Ha & Hw' & He). apply wpx_ret. split_and!; [done|done|]. by exists Q'.
Qed.

(** ** Tee *)

Definition copy_of (x c : loc * Packet) : Prop := same_frame x.2 c.2 ∧ wf_packet c.2.

Lemma tee_packet_wp ports p pk Q owned w :
  let outs := values (output ports) in
  NoDup outs → reachable outs Q w → winv Q ((p, pk) :: owned) w →
  wpx overflow (tee_packet ports p)
    (λ _ w', ∃ Q', appended (Forall2 copy_of [(p, pk)]) outs Q Q' ∧ winv Q' owned w' ∧ same_env w w') w.
Proof.
  intros outs Hnd Hr Hw. unfold tee_packet. fold outs. apply wpx_bind. eapply wpx_mono.
  - apply (each_output_wp _ _ _ (Forall2 copy_of [(p, pk)]) Q ((p, pk) :: owned)); [done|done|done|].
    intros o q Q1 w1 Hq Hw1. apply wpx_bind. eapply wpx_mono; [eapply clone_rule; [exact Hw1|left]|].
    intros c w2 (cpk & Hf & Hwf & Hw2 & He2). eapply wpx_mono; [by eapply link_transmit_wp|].
    intros _ w3 [Hw3 He3]. exists [(c, cpk)]. split_and!; [|done|by etrans]. constructor; [done|constructor].
  - intros _ w1 (Q' & Ha & Hw1 & He1). eapply wpx_mono; [by eapply free_rule|].
    intros _ w2 [Hw2 He2]. exists Q'. split_and!; [done|done|by etrans].
Qed.

Lemma reachable_dom outs Q Q' w w' :
  reachable outs Q w → dom Q' = dom Q → borrowed w' = borrowed w → reachable outs Q' w'.
Proof.
  intros [Hl Hb] HD HB. split; intros l Hin; [|rewrite HB; by apply Hb].
  apply elem_of_dom. rewrite HD. by apply elem_of_dom, Hl.
Qed.

Lemma tee_drain ports l q Q owned w :
  let outs := values (output ports) in
  NoDup outs → l ∉ outs → reachable outs (<[l:=[]]> Q) w → winv (<[l:=q]> Q) owned w →
  wpx overflow (drain_each l (tee_packet ports))
    (λ _ w', ∃ Q', appended (Forall2 copy_of q) outs (<[l:=[]]> Q) Q' ∧ winv Q' owned w' ∧ same_env w w') w.
Proof.
  intros outs Hnd Hl Hr Hw. unfold drain_each.
  eapply wpx_mono; [apply (drain_wp _ l (λ _, tee_packet ports) (λ rest _ w', ∃ ds Q', q = ds ++ rest ∧
    appended (Forall2 copy_of ds) outs (<[l:=[]]> Q) Q' ∧ winv (<[l:=rest]> Q') owned w' ∧ same_env w w') q)|].
  - intros rest _ w1 (ds & Q' & _ & _ & Hw1 & _). exists (<[l:=rest]> Q'), owned. split; [done|apply lookup_insert_eq].
  - intros p pk rest _ w1 (ds & Q' & -> & Ha & Hw1 & He1). apply wpx_bind.
    eapply wpx_mono; [eapply link_receive_wp; [exact Hw1|apply lookup_insert_eq]|].
    intros p' w2 (-> & Hw2 & He2). rewrite insert_insert_eq in Hw2.
    eapply wpx_mono; [apply (tee_packet_wp ports p pk (<[l:=rest]> Q') owned); [done| |exact Hw2]|].
    { eapply reachable_dom; [exact Hr| |rewrite (se_borrowed _ _ He2); by apply He1].
      rewrite dom_insert_L, (ap_dom _ _ _ _ Ha), !dom_insert_L. set_solver. }
    intros _ w3 (Q'' & Ha'' & Hw3 & He3).
    assert (Q'' !! l = Some rest) as Hlr by (rewrite (ap_rest _ _ _ _ Ha'') by done; apply lookup_insert_eq).
    assert (Q' !! l = Some []) as Hl' by (rewrite (ap_rest _ _ _ _ Ha) by done; apply lookup_insert_eq).
    exists (ds ++ [(p, pk)]), (<[l:=[]]> Q''). rewrite <-app_assoc, (insert_insert_eq Q''), (insert_id Q'' l rest) by done.
    split_and!; [done| |done|etrans; [done|by etrans]].
    eapply appended_compose; [exact Ha| |intros xs ys; apply Forall2_app].
    rewrite <-(insert_id Q' l []) by done. rewrite <-(insert_insert_eq Q' l [] rest).
    by apply appended_insert.
  - exists [], (<[l:=[]]> Q). split_and!; [done| |by rewrite insert_insert_eq|done].
    apply appended_nil; [constructor|]. apply Hr.
  - intros _ w' (ds & Q' & Heq & Ha & Hw' & He). rewrite app_nil_r in Heq. subst ds.
    exists Q'. split_and!; [done| |done]. rewrite insert_id in Hw'; [done|].
    rewrite (ap_rest _ _ _ _ Ha) by done. apply lookup_insert_eq.
Qed.

Lemma tee_push_wp app ports Q owned w :
  let ins := values (input ports) in let outs := values (output ports) in
  winv Q owned w → reachable ins Q w → reachable outs Q w → NoDup ins → NoDup outs →
  (∀ l, l ∈ ins → l ∉ outs) →
  wpx overflow (tee_push app ports) (λ app' w', app' = app ∧ same_env w w' ∧ ∃ Q', winv Q' owned w' ∧
    appended (Forall2 copy_of (concat (queue_of Q <$> ins))) outs (emptied ins Q) Q') w.
Proof.
  intros ins outs Hw [Hl Hb] Hro Hndi Hnd Hdis. unfold tee_push. fold ins. clearbody ins.
  assert (∀ ds, (∀ l, l ∈ ds → l ∈ ins) → dom (emptied ds Q) = dom Q) as Hdom.
  { intros ds Hds. apply set_eq. intros l. rewrite !elem_of_dom, lookup_emptied. case_decide as Hx; [|done].
    split; [intros _; by apply Hl, Hds|by eexists]. }
  apply wpx_bind. eapply wpx_mono.
  - eapply (for_st_inv _ _ (λ ds rest w', ds ++ rest = ins ∧ same_env w w' ∧ ∃ Q', winv Q' owned w' ∧
      appended (Forall2 copy_of (concat (queue_of Q <$> ds))) outs (emptied ds Q) Q')) with (xs := ins) (done := []).
    2: { split_and!; [done|done|]. exists Q. split; [done|]. apply appended_nil; [constructor|apply Hro]. }
    intros ds l rest w1 (Heq & He1 & Q1 & Hw1 & Ha). rewrite <-app_assoc.
    assert (l ∈ ins) as Hin by (rewrite <-Heq; set_solver). destruct (Hl l Hin) as [q Hq].
    assert (l ∉ ds) as Hnds.
    { rewrite <-Heq in Hndi. apply NoDup_app in Hndi as (_ & Hd & _). intros Hx. apply (Hd l Hx). left. }
    assert (Q1 !! l = Some q) as Hq1.
    { rewrite (ap_rest _ _ _ _ Ha) by by apply Hdis. by rewrite lookup_emptied, decide_False. }
    assert (∀ x, x ∈ ds → x ∈ ins) as Hds by (intros x Hx; rewrite <-Heq; set_solver).
    eapply wpx_mono; [apply (borrowing_env _ l _ (λ w', ∃ Q', winv Q' owned w' ∧
      appended (Forall2 copy_of (concat (queue_of Q <$> ds ++ [l]))) outs (emptied (ds ++ [l]) Q) Q'))|].
    + rewrite (se_borrowed _ _ He1). by apply Hb.
    + eapply wpx_mono; [apply (tee_drain ports l q Q1 owned); [done|by apply Hdis| |]|].
      * destruct Hro as [Hlo Hbo]. split; intros o Ho.
        -- apply elem_of_dom. rewrite dom_insert_L, (ap_dom _ _ _ _ Ha), (Hdom ds) by done.
           apply elem_of_union. right. by apply elem_of_dom, Hlo.
        -- simpl. rewrite (se_borrowed _ _ He1). specialize (Hbo o Ho). specialize (Hdis l Hin). set_solver.
      * rewrite insert_id by done. by apply winv_set_borrowed.
      * intros _ w2 (Q2 & Ha2 & Hw2 & He2). split; [done|]. exists Q2. split; [by apply winv_set_borrowed|].
        rewrite emptied_snoc, fmap_app, concat_app. simpl. rewrite app_nil_r.
        assert (queue_of Q l = q) as -> by (unfold queue_of; by rewrite Hq).
        eapply appended_compose; [apply appended_insert; [by apply Hdis|exact Ha]|exact Ha2|].
        intros xs ys. apply Forall2_app.
    + intros _ w2 [He2 HQ2]. split_and!; [done|by etrans|done].
  - intros _ w' (_ & He & HQ). apply wpx_ret. by split_and!.
Qed.
End apps.

Lemma join_push_merges_witness :
  let ins := values (H := listed) (input io_ports) in
  ∃ w q, q.*2 = [sample_60; sample_60] ∧ ins = [1%positive] ∧
    let Q := io ∅ 1 q 2 [] in
    wp (push (App := JoinApp_App (H := listed)) mkJoinApp io_ports)
      (λ app' w', app' = mkJoinApp ∧ same_env w w' ∧
         match output io_ports !! "output" with
         | Some o => winv (<[o := link_txs (queue_of Q o) (concat (queue_of Q <$> ins))]> (emptied ins Q)) [] w'
         | None => w' = w
         end) w.
Proof.
  intros ins. destruct (sample_world 0 (λ _, f64_zero)) as (w & q & Hw & Hq & Hb & Ht & _).
  assert (ins = [1%positive]) as Hins by (vm_compute; reflexivity).
  exists w, q. split; [exact Hq|]. split; [exact Hins|].
  apply (join_push_merges (H := listed) no_panic mkJoinApp io_ports (io ∅ 1 q 2 []) [] w);
    change (values (input io_ports)) with ins; rewrite ?Hins; [exact Hw| | |].
  - split; intros l Hl; apply list_elem_of_singleton in Hl as ->; [by eexists|by rewrite Hb].
  - apply NoDup_singleton.
  - intros o [= <-]. rewrite Hb. split_and!; [by eexists|done|]. intros Hx. by apply list_elem_of_singleton in Hx.
Defined.
