(* ===== verification/RawSocket.v ===== *)
(** * rawsocket_app.rs: the app RawSocket, packets from and to Linux network devices

    Frames that a device delivers are read from a socket and put on the output
    link; packets of the input link are written to the socket.  The fd_set that
    the app keeps for select(2) holds nothing but the socket of the next call:
    it is not modelled. *)

From S2P Require Import Prelude Bytes Lib Packet Kernel App.
From S2P Require Import Qos BasicApps.
From S2P Require Link.
#[local] Open Scope Z_scope.

Section rawsocket.
Context `{Kernel}.

Record RawSocket : Type := mkRawSocket { ifname : string }.
Record RawSocketApp : Type := mkRawSocketApp { sock : Z }.

(** ffi::CString::new(s).expect("cstr failed") *)
Definition cstr (s : string) : outcome string := assert "cstr failed" (negb (has_nul s));; Ok s.

Definition open_raw_socket (ifname : string) : ST World Z :=
  name ← lift (cstr ifname);
  index ← syscall (If_nametoindex name);
  lift (assert "invalid ifname" (negb (ret index =? 0)));;
  sock ← syscall Socket;
  lift (assert "cannot create socket" (negb (ret sock =? -1)));;
  b ← syscall (Bind (ret sock) (ret index));
  if ret b =? -1 then
    syscall (Close (ret sock));;
    panic "cannot bind to interface"
  else mret (ret sock).

Definition RawSocket_new (conf : RawSocket) : ST World RawSocketApp :=
  s ← open_raw_socket (ifname conf);
  mret (mkRawSocketApp s).

(** while ret == -1 && (err == EAGAIN || err == EINTR) { ret = select(..); } *)
Fixpoint select (fuel : nat) (c : Syscall) : ST World SysRet :=
  r ← syscall c;
  if interrupted r then
    match fuel with
    | O => no_fuel
    | S fuel => select fuel c
    end
  else mret r.

Definition can_receive (sock : Z) : ST World bool :=
  r ← select retries (Select_read sock);
  lift (assert "cannot select(2) on raw socket" (negb (ret r =? -1)));;
  mret (ret r =? 1).

Definition can_transmit (sock : Z) : ST World bool :=
  r ← select retries (Select_write sock);
  lift (assert "cannot select(2) on raw socket" (negb (ret r =? -1)));;
  mret (ret r =? 1).

Definition receive (sock : Z) : ST World loc :=
  p ← on_mem allocate;
  r ← syscall (Read sock (Z.of_nat PAYLOAD_SIZE));
  lift (assert "cannot read(2) packet" (ret r >? 0));;
  pk ← on_mem (deref p);
  on_mem (write p (mkPacket (u16 (ret r)) (data r ++ drop (length (data r)) (p_data pk))));;
  mret p.

Definition transmit (sock : Z) (p : loc) : ST World () :=
  pk ← on_mem (deref p);
  r ← syscall (Write sock (take (Z.to_nat (p_length pk)) (p_data pk)));
  lift (assert "cannot write(2) packet" (ret r =? p_length pk));;
  on_mem (free p).

(** while limit > 0 && can_receive(..) *)
Fixpoint pull_loop (limit : nat) (sock : Z) (output : link_id) : ST World () :=
  match limit with
  | O => mret tt
  | S limit =>
      b ← can_receive sock;
      if (b : bool) then
        p ← receive sock;
        link_transmit output p;;
        pull_loop limit sock output
      else mret tt
  end.

Definition raw_pull (app : RawSocketApp) (ports : Ports) : ST World RawSocketApp :=
  (match output ports !! "output" with
   | Some output => borrowing output (pull_loop PULL_NPACKETS (sock app) output)
   | None => mret tt
   end);;
  mret app.

(** while !link::empty(&input) && can_transmit(..) *)
Definition push_loop (sock : Z) (input : link_id) : ST World () :=
  while_st (Z.to_nat Link.LINK_MAX_PACKETS)
    (λ _, e ← link_empty input; if (e : bool) then mret false else can_transmit sock)
    (λ _, p ← link_receive input; transmit sock p) tt.

Definition raw_push (app : RawSocketApp) (ports : Ports) : ST World RawSocketApp :=
  (match input ports !! "input" with
   | Some input => borrowing input (push_loop (sock app) input)
   | None => mret tt
   end);;
  mret app.

Definition raw_stop (app : RawSocketApp) : ST World () := syscall (Close (sock app));; mret tt.

#[export] Instance RawSocketApp_App : App RawSocketApp := {|
  has_pull _ := true; pull := raw_pull;
  has_push _ := true; push := raw_push;
  has_stop _ := true; stop := raw_stop
|}.
End rawsocket.

(** ** The history of a socket *)

(** What was read from [fd], and written to it, since the process started. *)
Fixpoint reads `{Kernel} (fd : Z) (h : list Syscall) : list bytes :=
  match h with
  | [] => []
  | Read fd' _ :: h' => reads fd h' ++ (if decide (fd' = fd) then [data (answer h)] else [])
  | _ :: h' => reads fd h'
  end.
Fixpoint writes (fd : Z) (h : list Syscall) : list bytes :=
  match h with
  | [] => []
  | Write fd' buf :: h' => writes fd h' ++ (if decide (fd' = fd) then [buf] else [])
  | _ :: h' => writes fd h'
  end.

(** The calls of a pull that may read [n] frames, after the history [h]: each
    read(2) is right behind a select(2) that says that a frame is ready; the
    calls end when [n] frames were read, or with a select(2) that says that none
    is ready. *)
Inductive reception `{Kernel} (sock : Z) : nat → list Syscall → list bytes → list Syscall → Prop :=
  | reception_full h : reception sock O h [] h
  | reception_idle n k h :
      let polled := replicate (S k) (Select_read sock) ++ h in
      interrupted (answer polled) = false → ret (answer polled) ≠ 1 →
      reception sock (S n) h [] polled
  | reception_frame n k h fs h' :
      let polled := replicate (S k) (Select_read sock) ++ h in
      interrupted (answer polled) = false → ret (answer polled) = 1 →
      let r := answer (Read sock 65535 :: polled) in
      0 < ret r → reception sock n (Read sock 65535 :: polled) fs h' →
      reception sock (S n) h (data r :: fs) h'.

(** select(2) was called last, was not interrupted, and no frame is ready. *)
Definition not_readable `{Kernel} (sock : Z) (h : list Syscall) : Prop :=
  ∃ h', h = Select_read sock :: h' ∧ interrupted (answer h) = false ∧ ret (answer h) ≠ 1.

Lemma reception_end `{Kernel} sock n h fs h' :
  reception sock n h fs h' → (length fs ≤ n)%nat ∧ (length fs = n ∨ not_readable sock h').
Proof.
  induction 1 as [h|n k h polled Hi Hr|n k h fs h' polled Hi Hr r Hp _ [IH1 IH2]]; simpl.
  - split; [lia|by left].
  - split; [lia|right]. by exists (replicate k (Select_read sock) ++ h).
  - split; [lia|]. destruct IH2 as [->|]; [by left|by right].
Qed.

Lemma reads_selects `{Kernel} fd k f h : reads fd (replicate k (Select_read f) ++ h) = reads fd h.
Proof. by induction k. Qed.
Lemma writes_selects fd k f h : writes fd (replicate k (Select_write f) ++ h) = writes fd h.
Proof. by induction k. Qed.
Lemma written_reads k f h : written (replicate k (Select_read f) ++ h) = written h.
Proof. by induction k. Qed.
Lemma written_writes k f h : written (replicate k (Select_write f) ++ h) = written h.
Proof. by induction k. Qed.

(** The panics of the app. *)
Definition socket_panics (e : string) : Prop :=
  overflow e ∨ e = "cannot select(2) on raw socket" ∨ e = "cannot read(2) packet" ∨ e = "cannot write(2) packet".

Section laws.
Context `{Kernel} (good : bytes → Prop) `{!KernelLaws good}.

Lemma replicate_shift {A} k (c : A) h : replicate k c ++ c :: h = c :: replicate k c ++ h.
Proof. induction k as [|k IH]; simpl; [done|by rewrite IH]. Qed.

Lemma select_wp E fuel c : ∀ w,
  (∃ k, (k ≤ fuel)%nat ∧ interrupted (answer (replicate (S k) c ++ syscalls w)) = false) →
  wpx E (select fuel c) (λ r w', ∃ k, let h := replicate (S k) c ++ syscalls w in
    w' = set_syscalls h w ∧ r = answer h ∧ interrupted r = false) w.
Proof.
  induction fuel as [|fuel IH]; intros w (k & Hk & Hi); simpl; apply wpx_bind; unfold syscall, wpx at 1;
    destruct (interrupted (answer (c :: syscalls w))) eqn:Hr.
  - replace k with O in Hi by lia. simpl in Hi. congruence.
  - apply wpx_ret. by exists O.
  - destruct k as [|k]; [simpl in Hi; congruence|].
    eapply wpx_mono; [apply IH; exists k; split; [lia|]|].
    + simpl in *. by rewrite replicate_shift.
    + intros r w' (j & -> & -> & Hj). exists (S j). simpl in *.
      rewrite replicate_shift in *. by split_and!.
  - apply wpx_ret. by exists O.
Qed.

Lemma can_receive_wp sock w :
  wpx socket_panics (can_receive sock) (λ b w', ∃ k, let h := replicate (S k) (Select_read sock) ++ syscalls w in
    w' = set_syscalls h w ∧ interrupted (answer h) = false ∧ b = (ret (answer h) =? 1)) w.
Proof.
  unfold can_receive. apply wpx_bind. eapply wpx_mono; [apply select_wp, select_ends|].
  intros r w' (k & -> & -> & Hi). apply wpx_bind. unfold lift, assert, wpx. destruct (negb _); [|unfold socket_panics; tauto].
  by exists k.
Qed.

Lemma can_transmit_wp sock w :
  wpx socket_panics (can_transmit sock) (λ b w', ∃ k, let h := replicate (S k) (Select_write sock) ++ syscalls w in
    w' = set_syscalls h w ∧ b = (ret (answer h) =? 1)) w.
Proof.
  unfold can_transmit. apply wpx_bind. eapply wpx_mono; [apply select_wp, select_ends|].
  intros r w' (k & -> & -> & _). apply wpx_bind. unfold lift, assert, wpx. destruct (negb _); [|unfold socket_panics; tauto].
  by exists k.
Qed.

(** *** pull *)

Lemma socket_receive_wp Q owned sock w :
  winv Q owned w →
  wpx socket_panics (receive sock) (λ p w', ∃ pk, wf_packet pk ∧ winv Q ((p, pk) :: owned) w' ∧ but_calls w w' ∧
    good (frame pk) ∧ reads sock (syscalls w') = reads sock (syscalls w) ++ [frame pk] ∧
    written (syscalls w') = written (syscalls w) ∧
    let h := Read sock 65535 :: syscalls w in
    syscalls w' = h ∧ 0 < ret (answer h) ∧ frame pk = data (answer h)) w.
Proof.
  intros Hw. unfold receive. apply wpx_bind.
  eapply wpx_mono; [eapply wpx_weaken; [by apply allocate_rule|unfold socket_panics; tauto]|].
  intros p w1 (pk & _ & Hwf & Hw1 & He1). apply wpx_bind. unfold syscall, wpx at 1.
  set (c := Read sock (Z.of_nat PAYLOAD_SIZE)). set (r := answer (c :: syscalls w1)). apply wpx_bind.
  destruct (Z.gtb_spec (ret r) 0) as [Hr|]; [|unfold wpx; simpl; unfold socket_panics; tauto].
  pose proof (read_stores _ _ _ Hr) as (Hmax & Hlen & Hb). fold c r in Hmax, Hlen, Hb.
  pose proof (read_frame _ _ _ Hr) as Hg. fold c r in Hg. pose proof payload_size_z as Hps.
  eapply wpx_lift; [done|]. apply wpx_bind.
  eapply deref_rule; [by apply winv_set_syscalls|]. apply wpx_bind.
  pose proof Hwf as (_ & Hdl & Hdb).
  set (pk' := mkPacket _ _). assert (frame pk' = data r) as Hf.
  { unfold frame, pk'. simpl. rewrite u16_id by (unfold is_u16; lia). rewrite <-Hlen, Nat2Z.id. by rewrite take_app_length. }
  assert (wf_packet pk') as Hwf'.
  { split_and!; simpl; [apply u16_range|rewrite length_app, length_drop; lia|].
    apply Forall_app_2; [done|by apply Forall_drop]. }
  eapply wpx_mono; [by eapply write_rule; [by apply winv_set_syscalls|]|]. intros _ w2 [Hw2 He2].
  change (Z.of_nat PAYLOAD_SIZE) with 65535 in c. cbv zeta.
  assert (syscalls w2 = Read sock 65535 :: syscalls w) as Hcalls.
  { rewrite (se_syscalls _ _ He2). simpl. by rewrite (se_syscalls _ _ He1). }
  assert (r = answer (Read sock 65535 :: syscalls w)) as Hrd by (unfold r, c; by rewrite (se_syscalls _ _ He1)).
  rewrite <-Hrd. apply wpx_ret. exists pk'. split_and!; [done|done| |by rewrite Hf| | |done|done|done].
  - etrans; [by apply same_env_but_calls|]. etrans; [|by apply same_env_but_calls]. done.
  - rewrite (se_syscalls _ _ He2). simpl. rewrite decide_True by done. fold c r.
    by rewrite Hf, (se_syscalls _ _ He1).
  - rewrite (se_syscalls _ _ He2). simpl. by rewrite (se_syscalls _ _ He1).
Qed.

(** Reading puts good frames on the link. *)
Record received (Q : queues) (o : link_id) (q owned : queue) (sock : Z) (limit : nat) (w : World) (xs : queue) (w' : World) : Prop := {
  rc_winv : winv (<[o := link_txs q xs]> Q) owned w';
  rc_env : but_calls w w';
  rc_frames : Forall (λ x, wf_packet x.2 ∧ good (frame x.2)) xs;
  rc_reads : reads sock (syscalls w') = reads sock (syscalls w) ++ ((λ x, frame x.2) <$> xs);
  rc_calls : reception sock limit (syscalls w) ((λ x, frame x.2) <$> xs) (syscalls w');
  rc_written : written (syscalls w') = written (syscalls w);
}.

Lemma pull_loop_wp Q o owned sock limit : ∀ q w,
  winv (<[o := q]> Q) owned w →
  wpx socket_panics (pull_loop limit sock o) (λ _ w', ∃ xs, received Q o q owned sock limit w xs w') w.
Proof.
  assert (∀ q limit w w', winv (<[o := q]> Q) owned w' → but_calls w w' →
    reads sock (syscalls w') = reads sock (syscalls w) → written (syscalls w') = written (syscalls w) →
    reception sock limit (syscalls w) [] (syscalls w') →
    ∃ xs, received Q o q owned sock limit w xs w') as Hstop.
  { intros q n w w' Hw He Hr Hx Hc. exists []. split; simpl; [done|done|constructor|by rewrite app_nil_r|done|done]. }
  induction limit as [|limit IH]; intros q w Hw; simpl; [by apply wpx_ret, Hstop; [..|constructor]|].
  apply wpx_bind. eapply wpx_mono; [apply can_receive_wp|]. intros b w1 (k & -> & Hi & ->).
  destruct (Z.eqb_spec (ret (answer (replicate (S k) (Select_read sock) ++ syscalls w))) 1) as [Hready|Hready].
  2: { apply wpx_ret, Hstop; [by apply winv_set_syscalls|done|simpl; by rewrite reads_selects|
       simpl; by rewrite written_reads|by apply reception_idle]. }
  apply wpx_bind. eapply wpx_mono; [by apply socket_receive_wp, winv_set_syscalls|].
  intros p w2 (pk & Hwf & Hw2 & He2 & Hg & Hr2 & Hx2 & Hc2 & Hpos & Hfr). apply wpx_bind.
  eapply wpx_mono; [eapply link_transmit_wp; [exact Hw2|apply lookup_insert_eq]|].
  intros _ w3 [Hw3 He3]. rewrite insert_insert_eq in Hw3.
  eapply wpx_mono; [by apply IH|]. intros _ w4 (xs & [Hw4 He4 Hf Hr4 Hl Hx4]). exists ((p, pk) :: xs). split; simpl.
  - exact Hw4.
  - etrans; [|exact He4]. etrans; [|by apply same_env_but_calls]. etrans; [|exact He2]. done.
  - by constructor.
  - rewrite Hr4, (se_syscalls _ _ He3), Hr2. simpl. rewrite reads_selects, <-app_assoc. done.
  - rewrite (se_syscalls _ _ He3), Hc2 in Hl. rewrite Hfr. by eapply reception_frame.
  - rewrite Hx4, (se_syscalls _ _ He3), Hx2. simpl. by rewrite written_reads.
Qed.

(** *** push *)

Lemma socket_transmit_wp Q owned sock p pk w :
  winv Q ((p, pk) :: owned) w →
  wpx socket_panics (transmit sock p) (λ _ w', winv Q owned w' ∧ but_calls w w' ∧
    writes sock (syscalls w') = writes sock (syscalls w) ++ [frame pk] ∧
    written (syscalls w') = frame pk :: written (syscalls w)) w.
Proof.
  intros Hw. unfold transmit. apply wpx_bind. eapply deref_rule; [exact Hw|]. apply wpx_bind.
  unfold syscall, wpx at 1. apply wpx_bind. fold (frame pk).
  destruct (_ =? p_length pk); [|unfold wpx; simpl; unfold socket_panics; tauto].
  eapply wpx_lift; [done|]. eapply wpx_mono; [by eapply free_rule, winv_set_syscalls|].
  intros _ w1 [Hw1 He1]. split_and!; [done| | |].
  - etrans; [|by apply same_env_but_calls]. done.
  - rewrite (se_syscalls _ _ He1). simpl. by rewrite decide_True by done.
  - by rewrite (se_syscalls _ _ He1).
Qed.

(** What was sent, and what stays on the link: all is sent unless the socket
    does not accept more. *)
Record sent (Q : queues) (i : link_id) (q owned : queue) (sock : Z) (w : World) (xs rest : queue) (w' : World) : Prop := {
  sn_queue : q = xs ++ rest;
  sn_winv : winv (<[i := rest]> Q) owned w';
  sn_env : but_calls w w';
  sn_writes : writes sock (syscalls w') = writes sock (syscalls w) ++ ((λ x, frame x.2) <$> xs);
  sn_written : written (syscalls w') ≡ₚ ((λ x, frame x.2) <$> xs) ++ written (syscalls w);
}.

Definition not_ready (sock : Z) (h : list Syscall) : Prop :=
  ∃ h', h = Select_write sock :: h' ∧ ret (answer h) ≠ 1.

Lemma push_loop_wp Q i q owned sock w :
  winv (<[i := q]> Q) owned w →
  wpx socket_panics (push_loop sock i) (λ _ w', ∃ xs rest, sent Q i q owned sock w xs rest w' ∧
    (rest = [] ∨ not_ready sock (syscalls w'))) w.
Proof.
  intros Hw. unfold push_loop.
  eapply (while_st_list _ _ _ (λ rest _ w', ∃ xs, sent Q i q owned sock w xs rest w')) with (xs := q).
  - intros a w1 (xs & Hs). apply wpx_bind.
    eapply link_empty_wp; [apply Hs|apply lookup_insert_eq|]. simpl. apply wpx_ret.
    split; [done|]. exists xs, []. split; [done|by left].
  - intros [p pk] rest a w1 (xs & [-> Hw1 He1 Hr1 Hx1]). apply wpx_bind.
    eapply link_empty_wp; [exact Hw1|apply lookup_insert_eq|]. simpl.
    eapply wpx_mono; [apply can_transmit_wp|]. intros b w2 (k & -> & ->).
    destruct (Z.eqb_spec (ret (answer (replicate (S k) (Select_write sock) ++ syscalls w1))) 1) as [|Hne].
    + apply wpx_bind. eapply wpx_mono.
      { eapply link_receive_wp; [by apply winv_set_syscalls|apply lookup_insert_eq]. }
      intros p' w3 (-> & Hw3 & He3). rewrite insert_insert_eq in Hw3.
      eapply wpx_mono; [by eapply socket_transmit_wp|]. intros _ w4 (Hw4 & He4 & Hr4 & Hx4).
      exists (xs ++ [(p, pk)]). split; [by rewrite <-app_assoc|done| | |].
      * etrans; [exact He1|]. etrans; [|exact He4]. etrans; [|by apply same_env_but_calls]. done.
      * rewrite Hr4, (se_syscalls _ _ He3). cbn [syscalls set_syscalls].
        rewrite writes_selects, Hr1, fmap_app, <-app_assoc. done.
      * rewrite Hx4, (se_syscalls _ _ He3). cbn [syscalls set_syscalls].
        rewrite written_writes, Hx1, fmap_app, <-app_assoc. simpl. by rewrite Permutation_middle.
    + exists xs, ((p, pk) :: rest). split.
      * split; [done|by apply winv_set_syscalls|by etrans| |]; cbn [syscalls set_syscalls].
        { by rewrite writes_selects. }
        by rewrite written_writes.
      * right. eexists. split; [done|exact Hne].
  - exists []. split; simpl; [done|done|done|by rewrite app_nil_r|done].
  - destruct (wi_links _ _ _ Hw i q) as (r & _ & Hrep); [apply lookup_insert_eq|].
    pose proof (Link.lr_length _ _ Hrep) as Hl. rewrite length_fmap in Hl. lia.
Qed.

(** *** The callbacks *)

(** A computation under a borrow that changes calls, packets and links only. *)
Lemma borrowing_calls E l (m : ST World ()) (Φ : World → Prop) w :
  l ∉ borrowed w →
  wpx E m (λ _ w2, but_calls (set_borrowed ({[l]} ∪ borrowed w) w) w2 ∧ Φ (set_borrowed (borrowed w) w2))
    (set_borrowed ({[l]} ∪ borrowed w) w) →
  wpx E (borrowing l m) (λ _ w', but_calls w w' ∧ Φ w') w.
Proof.
  intros Hl Hm. apply borrowing_wp; [done|]. eapply wpx_mono; [exact Hm|]. intros [] w2 [[He Hb] HΦ].
  split; [exact Hb|]. split; [by split|done].
Qed.

Lemma raw_pull_wp app ports o Q q owned w :
  output ports !! "output" = Some o → Q !! o = Some q → o ∉ borrowed w → winv Q owned w →
  wpx socket_panics (raw_pull app ports)
    (λ app' w', app' = app ∧ ∃ xs, received Q o q owned (sock app) PULL_NPACKETS w xs w') w.
Proof.
  intros Ho Hq Hb Hw. unfold raw_pull. rewrite Ho. apply wpx_bind. eapply wpx_mono.
  - eapply (borrowing_calls _ o _ (λ w', ∃ xs, received Q o q owned (sock app) PULL_NPACKETS w xs w')); [done|].
    eapply wpx_mono; [apply pull_loop_wp; rewrite insert_id by done; by apply winv_set_borrowed|].
    intros _ w' (xs & [Hw' He Hf Hr Hl Hx]). split; [done|]. exists xs.
    split; [by apply winv_set_borrowed| |done|done|done|done].
    destruct He as [He _]. by split.
  - intros _ w' [_ Hw']. by apply wpx_ret.
Qed.

Lemma raw_push_wp app ports i Q q owned w :
  input ports !! "input" = Some i → Q !! i = Some q → i ∉ borrowed w → winv Q owned w →
  wpx socket_panics (raw_push app ports)
    (λ app' w', app' = app ∧ ∃ xs rest, sent Q i q owned (sock app) w xs rest w' ∧
       (rest = [] ∨ not_ready (sock app) (syscalls w'))) w.
Proof.
  intros Hi Hq Hb Hw. unfold raw_push. rewrite Hi. apply wpx_bind. eapply wpx_mono.
  - eapply (borrowing_calls _ i _ (λ w', ∃ xs rest, sent Q i q owned (sock app) w xs rest w' ∧
      (rest = [] ∨ not_ready (sock app) (syscalls w')))); [done|].
    eapply wpx_mono; [apply push_loop_wp; rewrite insert_id by done; by apply winv_set_borrowed|].
    intros _ w' (xs & rest & [Hq' Hw' He Hr Hx] & Hend). split; [done|]. exists xs, rest.
    split; [|done]. split; [done|by apply winv_set_borrowed| |done|done]. destruct He as [He _]. by split.
  - intros _ w' [_ Hw']. by apply wpx_ret.
Qed.

(** C24. RawSocket pulls the frames that are ready: it asks the kernel before
    every read, and reads on until the kernel says that no frame is ready, or
    until it has read 102, and no fewer ([reception] are all calls that it
    makes).  The frames read, unchanged and in order, are what it appends to its
    output link (but for what does not fit).  Apart from the freelist and the
    history of calls nothing changes; the borrow is released; interrupted calls
    are repeated, and panics are those of a failed call or an exhausted
    freelist. *)
Theorem rawsocket_pull_receives app ports o Q q owned w :
  output ports !! "output" = Some o → Q !! o = Some q → o ∉ borrowed w → winv Q owned w →
  wpx socket_panics (pull app ports) (λ app' w', app' = app ∧ ∃ xs,
    winv (<[o := link_txs q xs]> Q) owned w' ∧ but_calls w w' ∧
    reads (sock app) (syscalls w') = reads (sock app) (syscalls w) ++ ((λ x, frame x.2) <$> xs) ∧
    reception (sock app) 102 (syscalls w) ((λ x, frame x.2) <$> xs) (syscalls w') ∧
    (length xs ≤ 102)%nat ∧ (length xs = 102%nat ∨ not_readable (sock app) (syscalls w'))) w.
Proof.
  intros. eapply wpx_mono; [by apply (raw_pull_wp app ports o Q q owned w)|].
  intros ? w' [-> (xs & [Hw' He _ Hr Hl _])]. split; [done|].
  change PULL_NPACKETS with 102%nat in Hl. pose proof (reception_end _ _ _ _ _ Hl) as [Hle Hend].
  rewrite length_fmap in Hle, Hend. by exists xs.
Qed.

(** C25. RawSocket pushes the packets of its input link: it writes their frames,
    unchanged and in order, to its socket, until the link is empty or the
    socket does not accept more; what was not sent stays on the link, in order,
    and packets that were sent go back to the freelist. *)
Theorem rawsocket_push_sends app ports i Q q owned w :
  input ports !! "input" = Some i → Q !! i = Some q → i ∉ borrowed w → winv Q owned w →
  wpx socket_panics (push app ports) (λ app' w', app' = app ∧ ∃ xs rest, q = xs ++ rest ∧
    winv (<[i := rest]> Q) owned w' ∧ but_calls w w' ∧
    writes (sock app) (syscalls w') = writes (sock app) (syscalls w) ++ ((λ x, frame x.2) <$> xs) ∧
    (rest = [] ∨ not_ready (sock app) (syscalls w'))) w.
Proof.
  intros. eapply wpx_mono; [by apply (raw_push_wp app ports i Q q owned w)|].
  intros ? w' [-> (xs & rest & [Hq Hw' He Hr _] & Hend)]. split; [done|]. by exists xs, rest.
Qed.
End laws.

Lemma rawsocket_pull_receives_witness :
  let w := world0 (Some 0) Z.of_nat (λ _, f64_zero) in let Q := io ∅ 1 [] 2 [] in
  wpx socket_panics (pull (App := RawSocketApp_App (H := sample_kernel)) (mkRawSocketApp 3) io_ports)
    (λ app' w', app' = mkRawSocketApp 3 ∧ ∃ xs,
      winv (<[2%positive := link_txs [] xs]> Q) [] w' ∧ but_calls w w' ∧
      reads (H := sample_kernel) 3 (syscalls w') =
        reads (H := sample_kernel) 3 (syscalls w) ++ ((λ x, frame x.2) <$> xs) ∧
      reception (H := sample_kernel) 3 102 (syscalls w) ((λ x, frame x.2) <$> xs) (syscalls w') ∧
      (length xs ≤ 102)%nat ∧ (length xs = 102%nat ∨ not_readable (H := sample_kernel) 3 (syscalls w'))) w.
Proof.
  intros w Q. pose proof (sample_kernel_laws (λ _, True) I) as Hlaws.
  apply (rawsocket_pull_receives (H := sample_kernel) (λ _, True) (mkRawSocketApp 3) io_ports 2 Q [] [] w);
    [done|done|by apply not_elem_of_empty|apply world0_inv].
Defined.

Lemma rawsocket_push_sends_witness :
  ∃ w q, q.*2 = [sample_60; sample_60] ∧
    wpx socket_panics (push (App := RawSocketApp_App (H := sample_kernel)) (mkRawSocketApp 3) io_ports)
      (λ app' w', app' = mkRawSocketApp 3 ∧ ∃ xs rest, q = xs ++ rest ∧
        winv (<[1%positive := rest]> (io ∅ 1 q 2 [])) [] w' ∧ but_calls w w' ∧
        writes 3 (syscalls w') = writes 3 (syscalls w) ++ ((λ x, frame x.2) <$> xs) ∧
        (rest = [] ∨ not_ready (H := sample_kernel) 3 (syscalls w'))) w.
Proof.
  destruct (sample_world 0 (λ _, f64_zero)) as (w & q & Hw & Hq & Hb & _).
  pose proof (sample_kernel_laws (λ _, True) I) as Hlaws.
  exists w, q. split; [exact Hq|].
  apply (rawsocket_push_sends (H := sample_kernel) (λ _, True) (mkRawSocketApp 3) io_ports 1 (io ∅ 1 q 2 []) q [] w);
    [done|done|by rewrite Hb|exact Hw].
Defined.
