(* ===== verification/Config.v ===== *)
(** * config.rs: configurations of the engine and the syntax of links

    Link specifications are strings of ASCII characters, as in all
    configurations of the program. *)

From Stdlib Require Import Ascii.
From S2P Require Import Prelude App.
#[local] Open Scope string_scope.

Record LinkSpec : Type := mkLinkSpec {
  from : string;
  link_output : string;
  to : string;
  link_input : string
}.

#[export] Instance LinkSpec_eq_dec : EqDecision LinkSpec.
Proof. solve_decision. Defined.

(** The classes of LINK_SYNTAX: [\w_] and the space. *)
Definition is_word (c : ascii) : bool :=
  let n := nat_of_ascii c in
  ((48 <=? n) && (n <=? 57) || (65 <=? n) && (n <=? 90) || (97 <=? n) && (n <=? 122) || (n =? 95))%nat.
Definition is_space (c : ascii) : bool := Ascii.eqb c " ".

(** The longest prefix in a class, and the rest. *)
Fixpoint span (f : ascii → bool) (s : string) : string * string :=
  match s with
  | String c s' => if f c then let '(a, b) := span f s' in (String c a, b) else ("", s)
  | "" => ("", "")
  end.

(** [class*], [class+] and a literal, at the start of a string.  The classes
    that follow each other in LINK_SYNTAX are disjoint, so that only the longest
    match of each can lead to a match of the whole. *)
Definition star (f : ascii → bool) (s : string) : string := (span f s).2.
Definition plus (f : ascii → bool) (s : string) : option (string * string) :=
  match span f s with
  | ("", _) => None
  | (a, b) => Some (a, b)
  end.
Fixpoint literal (l s : string) : option string :=
  match l, s with
  | "", _ => Some s
  | String c l, String c' s => if Ascii.eqb c c' then literal l s else None
  | String _ _, "" => None
  end.

(** LINK_SYNTAX at the start of a string:
     *([\w_]+)\.([\w_]+) *-> *([\w_]+)\.([\w_]+) * *)
Definition match_link (s : string) : option LinkSpec :=
  '(from, s) ← plus is_word (star is_space s);
  s ← literal "." s;
  '(output, s) ← plus is_word s;
  s ← literal "->" (star is_space s);
  '(to, s) ← plus is_word (star is_space s);
  s ← literal "." s;
  '(input, s) ← plus is_word s;
  Some (mkLinkSpec from output to input).

(** LINK_SYNTAX.captures(spec): the leftmost match. *)
Fixpoint captures (s : string) : option LinkSpec :=
  match match_link s with
  | Some spec => Some spec
  | None => match s with "" => None | String _ s => captures s end
  end.

Definition parse_link (spec : string) : outcome LinkSpec :=
  match captures spec with
  | Some l => Ok l
  | None => Panic ("link parse error: " +:+ spec)
  end.

Definition format_link (spec : LinkSpec) : string :=
  from spec +:+ "." +:+ link_output spec +:+ " -> " +:+ to spec +:+ "." +:+ link_input spec.

Definition canonical_link (spec : string) : outcome string :=
  l ← parse_link spec; Ok (format_link l).

(** ** Configurations of apps [C] *)

Record Config (C : Type) : Type := mkConfig {
  apps : gmap string C;
  links : gset string
}.
Arguments mkConfig {C} apps links.
Arguments apps {C} _.
Arguments links {C} _.

Definition new {C} : Config C := mkConfig ∅ ∅.
Definition app {C} (config : Config C) (name : string) (app : C) : Config C :=
  mkConfig (<[name := app]> (apps config)) (links config).
Definition link {C} (config : Config C) (spec : string) : outcome (Config C) :=
  s ← canonical_link spec; Ok (mkConfig (apps config) ({[s]} ∪ links config)).

(** ** Round trips *)

Fixpoint all_word (s : string) : Prop :=
  match s with "" => True | String c s => is_word c = true ∧ all_word s end.
Definition is_name (s : string) : Prop := s ≠ "" ∧ all_word s.

Record wf_spec (l : LinkSpec) : Prop := {
  wf_from : is_name (from l);
  wf_output : is_name (link_output l);
  wf_to : is_name (to l);
  wf_input : is_name (link_input l);
}.

(** What follows a name does not start with a character of names. *)
Definition stops (f : ascii → bool) (s : string) : Prop :=
  match s with "" => True | String c _ => f c = false end.

Lemma span_word a b : all_word a → stops is_word b → span is_word (a +:+ b) = (a, b).
Proof.
  intros Ha Hb. induction a as [|c a IH]; simpl.
  - destruct b as [|c b]; [done|]. simpl in *. by rewrite Hb.
  - destruct Ha as [-> Ha]. by rewrite IH.
Qed.

Lemma plus_name a b : is_name a → stops is_word b → plus is_word (a +:+ b) = Some (a, b).
Proof. intros [Hn Ha] Hb. unfold plus. rewrite span_word by done. by destruct a. Qed.

Lemma star_name a b : is_name a → star is_space (a +:+ b) = a +:+ b.
Proof.
  intros [Hn Ha]. destruct a as [|c a]; [done|]. destruct Ha as [Hc _]. unfold star. simpl.
  destruct (is_space c) eqn:Hs; [|done]. apply Ascii.eqb_eq in Hs as ->. discriminate.
Qed.

Lemma span_all_word s a b : span is_word s = (a, b) → all_word a.
Proof.
  revert a b. induction s as [|c s IH]; simpl; intros a b; [by intros [= <- <-]|].
  destruct (is_word c) eqn:Hc; [|by intros [= <- <-]].
  destruct (span is_word s) as [a' b']. intros [= <- <-]. split; [done|by eapply IH].
Qed.

Lemma plus_is_name s a b : plus is_word s = Some (a, b) → is_name a.
Proof.
  unfold plus. destruct (span is_word s) as [[|c a'] b'] eqn:E; [done|]. intros [= <- <-].
  split; [done|by eapply span_all_word].
Qed.

Lemma match_link_wf s l : match_link s = Some l → wf_spec l.
Proof.
  unfold match_link. intros H.
  repeat (apply bind_Some in H as (? & ? & H); repeat case_match; simplify_eq).
  split; simpl; by eapply plus_is_name.
Qed.

(** Whatever is parsed has names without special characters. *)
Lemma parse_link_wf s l : parse_link s = Ok l → wf_spec l.
Proof.
  unfold parse_link. destruct (captures s) as [l'|] eqn:E; [|done]. intros [= ->].
  induction s as [|c s IH]; simpl in E.
  - by apply (match_link_wf "").
  - destruct (match_link (String c s)) as [l0|] eqn:E'; [|by apply IH].
    injection E as ->. by eapply match_link_wf.
Qed.

Lemma append_assoc (a b c : string) : (a +:+ b) +:+ c = a +:+ (b +:+ c).
Proof. induction a as [|x a IH]; [done|]. exact (f_equal (String x) IH). Qed.

Lemma literal_append l s : literal l (l +:+ s) = Some s.
Proof. induction l as [|c l IH]; [done|]. simpl. by rewrite Ascii.eqb_refl. Qed.

Lemma star_spaces s : star is_space (String " " s) = star is_space s.
Proof. unfold star. simpl. by destruct (span is_space s). Qed.

Lemma match_format l rest : wf_spec l → stops is_word rest → match_link (format_link l +:+ rest) = Some l.
Proof.
  intros [Hf Ho Ht Hi] Hr. destruct l as [f o t i]. unfold format_link, match_link. cbn [from link_output to link_input] in *.
  rewrite !append_assoc, star_name, plus_name by done. cbn [mbind option_bind].
  rewrite literal_append. cbn [mbind option_bind]. rewrite plus_name by done. cbn [mbind option_bind].
  change (" -> " +:+ ?s) with (String " " ("->" +:+ String " " s)). rewrite star_spaces.
  change (star is_space ("->" +:+ ?s)) with ("->" +:+ s). rewrite literal_append. cbn [mbind option_bind].
  rewrite star_spaces, star_name, plus_name by done. cbn [mbind option_bind].
  rewrite literal_append. cbn [mbind option_bind]. by rewrite plus_name.
Qed.

Lemma append_nil (s : string) : s +:+ "" = s.
Proof. induction s as [|c s IH]; [done|]. exact (f_equal (String c) IH). Qed.

Lemma parse_format l : wf_spec l → parse_link (format_link l) = Ok l.
Proof.
  intros Hl. unfold parse_link.
  assert (match_link (format_link l) = Some l) as Hm.
  { rewrite <-(append_nil (format_link l)). by apply match_format. }
  destruct (format_link l) as [|c s] eqn:E; cbn [captures]; by rewrite Hm.
Qed.

(** C29. Formatting and parsing links: a link whose names are words is read
    back as it was written; every specification that parses, whatever its
    spacing and whatever surrounds the link, has one canonical form, which
    canonicalisation leaves alone and which parses to the same link. *)
Theorem link_round_trip l s c :
  (wf_spec l → parse_link (format_link l) = Ok l) ∧
  (canonical_link s = Ok c →
   canonical_link c = Ok c ∧ parse_link c = parse_link s ∧ ∃ l', wf_spec l' ∧ c = format_link l').
Proof.
  split; [apply parse_format|]. unfold canonical_link.
  destruct (parse_link s) as [l'| | |] eqn:E; try done. intros [= <-].
  pose proof (parse_link_wf _ _ E) as Hwf. rewrite (parse_format l' Hwf).
  split_and!; [done|done|]. by exists l'.
Qed.

Lemma link_round_trip_witness :
  canonical_link "source.output->sink.input" = Ok "source.output -> sink.input" ∧
  canonical_link "source.output -> sink.input" = Ok "source.output -> sink.input".
Proof.
  split; [by vm_compute|].
  apply (link_round_trip (mkLinkSpec "a" "b" "c" "d") "source.output->sink.input"). by vm_compute.
Defined.

(** Names with other characters are cut at the leftmost match. *)
Example parse_dash : canonical_link "my-app.output -> sink.input" = Ok "app.output -> sink.input".
Proof. by vm_compute. Qed.
