(* ===== verification/Engine.v ===== *)
(** * engine.rs: the state of the engine

    Apps and links in use, by name.  The state holds the world of the apps; an
    operation of an app runs in it ([in_world]). *)

From S2P Require Import Prelude Packet App.
From S2P Require Link.
#[local] Open Scope Z_scope.

(** traits AppConfig, AppArg: configurations [C] of apps [T].  [identity] is the
    Debug representation; [drop_app] what happens when an app is dropped. *)
Class AppConfig (C T : Type) : Type := {
  app_new : C → ST World T;
  identity : C → string;
  drop_app : T → ST World ();
}.

Definition equal `{AppConfig C T} (x y : C) : bool := String.eqb (identity x) (identity y).

(** The end of an app: stop, if there is such a callback, and drop. *)
Definition finish {C T} `{App T} `{AppConfig C T} (t : T) : ST World () :=
  (if has_stop t then stop t else mret tt);;
  drop_app t.

Record AppState (C T : Type) : Type := mkAppState {
  app : T;
  conf : C;
  ports : Ports
}.
Arguments mkAppState {C T} app conf ports.
Arguments app {C T} _.
Arguments conf {C T} _.
Arguments ports {C T} _.

(** LASTLOADREPORT, REPORTEDFREES, ...: what the last load report has seen. *)
Record Reported : Type := mkReported {
  LASTLOADREPORT : option Z;
  REPORTEDFREES : Z;
  REPORTEDFREEBITS : Z;
  REPORTEDFREEBYTES : Z;
  REPORTEDBREATHS : Z
}.

Record EngineState (C T : Type) : Type := mkEngine {
  world : World;
  link_table : gmap string link_id;
  app_table : gmap string (AppState C T);
  inhale : list string;
  exhale : list string;
  LASTFREES : Z;
  SLEEP : Z;
  reported : Reported
}.
Arguments mkEngine {C T} world link_table app_table inhale exhale LASTFREES SLEEP reported.
Arguments world {C T} _.
Arguments link_table {C T} _.
Arguments app_table {C T} _.
Arguments inhale {C T} _.
Arguments exhale {C T} _.
Arguments LASTFREES {C T} _.
Arguments SLEEP {C T} _.
Arguments reported {C T} _.

Section engine.
Context {C T : Type}.
Implicit Types s : EngineState C T.

Definition set_world (w : World) s : EngineState C T :=
  mkEngine w (link_table s) (app_table s) (inhale s) (exhale s) (LASTFREES s) (SLEEP s) (reported s).
Definition set_link_table (m : gmap string link_id) s : EngineState C T :=
  mkEngine (world s) m (app_table s) (inhale s) (exhale s) (LASTFREES s) (SLEEP s) (reported s).
Definition set_app_table (m : gmap string (AppState C T)) s : EngineState C T :=
  mkEngine (world s) (link_table s) m (inhale s) (exhale s) (LASTFREES s) (SLEEP s) (reported s).
Definition set_order_of (i e : list string) s : EngineState C T :=
  mkEngine (world s) (link_table s) (app_table s) i e (LASTFREES s) (SLEEP s) (reported s).
Definition set_pace (lastfrees sleep : Z) s : EngineState C T :=
  mkEngine (world s) (link_table s) (app_table s) (inhale s) (exhale s) lastfrees sleep (reported s).
Definition set_reported (r : Reported) s : EngineState C T :=
  mkEngine (world s) (link_table s) (app_table s) (inhale s) (exhale s) (LASTFREES s) (SLEEP s) r.

Definition never_reported : Reported := mkReported None 0 0 0 0.

Definition in_world {A} (m : ST World A) : ST (EngineState C T) A := λ s,
  match m (world s) with
  | Ok (a, w) => Ok (a, set_world w s)
  | Panic e => Panic e
  | UB e => UB e
  | NoFuel => NoFuel
  end.

(** state.app_table.get_mut(name).unwrap() *)
Definition get_app (name : string) : ST (EngineState C T) (AppState C T) :=
  s ← get;
  lift (unwrap "called `Option::unwrap()` on a `None` value" (app_table s !! name)).
Definition put_app (name : string) (a : AppState C T) : ST (EngineState C T) () :=
  modify (λ s, set_app_table (<[name := a]> (app_table s)) s).

Lemma wpx_in_world E {A} (m : ST World A) (Φ : A → EngineState C T → Prop) s :
  wpx E m (λ a w, Φ a (set_world w s)) (world s) → wpx E (in_world m) Φ s.
Proof. unfold wpx, in_world. by destruct (m (world s)) as [[a w]| | |]. Qed.

Lemma get_app_wp E name a (Φ : AppState C T → EngineState C T → Prop) s :
  app_table s !! name = Some a → Φ a s → wpx E (get_app name) Φ s.
Proof. intros Ha HΦ. apply wpx_bind, wpx_get. eapply wpx_lift; [|exact HΦ]. by rewrite Ha. Qed.
End engine.
