(* ===== verification/BreatheOrder.v ===== *)
(** * engine.rs: compute_breathe_order

    Which apps pull ([inhale]) and push ([exhale]) in a breath, and in what
    order. *)

From Stdlib Require Import Floats.SpecFloat.
From stdpp Require Import sorting.
From S2P Require Import Prelude App Engine.
From S2P Require Config.
#[local] Open Scope Z_scope.

(** for x in xs { a = body(a, x) }, where the body may panic *)
Fixpoint fold_outcome {A X} (body : A → X → outcome A) (xs : list X) (a : A) : outcome A :=
  match xs with
  | [] => Ok a
  | x :: xs => a ← body a x; fold_outcome body xs a
  end.

(** v.sort() *)
Definition sort (v : list string) : list string := merge_sort String.le v.

Section breathe_order.
Context `{HashOrder} {C T : Type} `{App T}.

Abbreviation successors := (gmap string (gset string)).
Implicit Types (succ : successors) (names dependents exhale : list string).

(** Build map of successors *)
Definition add_successor (succ : successors) (link : string) : outcome successors :=
  spec ← Config.parse_link link;
  Ok (<[Config.from spec := {[Config.to spec]} ∪ default ∅ (succ !! Config.from spec)]> succ).
Definition successors_of (links : list string) : outcome successors :=
  fold_outcome add_successor links ∅.

(** Put pull apps in inhalers; sort inhalers by name *)
Definition inhalers (table : gmap string (AppState C T)) : list string :=
  sort ((filter (λ na, has_pull (app na.2) = true) (order table)).*1).

(** Collect dependents: the successors of [names] that push, less those that
    are known ([skip]) *)
Definition collect_one (table : gmap string (AppState C T)) (skip dependents : list string) (successor : string) :
    outcome (list string) :=
  a ← unwrap "called `Option::unwrap()` on a `None` value" (table !! successor);
  if has_push (app a) && negb (bool_decide (successor ∈ skip)) && negb (bool_decide (successor ∈ dependents))
  then Ok (dependents ++ [successor])
  else Ok dependents.
Definition collect (table : gmap string (AppState C T)) (succ : successors) (skip names : list string) :
    outcome (list string) :=
  fold_outcome (λ dependents name,
    match succ !! name with
    | Some ss => fold_outcome (collect_one table skip) (set_order ss) dependents
    | None => Ok dependents
    end) names [].

(** Remove processed successors *)
Definition remove_all (succ : successors) (names : list string) : successors :=
  foldl (λ succ name, delete name succ) succ names.

(** Attempt to delay dependents after their inputs, but break cycles by
    selecting at least one dependent *)
Definition delay_one (name : string) (sd : gset string * list string) (successor : string) : gset string * list string :=
  let '(selected, dependents) := sd in
  if negb (bool_decide (successor ∈ selected)) && bool_decide (successor ∈ dependents) &&
     (1 <? Z.of_nat (length dependents))
  then ({[name]} ∪ selected, filter (λ name, name ≠ successor) dependents)
  else sd.
Definition delay_for (succ : successors) (sd : gset string * list string) (name : string) : gset string * list string :=
  match succ !! name with
  | Some ss => foldl (delay_one name) sd (set_order ss)
  | None => sd
  end.
Definition delay (succ : successors) (dependents : list string) : list string :=
  (foldl (delay_for succ) (∅, dependents) dependents).2.

(** while dependents.len() > 0: every round exhales an app that was not. *)
Fixpoint push_order (fuel : nat) (table : gmap string (AppState C T)) (succ : successors)
    (exhale dependents : list string) : outcome (list string) :=
  match dependents with
  | [] => Ok exhale
  | _ =>
      match fuel with
      | O => NoFuel
      | S fuel =>
          let exhaled := sort (delay succ dependents) in
          let exhale := exhale ++ exhaled in
          dependents ← collect table succ exhale exhaled;
          push_order fuel table (remove_all succ exhaled) exhale dependents
      end
  end.

(** The new inhale and exhale. *)
Definition breathe_order (table : gmap string (AppState C T)) (link_table : gmap string link_id) :
    outcome (list string * list string) :=
  succ ← successors_of (keys link_table);
  let inhale := inhalers table in
  dependents ← collect table succ [] inhale;
  exhale ← push_order (size table) table (remove_all succ inhale) [] dependents;
  Ok (inhale, exhale).

Definition compute_breathe_order : ST (EngineState C T) () :=
  s ← get;
  '(inhale, exhale) ← lift (breathe_order (app_table s) (link_table s));
  modify (set_order_of inhale exhale).
End breathe_order.

(** ** What is to be computed *)

Section spec.
Context `{HashOrder} {C T : Type} `{App T}.
Context (table : gmap string (AppState C T)) (links : gset string).

(** App [to] has an input linked to an output of [from]. *)
Definition linked (from to : string) : Prop :=
  ∃ l spec, l ∈ links ∧ Config.parse_link l = Ok spec ∧ Config.from spec = from ∧ Config.to spec = to.

Definition pulls (name : string) : Prop := ∃ a, table !! name = Some a ∧ has_pull (app a) = true.
Definition pushes (name : string) : Prop := ∃ a, table !! name = Some a ∧ has_push (app a) = true.

(** The apps that packets can reach in a breath: they push, and are linked to
    an app that pulls or to another one that packets can reach. *)
Inductive reached : string → Prop :=
  | reached_pull x y : pulls x → linked x y → pushes y → reached y
  | reached_push x y : reached x → linked x y → pushes y → reached y.
End spec.

(** ** Loops that may panic *)

Lemma fold_outcome_inv {A X} (body : A → X → outcome A) (I : list X → A → Prop) :
  ∀ xs ds a, I ds a →
  (∀ ds x a, x ∈ xs → I ds a → ∃ a', body a x = Ok a' ∧ I (ds ++ [x]) a') →
  ∃ a', fold_outcome body xs a = Ok a' ∧ I (ds ++ xs) a'.
Proof.
  induction xs as [|x xs IH]; intros ds a Ha Hstep; simpl.
  - exists a. by rewrite app_nil_r.
  - destruct (Hstep ds x a ltac:(left) Ha) as (a1 & -> & H1). simpl.
    destruct (IH (ds ++ [x]) a1 H1) as (a' & -> & H').
    { intros. apply Hstep; [by right|done]. }
    exists a'. by rewrite <-app_assoc in H'.
Qed.

Lemma elem_of_keys `{HashOrder} {A} (m : gmap string A) k : k ∈ keys m ↔ k ∈ dom m.
Proof.
  unfold keys. rewrite (order_perm m), elem_of_dom, list_elem_of_fmap. split.
  - intros ([k' v] & -> & Hin). apply elem_of_map_to_list in Hin. by exists v.
  - intros [v Hv]. exists (k, v). split; [done|]. by apply elem_of_map_to_list.
Qed.

Lemma elem_of_set_order `{HashOrder} (m : gset string) k : k ∈ set_order m ↔ k ∈ m.
Proof. by rewrite set_order_perm, elem_of_elements. Qed.

Lemma elem_of_sort k v : k ∈ sort v ↔ k ∈ v.
Proof. unfold sort. by rewrite merge_sort_Permutation. Qed.

Section order.
Context `{HashOrder} {C T : Type} `{App T}.
Context (table : gmap string (AppState C T)).

Abbreviation successors := (gmap string (gset string)).
Implicit Types succ : successors.

Definition edge succ (x y : string) : Prop := ∃ ss, succ !! x = Some ss ∧ y ∈ ss.

(** *** The map of successors *)

Lemma add_successor_edge succ l spec succ' x y :
  Config.parse_link l = Ok spec → add_successor succ l = Ok succ' →
  edge succ' x y ↔ edge succ x y ∨ (Config.from spec = x ∧ Config.to spec = y).
Proof.
  intros Hp. unfold add_successor. rewrite Hp. intros [= <-]. unfold edge.
  destruct (decide (Config.from spec = x)) as [<-|Hne].
  - rewrite lookup_insert_eq. split.
    + intros (ss & [= <-] & Hy). apply elem_of_union in Hy as [Hy|Hy]; [right; set_solver|left].
      destruct (succ !! Config.from spec) as [ss|]; [by exists ss|]. simpl in Hy. set_solver.
    + intros Hy. eexists. split; [done|]. destruct Hy as [(ss & -> & Hy)|[_ <-]]; set_solver.
  - rewrite lookup_insert_ne by done. split; [by left|]. by intros [|[]].
Qed.

Lemma successors_of_spec links names :
  (∀ l, l ∈ names ↔ l ∈ links) → (∀ l, l ∈ links → ∃ spec, Config.parse_link l = Ok spec) →
  ∃ succ, successors_of names = Ok succ ∧ ∀ x y, edge succ x y ↔ linked links x y.
Proof.
  intros Hl Hp. unfold successors_of.
  destruct (fold_outcome_inv add_successor (λ ds succ, ∀ x y, edge succ x y ↔ linked (list_to_set ds) x y)
    names [] ∅) as (succ & -> & Hs).
  - intros x y. unfold edge, linked. setoid_rewrite lookup_empty. set_solver.
  - intros ds l succ Hin Hs. destruct (Hp l) as [spec Hspec]; [by apply Hl|].
    assert (∃ succ', add_successor succ l = Ok succ') as [succ' Hadd] by (unfold add_successor; rewrite Hspec; eauto).
    exists succ'. split; [done|]. intros x y. rewrite (add_successor_edge _ _ _ _ _ _ Hspec Hadd), Hs.
    unfold linked. setoid_rewrite elem_of_list_to_set. setoid_rewrite elem_of_app.
    setoid_rewrite list_elem_of_singleton. split.
    + intros [(l' & sp & ? & ?)|[<- <-]]; [exists l', sp; naive_solver|exists l, spec; naive_solver].
    + intros (l' & sp & [Hin'| ->] & Hsp & <- & <-); [left; by exists l', sp|right]. assert (sp = spec) as -> by congruence. done.
  - exists succ. split; [done|]. intros x y. rewrite Hs. unfold linked. simpl. 
    setoid_rewrite elem_of_list_to_set. by setoid_rewrite Hl.
Qed.

(** *** Collecting dependents *)

Lemma collect_one_spec skip ds y :
  y ∈ dom table → NoDup ds →
  ∃ ds', collect_one table skip ds y = Ok ds' ∧ NoDup ds' ∧
    ∀ z, z ∈ ds' ↔ z ∈ ds ∨ (z = y ∧ pushes table y ∧ y ∉ skip).
Proof.
  intros [a Ha]%elem_of_dom Hnd. unfold collect_one, pushes. rewrite Ha. simpl.
  destruct (has_push (app a)) eqn:Hpush; simpl.
  2: { exists ds. split_and!; [done|done|]. intros z. split; [by left|]. intros [|(-> & (a' & ? & ?) & _)]; [done|].
       simplify_eq. congruence. }
  destruct (decide (y ∈ skip)) as [Hs|Hs].
  { rewrite bool_decide_eq_true_2 by done. simpl. exists ds. split_and!; [done|done|]. naive_solver. }
  rewrite bool_decide_eq_false_2 by done. simpl.
  destruct (decide (y ∈ ds)) as [Hd|Hd].
  - rewrite bool_decide_eq_true_2 by done. exists ds. split_and!; [done|done|]. naive_solver.
  - rewrite bool_decide_eq_false_2 by done. exists (ds ++ [y]). split_and!; [done| |].
    + apply NoDup_app. split_and!; [done| |by apply NoDup_singleton]. set_solver.
    + intros z. rewrite elem_of_app, list_elem_of_singleton. naive_solver.
Qed.

Lemma edge_snoc succ names x z :
  (∃ x', x' ∈ names ++ [x] ∧ edge succ x' z) ↔ (∃ x', x' ∈ names ∧ edge succ x' z) ∨ edge succ x z.
Proof. setoid_rewrite elem_of_app. setoid_rewrite list_elem_of_singleton. naive_solver. Qed.

Lemma edge_lookup succ x ss z : succ !! x = Some ss → edge succ x z ↔ z ∈ ss.
Proof. intros Hs. split; [intros (ss' & ? & ?); by simplify_eq|intros ?; by exists ss]. Qed.

Lemma collect_spec succ skip names :
  (∀ x y, x ∈ names → edge succ x y → y ∈ dom table) →
  ∃ ds, collect table succ skip names = Ok ds ∧ NoDup ds ∧
    ∀ z, z ∈ ds ↔ (∃ x, x ∈ names ∧ edge succ x z) ∧ pushes table z ∧ z ∉ skip.
Proof.
  intros Hdom. unfold collect.
  destruct (fold_outcome_inv (λ dependents name,
    match succ !! name with
    | Some ss => fold_outcome (collect_one table skip) (set_order ss) dependents
    | None => Ok dependents
    end) (λ done ds, NoDup ds ∧ ∀ z, z ∈ ds ↔ (∃ x, x ∈ done ∧ edge succ x z) ∧ pushes table z ∧ z ∉ skip)
    names [] []) as (ds & -> & Hnd & Hds).
  - split; [constructor|]. set_solver.
  - intros done x ds Hin [Hnd Hds]. destruct (succ !! x) as [ss|] eqn:Hss.
    + destruct (fold_outcome_inv (collect_one table skip)
        (λ ys ds', NoDup ds' ∧ ∀ z, z ∈ ds' ↔ z ∈ ds ∨ (z ∈ ys ∧ pushes table z ∧ z ∉ skip))
        (set_order ss) [] ds) as (ds' & -> & Hnd' & Hds').
      * split; [done|]. set_solver.
      * intros ys y ds1 Hy [Hnd1 Hds1].
        destruct (collect_one_spec skip ds1 y) as (ds2 & -> & Hnd2 & Hds2); [|done|].
        { apply (Hdom x); [done|]. exists ss. split; [done|]. by apply elem_of_set_order. }
        exists ds2. split_and!; [done|done|]. intros z. rewrite Hds2, Hds1, elem_of_app, list_elem_of_singleton.
        destruct (decide (z = y)) as [->|]; tauto.
      * exists ds'. split_and!; [done|done|]. intros z. simpl in Hds'.
        rewrite Hds', Hds, elem_of_set_order, edge_snoc, (edge_lookup _ _ _ _ Hss). tauto.
    + exists ds. split_and!; [done|done|]. intros z. rewrite Hds, edge_snoc.
      assert (¬ edge succ x z) by (intros (ss & Hs & _); congruence). tauto.
  - exists ds. by split_and!.
Qed.
(** *** Delaying dependents *)

(** From some of the names in [from], along edges to apps that push. *)
Inductive reach succ (from : string → Prop) : string → Prop :=
  | reach_from x : from x → reach succ from x
  | reach_edge x y : reach succ from x → edge succ x y → pushes table y → reach succ from y.

Lemma reach_mono succ (P Q : string → Prop) x : (∀ y, P y → Q y) → reach succ P x → reach succ Q x.
Proof. intros HPQ. induction 1; [by apply reach_from, HPQ|by eapply reach_edge]. Qed.

Lemma reach_source succ (P : string → Prop) x : reach succ P x → ∃ y, P y.
Proof. induction 1; eauto. Qed.

(** What every step keeps, the loops keep. *)
Lemma delay_steps (P : gset string * list string → Prop) n ys : ∀ sd,
  (∀ y sd, y ∈ ys → P sd → P (delay_one n sd y)) → P sd → P (foldl (delay_one n) sd ys).
Proof.
  induction ys as [|y ys IH]; intros sd Hstep Hsd; simpl; [done|].
  apply IH; [intros; apply Hstep; [by right|done]|]. apply Hstep; [left|done].
Qed.

Lemma delay_inv succ (P : gset string * list string → Prop) names : ∀ sd,
  (∀ n sd y, n ∈ names → edge succ n y → P sd → P (delay_one n sd y)) → P sd →
  P (foldl (delay_for succ) sd names).
Proof.
  induction names as [|n names IH]; intros sd Hstep Hsd; simpl; [done|].
  apply IH; [intros; apply Hstep; [by right|done..]|]. unfold delay_for.
  destruct (succ !! n) as [ss|] eqn:Hss; [|done]. apply delay_steps; [|done].
  intros y sd' Hy. apply Hstep; [left|]. apply elem_of_set_order in Hy. by exists ss.
Qed.

Section delay.
Context (succ : successors) (ds : list string).
Context (Hpush : ∀ x, x ∈ ds → pushes table x) (Hself : ∀ x, x ∈ ds → ¬ edge succ x x).

(** Every dependent is still there, or can be reached from one that is selected. *)
Record delayed (sd : gset string * list string) : Prop := {
  dl_sub : ∀ x, x ∈ sd.2 → x ∈ ds;
  dl_nodup : NoDup sd.2;
  dl_reach : ∀ x, x ∈ ds → x ∈ sd.2 ∨ reach succ (λ y, y ∈ sd.2 ∧ y ∈ sd.1) x;
}.

Lemma delay_one_ok name sd y :
  name ∈ ds → edge succ name y → delayed sd → delayed (delay_one name sd y).
Proof.
  intros Hn He. destruct sd as [selected ds']. intros [Hsub Hnd Hr]. simpl in *. unfold delay_one.
  destruct (decide (y ∈ selected)) as [Hs|Hs]; [by rewrite bool_decide_eq_true_2|].
  rewrite (bool_decide_eq_false_2 (y ∈ selected)) by done. simpl.
  case_bool_decide as Hd; simpl; [|done].
  destruct (Z.ltb_spec 1 (Z.of_nat (length ds'))) as [_|_]; [|done].
  assert (∀ z, z ∈ filter (λ x, x ≠ y) ds' ↔ z ≠ y ∧ z ∈ ds') as Hf by (intros z; by rewrite list_elem_of_filter).
  assert (∀ z, z ∈ ds' ∧ z ∈ selected → z ∈ filter (λ x, x ≠ y) ds' ∧ z ∈ {[name]} ∪ selected) as Hmono.
  { intros z [Hz Hz']. rewrite Hf. split; [split; [|done]|set_solver]. by intros ->. }
  split; simpl.
  - intros z [_ Hz]%Hf. by apply Hsub.
  - by apply NoDup_filter.
  - intros x Hx. destruct (decide (x = y)) as [->|Hxy].
    + right. eapply reach_edge; [|exact He|by apply Hpush]. destruct (Hr name Hn) as [Hn'|Hn'].
      * apply reach_from. rewrite Hf. split; [split; [|done]|set_solver]. intros ->. by apply (Hself y Hn).
      * eapply reach_mono; [exact Hmono|done].
    + destruct (Hr x Hx) as [Hx'|Hx']; [left; by apply Hf|right; eapply reach_mono; [exact Hmono|done]].
Qed.

Lemma delay_ok : NoDup ds → delayed (foldl (delay_for succ) (∅, ds) ds).
Proof.
  intros Hnd. apply delay_inv; [intros; by apply delay_one_ok|]. split; simpl; [done|done|by left].
Qed.

Lemma delay_spec :
  NoDup ds → NoDup (delay succ ds) ∧ (∀ x, x ∈ delay succ ds → x ∈ ds) ∧
  (∀ x, x ∈ ds → reach succ (λ y, y ∈ delay succ ds) x) ∧ (ds ≠ [] → delay succ ds ≠ []).
Proof.
  intros Hnd. destruct (delay_ok Hnd) as [H1 H2 H3]. unfold delay.
  destruct (foldl (delay_for succ) (∅, ds) ds) as [sel ds']. simpl in *.
  assert (∀ x, x ∈ ds → reach succ (λ y, y ∈ ds') x) as Hr.
  { intros x Hx. destruct (H3 x Hx) as [|Hx']; [by apply reach_from|].
    eapply reach_mono; [|exact Hx']. by intros y []. }
  split_and!; [done|done|done|]. destruct ds as [|d]; [done|]. intros _ ->.
  destruct (reach_source _ _ _ (Hr d ltac:(left))) as [y Hy]. by apply not_elem_of_nil in Hy.
Qed.
End delay.
(** *** The loop *)

Lemma edge_remove_all succ names x y : edge (remove_all succ names) x y ↔ (x ∉ names) ∧ edge succ x y.
Proof.
  unfold remove_all. revert succ. induction names as [|n names IH]; intros succ; simpl; [set_solver|].
  rewrite IH. unfold edge. destruct (decide (n = x)) as [->|Hne].
  - rewrite lookup_delete_eq. set_solver.
  - rewrite lookup_delete_ne by done. set_solver.
Qed.

Lemma pushes_dom x : pushes table x → x ∈ dom table.
Proof. intros (a & Ha & _). apply elem_of_dom. by exists a. Qed.

Lemma nodup_dom_length (xs : list string) :
  NoDup xs → (∀ x, x ∈ xs → x ∈ dom table) → (length xs ≤ size table)%nat.
Proof.
  intros Hnd Hd. rewrite <-size_dom, <-(size_list_to_set (C := gset string) xs) by done.
  apply subseteq_size. intros x Hx. apply elem_of_list_to_set in Hx. by apply Hd.
Qed.

(** The state at the head of the loop. *)
Record loop_inv succ (exhale ds : list string) : Prop := {
  lo_nodup : NoDup (exhale ++ ds);
  lo_push : ∀ x, x ∈ exhale ++ ds → pushes table x;
  lo_dom : ∀ x y, edge succ x y → y ∈ dom table;
  lo_self : ∀ x, pushes table x → ¬ edge succ x x;
  lo_done : ∀ x y, x ∈ exhale → ¬ edge succ x y;
}.

(** One round: what is reachable is exhaled or remains reachable. *)
Lemma round_ok succ exhale ds :
  loop_inv succ exhale ds →
  let exhaled := sort (delay succ ds) in
  ∃ ds', collect table succ (exhale ++ exhaled) exhaled = Ok ds' ∧
    loop_inv (remove_all succ exhaled) (exhale ++ exhaled) ds' ∧ (ds ≠ [] → exhaled ≠ []) ∧
    (∀ x, x ∈ exhale ++ exhaled ∨ reach (remove_all succ exhaled) (λ y, y ∈ ds') x ↔
          x ∈ exhale ∨ reach succ (λ y, y ∈ ds) x).
Proof.
  intros [Hnd Hpush Hdom Hself Hdone] exhaled. apply NoDup_app in Hnd as (Hnd & Hdisj & Hnd').
  destruct (delay_spec succ ds) as (Hd1 & Hd2 & Hd3 & Hd4); [set_solver| |done|].
  { intros x Hx. apply Hself, Hpush. set_solver. }
  assert (∀ x, x ∈ exhaled ↔ x ∈ delay succ ds) as Hex by (intros x; apply elem_of_sort).
  destruct (collect_spec succ (exhale ++ exhaled) exhaled) as (ds' & Hc & Hnds & Hds); [by intros; eapply Hdom|].
  exists ds'. split; [done|]. split_and!.
  - split.
    + apply NoDup_app. split_and!; [|intros x Hx; rewrite Hds; tauto|done].
      apply NoDup_app. split_and!; [done| |].
      * intros x Hx. rewrite Hex. intros Hx'. by eapply Hdisj, Hd2.
      * unfold exhaled, sort. by rewrite merge_sort_Permutation.
    + intros x. rewrite !elem_of_app, Hex, Hds. intros [[Hx|Hx]|Hx]; [| |apply Hx];
        apply Hpush, elem_of_app; auto.
    + intros x y [_ He]%edge_remove_all. by eapply Hdom.
    + intros x Hp [_ He]%edge_remove_all. by eapply Hself.
    + intros x y Hx [Hn He]%edge_remove_all. apply elem_of_app in Hx as [Hx|Hx]; [by eapply Hdone|done].
  - intros Hne Hnil. destruct (delay succ ds) as [|d ?]; [by apply Hd4|].
    assert (d ∈ exhaled) as Hx by (apply Hex; left). rewrite Hnil in Hx. by apply not_elem_of_nil in Hx.
  - assert (∀ x, reach succ (λ y, y ∈ delay succ ds) x →
      x ∈ exhale ++ exhaled ∨ reach (remove_all succ exhaled) (λ y, y ∈ ds') x) as Hgo.
    { induction 1 as [x Hx|x y _ IH He Hp]; [left; apply elem_of_app; right; by apply Hex|].
      destruct (decide (y ∈ exhale ++ exhaled)) as [Hy|Hy]; [by left|right].
      destruct (decide (x ∈ exhale ++ exhaled)) as [Hx|Hx].
      - apply elem_of_app in Hx as [Hx|Hx]; [by destruct (Hdone x y)|].
        apply reach_from, Hds. split_and!; [by exists x|done|done].
      - destruct IH as [|IH]; [done|]. eapply reach_edge; [exact IH|apply edge_remove_all|done].
        split; [set_solver|done]. }
    intros x. split.
    + intros [[Hx|Hx]%elem_of_app|Hx]; [by left|right; by apply reach_from, Hd2, Hex|right].
      induction Hx as [x Hx|x y _ IH [_ He]%edge_remove_all Hp]; [|by eapply reach_edge].
      apply Hds in Hx as ((z & Hz & He) & Hp & _). eapply reach_edge; [|done|done].
      by apply reach_from, Hd2, Hex.
    + intros [Hx|Hx]; [left; set_solver|]. apply Hgo.
      induction Hx as [x Hx|x y _ IH He Hp]; [by apply Hd3|by eapply reach_edge].
Qed.

Lemma push_order_spec fuel : ∀ succ exhale ds,
  loop_inv succ exhale ds → (size table ≤ length exhale + fuel)%nat →
  ∃ out, push_order fuel table succ exhale ds = Ok out ∧ NoDup out ∧
    ∀ x, x ∈ out ↔ x ∈ exhale ∨ reach succ (λ y, y ∈ ds) x.
Proof.
  assert (∀ succ x, ¬ reach succ (λ y, y ∈ @nil string) x) as Hnil.
  { intros succ x Hx. apply reach_source in Hx as [y Hy]. by apply not_elem_of_nil in Hy. }
  induction fuel as [|fuel IH]; intros succ exhale ds Hinv Hf; destruct ds as [|d ds].
  - exists exhale. split_and!; [done| |intros x; specialize (Hnil succ x); tauto].
    pose proof (lo_nodup _ _ _ Hinv) as Hnd. by rewrite app_nil_r in Hnd.
  - exfalso. assert (length (exhale ++ d :: ds) ≤ size table)%nat as Hl.
    { apply nodup_dom_length; [apply (lo_nodup _ _ _ Hinv)|].
      intros x Hx. by eapply pushes_dom, (lo_push _ _ _ Hinv). }
    rewrite length_app in Hl. simpl in Hl. lia.
  - exists exhale. split_and!; [done| |intros x; specialize (Hnil succ x); tauto].
    pose proof (lo_nodup _ _ _ Hinv) as Hnd. by rewrite app_nil_r in Hnd.
  - destruct (round_ok _ _ _ Hinv) as (ds' & Hc & Hinv' & Hne & Hr).
    cbn [push_order]. rewrite Hc. cbn [mbind outcome_bind].
    destruct (IH _ _ _ Hinv') as (out & -> & Hnd & Hout).
    { rewrite length_app. specialize (Hne ltac:(done)). destruct (sort (delay succ (d :: ds))); [done|]. simpl. lia. }
    exists out. split_and!; [done|done|]. intros x. by rewrite Hout.
Qed.
(** *** Layers *)

Lemma delay_none succ ds : (∀ x y, x ∈ ds → y ∈ ds → ¬ edge succ x y) → delay succ ds = ds.
Proof.
  intros Hno. unfold delay.
  assert (∀ names, (∀ n, n ∈ names → n ∈ ds) → foldl (delay_for succ) (∅, ds) names = (∅, ds)) as Hgo; [|by rewrite Hgo].
  induction names as [|n names IH]; intros Hn; simpl; [done|].
  assert (delay_for succ (∅, ds) n = (∅, ds)) as ->; [|apply IH; intros; apply Hn; by right].
  unfold delay_for. destruct (succ !! n) as [ss|] eqn:Hss; [|done].
  assert (∀ ys, (∀ y, y ∈ ys → y ∉ ds) → foldl (delay_one n) (∅, ds) ys = (∅, ds)) as Hys.
  { induction ys as [|y ys IHys]; intros Hy; simpl; [done|].
    rewrite (bool_decide_eq_false_2 (y ∈ ds)) by (apply Hy; left). rewrite andb_false_r. simpl.
    apply IHys. intros. apply Hy. by right. }
  apply Hys. intros y Hy%elem_of_set_order Hd. apply (Hno n y); [apply Hn; left|done|]. by exists ss.
Qed.

Section layers.
Context (links : gset string) (level : string → nat → Prop).

(** Apps fed by an app that pulls are on the first level, apps fed by others one
    level further than those. *)
Record layered : Prop := {
  ly_once : ∀ x k k', level x k → level x k' → k = k';
  ly_first : ∀ x y, pulls table x → linked links x y → pushes table y → level y 0;
  ly_next : ∀ x y k, ¬ pulls table x → linked links x y → pushes table y → level x k → level y (S k);
}.
Context (Hly : layered).

Definition level_le (x y : string) : Prop := ∀ kx ky, level x kx → level y ky → (kx ≤ ky)%nat.

Lemma levels_sorted k exhale exhaled :
  StronglySorted level_le exhale → (∀ x, x ∈ exhale → ∃ j, (j < k)%nat ∧ level x j) → (∀ x, x ∈ exhaled → level x k) →
  StronglySorted level_le (exhale ++ exhaled).
Proof.
  intros Hs Hlow Hk. apply StronglySorted_app. split_and!; [|done|].
  - intros x y Hx Hy kx ky Hkx Hky. destruct (Hlow x Hx) as (j & Hj & Hxj).
    rewrite (ly_once Hly _ _ _ Hkx Hxj), (ly_once Hly _ _ _ Hky (Hk y Hy)). lia.
  - clear Hs Hlow. induction exhaled as [|x xs IH]; constructor.
    + apply IH. intros. apply Hk. by right.
    + apply Forall_forall. intros y Hy kx ky Hkx Hky.
      assert (kx = k) as -> by (eapply (ly_once Hly); [done|]; apply Hk; left).
      assert (ky = k) as -> by (eapply (ly_once Hly); [done|]; apply Hk; by right). done.
Qed.

Lemma push_order_layers fuel : ∀ succ exhale ds k out,
  (∀ x y, edge succ x y → ¬ pulls table x ∧ linked links x y ∧ y ∈ dom table) →
  (∀ x, x ∈ ds → pushes table x ∧ level x k) → (∀ x, x ∈ exhale → ∃ j, (j < k)%nat ∧ level x j) →
  StronglySorted level_le exhale → push_order fuel table succ exhale ds = Ok out → StronglySorted level_le out.
Proof.
  induction fuel as [|fuel IH]; intros succ exhale [|d ds] k out He Hds Hex Hs; cbn [push_order]; try (by intros [= <-]).
  set (ds1 := d :: ds) in *.
  assert (∀ x y, x ∈ ds1 → edge succ x y → pushes table y → level y (S k)) as Hnext.
  { intros x y Hx (Hn & Hl & _)%He Hp. apply (ly_next Hly x y k); [done|done|done|by apply Hds]. }
  rewrite delay_none.
  2: { intros x y Hx Hy Hxy. destruct (Hds y Hy) as [Hp Hk].
       pose proof (ly_once Hly _ _ _ (Hnext x y Hx Hxy Hp) Hk). lia. }
  assert (∀ x, x ∈ sort ds1 ↔ x ∈ ds1) as Hsort by (intros x; apply elem_of_sort).
  destruct (collect_spec succ (exhale ++ sort ds1) (sort ds1)) as (ds' & -> & _ & Hds'); [intros x y _ Hxy; by apply He in Hxy as (_ & _ & ?)|].
  cbn [mbind outcome_bind]. apply (IH _ _ _ (S k)).
  - intros x y [_ Hxy]%edge_remove_all. by apply He.
  - intros x ((z & Hz & Hzx) & Hp & _)%Hds'. split; [done|]. eapply Hnext; [by apply Hsort|done|done].
  - intros x [Hx|Hx]%elem_of_app; [|exists k; split; [lia|by apply Hds, Hsort]].
    destruct (Hex x Hx) as (j & Hj & Hxj). exists j. split; [lia|done].
  - eapply levels_sorted; [done|exact Hex|]. intros x Hx. by apply Hds, Hsort.
Qed.

(** [x] comes before [y]. *)
Definition before (l : list string) (x y : string) : Prop := ∃ i j, (i < j)%nat ∧ l !! i = Some x ∧ l !! j = Some y.

Lemma sorted_before l x y kx ky :
  StronglySorted level_le l → x ∈ l → y ∈ l → level x kx → level y ky → (kx < ky)%nat → before l x y.
Proof.
  intros Hs [i Hi]%list_elem_of_lookup [j Hj]%list_elem_of_lookup Hx Hy Hlt. exists i, j. split_and!; [|done|done].
  destruct (decide (i < j)%nat) as [|Hge]; [done|]. exfalso. destruct (decide (i = j)) as [->|Hne].
  - assert (x = y) as -> by congruence. pose proof (ly_once Hly _ _ _ Hx Hy). lia.
  - rewrite <-(take_drop i l) in Hs. assert (ky ≤ kx)%nat; [|lia].
    eapply (StronglySorted_app_1_elem_of _ _ _ y x Hs); [| |done|done].
    + apply list_elem_of_lookup. exists j. rewrite lookup_take_lt by lia. done.
    + apply list_elem_of_lookup. exists O. by rewrite lookup_drop, Nat.add_0_r.
Qed.
End layers.

(** *** The whole computation *)

Lemma inhalers_spec x : x ∈ inhalers table ↔ pulls table x.
Proof.
  unfold inhalers, pulls. rewrite elem_of_sort, list_elem_of_fmap. split.
  - intros ([k a] & -> & [Hp Hin]%list_elem_of_filter). exists a. split; [|done].
    rewrite order_perm in Hin. by apply elem_of_map_to_list in Hin.
  - intros (a & Ha & Hp). exists (x, a). split; [done|]. apply list_elem_of_filter. split; [done|].
    rewrite order_perm. by apply elem_of_map_to_list.
Qed.

Lemma inhalers_nodup : NoDup (inhalers table).
Proof.
  unfold inhalers, sort. rewrite merge_sort_Permutation, (order_perm table).
  eapply NoDup_fmap_fst; [|apply NoDup_filter, NoDup_map_to_list].
  intros k a1 a2 [_ H1]%list_elem_of_filter [_ H2]%list_elem_of_filter.
  apply elem_of_map_to_list in H1, H2. by simplify_eq.
Qed.

Lemma breathe_order_spec (lt : gmap string link_id) :
  (∀ l, l ∈ dom lt → ∃ spec, Config.parse_link l = Ok spec ∧ Config.to spec ∈ dom table) →
  (∀ x, pushes table x → ¬ linked (dom lt) x x) →
  ∃ exhale, breathe_order table lt = Ok (inhalers table, exhale) ∧ NoDup exhale ∧
    ∀ x, x ∈ exhale ↔ reached table (dom lt) x.
Proof.
  intros Hspec Hself. unfold breathe_order.
  destruct (successors_of_spec (dom lt) (keys lt)) as (succ & -> & Hsucc); [apply elem_of_keys| |].
  { intros l Hl. destruct (Hspec l Hl) as (spec & ? & _). by exists spec. }
  cbn [mbind outcome_bind].
  assert (∀ x y, edge succ x y → y ∈ dom table) as Hdom.
  { intros x y (l & spec & Hl & Hp & _ & <-)%Hsucc. destruct (Hspec l Hl) as (spec' & Hp' & Hd).
    by assert (spec' = spec) as -> by congruence. }
  destruct (collect_spec succ [] (inhalers table)) as (ds & -> & Hnd & Hds); [by intros; eapply Hdom|].
  cbn [mbind outcome_bind]. set (succ' := remove_all succ (inhalers table)).
  destruct (push_order_spec (size table) succ' [] ds) as (out & -> & Hnd' & Hout); [|simpl; lia|].
  { split; simpl.
    - done.
    - intros x Hx. by apply Hds.
    - intros x y [_ He]%edge_remove_all. by eapply Hdom.
    - intros x Hp [_ He]%edge_remove_all. apply (Hself x Hp). by apply Hsucc.
    - intros x y Hx. by apply not_elem_of_nil in Hx. }
  exists out. split_and!; [done|done|]. intros x. rewrite Hout. split.
  - intros [Hx|Hx]; [by apply not_elem_of_nil in Hx|].
    induction Hx as [x Hx|x y _ IH [_ He]%edge_remove_all Hp].
    + apply Hds in Hx as ((z & Hz & He) & Hp & _).
      eapply (reached_pull _ _ z); [by apply inhalers_spec|by apply Hsucc|done].
    + eapply (reached_push _ _ x); [done|by apply Hsucc|done].
  - intros Hx. right. induction Hx as [x y Hx He Hp|x y _ IH He Hp].
    + apply reach_from, Hds. split_and!; [|done|apply not_elem_of_nil].
      exists x. split; [by apply inhalers_spec|by apply Hsucc].
    + apply Hsucc in He. destruct (decide (x ∈ inhalers table)) as [Hi|Hi].
      * apply reach_from, Hds. split_and!; [by exists x|done|apply not_elem_of_nil].
      * eapply reach_edge; [exact IH|by apply edge_remove_all|done].
Qed.
(** Layer by layer. *)
Lemma breathe_order_layers (lt : gmap string link_id) level exhale :
  (∀ l, l ∈ dom lt → ∃ spec, Config.parse_link l = Ok spec ∧ Config.to spec ∈ dom table) →
  layered (dom lt) level → breathe_order table lt = Ok (inhalers table, exhale) → StronglySorted (level_le level) exhale.
Proof.
  intros Hspec Hly. unfold breathe_order.
  destruct (successors_of_spec (dom lt) (keys lt)) as (succ & -> & Hsucc); [apply elem_of_keys| |].
  { intros l Hl. destruct (Hspec l Hl) as (spec & ? & _). by exists spec. }
  cbn [mbind outcome_bind].
  assert (∀ x y, edge succ x y → y ∈ dom table) as Hdom.
  { intros x y (l & spec & Hl & Hp & _ & <-)%Hsucc. destruct (Hspec l Hl) as (spec' & Hp' & Hd).
    by assert (spec' = spec) as -> by congruence. }
  destruct (collect_spec succ [] (inhalers table)) as (ds & -> & Hnd & Hds); [by intros; eapply Hdom|].
  cbn [mbind outcome_bind].
  destruct (push_order _ _ _ _ _) as [out| | |] eqn:Ho; try done. intros [= <-].
  eapply (push_order_layers (dom lt) level Hly _ _ [] ds 0); [| | |constructor|exact Ho].
  - intros x y [Hx He]%edge_remove_all. split_and!; [by rewrite <-inhalers_spec|by apply Hsucc|by eapply Hdom].
  - intros x ((z & Hz & Hzx) & Hp & _)%Hds. split; [done|].
    eapply (ly_first _ _ Hly z); [by apply inhalers_spec|by apply Hsucc|done].
  - by intros x ?%not_elem_of_nil.
Qed.
(** An app that does not pull is pushed before the apps that it feeds, if the
    network has layers. *)
Definition in_order (links : gset string) (exhale : list string) : Prop :=
  ∀ level, layered links level → (∀ x, reached table links x → ∃ k, level x k) →
  ∀ x y, reached table links x → ¬ pulls table x → linked links x y → pushes table y → before exhale x y.

Lemma breathe_order_in_order (lt : gmap string link_id) exhale :
  (∀ l, l ∈ dom lt → ∃ spec, Config.parse_link l = Ok spec ∧ Config.to spec ∈ dom table) →
  breathe_order table lt = Ok (inhalers table, exhale) → (∀ x, x ∈ exhale ↔ reached table (dom lt) x) →
  in_order (dom lt) exhale.
Proof.
  intros Hspec He Hex level Hly Hlevel x y Hx Hnp Hl Hp.
  destruct (Hlevel x Hx) as [k Hk]. eapply (sorted_before (dom lt) level Hly _ x y k (S k)); [| | |done| |lia].
  - by eapply breathe_order_layers.
  - by apply Hex.
  - apply Hex. by eapply reached_push.
  - by eapply (ly_next _ _ Hly x y).
Qed.
(** *** Starvation *)


Section starve.
Context (x y : string) (Hxy : x ≠ y).




End starve.
End order.

(** C18. The breathe order follows the links where the network has layers, so
    that a packet passes the whole network in one breath: if the apps that are
    fed by an app that pulls make up the first layer, and those fed by other
    apps are on the layer after them, then an app that does not pull is pushed
    before all the apps that it feeds, whatever the order of hash tables. *)
Theorem breathe_order_follows_links `{HashOrder} {C T} `{App T} (s : EngineState C T) level E :
  let table := app_table s in let links := dom (link_table s) in
  (∀ l, l ∈ links → ∃ spec, Config.parse_link l = Ok spec ∧ Config.to spec ∈ dom table) →
  (∀ x, pushes table x → ¬ linked links x x) → layered table links level → (∀ x, reached table links x → ∃ k, level x k) →
  wpx E compute_breathe_order (λ _ s', ∀ x y,
    reached table links x → ¬ pulls table x → linked links x y → pushes table y → before (exhale s') x y) s.
Proof.
  intros table links Hspec Hself Hly Hlevel. unfold compute_breathe_order. apply wpx_bind, wpx_get, wpx_bind.
  destruct (breathe_order_spec table (link_table s) Hspec Hself) as (ex & He & Hnd & Hex).
  eapply wpx_lift; [exact He|]. apply wpx_modify. simpl. intros x y.
  by apply (breathe_order_in_order table (link_table s) ex Hspec He Hex level).
Qed.

(** C17. compute_breathe_order always terminates and, when the apps at the ends of
    all links exist and no app that pushes is linked to itself, it does not
    panic: [inhale] lists the apps that pull, once each and sorted by name, and
    [exhale] exactly the apps that packets can reach, once each, whatever
    cycles there are among the links and in whatever order hash tables are
    iterated.  The rest of the state is as before. *)
Theorem breathe_order_complete `{HashOrder} {C T} `{App T} (s : EngineState C T) E :
  let table := app_table s in let links := dom (link_table s) in
  (∀ l, l ∈ links → ∃ spec, Config.parse_link l = Ok spec ∧ Config.to spec ∈ dom table) →
  (∀ x, pushes table x → ¬ linked links x x) →
  wpx E compute_breathe_order (λ _ s', s' = set_order_of (inhale s') (exhale s') s ∧
    Sorted String.le (inhale s') ∧ NoDup (inhale s') ∧ (∀ x, x ∈ inhale s' ↔ pulls table x) ∧
    NoDup (exhale s') ∧ (∀ x, x ∈ exhale s' ↔ reached table links x)) s.
Proof.
  intros table links Hspec Hself. unfold compute_breathe_order. apply wpx_bind, wpx_get, wpx_bind.
  destruct (breathe_order_spec table (link_table s) Hspec Hself) as (ex & He & Hnd & Hex).
  eapply wpx_lift; [exact He|]. apply wpx_modify. simpl. split_and!; try done.
  - apply Sorted_merge_sort, _.
  - apply inhalers_nodup.
  - apply inhalers_spec.
Qed.

(** ** Networks to try: apps that pull ([true, _]) and push ([_, true]) *)

Definition pseudo : Type := bool * bool.
#[local] Instance pseudo_App : App pseudo := {|
  has_pull a := a.1; pull := no_pull;
  has_push a := a.2; push := no_push;
  has_stop _ := false; stop := no_stop
|}.

Definition network (apps : list (string * pseudo)) (links : list string) : EngineState () pseudo :=
  mkEngine (world0 None (λ _, 0) (λ _, SpecFloat.S754_nan))
    (list_to_map (imap (λ n l, (l, Pos.of_succ_nat n)) links))
    (list_to_map ((λ na, (na.1, mkAppState na.2 tt (mkPorts ∅ ∅))) <$> apps)) [] [] 0 0 never_reported.

(** The order computed for it. *)
Definition order_of (h : HashOrder) (s : EngineState () pseudo) : outcome (list string * list string) :=
  breathe_order (app_table s) (link_table s).

(** Test breathe_order of engine.rs, case 3. *)
Definition case3 : EngineState () pseudo :=
  network [("a_io1", (true, true)); ("b_t1", (false, true)); ("c_t2", (false, true))]
    ["a_io1.output -> b_t1.input"; "a_io1.output2 -> c_t2.input"; "b_t1.output -> a_io1.input";
     "b_t1.output2 -> c_t2.input2"; "c_t2.output -> a_io1.input2"].

Example case3_order : order_of listed case3 = Ok (["a_io1"], ["b_t1"; "c_t2"; "a_io1"]).
Proof. vm_compute. reflexivity. Qed.

Definition chain : EngineState () pseudo :=
  network [("io", (true, false)); ("a", (false, true)); ("b", (false, true)); ("c", (false, true)); ("x", (false, true))]
    ["io.o1 -> a.i1"; "io.o2 -> b.i1"; "io.o3 -> c.i1"; "io.o4 -> x.i1"; "a.o1 -> b.i2"; "b.o1 -> c.i2"].

(** A check of the hypotheses of [breathe_order_complete]. *)
Definition link_ok (s : EngineState () pseudo) (l : string) : bool :=
  match Config.parse_link l with
  | Ok spec => bool_decide (Config.to spec ∈ dom (app_table s)) && bool_decide (Config.from spec ≠ Config.to spec)
  | _ => false
  end.

Lemma link_ok_all s :
  forallb (link_ok s) (elements (dom (link_table s))) = true →
  (∀ l, l ∈ dom (link_table s) → ∃ spec, Config.parse_link l = Ok spec ∧ Config.to spec ∈ dom (app_table s)) ∧
  (∀ x, ¬ linked (dom (link_table s)) x x).
Proof.
  intros Hall. assert (∀ l, l ∈ dom (link_table s) → link_ok s l = true) as Hl.
  { intros l Hl. eapply forallb_forall in Hall; [exact Hall|]. apply list_elem_of_In. by apply elem_of_elements. }
  split.
  - intros l H. apply Hl in H. unfold link_ok in H. destruct (Config.parse_link l) as [spec| | |]; [|done..].
    exists spec. split; [done|]. apply andb_true_iff in H as [H _]. by apply bool_decide_eq_true_1 in H.
  - intros x (l & spec & H & Hp & <- & Heq). apply Hl in H. unfold link_ok in H. rewrite Hp in H.
    apply andb_true_iff in H as [_ H]. apply bool_decide_eq_true_1 in H. by rewrite Heq in H.
Qed.

Lemma breathe_order_complete_witness :
  let table := app_table case3 in let links := dom (link_table case3) in
  wp (compute_breathe_order (H := listed)) (λ _ s', s' = set_order_of (inhale s') (exhale s') case3 ∧
    Sorted String.le (inhale s') ∧ NoDup (inhale s') ∧ (∀ x, x ∈ inhale s' ↔ pulls table x) ∧
    NoDup (exhale s') ∧ (∀ x, x ∈ exhale s' ↔ reached table links x)) case3.
Proof.
  destruct (link_ok_all case3) as [H1 H2]; [vm_compute; reflexivity|].
  apply (breathe_order_complete (H := listed) case3 no_panic H1). intros x _. apply H2.
Defined.





(** The breathe order depends on the order in which hash tables are iterated,
    which differs from run to run: two runs on the same configuration, of a chain
    of apps without cycles, can push in different orders. *)
Theorem breathe_order_nondeterministic :
  order_of listed chain = Ok (["io"], ["a"; "x"; "b"; "c"]) ∧
  order_of reversed chain = Ok (["io"], ["a"; "b"; "x"; "c"]).
Proof. split; vm_compute; reflexivity. Qed.

(** A check that a network has the layers [lv]. *)
Definition layer_ok (lv : gmap string nat) (s : EngineState () pseudo) (l : string) : bool :=
  match Config.parse_link l with
  | Ok spec =>
      let fed_by_pull := match app_table s !! Config.from spec with Some a => has_pull (app a) | None => false end in
      if fed_by_pull then bool_decide (lv !! Config.to spec = Some 0%nat)
      else match lv !! Config.from spec with
           | Some k => bool_decide (lv !! Config.to spec = Some (S k))
           | None => true
           end
  | _ => false
  end.

Lemma layer_ok_link lv s x y :
  forallb (layer_ok lv s) (elements (dom (link_table s))) = true → linked (dom (link_table s)) x y →
  (pulls (app_table s) x → lv !! y = Some 0%nat) ∧ (¬ pulls (app_table s) x → ∀ k, lv !! x = Some k → lv !! y = Some (S k)).
Proof.
  intros Hall (l & spec & Hl & Hp & <- & <-). eapply forallb_forall in Hall; [|apply list_elem_of_In; by apply elem_of_elements].
  unfold layer_ok in Hall. rewrite Hp in Hall. unfold pulls.
  destruct (app_table s !! Config.from spec) as [a|] eqn:Ha; [destruct (has_pull (app a)) eqn:Hpull|].
  - split; [intros _; by apply bool_decide_eq_true_1 in Hall|]. intros Hn. destruct Hn. by exists a.
  - split; [intros (b & [= <-] & ?); congruence|]. intros _ k Hk. rewrite Hk in Hall. by apply bool_decide_eq_true_1 in Hall.
  - split; [by intros (b & ? & _)|]. intros _ k Hk. rewrite Hk in Hall. by apply bool_decide_eq_true_1 in Hall.
Qed.

Lemma layers_of lv s :
  forallb (layer_ok lv s) (elements (dom (link_table s))) = true →
  layered (app_table s) (dom (link_table s)) (λ x k, lv !! x = Some k) ∧
  (∀ x, reached (app_table s) (dom (link_table s)) x → ∃ k, lv !! x = Some k).
Proof.
  intros Hall. split; [split|].
  - congruence.
  - intros x y Hx Hl _. by apply (layer_ok_link lv s x y Hall Hl).
  - intros x y k Hx Hl _. by apply (layer_ok_link lv s x y Hall Hl).
  - intros x Hx. induction Hx as [x y Hx Hl _|x y _ [k Hk] Hl _]; destruct (layer_ok_link lv s x y Hall Hl) as [H1 H2].
    + exists O. by apply H1.
    + destruct (app_table s !! x) as [a|] eqn:Ha; [destruct (has_pull (app a)) eqn:Hp|].
      * exists O. apply H1. by exists a.
      * exists (S k). apply H2; [|done]. intros (b & Hb & Hpb). congruence.
      * exists (S k). apply H2; [|done]. intros (b & Hb & _). congruence.
Qed.

(** Two devices, with a path of two apps from each to the other. *)
Definition paths : EngineState () pseudo :=
  network [("io1", (true, true)); ("io2", (true, true)); ("b", (false, true)); ("a", (false, true)); ("d", (false, true)); ("c", (false, true))]
    ["io1.output -> b.input"; "b.output -> a.input"; "a.output -> io2.input";
     "io2.output -> d.input"; "d.output -> c.input"; "c.output -> io1.input"].
Definition path_levels : gmap string nat :=
  {["b" := 0%nat; "d" := 0%nat; "a" := 1%nat; "c" := 1%nat; "io1" := 2%nat; "io2" := 2%nat]}.

Lemma breathe_order_follows_links_witness :
  let table := app_table paths in let links := dom (link_table paths) in
  wp (compute_breathe_order (H := listed)) (λ _ s', ∀ x y,
    reached table links x → ¬ pulls table x → linked links x y → pushes table y → before (exhale s') x y) paths.
Proof.
  destruct (link_ok_all paths) as [H1 H2]; [vm_compute; reflexivity|].
  destruct (layers_of path_levels paths) as [H3 H4]; [vm_compute; reflexivity|].
  apply (breathe_order_follows_links (H := listed) paths (λ x k, path_levels !! x = Some k) no_panic H1 (λ x _, H2 x) H3 H4).
Defined.

(** Without layers the order may not follow the links, although it could: there
    are no cycles, and c is pushed before b, which feeds it; what b transmits
    waits for the next breath. *)
Definition shortcut : EngineState () pseudo :=
  network [("io", (true, false)); ("a", (false, true)); ("b", (false, true)); ("c", (false, true))]
    ["io.o1 -> a.i1"; "io.o2 -> c.i1"; "a.o1 -> b.i1"; "b.o1 -> c.i2"].

Example shortcut_order : order_of listed shortcut = Ok (["io"], ["a"; "c"; "b"]) ∧ order_of reversed shortcut = Ok (["io"], ["a"; "c"; "b"]).
Proof. split; vm_compute; reflexivity. Qed.
