(* ===== verification/Interface.v ===== *)
(** * What the engine may assume of apps

    The resources of the world (packets in use, mapped flow profiles) are on
    links or belong to one app each.  [AppLaws] states what every operation of
    an app promises about them to the engine. *)

From S2P Require Import Prelude Bytes Packet Kernel App Engine.
From S2P Require Flow.
#[local] Open Scope Z_scope.

(** ** Resources *)

Record res : Type := mkRes {
  r_packets : queue;
  r_maps : list positive
}.

#[export] Instance res_empty : Empty res := mkRes [] [].
Definition res_app (r r' : res) : res := mkRes (r_packets r ++ r_packets r') (r_maps r ++ r_maps r').
Infix "⊎" := res_app (at level 50, left associativity).
Definition packets_only (q : queue) : res := mkRes q [].

#[export] Instance res_equiv : Equiv res := λ r r', r_packets r ≡ₚ r_packets r' ∧ r_maps r ≡ₚ r_maps r'.
#[export] Instance res_equivalence : Equivalence (≡@{res}).
Proof.
  split; [by intros []|by intros r r' []; split|].
  intros r1 r2 r3 [H1 H2] [H3 H4]; split; by etrans.
Qed.
#[export] Instance res_app_proper : Proper ((≡) ==> (≡) ==> (≡)) res_app.
Proof. intros r1 r1' [H1 H2] r2 r2' [H3 H4]. split; simpl; by rewrite ?H1, ?H2, ?H3, ?H4. Qed.

Lemma res_app_empty_l r : ∅ ⊎ r = r.
Proof. by destruct r. Qed.
Lemma res_app_assoc r1 r2 r3 : r1 ⊎ r2 ⊎ r3 = r1 ⊎ (r2 ⊎ r3).
Proof. unfold res_app. simpl. by rewrite !app_assoc. Qed.
Lemma res_app_comm r r' : r ⊎ r' ≡ r' ⊎ r.
Proof. split; apply Permutation_app_comm. Qed.

(** The resources of all apps. *)
Definition total (H : gmap string res) : res := foldr res_app ∅ (map_to_list H).*2.

Lemma foldr_res_perm (l l' : list res) : l ≡ₚ l' → foldr res_app ∅ l ≡ foldr res_app ∅ l'.
Proof.
  induction 1 as [|r l l' _ IH|r r' l|l l' l'' _ IH1 _ IH2]; simpl; [done|by rewrite IH| |by etrans].
  rewrite <-!res_app_assoc. by rewrite (res_app_comm r r').
Qed.

Lemma total_empty : total ∅ = ∅.
Proof. unfold total. by rewrite map_to_list_empty. Qed.

Lemma total_insert H n r : H !! n = None → total (<[n:=r]> H) ≡ r ⊎ total H.
Proof.
  intros Hn. unfold total. etrans; [apply foldr_res_perm; by rewrite map_to_list_insert|]. done.
Qed.

Lemma total_delete H n r : H !! n = Some r → total H ≡ r ⊎ total (delete n H).
Proof.
  intros Hn. rewrite <-total_insert by apply lookup_delete_eq.
  by rewrite insert_delete_eq, insert_id.
Qed.

(** ** The invariant of the world between the callbacks of apps *)

Section laws.
Context (P : Packet → Prop).

(** A frame that a packet with [P] carries. *)
Definition sendable (bs : bytes) : Prop := ∃ pk, wf_packet pk ∧ P pk ∧ bs = frame pk.

(** [P] holds of all packets in use, and held of all that were written to a
    device; no link is borrowed; the clock is far from the end of its range. *)
Record rinv (Q : queues) (R : res) (w : World) : Prop := {
  ri_world : winv Q (r_packets R) w;
  ri_good : Forall (λ x, P x.2) (on_links Q ++ r_packets R);
  ri_idle : borrowed w = ∅;
  ri_nodup : NoDup (r_maps R);
  ri_maps : ∀ m, m ∈ r_maps R → ∃ slots, profiles w !! m = Some slots ∧ Z.of_nat (length slots) = Flow.FLOWTOP_NSLOTS;
  ri_clock : ∀ k, is_instant (clock w k);
  ri_sent : Forall sendable (written (syscalls w));
}.

#[export] Instance rinv_proper : Proper (eq ==> (≡) ==> eq ==> iff) rinv.
Proof.
  assert (∀ Q R R' w, R ≡ R' → rinv Q R w → rinv Q R' w) as Hgo.
  { intros Q R R' w [Hp Hm] [H1 H2 H3 H4 H5 H6 H7].
    split; rewrite <-?Hp, <-?Hm; try done. intros m Hin. apply H5. by rewrite Hm. }
  intros Q ? <- R R' HR w ? <-. split; by apply Hgo.
Qed.

(** The links of an app, as the engine wires them. *)
Record ports_ok (ports : Ports) (Q : queues) : Prop := {
  po_input : ∀ n l, input ports !! n = Some l → is_Some (Q !! l);
  po_output : ∀ n l, output ports !! n = Some l → is_Some (Q !! l);
  po_input_inj : ∀ n n' l, input ports !! n = Some l → input ports !! n' = Some l → n = n';
  po_output_inj : ∀ n n' l, output ports !! n = Some l → output ports !! n' = Some l → n = n';
  po_disjoint : ∀ n n' l, input ports !! n = Some l → output ports !! n' = Some l → False;
}.

(** What a callback leaves: the same links, and a clock that is as before. *)
Record callback_post (Q : queues) (R : res) (w : World) (Q' : queues) (R' : res) (w' : World) : Prop := {
  cb_inv : rinv Q' R' w';
  cb_links : dom Q' = dom Q;
  cb_now : MONOTONIC_NOW w' = MONOTONIC_NOW w;
  cb_clock : clock w' = clock w ∧ ticks w' = ticks w;
}.

(** During a breath now() is the time of the breath. *)
Definition timed (w : World) : Prop := ∃ t, MONOTONIC_NOW w = Some t ∧ is_instant t.

(** The callbacks that an app has do not change. *)
Definition same_kind {T} `{App T} (t t' : T) : Prop := has_pull t' = has_pull t ∧ has_push t' = has_push t.

(** The names of the ports of an app that hold a link. *)
Definition inputs (ports : Ports) : gset string := dom (input ports).
Definition outputs (ports : Ports) : gset string := dom (output ports).

(** The contract of apps [T] with configurations [C]: [owns c t r] says that [t]
    is an app of configuration [c] with the resources [r], [conf_ok] that an app
    may be configured that way, [fits] that it may be wired to these input and
    output ports; panics satisfy [E]. *)
Class AppLaws (E : string → Prop) (C T : Type) `{App T} `{AppConfig C T} : Type := {
  owns : C → T → res → Prop;
  conf_ok : C → Prop;
  fits : C → gset string → gset string → Prop;
  new_law : ∀ c Q R w, conf_ok c → rinv Q R w →
    wpx E (app_new c) (λ t w', ∃ r, owns c t r ∧ callback_post Q R w Q (r ⊎ R) w') w;
  finish_law : ∀ c t r Q R w, owns c t r → rinv Q (r ⊎ R) w →
    wpx E (finish (C := C) t) (λ _ w', callback_post Q (r ⊎ R) w Q R w') w;
  pull_law : ∀ c t r ports Q R w, has_pull t = true → owns c t r → rinv Q (r ⊎ R) w →
    ports_ok ports Q → fits c (inputs ports) (outputs ports) → timed w →
    wpx E (pull t ports) (λ t' w', ∃ r' Q', owns c t' r' ∧ same_kind t t' ∧ callback_post Q (r ⊎ R) w Q' (r' ⊎ R) w') w;
  push_law : ∀ c t r ports Q R w, has_push t = true → owns c t r → rinv Q (r ⊎ R) w →
    ports_ok ports Q → fits c (inputs ports) (outputs ports) → timed w →
    wpx E (push t ports) (λ t' w', ∃ r' Q', owns c t' r' ∧ same_kind t t' ∧ callback_post Q (r ⊎ R) w Q' (r' ⊎ R) w') w;
}.
End laws.
Arguments owns {P E C T _ _ _} _ _ _.
Arguments conf_ok {P E C T _ _ _} _.
Arguments fits {P E C T _ _ _} _ _ _.
