(* ===== verification/Provenance.v ===== *)
(** * Where packets come from

    The apps fill in checksums (offload.rs) and cut TCP packets into segments;
    everything else passes packets on as they are, or copies them.  So every
    packet is [made_from] a frame that a device delivered: its addresses are
    those of the frame, and its bytes of payload the bytes that the frame has
    at the same place of the stream. *)

From S2P Require Import Prelude Bytes Lib Checksum Header Packet Kernel App Interface Offload Tsd Frames.
From S2P Require Tcp Udp Ethernet Ipv4.
#[local] Existing Instances Ethernet.Ethernet_layout Ethernet.Ethernet_laws
  Ipv4.IPv4_layout Ipv4.IPv4_laws Tcp.TCP_layout Tcp.TCP_laws Udp.UDP_layout Udp.UDP_laws.
#[local] Open Scope Z_scope.

(** ** What is left of a packet *)

(** What follows the first [n] bytes. *)
Definition beyond (n : Z) (p : Packet) : bytes := drop (Z.to_nat n) (frame p).

(** TCP segment [p] is the piece of packet [o] from byte [k] of its payload on:
    the header is that of [o] but for the checksum and the sequence number, which
    has advanced by [k], and the payload is what [o] has there. *)
Record piece_of (k : nat) (o p : Packet) : Prop := {
  pc_header : same_tcp (Z.of_nat k) (l4_of TCP p) (l4_of TCP o);
  pc_options : slice 54 (Z.to_nat (headers_size o) - 54) (frame p) = slice 54 (Z.to_nat (headers_size o) - 54) (frame o);
  pc_payload : beyond (headers_size o) p =
    slice k (length (beyond (headers_size o) p)) (beyond (headers_size o) o);
}.

(** The IPv4 header is the same but for total length and checksum; TCP packets
    are pieces; UDP packets are the same but for the checksum, and all others
    the same. *)
Record made_from (o p : Packet) : Prop := {
  mf_eth : eth_of p = eth_of o;
  mf_ip : Ethernet.ethertype (eth_of o) = Ethernet.TYPE_IPV4 → same_ip (ip_of p) (ip_of o);
  mf_tcp : carries Ipv4.PROTOCOL_TCP o → ∃ k, piece_of k o p;
  mf_udp : carries Ipv4.PROTOCOL_UDP o →
    Udp.set_checksum 0 (l4_of UDP p) = Udp.set_checksum 0 (l4_of UDP o) ∧ beyond 42 p = beyond 42 o;
  mf_other : ¬ carries Ipv4.PROTOCOL_TCP o → ¬ carries Ipv4.PROTOCOL_UDP o → frame p = frame o;
}.

Lemma same_tcp_refl o : wf_packet o → same_tcp 0 (l4_of TCP o) (l4_of TCP o).
Proof.
  intros Hwf. unfold same_tcp. rewrite Z.add_0_r, u32_id by apply ntohl_range.
  rewrite set_seq_seq; [done|]. apply l4_of_ok; [done|apply _|simpl; lia].
Qed.

Lemma slice_0_all {A} (l : list A) : l = slice 0 (length l) l.
Proof. by rewrite slice_all. Qed.

Lemma made_from_refl o : wf_packet o → made_from o o.
Proof.
  intros Hwf. split; try done. intros _. exists O. split; [by apply same_tcp_refl|done|apply slice_0_all].
Qed.

(** The protocol does not change. *)
Lemma same_ip_kind ip ip0 : same_ip ip ip0 → Ipv4.ihl ip = Ipv4.ihl ip0 ∧ Ipv4.protocol ip = Ipv4.protocol ip0.
Proof. intros Hs. split; [exact (f_equal Ipv4.ihl Hs)|exact (f_equal Ipv4.protocol Hs)]. Qed.

Lemma made_from_carries proto o p : made_from o p → carries proto p ↔ carries proto o.
Proof.
  intros [He Hi _ _ _]. unfold carries. rewrite He.
  split; intros (Ht & Hh & Hp); destruct (same_ip_kind _ _ (Hi Ht)) as [H1 H2]; split_and!; (done || lia || congruence).
Qed.

Lemma piece_headers k o p : piece_of k o p → headers_size p = headers_size o.
Proof.
  intros [Hh _ _]. unfold headers_size. f_equal.
  exact (f_equal Tcp.size Hh : Tcp.size (l4_of TCP p) = Tcp.size (l4_of TCP o)).
Qed.

(** ** Copies *)

Lemma frame_same p p' : same_frame p p' → frame p' = frame p.
Proof. intros [Hl Hd]. unfold frame. by rewrite Hl. Qed.

Lemma l4_of_take (T : Type) `{!Layout T} p p' :
  take (34 + size_of T) (p_data p') = take (34 + size_of T) (p_data p) → l4_of T p' = l4_of T p.
Proof.
  intros Ht. unfold l4_of, header_ref, header_slice, slice. cbn [ptr]. f_equal.
  rewrite !take_drop_commute. f_equal. exact Ht.
Qed.

Lemma made_from_copy o p p' : made_from o p → framed p → same_frame p p' → made_from o p'.
Proof.
  intros Hm (H14 & H34 & Ht & Hu) Hf. pose proof (frame_same _ _ Hf) as Hfr.
  pose proof (made_from_carries Ipv4.PROTOCOL_TCP _ _ Hm) as Hct.
  pose proof (made_from_carries Ipv4.PROTOCOL_UDP _ _ Hm) as Hcu. destruct Hm as [He Hi Hmt Hmu Hmo].
  split.
  - rewrite <-He. apply eth_of_take. by apply take_frame.
  - intros Het. rewrite (ip_of_take p p'); [by apply Hi|]. apply take_frame; [done|]. apply H34. by rewrite He.
  - intros Hc. destruct (Hmt Hc) as (k & [Hh Ho Hp]). exists k. unfold beyond in *. rewrite <-Hfr in Ho, Hp.
    split; [|done|done]. rewrite (l4_of_take TCP p p'); [done|]. apply take_frame; [done|]. simpl. apply Ht. by apply Hct.
  - intros Hc. destruct (Hmu Hc) as [Hh Hb]. unfold beyond in *. rewrite Hfr. split; [|done].
    rewrite (l4_of_take UDP p p'); [done|]. apply take_frame; [done|]. simpl. apply Hu. by apply Hcu.
  - intros. rewrite Hfr. by apply Hmo.
Qed.

(** ** Checksums *)

(** Filled in or not, only the checksum field of the transport header changes. *)
Lemma fill_changes `{Target} (T : Type) `{!Layout T, !Transport T, !TransportLaws T} p p' :
  wf_packet p → 34 + Z.of_nat (size_of T) ≤ p_length p → fill T p = Ok p' →
  p' = p ∨ ∃ c, is_u16 c ∧ p' = with_l4 (set_sum c (l4_of T p)) p.
Proof.
  intros Hwf Hl. destruct (pseudo_checksum_ok T p Hwf (u16 (p_length p - 34)) (u16_range _)) as (ps & Hps & _).
  destruct (decide (ntohs (get_sum (l4_of T p)) = not16 ps)) as [He|He].
  - destruct (fill_filled T p Hwf) as (c & Hc & -> & _); [by exists ps|lia|]. intros [= <-]. right. by exists c.
  - rewrite (fill_kept T p Hwf); [intros [= <-]; by left|].
    intros (ps' & Hps' & ?). rewrite Hps in Hps'. by simplify_eq.
Qed.

Section with_l4.
Context (T : Type) `{!Layout T, !LayoutLaws T} (h : T) (p : Packet).
Context (Hwf : wf_packet p) (Hs : (size_of T ≤ 20)%nat) (Hh : fields_ok h).

Lemma with_l4_range : in_range (mkHeader 34 : Header T) (p_data p).
Proof. apply header_in_range; [done|]. lia. Qed.

(** What is behind the header stays. *)
Lemma slice_with_l4 n k : (34 + size_of T ≤ n)%nat → slice n k (frame (with_l4 h p)) = slice n k (frame p).
Proof.
  intros Hn. unfold frame, slice. cbn [with_l4 p_length p_data]. rewrite !skipn_firstn_comm, !take_take.
  apply (slice_header_mut_ne (mkHeader 34 : Header T)); [apply with_l4_range|done|simpl; lia].
Qed.

Lemma beyond_with_l4 n : (34 + size_of T ≤ Z.to_nat n)%nat → beyond n (with_l4 h p) = beyond n p.
Proof.
  intros Hn. pose proof (slice_with_l4 (Z.to_nat n) (Z.to_nat (p_length p)) Hn) as He.
  assert (∀ q, p_length q = p_length p → slice (Z.to_nat n) (Z.to_nat (p_length p)) (frame q) = beyond n q) as Hb.
  { intros q Hq. unfold beyond, slice. apply take_ge. rewrite length_drop. unfold frame. rewrite length_take, Hq. lia. }
  by rewrite !Hb in He.
Qed.
End with_l4.

Lemma headers_size_range o : 54 ≤ headers_size o.
Proof. unfold headers_size. pose proof (Tcp.size_range (l4_of TCP o)). lia. Qed.

Lemma piece_fill `{Target} k o p c :
  piece_of k o p → wf_packet p → is_u16 c → piece_of k o (with_l4 (Tcp.set_checksum c (l4_of TCP p)) p).
Proof.
  intros [Hh Ho Hp] Hwf Hc. pose proof (headers_size_range o) as H54.
  assert (fields_ok (Tcp.set_checksum c (l4_of TCP p))) as Hok.
  { apply tcp_ok_checksum; [|done]. apply l4_of_ok; [done|apply _|simpl; lia]. }
  split.
  - rewrite l4_of_with_l4 by (done || apply _ || (simpl; lia)). exact Hh.
  - rewrite slice_with_l4 by (done || apply _ || (simpl; lia)). exact Ho.
  - rewrite beyond_with_l4 by (done || apply _ || (simpl; lia)). exact Hp.
Qed.

Lemma made_from_fill `{Target} o p p' :
  made_from o p → framed p → wf_packet p → maybe_fill_in_checksum p = Ok p' → made_from o p'.
Proof.
  intros Hm (_ & _ & Ht & Hu) Hwf. pose proof (made_from_carries Ipv4.PROTOCOL_TCP _ _ Hm) as Hct.
  pose proof (made_from_carries Ipv4.PROTOCOL_UDP _ _ Hm) as Hcu.
  rewrite fill_cases by done. case_decide as Hc; [|case_decide as Hc']; [| |by intros [= <-]].
  - intros [->|(c & Hr & ->)]%(fill_changes TCP); [done| |done|by apply Ht]. destruct Hm as [He Hi Hmt Hmu Hmo].
    assert (fields_ok (Tcp.set_checksum c (l4_of TCP p))) as Hok.
    { apply tcp_ok_checksum; [|done]. apply l4_of_ok; [done|apply _|simpl; lia]. }
    split.
    + simpl set_sum. rewrite eth_of_with_l4 by (done || apply _ || (simpl; lia)). done.
    + simpl set_sum. rewrite ip_of_with_l4 by (done || apply _ || (simpl; lia)). done.
    + intros Hco. destruct (Hmt Hco) as (k & Hk). exists k. by apply piece_fill.
    + intros Hco. by pose proof (carries_unique p _ _ Hc (proj2 Hcu Hco)).
    + intros Hn _. by apply Hct in Hc.
  - intros [->|(c & Hr & ->)]%(fill_changes UDP); [done| |done|by apply Hu]. destruct Hm as [He Hi Hmt Hmu Hmo].
    assert (fields_ok (Udp.set_checksum c (l4_of UDP p))) as Hok.
    { refine (set_sum_ok (T:=UDP) (l4_of UDP p) c _ Hr). apply l4_of_ok; [done|apply _|simpl; lia]. }
    split.
    + simpl set_sum. rewrite eth_of_with_l4 by (done || apply _ || (simpl; lia)). done.
    + simpl set_sum. rewrite ip_of_with_l4 by (done || apply _ || (simpl; lia)). done.
    + intros Hco. by apply Hct in Hco.
    + intros Hco. destruct (Hmu Hco) as [Hh Hb]. simpl set_sum.
      rewrite l4_of_with_l4, beyond_with_l4 by (done || apply _ || (simpl; lia)). by split.
    + intros _ Hn. by apply Hcu in Hc'.
Qed.

(** ** Segments *)

Lemma segments_each `{Target} pk mss ofs ss : ∀ off,
  0 < mss → 0 ≤ off → ofs + off ≤ p_length pk → segments pk mss ofs off ss →
  Forall (λ s, ∃ off', 0 ≤ off' ∧ off' + p_length s ≤ p_length pk ∧ is_segment pk ofs off' s) ss.
Proof.
  induction ss as [|s ss IH]; intros off Hm Hoff Hle Hss; [constructor|]. simpl in Hss. destruct Hss as (Hl & Hs & Hss).
  pose proof (sg_length _ _ _ _ Hs) as Hpos. constructor.
  - exists off. split_and!; [done|lia|done].
  - eapply IH; [done| | |exact Hss]; lia.
Qed.

Lemma beyond_slice n p : beyond n p = slice (Z.to_nat n) (Z.to_nat (p_length p) - Z.to_nat n) (p_data p).
Proof. unfold beyond, frame, slice. apply skipn_firstn_comm. Qed.

Lemma same_tcp_trans a b x y z : same_tcp a x y → same_tcp b y z → same_tcp (a + b) x z.
Proof.
  intros Hxy Hyz. unfold same_tcp. rewrite Hxy.
  rewrite (same_tcp_seq _ _ _ Hyz).
  assert (u32 (u32 (Tcp.seq z + b) + a) = u32 (Tcp.seq z + (a + b))) as ->.
  { generalize (Tcp.seq z). intros. word. }
  exact (f_equal (Tcp.set_seq (u32 (Tcp.seq z + (a + b)))) Hyz).
Qed.

(** The segment of a piece is a piece. *)
Lemma piece_cut `{Target} k o p s off :
  piece_of k o p → wf_packet p → is_segment p (headers_size p) off s →
  0 ≤ off → off + p_length s ≤ p_length p → piece_of (k + Z.to_nat off) o s.
Proof.
  intros Hpc Hwf Hs Hoff Hle. pose proof (piece_headers _ _ _ Hpc) as Hhs. destruct Hpc as [Hh Ho Hp].
  rewrite Hhs in Hs. destruct Hs as [Hlen _ _ _ (c & Htcp) _ Hopt Hpay]. pose proof (headers_size_range o) as H54.
  pose proof Hwf as (Hu & _). unfold is_u16 in Hu. pose proof (data_length p Hwf) as Hdl.
  set (hs := headers_size o) in *. split.
  - rewrite Nat2Z.inj_add, Z2Nat.id, Z.add_comm by done. eapply same_tcp_trans; [|exact Hh]. rewrite Htcp. reflexivity.
  - fold hs. rewrite <-Ho. unfold frame, slice in *. rewrite !skipn_firstn_comm, !take_take.
    rewrite !Nat.min_l by lia. exact Hopt.
  - fold hs.
    assert (beyond hs s = slice (Z.to_nat off) (Z.to_nat (p_length s - hs)) (beyond hs p)) as Hb.
    { rewrite !beyond_slice, slice_slice by lia.
      replace (Z.to_nat (p_length s) - Z.to_nat hs)%nat with (Z.to_nat (p_length s - hs)) by lia.
      rewrite Hpay. f_equal. lia. }
    assert (length (beyond hs p) = (Z.to_nat (p_length p) - Z.to_nat hs)%nat) as Hlp.
    { rewrite beyond_slice. apply length_slice. lia. }
    assert (length (beyond hs s) = Z.to_nat (p_length s - hs)) as Hls by (rewrite Hb; apply length_slice; lia).
    rewrite Hls, Hb, Hp, slice_slice by lia. done.
Qed.

Lemma made_from_cut `{Target} o p s off :
  made_from o p → wf_packet p → carries Ipv4.PROTOCOL_TCP p → is_segment p (headers_size p) off s →
  0 ≤ off → off + p_length s ≤ p_length p → made_from o s.
Proof.
  intros Hm Hwf Hc Hs Hoff Hle. pose proof (made_from_carries Ipv4.PROTOCOL_TCP _ _ Hm) as Hct.
  pose proof (made_from_carries Ipv4.PROTOCOL_UDP _ _ Hm) as Hcu. destruct Hm as [He Hi Hmt Hmu Hmo]. split.
  - rewrite <-He. apply eth_of_take. apply Hs.
  - intros Het. destruct (sg_ip _ _ _ _ Hs) as (c & ->). by apply same_ip_changed, Hi.
  - intros Hco. destruct (Hmt Hco) as (k & Hk). eexists. by eapply piece_cut.
  - intros Hco. by pose proof (carries_unique p _ _ Hc (proj2 Hcu Hco)).
  - intros Hn. by apply Hct in Hc.
Qed.

Lemma made_from_tsd `{Target} mss o x out :
  0 < mss → wf_packet x.2 → made_from o x.2 → tsd_out mss x out → Forall (λ y, made_from o y.2) out.
Proof.
  intros Hm Hwf Hp. unfold tsd_out. case_decide as Hov; [|intros ->; by constructor]. intros Hs. destruct Hov as [Hc Hlt].
  apply segments_each in Hs; [|done|done|pose proof (headers_size_range x.2); lia]. rewrite Forall_fmap in Hs.
  eapply Forall_impl; [exact Hs|]. intros y (off & Hoff & Hle & Hy). by eapply made_from_cut.
Qed.

(** ** Packets from devices *)

(** Frames whose headers fit into them, and which fit into a packet. *)
Definition proper_frame (bs : bytes) : Prop := framed (frame_packet bs) ∧ wf_packet (frame_packet bs).

Section origin.
Context (delivered : bytes → Prop).

(** Packets made from a frame that was delivered. *)
Definition originates (p : Packet) : Prop :=
  framed p ∧ ∃ bs, delivered bs ∧ made_from (frame_packet bs) p.

#[export] Instance originates_preserved `{Target} : Preserved originates.
Proof.
  split.
  - by intros p [? _].
  - intros p p' Hs [Hf (bs & Hd & Hm)]. split; [by eapply framed_frame|]. exists bs. split; [done|]. by eapply made_from_copy.
  - intros p p' Hwf [Hf (bs & Hd & Hm)] Hp. split; [by eapply fill_framed|]. exists bs. split; [done|]. by eapply made_from_fill.
  - intros mss x out Hm Hwf [Hf (bs & Hd & Hx)] Ho. pose proof (tsd_framed _ _ _ Hm Hwf Hf Ho) as H1.
    pose proof (made_from_tsd _ _ _ _ Hm Hwf Hx Ho) as H2. apply (Forall_and (λ y, framed y.2)). split; [done|].
    eapply Forall_impl; [exact H2|]. intros y Hy. by exists bs.
Qed.

(** What is delivered originates from itself. *)
Lemma delivers_originates bs : delivered bs → proper_frame bs → delivers originates bs.
Proof. intros Hd [Hf Hwf]. split; [done|]. exists bs. split; [done|]. by apply made_from_refl. Qed.

#[export] Instance originates_laws `{Kernel} :
  KernelLaws delivered → (∀ bs, delivered bs → proper_frame bs) → KernelLaws (delivers originates).
Proof. intros Hk Hp. eapply kernel_laws_mono; [|exact Hk]. intros bs Hd. by apply delivers_originates; [|apply Hp]. Qed.

(** What is written is made from what was delivered. *)
Definition accountable (buf : bytes) : Prop :=
  ∃ bs p, delivered bs ∧ wf_packet p ∧ made_from (frame_packet bs) p ∧ buf = frame p.

Lemma sendable_accountable buf : sendable originates buf → accountable buf.
Proof. intros (p & Hwf & [_ (bs & Hd & Hm)] & ->). by exists bs, p. Qed.
End origin.
