(* ===== verification/AppRules.v ===== *)
(** * Rules for the contract of apps

    From what an app does to its links and its packets to the callback
    contract of [AppLaws], and the panics that any app may have ([fatal]). *)

From S2P Require Import Prelude Bytes Lib Packet Kernel App Engine Interface.
From S2P Require Link Flow DelayQueue RawSocket.
#[local] Open Scope Z_scope.

(** ** Panics

    What stops the process, however it is configured: there are no packets left,
    a delay queue was too full to take the packet that belongs to a delay, or a
    call of libc failed. *)
Definition call_failed (e : string) : Prop :=
  RawSocket.socket_panics e ∨ Flow.open_panics e ∨
  e = "invalid ifname" ∨ e = "cannot create socket" ∨ e = "cannot bind to interface".
Definition fatal (e : string) : Prop := overflow e ∨ DelayQueue.queue_torn e ∨ call_failed e.

Definition unwrap_none : string := "called `Option::unwrap()` on a `None` value".

(** Any panic is admitted. *)
Definition any (e : string) : Prop := True.

(** The panics that apps may have, whatever their configuration. *)
Class Admits (E : string → Prop) : Prop := admits : ∀ e, fatal e → E e.
#[export] Instance admits_any : Admits any.
Proof. done. Qed.
#[export] Instance admits_fatal : Admits fatal.
Proof. by intros e. Qed.

Section admits.
Context (E : string → Prop) `{!Admits E}.

Lemma wpx_admits {S A} E' (m : ST S A) Φ s : wpx E' m Φ s → (∀ e, E' e → fatal e) → wpx E m Φ s.
Proof. intros Hm HE. eapply wpx_weaken; [exact Hm|]. intros e He. by apply admits, HE. Qed.

Lemma wpx_overflow {S A} (m : ST S A) Φ s : wpx overflow m Φ s → wpx E m Φ s.
Proof. intros Hm. eapply wpx_admits; [exact Hm|]. intros e He. by left. Qed.

Lemma wpx_socket {S A} (m : ST S A) Φ s : wpx RawSocket.socket_panics m Φ s → wpx E m Φ s.
Proof. intros Hm. eapply wpx_admits; [exact Hm|]. intros e He. right. right. by left. Qed.

Lemma body_spec_overflow Q i o {A} (body : A → loc → ST World A) R J P :
  body_spec overflow Q i o body R J P → body_spec E Q i o body R J P.
Proof. intros Hb a q q' p pk owned w Hw HJ Hpk. eapply wpx_overflow. by apply Hb. Qed.

Lemma body_spec_mono Q i o {A} (body : A → loc → ST World A) R J (P P' : Packet → Prop) :
  body_spec E Q i o body R J P → (∀ p, P' p → P p) → body_spec E Q i o body R J P'.
Proof. intros Hb HP a q q' p pk owned w Hw HJ Hpk. apply Hb; [done|done|by apply HP]. Qed.
End admits.

(** ** What callbacks may do to the environment *)

Definition mapped (e : Env) (m : positive) : Prop :=
  ∃ slots, env_profiles e !! m = Some slots ∧ Z.of_nat (length slots) = Flow.FLOWTOP_NSLOTS.

(** Draw numbers, count packets, call the kernel. *)
Record quiet_but_sent (e e' : Env) : Prop := {
  qt_now : env_now e' = env_now e;
  qt_clock : env_clock e' = env_clock e;
  qt_ticks : env_ticks e' = env_ticks e;
  qt_maps : ∀ m, mapped e m → mapped e' m;
}.

(** The same, but nothing is written. *)
Record quiet (e e' : Env) : Prop := {
  qt_quiet : quiet_but_sent e e';
  qt_sent : written (env_syscalls e') = written (env_syscalls e);
}.

#[export] Instance quiet_preorder : PreOrder quiet.
Proof.
  split; [by intros e; split|]. intros e1 e2 e3 [[N1 C1 T1 M1] S1] [[N2 C2 T2 M2] S2].
  split; [split; try congruence; auto|congruence].
Qed.

Lemma same_env_quiet w w' : same_env w w' → quiet (env w) (env w').
Proof. intros He. by rewrite (same_env_env _ _ He). Qed.

Lemma but_calls_quiet w w' :
  but_calls w w' → written (syscalls w') = written (syscalls w) → quiet (env w) (env w').
Proof. intros [-> _] ?. by repeat split. Qed.

Section rules.
Context (P : Packet → Prop) (E : string → Prop).
Abbreviation good := (Forall (λ x : loc * Packet, P x.2)).

(** ** Good packets on links *)

Definition good_links (Q : queues) : Prop := map_Forall (λ _ q, good q) Q.

Lemma good_on_links Q : good (on_links Q) ↔ good_links Q.
Proof.
  unfold on_links, good_links. rewrite List.Forall_concat, Forall_fmap, map_Forall_to_list.
  apply Forall_proper; [|done]. by intros [l q].
Qed.

Lemma good_insert Q l q : good_links Q → good q → good_links (<[l:=q]> Q).
Proof. intros HQ Hq. by apply map_Forall_insert_2. Qed.

Lemma good_lookup Q l q : good_links Q → Q !! l = Some q → good q.
Proof. intros HQ Hl. exact (HQ l q Hl). Qed.

Lemma good_link_txs q xs : good q → good xs → good (link_txs q xs).
Proof.
  revert q. induction xs as [|x xs IH]; intros q Hq Hx; simpl; [done|]. apply Forall_cons in Hx as [Hx Hxs].
  apply IH; [|done]. unfold link_tx. case_bool_decide; [done|]. by apply Forall_app_2; [|constructor].
Qed.

Lemma good_io Q i q o q' : good_links Q → good q → good q' → good_links (io Q i q o q').
Proof. intros. by repeat apply good_insert. Qed.

Lemma dom_io (Q : queues) i qi o qo q q' : Q !! i = Some qi → Q !! o = Some qo → dom (io Q i q o q') = dom Q.
Proof.
  intros Hi%elem_of_dom_2 Ho%elem_of_dom_2. unfold io. rewrite !dom_insert_L. set_solver.
Qed.

Lemma dom_insert_same (Q : queues) l q q' : Q !! l = Some q → dom (<[l:=q']> Q) = dom Q.
Proof. intros Hl%elem_of_dom_2. rewrite dom_insert_L. set_solver. Qed.

(** ** The contract of a callback *)

Lemma rinv_good Q (R : res) w : rinv P Q R w → good_links Q ∧ good (r_packets R).
Proof. intros Hw. pose proof (ri_good _ _ _ _ Hw) as [H1 H2]%Forall_app. split; [by apply good_on_links|done]. Qed.

Lemma rinv_idle Q (R : res) w l : rinv P Q R w → l ∉ borrowed w.
Proof. intros Hw. rewrite (ri_idle _ _ _ _ Hw). set_solver. Qed.

Lemma callback_sends Q Q' (R R' : res) w w' :
  rinv P Q R w → winv Q' (r_packets R') w' → good_links Q' → good (r_packets R') → dom Q' = dom Q →
  borrowed w' = borrowed w → r_maps R' = r_maps R → quiet_but_sent (env w) (env w') →
  Forall (sendable P) (written (syscalls w')) →
  callback_post P Q R w Q' R' w'.
Proof.
  intros Hw Hw' HQ HR HD Hb Hm [Hn Hc Ht Hmaps] Hsent. split; [|done|exact Hn|by split]. split.
  - done.
  - apply Forall_app_2; [by apply good_on_links|done].
  - rewrite Hb. apply Hw.
  - rewrite Hm. apply Hw.
  - rewrite Hm. intros m Hin. apply (Hmaps m). by apply (ri_maps _ _ _ _ Hw).
  - intros k. change (clock w') with (env_clock (env w')). rewrite Hc. apply Hw.
  - exact Hsent.
Qed.

Lemma callback_intro Q Q' (R R' : res) w w' :
  rinv P Q R w → winv Q' (r_packets R') w' → good_links Q' → good (r_packets R') → dom Q' = dom Q →
  borrowed w' = borrowed w → r_maps R' = r_maps R → quiet (env w) (env w') →
  callback_post P Q R w Q' R' w'.
Proof.
  intros Hw Hw' HQ HR HD Hb Hm [Hq Hs]. apply callback_sends; try done.
  change (syscalls w') with (env_syscalls (env w')). rewrite Hs. apply Hw.
Qed.

(** The same, when the packets of the app are unchanged. *)
Lemma callback_links Q Q' (R : res) w w' :
  rinv P Q R w → winv Q' (r_packets R) w' → good_links Q' → dom Q' = dom Q →
  borrowed w' = borrowed w → quiet (env w) (env w') → callback_post P Q R w Q' R w'.
Proof. intros Hw ?????. eapply callback_intro; try done. by apply (rinv_good _ _ _ Hw). Qed.

Lemma callback_refl Q (R : res) w : rinv P Q R w → callback_post P Q R w Q R w.
Proof. by split. Qed.

Lemma rinv_wf Q (R : res) w l q : rinv P Q R w → Q !! l = Some q → Forall (λ x, wf_packet x.2 ∧ P x.2) q.
Proof.
  intros Hw Hl. apply Forall_and. split; [|by eapply good_lookup; [apply (rinv_good _ _ _ Hw)|]].
  apply Forall_forall. intros [p pk] Hin.
  destruct (Mem_lookup _ _ p pk (wi_mem _ _ _ (ri_world _ _ _ _ Hw))) as [_ ?]; [|done].
  apply elem_of_app. left. rewrite (on_links_lookup _ _ _ Hl). apply elem_of_app. by left.
Qed.

(** ** Apps with an input and an output *)

(** The ports are there, or it is admitted that they are not. *)
Definition fits_io (I O : gset string) : Prop := E unwrap_none ∨ "input" ∈ I ∧ "output" ∈ O.

Lemma io_cases {A} Q (R : res) w ports (body : link_id → link_id → ST World A) Φ :
  rinv P Q R w → ports_ok ports Q → fits_io (inputs ports) (outputs ports) →
  (∀ i o qi qo, input ports !! "input" = Some i → output ports !! "output" = Some o → i ≠ o →
     Q !! i = Some qi → Q !! o = Some qo → wpx E (io_scope ports body) Φ w) →
  wpx E (io_scope ports body) Φ w.
Proof.
  intros Hw Hp Hfit Hgo. destruct (input ports !! "input") as [i|] eqn:Hi.
  2: { destruct Hfit as [HE|[Hin _]]; [unfold io_scope, port; by rewrite Hi|].
       unfold inputs in Hin. apply elem_of_dom in Hin as [i ?]. congruence. }
  destruct (output ports !! "output") as [o|] eqn:Ho.
  2: { destruct Hfit as [HE|[_ Hin]]; [|unfold outputs in Hin; apply elem_of_dom in Hin as [o ?]; congruence].
       unfold io_scope, port. rewrite Hi, Ho. apply wpx_bind. eapply wpx_lift; [done|]. apply wpx_bind.
       unfold borrow_mut, wpx at 1. by rewrite decide_False by by eapply rinv_idle. }
  destruct (po_input _ _ Hp _ _ Hi) as [qi Hqi]. destruct (po_output _ _ Hp _ _ Ho) as [qo Hqo].
  eapply Hgo; try done. intros ->. by eapply po_disjoint.
Qed.

(** Such an app treats its input packet by packet: [I] is an invariant of the app. *)
Section forwarding.
Context {A : Type} (body : link_id → A → loc → ST World A) (Rt : transfer A) (J : A → Env → Prop) (I : A → Prop).
Context (Hbody : ∀ Q i o, i ≠ o → body_spec E Q i o (body o) Rt J P).
Context (Hgood : ∀ a e x out a' e', Rt a e x out a' e' → wf_packet x.2 → P x.2 → I a →
  quiet e e' ∧ good out ∧ I a').

Lemma forwards_good a e xs outs a' e' :
  forwards Rt a e xs outs a' e' → Forall (λ x, wf_packet x.2 ∧ P x.2) xs → I a →
  quiet e e' ∧ good outs ∧ I a'.
Proof.
  induction 1 as [a e|a e x out a2 e2 xs outs a3 e3 Hx _ IH]; intros Hxs HI; [done|].
  apply Forall_cons in Hxs as [[Hwf HP] Hxs]. destruct (Hgood _ _ _ _ _ _ Hx Hwf HP HI) as (Hq & Ho & HI2).
  destruct (IH Hxs HI2) as (Hq3 & Ho3 & HI3). split_and!; [by etrans|by apply Forall_app_2|done].
Qed.

Lemma forwarding_law a ports Q (R : res) w :
  rinv P Q R w → ports_ok ports Q → fits_io (inputs ports) (outputs ports) → J a (env w) → I a →
  wpx E (io_scope ports (λ i o, drain i (body o) a))
    (λ a' w', I a' ∧ ∃ Q', callback_post P Q R w Q' R w') w.
Proof.
  intros Hw Hp Hfit HJ HI. eapply io_cases; [done..|]. intros i o qi qo Hi Ho Hio Hqi Hqo.
  pose proof (rinv_wf _ _ _ _ _ Hw Hqi) as Hgi. destruct (rinv_good _ _ _ Hw) as [HgQ _].
  eapply wpx_mono.
  - eapply (io_forwards E Q i o body Rt J P a ports qi qo (r_packets R));
      [done|done|done|by eapply rinv_idle|by eapply rinv_idle|by apply Hbody| |done|].
    + rewrite io_self by done. apply Hw.
    + eapply Forall_impl; [exact Hgi|]. by intros x [_ ?].
  - intros a' w' (outs & Hf & _ & Hb & Hw'). destruct (forwards_good _ _ _ _ _ _ Hf Hgi HI) as (Hq & Hg & HI').
    split; [done|]. exists (io Q i [] o (link_txs qo outs)).
    apply callback_links; [done|done| |by eapply dom_io|done|done].
    apply good_io; [done|constructor|]. apply good_link_txs; [by eapply good_lookup|done].
Qed.
End forwarding.
End rules.
