(* ===== verification/Apps.v ===== *)
(** * The apps of rush keep the contract of the engine

    [Box<dyn App>] and [Box<dyn AppConfig>] are the sums of the apps of src/.
    Every callback of every app meets [AppLaws] for any property of packets that
    is [Preserved]: no undefined behaviour, no packet lost.  The panics are
    [fatal] ones, given the ports ([fits_any]) and arguments ([conf_any]) that
    the app relies on; for an [E] that admits more panics fewer of them are
    needed. *)

From S2P Require Import Prelude Bytes Lib Checksum Packet Kernel App Frames Engine Interface AppRules.
From S2P Require Link Offload Tsd Flow Qos DelayQueue BasicApps RawSocket.
#[local] Existing Instances BasicApps.SourceApp_App BasicApps.SinkApp_App BasicApps.JoinApp_App BasicApps.TeeApp_App
  Offload.ChecksumApp_App Tsd.TSDApp_App Flow.SplitApp_App Flow.TopApp_App Qos.RateLimiterApp_App Qos.LossApp_App
  DelayQueue.LatencyApp_App DelayQueue.JitterApp_App RawSocket.RawSocketApp_App.
#[local] Open Scope Z_scope.

(** The implementors of AppConfig. *)
Inductive AnyConf : Type :=
  | Source (c : BasicApps.Source) | Sink | Join | Tee
  | Checksum | TSD (c : Tsd.TSD)
  | Split (c : Flow.Split) | Top (c : Flow.Top)
  | RateLimiter (c : Qos.RateLimiter) | Loss (c : Qos.Loss)
  | Latency (c : DelayQueue.Latency) | Jitter (c : DelayQueue.Jitter)
  | RawSocket (c : RawSocket.RawSocket).

(** The implementors of App. *)
Inductive AnyApp : Type :=
  | SourceApp (t : BasicApps.SourceApp) | SinkApp (t : BasicApps.SinkApp)
  | JoinApp (t : BasicApps.JoinApp) | TeeApp (t : BasicApps.TeeApp)
  | ChecksumApp (t : Offload.ChecksumApp) | TSDApp (t : Tsd.TSDApp)
  | SplitApp (t : Flow.SplitApp) | TopApp (t : Flow.TopApp)
  | RateLimiterApp (t : Qos.RateLimiterApp) | LossApp (t : Qos.LossApp)
  | LatencyApp (t : DelayQueue.LatencyApp) | JitterApp (t : DelayQueue.JitterApp)
  | RawSocketApp (t : RawSocket.RawSocketApp).

(** Debug for configurations: derived by the compiler. *)
Class Debug (C : Type) : Type := { debug : C → string }.

Section apps.
Context `{Target} `{Kernel} `{HashOrder}.

(** *** Dispatch *)

Record dyn : Type := mkDyn { dyn_type : Type; dyn_app : App dyn_type; dyn_self : dyn_type; dyn_box : dyn_type → AnyApp }.

Definition as_dyn (a : AnyApp) : dyn :=
  match a with
  | SourceApp t => mkDyn _ _ t SourceApp
  | SinkApp t => mkDyn _ _ t SinkApp
  | JoinApp t => mkDyn _ _ t JoinApp
  | TeeApp t => mkDyn _ _ t TeeApp
  | ChecksumApp t => mkDyn _ _ t ChecksumApp
  | TSDApp t => mkDyn _ _ t TSDApp
  | SplitApp t => mkDyn _ _ t SplitApp
  | TopApp t => mkDyn _ _ t TopApp
  | RateLimiterApp t => mkDyn _ _ t RateLimiterApp
  | LossApp t => mkDyn _ _ t LossApp
  | LatencyApp t => mkDyn _ _ t LatencyApp
  | JitterApp t => mkDyn _ _ t JitterApp
  | RawSocketApp t => mkDyn _ _ t RawSocketApp
  end.

#[export] Instance AnyApp_App : App AnyApp := {|
  has_pull a := let d := as_dyn a in has_pull (App := dyn_app d) (dyn_self d);
  pull a ports := let d := as_dyn a in t ← pull (App := dyn_app d) (dyn_self d) ports; mret (dyn_box d t);
  has_push a := let d := as_dyn a in has_push (App := dyn_app d) (dyn_self d);
  push a ports := let d := as_dyn a in t ← push (App := dyn_app d) (dyn_self d) ports; mret (dyn_box d t);
  has_stop a := let d := as_dyn a in has_stop (App := dyn_app d) (dyn_self d);
  stop a := let d := as_dyn a in stop (App := dyn_app d) (dyn_self d)
|}.

Definition new_app (c : AnyConf) : ST World AnyApp :=
  match c with
  | Source c => mret (SourceApp (BasicApps.Source_new c))
  | Sink => mret (SinkApp BasicApps.Sink_new)
  | Join => mret (JoinApp BasicApps.Join_new)
  | Tee => mret (TeeApp BasicApps.Tee_new)
  | Checksum => mret (ChecksumApp Offload.mkChecksumApp)
  | TSD c => t ← lift (Tsd.TSD_new c); mret (TSDApp t)
  | Split c => mret (SplitApp (Flow.Split_new c))
  | Top c => t ← Flow.Top_new c; mret (TopApp t)
  | RateLimiter c => mret (RateLimiterApp (Qos.RateLimiter_new c))
  | Loss c => t ← lift (Qos.Loss_new c); mret (LossApp t)
  | Latency c => mret (LatencyApp (DelayQueue.Latency_new c))
  | Jitter c => mret (JitterApp (DelayQueue.Jitter_new c))
  | RawSocket c => t ← RawSocket.RawSocket_new c; mret (RawSocketApp t)
  end.

(** Only delay queues implement Drop. *)
Definition drop_app (a : AnyApp) : ST World () :=
  match a with
  | LatencyApp t => DelayQueue.drop (DelayQueue.lat_queue t);; mret tt
  | JitterApp t => DelayQueue.drop (DelayQueue.jit_queue t);; mret tt
  | _ => mret tt
  end.

#[export] Instance AnyConf_AppConfig `{Debug AnyConf} : AppConfig AnyConf AnyApp := {|
  app_new := new_app;
  identity := debug;
  Engine.drop_app := drop_app
|}.

Section laws.
Context (P : Packet → Prop) `{!Preserved P} (E : string → Prop) `{!Admits E}.

(** *** What apps own *)

(** The app of a configuration. *)
Definition implements (c : AnyConf) (t : AnyApp) : Prop :=
  match c, t with
  | Split c, SplitApp t => Flow.flows t = Flow.conf_flows c
  | Source _, SourceApp _ | Sink, SinkApp _ | Join, JoinApp _ | Tee, TeeApp _ | Checksum, ChecksumApp _
  | TSD _, TSDApp _ | Top _, TopApp _ | RateLimiter _, RateLimiterApp _ | Loss _, LossApp _
  | Latency _, LatencyApp _ | Jitter _, JitterApp _ | RawSocket _, RawSocketApp _ => True
  | _, _ => False
  end.

(** Nothing, but for the profile of Top and the queues of Latency and Jitter. *)
Definition owns_any (a : AnyApp) (r : res) : Prop :=
  match a with
  | SourceApp t => r = ∅ ∧ 14 ≤ BasicApps.size t < 65536 ∧ (∀ p, blank (BasicApps.size t) p → P p)
  | TSDApp t => r = ∅ ∧ 0 < Tsd.app_mss t
  | TopApp t => r = mkRes [] [Flow.map t]
  | RateLimiterApp t => r = ∅ ∧ Qos.scale t = 1000000
  | LatencyApp t => DelayQueue.pkts (DelayQueue.packets (DelayQueue.lat_queue t)) = (r_packets r).*1 ∧
      r_maps r = [] ∧ is_u64 (DelayQueue.ms t)
  | JitterApp t => DelayQueue.pkts (DelayQueue.packets (DelayQueue.jit_queue t)) = (r_packets r).*1 ∧
      r_maps r = []
  | _ => r = ∅
  end.

(** Configurations within the ranges of their machine integers; blank packets
    need a link header.  The conditions of the assertions in the constructors
    may only fail if [E] admits it. *)
Definition conf_any (c : AnyConf) : Prop :=
  match c with
  | Source c => 14 ≤ BasicApps.conf_size c < 65536 ∧ (∀ p, blank (BasicApps.conf_size c) p → P p)
  | TSD c => E "Invalid MSS" ∨ 0 < Tsd.mss c
  | Loss c => E "Ratio must be within 0.0 and 1.0" ∨
      Qos.f64_le Qos.f64_zero (Qos.ratio c) = true ∧ Qos.f64_le (Qos.ratio c) Qos.f64_one = true
  | Latency c => is_u64 (DelayQueue.conf_ms c)
  | _ => True
  end.

(** The outputs of Split: the default, and one for every flow. *)
Definition fits_split (c : Flow.Split) (I O : gset string) : Prop :=
  (E unwrap_none ∨ "input" ∈ I ∧ "default" ∈ O ∧ ∀ f, f ∈ Flow.conf_flows c → Flow.label f ∈ O) ∧
  (E "already borrowed: BorrowMutError" ∨ ∀ f, f ∈ Flow.conf_flows c → Flow.label f ≠ "default").

(** The ports that an app takes from the map without looking. *)
Definition fits_any (c : AnyConf) (I O : gset string) : Prop :=
  match c with
  | Checksum | TSD _ | Top _ | RateLimiter _ | Loss _ | Jitter _ => fits_io E I O
  | Latency _ => fits_io E I O
  | Split c => fits_split c I O
  | _ => True
  end.

(** Every wiring fits, when all panics are admitted. *)
Lemma fits_any_any c I O : (∀ e, E e) → fits_any c I O.
Proof. intros HE. destruct c; try done; try (by left). by split; left. Qed.

(** *** The contract of each callback *)

Implicit Types (r R : res) (Q : queues).

Definition step_post Q r R w (a : AnyApp) w' : Prop :=
  ∃ r' Q', owns_any a r' ∧ callback_post P Q (r ⊎ R) w Q' (r' ⊎ R) w'.

(** Apps that own nothing. *)
Lemma step_empty Q R w a Q' w' :
  owns_any a ∅ → callback_post P Q R w Q' R w' → step_post Q ∅ R w a w'.
Proof. intros Ha Hp. exists ∅, Q'. by rewrite !res_app_empty_l. Qed.

(** Apps that forward, each packet for itself. *)
Lemma forwarding_step {A} (box : A → AnyApp) (body : link_id → A → loc → ST World A) Rt J I t ports Q R w r :
  (∀ Q i o, i ≠ o → body_spec E Q i o (body o) Rt J P) →
  (∀ a e x out a' e', Rt a e x out a' e' → wf_packet x.2 → P x.2 → I a →
     quiet e e' ∧ Forall (λ y, P y.2) out ∧ I a') →
  (∀ a, I a → owns_any (box a) r) →
  rinv P Q (r ⊎ R) w → ports_ok ports Q → fits_io E (inputs ports) (outputs ports) → J t (env w) → I t →
  wpx E (io_scope ports (λ i o, drain i (body o) t)) (λ t' w', step_post Q r R w (box t') w') w.
Proof.
  intros Hb Hg Hown Hw Hp Hfit HJ HI. eapply wpx_mono; [by eapply (forwarding_law P E body Rt J I)|].
  intros t' w' (HI' & Q' & Hpost). exists r, Q'. split; [by apply Hown|done].
Qed.

Lemma checksum_step t ports Q R w :
  rinv P Q R w → ports_ok ports Q → fits_io E (inputs ports) (outputs ports) →
  wpx E (push t ports) (λ t' w', step_post Q ∅ R w (ChecksumApp t') w') w.
Proof.
  intros Hw Hp Hfit. apply (forwarding_step ChecksumApp (λ o, Offload.checksum_body o) Offload.checksum_transfer (λ _ _, True) (λ _, True)).
  - intros Q' i o Hio. eapply body_spec_mono; [by apply Offload.checksum_body_spec|intros pk Hpk; by apply framed_complete, preserved_framed].
  - intros a e x out a' e' (-> & -> & y & (Hy & Hf) & ->) Hwf Hfr _. split_and!; [done| |done].
    constructor; [|done]. by eapply preserved_fill.
  - done.
  - by rewrite res_app_empty_l.
  - done.
  - done.
  - done.
  - done.
Qed.

Lemma tsd_step t ports Q R w :
  0 < Tsd.app_mss t → rinv P Q R w → ports_ok ports Q → fits_io E (inputs ports) (outputs ports) →
  wpx E (push t ports) (λ t' w', step_post Q ∅ R w (TSDApp t') w') w.
Proof.
  intros Hm Hw Hp Hfit. apply (forwarding_step TSDApp Tsd.tsd_body Tsd.tsd_transfer (λ a _, 0 < Tsd.app_mss a) (λ a, 0 < Tsd.app_mss a)).
  - intros Q' i o Hio. eapply body_spec_mono; [by apply body_spec_overflow, Tsd.tsd_body_spec|done].
  - intros a e x out a' e' (-> & -> & Ho) Hwf Hfr Ha. split_and!; [done| |done]. by eapply preserved_cut.
  - done.
  - by rewrite res_app_empty_l.
  - done.
  - done.
  - done.
  - done.
Qed.

Lemma loss_step t ports Q R w :
  rinv P Q R w → ports_ok ports Q → fits_io E (inputs ports) (outputs ports) →
  wpx E (push t ports) (λ t' w', step_post Q ∅ R w (LossApp t') w') w.
Proof.
  intros Hw Hp Hfit. apply (forwarding_step LossApp Qos.loss_body Qos.loss_transfer (λ _ _, True) (λ _, True)).
  - intros Q' i o Hio. by eapply body_spec_mono; [apply Qos.loss_body_spec|].
  - intros a e x out a' e' (-> & -> & ->) Hwf Hfr _. split_and!; [by repeat split| |done].
    case_match; [constructor; [done|constructor]|constructor].
  - done.
  - by rewrite res_app_empty_l.
  - done.
  - done.
  - done.
  - done.
Qed.

Lemma top_step t ports Q R w :
  rinv P Q (mkRes [] [Flow.map t] ⊎ R) w → ports_ok ports Q → fits_io E (inputs ports) (outputs ports) →
  wpx E (push t ports) (λ t' w', step_post Q (mkRes [] [Flow.map t]) R w (TopApp t') w') w.
Proof.
  intros Hw Hp Hfit. apply (forwarding_step TopApp Flow.top_body Flow.top_transfer Flow.profile_ok (λ a, Flow.map a = Flow.map t)).
  - intros Q' i o Hio. by eapply body_spec_mono; [apply Flow.top_body_spec|].
  - intros a e x out a' e' (-> & -> & slots & Hm & ->) Hwf Hfr Ha. split_and!; [|constructor; [done|constructor]|done].
    split; [split; [done..|]|done]. intros m (sl & Hsl & Hlen). unfold mapped. simpl. destruct (decide (Flow.map a = m)) as [<-|Hne].
    + rewrite lookup_insert_eq. eexists. split; [done|]. unfold Flow.count_packet. rewrite Flow.length_counted. congruence.
    + rewrite lookup_insert_ne by done. by exists sl.
  - intros a Ha. simpl. by rewrite Ha.
  - done.
  - done.
  - done.
  - apply (ri_maps _ _ _ _ Hw). simpl. by left.
  - done.
Qed.

(** *** Rate limiter, delay queues *)

Lemma conforming_sublist xs : ∀ tok, (Qos.conforming tok xs).1 ⊆ xs.
Proof.
  induction xs as [|x xs IH]; intros tok; simpl; [done|]. case_decide.
  - specialize (IH (tok - Qos.cost x)). destruct (Qos.conforming _ xs) as [out tok']. simpl in *. set_solver.
  - specialize (IH tok). set_solver.
Qed.

Lemma good_sub (xs ys : queue) : xs ⊆ ys → Forall (λ y, P y.2) ys → Forall (λ y, P y.2) xs.
Proof. intros Hs. rewrite !Forall_forall. intros Hy x Hx. by apply Hy, Hs. Qed.

(** The links of an app are as [io] says. *)
Lemma rinv_io Q R w i o qi qo :
  i ≠ o → rinv P Q R w → Q !! i = Some qi → Q !! o = Some qo → winv (io Q i qi o qo) (r_packets R) w.
Proof. intros Hio Hw Hi Ho. rewrite io_self by done. apply Hw. Qed.

Lemma rate_step t ports Q R w :
  Qos.scale t = 1000000 → rinv P Q R w → ports_ok ports Q → fits_io E (inputs ports) (outputs ports) → timed w →
  wpx E (push t ports) (λ t' w', step_post Q ∅ R w (RateLimiterApp t') w') w.
Proof.
  intros Hs Hw Hp Hfit (now & Hn & _). eapply (io_cases P E); [done..|]. intros i o qi qo Hi Ho Hio Hqi Hqo.
  eapply wpx_mono; [eapply (Qos.rate_push_wp E t ports i o Q qi qo (r_packets R) w now);
    [done|done|done|by eapply rinv_idle|by eapply rinv_idle|by eapply rinv_io|done|done]|].
  pose proof (conforming_sublist qi (Qos.tokens (Qos.bucket (Qos.refill t now)))) as Hsub.
  intros t' w'. destruct (Qos.conforming _ qi) as [out tok]. intros (-> & Hw' & He). simpl in Hsub.
  eapply step_empty; [by split; [|simpl; rewrite Qos.refill_scale]|].
  apply callback_links; [done|exact Hw'| |by eapply dom_io|by apply He|by apply same_env_quiet].
  destruct (rinv_good _ _ _ _ Hw) as [HgQ _].
  apply good_io; [done|constructor|]. apply good_link_txs; [by eapply good_lookup|].
  eapply good_sub; [exact Hsub|by eapply good_lookup].
Qed.

(** What pull of a delay queue does. *)
Lemma pull_queue_step ports Q (held : queue) R w es cap :
  DelayQueue.pkts es = held.*1 → rinv P Q (packets_only held ⊎ R) w → ports_ok ports Q →
  (E unwrap_none ∨ "output" ∈ outputs ports) → timed w →
  wpx E (DelayQueue.pull_queue ports (DelayQueue.mkDelayQueue es cap)) (λ q' w', ∃ held' Q',
    DelayQueue.pkts (DelayQueue.packets q') = held'.*1 ∧
    callback_post P Q (packets_only held ⊎ R) w Q' (packets_only held' ⊎ R) w') w.
Proof.
  intros Hes Hw Hp Hfit (t & Ht & _). destruct (output ports !! "output") as [o|] eqn:Ho.
  2: { destruct Hfit as [HE|Hin]; [unfold DelayQueue.pull_queue, port; by rewrite Ho|].
       unfold outputs in Hin. apply elem_of_dom in Hin as [o ?]. congruence. }
  destruct (po_output _ _ Hp _ _ Ho) as [qo Hqo].
  eapply wpx_mono; [eapply (wpx_admits E _ _ _ _ (DelayQueue.pull_queue_wp ports o Q qo cap es held (r_packets R) w t
    Ho (rinv_idle _ _ _ _ _ Hw) Hqo (ri_world _ _ _ _ Hw) Hes Ht))|].
  { intros e He. right. left. by eapply DelayQueue.released_panics. }
  intros q' w' (rel & held' & es' & _ & -> & -> & Hes' & Hw' & He). exists held', (<[o:=link_txs qo rel]> Q).
  split; [done|]. destruct (rinv_good _ _ _ _ Hw) as [HgQ HgR]. simpl in HgR.
  apply Forall_app in HgR as [HgH HgR]. apply Forall_app in HgH as [Hrel Hheld].
  apply callback_intro; [done|exact Hw'| | |by eapply dom_insert_same|by apply He|done|by apply same_env_quiet].
  - apply good_insert; [done|]. apply good_link_txs; [by eapply good_lookup|done].
  - by apply Forall_app_2.
Qed.

Lemma owned_packets r : r_maps r = [] → r = packets_only (r_packets r).
Proof. destruct r. simpl. by intros ->. Qed.

Lemma latency_pull_law t ports Q r R w :
  owns_any (LatencyApp t) r → rinv P Q (r ⊎ R) w → ports_ok ports Q → fits_io E (inputs ports) (outputs ports) → timed w →
  wpx E (pull t ports) (λ t' w', step_post Q r R w (LatencyApp t') w') w.
Proof.
  destruct t as [m [es cap]]. simpl. intros (Hes & Hm & Hms) Hw Hp Hfit Ht.
  rewrite (owned_packets r Hm) in *. unfold DelayQueue.latency_pull. apply wpx_bind.
  eapply wpx_mono; [apply (pull_queue_step ports Q (r_packets r) R w es cap); [done..|destruct Hfit as [|[]]; auto|done]|].
  intros q' w' (held' & Q' & Hq' & Hpost). apply wpx_ret. exists (packets_only held'), Q'. split; [|done].
  by split_and!.
Qed.

Lemma jitter_pull_law t ports Q r R w :
  owns_any (JitterApp t) r → rinv P Q (r ⊎ R) w → ports_ok ports Q → fits_io E (inputs ports) (outputs ports) → timed w →
  wpx E (pull t ports) (λ t' w', step_post Q r R w (JitterApp t') w') w.
Proof.
  destruct t as [us st re [es cap]]. simpl. intros (Hes & Hm) Hw Hp Hfit Ht.
  rewrite (owned_packets r Hm) in *. unfold DelayQueue.jitter_pull. apply wpx_bind.
  eapply wpx_mono; [apply (pull_queue_step ports Q (r_packets r) R w es cap); [done..|destruct Hfit as [|[]]; auto|done]|].
  intros q' w' (held' & Q' & Hq' & Hpost). apply wpx_ret. exists (packets_only held'), Q'. by split.
Qed.

Lemma latency_push_law t ports Q r R w :
  owns_any (LatencyApp t) r → rinv P Q (r ⊎ R) w → ports_ok ports Q → fits_io E (inputs ports) (outputs ports) → timed w →
  wpx E (push t ports) (λ t' w', step_post Q r R w (LatencyApp t') w') w.
Proof.
  destruct t as [m [es cap]]. simpl. intros (Hes & Hm & Hms) Hw Hp Hfit (now & Hn & Hit).
  destruct (input ports !! "input") as [i|] eqn:Hi.
  2: { destruct Hfit as [HE|[Hin _]]; [unfold DelayQueue.latency_push, port; by rewrite Hi|].
       unfold inputs in Hin. apply elem_of_dom in Hin as [i ?]. congruence. }
  destruct (po_input _ _ Hp _ _ Hi) as [qi Hqi].
  eapply wpx_mono; [eapply (DelayQueue.latency_push_wp E m cap es ports i Q qi (r_packets r) (r_packets R) w now);
    [done|by eapply rinv_idle|rewrite insert_id by done; apply Hw|done..]|].
  intros t' w'. destruct (DelayQueue.latency_batch m cap now es qi) as [es' batch] eqn:Hb.
  intros (-> & Hes' & Hw' & He). exists (packets_only (r_packets r ++ batch)), (<[i:=drop (length batch) qi]> Q).
  split; [by split_and!|].
  assert (batch ⊆ qi) as Hsub.
  { unfold DelayQueue.latency_batch in Hb. case_decide; injection Hb as _ <-; [set_solver|]. apply subseteq_take. }
  destruct (rinv_good _ _ _ _ Hw) as [HgQ HgR]. apply Forall_app in HgR as [HgH HgR].
  pose proof (good_lookup _ _ _ _ HgQ Hqi) as Hgi.
  apply callback_intro; [done|exact Hw'| | |by eapply dom_insert_same|by apply He|simpl; by rewrite Hm|by apply same_env_quiet].
  - apply good_insert; [done|]. by apply Forall_drop.
  - repeat apply Forall_app_2; [done|by eapply good_sub|done].
Qed.

Lemma jitter_push_law t ports Q r R w :
  owns_any (JitterApp t) r → rinv P Q (r ⊎ R) w → ports_ok ports Q → fits_io E (inputs ports) (outputs ports) → timed w →
  wpx E (push t ports) (λ t' w', step_post Q r R w (JitterApp t') w') w.
Proof.
  simpl. intros (Hes & Hm) Hw Hp Hfit (now & Hn & Hit).
  eapply (io_cases P E); [done..|]. intros i o qi qo Hi Ho Hio Hqi Hqo.
  eapply wpx_mono; [eapply (DelayQueue.jitter_push_wp E t (DelayQueue.packets (DelayQueue.jit_queue t))
    ports i o Q qi qo (r_packets r) (r_packets R) w now);
    [done|done|done|by eapply rinv_idle|by eapply rinv_idle|by apply (rinv_io Q (r ⊎ R))|done..]|].
  cbv zeta. set (j := DelayQueue.jitter_spec _ _ _ _ _ _). intros t' w' (-> & Hw' & Hes' & Hd & Hb & Hperm & _).
  exists (packets_only (r_packets r ++ DelayQueue.jd_taken j)), (io Q i (DelayQueue.jd_rest j) o (link_txs qo (DelayQueue.jd_sent j))).
  split; [by split|]. destruct (rinv_good _ _ _ _ Hw) as [HgQ HgR]. apply Forall_app in HgR as [HgH HgR].
  pose proof (good_lookup _ _ _ _ HgQ Hqi) as Hgi. rewrite Hperm, !Forall_app in Hgi. destruct Hgi as (Hs & Hk & Hr).
  apply callback_intro; [done|exact Hw'| | |by eapply dom_io|done|simpl; by rewrite Hm|].
  - apply good_io; [done|done|]. apply good_link_txs; [by eapply good_lookup|done].
  - by repeat apply Forall_app_2.
  - rewrite Hd. by split.
Qed.

(** *** Split *)

Lemma good_sends Q lxs :
  good_links P Q → Forall (λ lx, P lx.2.2) lxs →
  good_links P (Flow.sends Q lxs) ∧ dom (Flow.sends Q lxs) = dom Q.
Proof.
  revert Q. induction lxs as [|[l x] lxs IH]; intros Q HQ Hx; simpl; [done|].
  apply Forall_cons in Hx as [Hx Hxs]. unfold Flow.send. simpl. destruct (Q !! l) as [q|] eqn:Hq; [|by apply IH].
  destruct (IH (<[l:=link_tx q x]> Q)) as [Hg Hd]; [|done|].
  - apply good_insert; [done|]. apply (good_link_txs P q [x]); [by eapply good_lookup|by constructor].
  - split; [done|]. rewrite Hd. by eapply dom_insert_same.
Qed.

Lemma split_step t ports Q R w :
  rinv P Q R w → ports_ok ports Q →
  fits_split (Flow.mkSplit (Flow.flows t)) (inputs ports) (outputs ports) →
  wpx E (push t ports) (λ t' w', t' = t ∧ step_post Q ∅ R w (SplitApp t') w') w.
Proof.
  unfold fits_split, inputs, outputs. cbn [Flow.conf_flows]. intros Hw Hp [Hfit Hnames]. simpl.
  destruct (input ports !! "input") as [i|] eqn:Hi.
  2: { destruct Hfit as [HE|[[i ?]%elem_of_dom _]]; [unfold Flow.split_push, port; by rewrite Hi|congruence]. }
  destruct (output ports !! "default") as [d|] eqn:Hd.
  2: { destruct Hfit as [HE|(_ & [d ?]%elem_of_dom & _)]; [|congruence]. unfold Flow.split_push, port. rewrite Hi, Hd. apply wpx_bind. eapply wpx_lift; [done|]. apply wpx_bind.
       unfold borrow_mut, wpx at 1. by rewrite decide_False by by eapply rinv_idle. }
  destruct (po_input _ _ Hp _ _ Hi) as [qi Hqi]. destruct (po_output _ _ Hp _ _ Hd) as [qd Hqd].
  eapply wpx_mono; [apply (Flow.split_push_wp E t ports i d Q w qi (r_packets R))|].
  - split.
    + split_and!; [done|by eapply rinv_idle|by eexists].
    + split_and!; [done|intros ->; by eapply po_disjoint|by eapply rinv_idle|by eexists].
    + intros f Hf. destruct (output ports !! Flow.label f) as [l|] eqn:Hl; [left|right].
      * exists l. split_and!; [done|intros ->; by eapply po_disjoint|by eapply rinv_idle|by eapply po_output|].
        intros ->. destruct Hnames as [|Hn]; [done|]. destruct (Hn f Hf). by eapply po_output_inj.
      * split; [done|]. destruct Hfit as [HE|(_ & _ & Ho)]; [done|].
        destruct (proj1 (elem_of_dom _ _) (Ho f Hf)) as [l ?]. congruence.
  - rewrite insert_id by done. apply Hw.
  - intros t' w' (-> & ls & Hr & Hw' & He). split; [done|]. destruct (rinv_good _ _ _ _ Hw) as [HgQ _].
    pose proof (good_lookup _ _ _ _ HgQ Hqi) as Hgi.
    destruct (good_sends (<[i:=[]]> Q) (zip ls qi)) as [Hg HD].
    + by apply good_insert; [|constructor].
    + apply Forall_forall. intros [l x] Hin. apply elem_of_zip_r in Hin. rewrite Forall_forall in Hgi. by apply Hgi.
    + eapply step_empty; [done|]. apply callback_links; [done|exact Hw'|done| |by apply He|by apply same_env_quiet].
      rewrite HD. by eapply dom_insert_same.
Qed.

(** *** Apps that work on all their links *)

Lemma elem_of_vals (m : gmap string link_id) l : l ∈ values m ↔ ∃ n, m !! n = Some l.
Proof.
  unfold values. rewrite order_perm, list_elem_of_fmap. split.
  - intros ([n l'] & -> & Hin). exists n. by apply elem_of_map_to_list in Hin.
  - intros [n Hn]. exists (n, l). split; [done|]. by apply elem_of_map_to_list.
Qed.

Lemma values_nodup (m : gmap string link_id) :
  (∀ n n' l, m !! n = Some l → m !! n' = Some l → n = n') → NoDup (values m).
Proof.
  intros Hinj. unfold values. rewrite order_perm. apply NoDup_fmap_2_strong; [|apply NoDup_map_to_list].
  intros [n l] [n' l'] Hin Hin' ?. simpl in *. subst l'. apply elem_of_map_to_list in Hin, Hin'. f_equal. by eapply Hinj.
Qed.

Record linked_ports ports Q w : Prop := {
  lp_ins : BasicApps.reachable (values (input ports)) Q w;
  lp_outs : BasicApps.reachable (values (output ports)) Q w;
  lp_ins_once : NoDup (values (input ports));
  lp_outs_once : NoDup (values (output ports));
  lp_disjoint : ∀ l, l ∈ values (input ports) → l ∉ values (output ports);
}.

Lemma ports_linked ports Q R w : rinv P Q R w → ports_ok ports Q → linked_ports ports Q w.
Proof.
  intros Hw Hp. split.
  - split; intros l Hl; [|by eapply rinv_idle]. apply elem_of_vals in Hl as [n Hn]. by eapply po_input.
  - split; intros l Hl; [|by eapply rinv_idle]. apply elem_of_vals in Hl as [n Hn]. by eapply po_output.
  - apply values_nodup. apply Hp.
  - apply values_nodup. apply Hp.
  - intros l [n Hn]%elem_of_vals [n' Hn']%elem_of_vals. by eapply po_disjoint.
Qed.

Lemma good_emptied ls Q : good_links P Q → good_links P (BasicApps.emptied ls Q).
Proof.
  intros HQ l q Hq. rewrite BasicApps.lookup_emptied in Hq. case_decide; [by simplify_eq|by eapply good_lookup].
Qed.

Lemma dom_emptied ls Q : (∀ l, l ∈ ls → is_Some (Q !! l)) → dom (BasicApps.emptied ls Q) = dom Q.
Proof.
  intros Hl. apply set_eq. intros l. rewrite !elem_of_dom, BasicApps.lookup_emptied. case_decide; [|done].
  split; [intros _; by apply Hl|by eexists].
Qed.

Lemma good_queue_of Q l : good_links P Q → Forall (λ x, P x.2) (BasicApps.queue_of Q l).
Proof.
  intros HQ. unfold BasicApps.queue_of. destruct (Q !! l) as [q|] eqn:Hq; [by eapply good_lookup|constructor].
Qed.

Lemma good_concat Q ls : good_links P Q → Forall (λ x, P x.2) (concat (BasicApps.queue_of Q <$> ls)).
Proof.
  intros HQ. induction ls as [|l ls IH]; simpl; [constructor|]. apply Forall_app_2; [by apply good_queue_of|done].
Qed.

Lemma good_appended (S : queue → Prop) outs Q Q' :
  (∀ xs, S xs → Forall (λ x, P x.2) xs) → BasicApps.appended S outs Q Q' → good_links P Q → good_links P Q'.
Proof.
  intros HS [_ HO HR] HQ l q Hq. destruct (decide (l ∈ outs)) as [Hin|Hin].
  - destruct (HO l Hin) as (xs & Hx & Hl). rewrite Hq in Hl. injection Hl as ->.
    apply good_link_txs; [by apply good_queue_of|by apply HS].
  - rewrite HR in Hq by done. by eapply good_lookup.
Qed.

Lemma sink_step t ports Q R w :
  rinv P Q R w → ports_ok ports Q →
  wpx E (push t ports) (λ t' w', step_post Q ∅ R w (SinkApp t') w') w.
Proof.
  intros Hw Hp. destruct (ports_linked _ _ _ _ Hw Hp) as [Hri _ _ _ _]. destruct (rinv_good _ _ _ _ Hw) as [HgQ _].
  eapply wpx_mono; [by apply (BasicApps.sink_push_wp E t ports Q (r_packets R)); [apply Hw|]|].
  intros t' w' (-> & Hw' & He). eapply step_empty; [done|].
  apply callback_links; [done|exact Hw'|by apply good_emptied|apply dom_emptied, Hri|by apply He|by apply same_env_quiet].
Qed.

Lemma join_step t ports Q R w :
  rinv P Q R w → ports_ok ports Q →
  wpx E (push t ports) (λ t' w', step_post Q ∅ R w (JoinApp t') w') w.
Proof.
  intros Hw Hp. destruct (ports_linked _ _ _ _ Hw Hp) as [Hri Hro Hni _ Hd]. destruct (rinv_good _ _ _ _ Hw) as [HgQ _].
  eapply wpx_mono; [apply (BasicApps.join_push_wp E t ports Q (r_packets R)); [apply Hw|done|done|]|].
  - intros o Ho. assert (o ∈ values (output ports)) as Hin by (apply elem_of_vals; by exists "output").
    split_and!; [by apply Hro|by apply Hro|]. intros Hi. by eapply Hd.
  - intros t' w' (-> & He & Hw').
    destruct (output ports !! "output") as [o|] eqn:Ho.
    2: { subst w'. eapply step_empty; [done|]. by apply callback_refl. }
    eapply step_empty; [done|]. apply callback_links; [done|exact Hw'| | |by apply He|by apply same_env_quiet].
    + apply good_insert; [by apply good_emptied|]. apply good_link_txs; [by apply good_queue_of|by apply good_concat].
    + destruct (po_output _ _ Hp _ _ Ho) as [qo Hqo].
      rewrite dom_insert_L, dom_emptied by apply Hri. apply elem_of_dom_2 in Hqo. set_solver.
Qed.

Lemma good_copies xs cs :
  Forall2 BasicApps.copy_of xs cs → Forall (λ x, P x.2) xs → Forall (λ x, P x.2) cs.
Proof.
  induction 1 as [|x c xs cs [Hf _] _ IH]; intros Hg; [constructor|].
  apply Forall_cons in Hg as [Hx Hg]. constructor; [by eapply preserved_frame|by apply IH].
Qed.

Lemma tee_step t ports Q R w :
  rinv P Q R w → ports_ok ports Q →
  wpx E (push t ports) (λ t' w', step_post Q ∅ R w (TeeApp t') w') w.
Proof.
  intros Hw Hp. destruct (ports_linked _ _ _ _ Hw Hp) as [Hri Hro Hni Hno Hd]. destruct (rinv_good _ _ _ _ Hw) as [HgQ _].
  eapply wpx_mono; [by eapply (wpx_overflow E), (BasicApps.tee_push_wp t ports Q (r_packets R)); [apply Hw|..]|].
  intros t' w' (-> & He & Q' & Hw' & Ha). eapply step_empty; [done|].
  apply callback_links; [done|exact Hw'| | |by apply He|by apply same_env_quiet].
  - eapply good_appended; [|exact Ha|by apply good_emptied]. intros xs Hxs.
    eapply good_copies; [exact Hxs|by apply good_concat].
  - rewrite (BasicApps.ap_dom _ _ _ _ Ha). apply dom_emptied, Hri.
Qed.

Lemma source_step t ports Q R w :
  14 ≤ BasicApps.size t < 65536 → (∀ p, blank (BasicApps.size t) p → P p) → rinv P Q R w → ports_ok ports Q →
  wpx E (pull t ports) (λ t' w', step_post Q ∅ R w (SourceApp t') w') w.
Proof.
  intros Hs Hbl Hw Hp. destruct (ports_linked _ _ _ _ Hw Hp) as [_ Hro _ Hno _]. destruct (rinv_good _ _ _ _ Hw) as [HgQ _].
  eapply wpx_mono; [by eapply (wpx_overflow E), (BasicApps.source_pull_wp t ports Q (r_packets R));
    [unfold is_u16; lia|done|done|apply Hw]|].
  intros t' w' (-> & He & Q' & Hw' & Ha). eapply step_empty; [done|].
  apply callback_links; [done|exact Hw'| |by eapply BasicApps.ap_dom|by apply He|by apply same_env_quiet].
  eapply good_appended; [|exact Ha|done]. intros xs [_ Hxs]. eapply Forall_impl; [exact Hxs|].
  intros x (Hl & Hz & _). apply Hbl. by split.
Qed.

(** *** RawSocket, and the kernel *)

Lemma callback_calls Q R h w :
  rinv P Q R w → written h = written (syscalls w) → callback_post P Q R w Q R (set_syscalls h w).
Proof.
  intros Hw Hh. apply callback_links; [done| |by apply (rinv_good _ _ _ _ Hw)|done|done|by split; [split|]].
  apply winv_set_syscalls, Hw.
Qed.

Context `{!KernelLaws (delivers P)}.

Lemma raw_pull_step t ports Q R w :
  rinv P Q R w → ports_ok ports Q →
  wpx E (pull t ports) (λ t' w', step_post Q ∅ R w (RawSocketApp t') w') w.
Proof.
  intros Hw Hp. destruct (rinv_good _ _ _ _ Hw) as [HgQ _]. destruct (output ports !! "output") as [o|] eqn:Ho.
  - destruct (po_output _ _ Hp _ _ Ho) as [q Hq].
    eapply wpx_mono; [by eapply (wpx_socket E), (RawSocket.raw_pull_wp (delivers P) t ports o Q q (r_packets R)); [..|by eapply rinv_idle|apply Hw]|].
    intros t' w' [-> (xs & [Hw' He Hf _ _ Hx])]. eapply step_empty; [done|].
    apply callback_links; [done|exact Hw'| |by eapply dom_insert_same|by apply He|].
    2: { apply but_calls_quiet; [done|exact Hx]. }
    apply good_insert; [done|]. apply good_link_txs; [by eapply good_lookup|].
    eapply Forall_impl; [exact Hf|]. intros x [Hwf Hok]. by apply delivers_frame.
  - simpl. unfold RawSocket.raw_pull. rewrite Ho. apply wpx_bind, wpx_ret, wpx_ret.
    eapply step_empty; [done|]. by apply callback_refl.
Qed.

Lemma raw_push_step t ports Q R w :
  rinv P Q R w → ports_ok ports Q →
  wpx E (push t ports) (λ t' w', step_post Q ∅ R w (RawSocketApp t') w') w.
Proof.
  intros Hw Hp. destruct (rinv_good _ _ _ _ Hw) as [HgQ _]. destruct (input ports !! "input") as [i|] eqn:Hi.
  - destruct (po_input _ _ Hp _ _ Hi) as [q Hq].
    eapply wpx_mono; [by eapply (wpx_socket E), (RawSocket.raw_push_wp (delivers P) t ports i Q q (r_packets R)); [..|by eapply rinv_idle|apply Hw]|].
    intros t' w' [-> (xs & rest & [-> Hw' He _ Hx] & _)]. eapply step_empty; [done|].
    pose proof (rinv_wf _ _ _ _ _ _ Hw Hq) as Hg. apply Forall_app in Hg as [Hxs Hg].
    apply callback_sends; [done|exact Hw'| |by apply (rinv_good _ _ _ _ Hw)|by eapply dom_insert_same|by apply He|done| |].
    + apply good_insert; [done|]. eapply Forall_impl; [exact Hg|]. by intros x [_ ?].
    + destruct He as [-> _]. by split.
    + rewrite Hx. apply Forall_app_2; [|apply Hw]. apply Forall_fmap. eapply Forall_impl; [exact Hxs|].
      intros x [Hwf HP]. by exists x.2.
  - simpl. unfold RawSocket.raw_push. rewrite Hi. apply wpx_bind, wpx_ret, wpx_ret.
    eapply step_empty; [done|]. by apply callback_refl.
Qed.

Lemma open_raw_socket_wp ifname w :
  wpx call_failed (RawSocket.open_raw_socket ifname) (λ _ w', ∃ h, written h = written (syscalls w) ∧ w' = set_syscalls h w) w.
Proof.
  assert (∀ A (msg : string) b (k : () → ST World A) Φ w1, call_failed msg →
    wpx call_failed (k tt) Φ w1 → wpx call_failed (lift (assert msg b) ≫= k) Φ w1) as Hassert.
  { intros A msg b k Φ w1 Hm Hk. apply wpx_bind. by destruct b. }
  unfold RawSocket.open_raw_socket, RawSocket.cstr. apply wpx_bind.
  destruct (negb (has_nul ifname)); [|by right; left; left]. eapply wpx_lift; [done|].
  apply wpx_bind. unfold syscall, wpx at 1. apply Hassert; [unfold call_failed; tauto|].
  apply wpx_bind. unfold syscall, wpx at 1. apply Hassert; [unfold call_failed; tauto|].
  apply wpx_bind. unfold syscall, wpx at 1. case_match; [unfold wpx; simpl; unfold call_failed; tauto|]. apply wpx_ret. eexists. by split; [|reflexivity].
Qed.

(** *** The beginning and the end of apps *)

Lemma new_step c Q R w :
  conf_any c → rinv P Q R w →
  wpx E (new_app c) (λ t w', ∃ r, owns_any t r ∧ callback_post P Q R w Q (r ⊎ R) w') w.
Proof.
  intros Hc Hw.
  assert (∀ t r, owns_any t r → r = ∅ → ∃ r, owns_any t r ∧ callback_post P Q R w Q (r ⊎ R) w) as Hpure.
  { intros t r Ht ->. exists ∅. split; [done|]. rewrite res_app_empty_l. by apply callback_refl. }
  destruct c as [c| | | | |c|c|c|c|c|c|c|c]; simpl; try (by apply wpx_ret, (Hpure _ ∅)).
  - (* TSD *) apply wpx_bind. unfold Tsd.TSD_new. destruct (Z.gtb_spec (Tsd.mss c) 0); [|by destruct Hc; [|lia]].
    eapply wpx_lift; [done|]. by apply wpx_ret, (Hpure _ ∅).
  - (* Top *) apply wpx_bind. unfold Flow.Top_new. apply wpx_bind.
    eapply wpx_mono; [eapply (wpx_admits E _ _ _ _ (Flow.open_flowtop_map_wp (Flow.path c) w))|].
    { intros e He. right. right. right. by left. }
    intros m w' (Hm & slots & h & Hl & Hwr & ->). apply wpx_ret, wpx_ret. exists (mkRes [] [m]). split; [done|].
    destruct Hw as [Hwi Hg Hi Hnd Hmp Hck Hsent]. split; [|done|done|by split]. split; simpl; [by destruct Hwi|done|done| | |done|by rewrite Hwr].
    + constructor; [|done]. intros (sl & Hsl & _)%Hmp. congruence.
    + intros m' [->|Hin]%elem_of_cons; [exists slots; by rewrite lookup_insert_eq|].
      destruct (Hmp _ Hin) as (sl & Hsl & Hlen). exists sl. split; [|done]. rewrite lookup_insert_ne; [done|congruence].
  - (* Loss *) apply wpx_bind. unfold Qos.Loss_new. destruct (_ && _) eqn:Hr; [|destruct Hc as [HE|[Hz Ho]]; [done|by rewrite Hz, Ho in Hr]].
    eapply wpx_lift; [done|]. by apply wpx_ret, (Hpure _ ∅).
  - (* RawSocket *) apply wpx_bind. unfold RawSocket.RawSocket_new. apply wpx_bind.
    eapply wpx_mono; [eapply (wpx_admits E _ _ _ _ (open_raw_socket_wp _ w)); intros e He; by do 2 right|]. intros s w' (h & Hh & ->). apply wpx_ret, wpx_ret.
    exists ∅. split; [done|]. rewrite res_app_empty_l. by apply callback_calls.
Qed.

Lemma drop_step (held : queue) es cap Q R w :
  DelayQueue.pkts es = held.*1 → rinv P Q (packets_only held ⊎ R) w →
  wpx E (DelayQueue.drop (DelayQueue.mkDelayQueue es cap);; mret tt)
    (λ _ w', callback_post P Q (packets_only held ⊎ R) w Q R w') w.
Proof.
  intros Hes Hw. apply wpx_bind.
  eapply wpx_mono; [by apply (DelayQueue.drop_wp E Q (length es) es cap held (r_packets R)); [|apply Hw|]|].
  intros q' w' (_ & Hw' & He). apply wpx_ret. destruct (rinv_good _ _ _ _ Hw) as [HgQ HgR].
  apply Forall_app in HgR as [_ HgR].
  apply callback_intro; [done|exact Hw'|done|done|done|by apply He|done|by apply same_env_quiet].
Qed.

Lemma finish_step `{Debug AnyConf} t r Q R w :
  owns_any t r → rinv P Q (r ⊎ R) w →
  wpx E (finish (C := AnyConf) t) (λ _ w', callback_post P Q (r ⊎ R) w Q R w') w.
Proof.
  intros Ho Hw. unfold finish. apply wpx_bind.
  assert (r = ∅ → callback_post P Q (r ⊎ R) w Q R w) as Hempty.
  { intros ->. rewrite res_app_empty_l in *. by apply callback_refl. }
  destruct t as [t|t|t|t|t|t|t|t|t|t|[m [es cap]]|[us st re [es cap]]|t]; simpl in *;
    try (apply wpx_ret, wpx_ret, Hempty; by (destruct Ho || done)).
  - (* Top *) subst r. apply wpx_bind. unfold syscall, wpx at 1. apply wpx_modify, wpx_ret.
    destruct Hw as [Hwi Hg Hi Hnd Hmp Hck Hsent]. simpl in *. apply NoDup_cons in Hnd as [Hnm Hnd].
    split; [|done|done|by split]. split; simpl; [by destruct Hwi|done|done|done| |done|done].
    intros m Hin. destruct (Hmp m) as (sl & Hsl & Hlen); [by right|]. exists sl. split; [|done].
    rewrite lookup_delete_ne; [done|]. intros Heq. apply Hnm. by rewrite Heq.
  - (* Latency *) destruct Ho as (Hes & Hm & _). rewrite (owned_packets r Hm) in *. apply wpx_ret. by apply drop_step.
  - (* Jitter *) destruct Ho as (Hes & Hm). rewrite (owned_packets r Hm) in *. apply wpx_ret. by apply drop_step.
  - (* RawSocket *) subst r. apply wpx_bind. unfold syscall, wpx at 1. apply wpx_ret, wpx_ret.
    rewrite res_app_empty_l in *. by apply callback_calls.
Qed.

(** *** The instance *)

Definition owned_app (c : AnyConf) (t : AnyApp) (r : res) : Prop := implements c t ∧ owns_any t r.

Lemma boxed {A} (m : ST World A) (box : A → AnyApp) w t w' : (a ← m; mret (box a)) w = Ok (t, w') → ∃ a, t = box a.
Proof. unfold mbind, st_bind. destruct (m w) as [[a w1]| | |]; try done. intros [= <- _]. by exists a. Qed.

Lemma new_app_implements c w t w' : new_app c w = Ok (t, w') → implements c t.
Proof. destruct c; simpl; try (by intros [= <- _]); by intros [a ->]%boxed. Qed.

Lemma new_app_law c Q R w :
  conf_any c → rinv P Q R w →
  wpx E (new_app c) (λ t w', ∃ r, owned_app c t r ∧ callback_post P Q R w Q (r ⊎ R) w') w.
Proof.
  intros Hc Hw. pose proof (new_step c Q R w Hc Hw) as Hn. pose proof (new_app_implements c w) as Hi.
  unfold wpx in *. destruct (new_app c w) as [[t w']| | |]; try done.
  destruct Hn as (r & Ho & Hp). exists r. split; [|done]. split; [by eapply Hi|done].
Qed.

Lemma step_kept {A} (m : ST World A) (box : A → AnyApp) c t r Q R w :
  (∀ a, same_kind t (box a)) →
  wpx E m (λ a w', implements c (box a) ∧ step_post Q r R w (box a) w') w →
  wpx E (a ← m; mret (box a)) (λ t' w', ∃ r' Q', owned_app c t' r' ∧ same_kind t t' ∧
    callback_post P Q (r ⊎ R) w Q' (r' ⊎ R) w') w.
Proof.
  intros Hk Hm. apply wpx_bind. eapply wpx_mono; [exact Hm|]. intros a w' (Hi & r' & Q' & Ho & Hpost).
  apply wpx_ret. exists r', Q'. by split_and!.
Qed.

Lemma step_boxed {A} (m : ST World A) (box : A → AnyApp) c t r Q R w :
  (∀ a, same_kind t (box a)) → (∀ a, implements c (box a)) →
  wpx E m (λ a w', step_post Q r R w (box a) w') w →
  wpx E (a ← m; mret (box a)) (λ t' w', ∃ r' Q', owned_app c t' r' ∧ same_kind t t' ∧
    callback_post P Q (r ⊎ R) w Q' (r' ⊎ R) w') w.
Proof. intros Hk Hi Hm. apply step_kept; [done|]. eapply wpx_mono; [exact Hm|]. by split. Qed.

Lemma pull_step c t r ports Q R w :
  has_pull t = true → owned_app c t r → rinv P Q (r ⊎ R) w → ports_ok ports Q →
  fits_any c (inputs ports) (outputs ports) → timed w →
  wpx E (pull t ports) (λ t' w', ∃ r' Q', owned_app c t' r' ∧ same_kind t t' ∧
    callback_post P Q (r ⊎ R) w Q' (r' ⊎ R) w') w.
Proof.
  intros Hk [Hi Ho] Hw Hp Hfit Ht. destruct t as [t|t|t|t|t|t|t|t|t|t|t|t|t]; try discriminate Hk; destruct c; try done; apply step_boxed; try done.
  - destruct Ho as (-> & Hs & Hbl). rewrite res_app_empty_l in Hw. by apply source_step.
  - by apply latency_pull_law.
  - by apply jitter_pull_law.
  - simpl in Ho. subst r. rewrite res_app_empty_l in Hw. by apply raw_pull_step.
Qed.

Lemma push_step c t r ports Q R w :
  has_push t = true → owned_app c t r → rinv P Q (r ⊎ R) w → ports_ok ports Q →
  fits_any c (inputs ports) (outputs ports) → timed w →
  wpx E (push t ports) (λ t' w', ∃ r' Q', owned_app c t' r' ∧ same_kind t t' ∧
    callback_post P Q (r ⊎ R) w Q' (r' ⊎ R) w') w.
Proof.
  intros Hk [Hi Ho] Hw Hp Hfit Ht. destruct t as [t|t|t|t|t|t|t|t|t|t|t|t|t]; try discriminate Hk; destruct c as [| | | | |c|c|c|c|c|c|c|c]; try done;
    simpl in Ho; try (lazymatch type of Ho with
      | r = ∅ ∧ _ => destruct Ho as [-> Ho]
      | r = ∅ => subst r
      end; rewrite res_app_empty_l in Hw).
  - apply step_boxed; [done..|]. by apply sink_step.
  - apply step_boxed; [done..|]. by apply join_step.
  - apply step_boxed; [done..|]. by apply tee_step.
  - apply step_boxed; [done..|]. by apply checksum_step.
  - apply step_boxed; [done..|]. by apply tsd_step.
  - apply step_kept; [done|]. destruct c as [fs]. simpl in Hi. subst fs.
    eapply wpx_mono; [by apply split_step|]. intros t' w' [-> Hpost]. done.
  - subst r. apply step_boxed; [done..|]. by apply top_step.
  - apply step_boxed; [done..|]. by apply rate_step.
  - apply step_boxed; [done..|]. by apply loss_step.
  - apply step_boxed; [done..|]. by apply latency_push_law.
  - apply step_boxed; [done..|]. by apply jitter_push_law.
  - apply step_boxed; [done..|]. by apply raw_push_step.
Qed.

#[export] Instance AnyApp_laws `{Debug AnyConf} : AppLaws P E AnyConf AnyApp := {|
  owns := owned_app;
  conf_ok := conf_any;
  fits := fits_any;
  new_law := new_app_law;
  finish_law c t r Q R w Ho := finish_step t r Q R w (proj2 Ho);
  pull_law := pull_step;
  push_law := push_step
|}.
End laws.
End apps.
