(* ===== verification/Report.v ===== *)
(** * engine.rs: reports

    What report_load, report_links and report_apps print.  A line of output is
    modelled by the values in it; their text is in ReportText. *)

From Stdlib Require Import Floats.SpecFloat.
From stdpp Require Import sorting.
From S2P Require Import Prelude Lib Packet App Engine BreatheOrder.
From S2P Require Link Qos DelayQueue.
#[local] Open Scope Z_scope.

(** ** f64 *)

Abbreviation f64 := Qos.f64.
Definition f64_div (x y : f64) : f64 := SFdiv 53 1024 x y.
Definition f64_add (x y : f64) : f64 := SFadd 53 1024 x y.

(** Duration::as_secs_f64, of nanoseconds. *)
Definition as_secs_f64 (d : Z) : f64 :=
  f64_add (Qos.f64_of_Z (d / 1000000000)) (f64_div (Qos.f64_of_Z (d mod 1000000000)) (Qos.f64_of_Z 1000000000)).

(** ** report_load *)

Record LoadReport : Type := mkLoadReport {
  time : f64;
  fps : string;
  fpGbps : f64;
  fpb : string;
  bpp : string;
  sleep : Z
}.

Definition quotient (x y : Z) : Z := if y >? 0 then x / y else 0.

(** The statistics since the last report: u64 subtraction. *)
Definition since (stats : EngineStats) (r : Reported) : EngineStats :=
  mkEngineStats (u64 (breaths stats - REPORTEDBREATHS r)) (u64 (frees stats - REPORTEDFREES r))
    (u64 (freebits stats - REPORTEDFREEBITS r)) (u64 (freebytes stats - REPORTEDFREEBYTES r)).

Definition load_numbers (news : EngineStats) (interval : f64) (sleep : Z) : LoadReport :=
  mkLoadReport interval
    (comma_value (DelayQueue.f64_as_u64 (f64_div (Qos.f64_of_Z (frees news)) interval)))
    (f64_div (f64_div (Qos.f64_of_Z (freebits news)) interval) (Qos.f64_of_Z 1000000000))
    (comma_value (quotient (frees news) (breaths news)))
    (comma_value (quotient (freebytes news) (frees news)))
    sleep.

Section report.
Context `{HashOrder} {C T : Type} `{App T} `{AppConfig C T}.
Abbreviation EngineState := (EngineState C T).
Implicit Types (s : EngineState).

(** now().duration_since(last): zero when it is earlier. *)
Definition report_load : ST EngineState (option LoadReport) :=
  s ← get;
  let stats := STATS (mem (world s)) in
  report ← match LASTLOADREPORT (reported s) with
    | Some lastloadreport =>
        t ← in_world now;
        let interval := as_secs_f64 (Z.max 0 (t - lastloadreport)) in
        mret (Some (load_numbers (since stats (reported s)) interval (SLEEP s)))
    | None => mret None
    end;
  t ← in_world now;
  modify (set_reported (mkReported (Some t) (frees stats) (freebits stats) (freebytes stats) (breaths stats)));;
  mret report.

(** ** report_links *)

Definition loss_rate (drop sent : Z) : outcome Z :=
  if sent =? 0 then Ok 0
  else if u64 (drop + sent) =? 0 then Panic "attempt to divide by zero"
  else Ok (u64 (drop * 100) / u64 (drop + sent)).

Record LinkReport : Type := mkLinkReport { sent_on : string; sent : string; rate : Z }.

(** state().link_table.get(name).unwrap().borrow() *)
Definition borrow_link (name : string) : ST EngineState Link.Link :=
  s ← get;
  l ← lift (unwrap "called `Option::unwrap()` on a `None` value" (link_table s !! name));
  if decide (l ∈ borrowed (world s)) then panic "already mutably borrowed: BorrowError" else in_world (link_at l).

Fixpoint report_each (names : list string) : ST EngineState (list LinkReport) :=
  match names with
  | [] => mret []
  | name :: names =>
      link ← borrow_link name;
      rate ← lift (loss_rate (Link.txdrop link) (Link.txpackets link));
      lines ← report_each names;
      mret (mkLinkReport name (comma_value (Link.txpackets link)) rate :: lines)
  end.

Definition report_links : ST EngineState (list LinkReport) :=
  s ← get;
  report_each (sort (keys (link_table s))).

(** ** report_apps: no app of the program has a report of its own *)

Definition report_apps : ST EngineState (list (string * nat * nat)) :=
  s ← get;
  mret ((λ na, (na.1, size (input (ports na.2)), size (output (ports na.2)))) <$> order (app_table s)).
End report.

(** ** What is printed *)

(** The percentage of packets dropped, rounded down. *)
Definition percent (rate drop sent : Z) : Prop :=
  0 ≤ rate ≤ 100 ∧ (sent ≠ 0 → rate * (drop + sent) ≤ 100 * drop < (rate + 1) * (drop + sent)).

(** Counters that do not wrap around. *)
Definition countable (n : Z) : Prop := 0 ≤ n < 2 ^ 57.

Lemma loss_rate_ok drop sent :
  countable drop → countable sent → ∃ r, loss_rate drop sent = Ok r ∧ percent r drop sent.
Proof.
  unfold countable, percent. intros Hd Hs. change (2 ^ 57) with 144115188075855872 in *. unfold loss_rate.
  destruct (Z.eqb_spec sent 0) as [->|Hne]; [by exists 0|].
  rewrite !u64_id by (unfold is_u64; lia).
  destruct (Z.eqb_spec (drop + sent) 0) as [|_]; [lia|].
  pose proof (Z.div_mod (drop * 100) (drop + sent)) as Hdm.
  pose proof (Z.mod_pos_bound (drop * 100) (drop + sent)) as Hm.
  set (r := drop * 100 / (drop + sent)) in *. exists r. split; [done|].
  assert (0 ≤ r) by (apply Z.div_pos; lia).
  split; [|intros _; nia]. split; [lia|]. nia.
Qed.

Section links.
Context `{HashOrder} {C T : Type}.
Implicit Types (s : EngineState C T).

(** A link that can be reported. *)
Definition reportable s (name : string) : Prop := ∃ l r,
  link_table s !! name = Some l ∧ (l ∉ borrowed (world s)) ∧ links (world s) !! l = Some r ∧
  countable (Link.txdrop r) ∧ countable (Link.txpackets r).

Definition reports_link s (line : LinkReport) : Prop := ∃ l r,
  link_table s !! sent_on line = Some l ∧ links (world s) !! l = Some r ∧
  sent line = comma_value (Link.txpackets r) ∧ percent (rate line) (Link.txdrop r) (Link.txpackets r).

Lemma report_each_ok s names :
  Forall (reportable s) names →
  ∃ lines, report_each names s = Ok (lines, s) ∧ sent_on <$> lines = names ∧ Forall (reports_link s) lines.
Proof.
  induction 1 as [|name names (l & r & Hl & Hb & Hr & Hd & Hs) _ (lines & IH & Hn & Hf)].
  { by exists []. }
  destruct (loss_rate_ok _ _ Hd Hs) as (pct & Hp & Hpct).
  exists (mkLinkReport name (comma_value (Link.txpackets r)) pct :: lines). split_and!.
  - cbn [report_each]. unfold borrow_link, mbind, st_bind, get, lift. rewrite Hl. simpl.
    rewrite decide_False by done. unfold in_world, link_at. rewrite Hr.
    replace (set_world (world s) s) with s by (by destruct s). rewrite Hp, IH. done.
  - change (name :: (sent_on <$> lines) = name :: names). by rewrite Hn.
  - constructor; [|done]. by exists l, r.
Qed.

(** C38. report_links prints one line for every link of the engine, sorted by
    name, with the number of packets sent on it and the percentage that was
    dropped, rounded down and at most 100, and leaves the engine as it was; it
    does not panic while no link is borrowed and the counters are below 2^57. *)
Theorem report_links_percent s :
  (∀ name, name ∈ dom (link_table s) → reportable s name) →
  ∃ lines, report_links s = Ok (lines, s) ∧ Forall (reports_link s) lines ∧
    (sent_on <$> lines) ≡ₚ elements (dom (link_table s)) ∧ Sorted String.le (sent_on <$> lines).
Proof.
  intros Hall. assert (sort (keys (link_table s)) ≡ₚ elements (dom (link_table s))) as Hperm.
  { unfold sort. rewrite merge_sort_Permutation. apply NoDup_Permutation.
    - unfold keys. rewrite order_perm. apply NoDup_fst_map_to_list.
    - apply NoDup_elements.
    - intros name. by rewrite elem_of_keys, elem_of_elements. }
  destruct (report_each_ok s (sort (keys (link_table s)))) as (lines & Hr & Hn & Hf).
  { apply Forall_forall. intros name Hin. apply Hall. rewrite Hperm in Hin. by apply elem_of_elements. }
  exists lines. rewrite Hn. split_and!; [exact Hr|done|done|]. apply Sorted_merge_sort, _.
Qed.
End links.
