(* ===== verification/ReportText.v ===== *)
(** * engine.rs: the text of reports

    What the values of Report look like when they are printed: the decimals of
    an f64 ([{:.2}]) are those of the number with two digits that is nearest to
    it, and of two that are as near the even one. *)

From Stdlib Require Import Floats.SpecFloat.
From stdpp Require Import pretty.
From S2P Require Import Prelude Lib Packet App Engine Report.
From S2P Require Qos.
#[local] Open Scope Z_scope.

(** ** Fixed numbers of decimals *)

(** [a / b], rounded to the nearest. *)
Definition round_half_even (a b : Z) : Z :=
  let q := a / b in
  match (2 * (a mod b) ?= b) with
  | Lt => q
  | Eq => if Z.even q then q else q + 1
  | Gt => q + 1
  end.

(** [m * 2 ^ e] in units of [10 ^ -d]. *)
Definition units (d : nat) (m : positive) (e : Z) : Z :=
  let scaled := Zpos m * 10 ^ Z.of_nat d in
  if 0 <=? e then scaled * 2 ^ e else round_half_even scaled (2 ^ (- e)).

Definition digit_char (x : Z) : ascii := ascii_of_nat (Z.to_nat (48 + x)).

(** The last [d] digits. *)
Fixpoint last_digits (d : nat) (n : Z) : chars :=
  match d with
  | O => []
  | S d => digit_char (n / 10 ^ Z.of_nat d mod 10) :: last_digits d n
  end.

Definition decimal (n : Z) : string := pretty (Z.to_N n).

Definition sign (s : bool) : string := if s then "-" else "".

Definition fixed (d : nat) (n : Z) : string :=
  decimal (n / 10 ^ Z.of_nat d) +:+ "." +:+ String.string_of_list_ascii (last_digits d n).

(** [{:.d}], of at least one decimal. *)
Definition format_fixed (d : nat) (x : f64) : string :=
  match x with
  | S754_nan => "NaN"
  | S754_infinity s => sign s +:+ "inf"
  | S754_zero s => sign s +:+ fixed d 0
  | S754_finite s m e => sign s +:+ fixed d (units d m e)
  end.

Example two_decimals :
  format_fixed 2 (f64_div (Qos.f64_of_Z 1) (Qos.f64_of_Z 8)) = "0.12" ∧
  format_fixed 2 (f64_div (Qos.f64_of_Z 3) (Qos.f64_of_Z 8)) = "0.38" ∧
  format_fixed 2 (f64_div (Qos.f64_of_Z 1999) (Qos.f64_of_Z 1000)) = "2.00" ∧
  format_fixed 3 (f64_div (Qos.f64_of_Z (-10001)) (Qos.f64_of_Z 10000)) = "-1.000".
Proof. vm_compute. done. Qed.

(** *** Correctness *)

Lemma round_half_even_close a b : 0 < b → Z.abs (2 * (round_half_even a b * b - a)) ≤ b.
Proof.
  intros Hb. unfold round_half_even. pose proof (Z.div_mod a b) as Hd. pose proof (Z.mod_pos_bound a b Hb) as Hm.
  destruct (Z.compare_spec (2 * (a mod b)) b); [destruct (Z.even _)|..]; nia.
Qed.

(** The digits that a text spells, most significant first. *)
Definition spells (cs : chars) (n : Z) : Prop :=
  foldl (λ v c, 10 * v + (Z.of_nat (nat_of_ascii c) - 48)) 0 cs = n ∧ forallb is_digit cs = true.

Lemma digit_char_value x : 0 ≤ x < 10 → Z.of_nat (nat_of_ascii (digit_char x)) = 48 + x.
Proof. intros Hx. unfold digit_char. rewrite nat_ascii_embedding by lia. lia. Qed.

Lemma last_digits_spell d n : 0 ≤ n → spells (last_digits d n) (n mod 10 ^ Z.of_nat d).
Proof.
  intros Hn. unfold spells. split.
  - assert (∀ v, foldl (λ v c, 10 * v + (Z.of_nat (nat_of_ascii c) - 48)) v (last_digits d n) =
      10 ^ Z.of_nat d * v + n mod 10 ^ Z.of_nat d) as Hgo; [|by rewrite Hgo, Z.mul_0_r].
    induction d as [|d IH]; intros v; cbn [last_digits foldl]; [by rewrite Z.mod_1_r; lia|].
    rewrite IH. pose proof (Z.mod_pos_bound (n / 10 ^ Z.of_nat d) 10). rewrite digit_char_value by lia.
    rewrite Nat2Z.inj_succ, Z.pow_succ_r by lia.
    pose proof (Z.pow_pos_nonneg 10 (Z.of_nat d)) as Hp.
    replace (n mod (10 * 10 ^ Z.of_nat d)) with (n mod (10 ^ Z.of_nat d * 10)) by (f_equal; lia).
    rewrite (Z.rem_mul_r n (10 ^ Z.of_nat d) 10) by lia. lia.
  - induction d as [|d IH]; cbn [last_digits forallb]; [done|]. rewrite IH, andb_true_r. unfold is_digit.
    pose proof (Z.mod_pos_bound (n / 10 ^ Z.of_nat d) 10) as Hm. pose proof (digit_char_value (n / 10 ^ Z.of_nat d mod 10)) as Hv.
    apply andb_true_intro. split; apply Nat.leb_le; lia.
Qed.

Lemma units_nonneg d m e : 0 ≤ units d m e.
Proof.
  unfold units. pose proof (Z.pow_nonneg 10 (Z.of_nat d)). destruct (Z.leb_spec 0 e).
  - pose proof (Z.pow_nonneg 2 e). nia.
  - pose proof (Z.pow_pos_nonneg 2 (- e)). unfold round_half_even.
    assert (0 ≤ Zpos m * 10 ^ Z.of_nat d / 2 ^ (- e)) by (apply Z.div_pos; lia).
    by repeat case_match; lia.
Qed.

(** The text of a finite number: a sign, the whole part and [d] digits, of a
    number of units that is within half a unit of the exact value. *)
Theorem format_fixed_rounds d s m e :
  ∃ n frac, format_fixed d (S754_finite s m e) =
      sign s +:+ decimal (n / 10 ^ Z.of_nat d) +:+ "." +:+ String.string_of_list_ascii frac ∧
    length frac = d ∧ spells frac (n mod 10 ^ Z.of_nat d) ∧
    (if 0 <=? e then n = Zpos m * 2 ^ e * 10 ^ Z.of_nat d
     else Z.abs (2 * (n * 2 ^ (- e) - Zpos m * 10 ^ Z.of_nat d)) ≤ 2 ^ (- e)).
Proof.
  exists (units d m e), (last_digits d (units d m e)). split_and!.
  - done.
  - generalize (units d m e). intros n. induction d; simpl; congruence.
  - apply last_digits_spell, units_nonneg.
  - unfold units. destruct (Z.leb_spec 0 e); [lia|]. apply round_half_even_close. apply Z.pow_pos_nonneg; lia.
Qed.

(** ** The lines of reports *)

(** println! of report_load *)
Definition load_text (r : LoadReport) : string :=
  "load: time: " +:+ format_fixed 2 (time r) +:+ " fps: " +:+ fps r +:+ " fpGbps: " +:+ format_fixed 3 (fpGbps r) +:+
  " fpb: " +:+ fpb r +:+ " bpp: " +:+ bpp r +:+ " sleep: " +:+ decimal (sleep r).

(** println! of report_links *)
Definition link_text (l : LinkReport) : string :=
  "  " +:+ sent l +:+ " sent on " +:+ sent_on l +:+ " (loss rate: " +:+ decimal (rate l) +:+ "%)".

Definition links_text (ls : list LinkReport) : list string := "Link report:" :: (link_text <$> ls).

(** match app.input.len() and app.output.len() *)
Definition inputs_text (n : nat) : list string :=
  match n with
  | 0 => []
  | 1 => ["  receiving from one input link"]
  | n => ["  receiving from " +:+ decimal (Z.of_nat n) +:+ " input links"]
  end%nat.
Definition outputs_text (n : nat) : list string :=
  match n with
  | 0 => []
  | 1 => ["  transmitting to one output link"]
  | n => ["  transmitting to " +:+ decimal (Z.of_nat n) +:+ " output links"]
  end%nat.

(** The report of an app; no app of the program has one of its own. *)
Definition app_text (a : string * nat * nat) : list string :=
  let '(name, inputs, outputs) := a in
  ("App report for " +:+ name +:+ ":") :: inputs_text inputs ++ outputs_text outputs.

Definition apps_text (apps : list (string * nat * nat)) : list string := concat (app_text <$> apps).

Example load_line :
  load_text (load_numbers (mkEngineStats 100 25000 12000000 1500000) (as_secs_f64 1000200000) 4) =
    "load: time: 1.00 fps: 24,995 fpGbps: 0.012 fpb: 250 bpp: 60 sleep: 4".
Proof. vm_compute. reflexivity. Qed.

Example app_lines :
  apps_text [("source", 0, 1); ("split", 1, 3)]%nat =
    ["App report for source:"; "  transmitting to one output link";
     "App report for split:"; "  receiving from one input link"; "  transmitting to 3 output links"].
Proof. vm_compute. reflexivity. Qed.
