(* ===== verification/Configure.v ===== *)
(** * engine.rs: configure

    Starting, stopping and linking of apps.  Links are reference counted: a link
    is dropped, and its packets freed, when it is no longer referenced from the
    link table, from the ports of an app, or from a temporary clone of the link
    table ([held]). *)

From S2P Require Import Prelude Packet App Engine Interface BreatheOrder.
From S2P Require Link Config.
#[local] Open Scope Z_scope.

Section configure.
Context `{HashOrder} {C T : Type} `{App T} `{AppConfig C T}.
Abbreviation EngineState := (EngineState C T).
Abbreviation AppState := (AppState C T).

(** The links that a state refers to. *)
Definition port_refs (a : AppState) : list link_id :=
  (map_to_list (input (ports a))).*2 ++ (map_to_list (output (ports a))).*2.
Definition refs (s : EngineState) : list link_id :=
  (map_to_list (link_table s)).*2 ++ concat (port_refs <$> (map_to_list (app_table s)).*2).

(** Drop of the contents of an Rc. *)
Definition drop_link (l : link_id) : ST World () :=
  r ← link_at l;
  on_mem (Link.drop r);;
  modify (λ w, set_links (delete l (links w)) w).

(** Drop of an [Rc], and of the one that HashMap::insert and remove return. *)
Definition drop_rc (held : list link_id) (l : link_id) : ST EngineState () :=
  s ← get;
  if bool_decide (l ∈ refs s ++ held) then mret tt else in_world (drop_link l).
Definition drop_option (held : list link_id) (o : option link_id) : ST EngineState () :=
  match o with Some l => drop_rc held l | None => mret tt end.
Fixpoint drop_all (ls : list link_id) : ST EngineState () :=
  match ls with
  | [] => mret tt
  | l :: ls => drop_rc ls l;; drop_all ls
  end.

(** Allocate a fresh shared link. *)
Definition new_shared_link : ST EngineState link_id :=
  s ← get;
  let w := world s in
  let l := fresh (dom (links w)) in
  put (set_world (set_links (<[l := Link.new]> (links w)) w) s);;
  mret l.

Definition set_ports (p : Ports) (a : AppState) : AppState := mkAppState (app a) (conf a) p.
Definition set_output (m : gmap string link_id) (a : AppState) : AppState :=
  set_ports (mkPorts (input (ports a)) m) a.
Definition set_input (m : gmap string link_id) (a : AppState) : AppState :=
  set_ports (mkPorts m (output (ports a))) a.

(** Insert new app instance into network. *)
Definition start_app (name : string) (conf : C) : ST EngineState () :=
  app ← in_world (app_new conf);
  put_app name (mkAppState app conf (mkPorts ∅ ∅)).

(** Remove app instance from network; the removed AppState is dropped. *)
Definition stop_app (name : string) : ST EngineState () :=
  removed ← get_app name;
  modify (λ s, set_app_table (delete name (app_table s)) s);;
  in_world (finish (app removed));;
  drop_all (values (input (ports removed)) ++ values (output (ports removed))).

(** state.app_table.get_mut(name).unwrap().input/output.insert/remove(..): the
    ports of an app change, and the [old] link of the port is dropped. *)
Definition edit_app (held : list link_id) (name : string) (f : AppState → AppState)
    (old : AppState → option link_id) : ST EngineState () :=
  a ← get_app name; put_app name (f a);; drop_option held (old a).

Definition insert_output (port : string) (l : link_id) (a : AppState) : AppState :=
  set_output (<[port := l]> (output (ports a))) a.
Definition insert_input (port : string) (l : link_id) (a : AppState) : AppState :=
  set_input (<[port := l]> (input (ports a))) a.
Definition remove_output (port : string) (a : AppState) : AppState :=
  set_output (delete port (output (ports a))) a.
Definition remove_input (port : string) (a : AppState) : AppState :=
  set_input (delete port (input (ports a))) a.

(** state.link_table.entry(spec).or_insert_with(new_shared_link) *)
Definition link_entry (spec : string) : ST EngineState link_id :=
  s ← get;
  match link_table s !! spec with
  | Some l => mret l
  | None =>
      l ← new_shared_link;
      modify (λ s, set_link_table (<[spec := l]> (link_table s)) s);;
      mret l
  end.

(** Link two apps in the network. *)
Definition link_apps (spec : string) : ST EngineState () :=
  link ← link_entry spec;
  spec ← lift (Config.parse_link spec);
  let '(output_port, input_port) := (Config.link_output spec, Config.link_input spec) in
  edit_app [] (Config.from spec) (insert_output output_port link) (λ a, output (ports a) !! output_port);;
  edit_app [] (Config.to spec) (insert_input input_port link) (λ a, input (ports a) !! input_port).

(** Remove link between two apps. *)
Definition unlink_apps (held : list link_id) (spec : string) : ST EngineState () :=
  s ← get;
  modify (λ s, set_link_table (delete spec (link_table s)) s);;
  drop_option held (link_table s !! spec);;
  spec ← lift (Config.parse_link spec);
  let '(output_port, input_port) := (Config.link_output spec, Config.link_input spec) in
  edit_app held (Config.from spec) (remove_output output_port) (λ a, output (ports a) !! output_port);;
  edit_app held (Config.to spec) (remove_input input_port) (λ a, input (ports a) !! input_port).

(** The clone of the link table lives as long as the first loop. *)
Definition remove_links (config : Config.Config C) : ST EngineState () :=
  s ← get;
  let clone := values (link_table s) in
  for_st (keys (link_table s)) (λ link,
    if decide (link ∈ Config.links config) then mret tt else unlink_apps clone link);;
  drop_all clone.

Definition stop_apps (config : Config.Config C) : ST EngineState () :=
  s ← get;
  for_st (keys (app_table s)) (λ name,
    old ← get_app name;
    match Config.apps config !! name with
    | Some new => if negb (equal (conf old) new) then stop_app name else mret tt
    | None => stop_app name
    end).

Definition start_apps (config : Config.Config C) : ST EngineState () :=
  for_st (order (Config.apps config)) (λ '(name, conf),
    s ← get;
    match app_table s !! name with
    | None => start_app name conf
    | Some _ => mret tt
    end).

Definition configure (config : Config.Config C) : ST EngineState () :=
  remove_links config;;
  stop_apps config;;
  start_apps config;;
  for_st (set_order (Config.links config)) link_apps;;
  compute_breathe_order.
End configure.

(** ** Reference counts *)

Section links.
Context (P : Packet → Prop) (E : string → Prop).

Lemma drop_link_rule Q R w l q :
  rinv P Q R w → Q !! l = Some q →
  wpx E (drop_link l) (λ _ w', rinv P (delete l Q) R w') w.
Proof.
  intros [Hw Hg Hb Hnd Hm Hck Hsent] Hq. pose proof Hw as [Hls Hmem]. destruct (Hls _ _ Hq) as (r & Hr & Hrep).
  unfold drop_link, link_at. apply wpx_bind. unfold wpx at 1. rewrite Hr. apply wpx_bind, wpx_on_mem.
  rewrite (on_links_lookup _ _ _ Hq), <-app_assoc in Hmem.
  pose proof (Mem_Inv _ _ Hmem) as Hinv. rewrite fmap_app in Hinv.
  eapply wp_conseq.
  { unfold Link.drop. eapply (Link.drop_loop_wp _ r q.*1 q.*2 (on_links (delete l Q) ++ r_packets R).*1);
      [done|done| |pose proof (Link.lr_length _ _ Hrep); rewrite length_fmap in *; lia].
    destruct Hmem as [_ Hf]. apply Forall_app in Hf as [Hf _]. clear -Hf.
    induction Hf as [|[p pk] q Hp _ IH]; constructor; [done|exact IH]. }
  intros r' s' (_ & Hinv' & Hk & _). wp_step. split; simpl.
  - split; simpl.
    + intros l' q' Hl'. destruct (decide (l' = l)) as [->|Hne]; [by rewrite lookup_delete_eq in Hl'|].
      rewrite lookup_delete_ne in Hl' by done. rewrite lookup_delete_ne by done. by apply Hls.
    + split; [done|]. eapply keeps_Forall; [exact Hk|done|]. destruct Hmem as [_ Hf]. by apply Forall_app in Hf as [_ ?].
  - rewrite (on_links_lookup _ _ _ Hq), <-app_assoc in Hg. by apply Forall_app in Hg as [_ ?].
  - done.
  - done.
  - done.
  - done.
  - done.
Qed.
End links.

(** ** References *)

Definition val {A} (m : gmap string A) (x : A) : Prop := ∃ k, m !! k = Some x.

Lemma elem_of_values {A} (m : gmap string A) x : x ∈ (map_to_list m).*2 ↔ val m x.
Proof.
  rewrite list_elem_of_fmap. split.
  - intros ([k y] & -> & Hin). exists k. by apply elem_of_map_to_list in Hin.
  - intros [k Hk]. exists (k, x). split; [done|]. by apply elem_of_map_to_list.
Qed.

Lemma val_delete {A} (m : gmap string A) k x : val m x ↔ val (delete k m) x ∨ m !! k = Some x.
Proof.
  split.
  - intros [k' Hk']. destruct (decide (k' = k)) as [->|Hne]; [by right|left].
    exists k'. by rewrite lookup_delete_ne.
  - intros [[k' Hk']|Hk]; [|by exists k]. apply lookup_delete_Some in Hk' as [_ Hk']. by exists k'.
Qed.

Lemma val_insert {A} (m : gmap string A) k y x : val m x ∨ x = y ↔ val (<[k:=y]> m) x ∨ m !! k = Some x.
Proof.
  split.
  - intros [[k' Hk']| ->]; [|left; exists k; apply lookup_insert_eq].
    destruct (decide (k' = k)) as [->|Hne]; [by right|left]. exists k'. by rewrite lookup_insert_ne.
  - intros [[k' Hk']|Hk]; [|left; by exists k].
    apply lookup_insert_Some in Hk' as [[_ <-]|[_ Hk']]; [by right|left; by exists k'].
Qed.

Lemma elem_of_concat {A} (x : A) ls : x ∈ concat ls ↔ ∃ l, l ∈ ls ∧ x ∈ l.
Proof. rewrite list_elem_of_In, in_concat. by setoid_rewrite list_elem_of_In. Qed.

Section refs.
Context {C T : Type}.
Implicit Types (s : EngineState C T) (a : AppState C T).

Lemma elem_of_port_refs a l : l ∈ port_refs a ↔ val (input (ports a)) l ∨ val (output (ports a)) l.
Proof. unfold port_refs. by rewrite elem_of_app, !elem_of_values. Qed.

(** Apps other than [n] refer to [l]. *)
Definition others (m : gmap string (AppState C T)) (n : string) (l : link_id) : Prop :=
  ∃ n' a, n' ≠ n ∧ m !! n' = Some a ∧ l ∈ port_refs a.

Lemma elem_of_refs s l :
  l ∈ refs s ↔ val (link_table s) l ∨ ∃ n a, app_table s !! n = Some a ∧ l ∈ port_refs a.
Proof.
  unfold refs. rewrite elem_of_app, elem_of_values, elem_of_concat. f_equiv. split.
  - intros (ls & (a & -> & Ha)%list_elem_of_fmap & Hl). apply elem_of_values in Ha as [n Hn]. by exists n, a.
  - intros (n & a & Hn & Hl). exists (port_refs a). split; [|done].
    apply list_elem_of_fmap. exists a. split; [done|]. apply elem_of_values. by exists n.
Qed.

Lemma elem_of_refs_app s n a l : app_table s !! n = Some a →
  l ∈ refs s ↔ val (link_table s) l ∨ l ∈ port_refs a ∨ others (app_table s) n l.
Proof.
  intros Hn. rewrite elem_of_refs. f_equiv. split.
  - intros (n' & a' & Hn' & Hl). destruct (decide (n' = n)) as [->|Hne]; [left; by simplify_eq|right].
    by exists n', a'.
  - intros [Hl|(n' & a' & _ & Hn' & Hl)]; [by exists n, a|by exists n', a'].
Qed.

Lemma others_insert m n a l : others (<[n:=a]> m) n l ↔ others m n l.
Proof.
  unfold others. split; intros (n' & a' & Hne & Hn' & Hl); exists n', a'; (split; [done|]);
    rewrite lookup_insert_ne in *; done.
Qed.

Lemma others_delete m n l : others (delete n m) n l ↔ others m n l.
Proof.
  unfold others. split; intros (n' & a' & Hne & Hn' & Hl); exists n', a'; (split; [done|]);
    rewrite lookup_delete_ne in *; done.
Qed.

Lemma elem_of_refs_delete s n a l : app_table s !! n = Some a →
  l ∈ refs s ↔ l ∈ refs (set_app_table (delete n (app_table s)) s) ∨ l ∈ port_refs a.
Proof.
  intros Hn. rewrite (elem_of_refs_app s n a) by done. rewrite elem_of_refs. simpl.
  assert ((∃ n' a', delete n (app_table s) !! n' = Some a' ∧ l ∈ port_refs a') ↔ others (app_table s) n l) as ->; [|tauto].
  rewrite <-others_delete. split; [|intros (n' & a' & _ & ? & ?); by exists n', a'].
  intros (n' & a' & Hn' & Hl). exists n', a'. split; [|done]. intros ->. by rewrite lookup_delete_eq in Hn'.
Qed.

Lemma elem_of_refs_put s n a a' l : app_table s !! n = Some a →
  l ∈ refs (set_app_table (<[n:=a']> (app_table s)) s) ↔
  val (link_table s) l ∨ l ∈ port_refs a' ∨ others (app_table s) n l.
Proof.
  intros Hn. rewrite (elem_of_refs_app _ n a') by apply lookup_insert_eq. simpl. by rewrite others_insert.
Qed.

Lemma elem_of_option {A} (o : option A) x : x ∈ option_list o ↔ o = Some x.
Proof. destruct o; simpl; [rewrite list_elem_of_singleton; naive_solver|]. split; [by intros ?%not_elem_of_nil|done]. Qed.
End refs.

(** ** The invariant of the engine *)

Section engine.
Context `{HashOrder} {C T : Type} `{App T} `{AppConfig C T} (P : Packet → Prop) (E : string → Prop).
Context `{!AppLaws P E C T}.
Abbreviation EngineState := (EngineState C T).
Abbreviation AppState := (AppState C T).
Implicit Types (s : EngineState) (held : list link_id) (R : gmap string res).

(** The resources [R] of the apps, by name. *)
Definition owned_by (m : gmap string AppState) R : Prop :=
  dom m = dom R ∧ ∀ n a r, m !! n = Some a → R !! n = Some r → owns (conf a) (app a) r.

(** Packets are on links, which are referenced, or belong to apps. *)
Record einv held s (Q : queues) R : Prop := {
  ei_world : rinv P Q (total R) (world s);
  ei_apps : owned_by (app_table s) R;
  ei_refs : ∀ l, is_Some (Q !! l) ↔ l ∈ refs s ∨ l ∈ held;
}.

(** The rest of a state is as in [s]. *)
Definition in_tables s (Φ : World → Prop) (s' : EngineState) : Prop := ∃ w', s' = set_world w' s ∧ Φ w'.

Lemma einv_tables held held' s s' Q R :
  einv held s Q R → world s' = world s → owned_by (app_table s') R →
  (∀ l, l ∈ refs s ∨ l ∈ held ↔ l ∈ refs s' ∨ l ∈ held') → einv held' s' Q R.
Proof. intros [Hw _ Hr] He Ha Hl. split; [by rewrite He|done|]. intros l. by rewrite Hr, Hl. Qed.

(** What dropping references leaves of a state. *)
Definition dropped held (Q : queues) R s (s' : EngineState) : Prop :=
  ∃ w' Q', s' = set_world w' s ∧ einv held s' Q' R ∧ Q' ⊆ Q.

Lemma dropped_same held Q R s : einv held s Q R → dropped held Q R s s.
Proof. intros He. exists (world s), Q. by destruct s. Qed.

Lemma drop_rc_wp held s Q R l :
  einv (l :: held) s Q R → wpx E (drop_rc held l) (λ _, dropped held Q R s) s.
Proof.
  intros He. unfold drop_rc. apply wpx_bind, wpx_get. case_bool_decide as Hl.
  - apply wpx_ret, dropped_same. eapply einv_tables; [done|done|apply He|]. set_solver.
  - destruct He as [Hw Ha Hr]. destruct (proj2 (Hr l)) as [q Hq]; [right; left|].
    apply wpx_in_world. eapply wpx_mono; [by eapply drop_link_rule|]. intros ? w' Hw'.
    exists w', (delete l Q). split_and!; [done| |apply delete_subseteq].
    split; [done|done|]. intros l'. destruct (decide (l' = l)) as [->|Hne].
    + rewrite lookup_delete_eq. split; [by intros []|]. rewrite elem_of_app in Hl. tauto.
    + rewrite lookup_delete_ne by done. rewrite Hr. set_solver.
Qed.

Lemma drop_option_wp held s Q R o :
  einv (option_list o ++ held) s Q R → wpx E (drop_option held o) (λ _, dropped held Q R s) s.
Proof.
  intros He. destruct o as [l|]; simpl; [by apply drop_rc_wp|]. by apply wpx_ret, dropped_same.
Qed.

Lemma drop_all_wp ls s Q R :
  einv ls s Q R → wpx E (drop_all ls) (λ _, dropped [] Q R s) s.
Proof.
  revert s Q. induction ls as [|l ls IH]; intros s Q He; simpl; [by apply wpx_ret, dropped_same|].
  apply wpx_bind. eapply wpx_mono; [by apply drop_rc_wp|]. intros _ s1 (w1 & Q1 & -> & He1 & Hs1).
  eapply wpx_mono; [by eapply IH|]. intros _ s2 (w2 & Q2 & -> & He2 & Hs2).
  exists w2, Q2. split_and!; [by destruct s|done|by etrans].
Qed.

(** *** Changes of the tables *)

Lemma owned_by_put m R n a a' :
  owned_by m R → m !! n = Some a → app a' = app a → conf a' = conf a → owned_by (<[n:=a']> m) R.
Proof.
  intros [Hd Ho] Hn Ha Hc. split.
  - rewrite dom_insert_L, <-Hd. apply elem_of_dom_2 in Hn. set_solver.
  - intros n' b r Hb Hr. apply lookup_insert_Some in Hb as [[<- <-]|[_ Hb]]; [rewrite Ha, Hc|]; by eapply Ho.
Qed.

Lemma einv_delete_link held s Q R link :
  einv held s Q R →
  einv (option_list (link_table s !! link) ++ held) (set_link_table (delete link (link_table s)) s) Q R.
Proof.
  intros He. eapply einv_tables; [done|done|apply He|]. intros l.
  rewrite elem_of_app, elem_of_option, !elem_of_refs. simpl. rewrite (val_delete _ link). tauto.
Qed.

Lemma einv_delete_output held s Q R n a p :
  einv held s Q R → app_table s !! n = Some a →
  einv (option_list (output (ports a) !! p) ++ held)
    (set_app_table (<[n:=set_output (delete p (output (ports a))) a]> (app_table s)) s) Q R.
Proof.
  intros He Hn. eapply einv_tables; [done|done|eapply owned_by_put; [apply He|done..]|]. intros l.
  rewrite elem_of_app, elem_of_option, (elem_of_refs_app s n a), (elem_of_refs_put s n a) by done.
  rewrite !elem_of_port_refs. simpl. rewrite (val_delete (output (ports a)) p). tauto.
Qed.

Lemma einv_delete_input held s Q R n a p :
  einv held s Q R → app_table s !! n = Some a →
  einv (option_list (input (ports a) !! p) ++ held)
    (set_app_table (<[n:=set_input (delete p (input (ports a))) a]> (app_table s)) s) Q R.
Proof.
  intros He Hn. eapply einv_tables; [done|done|eapply owned_by_put; [apply He|done..]|]. intros l.
  rewrite elem_of_app, elem_of_option, (elem_of_refs_app s n a), (elem_of_refs_put s n a) by done.
  rewrite !elem_of_port_refs. simpl. rewrite (val_delete (input (ports a)) p). tauto.
Qed.

Lemma einv_insert_output held s Q R n a p l0 :
  einv held s Q R → app_table s !! n = Some a → val (link_table s) l0 →
  einv (option_list (output (ports a) !! p) ++ held)
    (set_app_table (<[n:=set_output (<[p:=l0]> (output (ports a))) a]> (app_table s)) s) Q R.
Proof.
  intros He Hn Hl0. eapply einv_tables; [done|done|eapply owned_by_put; [apply He|done..]|]. intros l.
  rewrite elem_of_app, elem_of_option, (elem_of_refs_app s n a), (elem_of_refs_put s n a) by done.
  rewrite !elem_of_port_refs. simpl. pose proof (val_insert (output (ports a)) p l0 l).
  destruct (decide (l = l0)) as [->|]; tauto.
Qed.

Lemma einv_insert_input held s Q R n a p l0 :
  einv held s Q R → app_table s !! n = Some a → val (link_table s) l0 →
  einv (option_list (input (ports a) !! p) ++ held)
    (set_app_table (<[n:=set_input (<[p:=l0]> (input (ports a))) a]> (app_table s)) s) Q R.
Proof.
  intros He Hn Hl0. eapply einv_tables; [done|done|eapply owned_by_put; [apply He|done..]|]. intros l.
  rewrite elem_of_app, elem_of_option, (elem_of_refs_app s n a), (elem_of_refs_put s n a) by done.
  rewrite !elem_of_port_refs. simpl. pose proof (val_insert (input (ports a)) p l0 l).
  destruct (decide (l = l0)) as [->|]; tauto.
Qed.

(** *** The operations on the tables *)

Definition edited n (f : AppState → AppState) s : EngineState := set_app_table (alter f n (app_table s)) s.

(** The new tables are a function of the old ones. *)
Definition unlinked (link : string) (spec : Config.LinkSpec) s : EngineState :=
  edited (Config.to spec) (remove_input (Config.link_input spec))
    (edited (Config.from spec) (remove_output (Config.link_output spec))
      (set_link_table (delete link (link_table s)) s)).
Definition relinked (link : string) (l : link_id) (spec : Config.LinkSpec) s : EngineState :=
  edited (Config.to spec) (insert_input (Config.link_input spec) l)
    (edited (Config.from spec) (insert_output (Config.link_output spec) l)
      (set_link_table (<[link := l]> (link_table s)) s)).

Lemma edit_app_wp held s Q R n a f old :
  app_table s !! n = Some a →
  einv (option_list (old a) ++ held) (set_app_table (<[n:=f a]> (app_table s)) s) Q R →
  wpx E (edit_app held n f old) (λ _, dropped held Q R (edited n f s)) s.
Proof.
  intros Ha He. unfold edit_app, edited. apply wpx_bind. eapply get_app_wp; [exact Ha|].
  apply wpx_bind, wpx_modify. rewrite (alter_alt_Some f _ _ _ Ha). by apply drop_option_wp.
Qed.

(** Changes of the tables do not look at the world. *)
Definition of_tables (f : EngineState → EngineState) : Prop := ∀ w s, f (set_world w s) = set_world w (f s).

Lemma edited_of_tables n f : of_tables (edited n f).
Proof. by intros w s. Qed.

(** After some links were dropped, a change of the tables and more drops. *)
Lemma dropped_then held Q R s s1 (m : ST EngineState ()) (f : EngineState → EngineState) :
  dropped held Q R s s1 → of_tables f →
  (∀ Q' w', s1 = set_world w' s → einv held s1 Q' R → wpx E m (λ _, dropped held Q' R (f s1)) s1) →
  wpx E m (λ _, dropped held Q R (f s)) s1.
Proof.
  intros (w1 & Q1 & -> & He1 & Hs1) Hf Hm.
  eapply wpx_mono; [by apply (Hm Q1 w1)|]. intros _ s2 (w2 & Q2 & -> & He2 & Hs2).
  rewrite Hf in *. exists w2, Q2. split_and!; [by destruct (f s)|by destruct (f s)|by etrans].
Qed.

Lemma is_Some_alter {A} (f : A → A) (m : gmap string A) n n' : is_Some (m !! n') → is_Some (alter f n m !! n').
Proof. by rewrite lookup_alter_is_Some. Qed.

(** The two ports of a link are edited. *)
Lemma edit_ports_wp held Q R s n1 n2 f1 f2 old1 old2 :
  einv held s Q R → is_Some (app_table s !! n1) → is_Some (app_table s !! n2) →
  (∀ s' Q' a, link_table s' = link_table s → einv held s' Q' R → app_table s' !! n1 = Some a →
     einv (option_list (old1 a) ++ held) (set_app_table (<[n1:=f1 a]> (app_table s')) s') Q' R) →
  (∀ s' Q' a, link_table s' = link_table s → einv held s' Q' R → app_table s' !! n2 = Some a →
     einv (option_list (old2 a) ++ held) (set_app_table (<[n2:=f2 a]> (app_table s')) s') Q' R) →
  wpx E (edit_app held n1 f1 old1;; edit_app held n2 f2 old2)
    (λ _, dropped held Q R (edited n2 f2 (edited n1 f1 s))) s.
Proof.
  intros He [a Ha] Hn2 Hf1 Hf2. apply wpx_bind.
  eapply wpx_mono; [by apply (edit_app_wp held s Q R n1 a f1 old1), Hf1|]. intros ? s1 Hd.
  eapply dropped_then; [exact Hd|apply edited_of_tables|]. intros Q' w' -> He'.
  destruct (is_Some_alter f1 _ n1 n2 Hn2) as [b Hb]. eapply edit_app_wp; [exact Hb|]. by apply Hf2.
Qed.

Lemma unlink_apps_wp held s Q R link spec :
  einv held s Q R → Config.parse_link link = Ok spec →
  is_Some (app_table s !! Config.from spec) → is_Some (app_table s !! Config.to spec) →
  wpx E (unlink_apps held link) (λ _, dropped held Q R (unlinked link spec s)) s.
Proof.
  intros He Hp Ha Hb. unfold unlink_apps.
  apply wpx_bind, wpx_get, wpx_bind, wpx_modify, wpx_bind.
  eapply wpx_mono; [apply drop_option_wp; by apply einv_delete_link|]. intros ? s1 Hd.
  apply wpx_bind. eapply wpx_lift; [exact Hp|].
  eapply (dropped_then held Q R _ s1 _ (λ s, edited _ _ (edited _ _ s))); [exact Hd|by intros w s'|].
  intros Q' w' -> He'. apply edit_ports_wp; [done|done|done| |]; intros s' Q'' b _ He'' Ha'.
  - by apply einv_delete_output.
  - by apply einv_delete_input.
Qed.

(** *** Fresh links *)

Lemma on_links_empty_link Q l : Q !! l = None → on_links (<[l:=[]]> Q) ≡ₚ on_links Q.
Proof. intros Hl. rewrite on_links_insert. simpl. by rewrite delete_id. Qed.

Lemma new_shared_link_wp held s Q R :
  einv held s Q R →
  wpx E new_shared_link (λ l s', Q !! l = None ∧ einv (l :: held) s' (<[l:=[]]> Q) R ∧
    ∃ w', s' = set_world w' s) s.
Proof.
  intros [[Hw Hg Hb Hnd Hm Hck] Ha Hr]. unfold new_shared_link. apply wpx_bind, wpx_get.
  set (l := fresh (dom (links (world s)))). apply wpx_bind, wpx_put, wpx_ret.
  assert (Q !! l = None) as Hn.
  { destruct (Q !! l) as [q|] eqn:Hq; [|done]. apply (wi_links _ _ _ Hw) in Hq as (r & Hr' & _).
    apply elem_of_dom_2 in Hr'. by apply is_fresh in Hr'. }
  split_and!; [done| |by eexists]. split; simpl.
  - split; simpl; [| |done..].
    + destruct Hw as [Hls Hmem]. split; simpl.
      * intros l' q Hq. apply lookup_insert_Some in Hq as [[<- <-]|[Hne Hq]].
        { exists Link.new. rewrite lookup_insert_eq. split; [done|apply Link.new_rep]. }
        rewrite lookup_insert_ne by done. by apply Hls.
      * by rewrite on_links_empty_link.
    + by rewrite on_links_empty_link.
  - done.
  - intros l'. destruct (decide (l' = l)) as [->|Hne].
    + rewrite lookup_insert_eq. split; [intros _; right; left|by eexists].
    + rewrite lookup_insert_ne by done. rewrite Hr.
      assert (l' ∈ refs (set_world (set_links (<[l:=Link.new]> (links (world s))) (world s)) s) ↔ l' ∈ refs s) as -> by done.
      set_solver.
Qed.

(** The queues after a link may have been created. *)
Lemma link_entry_wp s Q R link :
  einv [] s Q R →
  wpx E (link_entry link) (λ l s', ∃ w' Q', s' = set_world w' (set_link_table (<[link := l]> (link_table s)) s) ∧
    einv [] s' Q' R ∧
    match link_table s !! link with Some l' => l = l' ∧ Q' = Q | None => Q !! l = None ∧ Q' = <[l:=[]]> Q end) s.
Proof.
  intros He. unfold link_entry. apply wpx_bind, wpx_get. destruct (link_table s !! link) as [l|] eqn:Hlink.
  - apply wpx_ret. exists (world s), Q.
    assert (set_world (world s) (set_link_table (<[link:=l]> (link_table s)) s) = s) as ->.
    { rewrite insert_id by done. by destruct s. }
    by split_and!.
  - apply wpx_bind. eapply wpx_mono; [by apply new_shared_link_wp|]. intros l s1 (Hl & He1 & w1 & ->).
    apply wpx_bind, wpx_modify, wpx_ret. exists w1, (<[l:=[]]> Q). split_and!; [done| |done|done].
    eapply einv_tables; [exact He1|done|apply He1|]. intros l'. simpl.
    rewrite !elem_of_refs. simpl. pose proof (val_insert (link_table s) link l l') as Hv. rewrite Hlink in Hv.
    rewrite list_elem_of_singleton. assert (l' ∉ []) by apply not_elem_of_nil.
    assert (None ≠ Some l') by done. tauto.
Qed.

Lemma link_apps_wp s Q R link spec :
  einv [] s Q R → Config.parse_link link = Ok spec →
  is_Some (app_table s !! Config.from spec) → is_Some (app_table s !! Config.to spec) →
  wpx E (link_apps link) (λ _ s', ∃ l Q', dropped [] Q' R (relinked link l spec s) s' ∧
    match link_table s !! link with Some l' => l = l' ∧ Q' = Q | None => Q !! l = None ∧ Q' = <[l:=[]]> Q end) s.
Proof.
  intros He Hp Ha Hb. unfold link_apps. apply wpx_bind.
  eapply wpx_mono; [by apply link_entry_wp|]. intros l s1 (w1 & Q1 & -> & He1 & Hm).
  apply wpx_bind. eapply wpx_lift; [exact Hp|].
  eapply wpx_mono; [eapply (edit_ports_wp [] Q1 R); [exact He1|done|done| |]|].
  - intros s' Q' a Hlt He' Ha'. apply einv_insert_output; [done|done|]. exists link. rewrite Hlt. apply lookup_insert_eq.
  - intros s' Q' a Hlt He' Ha'. apply einv_insert_input; [done|done|]. exists link. rewrite Hlt. apply lookup_insert_eq.
  - intros ? s2 Hd. exists l, Q1. split; [|done].
    destruct Hd as (w2 & Q2 & -> & He2 & Hs2). by exists w2, Q2.
Qed.

(** *** Apps *)

Lemma owned_by_lookup m R n a : owned_by m R → m !! n = Some a → ∃ r, R !! n = Some r ∧ owns (conf a) (app a) r.
Proof.
  intros [Hd Ho] Hn. assert (is_Some (R !! n)) as [r Hr].
  { apply elem_of_dom. rewrite <-Hd. by eapply elem_of_dom_2. }
  exists r. split; [done|]. by eapply Ho.
Qed.

Lemma owned_by_insert m R n a r : owned_by m R → owns (conf a) (app a) r → owned_by (<[n:=a]> m) (<[n:=r]> R).
Proof.
  intros [Hd Ho] Hr. split; [by rewrite !dom_insert_L, Hd|].
  intros n' b r' Hb Hr'. destruct (decide (n' = n)) as [->|Hne].
  - rewrite lookup_insert_eq in Hb. rewrite lookup_insert_eq in Hr'. by simplify_eq.
  - rewrite lookup_insert_ne in Hb by done. rewrite lookup_insert_ne in Hr' by done. by eapply Ho.
Qed.

Lemma owned_by_delete m R n : owned_by m R → owned_by (delete n m) (delete n R).
Proof.
  intros [Hd Ho]. split; [by rewrite !dom_delete_L, Hd|].
  intros n' b r' [_ Hb]%lookup_delete_Some [_ Hr']%lookup_delete_Some. by eapply Ho.
Qed.

Lemma rinv_equiv Q r r' w : rinv P Q r w → r ≡ r' → rinv P Q r' w.
Proof. by intros ? <-. Qed.

Definition no_ports : Ports := mkPorts ∅ ∅.

Lemma start_app_wp held s Q R n c :
  conf_ok c → einv held s Q R → app_table s !! n = None →
  wpx E (start_app n c) (λ _ s', ∃ t w' r,
    s' = set_world w' (set_app_table (<[n := mkAppState t c no_ports]> (app_table s)) s) ∧
    einv held s' Q (<[n := r]> R)) s.
Proof.
  intros Hok [Hw Ha Hr] Hn. unfold start_app. apply wpx_bind, wpx_in_world.
  eapply wpx_mono; [by apply (new_law P (E := E) c Q)|]. intros t w' (r & Ho & [Hw' _ _ _]).
  apply wpx_modify. exists t, w', r. split; [done|].
  assert (R !! n = None) as HRn.
  { apply not_elem_of_dom. rewrite <-(proj1 Ha). by apply not_elem_of_dom. }
  split; simpl.
  - eapply rinv_equiv; [exact Hw'|]. by rewrite total_insert.
  - by apply owned_by_insert.
  - intros l. rewrite Hr. f_equiv. rewrite !elem_of_refs. simpl. f_equiv. split.
    + intros (n' & a' & Hn' & Hl). exists n', a'. split; [|done]. rewrite lookup_insert_ne; [done|]. by intros ->; simplify_eq.
    + intros (n' & a' & [[<- <-]|[_ Hn']]%lookup_insert_Some & Hl).
      * apply elem_of_port_refs in Hl as [[k Hk]|[k Hk]]; simpl in Hk; by rewrite lookup_empty in Hk.
      * by exists n', a'.
Qed.

Lemma stop_app_wp s Q R n a :
  einv [] s Q R → app_table s !! n = Some a →
  wpx E (stop_app n) (λ _, dropped [] Q (delete n R) (set_app_table (delete n (app_table s)) s)) s.
Proof.
  intros [Hw Ha Hr] Hn. unfold stop_app. apply wpx_bind. eapply get_app_wp; [exact Hn|].
  apply wpx_bind, wpx_modify, wpx_bind, wpx_in_world.
  destruct (owned_by_lookup _ _ _ _ Ha Hn) as (r & HRn & Ho).
  eapply wpx_mono; [eapply (finish_law P (E := E) (conf a) (app a) r Q (total (delete n R))); [exact Ho|]|].
  { simpl. eapply rinv_equiv; [exact Hw|]. by apply total_delete. }
  intros [] w1 [Hw1 _ _ _].
  set (s1 := set_world w1 _).
  assert (einv (values (input (ports a)) ++ values (output (ports a))) s1 Q (delete n R)) as He1.
  { split; simpl; [done|by apply owned_by_delete|]. intros l. rewrite Hr, (elem_of_refs_delete s n a) by done.
    rewrite elem_of_port_refs, elem_of_app. unfold values. rewrite !order_perm, !elem_of_values.
    assert (l ∈ refs (set_app_table (delete n (app_table s)) s) ↔ l ∈ refs s1) as -> by done.
    assert (l ∉ []) by apply not_elem_of_nil. tauto. }
  eapply wpx_mono; [by apply drop_all_wp|]. intros ? s2 (w2 & Q2 & -> & He2 & Hs2).
  exists w2, Q2. by split_and!.
Qed.
End engine.
