(* ===== verification/Reconfigure.v ===== *)
(** * engine.rs: configure migrates from one network to another

    [configure] makes the running network match a configuration: the apps and
    links are those of the configuration, apps whose configuration is the same
    and links that stay are left alone with the packets they hold, everything
    else is stopped, dropped or created. *)

From S2P Require Import Prelude Packet App Engine Interface BreatheOrder Configure.
From S2P Require Link Config.
#[local] Open Scope Z_scope.

(** Links between existing, different apps, each port with one link. *)
Record wf_links (links names : gset string) : Prop := {
  wl_spec : ∀ link, link ∈ links → ∃ spec, Config.parse_link link = Ok spec ∧
    Config.from spec ∈ names ∧ Config.to spec ∈ names ∧ Config.from spec ≠ Config.to spec;
  wl_output : ∀ link1 link2 spec1 spec2, link1 ∈ links → link2 ∈ links →
    Config.parse_link link1 = Ok spec1 → Config.parse_link link2 = Ok spec2 →
    Config.from spec1 = Config.from spec2 → Config.link_output spec1 = Config.link_output spec2 → link1 = link2;
  wl_input : ∀ link1 link2 spec1 spec2, link1 ∈ links → link2 ∈ links →
    Config.parse_link link1 = Ok spec1 → Config.parse_link link2 = Ok spec2 →
    Config.to spec1 = Config.to spec2 → Config.link_input spec1 = Config.link_input spec2 → link1 = link2;
}.

Section tables.
Context {C T : Type}.
Abbreviation AppState := (AppState C T).
Implicit Types (lt : gmap string link_id) (tbl : gmap string AppState) (a : AppState).

(** Link [link] of the table, from port [p] (to port [p]) of app [n]. *)
Definition out_wire lt link n p l : Prop := ∃ spec, lt !! link = Some l ∧ Config.parse_link link = Ok spec ∧
  Config.from spec = n ∧ Config.link_output spec = p.
Definition in_wire lt link n p l : Prop := ∃ spec, lt !! link = Some l ∧ Config.parse_link link = Ok spec ∧
  Config.to spec = n ∧ Config.link_input spec = p.

(** The ports of apps hold links of the table only. *)
Record sound lt tbl : Prop := {
  so_output : ∀ n a p l, tbl !! n = Some a → output (ports a) !! p = Some l → ∃ link, out_wire lt link n p l;
  so_input : ∀ n a p l, tbl !! n = Some a → input (ports a) !! p = Some l → ∃ link, in_wire lt link n p l;
}.

(** The links of [D] are wired. *)
Record complete (D : string → Prop) lt tbl : Prop := {
  co_output : ∀ link n a p l, D link → out_wire lt link n p l → tbl !! n = Some a → output (ports a) !! p = Some l;
  co_input : ∀ link n a p l, D link → in_wire lt link n p l → tbl !! n = Some a → input (ports a) !! p = Some l;
}.

(** The apps are the same, up to their ports. *)
Definition core a : T * C := (app a, conf a).
Definition same_apps tbl tbl' : Prop := ∀ n, core <$> tbl !! n = core <$> tbl' !! n.

Lemma same_apps_trans t1 t2 t3 : same_apps t1 t2 → same_apps t2 t3 → same_apps t1 t3.
Proof. intros H1 H2 n. by rewrite H1. Qed.

Lemma same_apps_alter tbl n (f : AppState → AppState) : (∀ a, core (f a) = core a) → same_apps tbl (alter f n tbl).
Proof.
  intros Hf n'. rewrite lookup_alter. case_decide as Hn; [subst n'|done].
  destruct (tbl !! n); simpl; by rewrite ?Hf.
Qed.

Lemma same_apps_dom tbl tbl' : same_apps tbl tbl' → dom tbl = dom tbl'.
Proof.
  intros Hs. apply set_eq. intros n. rewrite !elem_of_dom. specialize (Hs n).
  destruct (tbl !! n), (tbl' !! n); simpl in Hs; try done; split; intros; by eexists.
Qed.

Lemma same_apps_lookup tbl tbl' n a' : same_apps tbl tbl' → tbl' !! n = Some a' →
  ∃ a, tbl !! n = Some a ∧ core a = core a'.
Proof.
  intros Hs Hn. specialize (Hs n). rewrite Hn in Hs. destruct (tbl !! n) as [a|]; [|done].
  exists a. split; [done|]. by apply (inj Some).
Qed.

(** *** Unlinking *)

Lemma lookup_edited (s : EngineState C T) n f n' :
  app_table (edited n f s) !! n' = if decide (n = n') then f <$> app_table s !! n' else app_table s !! n'.
Proof. unfold edited. simpl. rewrite lookup_alter. by case_decide; [subst|]. Qed.

Lemma unlinked_sound (s : EngineState C T) link spec :
  sound (link_table s) (app_table s) → Config.parse_link link = Ok spec →
  sound (link_table (unlinked link spec s)) (app_table (unlinked link spec s)).
Proof.
  intros [Ho Hi] Hp. unfold unlinked. split.
  - intros n a p l. rewrite !lookup_edited. simpl. intros Hn Hpl.
    assert (∃ b, app_table s !! n = Some b ∧ output (ports b) !! p = Some l ∧
      ¬ (Config.from spec = n ∧ Config.link_output spec = p)) as (b & Hb & Hbp & Hne).
    { destruct (app_table s !! n) as [b|]; [|by repeat case_decide]. exists b. split; [done|].
      repeat case_decide; simpl in Hn; injection Hn as <-; simpl in Hpl;
        rewrite ?lookup_delete_Some in Hpl; naive_solver. }
    destruct (Ho _ _ _ _ Hb Hbp) as (link' & spec' & Hl' & Hp' & <- & <-).
    exists link', spec'. split_and!; try done. simpl. rewrite lookup_delete_ne; [done|].
    intros <-. rewrite Hp in Hp'. injection Hp' as <-. tauto.
  - intros n a p l. rewrite !lookup_edited. simpl. intros Hn Hpl.
    assert (∃ b, app_table s !! n = Some b ∧ input (ports b) !! p = Some l ∧
      ¬ (Config.to spec = n ∧ Config.link_input spec = p)) as (b & Hb & Hbp & Hne).
    { destruct (app_table s !! n) as [b|]; [|by repeat case_decide]. exists b. split; [done|].
      repeat case_decide; simpl in Hn; injection Hn as <-; simpl in Hpl;
        rewrite ?lookup_delete_Some in Hpl; naive_solver. }
    destruct (Hi _ _ _ _ Hb Hbp) as (link' & spec' & Hl' & Hp' & <- & <-).
    exists link', spec'. split_and!; try done. simpl. rewrite lookup_delete_ne; [done|].
    intros <-. rewrite Hp in Hp'. injection Hp' as <-. tauto.
Qed.

Lemma unlinked_same_apps (s : EngineState C T) link spec :
  same_apps (app_table s) (app_table (unlinked link spec s)).
Proof. unfold unlinked, edited. simpl. eapply same_apps_trans; by apply same_apps_alter. Qed.

(** *** Linking *)

(** Ports of the link are overwritten: nothing else is wired to them. *)
Lemma relinked_sound (s : EngineState C T) link l spec :
  sound (link_table s) (app_table s) → Config.parse_link link = Ok spec →
  (∀ l', link_table s !! link = Some l' → l' = l) →
  sound (link_table (relinked link l spec s)) (app_table (relinked link l spec s)).
Proof.
  intros [Ho Hi] Hp Hl. unfold relinked.
  assert (∀ link' l', link_table s !! link' = Some l' → <[link:=l]> (link_table s) !! link' = Some l') as Hlt.
  { intros link' l' Hl'. destruct (decide (link' = link)) as [->|]; [|by rewrite lookup_insert_ne].
    rewrite lookup_insert_eq. f_equal. symmetry. by apply Hl. }
  split.
  - intros n a p l'. rewrite !lookup_edited. simpl. intros Hn Hpl.
    assert (∃ b, app_table s !! n = Some b ∧ (output (ports b) !! p = Some l' ∨
      (Config.from spec = n ∧ Config.link_output spec = p ∧ l' = l))) as (b & Hb & [Hbp|(<- & <- & ->)]).
    { destruct (app_table s !! n) as [b|]; [|by repeat case_decide]. exists b. split; [done|].
      repeat case_decide; simpl in Hn; injection Hn as <-; simpl in Hpl;
        rewrite ?lookup_insert_Some in Hpl; naive_solver. }
    + destruct (Ho _ _ _ _ Hb Hbp) as (link' & spec' & Hl' & ?). exists link', spec'. split; [by apply Hlt|done].
    + exists link, spec. split_and!; try done. apply lookup_insert_eq.
  - intros n a p l'. rewrite !lookup_edited. simpl. intros Hn Hpl.
    assert (∃ b, app_table s !! n = Some b ∧ (input (ports b) !! p = Some l' ∨
      (Config.to spec = n ∧ Config.link_input spec = p ∧ l' = l))) as (b & Hb & [Hbp|(<- & <- & ->)]).
    { destruct (app_table s !! n) as [b|]; [|by repeat case_decide]. exists b. split; [done|].
      repeat case_decide; simpl in Hn; injection Hn as <-; simpl in Hpl;
        rewrite ?lookup_insert_Some in Hpl; naive_solver. }
    + destruct (Hi _ _ _ _ Hb Hbp) as (link' & spec' & Hl' & ?). exists link', spec'. split; [by apply Hlt|done].
    + exists link, spec. split_and!; try done. apply lookup_insert_eq.
Qed.

Lemma relinked_complete (s : EngineState C T) D link l spec links names :
  complete D (link_table s) (app_table s) → Config.parse_link link = Ok spec →
  wf_links links names → link ∈ links → (∀ link', D link' → link' ∈ links) →
  (∀ l', link_table s !! link = Some l' → l' = l) →
  complete (λ link', D link' ∨ link' = link) (link_table (relinked link l spec s)) (app_table (relinked link l spec s)).
Proof.
  intros [Ho Hi] Hp [_ Hwo Hwi] Hlink HD Hl. unfold relinked.
  assert (∀ link' l', <[link:=l]> (link_table s) !! link' = Some l' → link' ≠ link → link_table s !! link' = Some l') as Hlt.
  { intros link' l' Hl' Hne. by rewrite lookup_insert_ne in Hl'. }
  split.
  - intros link' n a p l' HD' (spec' & Hl' & Hp' & <- & <-). simpl in Hl'. rewrite !lookup_edited. simpl. intros Hn.
    destruct (decide (link' = link)) as [->|Hne].
    + assert (spec' = spec) as -> by congruence. rewrite lookup_insert_eq in Hl'. injection Hl' as <-.
      rewrite (decide_True (P := Config.from spec = Config.from spec)) in Hn by done.
      destruct (app_table s !! Config.from spec) as [b|]; [|by case_decide].
      case_decide; simpl in Hn; injection Hn as <-; simpl; apply lookup_insert_eq.
    + destruct HD' as [HD'|]; [|done]. specialize (Hlt _ _ Hl' Hne).
      assert (¬ (Config.from spec = Config.from spec' ∧ Config.link_output spec = Config.link_output spec')) as Hports.
      { intros [H1 H2]. apply Hne. symmetry. eapply Hwo; eauto. }
      destruct (app_table s !! Config.from spec') as [b|] eqn:Hb; [|by repeat case_decide].
      assert (output (ports b) !! Config.link_output spec' = Some l') as Hold by (eapply Ho; [exact HD'|by exists spec'|done]).
      repeat case_decide; simpl in Hn; injection Hn as <-; simpl; rewrite ?lookup_insert_ne; naive_solver.
  - intros link' n a p l' HD' (spec' & Hl' & Hp' & <- & <-). simpl in Hl'. rewrite !lookup_edited. simpl. intros Hn.
    destruct (decide (link' = link)) as [->|Hne].
    + assert (spec' = spec) as -> by congruence. rewrite lookup_insert_eq in Hl'. injection Hl' as <-.
      rewrite (decide_True (P := Config.to spec = Config.to spec)) in Hn by done.
      destruct (app_table s !! Config.to spec) as [b|]; [|by case_decide].
      case_decide; simpl in Hn; injection Hn as <-; simpl; apply lookup_insert_eq.
    + destruct HD' as [HD'|]; [|done]. specialize (Hlt _ _ Hl' Hne).
      assert (¬ (Config.to spec = Config.to spec' ∧ Config.link_input spec = Config.link_input spec')) as Hports.
      { intros [H1 H2]. apply Hne. symmetry. eapply Hwi; eauto. }
      destruct (app_table s !! Config.to spec') as [b|] eqn:Hb; [|by repeat case_decide].
      assert (input (ports b) !! Config.link_input spec' = Some l') as Hold by (eapply Hi; [exact HD'|by exists spec'|done]).
      repeat case_decide; simpl in Hn; injection Hn as <-; simpl; rewrite ?lookup_insert_ne; naive_solver.
Qed.

Lemma relinked_same_apps (s : EngineState C T) link l spec :
  same_apps (app_table s) (app_table (relinked link l spec s)).
Proof. unfold relinked, edited. simpl. eapply same_apps_trans; by apply same_apps_alter. Qed.
End tables.

(** ** The phases of configure *)

Section phases.
Context `{HashOrder} {C T : Type} `{App T} `{AppConfig C T} (P : Packet → Prop) (E : string → Prop).
Context `{!AppLaws P E C T}.
Abbreviation EngineState := (EngineState C T).
Implicit Types (s : EngineState) (R : gmap string res).
Context (config : Config.Config C) (s0 : EngineState) (Q0 : queues).

(** The links that stay keep their identity and their packets. *)
Definition stays (link : string) : Prop := link ∈ dom (link_table s0) ∧ link ∈ Config.links config.
Definition links_kept s (Q : queues) : Prop :=
  ∀ link l, stays link → link_table s0 !! link = Some l → link_table s !! link = Some l ∧ Q !! l = Q0 !! l.

Lemma links_kept_dropped held s s' Q Q' R :
  links_kept s Q → link_table s' = link_table s → einv P E held s' Q' R → Q' ⊆ Q → links_kept s' Q'.
Proof.
  intros Hk Hlt He Hs link l Hst Hl. destruct (Hk link l Hst Hl) as [Hk1 Hk2]. rewrite Hlt. split; [done|].
  rewrite <-Hk2. destruct (proj2 (ei_refs _ _ _ _ _ _ He l)) as [q Hq].
  { left. apply elem_of_refs. left. exists link. by rewrite Hlt. }
  rewrite Hq. symmetry. by eapply lookup_weaken.
Qed.

(** *** Removing links *)

Record removing (clone : list link_id) (ds : list string) s Q R : Prop := {
  rm_inv : einv P E clone s Q R;
  rm_links : ∀ link, link_table s !! link =
    if decide (link ∈ ds ∧ link ∉ Config.links config) then None else link_table s0 !! link;
  rm_sound : sound (link_table s) (app_table s);
  rm_apps : same_apps (app_table s0) (app_table s);
  rm_kept : links_kept s Q;
}.

Lemma remove_links_wp R :
  einv P E [] s0 Q0 R → sound (link_table s0) (app_table s0) →
  wf_links (dom (link_table s0)) (dom (app_table s0)) →
  wpx E (remove_links config) (λ _ s', ∃ Q', removing [] (keys (link_table s0)) s' Q' R) s0.
Proof.
  intros He Hso Hwf. unfold remove_links. apply wpx_bind, wpx_get. set (clone := values (link_table s0)).
  apply wpx_bind. eapply wpx_mono.
  - eapply (for_st_inv E _ (λ ds rest s, ds ++ rest = keys (link_table s0) ∧ ∃ Q, removing clone ds s Q R))
      with (xs := keys (link_table s0)) (done := []).
    2: { split; [done|]. exists Q0. split; [|by intros link; rewrite decide_False by set_solver|done|done|].
         - eapply einv_tables; [exact He|done|apply He|]. intros l. unfold clone, values.
           rewrite order_perm, elem_of_values, elem_of_refs. assert (l ∉ []) by apply not_elem_of_nil. tauto.
         - by intros link l _ Hl. }
    intros ds link rest s (Heq & Q & [Hi Hl Hs Ha Hk]). rewrite <-app_assoc.
    assert (link ∈ dom (link_table s0)) as Hin by (apply elem_of_keys; rewrite <-Heq; set_solver).
    destruct (decide (link ∈ Config.links config)) as [Hc|Hc].
    + apply wpx_ret. split; [done|]. exists Q. split; [done| |done|done|done].
      intros link'. rewrite Hl. repeat case_decide; set_solver.
    + destruct (wl_spec _ _ Hwf link Hin) as (spec & Hp & Hf & Ht & _).
      rewrite (same_apps_dom _ _ Ha) in Hf, Ht. apply elem_of_dom in Hf, Ht.
      eapply wpx_mono; [by apply unlink_apps_wp|]. intros ? s' (w' & Q' & -> & He' & Hs').
      split; [done|]. exists Q'. split.
      * done.
      * intros link'. simpl. destruct (decide (link' = link)) as [->|Hne].
        { rewrite lookup_delete_eq. by rewrite decide_True by set_solver. }
        rewrite lookup_delete_ne, Hl by done. repeat case_decide; set_solver.
      * by apply (unlinked_sound s).
      * eapply same_apps_trans; [exact Ha|]. apply (unlinked_same_apps s link spec).
      * intros link' l' Hst Hl'. assert (link' ≠ link) as Hne by (intros ->; by destruct Hst).
        destruct (Hk link' l' Hst Hl') as [H3 H4]. simpl. rewrite lookup_delete_ne by done. split; [done|].
        rewrite <-H4. destruct (proj2 (ei_refs _ _ _ _ _ _ He' l')) as [q Hq].
        { left. apply elem_of_refs. left. exists link'. simpl. by rewrite lookup_delete_ne. }
        rewrite Hq. symmetry. by eapply lookup_weaken.
  - intros _ s (_ & Q & [Hi Hl Hs Ha Hk]). eapply wpx_mono; [by apply drop_all_wp|].
    intros ? s' (w' & Q' & -> & He' & Hs'). exists Q'. split; try done. by eapply links_kept_dropped.
Qed.

(** *** Stopping apps *)

(** The app [a] called [n] has the configuration that is asked for. *)
Definition same_conf (n : string) (a : AppState C T) : bool :=
  match Config.apps config !! n with Some c => equal (conf a) c | None => false end.
Definition surviving (tbl : gmap string (AppState C T)) (n : string) : option (AppState C T) :=
  a ← tbl !! n; if same_conf n a then Some a else None.

Record stopping s1 (ds : list string) s Q R : Prop := {
  sp_inv : einv P E [] s Q R;
  sp_links : link_table s = link_table s1;
  sp_apps : ∀ n, app_table s !! n = if decide (n ∈ ds) then surviving (app_table s1) n else app_table s1 !! n;
  sp_kept : links_kept s Q;
}.

Lemma stop_apps_wp s1 Q1 R1 :
  einv P E [] s1 Q1 R1 → links_kept s1 Q1 →
  wpx E (stop_apps config) (λ _ s', ∃ Q' R', stopping s1 (keys (app_table s1)) s' Q' R') s1.
Proof.
  intros He Hk. unfold stop_apps. apply wpx_bind, wpx_get. eapply wpx_mono.
  - eapply (for_st_inv E _ (λ ds rest s, ds ++ rest = keys (app_table s1) ∧ NoDup (ds ++ rest) ∧ ∃ Q R, stopping s1 ds s Q R))
      with (xs := keys (app_table s1)) (done := []).
    2: { split; [done|]. split; [|exists Q1, R1; split; [done|done| |done]; intros n; by rewrite decide_False by set_solver].
         simpl. unfold keys. rewrite order_perm. apply NoDup_fst_map_to_list. }
    intros ds n rest s (Heq & Hnd & Q & R & [Hi Hl Ha Hk']). rewrite <-app_assoc.
    assert (n ∈ dom (app_table s1)) as [a Hn]%elem_of_dom by (apply elem_of_keys; rewrite <-Heq; set_solver).
    assert (n ∉ ds) as Hnds.
    { apply NoDup_app in Hnd as (_ & Hd & _). intros Hx. apply (Hd n Hx). left. }
    assert (app_table s !! n = Some a) as Hsn by (by rewrite Ha, decide_False).
    assert (∀ n', app_table s1 !! n' = surviving (app_table s1) n' ∨ n' ≠ n →
      (if decide (n' ∈ ds ++ [n]) then surviving (app_table s1) n' else app_table s1 !! n') = app_table s !! n') as Hother.
    { intros n' Hn'. rewrite Ha. repeat case_decide; try done; set_solver. }
    assert (surviving (app_table s1) n = if same_conf n a then Some a else None) as Hsv by (unfold surviving; by rewrite Hn).
    apply wpx_bind. eapply get_app_wp; [exact Hsn|].
    assert (same_conf n a = true → ∃ Q' R', stopping s1 (ds ++ [n]) s Q' R') as Hstay.
    { intros Hb. exists Q, R. split; [done|done| |done]. intros n'. symmetry. apply Hother.
      destruct (decide (n' = n)) as [->|]; [left; by rewrite Hsv, Hb|by right]. }
    assert (same_conf n a = false → wpx E (stop_app n) (λ _ s',
      ds ++ [n] ++ rest = keys (app_table s1) ∧ NoDup (ds ++ [n] ++ rest) ∧ ∃ Q' R', stopping s1 (ds ++ [n]) s' Q' R') s) as Hstop.
    { intros Hb. eapply wpx_mono; [by apply (stop_app_wp P E s Q R n a)|]. intros ? s' (w' & Q' & -> & He' & Hs').
      split_and!; [done|done|]. exists Q', (delete n R). split; [done|done| |].
      - intros n'. simpl. destruct (decide (n' = n)) as [->|Hne].
        + rewrite lookup_delete_eq, decide_True by set_solver. by rewrite Hsv, Hb.
        + rewrite lookup_delete_ne by done. symmetry. apply Hother. by right.
      - by eapply (links_kept_dropped [] s _ Q). }
    unfold same_conf in *. destruct (Config.apps config !! n) as [c|]; [|by apply Hstop].
    destruct (equal (conf a) c); simpl; [|by apply Hstop].
    apply wpx_ret. split_and!; [done|done|]. by apply Hstay.
  - intros _ s (_ & _ & Q & R & Hst). by exists Q, R.
Qed.

(** *** Starting apps *)

Record starting s2 (ds : list string) s Q R : Prop := {
  sr_inv : einv P E [] s Q R;
  sr_links : link_table s = link_table s2;
  sr_old : ∀ n a, app_table s2 !! n = Some a → app_table s !! n = Some a;
  sr_new : ∀ n a, app_table s !! n = Some a → app_table s2 !! n = Some a ∨
    (ports a = no_ports ∧ Config.apps config !! n = Some (conf a));
  sr_all : ∀ n, n ∈ ds → is_Some (app_table s !! n);
  sr_kept : links_kept s Q;
}.

Lemma start_apps_wp s2 Q2 R2 :
  (∀ n c, Config.apps config !! n = Some c → conf_ok c) →
  einv P E [] s2 Q2 R2 → links_kept s2 Q2 →
  wpx E (start_apps config) (λ _ s', ∃ Q' R', starting s2 (keys (Config.apps config)) s' Q' R') s2.
Proof.
  intros Hok He Hk. unfold start_apps. eapply wpx_mono.
  - eapply (for_st_inv E _ (λ ds rest s, ds ++ rest = order (Config.apps config) ∧ ∃ Q R, starting s2 ds.*1 s Q R))
      with (xs := order (Config.apps config)) (done := []).
    2: { split; [done|]. exists Q2, R2. split; try done; [by left|]. by intros n ?%not_elem_of_nil. }
    intros ds [n c] rest s (Heq & Q & R & [Hi Hl Ho Hn Ha Hk']). rewrite <-app_assoc.
    assert (Config.apps config !! n = Some c) as Hc.
    { apply elem_of_map_to_list. rewrite <-order_perm, <-Heq. set_solver. }
    apply wpx_bind, wpx_get. destruct (app_table s !! n) as [a|] eqn:Hsn.
    + apply wpx_ret. split; [done|]. exists Q, R. split; try done.
      intros n'. rewrite fmap_app, elem_of_app. intros [| ->%list_elem_of_singleton]; [by apply Ha|by eexists].
    + eapply wpx_mono; [apply (start_app_wp P E [] s Q R); [by eapply Hok|done..]|]. intros ? s' (t & w' & r & -> & He').
      split; [done|]. exists Q, (<[n:=r]> R). split; simpl; [done|done| | | |done].
      * intros n' a' Hn'. apply Ho in Hn'. rewrite lookup_insert_ne; [done|]. intros <-. congruence.
      * intros n' a' [[<- <-]|[_ Hn']]%lookup_insert_Some; [by right|by apply Hn].
      * intros n'. rewrite fmap_app, elem_of_app. intros [Hn'| ->%list_elem_of_singleton].
        -- apply Ha in Hn' as [a' Ha']. destruct (decide (n = n')) as [<-|]; [congruence|].
           rewrite lookup_insert_ne by done. by exists a'.
        -- rewrite lookup_insert_eq. by eexists.
  - intros _ s (_ & Q & R & Hst). by exists Q, R.
Qed.

(** *** Linking apps *)

Definition lt_inj (lt : gmap string link_id) : Prop :=
  ∀ link link' l, lt !! link = Some l → lt !! link' = Some l → link = link'.

Record linking s3 (ds : list string) s Q R : Prop := {
  lk_inv : einv P E [] s Q R;
  lk_dom : dom (link_table s) = dom (link_table s3) ∪ list_to_set ds;
  lk_inj : lt_inj (link_table s);
  lk_sound : sound (link_table s) (app_table s);
  lk_complete : complete (λ link, link ∈ ds) (link_table s) (app_table s);
  lk_apps : same_apps (app_table s3) (app_table s);
  lk_kept : links_kept s Q;
}.

Lemma link_all_wp s3 Q3 R3 :
  einv P E [] s3 Q3 R3 → lt_inj (link_table s3) → sound (link_table s3) (app_table s3) →
  wf_links (Config.links config) (dom (app_table s3)) → links_kept s3 Q3 →
  wpx E (for_st (set_order (Config.links config)) link_apps)
    (λ _ s', ∃ Q' R', linking s3 (set_order (Config.links config)) s' Q' R') s3.
Proof.
  intros He Hinj Hso Hwf Hk. eapply wpx_mono.
  - eapply (for_st_inv E _ (λ ds rest s, ds ++ rest = set_order (Config.links config) ∧ ∃ Q R, linking s3 ds s Q R))
      with (xs := set_order (Config.links config)) (done := []).
    2: { split; [done|]. exists Q3, R3. split; try done; [set_solver|]. split; by intros ????? ?%not_elem_of_nil. }
    intros ds link rest s (Heq & Q & R & [Hi Hd Hij Hs Hc Ha Hk']). rewrite <-app_assoc.
    assert (∀ link', link' ∈ ds ++ link :: rest → link' ∈ Config.links config) as Hall.
    { intros link'. rewrite Heq. apply elem_of_set_order. }
    assert (link ∈ Config.links config) as Hin by (apply Hall; set_solver).
    destruct (wl_spec _ _ Hwf link Hin) as (spec & Hp & Hf & Ht & _).
    rewrite (same_apps_dom _ _ Ha) in Hf, Ht. apply elem_of_dom in Hf, Ht.
    eapply wpx_mono; [by apply (link_apps_wp P E s Q R link spec)|].
    intros ? s' (l & Q' & (w' & Q'' & -> & He' & Hs') & Hl).
    assert (∀ l', link_table s !! link = Some l' → l' = l) as Hold.
    { intros l' Hl'. rewrite Hl' in Hl. by destruct Hl. }
    assert (∀ link' l', link_table s !! link' = Some l' → Q' !! l' = Q !! l' ∧ (l' = l → link' = link)) as HQ.
    { intros link' l' Hl'. destruct (link_table s !! link) as [l1|] eqn:Hlk.
      - destruct Hl as [-> ->]. split; [done|]. intros ->. by eapply Hij.
      - destruct Hl as [Hl ->]. assert (l' ≠ l) as Hne; [|by rewrite lookup_insert_ne].
        intros ->. destruct (proj2 (ei_refs _ _ _ _ _ _ Hi l)) as [q Hq]; [|congruence].
        left. apply elem_of_refs. left. by exists link'. }
    split; [done|]. exists Q'', R. split.
    + done.
    + simpl. rewrite dom_insert_L, Hd. set_solver.
    + intros k1 k2 l'. simpl. intros [[<- <-]|[Hne Hk1]]%lookup_insert_Some [[<- Hx]|[Hne' Hk2]]%lookup_insert_Some; try done.
      * by apply HQ in Hk2 as [_ ->].
      * subst l'. by apply HQ in Hk1 as [_ ->].
      * by eapply Hij.
    + by apply (relinked_sound s).
    + assert (complete (λ link', link' ∈ ds ∨ link' = link)
        (link_table (relinked link l spec s)) (app_table (relinked link l spec s))) as [H2 H3].
      { apply (relinked_complete s _ link l spec (Config.links config) (dom (app_table s3))); try done.
        intros link' Hl'. apply Hall. set_solver. }
      split; intros link' n b p l' Hl'; [eapply H2|eapply H3]; set_solver.
    + eapply same_apps_trans; [exact Ha|]. apply (relinked_same_apps s link l spec).
    + apply (links_kept_dropped [] (set_world w' (relinked link l spec s)) _ Q' Q'' R); [|done|done|done].
      intros link' l' Hst Hl'. destruct (Hk' link' l' Hst Hl') as [H2 H3]. simpl.
      destruct (HQ _ _ H2) as [-> _]. split; [|done].
      destruct (decide (link' = link)) as [->|]; [|by rewrite lookup_insert_ne].
      rewrite lookup_insert_eq. by rewrite (Hold _ H2).
  - intros _ s (_ & Q & R & Hst). by exists Q, R.
Qed.
End phases.

(** ** Networks *)

Section network.
Context `{HashOrder} {C T : Type} `{App T} `{AppConfig C T} (P : Packet → Prop) (E : string → Prop).
Context `{!AppLaws P E C T}.
Abbreviation EngineState := (EngineState C T).
Implicit Types (s : EngineState) (R : gmap string res).

(** The engine between calls of configure and main: every packet is on a link
    or belongs to an app; every link is wired as its name says, to apps that
    exist. *)
Record consistent s (Q : queues) R : Prop := {
  cn_inv : einv P E [] s Q R;
  cn_sound : sound (link_table s) (app_table s);
  cn_complete : complete (λ _, True) (link_table s) (app_table s);
  cn_inj : lt_inj (link_table s);
  cn_wf : wf_links (dom (link_table s)) (dom (app_table s));
}.

(** The state of the process when it starts. *)
Definition init_engine (t : option Z) clk r : EngineState :=
  mkEngine (mkWorld init_pstate ∅ ∅ t clk 0 r 0 ∅ []) ∅ ∅ [] [] 0 0 never_reported.

Lemma init_consistent t clk r : (∀ k, is_instant (clk k)) → consistent (init_engine t clk r) ∅ ∅.
Proof.
  intros Hck. assert (∀ n a, ¬ app_table (init_engine t clk r) !! n = Some a) as Hn by (intros n a; apply lookup_empty_Some).
  assert (∀ n l, ¬ link_table (init_engine t clk r) !! n = Some l) as Hl by (intros n l; apply lookup_empty_Some).
  split.
  - split.
    + rewrite total_empty. split; simpl; [|done|done|apply NoDup_nil_2|by intros m ?%not_elem_of_nil|done|constructor].
      split; [intros l q Hq; by rewrite lookup_empty in Hq|apply Mem_init].
    + split; [done|]. by intros n a r' ?%Hn.
    + intros l. rewrite lookup_empty, elem_of_refs. split; [by intros []|].
      intros [[[k Hk]|(n & a & Ha & _)]|?%not_elem_of_nil]; [by apply Hl in Hk|by apply Hn in Ha|done].
  - by split; intros n a p l ?%Hn.
  - by split; intros link n a p l _ _ ?%Hn.
  - by intros link link' l ?%Hl.
  - split; intros link; set_solver.
Qed.

(** What [configure] makes of a network. *)
Record configured (config : Config.Config C) s (Q : queues) s' (Q' : queues) : Prop := {
  cf_links : dom (link_table s') = Config.links config;
  cf_apps : dom (app_table s') = dom (Config.apps config);
  cf_conf : ∀ n a c, app_table s' !! n = Some a → Config.apps config !! n = Some c → equal (conf a) c = true;
  cf_kept_apps : ∀ n a c, app_table s !! n = Some a → Config.apps config !! n = Some c →
    equal (conf a) c = true → ∃ a', app_table s' !! n = Some a' ∧ app a' = app a;
  cf_kept_links : ∀ link l, link ∈ Config.links config → link_table s !! link = Some l →
    link_table s' !! link = Some l ∧ Q' !! l = Q !! l;
  cf_inhale : ∀ n, n ∈ inhale s' ↔ pulls (app_table s') n;
  cf_exhale : ∀ n, n ∈ exhale s' ↔ reached (app_table s') (Config.links config) n;
  cf_once : NoDup (inhale s') ∧ NoDup (exhale s');
  cf_order : in_order (app_table s') (Config.links config) (exhale s');
}.

Lemma equal_refl (c : C) : equal c c = true.
Proof. apply String.eqb_refl. Qed.

Lemma surviving_spec config (tbl : gmap string (AppState C T)) n a :
  surviving config tbl n = Some a ↔ tbl !! n = Some a ∧ same_conf config n a = true.
Proof.
  unfold surviving. destruct (tbl !! n) as [b|]; simpl; [|split; [done|by intros []]].
  destruct (same_conf config n b) eqn:Hb; split; [by intros [= <-]|by intros [[= <-] _]|done|].
  intros [[= <-] Ha]. congruence.
Qed.

Lemma same_conf_spec config n (a : AppState C T) :
  same_conf config n a = true ↔ ∃ c, Config.apps config !! n = Some c ∧ equal (conf a) c = true.
Proof.
  unfold same_conf. destruct (Config.apps config !! n) as [c|]; split.
  - intros Hc. by exists c.
  - by intros (c' & [= <-] & ?).
  - done.
  - by intros (c' & ? & _).
Qed.

Lemma compute_order_wp s :
  wf_links (dom (link_table s)) (dom (app_table s)) →
  wpx E compute_breathe_order (λ _ s', s' = set_order_of (inhale s') (exhale s') s ∧
    (∀ n, n ∈ inhale s' ↔ pulls (app_table s) n) ∧
    (∀ n, n ∈ exhale s' ↔ reached (app_table s) (dom (link_table s)) n) ∧
    (NoDup (inhale s') ∧ NoDup (exhale s')) ∧ in_order (app_table s) (dom (link_table s)) (exhale s')) s.
Proof.
  intros Hwf. unfold compute_breathe_order. apply wpx_bind, wpx_get, wpx_bind.
  assert (∀ l, l ∈ dom (link_table s) → ∃ spec, Config.parse_link l = Ok spec ∧ Config.to spec ∈ dom (app_table s)) as Hspec.
  { intros l Hl. destruct (wl_spec _ _ Hwf l Hl) as (spec & ? & ? & ? & ?). by exists spec. }
  destruct (breathe_order_spec (app_table s) (link_table s)) as (ex & He & Hnd & Hex); [done| |].
  - intros x _ (l & spec & Hl & Hp & Hf & Ht). destruct (wl_spec _ _ Hwf l Hl) as (spec' & Hp' & _ & _ & Hne).
    assert (spec' = spec) as -> by congruence. congruence.
  - eapply wpx_lift; [exact He|]. apply wpx_modify. simpl. split_and!; [done|apply inhalers_spec|done|apply inhalers_nodup|done|].
    by apply breathe_order_in_order.
Qed.

(** The ports of app [n] that links of [links] end at. *)
Definition wired (links : gset string) (n : string) (I O : gset string) : Prop :=
  (∀ p, p ∈ I ↔ ∃ link spec, link ∈ links ∧ Config.parse_link link = Ok spec ∧
     Config.to spec = n ∧ Config.link_input spec = p) ∧
  (∀ p, p ∈ O ↔ ∃ link spec, link ∈ links ∧ Config.parse_link link = Ok spec ∧
     Config.from spec = n ∧ Config.link_output spec = p).

(** Configurations that [configure] accepts.  An app that is kept has a
    configuration [c'] that is the same as the new one. *)
Record wf_config (config : Config.Config C) : Prop := {
  wc_links : wf_links (Config.links config) (dom (Config.apps config));
  wc_confs : ∀ n c, Config.apps config !! n = Some c → conf_ok (P := P) (E := E) c;
  wc_fits : ∀ n c c' I O, Config.apps config !! n = Some c → equal c' c = true →
    wired (Config.links config) n I O → fits (P := P) (E := E) c' I O;
}.

(** Every app is wired as it may be. *)
Definition all_fit s : Prop := ∀ n a, app_table s !! n = Some a →
  fits (P := P) (E := E) (conf a) (inputs (ports a)) (outputs (ports a)).

(** The ports of an app are those that the names of the links tell. *)
Lemma consistent_wired s Q R n a :
  consistent s Q R → app_table s !! n = Some a →
  wired (dom (link_table s)) n (inputs (ports a)) (outputs (ports a)).
Proof.
  intros [_ [Ho Hi] [Hco Hci] _ _] Hn. unfold inputs, outputs. split; intros p; rewrite elem_of_dom; split.
  - intros [l Hl]. destruct (Hi _ _ _ _ Hn Hl) as (link & spec & Hk & ?). exists link, spec.
    split; [by eapply elem_of_dom_2|done].
  - intros (link & spec & [l Hl]%elem_of_dom & Hk). exists l. eapply (Hci link); [done|by exists spec|done].
  - intros [l Hl]. destruct (Ho _ _ _ _ Hn Hl) as (link & spec & Hk & ?). exists link, spec.
    split; [by eapply elem_of_dom_2|done].
  - intros (link & spec & [l Hl]%elem_of_dom & Hk). exists l. eapply (Hco link); [done|by exists spec|done].
Qed.

Lemma configured_fits config s Q s' Q' R' :
  wf_config config → consistent s' Q' R' → configured config s Q s' Q' → all_fit s'.
Proof.
  intros Hwf Hc Hcf n a Hn. assert (is_Some (Config.apps config !! n)) as [c Hcn].
  { apply elem_of_dom. rewrite <-(cf_apps _ _ _ _ _ Hcf). by eapply elem_of_dom_2. }
  apply (wc_fits _ Hwf n c); [done|by eapply cf_conf|]. rewrite <-(cf_links _ _ _ _ _ Hcf).
  by eapply consistent_wired.
Qed.

Lemma configure_wp config s Q R :
  consistent s Q R → wf_config config →
  wpx E (configure config) (λ _ s', ∃ Q' R', consistent s' Q' R' ∧ configured config s Q s' Q') s.
Proof.
  intros [He Hso Hco Hij Hwf] [Hc Hok _]. unfold configure.
  apply wpx_bind. eapply wpx_mono; [by apply (remove_links_wp P E config s Q R)|].
  intros _ s1 (Q1 & [He1 Hl1 Hs1 Ha1 Hk1]).
  apply wpx_bind. eapply wpx_mono; [by apply (stop_apps_wp P E config s Q s1 Q1 R)|].
  intros _ s2 (Q2 & R2 & [He2 Hl2 Ha2 Hk2]).
  assert (∀ n, app_table s2 !! n = surviving config (app_table s1) n) as Hs2.
  { intros n. rewrite Ha2. case_decide as Hn; [done|]. rewrite elem_of_keys, not_elem_of_dom in Hn.
    unfold surviving. by rewrite Hn. }
  apply wpx_bind. eapply wpx_mono; [by apply (start_apps_wp P E config s Q s2 Q2 R2)|].
  intros _ s3 (Q3 & R3 & [He3 Hl3 Ho3 Hn3 Hall3 Hk3]).
  assert (dom (app_table s3) = dom (Config.apps config)) as Hdom3.
  { apply set_eq. intros n. split.
    - intros [a Ha]%elem_of_dom. apply Hn3 in Ha as [Ha|[_ Ha]]; [|by eapply elem_of_dom_2].
      rewrite Hs2 in Ha. apply surviving_spec in Ha as [_ (c & Hcn & _)%same_conf_spec]. by eapply elem_of_dom_2.
    - intros Hn. apply elem_of_dom, Hall3. by apply elem_of_keys. }
  assert (dom (link_table s3) ⊆ Config.links config) as Hsub.
  { intros link [l Hl]%elem_of_dom. rewrite Hl3, Hl2, Hl1 in Hl. case_decide as Hd; [done|].
    destruct (decide (link ∈ Config.links config)); [done|]. exfalso. apply Hd. split; [|done].
    apply elem_of_keys. by eapply elem_of_dom_2. }
  assert (∀ link l, link_table s3 !! link = Some l → link_table s !! link = Some l) as Hold.
  { intros link l. rewrite Hl3, Hl2, Hl1. by case_decide. }
  assert (sound (link_table s3) (app_table s3)) as Hs3.
  { rewrite Hl3, Hl2. destruct Hs1 as [Hso1 Hsi1].
    split; intros n a p l Hn Hp; apply Hn3 in Hn as [Hn|[Hn _]];
      try (rewrite Hn in Hp; simpl in Hp; by rewrite lookup_empty in Hp);
      rewrite Hs2 in Hn; apply surviving_spec in Hn as [Hn _]; [by eapply Hso1|by eapply Hsi1]. }
  apply wpx_bind. eapply wpx_mono.
  { apply (link_all_wp P E config s Q s3 Q3 R3); [done| |done|by rewrite Hdom3|done].
    intros k1 k2 l Hk Hk'. by eapply Hij; apply Hold. }
  intros _ s4 (Q4 & R4 & [He4 Hd4 Hij4 Hs4 Hc4 Ha4 Hk4]).
  assert (dom (link_table s4) = Config.links config) as Hl4.
  { rewrite Hd4. apply set_eq. intros link. rewrite elem_of_union, elem_of_list_to_set, elem_of_set_order. set_solver. }
  assert (dom (app_table s4) = dom (Config.apps config)) as Hdom4 by (by rewrite <-(same_apps_dom _ _ Ha4)).
  eapply wpx_mono; [apply compute_order_wp; by rewrite Hl4, Hdom4|].
  intros _ s5 (Hs5 & Hin & Hex & Hnd & Hord). exists Q4, R4. rewrite Hs5. split.
  - split; simpl; [|done| |done|by rewrite Hl4, Hdom4].
    + eapply einv_tables; [exact He4|done|apply He4|done].
    + destruct Hc4 as [Hco4 Hci4]. split; intros link n a p l _ Hw; [eapply Hco4|eapply Hci4]; try exact Hw;
        destruct Hw as (spec & Hl & _); apply elem_of_set_order; rewrite <-Hl4; by eapply elem_of_dom_2.
  - split; simpl; [done|done| | | | |by rewrite <-Hl4|done|by rewrite <-Hl4].
    + intros n a c Hn Hcn. destruct (same_apps_lookup _ _ _ _ Ha4 Hn) as (b & Hb & [= _ Hcore]).
      rewrite <-Hcore. apply Hn3 in Hb as [Hb|[_ Hb]].
      * rewrite Hs2 in Hb. apply surviving_spec in Hb as [_ (c' & Hc' & Heq)%same_conf_spec]. by simplify_eq.
      * simplify_eq. rewrite Hcore. apply equal_refl.
    + intros n a c Hn Hcn Heq. specialize (Ha1 n). rewrite Hn in Ha1.
      destruct (app_table s1 !! n) as [a1|] eqn:Hn1; [|done]. injection Ha1 as Happ Hconf.
      assert (app_table s3 !! n = Some a1) as Hn3'.
      { apply Ho3. rewrite Hs2. apply surviving_spec. split; [done|]. apply same_conf_spec. exists c. by rewrite <-Hconf. }
      specialize (Ha4 n). rewrite Hn3' in Ha4. destruct (app_table s4 !! n) as [a4|]; [|done].
      injection Ha4 as Happ4 _. exists a4. split; [done|]. congruence.
    + intros link l Hlink Hl. apply (Hk4 link l); [|done]. split; [by eapply elem_of_dom_2|done].
    + done.
Qed.
End network.
