(* ===== verification/Breathe.v ===== *)
(** * engine.rs: breathe, pace_breathing, main, timers

    The loop of the engine.  Sleeping and printing have no effect on the state;
    the reports that main prints are in Report.v. *)

From S2P Require Import Prelude Packet App Engine Interface BreatheOrder Report Configure Reconfigure.
From S2P Require Link Config.
#[local] Open Scope Z_scope.

Section breathe.
Context `{HashOrder} {C T : Type} `{App T} `{AppConfig C T}.
Abbreviation EngineState := (EngineState C T).
Implicit Types (s : EngineState).

(** let app = state().app_table.get(name).unwrap(); app.app.f(&app) *)
Definition call (f : T → Ports → ST World T) (name : string) : ST EngineState () :=
  a ← get_app name;
  t ← in_world (f (app a) (ports a));
  put_app name (mkAppState t (conf a) (ports a)).

Definition add_breath : ST pstate () := modify (λ m,
  let st := STATS m in
  set_STATS (mkEngineStats (u64 (breaths st + 1)) (frees st) (freebits st) (freebytes st)) m).

(** Perform a single breath (inhale / exhale) *)
Definition breathe : ST EngineState () :=
  t ← in_world Instant_now;
  in_world (modify (set_now (Some t)));;
  s ← get;
  for_st (inhale s) (call pull);;
  for_st (exhale s) (call push);;
  in_world (on_mem add_breath).

Definition MAXSLEEP : Z := 100.

(** Breathing regulation; the result is the time to sleep, in microseconds. *)
Definition pace_breathing : ST EngineState (option Z) :=
  s ← get;
  let freed := frees (STATS (mem (world s))) in
  if LASTFREES s =? freed then
    let sleep := Z.min (u64 (SLEEP s + 1)) MAXSLEEP in
    put (set_pace freed sleep s);;
    mret (Some sleep)
  else
    put (set_pace freed (SLEEP s / 2) s);;
    mret None.

(** A closure that returns true after [duration]. *)
Definition timeout (duration : Z) : ST EngineState (ST EngineState bool) :=
  t ← in_world now;
  deadline ← lift (instant_add t duration);
  mret (t ← in_world now; mret (t >? deadline)).

(** A throttle keeps its deadline. *)
Definition throttle : ST EngineState Z := in_world now.
Definition throttled (duration : Z) (deadline : Z) : ST EngineState (bool * Z) :=
  t ← in_world now;
  if t >? deadline then
    t ← in_world now;
    deadline ← lift (instant_add t duration);
    mret (true, deadline)
  else mret (false, deadline).

Record Options : Type := mkOptions {
  done : option (ST EngineState bool);
  duration : option Z;
  no_report : bool;
  want_load : bool;
  want_links : bool;
  want_apps : bool
}.
Definition default_options : Options := mkOptions None None false false false false.

(** The condition of the breathe loop. *)
Definition until (options : Options) : ST EngineState (option (ST EngineState bool)) :=
  match duration options with
  | Some d =>
      match done options with
      | Some _ => panic "You can not have both 'duration' and 'done'"
      | None => f ← timeout d; mret (Some f)
      end
  | None => mret (done options)
  end.

Definition not_done (f : option (ST EngineState bool)) : ST EngineState bool :=
  match f with
  | Some f => b ← f; mret (negb b)
  | None => mret true
  end.

(** The reports are printed. *)
Definition reports (options : Options) : ST EngineState () :=
  if no_report options then mret tt else
    (if want_load options then report_load;; mret tt else mret tt);;
    (if want_links options then report_links;; mret tt else mret tt);;
    (if want_apps options then report_apps;; mret tt else mret tt).

(** [fuel] bounds the number of breaths after the first one. *)
Definition main (fuel : nat) (options : option Options) : ST EngineState () :=
  let options := default default_options options in
  f ← until options;
  breathe;;
  while_st fuel (λ _, not_done f) (λ _, pace_breathing;; breathe) tt;;
  reports options;;
  in_world (modify (set_now None)).

(** No report was asked for. *)
Definition silent (options : Options) : Prop :=
  no_report options || negb (want_load options || want_links options || want_apps options) = true.

Lemma reports_silent options s : silent options → reports options s = Ok (tt, s).
Proof. unfold silent, reports. by destruct options as [? ? [] [] [] []]. Qed.
End breathe.

(** ** Pacing *)

Lemma pace_eq {C T : Type} (s : EngineState C T) :
  let freed := frees (STATS (mem (world s))) in
  pace_breathing s =
    if LASTFREES s =? freed
    then let sleep := Z.min (u64 (SLEEP s + 1)) MAXSLEEP in Ok (Some sleep, set_pace freed sleep s)
    else Ok (None, set_pace freed (SLEEP s / 2) s).
Proof. unfold pace_breathing, mbind, st_bind. simpl. by destruct (_ =? _). Qed.

(** C27. Breathing is regulated: while packets are freed the engine does not sleep,
    and the sleep of idle breaths is halved every time; after [n + 1] idle
    breaths in a row it sleeps one microsecond longer for each, up to 100. *)
Theorem pace_regulates {C T : Type} (s : EngineState C T) (n : nat) :
  let freed := frees (STATS (mem (world s))) in
  0 ≤ SLEEP s ≤ MAXSLEEP →
  (LASTFREES s ≠ freed → pace_breathing s = Ok (None, set_pace freed (SLEEP s / 2) s) ∧
     0 ≤ SLEEP s / 2 ≤ MAXSLEEP / 2) ∧
  (LASTFREES s = freed → ∃ s', repeat_st n (pace_breathing;; mret tt) s = Ok (tt, s') ∧
     let sleep := Z.min (SLEEP s + Z.of_nat (S n)) MAXSLEEP in
     pace_breathing s' = Ok (Some sleep, set_pace freed sleep s) ∧ 0 < sleep ≤ MAXSLEEP).
Proof.
  intros freed Hs. unfold MAXSLEEP in *. split.
  - intros Hne. split; [|word]. rewrite pace_eq. fold freed. by rewrite (proj2 (Z.eqb_neq _ _)).
  - intros Heq. assert (∀ k, 0 ≤ k ≤ 100 → pace_breathing (set_pace freed k s) =
      Ok (Some (Z.min (k + 1) 100), set_pace freed (Z.min (k + 1) 100) s)) as Hstep.
    { intros k Hk. rewrite pace_eq. simpl. fold freed. rewrite Z.eqb_refl, u64_id by (unfold is_u64; lia). done. }
    assert (∀ k, 0 ≤ k ≤ 100 → repeat_st n (pace_breathing;; mret tt) (set_pace freed k s) =
      Ok (tt, set_pace freed (Z.min (k + Z.of_nat n) 100) s)) as Hloop.
    { induction n as [|m IH]; intros k Hk; simpl.
      - rewrite Z.add_0_r, Z.min_l by lia. done.
      - unfold mbind at 1, st_bind at 1. unfold mbind at 1, st_bind at 1.
        rewrite Hstep by done. simpl. rewrite IH by lia.
        replace (Z.min (Z.min (k + 1) 100 + Z.of_nat m) 100) with (Z.min (k + Z.of_nat (S m)) 100) by lia. done. }
    assert (s = set_pace freed (SLEEP s) s) as Hself.
    { unfold freed in *. clear -Heq. destruct s. simpl in *. by subst. }
    eexists. split; [rewrite Hself at 1; by apply Hloop|]. simpl. split; [|lia].
    rewrite Hstep by lia. replace (Z.min (Z.min (SLEEP s + Z.of_nat n) 100 + 1) 100)
      with (Z.min (SLEEP s + Z.of_nat (S n)) 100) by lia. done.
Qed.

(** ** Callbacks *)

Section callbacks.
Context `{HashOrder} {C T : Type} `{App T} `{AppConfig C T} (P : Packet → Prop) (E : string → Prop).
Context `{!AppLaws P E C T}.
Abbreviation EngineState := (EngineState C T).
Implicit Types (s : EngineState) (R : gmap string res).

(** An app before and after callbacks. *)
Definition same_app (a a' : AppState C T) : Prop :=
  conf a' = conf a ∧ ports a' = ports a ∧ same_kind (app a) (app a').

(** What callbacks leave alone. *)
Record stepped s s' : Prop := {
  st_links : link_table s' = link_table s;
  st_apps : ∀ n, option_relation same_app (λ _, False) (λ _, False) (app_table s !! n) (app_table s' !! n);
  st_inhale : inhale s' = inhale s;
  st_exhale : exhale s' = exhale s;
  st_pace : LASTFREES s' = LASTFREES s ∧ SLEEP s' = SLEEP s;
  st_now : MONOTONIC_NOW (world s') = MONOTONIC_NOW (world s);
  st_clock : clock (world s') = clock (world s) ∧ ticks (world s') = ticks (world s);
}.

#[export] Instance same_app_preorder : PreOrder same_app.
Proof.
  split; [by intros a; repeat split|].
  intros a b c (? & ? & ? & ?) (? & ? & ? & ?). repeat split; congruence.
Qed.

#[export] Instance stepped_preorder : PreOrder stepped.
Proof.
  split.
  - intros s. split; try done. intros n. by destruct (app_table s !! n); simpl.
  - intros s1 s2 s3 [L1 A1 I1 X1 [P1 P1'] N1 [C1 T1]] [L2 A2 I2 X2 [P2 P2'] N2 [C2 T2]].
    split; try (split; congruence); try congruence.
    intros n. specialize (A1 n). specialize (A2 n).
    destruct (app_table s1 !! n), (app_table s2 !! n), (app_table s3 !! n); simpl in *; try done. by etrans.
Qed.

Lemma stepped_timed s s' : stepped s s' → timed (world s) → timed (world s').
Proof. intros Hs. unfold timed. by rewrite (st_now _ _ Hs). Qed.

Lemma stepped_lookup s s' n a : stepped s s' → app_table s !! n = Some a →
  ∃ a', app_table s' !! n = Some a' ∧ same_app a a'.
Proof.
  intros Hs Hn. pose proof (st_apps _ _ Hs n) as Ha. rewrite Hn in Ha.
  destruct (app_table s' !! n) as [a'|]; [|done]. by exists a'.
Qed.

Lemma apps_fit s s' :
  all_fit P E s →
  (∀ n, option_relation same_app (λ _, False) (λ _, False) (app_table s !! n) (app_table s' !! n)) →
  all_fit P E s'.
Proof.
  intros Hf Ha n a' Hn. specialize (Ha n). rewrite Hn in Ha. destruct (app_table s !! n) as [a|] eqn:Ho; [|done].
  destruct Ha as (-> & -> & _). by apply Hf in Ho.
Qed.

Lemma stepped_pushes s s' n : stepped s s' → pushes (app_table s) n → pushes (app_table s') n.
Proof.
  intros Hs (a & Ha & Hp). destruct (stepped_lookup _ _ _ _ Hs Ha) as (a' & Ha' & _ & _ & _ & Hk).
  exists a'. split; [done|]. congruence.
Qed.

(** The wiring of an app of a consistent network. *)
Lemma consistent_ports s Q R n a :
  consistent P E s Q R → app_table s !! n = Some a → ports_ok (ports a) Q.
Proof.
  intros [He [Ho Hi] _ Hij Hwf] Hn.
  assert (∀ l, val (link_table s) l → is_Some (Q !! l)) as Hq.
  { intros l Hl. apply (ei_refs _ _ _ _ _ _ He). left. apply elem_of_refs. by left. }
  split.
  - intros p l Hp. destruct (Hi _ _ _ _ Hn Hp) as (link & spec & Hl & _). apply Hq. by exists link.
  - intros p l Hp. destruct (Ho _ _ _ _ Hn Hp) as (link & spec & Hl & _). apply Hq. by exists link.
  - intros p p' l Hp Hp'. destruct (Hi _ _ _ _ Hn Hp) as (k & spec & Hl & Hk & _ & <-).
    destruct (Hi _ _ _ _ Hn Hp') as (k' & spec' & Hl' & Hk' & _ & <-).
    rewrite (Hij _ _ _ Hl Hl') in Hk. congruence.
  - intros p p' l Hp Hp'. destruct (Ho _ _ _ _ Hn Hp) as (k & spec & Hl & Hk & _ & <-).
    destruct (Ho _ _ _ _ Hn Hp') as (k' & spec' & Hl' & Hk' & _ & <-).
    rewrite (Hij _ _ _ Hl Hl') in Hk. congruence.
  - intros p p' l Hp Hp'. destruct (Hi _ _ _ _ Hn Hp) as (k & spec & Hl & Hk & Ht & _).
    destruct (Ho _ _ _ _ Hn Hp') as (k' & spec' & Hl' & Hk' & Hf & _).
    pose proof (Hij _ _ _ Hl Hl') as <-. assert (spec' = spec) as -> by congruence.
    destruct (wl_spec _ _ Hwf k) as (spec' & Hk'' & _ & _ & Hne); [by eapply elem_of_dom_2|].
    assert (spec' = spec) as -> by congruence. congruence.
Qed.

(** Replacing an app by its next state. *)
Lemma consistent_put s Q R n a t w' Q' r' :
  consistent P E s Q R → app_table s !! n = Some a → same_kind (app a) t →
  owns (conf a) t r' → dom Q' = dom Q → rinv P Q' (r' ⊎ total (delete n R)) w' →
  let s' := set_app_table (<[n := mkAppState t (conf a) (ports a)]> (app_table s)) (set_world w' s) in
  consistent P E s' Q' (<[n := r']> R).
Proof.
  intros [[Hw Ha Hr] [Ho Hi] [Hco Hci] Hij Hwf] Hn Hk Hown Hd Hw'. 
  assert (∀ m b, <[n := mkAppState t (conf a) (ports a)]> (app_table s) !! m = Some b →
    ∃ b', app_table s !! m = Some b' ∧ ports b' = ports b) as Hports.
  { intros m b [[<- <-]|[_ Hm]]%lookup_insert_Some; [by exists a|by exists b]. }
  split; simpl.
  - split; simpl.
    + eapply rinv_equiv; [exact Hw'|]. rewrite <-total_insert by apply lookup_delete_eq.
      by rewrite insert_delete_eq.
    + by apply owned_by_insert.
    + intros l. rewrite <-elem_of_dom, Hd, elem_of_dom, Hr, (elem_of_refs_app s n a) by done.
      change (set_app_table (<[n:=mkAppState t (conf a) (ports a)]> (app_table s)) (set_world w' s))
        with (set_world w' (set_app_table (<[n:=mkAppState t (conf a) (ports a)]> (app_table s)) s)).
      assert (∀ x, l ∈ refs (set_world w' x) ↔ l ∈ refs x) as -> by done.
      rewrite (elem_of_refs_put s n a) by done. by rewrite !elem_of_port_refs.
  - split; intros m b p l Hm Hp; destruct (Hports _ _ Hm) as (b' & Hb' & Heq); rewrite <-Heq in Hp;
      [by eapply Ho|by eapply Hi].
  - split; intros link m b p l HD Hl Hm; destruct (Hports _ _ Hm) as (b' & Hb' & <-);
      [by eapply Hco|by eapply Hci].
  - done.
  - rewrite dom_insert_L. assert ({[n]} ∪ dom (app_table s) = dom (app_table s)) as ->; [|done].
    apply elem_of_dom_2 in Hn. set_solver.
Qed.

(** The promise of one of the callbacks, as in [AppLaws]. *)
Definition callback_law (f : T → Ports → ST World T) (c : C) (t : T) : Prop := ∀ r ports Q (R0 : res) w,
  owns c t r → rinv P Q (r ⊎ R0) w → ports_ok ports Q →
  fits (P := P) (E := E) c (inputs ports) (outputs ports) → timed w →
  wpx E (f t ports) (λ t' w', ∃ r' Q', owns c t' r' ∧ same_kind t t' ∧
    callback_post P Q (r ⊎ R0) w Q' (r' ⊎ R0) w') w.

Lemma call_wp f n s Q R a :
  consistent P E s Q R → all_fit P E s → timed (world s) →
  app_table s !! n = Some a → callback_law f (conf a) (app a) →
  wpx E (call f n) (λ _ s', ∃ Q' R', consistent P E s' Q' R' ∧ stepped s s') s.
Proof.
  intros Hc Hfit Hnow Hn Hlaw. pose proof (consistent_ports _ _ _ _ _ Hc Hn) as Hp.
  pose proof (cn_inv _ _ _ _ _ Hc) as [Hw Ha Hr].
  destruct (owned_by_lookup P E _ _ _ _ Ha Hn) as (r & HRn & Hown).
  unfold call. apply wpx_bind. eapply get_app_wp; [exact Hn|]. apply wpx_bind, wpx_in_world.
  eapply wpx_mono; [eapply (Hlaw r (ports a) Q (total (delete n R))); [done| |done|exact (Hfit n a Hn)|done]|].
  { eapply rinv_equiv; [exact Hw|]. by apply total_delete. }
  intros t w' (r' & Q' & Hown' & Hk & [Hw' Hd Hnow' [Hclk Htck]]). apply wpx_modify.
  exists Q', (<[n:=r']> R). split; [by eapply (consistent_put s Q R n a)|].
  split; try done. intros m. simpl. destruct (decide (m = n)) as [->|Hne].
  - rewrite lookup_insert_eq, Hn. split; [done|]. split; [done|exact Hk].
  - rewrite lookup_insert_ne by done. by destruct (app_table s !! m).
Qed.

(** One kind of callback, on all the apps of a list that have it. *)
Lemma call_all_wp f (has : T → bool) names s Q R :
  (∀ c t, has t = true → callback_law f c t) →
  (∀ t t', same_kind t t' → has t' = has t) →
  consistent P E s Q R → all_fit P E s → timed (world s) →
  (∀ n, n ∈ names → ∃ a, app_table s !! n = Some a ∧ has (app a) = true) →
  wpx E (for_st names (call f)) (λ _ s', ∃ Q' R', consistent P E s' Q' R' ∧ stepped s s') s.
Proof.
  intros Hlaw Hhas Hc Hfit Hnow Hn. eapply wpx_mono.
  - eapply (for_st_inv E _ (λ ds rest s', ds ++ rest = names ∧ ∃ Q' R', consistent P E s' Q' R' ∧ stepped s s'))
      with (xs := names) (done := []).
    2: { split; [done|]. by exists Q, R. }
    intros ds n rest s1 (Heq & Q1 & R1 & Hc1 & Hs1). rewrite <-app_assoc.
    destruct (Hn n) as (a & Ha & Hp); [rewrite <-Heq; set_solver|].
    destruct (stepped_lookup _ _ _ _ Hs1 Ha) as (a1 & Ha1 & _ & _ & Hk).
    eapply wpx_mono; [apply (call_wp f n s1 Q1 R1 a1); [done|by eapply apps_fit, st_apps|by eapply stepped_timed|done|]|].
    + apply Hlaw. by rewrite (Hhas _ _ Hk).
    + intros _ s2 (Q2 & R2 & Hc2 & Hs2). split; [done|]. exists Q2, R2. split; [done|by etrans].
  - by intros _ s' (_ & Hs').
Qed.

(** *** Breaths *)

(** Changes of the world that no resource depends on. *)
Definition same_resources (w w' : World) : Prop :=
  heap (mem w') = heap (mem w) ∧ FL (mem w') = FL (mem w) ∧ next_loc (mem w') = next_loc (mem w) ∧
  PACKETS_ALLOCATED (mem w') = PACKETS_ALLOCATED (mem w) ∧
  PACKET_ALLOCATION_STEP (mem w') = PACKET_ALLOCATION_STEP (mem w) ∧
  links w' = links w ∧ borrowed w' = borrowed w ∧ profiles w' = profiles w ∧ clock w' = clock w ∧
  syscalls w' = syscalls w.

Lemma consistent_world s Q R w' :
  consistent P E s Q R → same_resources (world s) w' → consistent P E (set_world w' s) Q R.
Proof.
  intros [[Hw Ha Hr] ? ? ? ?] (Hh & Hf & Hnx & Hpa & Hps & Hl & Hb & Hp & Hk & Hsc). split; try done. split; try done. simpl.
  destruct Hw as [[Hls Hm] Hg Hi Hnd Hmp Hck Hsent].
  split; [|done|by rewrite Hb|done|by rewrite Hp|by rewrite Hk|by rewrite Hsc].
  split; [by rewrite Hl|]. by eapply Mem_stats.
Qed.

(** The network before and after breaths. *)
Record breathed s s' : Prop := {
  br_links : link_table s' = link_table s;
  br_apps : ∀ n, option_relation same_app (λ _, False) (λ _, False) (app_table s !! n) (app_table s' !! n);
  br_order : inhale s' = inhale s ∧ exhale s' = exhale s;
  br_clock : clock (world s') = clock (world s);
}.

#[export] Instance breathed_preorder : PreOrder breathed.
Proof.
  split.
  - intros s. split; try done. intros n. by destruct (app_table s !! n).
  - intros s1 s2 s3 [L1 A1 [I1 X1] C1] [L2 A2 [I2 X2] C2]. split; try (split; congruence); try congruence.
    intros n. specialize (A1 n). specialize (A2 n).
    destruct (app_table s1 !! n), (app_table s2 !! n), (app_table s3 !! n); simpl in *; try done. by etrans.
Qed.

Lemma stepped_breathed s s' : stepped s s' → breathed s s'.
Proof. intros [? ? ? ? ? ? []]. by split. Qed.

Lemma breathed_intro s s' :
  link_table s' = link_table s → app_table s' = app_table s → inhale s' = inhale s → exhale s' = exhale s →
  clock (world s') = clock (world s) → breathed s s'.
Proof.
  intros ? Ha ???. split; try done. intros n. rewrite Ha. destruct (app_table s !! n); simpl; [reflexivity|done].
Qed.

(** A network ready to breathe: the breathe order names apps with callbacks, and
    apps are wired as they may be. *)
Record ready s Q R : Prop := {
  rd_consistent : consistent P E s Q R;
  rd_inhale : ∀ n, n ∈ inhale s → pulls (app_table s) n;
  rd_exhale : ∀ n, n ∈ exhale s → pushes (app_table s) n;
  rd_fits : all_fit P E s;
}.

Lemma breathed_kind s s' n : breathed s s' →
  (pulls (app_table s) n → pulls (app_table s') n) ∧ (pushes (app_table s) n → pushes (app_table s') n).
Proof.
  intros Hs. pose proof (br_apps _ _ Hs n) as Ha. split; intros (a & Hn & Hp); rewrite Hn in Ha;
    (destruct (app_table s' !! n) as [a'|] eqn:Hn'; [|done]); destruct Ha as (_ & _ & Hk1 & Hk2);
    exists a'; (split; [done|congruence]).
Qed.

Lemma ready_breathed s s' Q R Q' R' : ready s Q R → breathed s s' → consistent P E s' Q' R' → ready s' Q' R'.
Proof.
  intros [_ Hi Hx Hf] Hb Hc. destruct (br_order _ _ Hb) as [HI HX].
  split; [done| | |by eapply apps_fit, br_apps]; intros n; rewrite ?HI, ?HX; intros Hn; eapply breathed_kind; eauto.
Qed.

Lemma breathe_wp s Q R :
  ready s Q R →
  wpx E breathe (λ _ s', ∃ Q' R', ready s' Q' R' ∧ breathed s s' ∧
    LASTFREES s' = LASTFREES s ∧ SLEEP s' = SLEEP s ∧
    MONOTONIC_NOW (world s') = Some (clock (world s) (ticks (world s))) ∧
    ticks (world s') = S (ticks (world s))) s.
Proof.
  intros Hrd. pose proof Hrd as [Hc Hi Hx Hf]. unfold breathe, Instant_now.
  apply wpx_bind, wpx_in_world. unfold wpx at 1. apply wpx_bind, wpx_in_world, wpx_modify. simpl.
  apply wpx_bind, wpx_get.
  set (s1 := set_world _ (set_world _ s)).
  assert (consistent P E s1 Q R) as Hc1 by (by apply (consistent_world s)).
  assert (breathed s s1) as Hb1 by by apply breathed_intro.
  assert (timed (world s1)) as Ht1.
  { eexists. split; [done|]. apply (ri_clock _ _ _ _ (ei_world _ _ _ _ _ _ (cn_inv _ _ _ _ _ Hc))). }
  apply wpx_bind. eapply wpx_mono; [apply (call_all_wp pull has_pull _ s1 Q R)|]; [|by intros ?? []|done|done|done|done|].
  { intros c t Ht r ports Q' R0 w Ho Hw Hp Hfit Hn. by apply pull_law. }
  intros _ s2 (Q2 & R2 & Hc2 & Hs2).
  apply wpx_bind. eapply wpx_mono; [apply (call_all_wp push has_push _ s2 Q2 R2)|]; [|by intros ?? []|done| | | |].
  { intros c t Ht r ports Q' R0 w Ho Hw Hp Hfit Hn. by apply push_law. }
  { by eapply (apps_fit s1), st_apps. }
  { by eapply stepped_timed. }
  { intros n Hn. eapply stepped_pushes; [exact Hs2|]. by apply Hx. }
  intros _ s3 (Q3 & R3 & Hc3 & Hs3). apply wpx_in_world, wpx_on_mem, wpx_modify.
  pose proof (stepped_breathed _ _ Hs2) as Hb2. pose proof (stepped_breathed _ _ Hs3) as Hb3.
  exists Q3, R3.
  set (s4 := set_world _ s3).
  assert (breathed s3 s4) as Hb4 by by apply breathed_intro.
  assert (breathed s s4) as Hb by (etrans; [exact Hb1|etrans; [exact Hb2|by etrans]]).
  split; [eapply ready_breathed; [exact Hrd|done|by apply (consistent_world s3)]|].
  split; [done|]. destruct Hs2 as [_ _ _ _ [P2 P2'] N2 [_ T2]], Hs3 as [_ _ _ _ [P3 P3'] N3 [_ T3]].
  simpl. rewrite P3, P2, P3', P2', N3, N2, T3, T2. by split_and!.
Qed.

Lemma ready_reported s Q R r : ready s Q R → ready (set_reported r s) Q R.
Proof. intros [[[Hw Ha Hr] ? ? ? ?] Hi Hx Hf]. by split; [split; [split|..]|..]. Qed.

Lemma pace_wp s Q R :
  ready s Q R →
  wpx E pace_breathing (λ _ s', ready s' Q R ∧ breathed s s' ∧ world s' = world s) s.
Proof.
  intros [Hc Hi Hx Hf]. unfold pace_breathing. apply wpx_bind, wpx_get.
  assert (∀ f z, ready (set_pace f z s) Q R ∧ breathed s (set_pace f z s) ∧ world (set_pace f z s) = world s) as Hgo.
  { intros f z. split_and!; [|by apply breathed_intro|done].
    split; [|done|done|done]. destruct Hc as [[Hw Ha Hr] ? ? ? ?]. by split. }
  destruct (_ =? _); apply wpx_bind, wpx_put, wpx_ret, Hgo.
Qed.
End callbacks.
