(* ===== verification/Network.v ===== *)
(** * engine.rs: what the engine guarantees of a whole run

    The theorems about configure, breathe and main, for apps
    that keep their contract ([AppLaws]). *)

From S2P Require Import Prelude Packet Kernel App Engine Interface BreatheOrder Report Configure Reconfigure Breathe.
From S2P Require Link Config.
#[local] Open Scope Z_scope.

Section network.
Context `{HashOrder} {C T : Type} `{App T} `{AppConfig C T} (P : Packet → Prop) (E : string → Prop).
Context `{!AppLaws P E C T}.
Abbreviation EngineState := (EngineState C T).
Implicit Types (s : EngineState) (R : gmap string res) (config : Config.Config C).

(** The states of a process: any sequence of calls of the engine. *)
Inductive runs : EngineState → Prop :=
  | runs_start clk r : (∀ k, is_instant (clk k)) → runs (init_engine None clk r)
  | runs_configure config s s' : runs s → wf_config P E config → configure config s = Ok (tt, s') → runs s'
  | runs_breathe s s' : runs s → breathe s = Ok (tt, s') → runs s'
  | runs_pace s sleep s' : runs s → pace_breathing s = Ok (sleep, s') → runs s'
  | runs_now s t s' : runs s → in_world now s = Ok (t, s') → runs s'
  | runs_reset s s' : runs s → in_world (modify (set_now None)) s = Ok (tt, s') → runs s'.

(** It returns or panics with a message of [E]; it is never undefined, and its
    loops end. *)
Definition safe {A} (m : ST EngineState A) s : Prop := wpx E m (λ _ _, True) s.

Lemma wpx_safe {A} (m : ST EngineState A) Φ s : wpx E m Φ s → safe m s.
Proof. intros Hm. by eapply wpx_mono. Qed.

Lemma configured_ready config s Q s' Q' R' :
  wf_config P E config → consistent P E s' Q' R' → configured config s Q s' Q' → ready P E s' Q' R'.
Proof.
  intros Hwf Hc Hcf. pose proof Hcf as [_ _ _ _ _ Hi Hx _].
  split; [done|intros n; by apply Hi| |by eapply configured_fits].
  intros n Hn. apply Hx in Hn. by inversion Hn.
Qed.

Lemma ready_world s Q R w' : ready P E s Q R → same_resources (world s) w' → ready P E (set_world w' s) Q R.
Proof. intros [Hc Hi Hx Hf] Hw. split; [by apply consistent_world|done..]. Qed.

Lemma now_wp E' w : wpx E' now (λ _ w', same_resources w w') w.
Proof. unfold now. apply wpx_bind, wpx_get. by destruct (MONOTONIC_NOW w). Qed.

Lemma runs_ready s : runs s → ∃ Q R, ready P E s Q R.
Proof.
  induction 1 as [clk r Hck|config s s' _ (Q & R & Hr) Hwf Heq|s s' _ (Q & R & Hr) Heq|s d s' _ (Q & R & Hr) Heq|
    s t s' _ (Q & R & Hr) Heq|s s' _ (Q & R & Hr) Heq].
  - exists ∅, ∅. split; [by apply init_consistent|by intros n ?%not_elem_of_nil..|by intros n a ?%(lookup_empty_Some (M := gmap string) n a)].
  - destruct (wpx_ok _ _ _ _ _ _ (configure_wp P E config s Q R (rd_consistent _ _ _ _ _ Hr) Hwf) Heq)
      as (Q' & R' & Hc' & Hcf). exists Q', R'. by eapply configured_ready.
  - destruct (wpx_ok _ _ _ _ _ _ (breathe_wp P E s Q R Hr) Heq) as (Q' & R' & Hr' & _). by exists Q', R'.
  - destruct (wpx_ok _ _ _ _ _ _ (pace_wp P E s Q R Hr) Heq) as (Hr' & _). by exists Q, R.
  - exists Q, R. eapply (wpx_ok E (in_world now) (λ _ s', ready P E s' Q R) s); [|exact Heq].
    apply wpx_in_world. eapply wpx_mono; [apply now_wp|]. intros ? w' Hw. by apply ready_world.
  - exists Q, R. injection Heq as <-. by apply ready_world.
Qed.

(** Every packet that was ever allocated is on the freelist, on a link or held
    by an app. *)
Definition accounted s (Q : queues) R : Prop :=
  nfree (FL (mem (world s))) + Z.of_nat (length (on_links Q)) + Z.of_nat (length (r_packets (total R))) =
    PACKETS_ALLOCATED (mem (world s)).

Lemma ready_accounted s Q R : ready P E s Q R → accounted s Q R.
Proof.
  intros [[[[[_ [Hi _]] _ _ _ _ _] _ _] _ _ _ _] _ _ _]. destruct Hi as [[(l & [Hn _] & Hp & _) _ _ _] Hcount _].
  unfold accounted. rewrite <-Hcount, Hn. apply Permutation_length in Hp.
  rewrite !length_app, length_fmap, length_app in Hp.
  change (length (elements (dom (heap (mem (world s)))))) with (size (dom (heap (mem (world s))))) in Hp.
  rewrite size_dom in Hp. lia.
Qed.

(** All that was written to devices satisfies what the apps preserve. *)
Lemma ready_sent s Q R : ready P E s Q R → Forall (sendable P) (written (syscalls (world s))).
Proof. intros [[[Hw _ _] _ _ _ _] _ _ _]. apply Hw. Qed.

(** *** main *)

(** The state during main, after the breath at time [clock (world s0) k]. *)
Record breathing s0 (k : nat) s : Prop := {
  bg_ready : ∃ Q R, ready P E s Q R;
  bg_breathed : breathed s0 s;
  bg_now : MONOTONIC_NOW (world s) = Some (clock (world s0) k);
  bg_ticks : ticks (world s) = S k;
}.

Lemma first_breath s0 k s Q R :
  ready P E s Q R → breathed s0 s → ticks (world s) = k → wpx E breathe (λ _ s', breathing s0 k s') s.
Proof.
  intros Hr Hb Ht. eapply wpx_mono; [by apply (breathe_wp P E s Q R)|].
  intros ? s' (Q' & R' & Hr' & Hb' & _ & _ & Hnow & Ht'). split; [by exists Q', R'|by etrans| |congruence].
  rewrite Hnow, (br_clock _ _ Hb). by rewrite Ht.
Qed.

Lemma next_breath s0 k s : breathing s0 k s → wpx E (pace_breathing;; breathe) (λ _ s', breathing s0 (S k) s') s.
Proof.
  intros [(Q & R & Hr) Hb Hnow Ht]. apply wpx_bind. eapply wpx_mono; [by apply (pace_wp P E s Q R)|].
  intros ? s1 (Hr1 & Hb1 & Hw). eapply first_breath; [done|by etrans|congruence].
Qed.

(** The condition of the loop, asked after breath [k], is [stop k]; it has no
    effect. *)
Definition polls s0 (poll : ST EngineState bool) (stop : nat → bool) : Prop :=
  ∀ k s, breathing s0 k s → poll s = Ok (stop k, s).

(** The first breath from [k] on after which the loop ends is [k + n]. *)
Definition first_stop (stop : nat → bool) (k n : nat) : Prop :=
  stop (k + n)%nat = true ∧ ∀ j, (j < n)%nat → stop (k + j)%nat = false.

Lemma first_stop_exists stop k n : stop (k + n)%nat = true → ∃ m, (m ≤ n)%nat ∧ first_stop stop k m.
Proof.
  induction (lt_wf n) as [n _ IH]. intros Hn.
  destruct (decide (Forall (λ j, stop (k + j)%nat = false) (seq 0 n))) as [Hall|Hnot].
  - exists n. split; [done|]. split; [done|]. intros j Hj. rewrite Forall_forall in Hall.
    apply Hall. apply elem_of_seq. lia.
  - apply not_Forall_Exists in Hnot; [|apply _]. apply Exists_exists in Hnot as (j & Hj & Hst).
    apply elem_of_seq in Hj. apply not_false_is_true in Hst.
    destruct (IH j) as (m & Hm & Hp); [lia|done|]. exists m. split; [lia|done].
Qed.

Lemma not_done_wp s0 poll stop k s Φ :
  polls s0 poll stop → breathing s0 k s → Φ (negb (stop k)) s → wpx E (not_done (Some poll)) Φ s.
Proof. intros Hp Hb HΦ. unfold not_done, wpx, mbind, st_bind. by rewrite (Hp k s Hb). Qed.

Lemma main_loop s0 poll stop n : polls s0 poll stop → ∀ fuel k s,
  breathing s0 k s → first_stop stop k n → (n ≤ fuel)%nat →
  wpx E (while_st fuel (λ _, not_done (Some poll)) (λ _, pace_breathing;; breathe) tt)
    (λ _ s', breathing s0 (k + n) s') s.
Proof.
  intros Hpoll. induction n as [|n IH]; intros fuel k s Hb [Hlast Hbefore] Hf.
  - rewrite Nat.add_0_r in *. destruct fuel; simpl; apply wpx_bind; (eapply not_done_wp; [done|exact Hb|]);
      rewrite Hlast; simpl; by apply wpx_ret.
  - destruct fuel as [|fuel]; [lia|]. simpl. apply wpx_bind. eapply not_done_wp; [done|exact Hb|].
    assert (stop k = false) as -> by (rewrite <-(Nat.add_0_r k); apply Hbefore; lia). simpl.
    apply wpx_bind. eapply wpx_mono; [by apply next_breath|]. intros [] s' Hb'.
    rewrite <-Nat.add_succ_comm in *. apply IH; [done| |lia]. split; [done|].
    intros j Hj. specialize (Hbefore (S j)). rewrite <-Nat.add_succ_comm in Hbefore. apply Hbefore. lia.
Qed.

(** The first breath, the loop, and the end of main. *)
Lemma main_run s0 poll stop s Q R n fuel options :
  silent options → ready P E s Q R → breathed s0 s → polls s0 poll stop → first_stop stop (ticks (world s)) n → (n ≤ fuel)%nat →
  wpx E (breathe;; while_st fuel (λ _, not_done (Some poll)) (λ _, pace_breathing;; breathe) tt;;
         reports options;; in_world (modify (set_now None)))
    (λ _ s', ∃ Q' R', ready P E s' Q' R' ∧ breathed s0 s' ∧ accounted s' Q' R' ∧
      MONOTONIC_NOW (world s') = None ∧ ticks (world s') = S (ticks (world s) + n)) s.
Proof.
  intros Hsil Hr Hb Hp Hn Hf. apply wpx_bind. eapply wpx_mono; [by apply (first_breath s0 (ticks (world s)) s Q R)|].
  intros [] s2 Hb2. apply wpx_bind. eapply wpx_mono; [by apply (main_loop s0 poll stop n)|].
  intros [] s3 [(Q' & R' & Hr3) Hb3 Hnow3 Ht3]. apply wpx_bind. unfold wpx at 1. rewrite reports_silent by done.
  apply wpx_in_world, wpx_modify.
  assert (ready P E (set_world (set_now None (world s3)) s3) Q' R') as Hr4 by by apply ready_world.
  exists Q', R'. split_and!; [done| |by apply ready_accounted|done|done].
  etrans; [exact Hb3|]. by apply breathed_intro.
Qed.

(** The loop ends with the first breath after the deadline. *)
Definition past (clk : nat → Z) (deadline : Z) (k n : nat) : Prop :=
  deadline < clk (k + n)%nat ∧ ∀ j, (j < n)%nat → clk (k + j)%nat ≤ deadline.

Lemma past_stop clk deadline k n : past clk deadline k n ↔ first_stop (λ k, clk k >? deadline) k n.
Proof.
  unfold past, first_stop. f_equiv; [lia|]. apply forall_proper. intros j.
  split; intros Hx Hj; specialize (Hx Hj); lia.
Qed.

Lemma timeout_polls s0 deadline : polls s0 (t ← in_world now; mret (t >? deadline)) (λ k, clock (world s0) k >? deadline).
Proof.
  intros k s [_ _ Hnow _]. unfold now, mbind, st_bind, in_world, get. simpl. rewrite Hnow. simpl. by destruct s.
Qed.

(** C8. main with a duration returns: if the clock passes the deadline (the time
    of the call plus the duration) within as many breaths as there is fuel, then
    the engine stops after the first breath that starts past the deadline,
    having taken no breath more; the network is as it was, its packets
    accounted for, and now() no longer answers with the time of a breath. *)
Theorem main_duration_returns s Q R options d deadline fuel :
  done options = None → duration options = Some d → silent options →
  ready P E s Q R → MONOTONIC_NOW (world s) = None →
  let clk := clock (world s) in let k := ticks (world s) in
  instant_add (clk k) d = Ok deadline → (∃ n, (n ≤ fuel)%nat ∧ deadline < clk (S k + n)%nat) →
  wpx E (main fuel (Some options)) (λ _ s', ∃ n Q' R',
    past clk deadline (S k) n ∧ ticks (world s') = (k + n + 2)%nat ∧ MONOTONIC_NOW (world s') = None ∧
    ready P E s' Q' R' ∧ breathed s s' ∧ accounted s' Q' R') s.
Proof.
  intros Hdone Hdur Hsil Hr Hnow clk k Hd (n & Hn & Hpast).
  destruct (first_stop_exists (λ k, clk k >? deadline) (S k) n) as (m & Hm & Hp); [by apply Z.gtb_lt|].
  unfold main, until. simpl. rewrite Hdone, Hdur. unfold timeout. apply wpx_bind, wpx_bind, wpx_bind, wpx_in_world. unfold now.
  apply wpx_bind, wpx_get. rewrite Hnow. unfold Instant_now, wpx at 1. fold clk k.
  apply wpx_bind. eapply wpx_lift; [exact Hd|]. apply wpx_ret, wpx_ret.
  set (s1 := set_world _ s). assert (ready P E s1 Q R) as Hr1 by by apply (ready_world s).
  eapply wpx_mono; [eapply (main_run s _ _ s1 Q R m); [done|done|by apply breathed_intro|apply timeout_polls|exact Hp|lia]|].
  intros [] s' (Q' & R' & Hr' & Hb & Ha & Hnow' & Ht). exists m, Q', R'.
  split_and!; [by apply past_stop|simpl in Ht; unfold k; lia|done..].
Qed.

(** *** The theorems *)

(** C6. Whatever is called in whatever order, and whatever time it is, the engine
    stays in a consistent state: links are wired as their names say between apps
    that exist, every packet that was ever allocated is on the freelist, on one
    link, or held by one app, and the breathe order names apps that have the
    callbacks; all packets in use, and all that were ever written to a device,
    have the property [P] that the apps preserve.  No call is undefined behaviour, none runs out of fuel, and
    panics are those the apps are allowed. *)
Theorem network_safe s :
  runs s →
  (∃ Q R, ready P E s Q R ∧ accounted s Q R) ∧ Forall (sendable P) (written (syscalls (world s))) ∧
  safe breathe s ∧ safe pace_breathing s ∧ (∀ config, wf_config P E config → safe (configure config) s).
Proof.
  intros Hs. destruct (runs_ready s Hs) as (Q & R & Hr). split_and!.
  - exists Q, R. split; [done|by apply ready_accounted].
  - by eapply ready_sent.
  - by eapply wpx_safe, breathe_wp.
  - by eapply wpx_safe, pace_wp.
  - intros config Hc. eapply wpx_safe, configure_wp; [|done]. apply Hr.
Qed.

(** C7. configure migrates from any network to the configured one.  Afterwards
    the links and apps are those of the configuration, with the configured
    arguments; apps whose configuration did not change, and links that stay
    with the packets they hold, are the same; the breathe order holds the apps
    that pull, and those that packets reach and that push, once each; and the
    state is consistent again (no packet is lost or left on a link that is
    gone). *)
Theorem configure_migrates config s Q R :
  consistent P E s Q R → wf_config P E config →
  wpx E (configure config) (λ _ s', ∃ Q' R',
    consistent P E s' Q' R' ∧ accounted s' Q' R' ∧ configured config s Q s' Q') s.
Proof.
  intros Hc Hwf. eapply wpx_mono; [by apply (configure_wp P E config s Q R)|].
  intros ? s' (Q' & R' & Hc' & Hcf). exists Q', R'. split_and!; [done| |done].
  eapply ready_accounted, configured_ready; [exact Hwf|exact Hc'|exact Hcf].
Qed.
End network.
