(* ===== verification/SyntheticNetwork.v ===== *)
(** * synthetic_network.rs: from a QoS specification to a network of apps

    Packets between two network devices go through a rate limit, loss, latency
    and jitter, per flow and direction.  Labels and names are strings of ASCII
    characters. *)

From Stdlib Require Import Ascii.
From S2P Require Import Prelude App Engine Interface Apps.
From S2P Require Config Flow Tsd Qos DelayQueue BasicApps RawSocket.
#[local] Open Scope string_scope.

Abbreviation f64 := Qos.f64.

Record QoS : Type := mkQoS {
  rate : Z;
  loss : f64;
  latency : Z;
  jitter : Z;
  jitter_strength : f64;
  reorder_packets : bool
}.
Record SyntheticLink : Type := mkSyntheticLink { ingress : QoS; egress : QoS }.
Record Flow : Type := mkFlow { ip : Z; protocol : Z; port_min : Z; port_max : Z }.
Record SyntheticFlow : Type := mkSyntheticFlow { label : string; flow : Flow; link : SyntheticLink }.
Record SyntheticNetwork : Type := mkSyntheticNetwork { default_link : SyntheticLink; flows : list SyntheticFlow }.

(** f64::clamp *)
Definition clamp (x min max : f64) : f64 :=
  if Qos.f64_lt x min then min else if Qos.f64_lt max x then max else x.

Lemma SFcompare_antisym (x y : f64) :
  SpecFloat.SFcompare y x = CompOpp <$> SpecFloat.SFcompare x y.
Proof.
  destruct x as [[]|[]| |[] m e], y as [[]|[]| |[] m' e']; simpl; try done;
    rewrite (Z.compare_antisym e e'); destruct (e ?= e')%Z; simpl; try done;
    by rewrite (Pos.compare_cont_antisym m m' Eq).
Qed.

(** Numbers of JSON are not NaN: they are clamped to the ratios that Loss accepts. *)
Lemma clamp_ratio (x : f64) : x ≠ SpecFloat.S754_nan →
  let y := clamp x Qos.f64_zero Qos.f64_one in Qos.f64_le Qos.f64_zero y = true ∧ Qos.f64_le y Qos.f64_one = true.
Proof.
  intros Hx. unfold clamp, Qos.f64_le, Qos.f64_lt, SpecFloat.SFltb, SpecFloat.SFleb. cbv zeta.
  rewrite (SFcompare_antisym x Qos.f64_one).
  assert (is_Some (SpecFloat.SFcompare x Qos.f64_zero) ∧ is_Some (SpecFloat.SFcompare x Qos.f64_one)) as [[c Hc] [d Hd]].
  { destruct x as [[]|[]| |[] m e]; try done; split; by eexists. }
  rewrite Hc, Hd. destruct c; [|done|]; destruct d; cbn [CompOpp fmap option_fmap option_map]; try done;
    rewrite (SFcompare_antisym x Qos.f64_zero), Hc; by rewrite ?Hd.
Qed.

(** ** The configuration, built step by step *)

Abbreviation ConfigM := (ST (Config.Config AnyConf) ()).

Definition config_app (name : string) (app : AnyConf) : ConfigM := modify (λ c, Config.app c name app).
Definition config_link (spec : string) : ConfigM := λ c,
  match Config.link c spec with
  | Ok c' => Ok (tt, c')
  | Panic e => Panic e
  | UB e => UB e
  | NoFuel => NoFuel
  end.

Definition configure_interface (ifname : string) : ConfigM :=
  config_app ifname (RawSocket (RawSocket.mkRawSocket ifname)).

Definition configure_tsd (name ifname : string) (mss : Z) : ConfigM :=
  let output_to_tsd := ifname +:+ ".output -> " +:+ name +:+ ".input" in
  config_app name (TSD (Tsd.mkTSD mss));;
  config_link output_to_tsd.

Definition configure_top (name output path : string) (dir : Flow.Dir) : ConfigM :=
  let top_to_input := name +:+ ".output -> " +:+ output in
  config_app name (Top (Flow.mkTop path dir));;
  config_link top_to_input.

Definition configure_offload (name ifname : string) : ConfigM :=
  let output_to_offload := ifname +:+ ".output -> " +:+ name +:+ ".input" in
  config_app name Checksum;;
  config_link output_to_offload.

Definition split_flow (dir : Flow.Dir) (f : SyntheticFlow) : Flow.Flow :=
  Flow.mkFlow (label f) dir (ip (flow f)) (protocol (flow f)) (port_min (flow f)) (port_max (flow f)).

Definition configure_split (name input : string) (synthetic_flows : list SyntheticFlow) (dir : Flow.Dir) : ConfigM :=
  let flows := split_flow dir <$> synthetic_flows in
  let input_to_split := input +:+ " -> " +:+ name +:+ ".input" in
  config_app name (Split (Flow.mkSplit flows));;
  config_link input_to_split.

Definition configure_join (name output : string) : ConfigM :=
  let join_to_output := name +:+ ".output -> " +:+ output +:+ ".input" in
  config_app name Join;;
  config_link join_to_output.

Definition delay_queue_capacity : Z := 100000.

Definition configure_qos (label input output : string) (qos : QoS) : ConfigM :=
  let rate_app := "rate_" +:+ label in
  let input_to_rate := input +:+ " -> " +:+ rate_app +:+ ".input" in
  let loss_app := "loss_" +:+ label in
  let rate_to_loss := rate_app +:+ ".output -> " +:+ loss_app +:+ ".input" in
  let latency_app := "latency_" +:+ label in
  let loss_to_latency := loss_app +:+ ".output -> " +:+ latency_app +:+ ".input" in
  let jitter_app := "jitter_" +:+ label in
  let latency_to_jitter := latency_app +:+ ".output -> " +:+ jitter_app +:+ ".input" in
  let jitter_to_output := jitter_app +:+ ".output -> " +:+ output in
  config_link input_to_rate;;
  config_app rate_app (RateLimiter (Qos.mkRateLimiter (rate qos)));;
  config_link rate_to_loss;;
  config_app loss_app (Loss (Qos.mkLoss (clamp (loss qos) Qos.f64_zero Qos.f64_one)));;
  config_link loss_to_latency;;
  config_app latency_app (Latency (DelayQueue.mkLatency (latency qos) delay_queue_capacity));;
  config_link latency_to_jitter;;
  config_app jitter_app (Jitter (DelayQueue.mkJitter (jitter qos)
    (clamp (jitter_strength qos) Qos.f64_zero Qos.f64_one) (reorder_packets qos) delay_queue_capacity));;
  config_link jitter_to_output.

Definition configure_flows (split join : string) (synthetic_flows : list SyntheticFlow) (dir : Flow.Dir) : ConfigM :=
  let prefix := Flow.by_dir dir "ingress" "egress" in
  for_st synthetic_flows (λ f,
    let input := split +:+ "." +:+ label f in
    let output := join +:+ "." +:+ label f in
    let app_label := prefix +:+ "_" +:+ label f in
    let qos := Flow.by_dir dir (ingress (link f)) (egress (link f)) in
    configure_qos app_label input output qos).

Definition configure_synthetic_network
    (outer_ifname inner_ifname ingress_profile egress_profile : string) (spec : SyntheticNetwork) : ConfigM :=
  configure_interface outer_ifname;;
  configure_interface inner_ifname;;

  (* Ingress path: outer → inner *)

  let outer_tsd := outer_ifname +:+ "_tsd" in
  configure_tsd outer_tsd outer_ifname 1400;;

  let outer_offload := outer_ifname +:+ "_offload" in
  configure_offload outer_offload outer_tsd;;

  let outer_rx := outer_offload +:+ ".output" in
  let inner_tx := inner_ifname +:+ ".input" in

  let outer_top := outer_ifname +:+ "_top" in
  configure_top outer_top inner_tx ingress_profile Flow.Src;;

  let outer_split := outer_ifname +:+ "_split" in
  let outer_split_default := outer_split +:+ ".default" in
  configure_split outer_split outer_rx (flows spec) Flow.Src;;

  let inner_join := inner_ifname +:+ "_join" in
  let inner_join_default := inner_join +:+ ".default" in
  configure_join inner_join outer_top;;

  configure_qos "ingress" outer_split_default inner_join_default (ingress (default_link spec));;

  configure_flows outer_split inner_join (flows spec) Flow.Src;;

  (* Egress path: inner → outer *)

  let inner_tsd := inner_ifname +:+ "_tsd" in
  configure_tsd inner_tsd inner_ifname 1400;;

  let inner_offload := inner_ifname +:+ "_offload" in
  configure_offload inner_offload inner_tsd;;

  let inner_rx := inner_offload +:+ ".output" in
  let outer_tx := outer_ifname +:+ ".input" in

  let inner_top := inner_ifname +:+ "_top" in
  configure_top inner_top outer_tx egress_profile Flow.Dst;;

  let inner_split := inner_ifname +:+ "_split" in
  let inner_split_default := inner_split +:+ ".default" in
  configure_split inner_split inner_rx (flows spec) Flow.Dst;;

  let outer_join := outer_ifname +:+ "_join" in
  let outer_join_default := outer_join +:+ ".default" in
  configure_join outer_join inner_top;;

  configure_qos "egress" inner_split_default outer_join_default (egress (default_link spec));;

  configure_flows inner_split outer_join (flows spec) Flow.Dst.

(** ** Labels *)

(** LABEL_SYNTAX: ^[\w_]+$ *)
Definition is_label (s : string) : bool :=
  match Config.plus Config.is_word s with
  | Some (_, "") => true
  | _ => false
  end.

(** Result<(), Box<io::Error>> *)
Fixpoint check_labels (labels : gset string) (fs : list SyntheticFlow) : string + () :=
  match fs with
  | [] => inr tt
  | f :: fs =>
      if String.eqb (label f) "default" then inl "Flow label 'default' is reserved."
      else if negb (is_label (label f)) then inl "Invalid characters in flow label."
      else if decide (label f ∈ labels) then inl "Duplicate flow labels."
      else check_labels ({[label f]} ∪ labels) fs
  end.
Definition sanitize_labels (spec : SyntheticNetwork) : string + () := check_labels ∅ (flows spec).

Lemma span_append f s a b : Config.span f s = (a, b) → s = a +:+ b.
Proof.
  revert a b. induction s as [|c s IH]; simpl; intros a b; [by intros [= <- <-]|].
  destruct (f c); [|by intros [= <- <-]]. destruct (Config.span f s) as [a' b'].
  intros [= <- <-]. exact (f_equal (String c) (IH _ _ eq_refl)).
Qed.

Lemma is_label_spec s : is_label s = true ↔ Config.is_name s.
Proof.
  unfold is_label. split.
  - destruct (Config.plus Config.is_word s) as [[a [|]]|] eqn:Hp; [|done..]. intros _.
    pose proof (Config.plus_is_name _ _ _ Hp) as Ha. unfold Config.plus in Hp.
    destruct (Config.span Config.is_word s) as [a' b'] eqn:Hs. apply span_append in Hs.
    destruct a' as [|c a']; [done|]. injection Hp as <- ->. by rewrite Hs, Config.append_nil.
  - intros Hn. rewrite <-(Config.append_nil s), Config.plus_name by done. done.
Qed.

Lemma check_labels_spec fs : ∀ labels,
  check_labels labels fs = inr tt ↔
  Forall (λ f, label f ≠ "default" ∧ Config.is_name (label f)) fs ∧ NoDup (label <$> fs) ∧
  ∀ f, f ∈ fs → label f ∉ labels.
Proof.
  induction fs as [|f fs IH]; intros labels; simpl.
  { split; [|done]. intros _. split_and!; [constructor|constructor|]. by intros f ?%not_elem_of_nil. }
  rewrite Forall_cons, NoDup_cons. destruct (String.eqb_spec (label f) "default") as [Hd|Hd]; [naive_solver|].
  destruct (is_label (label f)) eqn:Hl; simpl.
  2: { split; [done|]. intros ((( _ & Hn%is_label_spec) & _) & _). congruence. }
  apply is_label_spec in Hl. case_decide as Hin; [split; [done|]; intros (_ & _ & Hx); by destruct (Hx f (list_elem_of_here _ _))|].
  rewrite IH. split.
  - intros (Hf & Hn & Hx). split_and!; try done.
    + intros (g & Hg & Hgin)%list_elem_of_fmap. specialize (Hx g Hgin). rewrite <-Hg in Hx. set_solver.
    + intros g [->|Hg]%elem_of_cons; [done|]. specialize (Hx g Hg). set_solver.
  - intros ((_ & Hf) & (Hn & Hnd) & Hx). split_and!; [done|done|]. intros g Hg.
    pose proof (Hx g (list_elem_of_further _ _ _ Hg)). intros [Heq%elem_of_singleton|]%elem_of_union; [|done].
    apply Hn, list_elem_of_fmap. by exists g.
Qed.

Lemma check_labels_good fs :
  check_labels ∅ fs = inr tt ↔
  Forall (λ f, label f ≠ "default" ∧ Config.is_name (label f)) fs ∧ NoDup (label <$> fs).
Proof.
  rewrite check_labels_spec. split; [naive_solver|]. intros [Hf Hn].
  split_and!; [done|done|]. intros f _. apply not_elem_of_empty.
Qed.

(** C28. sanitize_labels accepts a specification exactly when no flow is labelled
    "default", all labels are words, and no two flows have the same label. *)
Theorem sanitize_labels_spec spec :
  sanitize_labels spec = inr tt ↔
  Forall (λ f, label f ≠ "default" ∧ Config.is_name (label f)) (flows spec) ∧ NoDup (label <$> flows spec).
Proof. apply check_labels_good. Qed.
