(* ===== verification/SyntheticGraph.v ===== *)
(** * synthetic_network.rs: the network that is configured

    What [configure_synthetic_network] builds, as a graph: [node]s are apps,
    [wire]s are links.  For two interfaces and a sanitized specification it is
    a configuration that the engine accepts. *)

From Stdlib Require Import Ascii.
From S2P Require Import Prelude Checksum Kernel App Frames Engine Interface AppRules Apps.
From S2P Require Import BreatheOrder Configure Reconfigure Breathe Network SyntheticNetwork.
From S2P Require Packet Config Flow Tsd Qos DelayQueue BasicApps RawSocket.
#[local] Open Scope string_scope.

(** The path from the outer device to the inner one (ingress), and back. *)
Inductive side : Type := Outer | Inner.
Inductive role : Type := Tsd | Offload | Top | Split | Join.
Inductive stage : Type := SRate | SLoss | SLatency | SJitter.

(** The apps.  A stage is for the packets of one flow, or for all others. *)
Inductive node : Type :=
  | If (s : side)
  | Path (s : side) (r : role)
  | Stage (s : side) (k : stage) (q : option SyntheticFlow).

(** The links, each named after the app at its end. *)
Inductive wire : Type :=
  | WTsd (s : side) | WOffload (s : side) | WSplit (s : side)
  | WStage (s : side) (k : stage) (q : option SyntheticFlow)
  | WJoin (s : side) (q : option SyntheticFlow) | WTop (s : side) | WIf (s : side).

Definition other (s : side) : side := match s with Outer => Inner | Inner => Outer end.
Definition dir_of (s : side) : Flow.Dir := match s with Outer => Flow.Src | Inner => Flow.Dst end.
Definition port_of (q : option SyntheticFlow) : string := match q with None => "default" | Some f => label f end.

Definition from_node (w : wire) : node :=
  match w with
  | WTsd s => If s
  | WOffload s => Path s Tsd
  | WSplit s => Path s Offload
  | WStage s SRate q => Path s Split
  | WStage s SLoss q => Stage s SRate q
  | WStage s SLatency q => Stage s SLoss q
  | WStage s SJitter q => Stage s SLatency q
  | WJoin s q => Stage s SJitter q
  | WTop s => Path s Join
  | WIf s => Path s Top
  end.
Definition to_node (w : wire) : node :=
  match w with
  | WTsd s => Path s Tsd
  | WOffload s => Path s Offload
  | WSplit s => Path s Split
  | WStage s k q => Stage s k q
  | WJoin s q => Path s Join
  | WTop s => Path s Top
  | WIf s => If (other s)
  end.
Definition out_port (w : wire) : string :=
  match w with WStage s SRate q => port_of q | _ => "output" end.
Definition in_port (w : wire) : string :=
  match w with WJoin s q => port_of q | _ => "input" end.

Section graph.
Context (outer_ifname inner_ifname ingress_profile egress_profile : string) (spec : SyntheticNetwork).

Definition ifname (s : side) : string := match s with Outer => outer_ifname | Inner => inner_ifname end.
Definition profile (s : side) : string := match s with Outer => ingress_profile | Inner => egress_profile end.

(** *** Names *)

Definition suffix (r : role) : string :=
  match r with Tsd => "_tsd" | Offload => "_offload" | Top => "_top" | Split => "_split" | Join => "_join" end.
Definition prefix (k : stage) : string :=
  match k with SRate => "rate" | SLoss => "loss" | SLatency => "latency" | SJitter => "jitter" end.
Definition tag (s : side) (q : option SyntheticFlow) : string :=
  Flow.by_dir (dir_of s) "ingress" "egress" +:+ match q with None => "" | Some f => "_" +:+ label f end.

(** What is before the first underscore, and the rest; the join of a path is at
    the device where it ends. *)
Definition key (n : node) : string * string :=
  match n with
  | If s => (ifname s, "")
  | Path s r => (ifname (match r with Join => other s | _ => s end), suffix r)
  | Stage s k q => (prefix k, "_" +:+ tag s q)
  end.
Definition name (n : node) : string := (key n).1 +:+ (key n).2.

Definition wire_spec (w : wire) : Config.LinkSpec :=
  Config.mkLinkSpec (name (from_node w)) (out_port w) (name (to_node w)) (in_port w).

(** *** What is configured *)

Definition qos_of (s : side) (q : option SyntheticFlow) : QoS :=
  let l := match q with None => default_link spec | Some f => link f end in
  Flow.by_dir (dir_of s) (ingress l) (egress l).

Definition stage_conf (k : stage) (qos : QoS) : AnyConf :=
  match k with
  | SRate => RateLimiter (Qos.mkRateLimiter (rate qos))
  | SLoss => Loss (Qos.mkLoss (clamp (loss qos) Qos.f64_zero Qos.f64_one))
  | SLatency => Latency (DelayQueue.mkLatency (latency qos) delay_queue_capacity)
  | SJitter => Jitter (DelayQueue.mkJitter (jitter qos) (clamp (jitter_strength qos) Qos.f64_zero Qos.f64_one)
                         (reorder_packets qos) delay_queue_capacity)
  end.

Definition conf_of (n : node) : AnyConf :=
  match n with
  | If s => RawSocket (RawSocket.mkRawSocket (ifname s))
  | Path s Tsd => TSD (Tsd.mkTSD 1400)
  | Path s Offload => Checksum
  | Path s Top => Apps.Top (Flow.mkTop (profile s) (dir_of s))
  | Path s Split => Apps.Split (Flow.mkSplit (split_flow (dir_of s) <$> flows spec))
  | Path s Join => Apps.Join
  | Stage s k q => stage_conf k (qos_of s q)
  end.

(** Flows are those of the specification. *)
Definition known (q : option SyntheticFlow) : Prop := match q with None => True | Some f => f ∈ flows spec end.
Definition is_node (n : node) : Prop := match n with Stage _ _ q => known q | _ => True end.
Definition is_wire (w : wire) : Prop := match w with WStage _ _ q | WJoin _ q => known q | _ => True end.

(** Interface names and specifications that work: the devices are different, and
    their names are of letters and digits. *)
Fixpoint no_underscore (s : string) : bool :=
  match s with "" => true | String c s => negb (Ascii.eqb c "_") && no_underscore s end.
Definition alnum (s : string) : Prop := Config.is_name s ∧ no_underscore s = true.
Record valid : Prop := {
  va_outer : alnum outer_ifname;
  va_inner : alnum inner_ifname;
  va_differ : outer_ifname ≠ inner_ifname;
  va_labels : Forall (λ f, label f ≠ "default" ∧ Config.is_name (label f)) (flows spec);
  va_once : NoDup (label <$> flows spec);
  va_latency : ∀ s q, known q → is_u64 (latency (qos_of s q));
}.
Context (Hv : valid).

Lemma alnum_inj a a' b b' : alnum a → alnum a' →
  (b = "" ∨ ∃ t, b = String "_" t) → (b' = "" ∨ ∃ t, b' = String "_" t) → a +:+ b = a' +:+ b' → a = a' ∧ b = b'.
Proof.
  intros [_ Ha] [_ Ha'] Hb Hb'. revert a' Ha' Ha.
  induction a as [|c a IH]; intros [|c' a'] Ha' Ha; cbn in Ha, Ha'; try apply andb_true_iff in Ha as [Hc Ha];
    try apply andb_true_iff in Ha' as [Hc' Ha']; intros Heq.
  - done.
  - change (b = String c' (a' +:+ b')) in Heq. destruct Hb as [->|[t ->]]; [done|]. injection Heq as <- _. discriminate.
  - change (String c (a +:+ b) = b') in Heq. destruct Hb' as [->|[t ->]]; [done|]. injection Heq as -> _. discriminate.
  - change (String c (a +:+ b) = String c' (a' +:+ b')) in Heq. injection Heq as <- Heq.
    by destruct (IH a' Ha' Ha Heq) as [-> ->].
Qed.

(** *** Names are words, and different *)

Lemma all_word_append a b : Config.all_word a → Config.all_word b → Config.all_word (a +:+ b).
Proof. intros Ha Hb. induction a as [|c a IH]; [done|]. destruct Ha as [Hc Ha]. split; [done|by apply IH]. Qed.

Lemma is_name_append a b : Config.is_name a → Config.all_word b → Config.is_name (a +:+ b).
Proof. intros [Hn Ha] Hb. split; [by destruct a|by apply all_word_append]. Qed.

Lemma ifname_alnum s : alnum (ifname s).
Proof. destruct Hv, s; done. Qed.

Lemma ifname_inj s s' : ifname s = ifname s' → s = s'.
Proof. destruct Hv as [_ _ Hd _ _ _], s, s'; simpl; congruence. Qed.

Lemma label_name f : f ∈ flows spec → label f ≠ "default" ∧ Config.is_name (label f).
Proof. intros Hf. pose proof (va_labels Hv) as Hl. rewrite Forall_forall in Hl. by apply Hl. Qed.

Lemma label_inj f f' : f ∈ flows spec → f' ∈ flows spec → label f = label f' → f = f'.
Proof.
  intros [i Hi]%list_elem_of_lookup [j Hj]%list_elem_of_lookup Heq. pose proof (va_once Hv) as Hn.
  assert (i = j) as ->; [|congruence]. eapply NoDup_lookup; [exact Hn| |]; rewrite list_lookup_fmap.
  - by rewrite Hi.
  - rewrite Hj, Heq; done.
Qed.

Lemma port_name q : known q → Config.is_name (port_of q).
Proof. destruct q as [f|]; [apply label_name|done]. Qed.

Lemma port_inj q q' : known q → known q' → port_of q = port_of q' → q = q'.
Proof.
  destruct q as [f|], q' as [f'|]; simpl; try done.
  - intros Hf Hf' Heq. f_equal. by apply label_inj.
  - intros Hf _ Heq. by destruct (label_name f Hf) as [? _].
  - intros _ Hf Heq. by destruct (label_name f' Hf) as [? _].
Qed.

Lemma tag_word s q : known q → Config.all_word (tag s q).
Proof.
  intros Hq. apply all_word_append; [by destruct s|]. destruct q as [f|]; [|done].
  split; [done|]. apply (label_name f Hq).
Qed.

Lemma key_ok n : is_node n → alnum (key n).1 ∧ ((key n).2 = "" ∨ ∃ t, (key n).2 = String "_" t) ∧ Config.all_word (key n).2.
Proof.
  destruct n as [s|s r|s k q]; intros Hn.
  - split_and!; [apply ifname_alnum|by left|done].
  - split_and!; [apply ifname_alnum|right; destruct r; by eexists|by destruct r].
  - split_and!; [by destruct k|right; by eexists|]. split; [done|by apply tag_word].
Qed.

Lemma name_is_name n : is_node n → Config.is_name (name n).
Proof. intros Hn. destruct (key_ok n Hn) as ([Ha _] & _ & Hw). by apply is_name_append. Qed.

Lemma tag_inj s s' q q' : known q → known q' → tag s q = tag s' q' → s = s' ∧ q = q'.
Proof.
  intros Hq Hq' Heq. destruct s, s', q as [f|], q' as [f'|]; try discriminate Heq; try done;
    (split; [done|]; f_equal; apply label_inj; [done|done|]); by injection Heq.
Qed.

Lemma name_inj n n' : is_node n → is_node n' → name n = name n' → n = n'.
Proof.
  intros Hn Hn' Heq. destruct (key_ok n Hn) as (Ha & Hb & _), (key_ok n' Hn') as (Ha' & Hb' & _).
  destruct (alnum_inj _ _ _ _ Ha Ha' Hb Hb' Heq) as [H1 H2]. clear Ha Ha' Hb Hb' Heq.
  destruct n as [s|s r|s k q], n' as [s'|s' r'|s' k' q']; simpl in H1, H2.
  - f_equal. by apply ifname_inj.
  - by destruct r'.
  - done.
  - by destruct r.
  - assert (r = r') as <- by (by destruct r, r'). apply ifname_inj in H1. f_equal. destruct r; try done. by destruct s, s'.
  - destruct r, s'; discriminate H2.
  - done.
  - destruct r', s; discriminate H2.
  - injection H2 as H2. apply tag_inj in H2 as [<- <-]; [|done..]. f_equal. by destruct k, k'.
Qed.

(** *** Wires connect nodes, each port once *)

Lemma wire_nodes w : is_wire w → is_node (from_node w) ∧ is_node (to_node w) ∧ from_node w ≠ to_node w.
Proof. by destruct w as [s|s|s|s [] q|s q|s|s]. Qed.

Lemma wire_ports w : is_wire w → Config.is_name (out_port w) ∧ Config.is_name (in_port w).
Proof. destruct w as [s|s|s|s [] q|s q|s|s]; intros Hw; (split; [|]); try done; by apply port_name. Qed.

Lemma wire_wf w : is_wire w → Config.wf_spec (wire_spec w).
Proof.
  intros Hw. destruct (wire_nodes w Hw) as (Hf & Ht & _), (wire_ports w Hw) as [Ho Hi].
  by split; [apply name_is_name| |apply name_is_name|].
Qed.

Lemma wire_out_inj w w' : is_wire w → is_wire w' →
  from_node w = from_node w' → out_port w = out_port w' → w = w'.
Proof.
  destruct w as [s|s|s|s [] q|s q|s|s], w' as [s'|s'|s'|s' [] q'|s' q'|s'|s']; simpl; intros Hw Hw' Hn Hp;
    try discriminate Hn; injection Hn; intros; subst; try done; f_equal; by apply port_inj.
Qed.

Lemma wire_in_inj w w' : is_wire w → is_wire w' →
  to_node w = to_node w' → in_port w = in_port w' → w = w'.
Proof.
  destruct w as [s|s|s|s k q|s q|s|s], w' as [s'|s'|s'|s' k' q'|s' q'|s'|s']; simpl; intros Hw Hw' Hn Hp;
    try discriminate Hn; injection Hn; intros; subst; try done; f_equal; try by apply port_inj. by destruct s, s'.
Qed.

Definition format (w : wire) : string := Config.format_link (wire_spec w).

Lemma parse_wire w spec' : is_wire w → Config.parse_link (format w) = Ok spec' → spec' = wire_spec w.
Proof. intros Hw. unfold format. rewrite Config.parse_format by by apply wire_wf. by intros [= ->]. Qed.

(** *** Configurations that hold exactly the graph *)

Record holds (c : Config.Config AnyConf) : Prop := {
  ho_apps : ∀ n, is_node n → Config.apps c !! name n = Some (conf_of n);
  ho_only : ∀ x, x ∈ dom (Config.apps c) → ∃ n, is_node n ∧ x = name n;
  ho_links : ∀ x, x ∈ Config.links c ↔ ∃ w, is_wire w ∧ x = format w;
}.

(** The losses are numbers, as those of JSON are. *)
Definition numeric : Prop := ∀ s q, known q → loss (qos_of s q) ≠ SpecFloat.S754_nan.

Lemma conf_of_ok P E n :
  E "Ratio must be within 0.0 and 1.0" ∨ numeric → is_node n → conf_any P E (conf_of n).
Proof.
  intros HE. destruct n as [s|s []|s [] q]; intros Hn; try done; simpl.
  - by right.
  - destruct HE as [HE|Hnum]; [by left|]. right. by apply clamp_ratio, Hnum.
  - by apply (va_latency Hv).
Qed.

Lemma holds_wf_links c : holds c → wf_links (Config.links c) (dom (Config.apps c)).
Proof.
  intros [Ha _ Hl]. assert (∀ n, is_node n → name n ∈ dom (Config.apps c)) as Hdom.
  { intros n Hn. apply elem_of_dom. by eexists; apply Ha. }
  split.
  - intros x (w & Hw & ->)%Hl. exists (wire_spec w). destruct (wire_nodes w Hw) as (Hf & Ht & Hne).
    split_and!; [by apply Config.parse_format, wire_wf|by apply Hdom|by apply Hdom|].
    intros Heq. by apply Hne, name_inj.
  - intros x y sx sy (w & Hw & ->)%Hl (w' & Hw' & ->)%Hl Hx%parse_wire Hy%parse_wire Hf Ho; [|done..]. subst sx sy.
    f_equal. destruct (wire_nodes w Hw) as (Hn & _), (wire_nodes w' Hw') as (Hn' & _).
    apply wire_out_inj; [done|done|by apply name_inj|done].
  - intros x y sx sy (w & Hw & ->)%Hl (w' & Hw' & ->)%Hl Hx%parse_wire Hy%parse_wire Ht Hi; [|done..]. subst sx sy.
    f_equal. destruct (wire_nodes w Hw) as (_ & Hn & _), (wire_nodes w' Hw') as (_ & Hn' & _).
    apply wire_in_inj; [done|done|by apply name_inj|done].
Qed.

(** The wires reach all ports that the apps take without looking. *)
Lemma wired_in c w I O : holds c → is_wire w → wired (Config.links c) (name (to_node w)) I O → in_port w ∈ I.
Proof.
  intros Hh Hw [Hi _]. apply Hi. exists (format w), (wire_spec w).
  split_and!; [apply (ho_links c Hh); by exists w|by apply Config.parse_format, wire_wf|done|done].
Qed.

Lemma wired_out c w I O : holds c → is_wire w → wired (Config.links c) (name (from_node w)) I O → out_port w ∈ O.
Proof.
  intros Hh Hw [_ Ho]. apply Ho. exists (format w), (wire_spec w).
  split_and!; [apply (ho_links c Hh); by exists w|by apply Config.parse_format, wire_wf|done|done].
Qed.

Lemma wired_io c v w E I O : holds c → is_wire v → is_wire w → to_node v = from_node w →
  in_port v = "input" → out_port w = "output" → wired (Config.links c) (name (to_node v)) I O → fits_io E I O.
Proof.
  intros Hh Hv' Hw Hn Hi Ho Hwd. right. split.
  - rewrite <-Hi. by eapply wired_in.
  - rewrite <-Ho. rewrite Hn in Hwd. by eapply wired_out.
Qed.

Lemma wires_fit c n E I O : holds c → is_node n → wired (Config.links c) (name n) I O → fits_any E (conf_of n) I O.
Proof.
  intros Hh Hn Hwd. destruct n as [s|s []|s [] q]; try done; simpl in Hn.
  - by apply (wired_io c (WTsd s) (WOffload s)).
  - by apply (wired_io c (WOffload s) (WSplit s)).
  - by apply (wired_io c (WTop s) (WIf s)).
  - split; right; [split_and!|].
    + by apply (wired_in c (WSplit s) I O).
    + by apply (wired_out c (WStage s SRate None) I O).
    + intros f (g & -> & Hg)%list_elem_of_fmap. by apply (wired_out c (WStage s SRate (Some g)) I O).
    + intros f (g & -> & Hg)%list_elem_of_fmap. by apply label_name.
  - by apply (wired_io c (WStage s SRate q) (WStage s SLoss q)).
  - by apply (wired_io c (WStage s SLoss q) (WStage s SLatency q)).
  - by apply (wired_io c (WStage s SLatency q) (WStage s SJitter q)).
  - by apply (wired_io c (WStage s SJitter q) (WJoin s q)).
Qed.

(** *** The program as a list of additions *)

Inductive addition : Type := AddApp (n : node) | AddLink (w : wire).

Definition add (c : Config.Config AnyConf) (a : addition) : Config.Config AnyConf :=
  match a with
  | AddApp n => Config.app c (name n) (conf_of n)
  | AddLink w => Config.mkConfig (Config.apps c) ({[format w]} ∪ Config.links c)
  end.
Definition adds (c : Config.Config AnyConf) (l : list addition) : Config.Config AnyConf := foldl add c l.

Definition qos_additions (s : side) (q : option SyntheticFlow) : list addition :=
  [AddLink (WStage s SRate q); AddApp (Stage s SRate q); AddLink (WStage s SLoss q); AddApp (Stage s SLoss q);
   AddLink (WStage s SLatency q); AddApp (Stage s SLatency q); AddLink (WStage s SJitter q);
   AddApp (Stage s SJitter q); AddLink (WJoin s q)].
Definition path_additions (s : side) : list addition :=
  [AddApp (Path s Tsd); AddLink (WTsd s); AddApp (Path s Offload); AddLink (WOffload s);
   AddApp (Path s Top); AddLink (WIf s); AddApp (Path s Split); AddLink (WSplit s);
   AddApp (Path s Join); AddLink (WTop s)] ++
  qos_additions s None ++ concat ((λ f, qos_additions s (Some f)) <$> flows spec).
Definition additions : list addition :=
  [AddApp (If Outer); AddApp (If Inner)] ++ path_additions Outer ++ path_additions Inner.

Definition known_addition (a : addition) : Prop :=
  match a with AddApp n => is_node n | AddLink w => is_wire w end.

Lemma elem_of_flow_additions s a :
  a ∈ concat ((λ f, qos_additions s (Some f)) <$> flows spec) ↔ ∃ f, f ∈ flows spec ∧ a ∈ qos_additions s (Some f).
Proof.
  rewrite elem_of_concat. split.
  - intros (l & (f & -> & Hf)%list_elem_of_fmap & Ha). by exists f.
  - intros (f & Hf & Ha). exists (qos_additions s (Some f)). split; [|done]. apply list_elem_of_fmap. by exists f.
Qed.

Lemma elem_of_qos s q a : known q → a ∈ qos_additions s q → a ∈ path_additions s.
Proof.
  intros Hq Ha. unfold path_additions. apply elem_of_app. right. apply elem_of_app.
  destruct q as [f|]; [right|by left]. apply elem_of_flow_additions. by exists f.
Qed.

Lemma elem_of_path s a : a ∈ path_additions s → a ∈ additions.
Proof.
  intros Ha. unfold additions. apply elem_of_app. right. apply elem_of_app. destruct s; [by left|by right].
Qed.

(** All of the graph, and nothing else. *)
Lemma elem_of_additions a : a ∈ additions ↔ known_addition a.
Proof.
  split.
  - assert (∀ s q, known q → ∀ a, a ∈ qos_additions s q → known_addition a) as Hqos.
    { intros s q Hq b Hb. unfold qos_additions in Hb. rewrite !elem_of_cons in Hb.
      repeat (destruct Hb as [->|Hb]; [done|]). by apply not_elem_of_nil in Hb. }
    assert (∀ s a, a ∈ path_additions s → known_addition a) as Hpath.
    { intros s b. unfold path_additions. rewrite !elem_of_app, !elem_of_cons, elem_of_flow_additions.
      intros [Hb|[Hb|(f & Hf & Hb)]]; [|by eapply (Hqos s None)|by eapply (Hqos s (Some f))].
      repeat (destruct Hb as [->|Hb]; [done|]). by apply not_elem_of_nil in Hb. }
    unfold additions. rewrite !elem_of_app, !elem_of_cons. intros [Hb|[Hb|Hb]]; [|by eapply Hpath..].
    repeat (destruct Hb as [->|Hb]; [done|]). by apply not_elem_of_nil in Hb.
  - destruct a as [[s|s r|s k q]|[s|s|s|s k q|s q|s|s]]; intros Ha.
    + apply elem_of_app. left. destruct s; set_solver.
    + apply (elem_of_path s). unfold path_additions. apply elem_of_app. left. destruct r; set_solver.
    + apply (elem_of_path s), (elem_of_qos s q); [done|]. destruct k; set_solver.
    + apply (elem_of_path s). unfold path_additions. set_solver.
    + apply (elem_of_path s). unfold path_additions. set_solver.
    + apply (elem_of_path s). unfold path_additions. set_solver.
    + apply (elem_of_path s), (elem_of_qos s q); [done|]. destruct k; set_solver.
    + apply (elem_of_path s), (elem_of_qos s q); [done|]. set_solver.
    + apply (elem_of_path s). unfold path_additions. set_solver.
    + apply (elem_of_path s). unfold path_additions. set_solver.
Qed.

Lemma adds_holds : holds (adds Config.new additions).
Proof.
  assert (∀ l, (∀ a, a ∈ l → known_addition a) → let c := adds Config.new l in
    (∀ n, AddApp n ∈ l → Config.apps c !! name n = Some (conf_of n)) ∧
    (∀ x, x ∈ dom (Config.apps c) → ∃ n, is_node n ∧ x = name n) ∧
    (∀ x, x ∈ Config.links c ↔ ∃ w, AddLink w ∈ l ∧ x = format w)) as Hgo.
  { induction l as [|a l IH] using rev_ind; intros Hk c.
    { split_and!; [by intros n ?%not_elem_of_nil|set_solver|]. intros x. split; [set_solver|]. by intros (w & ?%not_elem_of_nil & _). }
    assert (known_addition a) as Hka by (apply Hk; set_solver).
    destruct IH as (Ha & Ho & Hl); [intros b Hb; apply Hk; set_solver|].
    unfold c, adds. rewrite foldl_app. cbn [foldl]. fold (adds Config.new l). destruct a as [n|w]; simpl; split_and!.
    - intros n' [Hn'|Hn'%list_elem_of_singleton]%elem_of_app; [|injection Hn' as ->; apply lookup_insert_eq].
      destruct (decide (name n = name n')) as [Heq|]; [|rewrite lookup_insert_ne by done; by apply Ha].
      assert (is_node n') as Hkn by (apply (Hk (AddApp n')); set_solver). apply name_inj in Heq as ->; [|done..]. apply lookup_insert_eq.
    - intros x. rewrite dom_insert_L. intros [->%elem_of_singleton|Hx]%elem_of_union; [by exists n|by apply Ho].
    - intros x. rewrite Hl. split; intros (w & Hw & ->); exists w; set_solver.
    - intros n Hn. apply Ha. set_solver.
    - exact Ho.
    - intros x. rewrite elem_of_union, elem_of_singleton, Hl. split.
      + intros [->|(w' & Hw & ->)]; [exists w; set_solver|exists w'; set_solver].
      + intros (w' & [Hw|[= ->]%list_elem_of_singleton]%elem_of_app & ->); [right; by exists w'|by left]. }
  destruct (Hgo additions) as (Ha & Ho & Hl); [intros a; apply elem_of_additions|]. split; [|done|].
  - intros n Hn. apply Ha. by apply elem_of_additions.
  - intros x. rewrite Hl. split; intros (w & Hw & ->); exists w; (split; [|done]); by apply (elem_of_additions (AddLink w)).
Qed.

(** *** The program makes these additions *)

Definition does (m : ConfigM) (l : list addition) : Prop := ∀ c, m c = Ok (tt, adds c l).

Lemma does_seq m k l l' : does m l → does k l' → does (m;; k) (l ++ l').
Proof. intros Hm Hk c. unfold adds. rewrite foldl_app. unfold mbind, st_bind. rewrite Hm. apply Hk. Qed.

Lemma does_app n x conf : x = name n → conf = conf_of n → does (config_app x conf) [AddApp n].
Proof. by intros -> -> c. Qed.

Lemma does_link w x : is_wire w → x = format w → does (config_link x) [AddLink w].
Proof.
  intros Hw -> c. unfold config_link, Config.link, Config.canonical_link, format.
  by rewrite Config.parse_format by by apply wire_wf.
Qed.

Lemma does_for (xs : list SyntheticFlow) f g : (∀ x, x ∈ xs → does (f x) (g x)) → does (for_st xs f) (concat (g <$> xs)).
Proof.
  induction xs as [|x xs IH]; intros Hf; [by intros c|]. apply does_seq; [apply Hf, list_elem_of_here|].
  apply IH. intros y Hy. by apply Hf, list_elem_of_further.
Qed.

Lemma does_cons m k a l : does m [a] → does k l → does (m;; k) (a :: l).
Proof. apply does_seq. Qed.

(** Names of links are equal up to the way they are put together. *)
Ltac same_name :=
  unfold format, Config.format_link, wire_spec, name;
  cbn [from_node to_node out_port in_port Config.from Config.link_output Config.to Config.link_input key fst snd
       ifname other dir_of suffix prefix port_of];
  rewrite ?Config.append_assoc; reflexivity.
Ltac addition :=
  first [apply does_link; [done|same_name] | apply does_app; [same_name|done]].

Lemma does_interface s : does (configure_interface (ifname s)) [AddApp (If s)].
Proof. apply does_app; [symmetry; apply Config.append_nil|done]. Qed.

Lemma does_tsd s : does (configure_tsd (ifname s +:+ "_tsd") (ifname s) 1400) [AddApp (Path s Tsd); AddLink (WTsd s)].
Proof. apply does_cons; addition. Qed.

Lemma does_offload s :
  does (configure_offload (ifname s +:+ "_offload") (ifname s +:+ "_tsd")) [AddApp (Path s Offload); AddLink (WOffload s)].
Proof. apply does_cons; addition. Qed.

Lemma does_top s :
  does (configure_top (ifname s +:+ "_top") (ifname (other s) +:+ ".input") (profile s) (dir_of s))
    [AddApp (Path s Top); AddLink (WIf s)].
Proof. apply does_cons; addition. Qed.

Lemma does_split s :
  does (configure_split (ifname s +:+ "_split") ((ifname s +:+ "_offload") +:+ ".output") (flows spec) (dir_of s))
    [AddApp (Path s Split); AddLink (WSplit s)].
Proof. apply does_cons; addition. Qed.

Lemma does_join s :
  does (configure_join (ifname (other s) +:+ "_join") (ifname s +:+ "_top")) [AddApp (Path s Join); AddLink (WTop s)].
Proof. apply does_cons; addition. Qed.

Lemma does_qos s q l input output qos :
  known q → l = tag s q → input = name (Path s Split) +:+ "." +:+ port_of q →
  output = name (Path s Join) +:+ "." +:+ port_of q → qos = qos_of s q →
  does (configure_qos l input output qos) (qos_additions s q).
Proof.
  intros Hq -> -> -> ->. unfold configure_qos, qos_additions. repeat (apply does_cons; [addition|]). addition.
Qed.

Lemma does_default s :
  does (configure_qos (Flow.by_dir (dir_of s) "ingress" "egress") ((ifname s +:+ "_split") +:+ ".default")
          ((ifname (other s) +:+ "_join") +:+ ".default") (Flow.by_dir (dir_of s) (ingress (default_link spec)) (egress (default_link spec))))
    (qos_additions s None).
Proof. apply does_qos; [done| | | |done]; [by destruct s|done|done]. Qed.

Lemma does_flows s :
  does (configure_flows (ifname s +:+ "_split") (ifname (other s) +:+ "_join") (flows spec) (dir_of s))
    (concat ((λ f, qos_additions s (Some f)) <$> flows spec)).
Proof. apply does_for. intros f Hf. by apply does_qos. Qed.

Lemma does_additions :
  does (configure_synthetic_network outer_ifname inner_ifname ingress_profile egress_profile spec) additions.
Proof.
  unfold configure_synthetic_network, additions, path_additions. rewrite <-!app_assoc.
  apply does_cons; [apply (does_interface Outer)|]. apply does_cons; [apply (does_interface Inner)|].
  apply (does_seq _ _ [_; _]); [apply (does_tsd Outer)|]. apply (does_seq _ _ [_; _]); [apply (does_offload Outer)|].
  apply (does_seq _ _ [_; _]); [apply (does_top Outer)|]. apply (does_seq _ _ [_; _]); [apply (does_split Outer)|].
  apply (does_seq _ _ [_; _]); [apply (does_join Outer)|].
  apply does_seq; [apply (does_default Outer)|]. apply does_seq; [apply (does_flows Outer)|].
  apply (does_seq _ _ [_; _]); [apply (does_tsd Inner)|]. apply (does_seq _ _ [_; _]); [apply (does_offload Inner)|].
  apply (does_seq _ _ [_; _]); [apply (does_top Inner)|]. apply (does_seq _ _ [_; _]); [apply (does_split Inner)|].
  apply (does_seq _ _ [_; _]); [apply (does_join Inner)|].
  apply does_seq; [apply (does_default Inner)|]. apply (does_flows Inner).
Qed.

(** *** The engine runs it *)

Definition node_pulls (n : node) : bool :=
  match n with If _ | Stage _ SLatency _ | Stage _ SJitter _ => true | _ => false end.

(** How many apps a packet has passed since it was pulled. *)
Definition depth (n : node) : nat :=
  match n with
  | Path _ Tsd | Path _ Join | Stage _ SJitter _ => 0
  | Path _ Offload | Path _ Top => 1
  | Path _ Split | If _ => 2
  | Stage _ SRate _ => 3
  | Stage _ SLoss _ => 4
  | Stage _ SLatency _ => 5
  end.

Lemma wire_depth w : depth (to_node w) = if node_pulls (from_node w) then 0%nat else S (depth (from_node w)).
Proof. by destruct w as [s|s|s|s [] q|s q|s|s]. Qed.

Section engine.
Context `{Target} `{Kernel} `{HashOrder} (P : Packet.Packet → Prop) `{!Preserved P} `{!KernelLaws (delivers P)}.

(** The derived Debug prints all fields. *)
Context `{Debug AnyConf} (Hdebug : Inj (=) (=) debug).
Context (E : string → Prop) `{!Admits E} (Hnum : E "Ratio must be within 0.0 and 1.0" ∨ numeric).

Lemma implements_kind n t : implements (conf_of n) t → has_pull t = node_pulls n ∧ has_push t = true.
Proof. by destruct n as [s|s []|s [] q], t. Qed.

Lemma holds_wf c : holds c → wf_config P E c.
Proof.
  intros Hh. assert (∀ x cf, Config.apps c !! x = Some cf → ∃ n, is_node n ∧ x = name n ∧ cf = conf_of n) as Hnode.
  { intros x cf Hx. destruct (ho_only c Hh x) as (n & Hn & ->); [by eapply elem_of_dom_2|].
    rewrite (ho_apps c Hh n Hn) in Hx. injection Hx as <-. by exists n. }
  split; [by apply holds_wf_links| |].
  - intros x cf (n & Hn & -> & ->)%Hnode. by apply conf_of_ok.
  - intros x cf cf' I O (n & Hn & -> & ->)%Hnode Heq%String.eqb_eq%Hdebug Hwd. subst cf'.
    by apply (wires_fit c).
Qed.

Section configured.
Context (config : Config.Config AnyConf) (Hh : holds config).
Context (s s' : EngineState AnyConf AnyApp) (Q Q' : queues) (R' : gmap string res).
Context (Hc : consistent P E s' Q' R') (Hcf : configured config s Q s' Q').

Lemma node_app n : is_node n → ∃ a, app_table s' !! name n = Some a ∧ conf a = conf_of n ∧
  has_pull (app a) = node_pulls n ∧ has_push (app a) = true.
Proof.
  intros Hn. pose proof (ho_apps _ Hh n Hn) as Ha. pose proof (elem_of_dom_2 _ _ _ Ha) as Hd.
  rewrite <-(cf_apps _ _ _ _ _ Hcf) in Hd. apply elem_of_dom in Hd as [a Hd].
  pose proof (cf_conf _ _ _ _ _ Hcf _ _ _ Hd Ha) as Heq%String.eqb_eq%Hdebug.
  destruct (owned_by_lookup _ _ _ _ _ _ (ei_apps _ _ _ _ _ _ (cn_inv _ _ _ _ _ Hc)) Hd) as (r & _ & Hi & _).
  rewrite Heq in Hi. destruct (implements_kind _ _ Hi). by exists a.
Qed.

Lemma wire_linked w : is_wire w → linked (Config.links config) (name (from_node w)) (name (to_node w)).
Proof.
  intros Hw. exists (format w), (wire_spec w). split_and!; [|by apply Config.parse_format, wire_wf|done|done].
  apply (ho_links _ Hh). by exists w.
Qed.

Lemma node_pushes n : is_node n → pushes (app_table s') (name n).
Proof. intros Hn. destruct (node_app n Hn) as (a & Ha & _ & _ & Hp). by exists a. Qed.

Definition node_reached (n : node) : Prop := reached (app_table s') (Config.links config) (name n).

Lemma wire_reached w : is_wire w → node_reached (from_node w) ∨ node_pulls (from_node w) = true → node_reached (to_node w).
Proof.
  intros Hw Hf. destruct (wire_nodes w Hw) as (Hn & Ht & _). destruct Hf as [Hf|Hf].
  - by eapply reached_push; [exact Hf|apply wire_linked|apply node_pushes].
  - eapply reached_pull; [|by apply wire_linked|by apply node_pushes].
    destruct (node_app _ Hn) as (a & Ha & _ & Hp & _). exists a. by rewrite Hp.
Qed.

Lemma all_reached n : is_node n → node_reached n.
Proof.
  assert (∀ s, node_reached (Path s Tsd)) as Hr1 by (intros sd; apply (wire_reached (WTsd sd)); [done|by right]).
  assert (∀ s, node_reached (Path s Offload)) as Hr2 by (intros sd; apply (wire_reached (WOffload sd)); [done|left; apply Hr1]).
  assert (∀ s, node_reached (Path s Split)) as Hr3 by (intros sd; apply (wire_reached (WSplit sd)); [done|left; apply Hr2]).
  assert (∀ s q, known q → node_reached (Stage s SRate q)) as Hr4 by
    (intros sd q Hq; apply (wire_reached (WStage sd SRate q)); [done|left; apply Hr3]).
  assert (∀ s q, known q → node_reached (Stage s SLoss q)) as Hr5 by
    (intros sd q Hq; apply (wire_reached (WStage sd SLoss q)); [done|left; by apply Hr4]).
  assert (∀ s q, known q → node_reached (Stage s SLatency q)) as Hr6 by
    (intros sd q Hq; apply (wire_reached (WStage sd SLatency q)); [done|left; by apply Hr5]).
  assert (∀ s q, known q → node_reached (Stage s SJitter q)) as Hr7 by
    (intros sd q Hq; apply (wire_reached (WStage sd SJitter q)); [done|by right]).
  assert (∀ s, node_reached (Path s Join)) as Hr8 by (intros sd; apply (wire_reached (WJoin sd None)); [done|by right]).
  assert (∀ s, node_reached (Path s Top)) as Hr9 by (intros sd; apply (wire_reached (WTop sd)); [done|left; apply Hr8]).
  intros Hn. destruct n as [[]|sd []|sd [] q]; try done; [..|by apply Hr4|by apply Hr5|by apply Hr6|by apply Hr7].
  - apply (wire_reached (WIf Inner)); [done|left; apply Hr9].
  - apply (wire_reached (WIf Outer)); [done|left; apply Hr9].
Qed.

Lemma is_name_of x : x ∈ dom (app_table s') ↔ ∃ n, is_node n ∧ x = name n.
Proof.
  rewrite (cf_apps _ _ _ _ _ Hcf). split; [apply (ho_only _ Hh)|]. intros (n & Hn & ->).
  eapply elem_of_dom_2. by apply (ho_apps _ Hh).
Qed.

Lemma elem_of_inhale x : x ∈ inhale s' ↔ ∃ n, is_node n ∧ node_pulls n = true ∧ x = name n.
Proof.
  rewrite (cf_inhale _ _ _ _ _ Hcf). split.
  - intros (a & Ha & Hp). destruct (proj1 (is_name_of x)) as (n & Hn & ->); [by eapply elem_of_dom_2|].
    destruct (node_app n Hn) as (a' & Ha' & _ & Hp' & _). exists n. split_and!; [done|congruence|done].
  - intros (n & Hn & Hp & ->). destruct (node_app n Hn) as (a & Ha & _ & Hp' & _). exists a. split; [done|congruence].
Qed.

Lemma elem_of_exhale x : x ∈ exhale s' ↔ ∃ n, is_node n ∧ x = name n.
Proof.
  rewrite (cf_exhale _ _ _ _ _ Hcf). split.
  - intros Hx. assert (pushes (app_table s') x) as (a & Ha & _) by (by destruct Hx).
    apply is_name_of. by eapply elem_of_dom_2.
  - intros (n & Hn & ->). by apply all_reached.
Qed.

Lemma linked_wire x y :
  linked (Config.links config) x y → ∃ w, is_wire w ∧ x = name (from_node w) ∧ y = name (to_node w).
Proof.
  intros (l & sp & (w & Hw & ->)%(ho_links _ Hh) & Hp & <- & <-). exists w. by apply parse_wire in Hp as ->.
Qed.

Lemma node_pulls_spec n : is_node n → pulls (app_table s') (name n) ↔ node_pulls n = true.
Proof.
  intros Hn. destruct (node_app n Hn) as (a & Ha & _ & <- & _). split; [|by exists a].
  intros (b & Hb & Hp). congruence.
Qed.

Definition at_depth (x : string) (k : nat) : Prop := ∃ n, is_node n ∧ x = name n ∧ k = depth n.

Lemma graph_layered : layered (app_table s') (Config.links config) at_depth.
Proof.
  split.
  - intros x k k' (n & Hn & -> & ->) (n' & Hn' & Heq & ->). by apply name_inj in Heq as ->.
  - intros x y Hx (w & Hw & -> & ->)%linked_wire _. destruct (wire_nodes w Hw) as (Hf & Ht & _).
    exists (to_node w). split_and!; [done|done|]. apply node_pulls_spec in Hx; [|done]. by rewrite wire_depth, Hx.
  - intros x y k Hx (w & Hw & -> & ->)%linked_wire _ (n & Hn & Heq & ->). destruct (wire_nodes w Hw) as (Hf & Ht & _).
    apply name_inj in Heq as <-; [|done..]. exists (to_node w). split_and!; [done|done|].
    rewrite node_pulls_spec in Hx by done. apply not_true_is_false in Hx. by rewrite wire_depth, Hx.
Qed.

Lemma wire_in_order w :
  is_wire w → node_pulls (from_node w) = false → before (exhale s') (name (from_node w)) (name (to_node w)).
Proof.
  intros Hw Hp. destruct (wire_nodes w Hw) as (Hf & Ht & _).
  apply (cf_order _ _ _ _ _ Hcf at_depth graph_layered); [|by apply all_reached| |by apply wire_linked|by apply node_pushes].
  - intros x Hx. apply (cf_exhale _ _ _ _ _ Hcf), elem_of_exhale in Hx as (n & Hn & ->). exists (depth n), n. by split_and!.
  - rewrite node_pulls_spec by done. by rewrite Hp.
Qed.
End configured.

(** The engine has the graph as its network, and breathes through all of it. *)
Record implemented (s : EngineState AnyConf AnyApp) : Prop := {
  im_apps : ∀ x, x ∈ dom (app_table s) ↔ ∃ n, is_node n ∧ x = name n;
  im_confs : ∀ n, is_node n → conf <$> app_table s !! name n = Some (conf_of n);
  im_links : ∀ x, x ∈ dom (link_table s) ↔ ∃ w, is_wire w ∧ x = format w;
  im_inhale : ∀ x, x ∈ inhale s ↔ ∃ n, is_node n ∧ node_pulls n = true ∧ x = name n;
  im_exhale : ∀ x, x ∈ exhale s ↔ ∃ n, is_node n ∧ x = name n;
  im_once : NoDup (inhale s) ∧ NoDup (exhale s);
  im_order : ∀ w, is_wire w → node_pulls (from_node w) = false →
    before (exhale s) (name (from_node w)) (name (to_node w));
}.

Lemma configure_implements s Q R :
  consistent P E s Q R →
  wpx E (configure (adds Config.new additions)) (λ _ s', ∃ Q' R',
    ready P E s' Q' R' ∧ accounted s' Q' R' ∧ implemented s') s.
Proof.
  intros Hc. pose proof adds_holds as Hh. set (config := adds Config.new additions) in *. clearbody config.
  eapply wpx_mono; [by apply (configure_wp P E config s Q R), holds_wf|].
  intros [] s' (Q' & R' & Hc' & Hcf). exists Q', R'. pose proof (configured_ready _ _ _ _ _ _ _ _ (holds_wf _ Hh) Hc' Hcf) as Hr.
  split_and!; [done|by eapply ready_accounted|]. split.
  - by eapply is_name_of.
  - intros n Hn. by destruct (node_app config Hh s s' Q Q' R' Hc' Hcf n Hn) as (a & -> & <- & _).
  - rewrite (cf_links _ _ _ _ _ Hcf). apply (ho_links _ Hh).
  - by eapply elem_of_inhale.
  - by eapply elem_of_exhale.
  - apply (cf_once _ _ _ _ _ Hcf).
  - by eapply wire_in_order.
Qed.

(** Breathing leaves the network as it is. *)
Lemma breathed_implements s s' : breathed s s' → implemented s → implemented s'.
Proof.
  intros [Hl Ha [Hi Hx] _] [Happs Hconfs Hlinks Hin Hex Hnd Hord].
  assert (dom (app_table s') = dom (app_table s)) as Hd.
  { apply set_eq. intros n. rewrite !elem_of_dom. specialize (Ha n).
    destruct (app_table s !! n), (app_table s' !! n); simpl in Ha; try done; split; intros; by eexists. }
  split; rewrite ?Hd, ?Hl, ?Hi, ?Hx; try done.
  intros n Hn. rewrite <-(Hconfs n Hn). specialize (Ha (name n)).
  destruct (app_table s !! name n) as [a|], (app_table s' !! name n) as [a'|]; simpl in *; try done.
  by destruct Ha as (-> & _).
Qed.
End engine.

(** Whatever panics are admitted, a configuration of the graph is accepted. *)
Lemma holds_wf_any `{Target} `{Kernel} `{HashOrder} P `{!Preserved P} `{!KernelLaws (delivers P)} `{Debug AnyConf} c :
  holds c → wf_config P any c.
Proof.
  intros Hh. split; [by apply holds_wf_links| |].
  - intros x cf Hx. destruct (ho_only c Hh x) as (n & Hn & ->); [by eapply elem_of_dom_2|].
    rewrite (ho_apps c Hh n Hn) in Hx. injection Hx as <-. apply conf_of_ok; [by left|done].
  - intros. by apply fits_any_any.
Qed.

Section network.
Context `{Target} `{Kernel} `{HashOrder} (P : Packet.Packet → Prop) `{!Preserved P} `{!KernelLaws (delivers P)}.
Context `{Debug AnyConf} (Hdebug : Inj (=) (=) debug).

(** C4. configure_synthetic_network, for two devices and a specification whose
    labels were sanitized, builds a configuration of exactly the apps and links
    of the graph: in each direction the path from one device to the other,
    through segmentation, checksums, the split into flows, for each flow and for
    the rest rate limit, loss, latency and jitter with the numbers of the
    specification, the join and the profile.  The engine accepts it: links are
    between different existing apps, and no port has two. *)
Theorem synthetic_network_configured :
  ∃ config,
    configure_synthetic_network outer_ifname inner_ifname ingress_profile egress_profile spec Config.new = Ok (tt, config) ∧
    holds config ∧ wf_config P any config.
Proof.
  exists (adds Config.new additions). split_and!; [apply does_additions|apply adds_holds|apply holds_wf_any, adds_holds].
Qed.

(** C3. The engine runs the synthetic network: from whatever network was
    configured before, configure leads to a state that is ready to breathe,
    with no packet lost, whose apps are those of the graph with their
    configurations, whose links are the wires, and whose breaths pull from the
    devices and the delay queues, and push through every app of the graph, each
    after the apps that feed it, so that one breath can take a packet from a device
    to the delay queues, or from those to the other device. *)
Theorem synthetic_network_runs s Q R :
  consistent P any s Q R →
  ∃ config,
    configure_synthetic_network outer_ifname inner_ifname ingress_profile egress_profile spec Config.new = Ok (tt, config) ∧
    wpx any (configure config) (λ _ s', ∃ Q' R',
      ready P any s' Q' R' ∧ accounted s' Q' R' ∧ implemented s') s.
Proof.
  intros Hc. exists (adds Config.new additions). split; [apply does_additions|]. eapply configure_implements; [done|by left|done].
Qed.
End network.
End graph.
