(* ===== verification/Routes.v ===== *)
(** * synthetic_network.rs: the ways through the network

    Along the links that [configure_synthetic_network] makes, and that the engine
    then has, packets can take these ways from device to device, and no others:
    one for each flow in each direction, and one for the packets of no flow. *)

From S2P Require Import Prelude Checksum Kernel App Frames Engine Interface AppRules Apps BreatheOrder Configure Reconfigure.
From S2P Require Import SyntheticNetwork SyntheticGraph.
From S2P Require Packet Config.

(** Apps each of which is linked to the next one. *)
Fixpoint connected (links : gset string) (xs : list string) : Prop :=
  match xs with
  | x :: rest => match rest with y :: _ => linked links x y | [] => True end ∧ connected links rest
  | [] => True
  end.

(** The apps on the way from the device of [s] to the other one, for the packets
    of flow [q]. *)
Definition route (s : side) (q : option SyntheticFlow) : list node :=
  [Path s Tsd; Path s Offload; Path s Split;
   Stage s SRate q; Stage s SLoss q; Stage s SLatency q; Stage s SJitter q;
   Path s Join; Path s Top].

Definition is_device (n : node) : bool := match n with If _ => true | _ => false end.

Section routes.
Context (outer_ifname inner_ifname ingress_profile egress_profile : string) (spec : SyntheticNetwork).
Context (Hv : valid outer_ifname inner_ifname spec).
Abbreviation name := (name outer_ifname inner_ifname).
Abbreviation ifname := (ifname outer_ifname inner_ifname).
Abbreviation is_node := (is_node spec).
Abbreviation is_wire := (is_wire spec).

Definition device (x : string) : Prop := ∃ sd, x = ifname sd.

(** The ways along [links] from the device of side [sd], with no device in
    between, are the routes of the flows. *)
Definition ways (links : gset string) (sd : side) : Prop :=
  (∀ q, known spec q → connected links (name <$> If sd :: route sd q ++ [If (other sd)])) ∧
  (∀ xs y, connected links (ifname sd :: xs ++ [y]) → Forall (λ x, ¬ device x) xs → device y →
     ∃ q, known spec q ∧ xs = name <$> route sd q ∧ y = ifname (other sd)).

Section holding.
Context (c : Config.Config AnyConf).
Context (Hs : holds outer_ifname inner_ifname ingress_profile egress_profile spec c).
Abbreviation links := (Config.links c).

Lemma name_device sd : name (If sd) = ifname sd.
Proof. apply Config.append_nil. Qed.

Lemma device_node n : is_node n → device (name n) → is_device n = true.
Proof. intros Hn [sd Hx]. rewrite <-name_device in Hx. by apply (name_inj _ _ _ Hv n (If sd)) in Hx as ->. Qed.

Lemma wire_links w : is_wire w → linked links (name (from_node w)) (name (to_node w)).
Proof.
  intros Hw. exists (format outer_ifname inner_ifname w), (wire_spec outer_ifname inner_ifname w).
  split_and!; [|by eapply Config.parse_format, wire_wf|done|done]. apply (ho_links _ _ _ _ _ _ Hs). by exists w.
Qed.

Lemma link_wires n y :
  is_node n → linked links (name n) y → ∃ w, is_wire w ∧ from_node w = n ∧ y = name (to_node w).
Proof.
  intros Hn (l & sp & (w & Hw & ->)%(ho_links _ _ _ _ _ _ Hs) & Hp & Hf & <-). eapply parse_wire in Hp as ->; [|done..].
  destruct (wire_nodes spec w Hw) as (Hfn & _ & _). exists w. split_and!; [done| |done].
  by eapply name_inj.
Qed.

(** One step on a way to a device. *)
Lemma walk n xs y :
  is_node n → connected links (name n :: xs ++ [y]) → Forall (λ x, ¬ device x) xs → device y →
  ∃ w, is_wire w ∧ from_node w = n ∧
    if is_device (to_node w) then xs = [] ∧ y = name (to_node w)
    else ∃ xs', xs = name (to_node w) :: xs' ∧ connected links (name (to_node w) :: xs' ++ [y]) ∧
      Forall (λ x, ¬ device x) xs'.
Proof.
  intros Hn Hc Hxs Hy. destruct xs as [|x xs]; simpl in Hc.
  - destruct Hc as [(w & Hw & Hf & ->)%link_wires _]; [|done]. exists w. split_and!; [done..|].
    destruct (wire_nodes spec w Hw) as (_ & Ht & _). by rewrite (device_node _ Ht Hy).
  - destruct Hc as [(w & Hw & Hf & ->)%link_wires Hc]; [|done]. exists w. split_and!; [done..|].
    apply Forall_cons in Hxs as [Hx Hxs]. destruct (is_device (to_node w)) eqn:Hd.
    + destruct Hx. destruct (to_node w) as [sd| |]; try done. exists sd. apply name_device.
    + by exists xs.
Qed.

(** The next app on the way, where there is no choice but that of a flow. *)
Ltac walk_on H :=
  let w := fresh "w" in
  apply walk in H as (w & ? & ? & H); [|done..];
  destruct w as [?|?|?|? [] ?|? ?|?|?]; simplify_eq/=;
  destruct H as (? & -> & H & ?).

Lemma holds_ways sd : ways links sd.
Proof.
  split.
  - intros q Hq.
    cbn [route fmap list_fmap app connected].
    split; [apply (wire_links (WTsd sd)); done|]. split; [apply (wire_links (WOffload sd)); done|].
    split; [apply (wire_links (WSplit sd)); done|]. split; [by apply (wire_links (WStage sd SRate q))|].
    split; [by apply (wire_links (WStage sd SLoss q))|]. split; [by apply (wire_links (WStage sd SLatency q))|].
    split; [by apply (wire_links (WStage sd SJitter q))|]. split; [by apply (wire_links (WJoin sd q))|].
    split; [by apply (wire_links (WTop sd))|]. split; [by apply (wire_links (WIf sd))|]. done.
  - intros xs y Hc Hxs Hy. rewrite <-name_device in Hc.
    do 9 walk_on Hc. apply walk in Hc as (w & Hw & Hf & Hd); [|done..].
    destruct w as [?|?|?|? [] ?|? ?|?|?]; simplify_eq/=. destruct Hd as [-> ->].
    rewrite <-name_device. eexists. split_and!; [|reflexivity|done]. done.
Qed.
End holding.

Section configured.
Context `{Target} `{Kernel} `{HashOrder} (P : Packet.Packet → Prop) `{!Preserved P} `{!KernelLaws (delivers P)}.
Context `{Debug AnyConf} (Hdebug : Inj (=) (=) debug).

(** C5. Isolation of the directions: in the network that is configured for a
    specification every way from a device to a device, with no device in
    between, leads from one device to the other one; it passes segmentation,
    checksums, the split, then the rate limit, loss, latency and jitter of one
    flow, or those for the packets of no flow, the join and the profile of its
    direction, in this order, and nothing else.  There is such a way for every
    flow, and the apps on it are configured with the numbers of that flow and
    direction.  The links are those that configure_synthetic_network makes, and,
    whatever ran before, those that the engine has after configure. *)
Theorem routes_through_qos s Q R :
  numeric spec → consistent P fatal s Q R →
  ∃ config,
    configure_synthetic_network outer_ifname inner_ifname ingress_profile egress_profile spec Config.new = Ok (tt, config) ∧
    (∀ sd, ways (Config.links config) sd) ∧
    (∀ sd q n, known spec q → n ∈ If sd :: route sd q ++ [If (other sd)] →
       Config.apps config !! name n = Some (conf_of outer_ifname inner_ifname ingress_profile egress_profile spec n)) ∧
    wpx fatal (configure config) (λ _ s', dom (link_table s') = Config.links config ∧
       ∀ n a, app_table s' !! n = Some a → Config.apps config !! n = Some (conf a)) s.
Proof.
  intros Hn Hc. pose proof (adds_holds outer_ifname inner_ifname ingress_profile egress_profile spec Hv) as Hh.
  eexists. split; [by apply does_additions|]. set (config := adds _ _ _ _ _ _ _) in *. clearbody config.
  split_and!; [intros sd; by apply holds_ways|intros sd q n Hq Hin; apply (ho_apps _ _ _ _ _ _ Hh)|].
  - simpl in Hin. repeat (apply elem_of_cons in Hin as [->|Hin]; [done|]). by apply not_elem_of_nil in Hin.
  - eapply wpx_mono; [apply (configure_wp P fatal config s Q R); [done|]|].
    { apply (holds_wf outer_ifname inner_ifname ingress_profile egress_profile spec Hv P Hdebug fatal); [by right|done]. }
    
    intros _ s' (Q' & R' & _ & Hcf). split; [apply Hcf|]. intros n a Ha.
    assert (is_Some (Config.apps config !! n)) as [cf Hcfn].
    { apply elem_of_dom. rewrite <-(cf_apps _ _ _ _ _ Hcf). by eapply elem_of_dom_2. }
    rewrite Hcfn. f_equal. symmetry. apply Hdebug, String.eqb_eq. by apply (cf_conf _ _ _ _ _ Hcf n a cf).
Qed.
End configured.
End routes.
