(* ===== verification/Serve.v ===== *)
(** * synthetic_network.rs: the program

    [main]: for ever, read the specification, configure the network that it
    describes, and run it until SIGHUP is received.  Every round ends in a
    state from which the next one can start, or in one of the [fatal] panics. *)

From S2P Require Import Prelude Bytes Checksum Packet Kernel App Frames Engine Interface Provenance AppRules Apps.
From S2P Require Import BreatheOrder Configure Reconfigure Breathe Report Network SyntheticNetwork SyntheticGraph.
From S2P Require Config Qos.
#[local] Open Scope Z_scope.

(** ** Reading the specification *)

(** [file] is what opening the file and serde_json give: an error, or a value. *)
Definition read_qos_spec (file : string + SyntheticNetwork) : string + SyntheticNetwork :=
  match file with
  | inl error => inl error
  | inr spec =>
      match sanitize_labels spec with
      | inl error => inl error
      | inr _ => inr spec
      end
  end.

Definition try_read_qos_spec (file : string + SyntheticNetwork) : option SyntheticNetwork :=
  match read_qos_spec file with
  | inr spec => Some spec
  | inl _ => None
  end.

(** ** One round of the loop *)

Section serve.
Context `{Target} `{Kernel} `{HashOrder} `{Debug AnyConf}.
Context (outer_ifname inner_ifname ingress_profile egress_profile : string).
Abbreviation Engine := (EngineState AnyConf AnyApp).

(** Whether SIGHUP has arrived since the last time that the engine asked, for
    every breath. *)
Context (sighup : nat → bool).

(** Box::new(move || flag.swap(false, Ordering::Relaxed)) *)
Definition signal_received : ST Engine bool := s ← get; mret (sighup (ticks (world s))).

Definition realize (spec : SyntheticNetwork) : ST Engine () :=
  '(_, c) ← lift (configure_synthetic_network outer_ifname inner_ifname ingress_profile egress_profile spec Config.new);
  configure c.

(** The body of [loop]; [fuel] bounds the breaths of a round. *)
Definition round (fuel : nat) (file : string + SyntheticNetwork) : ST Engine (option LoadReport) :=
  match try_read_qos_spec file with
  | Some spec => realize spec
  | None => mret tt
  end;;
  Breathe.main fuel (Some (mkOptions (Some signal_received) None false false false false));;
  report_load.

(** [files] are the contents of the file, round by round. *)
Fixpoint rounds (fuel : nat) (files : list (string + SyntheticNetwork)) : ST Engine () :=
  match files with
  | [] => mret tt
  | file :: files => round fuel file;; rounds fuel files
  end.
End serve.

(** ** The program *)

(** The specification that [print_usage] shows as an example. *)
Definition usage_spec : SyntheticNetwork :=
  let zero := Qos.f64_zero in
  let fast := mkQoS 100000000 zero 0 0 zero false in
  mkSyntheticNetwork
    (mkSyntheticLink (mkQoS 10000000 zero 0 0 zero false) (mkQoS 1000000 zero 0 0 zero false))
    [mkSyntheticFlow "http" (mkFlow 0 6 80 80) (mkSyntheticLink fast fast)].

(** What it prints: the line with the name of the program, and the example. *)
Definition print_usage (exe : string) : string * SyntheticNetwork :=
  ("Usage: " +:+ exe +:+ " <outer_ifname> <inner_ifname> <specpath> <ingress_profile> <egress_profile>", usage_spec).

Inductive progress : Type :=
  | Exited (status : Z) (message : string) (usage : string * SyntheticNetwork)
  | Runs.

(** [contents path] is what the file at [path] holds, each time that it is
    read; the loop has no end, [Runs] is its state after that many rounds. *)
Definition main `{Target} `{Kernel} `{HashOrder} `{Debug AnyConf} (sighup : nat → bool) (fuel : nat)
    (contents : string → list (string + SyntheticNetwork)) (args : list string) : ST (EngineState AnyConf AnyApp) progress :=
  match args with
  | [] => lift (Panic "index out of bounds: the len is 0 but the index is 0")
  | [_; outer_ifname; inner_ifname; specpath; ingress_profile; egress_profile] =>
      rounds outer_ifname inner_ifname ingress_profile egress_profile sighup fuel (contents specpath);;
      mret Runs
  | exe :: _ => mret (Exited 1 "Invalid number of arguments." (print_usage exe))
  end.

(** ** Every round *)

(** The fields are machine integers. *)
Definition typed (spec : SyntheticNetwork) : Prop :=
  ∀ l, l ∈ default_link spec :: (link <$> flows spec) → is_u64 (latency (ingress l)) ∧ is_u64 (latency (egress l)).

Definition typed_file (file : string + SyntheticNetwork) : Prop :=
  match file with inl _ => True | inr spec => typed spec end.

(** JSON has no NaN. *)
Definition numeric_file (file : string + SyntheticNetwork) : Prop :=
  match file with inl _ => True | inr spec => numeric spec end.

(** A good specification: its flows have different labels, which are words, and
    none is named after the default output. *)
Definition good_spec (spec : SyntheticNetwork) : Prop :=
  Forall (λ f, label f ≠ "default" ∧ Config.is_name (label f)) (flows spec) ∧ NoDup (label <$> flows spec).

#[export] Instance all_word_dec s : Decision (Config.all_word s).
Proof. induction s; simpl; apply _. Defined.
#[export] Instance good_spec_dec spec : Decision (good_spec spec).
Proof. unfold good_spec, Config.is_name. apply _. Defined.

(** What the network is after a file was read: a file that is missing, malformed
    or not good leaves it alone. *)
Definition latest (before : option SyntheticNetwork) (file : string + SyntheticNetwork) : option SyntheticNetwork :=
  match file with
  | inl _ => before
  | inr spec => if decide (good_spec spec) then Some spec else before
  end.

Lemma try_read_good spec : try_read_qos_spec (inr spec) = if decide (good_spec spec) then Some spec else None.
Proof.
  unfold try_read_qos_spec, read_qos_spec. pose proof (check_labels_good (flows spec)) as Hl.
  fold (sanitize_labels spec) in Hl. fold (good_spec spec) in Hl.
  destruct (sanitize_labels spec) as [e|[]]; case_decide as Hg; naive_solver.
Qed.

Lemma latest_read o file : latest o file = match try_read_qos_spec file with Some spec => Some spec | None => o end.
Proof. destruct file as [e|spec]; [done|]. simpl. rewrite try_read_good. by case_decide. Qed.

Section serving.
Context `{Target} `{Kernel} `{HashOrder} `{Debug AnyConf} (Hdebug : Inj (=) (=) debug).
Context (outer_ifname inner_ifname ingress_profile egress_profile : string).
Context (Houter : alnum outer_ifname) (Hinner : alnum inner_ifname) (Hdiffer : outer_ifname ≠ inner_ifname).
Context (sighup : nat → bool) (fuel : nat).
Context (Hsighup : ∀ k, ∃ n, (n ≤ fuel)%nat ∧ sighup (k + n)%nat = true).
Implicit Types (s : EngineState AnyConf AnyApp).

Section preserving.
Context (P : Packet → Prop) `{!Preserved P} `{!KernelLaws (delivers P)} (E : string → Prop) `{!Admits E}.

(** The file has machine integers, and numbers where the panic of Loss is not admitted. *)
Definition readable (file : string + SyntheticNetwork) : Prop :=
  typed_file file ∧ (E "Ratio must be within 0.0 and 1.0" ∨ numeric_file file).

(** The network is that of a specification, or empty. *)
Definition serving (o : option SyntheticNetwork) s : Prop :=
  match o with
  | Some spec => implemented outer_ifname inner_ifname ingress_profile egress_profile spec s
  | None => app_table s = ∅ ∧ link_table s = ∅
  end.

Lemma breathed_serving o s s' : breathed s s' → serving o s → serving o s'.
Proof.
  intros Hb. destruct o as [spec|]; [by eapply breathed_implements|]. intros [Ha Hl].
  destruct Hb as [Hl' Ha' _ _]. split; [|by rewrite Hl']. apply map_eq. intros n.
  specialize (Ha' n). rewrite Ha, lookup_empty in *. by destruct (app_table s' !! n).
Qed.

Lemma read_valid file spec :
  typed_file file → try_read_qos_spec file = Some spec → valid outer_ifname inner_ifname spec.
Proof.
  intros Ht Hr. destruct file as [e|spec']; [done|]. unfold try_read_qos_spec, read_qos_spec, sanitize_labels in Hr.
  destruct (check_labels ∅ (flows spec')) as [e|[]] eqn:Hc; [done|]. injection Hr as ->.
  apply check_labels_spec in Hc as (Hf & Hn & _). split; try done.
  intros sd q Hq. unfold qos_of. destruct q as [f|]; simpl in Hq.
  - destruct (Ht (link f)) as [? ?]; [right; by apply list_elem_of_fmap_2|]. by destruct sd.
  - destruct (Ht (default_link spec)) as [? ?]; [left|]. by destruct sd.
Qed.

Lemma realize_wp file spec s Q R :
  readable file → try_read_qos_spec file = Some spec → ready P E s Q R →
  wpx E (realize outer_ifname inner_ifname ingress_profile egress_profile spec)
    (λ _ s', ∃ Q' R', ready P E s' Q' R' ∧ serving (Some spec) s') s.
Proof.
  intros [Ht Hnum] Hread [Hc _ _ _]. pose proof (read_valid file spec Ht Hread) as Hv. unfold realize.
  assert (E "Ratio must be within 0.0 and 1.0" ∨ numeric spec) as Hn.
  { destruct file as [e|spec']; [done|]. unfold try_read_qos_spec, read_qos_spec in Hread.
    destruct (sanitize_labels spec') as [e|[]]; [done|]. by injection Hread as ->. }
  apply wpx_bind. eapply wpx_lift; [by apply does_additions|].
  eapply wpx_mono; [by eapply configure_implements|]. intros [] s' (Q' & R' & Hr & _ & Hi). by exists Q', R'.
Qed.

Lemma signal_polls s0 : polls P E s0 (signal_received sighup) (λ k, sighup (S k)).
Proof. intros k s [_ _ _ Ht]. unfold signal_received, mbind, st_bind, get. by rewrite Ht. Qed.

Lemma main_signal_wp s Q R :
  ready P E s Q R →
  wpx E (Breathe.main fuel (Some (mkOptions (Some (signal_received sighup)) None false false false false)))
    (λ _ s', ∃ Q' R', ready P E s' Q' R' ∧ breathed s s') s.
Proof.
  intros Hr. destruct (Hsighup (S (ticks (world s)))) as (n & Hn & Hst).
  destruct (first_stop_exists (λ k, sighup (S k)) (ticks (world s)) n Hst) as (m & Hm & Hp).
  unfold Breathe.main, until. simpl. apply wpx_bind, wpx_ret.
  eapply wpx_mono; [by eapply (main_run P E s _ _ s Q R m); [| | |apply signal_polls|exact Hp|lia]|].
  intros [] s' (Q' & R' & Hr' & Hb & _). by exists Q', R'.
Qed.

Lemma report_load_wp s Q R :
  ready P E s Q R →
  wpx E report_load (λ _ s', ready P E s' Q R ∧ breathed s s') s.
Proof.
  intros Hr. unfold report_load. apply wpx_bind, wpx_get, wpx_bind.
  assert (∀ s1, ready P E s1 Q R → wpx E (in_world now) (λ _ s2, ready P E s2 Q R ∧ breathed s1 s2) s1) as Hnow.
  { intros s1 Hr1. apply wpx_in_world. eapply wpx_mono; [apply now_wp|]. intros t w' Hw.
    split; [by apply ready_world|]. apply breathed_intro; try done. apply Hw. }
  assert (wpx E (match LASTLOADREPORT (reported s) with
    | Some lastloadreport =>
        t ← in_world now;
        let interval := as_secs_f64 (Z.max 0 (t - lastloadreport)) in
        mret (Some (load_numbers (since (STATS (mem (world s))) (reported s)) interval (SLEEP s)))
    | None => mret None
    end) (λ _ s', ready P E s' Q R ∧ breathed s s') s) as Hrep.
  { destruct (LASTLOADREPORT (reported s)); [|by apply wpx_ret]. apply wpx_bind. eapply wpx_mono; [by apply Hnow|].
    intros t s' [Hr' Hb]. by apply wpx_ret. }
  eapply wpx_mono; [exact Hrep|]. intros rep s1 [Hr1 Hb1]. apply wpx_bind. eapply wpx_mono; [by apply Hnow|].
  intros t s2 [Hr2 Hb2]. apply wpx_bind, wpx_modify, wpx_ret. split.
  - by apply ready_reported.
  - etrans; [exact Hb1|]. etrans; [exact Hb2|]. by apply breathed_intro.
Qed.

Lemma round_wp file o s Q R :
  readable file → ready P E s Q R → serving o s →
  wpx E (round outer_ifname inner_ifname ingress_profile egress_profile sighup fuel file)
    (λ _ s', ∃ Q' R', ready P E s' Q' R' ∧ serving (latest o file) s') s.
Proof.
  intros Ht Hr Hs. unfold round. rewrite latest_read. apply wpx_bind.
  eapply wpx_mono with (Q := λ _ s', ∃ Q' R', ready P E s' Q' R' ∧
    serving match try_read_qos_spec file with Some spec => Some spec | None => o end s').
  { destruct (try_read_qos_spec file) as [spec|] eqn:Hf; [by eapply realize_wp|]. apply wpx_ret. by exists Q, R. }
  intros [] s1 (Q1 & R1 & Hr1 & Hs1). apply wpx_bind. eapply wpx_mono; [by eapply main_signal_wp|].
  intros [] s2 (Q2 & R2 & Hr2 & Hb2). eapply wpx_mono; [by eapply report_load_wp|].
  intros ? s3 [Hr3 Hb3]. exists Q2, R2. split; [done|]. eapply breathed_serving; [|exact Hs1]. by etrans.
Qed.

Lemma rounds_wp files o s Q R :
  Forall readable files → ready P E s Q R → serving o s →
  wpx E (rounds outer_ifname inner_ifname ingress_profile egress_profile sighup fuel files)
    (λ _ s', ∃ Q' R', ready P E s' Q' R' ∧ accounted s' Q' R' ∧ serving (foldl latest o files) s') s.
Proof.
  revert o s Q R. induction files as [|file files IH]; intros o s Q R Ht Hr Hs; simpl.
  - apply wpx_ret. exists Q, R. split_and!; [done|by eapply ready_accounted|done].
  - apply Forall_cons in Ht as [Hf Ht]. apply wpx_bind. eapply wpx_mono; [by eapply round_wp|].
    intros rep s' (Q' & R' & Hr' & Hs'). by eapply IH.
Qed.

End preserving.

(** C1. The program serves the latest good specification.  If SIGHUP arrives
    again and again, at most [fuel] breaths apart, then every round of the
    loop of main ends, whatever the file holds each time; the engine is then
    ready to breathe on, no packet is lost, and its network is the one of the
    last specification that could be read and whose labels are sound, with
    all of its apps, links and numbers (nothing, if there was none yet): a
    file that is missing, malformed or unsound leaves the network alone.  The
    only panics on the way are [fatal]: the packets are used up
    ("Packet allocation overflow"), a delay queue has no packet behind a delay
    ("Queue underflow.", "Expected packet."), or libc refused a socket, a
    select, read or write, or the file of a profile.  No assertion about the
    arguments of an app, no missing port and no link that is borrowed twice is
    among them: the network that a good specification describes has none. *)
Theorem synthetic_network_serves P `{!Preserved P} `{!KernelLaws (delivers P)} exe specpath contents o s Q R :
  Forall typed_file (contents specpath) → Forall numeric_file (contents specpath) →
  ready P fatal s Q R → serving o s →
  wpx fatal (main sighup fuel contents [exe; outer_ifname; inner_ifname; specpath; ingress_profile; egress_profile])
    (λ p s', p = Runs ∧ ∃ Q' R', ready P fatal s' Q' R' ∧ accounted s' Q' R' ∧
      serving (foldl latest o (contents specpath)) s') s.
Proof.
  intros Ht Hn Hr Hs. unfold main. apply wpx_bind. eapply wpx_mono; [eapply (rounds_wp P fatal); [|exact Hr|exact Hs]|].
  - apply Forall_and; split; [done|]. eapply Forall_impl; [exact Hn|]. by right.
  - intros [] s' Hs'. by apply wpx_ret.
Qed.

(** C2. The program makes nothing up.  If devices deliver proper frames with
    [delivered], then whatever specifications it serves, every frame that it
    ever writes to a device is made from one that was delivered: the same
    addresses; for TCP, the same bytes of the stream at the same sequence number
    (the header but for checksum and sequence number, and the payload a part of
    the delivered one); for UDP, the same but for the checksum; and any other
    frame unchanged. *)
Theorem synthetic_network_forwards (delivered : bytes → Prop) exe specpath contents clk r :
  KernelLaws delivered → (∀ bs, delivered bs → proper_frame bs) →
  Forall typed_file (contents specpath) → (∀ k, is_instant (clk k)) →
  wpx any (main sighup fuel contents [exe; outer_ifname; inner_ifname; specpath; ingress_profile; egress_profile])
    (λ _ s', Forall (accountable delivered) (written (syscalls (world s')))) (init_engine None clk r).
Proof.
  intros Hk Hp Ht Hc. pose proof (originates_laws delivered Hk Hp) as Hk'.
  destruct (runs_ready (originates delivered) any _ (runs_start (originates delivered) any clk r Hc)) as (Q & R & Hr).
  unfold main. apply wpx_bind. eapply wpx_mono; [apply (rounds_wp (originates delivered) any _ None _ Q R); [|exact Hr|by split]|].
  { eapply Forall_impl; [exact Ht|]. intros file Hf. by split; [|left]. }
  intros [] s' (Q' & R' & Hr' & _). apply wpx_ret. eapply Forall_impl; [exact (ready_sent (originates delivered) any _ _ _ Hr')|].
  apply sendable_accountable.
Qed.
End serving.

(** With any other number of arguments the program exits and touches nothing. *)
Lemma main_usage `{Target} `{Kernel} `{HashOrder} `{Debug AnyConf} sighup fuel contents exe args s :
  length args ≠ 5%nat → main sighup fuel contents (exe :: args) s = Ok (Exited 1 "Invalid number of arguments." (print_usage exe), s).
Proof. intros Hl. by do 6 (destruct args as [|? args]; [done|]). Qed.

(** The example of [print_usage] is itself a specification that is accepted. *)
Example usage_accepted : try_read_qos_spec (inr usage_spec) = Some usage_spec ∧ typed usage_spec.
Proof. split; [vm_compute; reflexivity|]. refine (proj1 (Forall_forall (λ l, is_u64 (latency (ingress l)) ∧ is_u64 (latency (egress l))) _) _). by_compute. Qed.
