(* ===== verification/Selftest.v ===== *)
(** * The tests of the program: data structures

    The tests that the modules carry, as computations on the model: a test
    passes when it returns.  What they print is their result.  Those of
    checksum.rs, which work on random bytes, are shown to pass whatever the
    bytes are, and its benchmarks for which settings they end; the others are
    run.  The tests of engines are in SelftestApps. *)

From Stdlib Require Import Floats.SpecFloat.
From S2P Require Import Prelude Bytes Lib Checksum Header Packet Kernel App.
From S2P Require Ethernet Ipv4 Tcp Link Config BasicApps.
#[local] Existing Instances Ethernet.Ethernet_layout Ipv4.IPv4_layout Tcp.TCP_layout.
#[local] Open Scope Z_scope.

(** ** checksum.rs *)

(** assert_eq! *)
Definition assert_eq (left right : Z) : outcome () := assert "assertion `left == right` failed" (left =? right).

Definition bytes_1_to_16 : bytes := [1; 2; 3; 4; 5; 6; 7; 8; 9; 10; 11; 12; 13; 14; 15; 16].

Definition checksum_cases : list bytes :=
  [[0xff; 0xff; 0xff; 0xff; 0xff];
   [0; 0; 0; 0; 0];
   [42; 41; 40; 39; 38; 37; 36; 35; 34; 33; 32; 31; 30; 29; 28];
   [];
   bytes_1_to_16 ++ bytes_1_to_16 ++ bytes_1_to_16 ++ take 15 bytes_1_to_16].

Definition checksum_test `{Target} : outcome () :=
  mapM (λ case,
    mapM (λ l, n ← checksum_rust case l; sum ← ipsum case l 0; assert_eq sum n)
      (seqZ 0 (Z.of_nat (length case) + 1))) checksum_cases;;
  Ok tt.

(** [l - 1] bytes of ones, and a one. *)
Definition carry_case (l : nat) : bytes :=
  let case := replicate l 0 in
  let case := foldl (λ case i, <[i := 0xff]> case) case (seq 0 (l - 1)) in
  <[(l - 1)%nat := 1]> case.

Definition checksum_carry_test `{Target} : outcome () :=
  mapM (λ l, let case := carry_case l in
    n ← checksum_rust case (Z.of_nat l); sum ← ipsum case (Z.of_nat l) 0; assert_eq sum n) (seq 2 62);;
  Ok tt.

Example checksum_tests_pass (t : target_arch) :
  @checksum_test t = Ok tt ∧ @checksum_carry_test t = Ok tt.
Proof. by destruct t; vm_compute. Qed.

Section random.
Context `{Kernel}.

(** lib.rs: fill slice with random bytes. *)
Definition random_bytes (dst : bytes) (n : nat) : ST World bytes :=
  let n := Nat.min n (length dst) in
  r ← syscall (Getrandom (Z.of_nat n));
  if negb (ret r =? Z.of_nat n) then panic "getrandom(2) failed"
  else mret (copy dst (data r) n).

(** The bytes are new ones, as many as were asked for; the others stay. *)
Lemma random_bytes_wp `{!RandomLaws} dst n w :
  wpx (.= "getrandom(2) failed") (random_bytes dst n) (λ dst' w', length dst' = length dst ∧
    drop n dst' = drop n dst ∧ (are_bytes dst → are_bytes dst') ∧
    ∃ h, w' = set_syscalls (h :: syscalls w) w) w.
Proof.
  unfold random_bytes, wpx, syscall, mbind, st_bind. cbn zeta.
  set (m := Nat.min n (length dst)).
  destruct (Z.eqb_spec (ret (answer (Getrandom (Z.of_nat m) :: syscalls w))) (Z.of_nat m)) as [Hr|]; simpl; [|done].
  destruct (getrandom_fills (syscalls w) (Z.of_nat m)) as [Hl Hb]; [lia|]. rewrite Hr in Hl.
  split_and!.
  - apply length_copy.
  - unfold copy. rewrite drop_app, drop_drop, length_take.
    rewrite (drop_ge (take _ _)) by (rewrite length_take; lia). simpl.
    destruct (decide (n ≤ length dst)%nat); [f_equal; lia|]. rewrite !drop_ge by lia. done.
  - intros. by apply copy_are_bytes.
  - by eexists.
Qed.

Context `{Target}.

(** The body of the inner loop, on a packet of [l] random bytes. *)
Definition checksum_random_case (l : nat) : ST World () :=
  case ← random_bytes (replicate l 0) l;
  r ← lift (checksum_rust case (Z.of_nat l));
  n ← lift (ipsum case (Z.of_nat l) 0);
  if negb (r =? n) then panic "mismatch" else mret tt.

Definition checksum_random_test : ST World () :=
  for_st (seq 1 32) (λ _, for_st (seq 0 1501) checksum_random_case).

(** The test does not depend on the random bytes that it draws: whatever the
    kernel delivers, the routine of the target agrees with the reference. *)
Theorem checksum_random_passes `{!RandomLaws} w :
  wpx (.= "getrandom(2) failed") checksum_random_test (λ _ _, True) w.
Proof.
  assert (∀ ls w, Forall (λ l, l ≤ 1500)%nat ls →
    wpx (.= "getrandom(2) failed") (for_st ls checksum_random_case) (λ _ _, True) w) as Hinner.
  { clear w. intros ls w Hls. revert w. induction Hls as [|l ls Hl _ IH]; intros w; [done|]. simpl.
    apply wpx_bind. unfold checksum_random_case. apply wpx_bind. eapply wpx_mono; [apply random_bytes_wp|].
    intros case w' (Hlen & _ & Hb & _). rewrite length_replicate in Hlen.
    assert (are_bytes case) by (apply Hb; by apply Forall_replicate). rewrite <-Hlen.
    apply wpx_bind. eapply wpx_lift; [apply checksum_rust_spec; [done|lia|lia]|].
    apply wpx_bind. eapply wpx_lift; [apply ipsum_spec_ok; [done|lia|lia|done]|].
    rewrite Z.eqb_refl. apply IH. }
  unfold checksum_random_test. generalize (seq 1 32). intros rounds. revert w.
  induction rounds as [|i rounds IH]; intros w; [done|]. cbn [for_st].
  apply wpx_bind. eapply wpx_mono; [apply Hinner|intros; apply IH].
  apply Forall_forall. intros l Hl%elem_of_seq. lia.
Qed.

(** The benchmarks, of [nchunks] chunks; the settings are arguments, in place
    of the variables of the environment. *)
Definition checksum_bench (nchunks chunksize : Z) : ST World Z :=
  case ← random_bytes (replicate (Z.to_nat nchunks) 0) (Z.to_nat chunksize);
  while_st (Z.to_nat nchunks) (λ i, mret (i <? nchunks))
    (λ i, _ ← lift (ipsum case chunksize 0); mret (i + 1)) 0.

(** [&pool[x as usize & (poolsize-1)..]], a pseudo-random offset. *)
Definition pool_offset (i poolsize : Z) : Z :=
  let x := u32 (u32 i * 0x85ebca6b) in
  Z.land x (u64 (poolsize - 1)).

Definition checksum_rampool_bench (nchunks chunksize poolsize : Z) : ST World Z :=
  lift (assert "poolsize must be a power of two" (Z.land poolsize (u64 (poolsize - 1)) =? 0));;
  pool ← random_bytes (replicate (Z.to_nat (poolsize + chunksize)) 0) (Z.to_nat (poolsize + chunksize));
  while_st (Z.to_nat nchunks) (λ i, mret (i <? nchunks))
    (λ i,
      let ofs := pool_offset i poolsize in
      lift (assert "range start index out of range for slice" (ofs <=? Z.of_nat (length pool)));;
      let case := drop (Z.to_nat ofs) pool in
      _ ← lift (ipsum case chunksize 0);
      mret (i + 1)) 0.

(** A loop that counts. *)
Lemma count_wp {S} E (body : Z → ST S Z) (n : Z) (s : S) (I : S → Prop) :
  (∀ i s, 0 ≤ i < n → I s → wpx E (body i) (λ j s', j = i + 1 ∧ I s') s) → I s → 0 ≤ n →
  wpx E (while_st (Z.to_nat n) (λ i, mret (i <? n)) body 0) (λ i s', i = n ∧ I s') s.
Proof.
  intros Hbody Hs Hn.
  assert (∀ k i s, I s → 0 ≤ i → i + Z.of_nat k = n →
    wpx E (while_st k (λ i, mret (i <? n)) body i) (λ i s', i = n ∧ I s') s) as Hgo; [|by apply Hgo; [..|lia]].
  induction k as [|k IH]; intros i s' Hs' Hi Hk; cbn [while_st]; apply wpx_bind, wpx_ret.
  - destruct (Z.ltb_spec i n); [lia|]. apply wpx_ret. split; [lia|done].
  - destruct (Z.ltb_spec i n); [|lia]. apply wpx_bind. eapply wpx_mono; [apply Hbody; [lia|done]|].
    intros j s'' [-> Hs'']. apply IH; [done|lia|lia].
Qed.

Lemma checksum_bench_ends `{!RandomLaws} nchunks chunksize w :
  0 ≤ chunksize ≤ nchunks → chunksize < 2 ^ 63 →
  wpx (.= "getrandom(2) failed") (checksum_bench nchunks chunksize) (λ i _, i = nchunks) w.
Proof.
  intros Hc H63. unfold checksum_bench. apply wpx_bind. eapply wpx_mono; [apply random_bytes_wp|].
  intros case w1 (Hlen & _ & Hb & _). rewrite length_replicate in Hlen.
  eapply wpx_mono; [apply (count_wp _ _ nchunks w1 (λ _, True)); [|done|lia]|by intros i ? [-> _]].
  intros i w2 _ _. apply wpx_bind. eapply wpx_lift; [apply ipsum_spec_ok; [|lia|lia|done]|by apply wpx_ret].
  apply Hb. by apply Forall_replicate.
Qed.

Lemma pool_offset_range i (k : Z) : 0 ≤ k < 63 → 0 ≤ pool_offset i (2 ^ k) < 2 ^ k.
Proof.
  intros Hk. pose proof (Z.pow_lt_mono_r 2 k 64). pose proof (Z.pow_pos_nonneg 2 k). unfold pool_offset.
  change (2 ^ 64) with 18446744073709551616 in *. rewrite (u64_id (2 ^ k - 1)) by (unfold is_u64; lia).
  replace (2 ^ k - 1) with (Z.ones k) by (rewrite Z.ones_equiv; lia). rewrite Z.land_ones by lia.
  apply Z.mod_pos_bound. lia.
Qed.

Lemma checksum_rampool_bench_ends `{!RandomLaws} nchunks chunksize k w :
  0 ≤ nchunks → 0 ≤ chunksize < 2 ^ 63 → 0 ≤ k < 63 →
  wpx (.= "getrandom(2) failed") (checksum_rampool_bench nchunks chunksize (2 ^ k)) (λ i _, i = nchunks) w.
Proof.
  intros Hn Hc Hk. pose proof (Z.pow_lt_mono_r 2 k 64). pose proof (Z.pow_pos_nonneg 2 k).
  change (2 ^ 64) with 18446744073709551616 in *. unfold checksum_rampool_bench. apply wpx_bind. eapply wpx_lift.
  { rewrite u64_id by (unfold is_u64; lia). replace (2 ^ k - 1) with (Z.ones k) by (rewrite Z.ones_equiv; lia).
    rewrite Z.land_ones by lia. by rewrite Z_mod_same_full. }
  apply wpx_bind. eapply wpx_mono; [apply random_bytes_wp|].
  intros pool w1 (Hlen & _ & Hb & _). rewrite length_replicate in Hlen.
  eapply wpx_mono; [apply (count_wp _ _ nchunks w1 (λ _, True)); [|done|lia]|by intros i ? [-> _]].
  intros i w2 _ _. pose proof (pool_offset_range i k Hk). apply wpx_bind. eapply wpx_lift.
  { destruct (Z.leb_spec (pool_offset i (2 ^ k)) (Z.of_nat (length pool))); [done|lia]. }
  apply wpx_bind. eapply wpx_lift; [apply ipsum_spec_ok; [|rewrite length_drop; lia|lia|done]|by apply wpx_ret].
  apply Forall_drop, Hb. by apply Forall_replicate.
Qed.
End random.

(** A world without links, in which time stands still. *)
Definition new_world : World := mkWorld init_pstate ∅ ∅ None (λ _, 0) 0 (λ _, SpecFloat.S754_nan) 0 ∅ [].

(** The slice has [nchunks] bytes instead of [chunksize]: with fewer chunks
    than bytes in a chunk the benchmark reads outside of it. *)
Example checksum_bench_reads_outside :
  @checksum_bench sample_kernel x86_64 10 60 new_world
    = UB "read outside of the slice".
Proof. vm_compute. reflexivity. Qed.

(** ** ethernet.rs *)

Abbreviation text := String.string_of_list_ascii.
Abbreviation chars_of := String.list_ascii_of_string.

(** The result is what is printed: both addresses and the type of each header,
    and the size of headers. *)
Definition ethernet_test : outcome ((string * string * Z) * (string * string * Z) * nat) :=
  let '(eth, heap) := Header.new Ethernet.Ethernet_default in
  src ← Ethernet.pton (chars_of "42:42:42:42:42:42");
  let heap := header_mut eth (Ethernet.set_src src) heap in
  let heap := header_mut eth (Ethernet.set_ethertype Ethernet.TYPE_IPV4) heap in
  let mem := replicate 20 1 in
  eth2 ← from_mem (T := Ethernet.Ethernet) mem 0;
  dst ← Ethernet.pton (chars_of "01:02:03:04:05:06");
  let mem := header_mut eth2 (Ethernet.set_dst dst) mem in
  let mem := header_mut eth2 (Ethernet.set_ethertype Ethernet.TYPE_IPV4) mem in
  let heap := header_mut eth (Ethernet.set_dst (Ethernet.dst (header_ref eth2 mem))) heap in
  let heap := header_mut eth Ethernet.swap heap in
  let line h := (text (Ethernet.ntop (Ethernet.dst h)), text (Ethernet.ntop (Ethernet.src h)), Ethernet.ethertype h) in
  Ok (line (header_ref eth heap), line (header_ref eth2 mem), size_of Ethernet.Ethernet).

Example ethernet_test_passes : ethernet_test =
  Ok (("42:42:42:42:42:42", "1:2:3:4:5:6", 0x800), ("1:2:3:4:5:6", "1:1:1:1:1:1", 0x800), 14%nat).
Proof. vm_compute. reflexivity. Qed.

(** ** ipv4.rs *)

(** What the first half prints. *)
Record ipv4_lines : Type := mkIpv4Lines {
  ip_line : string * string * Z;
  ip2_line : string * string * Z;
  ip_size : nat;
  ip_version : Z * Z * Z;
  ip_total_length : Z
}.

Definition ipv4_fields_test : outcome ipv4_lines :=
  let ip := Ipv4.new in
  src ← Ipv4.pton (chars_of "127.1.2.3");
  let ip := Ipv4.set_src src ip in
  let ip := Ipv4.set_protocol Ipv4.PROTOCOL_UDP ip in
  let mem := replicate 20 1 in
  ip2 ← from_mem (T := Ipv4.IPv4) mem 0;
  dst ← Ipv4.pton (chars_of "127.4.5.6");
  let mem := header_mut ip2 (Ipv4.set_dst dst) mem in
  let mem := header_mut ip2 (Ipv4.set_protocol Ipv4.PROTOCOL_TCP) mem in
  let ip := Ipv4.set_dst (Ipv4.dst (header_ref ip2 mem)) ip in
  let ip := Ipv4.swap ip in
  let line h := (text (Ipv4.ntop (Ipv4.dst h)), text (Ipv4.ntop (Ipv4.src h)), Ipv4.protocol h) in
  Ok (mkIpv4Lines (line ip) (line (header_ref ip2 mem)) (size_of Ipv4.IPv4)
    (ntohs (Ipv4.f_ihl_v_tos ip), Ipv4.version ip, Ipv4.ihl ip) (Ipv4.total_length ip)).

(** The header of a packet to itself: its bytes, its checksum and whether it
    is right, and the checksum of a pseudo header. *)
Definition ipv4_checksum_test `{Target} : outcome (bytes * Z * bool * Z) :=
  let ip := Ipv4.new in
  let ip := Ipv4.set_total_length 60 ip in
  let ip := Ipv4.set_id 23757 ip in
  let ip := Ipv4.set_flags 2 ip in
  let ip := Ipv4.set_ttl 64 ip in
  let ip := Ipv4.set_protocol Ipv4.PROTOCOL_TCP ip in
  src ← Ipv4.pton (chars_of "127.0.0.1");
  let ip := Ipv4.set_src src ip in
  dst ← Ipv4.pton (chars_of "127.0.0.1");
  let ip := Ipv4.set_dst dst ip in
  ip ← Ipv4.checksum_compute ip;
  ok ← Ipv4.checksum_ok ip;
  pseudo ← Ipv4.pseudo_checksum Ipv4.PROTOCOL_TCP (20 + 20) ip;
  Ok (encode ip, Ipv4.checksum ip, ok, not16 pseudo).

Example ipv4_fields_test_passes : ipv4_fields_test =
  Ok (mkIpv4Lines ("127.1.2.3", "127.4.5.6", 17) ("127.4.5.6", "1.1.1.1", 6) 20 (0x4500, 4, 5) 20).
Proof. vm_compute. reflexivity. Qed.

Example ipv4_checksum_test_passes (t : target_arch) : @ipv4_checksum_test t =
  Ok ([69; 0; 0; 60; 92; 205; 64; 0; 64; 6; 223; 236; 127; 0; 0; 1; 127; 0; 0; 1], 0xecdf, true, 0xfe30).
Proof. destruct t; vm_compute; reflexivity. Qed.

(** ** tcp.rs *)

Definition tcp_test_packet : bytes :=
  [0x52; 0x54; 0x00; 0x02; 0x02; 0x02; 0x52; 0x54; 0x00; 0x01; 0x01; 0x01; 0x08; 0x00; 0x45; 0x00;
   0x00; 0x34; 0x59; 0x1a; 0x40; 0x00; 0x40; 0x06; 0x00; 0x00; 0xc0; 0xa8; 0x14; 0xa9; 0x6b; 0x15;
   0xf0; 0xb4; 0xde; 0x0b; 0x01; 0xbb; 0xe7; 0xdb; 0x57; 0xbc; 0x91; 0xcd; 0x18; 0x32; 0x80; 0x10;
   0x05; 0x9f; 0x00; 0x00; 0x00; 0x00; 0x01; 0x01; 0x08; 0x0a; 0x06; 0x0c; 0x5c; 0xbd; 0xfa; 0x4a;
   0xe1; 0x65].

Definition tcp_checksum_test `{Target} : outcome () :=
  let ip_base := size_of Ethernet.Ethernet in
  let ip_hdr_size := size_of Ipv4.IPv4 in
  let tcp_base := (ip_base + ip_hdr_size)%nat in
  let tcp_hdr_size := size_of Tcp.TCP in
  let payload_base := (tcp_base + tcp_hdr_size)%nat in
  let p := tcp_test_packet in
  ip ← from_mem (T := Ipv4.IPv4) p ip_base;
  tcp ← from_mem (T := Tcp.TCP) p tcp_base;
  let payload_length := (length p - payload_base)%nat in
  pseudo ← Ipv4.pseudo_checksum 6 (u16 (Z.of_nat (tcp_hdr_size + payload_length))) (header_ref ip p);
  hdr ← Tcp.checksum_compute (drop payload_base p) (u16 (Z.of_nat payload_length)) (not16 pseudo) (header_ref tcp p);
  let p := header_mut tcp (λ _, hdr) p in
  let the_tcp p := header_ref tcp p in
  assert "Wrong TCP checksum" (Tcp.checksum (the_tcp p) =? htons 0x382a);;
  assert "assertion failed: tcp.data_offset() == 8" (Tcp.data_offset (the_tcp p) =? 8);;
  assert "assertion failed: tcp.size() == 32" (Tcp.size (the_tcp p) =? 32);;
  let p := header_mut tcp (Tcp.set_data_offset 0) p in
  assert "assertion failed: tcp.size() == 20" (Tcp.size (the_tcp p) =? 20);;
  assert "assertion failed: tcp.seq() == 3889911740" (Tcp.seq (the_tcp p) =? 3889911740);;
  let p := header_mut tcp (Tcp.set_seq 42) p in
  assert "assertion failed: tcp.seq() == 42" (Tcp.seq (the_tcp p) =? 42).

Example tcp_checksum_test_passes (t : target_arch) : @tcp_checksum_test t = Ok tt.
Proof. by destruct t; vm_compute. Qed.

(** ** config.rs *)

Definition config_test {C} (source : BasicApps.Source → C) : outcome (Config.Config C) :=
  let c := Config.new in
  let c := Config.app c "source" (source (BasicApps.mkSource 60)) in
  Config.link c "source.output -> sink.input".

Example config_test_passes : config_test id =
  Ok (Config.mkConfig {["source" := BasicApps.mkSource 60]} {["source.output -> sink.input"]}).
Proof. vm_compute. reflexivity. Qed.

(** ** packet.rs *)

(** p.length = n *)
Definition set_length (p : loc) (n : Z) : ST pstate () := pk ← deref p; write p (mkPacket n (p_data pk)).

(** p.data[i] = v, checked *)
Definition set_data (p : loc) (i : nat) (v : Z) : ST pstate () :=
  pk ← deref p;
  lift (assert "index out of bounds" (bool_decide (i < length (p_data pk))%nat));;
  write p (mkPacket (p_length pk) (<[i := v]> (p_data pk))).

(** Prints the length of the new packet, the mutated fields, and the length of
    the freed packet. *)
Definition alloc_test : ST pstate (Z * (Z * Z) * Z) :=
  p ← allocate;
  pk0 ← deref p;
  set_length p 1;;
  set_data p 0 42;;
  pk ← deref p;
  byte ← lift (index (p_data pk) 0);
  let len := p_length pk in
  free p;;
  mret (p_length pk0, (p_length pk, byte), len).

(** ** link.rs *)

(** The packets that are sent carry their number and a mark at its offset. *)
Definition send_numbered (r : Link.Link) (n : nat) : ST pstate Link.Link :=
  p ← allocate;
  set_length p (Z.of_nat n);;
  set_data p (n - 1) 42;;
  Link.transmit r p.

Definition receive_numbered (rn : Link.Link * nat) : ST pstate (Link.Link * nat) :=
  let '(r, n) := rn in
  let n := S n in
  '(p, r) ← Link.receive r;
  pk ← deref p;
  byte ← lift (index (p_data pk) (Z.of_nat n - 1));
  if negb (p_length pk =? u16 (Z.of_nat n)) || negb (byte =? 42) then panic "Corrupt packet!"
  else free p;; mret (r, n).

Fixpoint fold_st {S A X} (f : A → X → ST S A) (a : A) (xs : list X) : ST S A :=
  match xs with
  | [] => mret a
  | x :: xs => a ← f a x; fold_st f a xs
  end.

(** How many packets were received, and the statistics of the link. *)
Definition link_test : ST pstate (nat * (Z * Z * Z * Z * Z)) :=
  let r := Link.new in
  let to_transmit := 2000%nat in
  (if Link.full r then panic "Link should be empty." else mret tt);;
  r ← fold_st send_numbered r (seq 1 to_transmit);
  (if Link.empty r || negb (Link.full r) then panic "Link should be full." else mret tt);;
  '(r, n) ← while_st (Z.to_nat Link.LINK_MAX_PACKETS) (λ rn, mret (negb (Link.empty rn.1))) receive_numbered (r, O);
  r ← Link.drop r;
  mret (n, (Link.rxpackets r, Link.rxbytes r, Link.txpackets r, Link.txbytes r, Link.txdrop r)).

(** *** The tests of packets and links pass in any memory *)

Lemma mem_overflow {A} ps m (Q : A → pstate → Prop) s : wpx (exhausted ps) m Q s → wpx overflow m Q s.
Proof. intros Hm. eapply wpx_weaken; [exact Hm|]. by intros e [-> _]. Qed.

Lemma set_length_mem p pk ps n s :
  Mem ((p, pk) :: ps) s → is_u16 n →
  wp (set_length p n) (λ _ s', Mem ((p, mkPacket n (p_data pk)) :: ps) s' ∧ STATS s' = STATS s) s.
Proof.
  intros Hm Hn. pose proof (Mem_head _ _ _ _ Hm) as [_ (? & ? & ?)]. unfold set_length.
  apply wpx_bind. eapply deref_mem; [exact Hm|]. by eapply write_mem.
Qed.

Lemma set_data_mem p pk ps i v s :
  Mem ((p, pk) :: ps) s → is_u8 v → (i < PAYLOAD_SIZE)%nat →
  wp (set_data p i v) (λ _ s', Mem ((p, mkPacket (p_length pk) (<[i := v]> (p_data pk))) :: ps) s' ∧ STATS s' = STATS s) s.
Proof.
  intros Hm Hv Hi. pose proof (Mem_head _ _ _ _ Hm) as [_ (? & Hl & ?)]. unfold set_data.
  apply wpx_bind. eapply deref_mem; [exact Hm|]. apply wpx_bind. eapply wpx_lift.
  { rewrite bool_decide_eq_true_2 by (by rewrite Hl). done. }
  eapply write_mem; [exact Hm|]. split_and!; cbn [p_length p_data]; [done|by rewrite length_insert|]. by apply Forall_insert.
Qed.

Lemma index_nat data (i : nat) b : data !! i = Some b → index data (Z.of_nat i) = Ok b.
Proof. intros Hb. unfold index. destruct (Z.ltb_spec (Z.of_nat i) 0); [lia|]. by rewrite Nat2Z.id, Hb. Qed.

(** Packets can be written to and read; all are free again in the end. *)
Lemma alloc_test_passes ps s :
  Mem ps s → wpx overflow alloc_test (λ printed s', printed = (0, (1, 42), 1) ∧ Mem ps s') s.
Proof.
  intros Hm. unfold alloc_test. apply wpx_bind. eapply wpx_mono; [by eapply mem_overflow, allocate_mem|].
  intros p s1 (pk & Hz & Hwf & Hm1 & _). apply wpx_bind. eapply deref_mem; [exact Hm1|].
  apply wpx_bind. eapply wp_conseq; [by eapply set_length_mem|]. intros [] s2 [Hm2 _].
  assert (0 < PAYLOAD_SIZE)%nat as Hpos by (pose proof payload_size_z; lia).
  apply wpx_bind. eapply wp_conseq; [by eapply set_data_mem|]. cbn [p_length p_data]. intros [] s3 [Hm3 _].
  apply wpx_bind. eapply deref_mem; [exact Hm3|]. cbn [p_length p_data].
  destruct Hwf as (_ & Hl & _). apply wpx_bind. eapply wpx_lift.
  { apply (index_nat _ 0 42). apply list_lookup_insert_eq. by rewrite Hl. }
  apply wpx_bind. eapply wp_conseq; [by eapply free_mem|]. intros [] s4 [Hm4 _]. apply wpx_ret. by rewrite Hz.
Qed.

(** Packets [k + 1], [k + 2], ... *)
Definition is_numbered (n : nat) (pk : Packet) : Prop := p_length pk = Z.of_nat n + 1 ∧ p_data pk !! n = Some 42.
Definition numbered (k : nat) (q : queue) : Prop := ∀ i x, q !! i = Some x → is_numbered (k + i) x.2.

Definition triangle (n : Z) : Z := n * (n + 1) / 2.

Lemma triangle_succ n : triangle (n + 1) = triangle n + (n + 1).
Proof. unfold triangle. replace ((n + 1) * (n + 1 + 1)) with (n * (n + 1) + (n + 1) * 2) by lia. by rewrite Z.div_add. Qed.

Ltac link_fields := cbn [Link.dropped Link.enqueued Link.dequeued Link.txpackets Link.txbytes Link.txdrop Link.rxpackets Link.rxbytes].

(** [n] packets were sent and [k] received, with the statistics of the link. *)
Record numbers (n k : nat) (r : Link.Link) (q owned : queue) (s : pstate) : Prop := {
  nb_rep : Link.link_rep r q.*1;
  nb_mem : Mem (q ++ owned) s;
  nb_numbered : numbered k q;
  nb_length : (k + length q = Nat.min n 1023)%nat;
  nb_tx : Link.txpackets r = Z.of_nat (Nat.min n 1023) ∧ Link.txbytes r = triangle (Z.of_nat (Nat.min n 1023)) ∧
    Link.txdrop r = Z.of_nat (n - 1023);
  nb_rx : Link.rxpackets r = Z.of_nat k ∧ Link.rxbytes r = triangle (Z.of_nat k);
}.

Lemma triangle_range n : 0 ≤ n ≤ 1023 → 0 ≤ triangle n ≤ 523776.
Proof. intros Hn. unfold triangle. split; [apply Z.div_pos; nia|]. apply Z.div_le_upper_bound; nia. Qed.

Lemma send_numbered_wp n r q owned s :
  (n < 2000)%nat → numbers n 0 r q owned s →
  wpx overflow (send_numbered r (S n)) (λ r' s', ∃ q', numbers (S n) 0 r' q' owned s') s.
Proof.
  intros Hn [Hr Hm Hnum Hlen (Htp & Htb & Htd) Hrx]. unfold send_numbered.
  apply wpx_bind. eapply wpx_mono; [by eapply mem_overflow, allocate_mem|]. intros p s1 (pk & _ & Hwf & Hm1 & _).
  apply wpx_bind. eapply wp_conseq; [eapply set_length_mem; [exact Hm1|unfold is_u16; lia]|]. intros [] s2 [Hm2 _].
  replace (S n - 1)%nat with n by lia.
  assert (n < PAYLOAD_SIZE)%nat as Hpay by (pose proof payload_size_z; lia).
  apply wpx_bind. eapply wp_conseq; [by eapply set_data_mem|]. cbn [p_length p_data]. intros [] s3 [Hm3 _].
  set (pk' := mkPacket _ _) in Hm3.
  assert (is_numbered n pk') as Hpk.
  { split; simpl; [lia|]. apply list_lookup_insert_eq. destruct Hwf as (_ & -> & _). done. }
  eapply wp_conseq; [eapply (Link.transmit_wp r q.*1 p pk'); [done|by apply Mem_Inv in Hm3|by eapply Mem_head]|].
  intros r' s'. rewrite length_fmap. unfold Link.LINK_MAX_PACKETS, Link.LINK_RING_SIZE.
  pose proof (Link.lr_length _ _ Hr) as Hmax. rewrite length_fmap in Hmax.
  unfold Link.LINK_MAX_PACKETS, Link.LINK_RING_SIZE in Hmax. simpl in Hlen.
  case_bool_decide as Hd.
  - intros (-> & Hi & Hk & _). exists q. split; try done; link_fields; [by apply Link.dropped_rep| |lia|].
    + split; [done|]. destruct Hm3 as [_ Hf]. inversion Hf; subst. by eapply keeps_Forall.
    + rewrite Htp, Htb, Htd. replace (Nat.min (S n) 1023) with (Nat.min n 1023) by lia.
      split_and!; [done..|]. rewrite u64_id by (unfold is_u64; lia). lia.
  - intros (-> & ->). exists (q ++ [(p, pk')]). split; try done; link_fields.
    + rewrite fmap_app. apply Link.enqueued_rep; [done|by rewrite length_fmap].
    + eapply Mem_perm; [exact Hm3|]. solve_perm.
    + intros i x [Hi|[Hge Hi]]%lookup_app_Some; [by apply Hnum|].
      apply list_lookup_singleton_Some in Hi as [Hi <-]. simpl. replace i with n by lia. exact Hpk.
    + rewrite length_app. simpl. lia.
    + change (p_length pk') with (Z.of_nat (S n)). rewrite Htp, Htb, Htd. pose proof (triangle_range (Z.of_nat (Nat.min n 1023))).
      replace (Z.of_nat (Nat.min (S n) 1023)) with (Z.of_nat (Nat.min n 1023) + 1) by lia. rewrite triangle_succ.
      rewrite !u64_id by (unfold is_u64; lia). split_and!; lia.
Qed.

Lemma receive_numbered_wp n k r q owned s :
  numbers n k r q owned s → Link.empty r = false →
  wp (receive_numbered (r, k)) (λ '(r', k') s', k' = S k ∧ ∃ x q', q = x :: q' ∧ numbers n k' r' q' owned s') s.
Proof.
  intros [Hr Hm Hnum Hlen (Htp & Htb & Htd) (Hrp & Hrb)] He. rewrite (Link.rep_empty _ _ Hr) in He.
  apply bool_decide_eq_false_1 in He. destruct q as [|[p pk] q]; [done|]. simpl in Hlen. unfold receive_numbered.
  apply wpx_bind. eapply wpx_mono; [eapply Link.receive_wp; [exact Hr|by eapply Mem_head]|].
  intros [p' r'] s' (-> & -> & ->). apply wpx_bind. eapply deref_mem; [exact Hm|].
  destruct (Hnum 0%nat (p, pk) eq_refl) as [Hpl Hpd]. rewrite Nat.add_0_r in Hpl, Hpd. cbn [snd] in Hpl, Hpd.
  apply wpx_bind. eapply wpx_lift.
  { replace (Z.of_nat (S k) - 1) with (Z.of_nat k) by lia. by apply index_nat. }
  rewrite Hpl. rewrite u16_id by (unfold is_u16; lia).
  destruct (Z.eqb_spec (Z.of_nat k + 1) (Z.of_nat (S k))); [|lia]. cbn [negb orb Z.eqb].
  apply wpx_bind. eapply wpx_mono; [by eapply free_mem|]. intros [] s1 [Hm1 _]. apply wpx_ret.
  split; [done|]. eexists _, q. split; [done|]. split; try done; link_fields.
  - by eapply Link.dequeued_rep.
  - intros i x Hi. replace (S k + i)%nat with (k + S i)%nat by lia. by apply (Hnum (S i)).
  - lia.
  - rewrite Hrp, Hrb. pose proof (triangle_range (Z.of_nat k)). pose proof (triangle_range (Z.of_nat k + 1)).
    rewrite triangle_succ in *. rewrite !u64_id by (unfold is_u64; lia).
    replace (Z.of_nat (S k)) with (Z.of_nat k + 1) by lia. rewrite triangle_succ. split; lia.
Qed.

Lemma send_all_wp owned m : ∀ n r q s,
  (n + m ≤ 2000)%nat → numbers n 0 r q owned s →
  wpx overflow (fold_st send_numbered r (seq (S n) m)) (λ r' s', ∃ q', numbers (n + m) 0 r' q' owned s') s.
Proof.
  induction m as [|m IH]; intros n r q s Hn Hr; cbn [seq fold_st].
  - apply wpx_ret. exists q. by rewrite Nat.add_0_r.
  - apply wpx_bind. eapply wpx_mono; [by eapply send_numbered_wp; [lia|]|]. intros r' s' [q' Hr'].
    replace (n + S m)%nat with (S n + m)%nat by lia. eapply IH; [lia|done].
Qed.

Lemma receive_all_wp owned r q s :
  numbers 2000 0 r q owned s →
  wp (while_st (Z.to_nat Link.LINK_MAX_PACKETS) (λ rn, mret (negb (Link.empty rn.1))) receive_numbered (r, O))
    (λ '(r', n) s', n = 1023%nat ∧ numbers 2000 1023 r' [] owned s') s.
Proof.
  intros Hr. eapply (while_st_list _ _ _ (λ q '(r, k) s, numbers 2000 k r q owned s)); [| |exact Hr|].
  - intros [r' k] s' Hr'. apply wpx_ret. cbn [fst]. rewrite (Link.rep_empty _ _ (nb_rep _ _ _ _ _ _ Hr')).
    split; [done|]. pose proof (nb_length _ _ _ _ _ _ Hr') as Hk. cbn [length] in Hk.
    replace k with 1023%nat in * by lia. done.
  - intros x xs [r' k] s' Hr'. apply wpx_ret. cbn [fst].
    assert (Link.empty r' = false) as He by by rewrite (Link.rep_empty _ _ (nb_rep _ _ _ _ _ _ Hr')).
    rewrite He. cbn [negb]. eapply wpx_mono; [by eapply receive_numbered_wp|].
    intros [r2 k2] s2 (-> & x' & q' & [= -> ->] & Hq'). done.
  - pose proof (Link.lr_length _ _ (nb_rep _ _ _ _ _ _ Hr)) as Hl. rewrite length_fmap in Hl. lia.
Qed.

(** 2000 packets are sent: 1023 of them are received, in order, and the others
    are dropped; the link is empty in the end, and all packets are free. *)
Theorem link_test_passes ps s :
  Mem ps s →
  wpx overflow link_test (λ printed s', printed = (1023%nat, (1023, 523776, 1023, 523776, 977)) ∧ Mem ps s') s.
Proof.
  intros Hm. unfold link_test. apply wpx_bind, wpx_ret.
  assert (numbers 0 0 Link.new [] ps s) as H0 by (split; try done; apply Link.new_rep).
  apply wpx_bind. eapply wpx_mono; [by apply (send_all_wp ps 2000 0 _ [])|]. intros r s1 [q Hr].
  pose proof (nb_rep _ _ _ _ _ _ Hr) as Hrep. pose proof (nb_length _ _ _ _ _ _ Hr) as Hlen. apply wpx_bind.
  rewrite (Link.rep_empty _ _ Hrep), (Link.rep_full _ _ Hrep), length_fmap.
  rewrite bool_decide_eq_false_2 by (by destruct q). rewrite bool_decide_eq_true_2 by (rewrite Nat.add_0_l in Hlen; by rewrite Hlen).
  apply wpx_ret, wpx_bind. eapply wp_conseq; [by apply (receive_all_wp ps _ q)|]. intros [r' n] s2 [-> Hr'].
  pose proof (nb_rep _ _ _ _ _ _ Hr') as Hrep'. pose proof (nb_mem _ _ _ _ _ _ Hr') as Hm'.
  assert (Link.drop r' = mret r') as ->.
  { unfold Link.drop. generalize (Z.to_nat Link.LINK_MAX_PACKETS). intros [|fuel]; cbn [Link.drop_loop];
      by rewrite (Link.rep_empty _ _ Hrep'). }
  apply wpx_bind, wpx_ret, wpx_ret. destruct (nb_tx _ _ _ _ _ _ Hr') as (-> & -> & ->).
  destruct (nb_rx _ _ _ _ _ _ Hr') as (-> & ->). by split.
Qed.
