(* ===== verification/Scenario.v ===== *)
(** * An engine that runs

    The theorems on the engine at work: all apps, a kernel that delivers frames,
    and a network of two devices with one flow. *)

From Stdlib Require Import Floats.SpecFloat.
From stdpp Require Import countable pretty sorting.
From S2P Require Import Prelude Bytes Checksum Packet Kernel App Frames Engine Interface Provenance AppRules Apps.
From S2P Require Import BreatheOrder Configure Report Reconfigure Report Breathe Network SyntheticNetwork SyntheticGraph Routes Serve.
From S2P Require Link Config Flow Tsd Qos DelayQueue BasicApps RawSocket.
#[local] Open Scope Z_scope.

(** ** A Debug representation that tells everything *)

Abbreviation tree := (gen_tree (Z + string)).
Definition num (x : Z) : tree := GenLeaf (inl x).
Definition str (x : string) : tree := GenLeaf (inr x).
Definition bit (b : bool) : tree := num (if b then 1 else 0).

Definition f64_tree (x : f64) : tree :=
  match x with
  | S754_zero s => GenNode 0 [bit s]
  | S754_infinity s => GenNode 1 [bit s]
  | S754_nan => GenNode 2 []
  | S754_finite s m e => GenNode 3 [bit s; num (Zpos m); num e]
  end.
Definition dir_tree (d : Flow.Dir) : tree := bit (match d with Flow.Src => true | Flow.Dst => false end).
Definition flow_tree (f : Flow.Flow) : tree :=
  GenNode 0 [str (Flow.label f); dir_tree (Flow.dir f); num (Flow.ip f); num (Flow.protocol f);
    num (Flow.port_min f); num (Flow.port_max f)].
Definition conf_tree (c : AnyConf) : tree :=
  match c with
  | Source c => GenNode 0 [num (BasicApps.conf_size c)]
  | Sink => GenNode 1 []
  | Apps.Join => GenNode 2 []
  | Tee => GenNode 3 []
  | Checksum => GenNode 4 []
  | Apps.TSD c => GenNode 5 [num (Tsd.mss c)]
  | Apps.Split c => GenNode 6 (flow_tree <$> Flow.conf_flows c)
  | Apps.Top c => GenNode 7 [str (Flow.path c); dir_tree (Flow.conf_dir c)]
  | RateLimiter c => GenNode 8 [num (Qos.conf_rate c)]
  | Loss c => GenNode 9 [f64_tree (Qos.ratio c)]
  | Latency c => GenNode 10 [num (DelayQueue.conf_ms c); num (DelayQueue.conf_capacity c)]
  | Jitter c => GenNode 11 [num (DelayQueue.jit_ms c); f64_tree (DelayQueue.conf_strength c);
      bit (DelayQueue.conf_reorder c); num (DelayQueue.jit_capacity c)]
  | RawSocket c => GenNode 12 [str (RawSocket.ifname c)]
  end.

#[export] Instance num_inj : Inj (=) (=) num.
Proof. by intros ? ? [= ->]. Qed.
#[export] Instance str_inj : Inj (=) (=) str.
Proof. by intros ? ? [= ->]. Qed.
#[export] Instance bit_inj : Inj (=) (=) bit.
Proof. by intros [] []. Qed.
#[export] Instance dir_tree_inj : Inj (=) (=) dir_tree.
Proof. by intros [] []. Qed.
#[export] Instance f64_tree_inj : Inj (=) (=) f64_tree.
Proof. intros [[]|[]| |[]] [[]|[]| |[]]; cbv [f64_tree bit num str dir_tree flow_tree Flow.label Flow.dir Flow.ip Flow.protocol Flow.port_min Flow.port_max]; congruence. Qed.
#[export] Instance flow_tree_inj : Inj (=) (=) flow_tree.
Proof. intros [? []] [? []]; cbv [f64_tree bit num str dir_tree flow_tree Flow.label Flow.dir Flow.ip Flow.protocol Flow.port_min Flow.port_max]; congruence. Qed.
Lemma node_inj n n' (l l' : list tree) : GenNode n l = GenNode n' l' → n = n' ∧ l = l'.
Proof. by intros [= -> ->]. Qed.
Lemma child_inj (t t' : tree) l l' : t :: l = t' :: l' → t = t' ∧ l = l'.
Proof. by intros [= -> ->]. Qed.

#[export] Instance conf_tree_inj : Inj (=) (=) conf_tree.
Proof.
  intros c c'. destruct c as [[]| | | | |[]|[]|[]|[]|[]|[]|[]|[]], c' as [[]| | | | |[]|[]|[]|[]|[]|[]|[]|[]];
    try done; cbn; intros [_ Hl]%node_inj; try done;
    repeat (let He := fresh in apply child_inj in Hl as [He Hl];
      first [apply (inj dir_tree) in He | apply (inj f64_tree) in He | apply (inj bit) in He | apply (inj str) in He |
             apply (inj num) in He]); subst; try done.
  by apply (inj (fmap flow_tree)) in Hl as ->.
Qed.

#[export] Instance sample_debug : Debug AnyConf := {| debug c := pretty (Npos (encode (conf_tree c))) |}.
#[export] Instance sample_debug_inj : Inj (=) (=) (debug (C := AnyConf)).
Proof. intros c c' Heq%(inj pretty). exact Heq. Qed.

(** ** A network of a source and a sink *)

#[local] Instance scenario_target : Target := x86_64.
#[local] Instance scenario_order : HashOrder := listed.
#[local] Instance scenario_kernel : Kernel := sample_kernel.

Lemma sample_frame_ok : delivers framed sample_frame.
Proof. apply framed_long. by_compute. Qed.

#[local] Instance scenario_laws : KernelLaws (delivers framed) := sample_kernel_laws (delivers framed) sample_frame_ok.

Abbreviation Engine := (EngineState AnyConf AnyApp).

(** A breath every microsecond. *)
Definition every_us (k : nat) : Z := 1000 * (Z.of_nat k mod 1000000).

Lemma every_us_instant k : is_instant (every_us k).
Proof. unfold is_instant, every_us. pose proof (Z.mod_pos_bound (Z.of_nat k) 1000000). lia. Qed.

Definition start : Engine := init_engine None every_us (λ _, Qos.f64_zero).

Definition two_apps : Config.Config AnyConf :=
  Config.mkConfig
    (<["source" := Source (BasicApps.mkSource 60)]> (<["sink" := Sink]> ∅))
    {["source.output -> sink.input"]}.

Definition after {A} (m : ST Engine A) (s : Engine) : Engine := match m s with Ok (_, s') => s' | _ => s end.
Definition running : Engine := after (configure two_apps) start.

Lemma start_consistent : consistent framed any start ∅ ∅.
Proof. apply init_consistent. apply every_us_instant. Qed.

Lemma configure_running : configure two_apps start = Ok (tt, running).
Proof.
  unfold running, after. assert ((match configure two_apps start with Ok _ => true | _ => false end) = true) as H by (by vm_compute).
  by destruct (configure two_apps start) as [[[] s]| | |].
Qed.

Lemma two_apps_link link : link ∈ Config.links two_apps →
  link = "source.output -> sink.input" ∧
  Config.parse_link link = Ok (Config.mkLinkSpec "source" "output" "sink" "input").
Proof. unfold two_apps. simpl. intros ->%elem_of_singleton. split; [done|by vm_compute]. Qed.

Lemma two_apps_wf : wf_config framed any two_apps.
Proof.
  split.
  - split.
    + intros link [_ Hp]%two_apps_link. eexists. split_and!; [exact Hp|simpl; set_solver|simpl; set_solver|done].
    + intros l l' sp sp' [-> _]%two_apps_link [-> _]%two_apps_link. done.
    + intros l l' sp sp' [-> _]%two_apps_link [-> _]%two_apps_link. done.
  - intros n c Hc. simpl in Hc. apply lookup_insert_Some in Hc as [[_ <-]|[_ Hc]]; [split; [by split|intros p; by apply blank_framed]|].
    apply lookup_insert_Some in Hc as [[_ <-]|[_ Hc]]; [done|]. by rewrite lookup_empty in Hc.
  - intros. by apply fits_any_any.
Qed.

Lemma start_runs : runs framed any start.
Proof. apply runs_start. apply every_us_instant. Qed.

Lemma running_runs : runs framed any running.
Proof. eapply runs_configure; [apply start_runs|apply two_apps_wf|apply configure_running]. Qed.

Lemma running_ready : ∃ Q R, ready framed any running Q R.
Proof. apply runs_ready, running_runs. Qed.

(** ** The theorems at work *)

Lemma network_safe_witness :
  (∃ Q R, ready framed any running Q R ∧ accounted running Q R) ∧
  Forall (sendable framed) (written (syscalls (world running))) ∧
  safe any breathe running ∧ safe any pace_breathing running ∧
  (∀ config, wf_config framed any config → safe any (configure config) running).
Proof. apply (network_safe framed any running), running_runs. Defined.

Lemma configure_migrates_witness :
  wpx any (configure two_apps) (λ _ s', ∃ Q' R',
    consistent framed any s' Q' R' ∧ accounted s' Q' R' ∧ configured two_apps start ∅ s' Q') start.
Proof. apply (configure_migrates framed any two_apps start ∅ ∅); [apply start_consistent|apply two_apps_wf]. Defined.

(** Two breaths within a microsecond, then one past the deadline. *)
Lemma main_duration_returns_witness :
  wpx any (Breathe.main 5 (Some (mkOptions None (Some 1500) false false false false))) (λ _ s', ∃ n Q' R',
    past every_us 1500 1 n ∧ ticks (world s') = (0 + n + 2)%nat ∧ MONOTONIC_NOW (world s') = None ∧
    ready framed any s' Q' R' ∧ breathed running s' ∧ accounted s' Q' R') running.
Proof.
  destruct running_ready as (Q & R & Hr).
  apply (main_duration_returns framed any running Q R _ 1500 1500 5);
    [done|done|done|exact Hr|vm_compute; reflexivity|vm_compute; reflexivity|]. exists 1%nat. split; [lia|by vm_compute].
Defined.

Lemma pace_regulates_witness :
  ∃ s', repeat_st 4 (pace_breathing;; mret tt) running = Ok (tt, s') ∧
    pace_breathing s' = Ok (Some 5, set_pace 0 5 running) ∧ 0 < 5 ≤ MAXSLEEP.
Proof.
  destruct (pace_regulates running 4) as [_ Hidle]; [by vm_compute|]. apply Hidle. by vm_compute.
Defined.

(** ** The synthetic network *)

Definition plain_qos : QoS := mkQoS 10000000 Qos.f64_zero 20 5 Qos.f64_one true.
Definition plain_link : SyntheticLink := mkSyntheticLink plain_qos plain_qos.
Definition one_flow : SyntheticNetwork :=
  mkSyntheticNetwork plain_link [mkSyntheticFlow "video" (SyntheticNetwork.mkFlow 0 17 5000 6000) plain_link].

Lemma one_flow_valid : valid "eth0" "eth1" one_flow.
Proof.
  split; simpl; try (split; [|done]; by split).
  - done.
  - by repeat constructor.
  - apply NoDup_singleton.
  - intros [] [f|] Hf; simpl; try done; apply list_elem_of_singleton in Hf as ->; done.
Qed.

Lemma synthetic_network_configured_witness :
  ∃ config, configure_synthetic_network "eth0" "eth1" "/ingress" "/egress" one_flow Config.new = Ok (tt, config) ∧
    holds "eth0" "eth1" "/ingress" "/egress" one_flow config ∧ wf_config framed any config.
Proof. apply (synthetic_network_configured "eth0" "eth1" "/ingress" "/egress" one_flow one_flow_valid framed). Defined.

Lemma synthetic_network_runs_witness :
  ∃ config, configure_synthetic_network "eth0" "eth1" "/ingress" "/egress" one_flow Config.new = Ok (tt, config) ∧
    wpx any (configure config) (λ _ s', ∃ Q' R',
      ready framed any s' Q' R' ∧ accounted s' Q' R' ∧ implemented "eth0" "eth1" "/ingress" "/egress" one_flow s') start.
Proof.
  apply (synthetic_network_runs "eth0" "eth1" "/ingress" "/egress" one_flow one_flow_valid framed _ start ∅ ∅).
  apply start_consistent.
Defined.

(** The network of the specification, from the start. *)
Definition served : Engine := after (realize "eth0" "eth1" "/ingress" "/egress" one_flow) start.

Lemma realize_served : realize "eth0" "eth1" "/ingress" "/egress" one_flow start = Ok (tt, served).
Proof.
  unfold served, after. assert ((match realize "eth0" "eth1" "/ingress" "/egress" one_flow start with Ok _ => true | _ => false end) = true) as H by (by vm_compute).
  by destruct (realize "eth0" "eth1" "/ingress" "/egress" one_flow start) as [[[] s]| | |].
Qed.

Lemma one_flow_typed : typed one_flow.
Proof. intros l Hin. assert (l = plain_link) as -> by (simpl in Hin; set_solver). by split. Qed.

Lemma one_flow_numeric : numeric one_flow.
Proof. intros sd q Hq. assert (loss (qos_of one_flow sd q) = Qos.f64_zero) as ->; [|done]. destruct sd, q as [f|]; try done; by apply list_elem_of_singleton in Hq as ->. Qed.

Lemma realize_configures spec config (s : Engine) :
  configure_synthetic_network "eth0" "eth1" "/ingress" "/egress" spec Config.new = Ok (tt, config) →
  realize "eth0" "eth1" "/ingress" "/egress" spec s = configure config s.
Proof. intros Hc. unfold realize, mbind, st_bind, lift. by rewrite Hc. Qed.

Lemma start_consistent_fatal : consistent framed fatal start ∅ ∅.
Proof. apply init_consistent. apply every_us_instant. Qed.

(** configure returns, and these are the ways of the network that then runs. *)
Lemma routes_through_qos_witness : ways "eth0" "eth1" one_flow (dom (link_table served)) Outer.
Proof.
  destruct (routes_through_qos "eth0" "eth1" "/ingress" "/egress" one_flow one_flow_valid framed _ start ∅ ∅ one_flow_numeric)
    as (config & Hc & Hw & _ & Hwp); [exact start_consistent_fatal|].
  pose proof (eq_trans (eq_sym (realize_configures one_flow config start Hc)) realize_served) as Heq.
  destruct (wpx_ok _ _ _ _ _ _ Hwp Heq) as [-> _]. apply Hw.
Defined.

(** The specification is read, then the file is gone; SIGHUP arrives in every
    breath. *)
Definition sample_contents (path : string) : list (string + SyntheticNetwork) :=
  if String.eqb path "/spec" then [inr one_flow; inl "No such file"] else [].

Lemma sample_typed : Forall typed_file (sample_contents "/spec").
Proof.
  apply Forall_cons. split; [|by repeat constructor].
  exact one_flow_typed.
Qed.

Lemma sample_numeric : Forall numeric_file (sample_contents "/spec").
Proof.
  apply Forall_cons. split; [|by repeat constructor].
  exact one_flow_numeric.
Qed.

Lemma sample_proper : proper_frame sample_frame.
Proof. split; [exact sample_frame_ok|]. apply frame_packet_wf; by_compute. Qed.

Lemma synthetic_network_serves_witness :
  wpx fatal (main (λ _, true) 0 sample_contents ["rush"; "eth0"; "eth1"; "/spec"; "/ingress"; "/egress"])
    (λ p s', p = Runs ∧ ∃ Q' R', ready framed fatal s' Q' R' ∧ accounted s' Q' R' ∧
      serving "eth0" "eth1" "/ingress" "/egress" (Some one_flow) s') start.
Proof.
  destruct one_flow_valid as [Ho Hi Hd _ _ Hl].
  destruct (runs_ready framed fatal start (runs_start framed fatal every_us (λ _, Qos.f64_zero) every_us_instant)) as (Q & R & Hr).
  apply (synthetic_network_serves _ "eth0" "eth1" "/ingress" "/egress" Ho Hi Hd (λ _, true) 0 (λ k, ex_intro _ 0%nat (conj (le_n 0) eq_refl))
    framed "rush" "/spec" sample_contents None start Q R).
  - apply sample_typed.
  - apply sample_numeric.
  - exact Hr.
  - by split.
Defined.

Lemma synthetic_network_forwards_witness :
  wpx any (main (λ _, true) 0 sample_contents ["rush"; "eth0"; "eth1"; "/spec"; "/ingress"; "/egress"])
    (λ _ s', Forall (accountable (λ bs, bs = sample_frame)) (written (syscalls (world s')))) start.
Proof.
  destruct one_flow_valid as [Ho Hi Hd _ _ Hl].
  apply (synthetic_network_forwards _ "eth0" "eth1" "/ingress" "/egress" Ho Hi Hd (λ _, true) 0 (λ k, ex_intro _ 0%nat (conj (le_n 0) eq_refl))
    (λ bs, bs = sample_frame) "rush" "/spec" sample_contents every_us (λ _, Qos.f64_zero)).
  - by apply sample_kernel_laws.
  - intros bs ->. apply sample_proper.
  - apply sample_typed.
  - apply every_us_instant.
Defined.

Lemma running_reportable name : name ∈ dom (link_table running) → reportable running name.
Proof.
  intros Hn. assert (elements (dom (link_table running)) = ["source.output -> sink.input"]) as Hl by (vm_compute; reflexivity).
  apply elem_of_elements in Hn. rewrite Hl in Hn. apply list_elem_of_singleton in Hn as ->.
  assert (borrowed (world running) = ∅) as Hb by (vm_compute; reflexivity).
  exists 1%positive, Link.new. rewrite Hb. split_and!; [vm_compute; reflexivity|apply not_elem_of_empty|vm_compute; reflexivity|..];
    split; vm_compute; done.
Qed.

Lemma report_links_percent_witness :
  ∃ lines, report_links running = Ok (lines, running) ∧ Forall (reports_link running) lines ∧
    (sent_on <$> lines) ≡ₚ elements (dom (link_table running)) ∧ Sorted String.le (sent_on <$> lines).
Proof.
  apply (report_links_percent running). intros name Hn.
  by apply running_reportable.
Defined.

(** ** Frames cross the network

    A kernel with two devices: sockets are numbered from 3 on, and the frames
    arrive at the first one. *)

Definition sockets (h : list Syscall) : Z :=
  Z.of_nat (length (List.filter (λ c, match c with Socket => true | _ => false end) h)).

Definition two_devices : Kernel := {|
  answer h :=
    match h with
    | Socket :: h' => mkSysRet (3 + sockets h') 0 []
    | Select_read fd :: _ => if fd =? 3 then answer (Kernel := sample_kernel) h else mkSysRet 0 0 []
    | _ => answer (Kernel := sample_kernel) h
    end;
  retries := 0
|}.

(** The devices that are opened, and what is read and written, in order. *)
Definition traffic (h : list Syscall) : list Syscall :=
  List.filter (λ c, match c with If_nametoindex _ | Read _ _ | Write _ _ => true | _ => false end) (rev h).

(** A link of that rate and without delays both ways. *)
Definition plain_network (rate : Z) : SyntheticNetwork :=
  let qos := mkQoS rate Qos.f64_zero 0 0 Qos.f64_zero false in
  mkSyntheticNetwork (mkSyntheticLink qos qos) [].

(** The program runs for three breaths; every draw is 1. *)
Definition traffic_of (spec : SyntheticNetwork) : outcome (list Syscall) :=
  match main (H0 := two_devices) (λ k, (3 <=? k)%nat) 5 (λ _, [inr spec])
      ["rush"; "eth0"; "eth1"; "/spec"; "/ingress"; "/egress"] (init_engine None every_us (λ _, Qos.f64_one)) with
  | Ok (_, s) => Ok (traffic (syscalls (world s)))
  | Panic e => Panic e
  | UB e => UB e
  | NoFuel => NoFuel
  end.

(** At 100 Mbit/s both frames that eth1 delivers are written to eth0 as they were. *)
Example frames_cross :
  traffic_of (plain_network 100000000) =
    Ok [If_nametoindex "eth1"; If_nametoindex "eth0"; Read 3 65535; Read 3 65535;
        Write 4 sample_frame; Write 4 sample_frame].
Proof. vm_compute. reflexivity. Qed.

(** At 1 Mbit/s the bucket starts with the 100 bits of a tick: frames that
    arrive at once are dropped. *)
Example slow_link_drops :
  traffic_of (plain_network 1000000) =
    Ok [If_nametoindex "eth1"; If_nametoindex "eth0"; Read 3 65535; Read 3 65535].
Proof. vm_compute. reflexivity. Qed.
