(* ===== verification/SelftestApps.v ===== *)
(** * The tests of the program: engines

    The tests of engine.rs, flow.rs, qos.rs, rawsocket_app.rs and main.rs
    configure networks of the program's apps and of two apps of their own,
    run them and look at the statistics of links.  The type of apps is the sum
    of all of these: the definitions of the engine, which work for any apps, are
    used as they are.  A test passes when it returns.  Its result is some of
    what it prints: counters of packets, the order of breathing, flow counters. *)

From Stdlib Require Import Floats.SpecFloat.
From S2P Require Import Prelude Bytes Lib Checksum Packet Kernel App Engine Configure Report Breathe Apps.
From S2P Require Link Config Flow Ipv4 Qos DelayQueue BasicApps RawSocket.
#[local] Open Scope Z_scope.

(** ** The apps of the tests *)

(** engine.rs, PseudoIO: an app without callbacks that says it has some. *)
Record PseudoIO : Type := mkPseudoIO {}.
Record PseudoIOApp : Type := mkPseudoIOApp {}.

#[export] Instance PseudoIOApp_App : App PseudoIOApp := {|
  has_pull _ := true; pull := no_pull;
  has_push _ := true; push := no_push;
  has_stop _ := false; stop := no_stop
|}.

Definition PseudoIO_new (conf : PseudoIO) : PseudoIOApp := mkPseudoIOApp.

(** flow.rs, PacketGen: sends the packets of a list, from its end. *)
Record PacketGen : Type := mkPacketGen { conf_packets : list bytes }.
Record PacketGenApp : Type := mkPacketGenApp { packets : list bytes }.

Definition PacketGen_new (conf : PacketGen) : PacketGenApp := mkPacketGenApp (conf_packets conf).

(** packets.pop() *)
Definition pop {A} (l : list A) : option (A * list A) :=
  match rev l with
  | [] => None
  | x :: l => Some (x, rev l)
  end.

(** A new packet with [bs] in front. *)
Definition packet_of (output : link_id) (bs : bytes) : ST World () :=
  p ← on_mem allocate;
  pk ← on_mem (deref p);
  on_mem (write p (mkPacket (p_length pk) (copy (p_data pk) bs (length bs))));;
  pk ← on_mem (deref p);
  on_mem (write p (mkPacket (u16 (Z.of_nat (length bs))) (p_data pk)));;
  link_transmit output p.

(** while !link::full(&output) { match packets.pop() ... } *)
Fixpoint gen_loop (fuel : nat) (output : link_id) (packets : list bytes) : ST World (list bytes) :=
  b ← link_full output;
  if (b : bool) then mret packets
  else
    match pop packets with
    | None => mret packets
    | Some (bs, packets) =>
        packet_of output bs;;
        match fuel with
        | O => no_fuel
        | S fuel => gen_loop fuel output packets
        end
    end.

(** Every round of the loop takes a packet of the list. *)
Definition packetgen_pull (app : PacketGenApp) (ports : Ports) : ST World PacketGenApp :=
  match output ports !! "output" with
  | Some output =>
      borrow_mut output;;
      packets ← gen_loop (length (packets app)) output (packets app);
      release output;;
      mret (mkPacketGenApp packets)
  | None => mret app
  end.

#[export] Instance PacketGenApp_App : App PacketGenApp := {|
  has_pull _ := true; pull := packetgen_pull;
  has_push _ := false; push := no_push;
  has_stop _ := false; stop := no_stop
|}.

(** *** All apps *)

Inductive TestConf : Type :=
  | Program (c : AnyConf)
  | Pseudo (c : PseudoIO)
  | Gen (c : PacketGen).

Inductive TestApp : Type :=
  | ProgramApp (a : AnyApp)
  | PseudoApp (a : PseudoIOApp)
  | GenApp (a : PacketGenApp).

Section tests.
Context `{Target} `{Kernel} `{HashOrder}.

#[export] Instance TestApp_App : App TestApp := {|
  has_pull a := match a with ProgramApp a => has_pull a | PseudoApp a => has_pull a | GenApp a => has_pull a end;
  pull a ports :=
    match a with
    | ProgramApp a => a ← pull a ports; mret (ProgramApp a)
    | PseudoApp a => a ← pull a ports; mret (PseudoApp a)
    | GenApp a => a ← pull a ports; mret (GenApp a)
    end;
  has_push a := match a with ProgramApp a => has_push a | PseudoApp a => has_push a | GenApp a => has_push a end;
  push a ports :=
    match a with
    | ProgramApp a => a ← push a ports; mret (ProgramApp a)
    | PseudoApp a => a ← push a ports; mret (PseudoApp a)
    | GenApp a => a ← push a ports; mret (GenApp a)
    end;
  has_stop a := match a with ProgramApp a => has_stop a | PseudoApp a => has_stop a | GenApp a => has_stop a end;
  stop a := match a with ProgramApp a => stop a | PseudoApp a => stop a | GenApp a => stop a end
|}.

Definition new_test_app (c : TestConf) : ST World TestApp :=
  match c with
  | Program c => a ← new_app c; mret (ProgramApp a)
  | Pseudo c => mret (PseudoApp (PseudoIO_new c))
  | Gen c => mret (GenApp (PacketGen_new c))
  end.

Definition drop_test_app (a : TestApp) : ST World () :=
  match a with ProgramApp a => Apps.drop_app a | _ => mret tt end.

Context `{Debug TestConf}.

#[export] Instance TestConf_AppConfig : AppConfig TestConf TestApp := {|
  app_new := new_test_app;
  identity := debug;
  Engine.drop_app := drop_test_app
|}.

Abbreviation Engine := (EngineState TestConf TestApp).
Abbreviation Config := (Config.Config TestConf).
Abbreviation Options := (@Breathe.Options TestConf TestApp).

(** ** What the tests are made of *)

Definition source (size : Z) : TestConf := Program (Source (BasicApps.mkSource size)).
Definition sink : TestConf := Program Sink.
Definition tee : TestConf := Program Tee.

(** config::app and config::link, one after the other. *)
Definition add_apps (c : Config) (apps : list (string * TestConf)) : Config :=
  foldl (λ c '(name, conf), Config.app c name conf) c apps.

Definition add_links (c : Config) (specs : list string) : outcome Config :=
  foldl (λ c spec, c ← c; Config.link c spec) (Ok c) specs.

(** A network of apps and links. *)
Definition network (apps : list (string * TestConf)) (specs : list string) : ST Engine Config :=
  lift (add_links (add_apps Config.new apps) specs).

(** One app between a source and a sink. *)
Definition between (size : Z) (name : string) (conf : TestConf) : ST Engine Config :=
  network [("source", source size); (name, conf); ("sink", sink)]
    ["source.output -> " +:+ name +:+ ".input"; name +:+ ".output -> sink.input"].

Definition always : ST Engine bool := mret true.
Definition single_breath : Options := mkOptions (Some always) None false false true false.
Definition for_duration (d : Z) : Options := mkOptions None (Some d) false false true false.
Definition quiet_for (d : Z) : Options := mkOptions None (Some d) true false false false.

Definition ms : Z := 1000000.

(** assert!(b) *)
Definition check (b : bool) : ST Engine () := lift (assert "assertion failed" b).

(** engine::state().app_table.get(app).unwrap().output.get(port).unwrap() *)
Definition output_of (app port : string) : ST Engine link_id :=
  a ← get_app app;
  lift (unwrap "called `Option::unwrap()` on a `None` value" (output (ports a) !! port)).

(** output.borrow() *)
Definition borrow (l : link_id) : ST Engine Link.Link :=
  s ← get;
  if decide (l ∈ borrowed (world s)) then panic "already mutably borrowed: BorrowError" else in_world (link_at l).

(** ** engine.rs *)

(** [fuel] bounds the breaths of a call of main. *)
Definition engine_test (fuel : nat) : ST Engine (Z * Z * Z) :=
  c ← network [("source", source 60); ("sink", sink)] ["source.output -> sink.input"];
  configure c;;
  Breathe.main fuel (Some (mkOptions None (Some 0) false true true false));;
  let c := Config.app c "source" (source 120) in
  configure c;;
  Breathe.main fuel (Some (mkOptions (Some always) None false true true false));;
  s ← get;
  let stats := STATS (mem (world s)) in
  mret (frees stats, freebytes stats, freebits stats).

(** The order of breathing that a case prints. *)
Definition breathe_order_case (apps : list (string * TestConf)) (specs : list string) : ST Engine (list string * list string) :=
  c ← network apps specs;
  configure c;;
  report_links;;
  s ← get;
  mret (inhale s, exhale s).

Definition io : TestConf := Pseudo mkPseudoIO.

Definition breathe_order_test : ST Engine (list (list string * list string)) :=
  case1 ← breathe_order_case [("a_io1", io); ("b_t1", tee); ("c_t2", tee); ("d_t3", tee)]
    ["a_io1.output -> b_t1.input"; "b_t1.output -> c_t2.input";
     "b_t1.output2 -> d_t3.input"; "d_t3.output -> b_t1.input2"];
  case2 ← breathe_order_case [("a_io1", io); ("b_t1", tee); ("c_t2", tee); ("d_t3", tee)]
    ["a_io1.output -> b_t1.input"; "b_t1.output -> c_t2.input";
     "b_t1.output2 -> d_t3.input"; "c_t2.output -> d_t3.input2"];
  case3 ← breathe_order_case [("a_io1", io); ("b_t1", tee); ("c_t2", tee)]
    ["a_io1.output -> b_t1.input"; "a_io1.output2 -> c_t2.input"; "b_t1.output -> a_io1.input";
     "b_t1.output2 -> c_t2.input2"; "c_t2.output -> a_io1.input2"];
  mret [case1; case2; case3].

(** ** flow.rs *)

(** Ethernet and IPv4 headers, and ports, of packets to 10.10.0.42. *)
Definition tcp_packet (src : bytes) (src_port dst_port : bytes) : bytes :=
  [0x52; 0x54; 0x00; 0x02; 0x02; 0x02] ++ [0x52; 0x54; 0x00; 0x01; 0x01; 0x01] ++ [0x08; 0x00] ++
  [0x45; 0x00; 0x00; 0x34; 0x59; 0x1a; 0x40; 0x00; 0x40; 0x06; 0x00; 0x00] ++
  src ++ [10; 10; 0; 42] ++ src_port ++ dst_port.

Definition test_packets : list bytes :=
  [ (* TCP 192.168.0.123:200 -> 10.10.0.42:80 *) tcp_packet [192; 168; 0; 123] [0; 200] [0; 80];
   (* TCP 192.168.178.12:123 -> 10.10.0.42:80 *) tcp_packet [192; 168; 178; 12] [0; 123] [0; 80];
   (* IPv6 *) [0x52; 0x54; 0x00; 0x02; 0x02; 0x02; 0x52; 0x54; 0x00; 0x01; 0x01; 0x01; 0x86; 0xdd]].

Definition split_test (fuel : nat) : ST Engine () :=
  configure Config.new;;
  ip ← lift (Ipv4.pton (String.list_ascii_of_string "192.168.0.123"));
  c ← network
    [("source", Gen (mkPacketGen test_packets));
     ("split", Program (Split (Flow.mkSplit
       [Flow.mkFlow "src_addr" Flow.Src ip 0 0 0;
        Flow.mkFlow "dst_tcp80" Flow.Dst 0 Ipv4.PROTOCOL_TCP 80 80])));
     ("sink", sink)]
    ["source.output -> split.input"; "split.src_addr -> sink.src_addr";
     "split.dst_tcp80 -> sink.dst_tcp80"; "split.default -> sink.default"];
  configure c;;
  Breathe.main fuel (Some single_breath);;
  src_addr_out ← borrow_link "split.src_addr -> sink.src_addr";
  check (Link.txpackets src_addr_out =? 1);;
  dst_tcp80_out ← borrow_link "split.dst_tcp80 -> sink.dst_tcp80";
  check (Link.txpackets dst_tcp80_out =? 1);;
  default_out ← borrow_link "split.default -> sink.default";
  check (Link.txpackets default_out =? 1).

(** The slots of a profile that are printed. *)
Definition used_slots (map : positive) : ST World (list FlowCtr) :=
  w ← get;
  match profiles w !! map with
  | Some slots => mret (List.filter (λ slot, ctr_packets slot >? 0) slots)
  | None => undefined "dangling pointer to a flow profile"
  end.

(** fs::remove_file(path), whose result is ignored. *)
Definition remove_file (path : string) : ST World () := syscall (Unlink path);; mret tt.

Definition flowtop_test : ST World (list FlowCtr) :=
  map ← Flow.open_flowtop_map "flowtop.map";
  for_st (seq 1 10) (λ id, repeat_st 100 (Flow.flowtop_inc map (Z.of_nat id) 0 0 42));;
  slots ← used_slots map;
  Flow.close_flowtop_map map;;
  remove_file "flowtop.map";;
  mret slots.

Definition top_test (fuel : nat) : ST Engine (list FlowCtr) :=
  configure Config.new;;
  c ← network
    [("source", Gen (mkPacketGen test_packets)); ("top", Program (Top (Flow.mkTop "flowtop.map" Flow.Src))); ("sink", sink)]
    ["source.output -> top.input"; "top.output -> sink.input"];
  configure c;;
  Breathe.main fuel (Some single_breath);;
  input ← borrow_link "source.output -> top.input";
  output ← borrow_link "top.output -> sink.input";
  check (Link.rxpackets input =? Link.txpackets output);;
  (* Test stop() *)
  configure Config.new;;
  map ← in_world (Flow.open_flowtop_map "flowtop.map");
  slots ← in_world (used_slots map);
  in_world (remove_file "flowtop.map");;
  mret slots.

(** ** qos.rs *)

(** [x - y], of f64. *)
Definition f64_sub (x y : f64) : f64 := SFsub 53 1024 x y.

(** (x - y).abs() < tolerance *)
Definition f64_close (x y tolerance : f64) : bool := Qos.f64_lt (SFabs (f64_sub x y)) tolerance.

(** [loss_rate] is 0.1, [tolerance] 0.001. *)
Definition loss_test (fuel : nat) : ST Engine f64 :=
  in_world (on_mem (preallocate 2000));;
  let loss_rate := f64_div (Qos.f64_of_Z 1) (Qos.f64_of_Z 10) in
  c ← between 60 "loss" (Program (Loss (Qos.mkLoss loss_rate)));
  configure c;;
  Breathe.main fuel (Some (for_duration 10000000));;
  input ← borrow_link "source.output -> loss.input";
  output ← borrow_link "loss.output -> sink.input";
  let sent := Qos.f64_of_Z (Link.txpackets input) in
  let received := Qos.f64_of_Z (Link.rxpackets output) in
  let loss := f64_sub (Qos.f64_of_Z 1) (f64_div received sent) in
  let tolerance := f64_div (Qos.f64_of_Z 1) (Qos.f64_of_Z 1000) in
  check (f64_close loss loss_rate tolerance);;
  mret loss.

(** [rounds] bounds the calls of main until the first packet comes out. *)
Definition latency_test (fuel rounds : nat) : ST Engine (Z * Z) :=
  in_world (on_mem (preallocate 10000));;
  let delay := 100 in
  let capacity := 3000 in
  c ← between 60 "latency" (Program (Latency (DelayQueue.mkLatency delay capacity)));
  configure c;;
  start ← in_world Instant_now;
  output ← output_of "latency" "output";
  while_st rounds (λ _, r ← borrow output; mret (Link.txpackets r =? 0))
    (λ _, Breathe.main fuel (Some (quiet_for (1 * ms)))) tt;;
  finish ← in_world Instant_now;
  let latency_p1 := Z.max 0 (finish - start) / ms in
  check (Z.abs (delay - latency_p1) <? 2);;
  (* Reset engine state *)
  configure Config.new;;
  configure c;;
  let runtime := 250 in
  Breathe.main fuel (Some (for_duration (runtime * ms)));;
  output ← output_of "latency" "output";
  r ← borrow output;
  let sent := Link.txpackets r in
  let expected := capacity * (runtime / delay) in
  check (Z.abs (expected - sent) <? 100);;
  mret (latency_p1, sent).

(** The bits that passed, of the bits expected. *)
Definition ratelimit_test (fuel : nat) : ST Engine (Z * f64) :=
  in_world (on_mem (preallocate 2000));;
  let rate := 1000000 in
  let packet_size := 60 in
  let duration_ms := 100 in
  c ← between packet_size "limit" (Program (RateLimiter (Qos.mkRateLimiter rate)));
  configure c;;
  Breathe.main fuel (Some (for_duration (duration_ms * ms)));;
  output ← output_of "limit" "output";
  r ← borrow output;
  let sent := Link.txpackets r in
  p ← in_world (on_mem allocate);
  pk ← in_world (on_mem (deref p));
  in_world (on_mem (write p (mkPacket packet_size (p_data pk))));;
  pk ← in_world (on_mem (deref p));
  let bits := u64 (sent * bitlength pk) in
  in_world (on_mem (free p));;
  let share := f64_div (Qos.f64_of_Z duration_ms) (Qos.f64_of_Z 1000) in
  let expected := Qos.f64_mul (Qos.f64_of_Z rate) share in
  let tolerance := Qos.f64_mul (Qos.f64_mul (Qos.f64_of_Z rate) share) (f64_div (Qos.f64_of_Z 2) (Qos.f64_of_Z 100)) in
  check (f64_close expected (Qos.f64_of_Z bits) tolerance);;
  mret (bits, expected).

(** "Don't crash", and every packet comes out once the source is replaced. *)
Definition jitter_test (fuel : nat) : ST Engine (Z * Z) :=
  c ← between 60 "jitter"
    (Program (Jitter (DelayQueue.mkJitter 10 (f64_div (Qos.f64_of_Z 1) (Qos.f64_of_Z 10)) true 10000)));
  configure c;;
  Breathe.main fuel (Some single_breath);;
  let c := Config.app c "source" sink in
  configure c;;
  Breathe.main fuel (Some (for_duration (20 * ms)));;
  input ← borrow_link "source.output -> jitter.input";
  output ← borrow_link "jitter.output -> sink.input";
  let sent := Link.txpackets input in
  let received := Link.rxpackets output in
  check (SFeqb (Qos.f64_of_Z sent) (Qos.f64_of_Z received));;
  mret (sent, received).

(** ** rawsocket_app.rs *)

(** [uid] is the user: only root has raw sockets. *)
Definition rawsocket_sink_test (fuel : nat) (uid : Z) : ST Engine () :=
  if negb (uid =? 0) then mret tt
  else
    c ← network [("rawsocket", Program (RawSocket (RawSocket.mkRawSocket "lo"))); ("sink", sink)]
      ["rawsocket.output -> sink.input"];
    configure c;;
    Breathe.main fuel (Some (for_duration (1000 * ms))).

(** ** main.rs *)

(** [npackets] is a setting of the environment; [rounds] bounds the calls of
    main.  The result is the number of packets, and the time that they took. *)
Definition basic1_test (fuel rounds : nat) (npackets : Z) : ST Engine (Z * f64) :=
  c ← network [("Source", source 60); ("Tee", tee); ("Sink", sink)]
    ["Source.tx -> Tee.rx"; "Tee.tx1 -> Sink.rx1"; "Tee.tx2 -> Sink.rx2"];
  configure c;;
  start ← in_world Instant_now;
  output ← output_of "Source" "tx";
  report ← throttle;
  while_st rounds (λ _, r ← borrow output; mret (Link.txpackets r <? npackets))
    (λ report,
      Breathe.main fuel (Some (quiet_for 10000000));;
      '(b, report) ← throttled (1000 * ms) report;
      (if (b : bool) then report_load;; mret tt else mret tt);;
      mret report) report;;
  finish ← in_world Instant_now;
  r ← borrow output;
  mret (Link.txpackets r, as_secs_f64 (Z.max 0 (finish - start))).
End tests.
