(* ===== verification/SelftestLaws.v ===== *)
(** * The apps of the tests keep the contract of the engine

    [AppLaws] is met by apps that are not part of the program as well: the
    networks of the tests are as safe as those of the program.  What PacketGen
    sends is its list, from the end. *)

From S2P Require Import Prelude Bytes Lib Checksum Packet Kernel App Frames Engine Interface AppRules Apps.
From S2P Require Import BreatheOrder Configure Reconfigure Breathe Network SelftestApps.
From S2P Require Link BasicApps.
#[local] Open Scope Z_scope.

Lemma pop_spec {A} (l : list A) :
  match pop l with
  | None => l = []
  | Some (x, l') => l = l' ++ [x]
  end.
Proof.
  unfold pop. destruct (rev l) as [|x l'] eqn:Hl.
  - by rewrite <-(rev_involutive l), Hl.
  - by rewrite <-(rev_involutive l), Hl.
Qed.

(** The packet that carries [bs]. *)
Definition carries (bs : bytes) (x : loc * Packet) : Prop := wf_packet x.2 ∧ frame x.2 = bs.

Definition fits_packet (bs : bytes) : Prop := are_bytes bs ∧ (length bs ≤ PAYLOAD_SIZE)%nat.

Lemma packet_of_wp o bs q Q owned w :
  fits_packet bs → Q !! o = Some q → winv Q owned w →
  wpx overflow (packet_of o bs)
    (λ _ w', ∃ x, carries bs x ∧ winv (<[o := link_tx q x]> Q) owned w' ∧ same_env w w') w.
Proof.
  intros [Hb Hl] Hq Hw. pose proof payload_size_z as Hps. unfold packet_of. apply wpx_bind.
  eapply wpx_mono; [by apply allocate_rule|]. intros p w1 (pk & Hz & (Hu & Hd & Hbd) & Hw1 & He1).
  apply wpx_bind. eapply deref_rule; [exact Hw1|]. apply wpx_bind.
  assert (copy (p_data pk) bs (length bs) = bs ++ drop (length bs) (p_data pk)) as Hc.
  { unfold copy. replace (Nat.min _ _) with (length bs) by lia. by rewrite firstn_all. }
  eapply wpx_mono; [eapply write_rule; [exact Hw1|]|].
  { split_and!; simpl; [done|by rewrite length_copy|by apply copy_are_bytes]. }
  intros _ w2 [Hw2 He2]. apply wpx_bind. eapply deref_rule; [exact Hw2|]. apply wpx_bind. cbn [p_data].
  set (pk' := mkPacket _ _). assert (carries bs (p, pk')) as Hx.
  { split; [split_and!; simpl; [apply u16_range|by rewrite length_copy|by apply copy_are_bytes]|].
    unfold frame, pk'. cbn [snd p_length p_data]. rewrite u16_id by (unfold is_u16; lia). rewrite Nat2Z.id, Hc. by rewrite take_app_length. }
  eapply wpx_mono; [eapply write_rule; [exact Hw2|apply Hx]|]. intros _ w3 [Hw3 He3].
  eapply wpx_mono; [by eapply link_transmit_wp|]. intros _ w4 [Hw4 He4]. exists (p, pk').
  split_and!; [done|done|]. by repeat (etrans; [done|]).
Qed.

(** The loop sends packets off the end of the list, until there are none or the
    link is full. *)
Lemma gen_loop_wp o Q owned fuel : ∀ bss q w,
  Forall fits_packet bss → (length bss ≤ fuel)%nat → winv (<[o := q]> Q) owned w →
  wpx overflow (gen_loop fuel o bss)
    (λ rest w', ∃ sent xs, bss = rest ++ sent ∧ Forall2 carries (rev sent) xs ∧
      (rest = [] ∨ Z.of_nat (length (link_txs q xs)) = Link.LINK_MAX_PACKETS) ∧
      winv (<[o := link_txs q xs]> Q) owned w' ∧ same_env w w') w.
Proof.
  assert (∀ bss q w, bss = [] ∨ Z.of_nat (length q) = Link.LINK_MAX_PACKETS → winv (<[o := q]> Q) owned w →
    ∃ sent xs, bss = bss ++ sent ∧ Forall2 carries (rev sent) xs ∧
      (bss = [] ∨ Z.of_nat (length (link_txs q xs)) = Link.LINK_MAX_PACKETS) ∧
      winv (<[o := link_txs q xs]> Q) owned w ∧ same_env w w) as Hstop.
  { intros bss q w Hd Hw. exists [], []. rewrite app_nil_r. split_and!; [done|constructor|done|done|done]. }
  induction fuel as [|fuel IH]; intros bss q w Hf Hl Hw; cbn [gen_loop]; apply wpx_bind;
    (eapply link_full_wp; [exact Hw|apply lookup_insert_eq|]);
    (case_bool_decide as Hfull; [apply wpx_ret, Hstop; auto|]); pose proof (pop_spec bss) as Hpop;
    (destruct (pop bss) as [[bs bss']|]; [|apply wpx_ret, Hstop; auto]).
  - rewrite Hpop, length_app in Hl. simpl in Hl. lia.
  - rewrite Hpop in Hf, Hl |- *. rewrite length_app in Hl. simpl in Hl. apply Forall_app in Hf as [Hf Hbs].
    apply Forall_cons in Hbs as [Hbs _]. apply wpx_bind.
    eapply wpx_mono; [by eapply packet_of_wp; [|apply lookup_insert_eq|]|]. intros _ w1 (x & Hx & Hw1 & He1).
    rewrite insert_insert_eq in Hw1. eapply wpx_mono; [by apply IH; [|lia|]|].
    intros rest w2 (sent & xs & Heq & Hxs & Hd & Hw2 & He2). exists (sent ++ [bs]), (x :: xs).
    rewrite rev_app_distr. simpl. split_and!; [by rewrite Heq, app_assoc|by constructor|done|done|by etrans].
Qed.

Section laws.
Context `{Target} `{Kernel} `{HashOrder} (P : Packet → Prop) `{!Preserved P} `{!KernelLaws (delivers P)}.
Implicit Types (r R : res) (Q : queues).

(** Packets that a device could have delivered. *)
Definition deliverable (bs : bytes) : Prop := fits_packet bs ∧ delivers P bs.

Lemma carries_good bs x : deliverable bs → carries bs x → P x.2.
Proof. intros [_ Hd] [Hwf <-]. by apply delivers_frame. Qed.

Lemma packetgen_step t ports Q R w :
  Forall deliverable (packets t) → rinv P Q R w → ports_ok ports Q →
  wpx any (pull t ports) (λ t' w', Forall deliverable (packets t') ∧ ∃ Q', callback_post P Q R w Q' R w') w.
Proof.
  intros Ht Hw Hp. simpl. unfold packetgen_pull. destruct (output ports !! "output") as [o|] eqn:Ho.
  2: { apply wpx_ret. split; [done|]. exists Q. by apply callback_refl. }
  destruct (po_output _ _ Hp _ _ Ho) as [q Hq]. destruct (rinv_good _ _ _ _ Hw) as [HgQ _].
  apply wpx_bind. unfold borrow_mut, wpx at 1. rewrite decide_False by by eapply rinv_idle.
  apply wpx_bind. eapply wpx_mono; [apply (wpx_overflow any), (gen_loop_wp o Q (r_packets R) _ _ q)|].
  - eapply Forall_impl; [exact Ht|]. by intros bs [].
  - done.
  - rewrite insert_id by done. apply winv_set_borrowed, Hw.
  - intros rest w' (sent & xs & Heq & Hxs & _ & Hw' & He). rewrite Heq in Ht. apply Forall_app in Ht as [Hrest Hsent].
    unfold release. wp_steps. split; [done|]. exists (<[o := link_txs q xs]> Q).
    assert (same_env w (set_borrowed (borrowed w' ∖ {[o]}) w')) as He'.
    { destruct He as [Hb]. split; simpl in *; try done. rewrite Hb, (ri_idle _ _ _ _ Hw). set_solver. }
    apply callback_links; [done|by apply winv_set_borrowed| |by eapply dom_insert_same|by apply He'|by apply same_env_quiet].
    apply good_insert; [done|]. apply good_link_txs; [by eapply good_lookup|].
    assert (Forall deliverable (rev sent)) as Hs by (by apply Forall_rev).
    clear -Hxs Hs Preserved0. revert Hs. induction Hxs as [|bs x bss xs Hx _ IH]; intros Hs; [constructor|].
    apply Forall_cons in Hs as [Hbs Hs]. constructor; [by eapply carries_good|by apply IH].
Qed.

(** *** The instance *)

Definition owns_test (c : TestConf) (t : TestApp) r : Prop :=
  match c, t with
  | Program c, ProgramApp t => owned_app P c t r
  | Pseudo _, PseudoApp _ => r = ∅
  | Gen _, GenApp t => r = ∅ ∧ Forall deliverable (packets t)
  | _, _ => False
  end.

Definition conf_test (c : TestConf) : Prop :=
  match c with
  | Program c => conf_any P any c
  | Pseudo _ => True
  | Gen c => Forall deliverable (conf_packets c)
  end.

Lemma new_test_law c Q R w :
  conf_test c → rinv P Q R w →
  wpx any (new_test_app c) (λ t w', ∃ r, owns_test c t r ∧ callback_post P Q R w Q (r ⊎ R) w') w.
Proof.
  intros Hc Hw. destruct c as [c|c|c]; simpl.
  - apply wpx_bind. eapply wpx_mono; [by eapply new_app_law|]. intros t w' (r & Ho & Hp). apply wpx_ret. by exists r.
  - apply wpx_ret. exists ∅. rewrite res_app_empty_l. split; [done|by apply callback_refl].
  - apply wpx_ret. exists ∅. rewrite res_app_empty_l. split; [done|by apply callback_refl].
Qed.

Lemma finish_test_law `{Debug TestConf} c t r Q R w :
  owns_test c t r → rinv P Q (r ⊎ R) w →
  wpx any (finish (C := TestConf) t) (λ _ w', callback_post P Q (r ⊎ R) w Q R w') w.
Proof.
  intros Ho Hw. destruct c as [c|c|c], t as [t|t|t]; try done; simpl in Ho.
  - pose (Build_Debug AnyConf (λ _, "")) as Hdebug. exact (finish_step P any t r Q R w (proj2 Ho) Hw).
  - subst r. apply wpx_bind, wpx_ret, wpx_ret. rewrite res_app_empty_l in *. by apply callback_refl.
  - destruct Ho as [-> _]. apply wpx_bind, wpx_ret, wpx_ret. rewrite res_app_empty_l in *. by apply callback_refl.
Qed.

(** A callback of an app of the program is one of the test. *)
Lemma program_step (m : ST World AnyApp) c t r Q R w :
  wpx any m (λ t' w', ∃ r' Q', owned_app P c t' r' ∧ same_kind t t' ∧ callback_post P Q (r ⊎ R) w Q' (r' ⊎ R) w') w →
  wpx any (a ← m; mret (ProgramApp a)) (λ t' w', ∃ r' Q', owns_test (Program c) t' r' ∧
    same_kind (ProgramApp t) t' ∧ callback_post P Q (r ⊎ R) w Q' (r' ⊎ R) w') w.
Proof.
  intros Hm. apply wpx_bind. eapply wpx_mono; [exact Hm|]. intros a w' (r' & Q' & Ho & Hk & Hp).
  apply wpx_ret. by exists r', Q'.
Qed.

Lemma pull_test_law c t r ports Q R w :
  has_pull t = true → owns_test c t r → rinv P Q (r ⊎ R) w → ports_ok ports Q → True → timed w →
  wpx any (pull t ports) (λ t' w', ∃ r' Q', owns_test c t' r' ∧ same_kind t t' ∧ callback_post P Q (r ⊎ R) w Q' (r' ⊎ R) w') w.
Proof.
  intros Hk Ho Hw Hp _ Ht. destruct c as [c|c|c], t as [t|t|t]; try done.
  - apply program_step. apply pull_step; try done. by apply fits_any_any.
  - destruct Ho as [-> Hg]. rewrite res_app_empty_l in *. apply wpx_bind.
    eapply wpx_mono; [by apply packetgen_step|]. intros t' w' (Hg' & Q' & Hpost). apply wpx_ret.
    exists ∅, Q'. rewrite res_app_empty_l. by split_and!.
Qed.

Lemma push_test_law c t r ports Q R w :
  has_push t = true → owns_test c t r → rinv P Q (r ⊎ R) w → ports_ok ports Q → True → timed w →
  wpx any (push t ports) (λ t' w', ∃ r' Q', owns_test c t' r' ∧ same_kind t t' ∧ callback_post P Q (r ⊎ R) w Q' (r' ⊎ R) w') w.
Proof.
  intros Hk Ho Hw Hp _ Ht. destruct c as [c|c|c], t as [t|t|t]; try done. apply program_step. apply push_step; try done. by apply fits_any_any.
Qed.

#[export] Instance TestApp_laws `{Debug TestConf} : AppLaws P any TestConf TestApp := {|
  owns := owns_test;
  conf_ok := conf_test;
  fits _ _ _ := True;
  new_law := new_test_law;
  finish_law := finish_test_law;
  pull_law := pull_test_law;
  push_law := push_test_law
|}.
End laws.
