(* ===== verification/SelftestRuns.v ===== *)
(** * The tests of the program: runs

    The tests of engines, run: with the sample kernel, clocks that tick evenly,
    and draws that repeat every ten numbers. *)

From Stdlib Require Import Floats.SpecFloat.
From stdpp Require Import countable pretty.
From S2P Require Import Prelude Bytes Checksum Packet Kernel App Engine Reconfigure Report Apps Scenario Selftest SelftestApps.
From S2P Require Qos.
#[local] Open Scope Z_scope.

Definition test_tree (c : TestConf) : tree :=
  match c with
  | Program c => conf_tree c
  | Pseudo _ => GenNode 13 []
  | Gen c => GenNode 14 (GenNode 0 ∘ fmap num <$> conf_packets c)
  end.

#[local] Instance test_debug : Debug TestConf := {| debug c := pretty (Npos (encode (test_tree c))) |}.
#[local] Instance test_target : Target := x86_64.
#[local] Instance test_kernel : Kernel := sample_kernel.

(** The result of a computation from the start of the process. *)
Definition result {A} (clk : nat → Z) (draws : nat → Qos.f64) (m : ST (EngineState TestConf TestApp) A) : outcome A :=
  match m (init_engine None clk draws) with
  | Ok (a, _) => Ok a
  | Panic e => Panic e
  | UB e => UB e
  | NoFuel => NoFuel
  end.

(** A clock with a tick of [d] nanoseconds. *)
Definition even (d : Z) (k : nat) : Z := d * Z.of_nat k.

(** 0, 0.1, 0.2, ..., 0.9, 0, ... *)
Definition tenths (k : nat) : Qos.f64 := f64_div (Qos.f64_of_Z (Z.of_nat k mod 10)) (Qos.f64_of_Z 10).
Definition zeros (k : nat) : Qos.f64 := Qos.f64_zero.

Section listed.
#[local] Existing Instance listed.

(** Two breaths of 102 packets, of 60 and of 120 bytes. *)
Example engine_test_passes : result (even 1000) zeros (engine_test 3) = Ok (204, 18360, 186048).
Proof. vm_compute. reflexivity. Qed.

Example split_test_passes : result (even 1000) zeros (split_test 0) = Ok tt.
Proof. vm_compute. reflexivity. Qed.

(** Every flow has been counted, in a slot of its own. *)
Example flowtop_test_passes : result (even 1000) zeros (in_world flowtop_test) =
  Ok ((λ id, mkFlowCtr 100 4200 id) <$> [4; 3; 9; 7; 10; 1; 2; 6; 5; 8]).
Proof. vm_compute. reflexivity. Qed.

Example top_test_passes : result (even 1000) zeros (top_test 0) = Ok [].
Proof. vm_compute. reflexivity. Qed.

Example rawsocket_sink_test_passes : result (even (100 * ms)) zeros (rawsocket_sink_test 20 0) = Ok tt.
Proof. vm_compute. reflexivity. Qed.

(** One draw in ten is below 0.1. *)
Example loss_test_passes :
  result (even 2500000) tenths (loss_test 20) = Ok (f64_sub (Qos.f64_of_Z 1) (f64_div (Qos.f64_of_Z 9) (Qos.f64_of_Z 10))).
Proof. vm_compute. reflexivity. Qed.

(** 148 packets of 672 bits. *)
Example ratelimit_test_passes :
  result (even (20 * ms)) zeros ('(bits, _) ← ratelimit_test 20; mret bits) = Ok 99456.
Proof. vm_compute. reflexivity. Qed.

Example jitter_test_passes : result (even (5 * ms)) tenths (jitter_test 20) = Ok (102, 102).
Proof. vm_compute. reflexivity. Qed.

Example basic1_test_passes : result (even (20 * ms)) zeros ('(packets, _) ← basic1_test 20 20 150; mret packets) = Ok 204.
Proof. vm_compute. reflexivity. Qed.
End listed.

(** The order of breathing does not depend on that of hash tables here. *)
Example breathe_order_test_passes (o : HashOrder) : o = listed ∨ o = reversed →
  result (even 1000) zeros (@breathe_order_test _ _ o _) =
    Ok [(["a_io1"], ["b_t1"; "c_t2"; "d_t3"]);
        (["a_io1"], ["b_t1"; "c_t2"; "d_t3"]);
        (["a_io1"], ["b_t1"; "c_t2"; "a_io1"])].
Proof. intros [-> | ->]; vm_compute; reflexivity. Qed.
